(* ===== verification/_CoqProject ===== *)
-Q . S2P
Prelude.v
Laptos.v
Toy.v
Payload.v
Certificates.v
Block.v
Votes.v
SafetyRules.v
NodeSafety.v
Agreement.v
PendingVotes.v
RoundState.v
BlockBuffer.v
BufferSafety.v
Pipelined.v
BlockTree.v
TreeSafety.v
PendingBlocks.v
Recovery.v
BlockStore.v
StoreSafety.v
Elections.v
Reputation.v
LeaderAgreement.v
PipelineBuffer.v
BufferItem.v
BufferManager.v
PipelineSafety.v
Expirations.v
BatchStore.v
BatchStoreSafety.v
Shuffle.v
ProofQueue.v
ProofQueueSafety.v
ProofPull.v
ProofManager.v
ProofManagerSafety.v
ProofCoordinator.v
ProofCoordinatorSafety.v
Batches.v
BatchMessages.v
QuorumStoreDb.v
BatchGenerator.v
BatchGeneratorSafety.v
BatchIds.v
InProgressSafety.v
TxnOrder.v
Deduper.v
SenderAware.v
SenderAwareSafety.v
DelayedQueue.v
DelayedQueueSafety.v
UseCaseAwareSafety.v
BlockPreparer.v
BatchReader.v
BatchReaderSafety.v
ObserverMessages.v
ObserverPayloads.v
ObserverStores.v
ObserverStoresSafety.v
Observer.v
ObserverSafety.v
Scenario.v
MessageExamples.v
VoteExamples.v
RoundExamples.v
BufferExamples.v
TreeExamples.v
StoreExamples.v
ElectionExamples.v
PipelineExamples.v
QuorumStoreExamples.v
ProposalExamples.v
OrderingExamples.v
ReaderExamples.v
ObserverExamples.v
