(* ===== verification/Prelude.v ===== *)
(** * A verification of the Liquent consensus node

    Liquent (src/) is a blockchain node: the AptosBFT consensus protocol
    (src/aptos-core/consensus), a mempool, and a buffer that hands ordered
    blocks to an Ethereum execution client and results back to consensus
    (src/crates/block-buffer-manager).  This library models its protocol core
    in Rocq, one definition per type and operation, and proves what makes it
    correct.

    ** The program and its model

    A validator proposes and receives blocks; checks every message it receives
    (consensus-types); votes through its safety rules, the only component with
    the consensus key (safety-rules); follows rounds with a pacemaker and
    collects votes into certificates (consensus/src/liveness, pending_votes.rs);
    and hands ordered blocks to execution, whose results it signs and commits.

    - [Prelude]: results of fallible code, state-passing code, machine
      integers, ordered maps, and the tactics of the library.
    - [Laptos]: the interface of the external laptos crates (hashes, BLS
      signatures, validator sets, block and ledger infos) as a class with the
      laws the theorems use.  Its code is not part of the repository; [Toy] is a
      concrete instance that satisfies the laws.
    - [Payload]: consensus-types/src/{proof_of_store, payload, common}.rs.
    - [Certificates]: consensus-types/src/{vote_data, quorum_cert,
      wrapped_ledger_info, timeout_2chain}.rs.
    - [Block]: consensus-types/src/{proposal_ext, block_data, block,
      block_retrieval}.rs.
    - [Votes]: votes, order votes, commit votes, sync info and the messages
      that carry them (the other files of consensus-types/src).
    - [SafetyRules]: safety-rules/src/{persistent_safety_storage, safety_rules,
      safety_rules_2chain, ...}.rs.  The state is the persisted [SafetyData]
      behind its cache, the signer and the epoch state; the secure storage is an
      operational class.
    - [NodeSafety]: safety-rules/src/serializer.rs and runs of one validator:
      requests, failing writes and restarts in any order.
    - [Agreement]: a network of validators running [NodeSafety.serve], with
      Byzantine others, as a step relation.
    - [PendingVotes]: consensus/src/{pending_votes, pending_order_votes,
      qc_aggregator}.rs.
    - [RoundState]: consensus/src/liveness/round_state.rs, with the clock, the
      scheduled timers and the timeout channel of util/time_service.rs.
    - [BlockBuffer], [BufferSafety]: crates/block-buffer-manager and the compute
      results of dependencies/aptos-executor-types; the first file has the
      operations, the second the histories of calls and the theorems.
    - [Pipelined]: consensus-types/src/pipelined_block.rs.
    - [BlockTree], [TreeSafety]: consensus/src/block_storage/block_tree.rs; the
      operations, and histories of calls with the theorems.
    - [PendingBlocks]: consensus/src/block_storage/pending_blocks.rs.
    - [Recovery]: the recovery data of consensus/src/persistent_liveness_storage.rs.
    - [BlockStore], [StoreSafety]: consensus/src/block_storage/block_store.rs and
      [finalize_order] of pipeline/execution_client.rs.  The state is the tree,
      the pending blocks and the clock; the storage is an operational class, and
      the batches sent to the pipeline are logged.  A block that is shared by
      reference is updated in the tree.
    - [Elections]: the proposer elections of consensus/src/liveness and their
      wrappers, against one interface; [Reputation]: leader_reputation.rs and
      the search for the committed anchor in consensusdb/mod.rs;
      [LeaderAgreement]: the theorems about both.  Data that other tasks change
      (ledger infos, configuration storage) is an argument of every call.
    - [PipelineBuffer], [BufferItem], [BufferManager]:
      consensus/src/pipeline/{buffer, buffer_item, buffer_manager,
      commit_reliable_broadcast}.rs.  The state is the manager with its linked
      buffer; requests to the other phases, broadcasts and replies are a log, and
      an event is one turn of the manager's loop.  [PipelineSafety] has runs of
      events and the theorems.
    - The quorum store, consensus/src/quorum_store, spreads transactions in
      batches before blocks name them.  [Expirations]: the queues of utils.rs;
      [BatchStore]: batch_store.rs and types.rs, with the two critical sections
      of an insertion as separate steps; [Batches]: batches and messages of
      types.rs and batch_coordinator.rs; [QuorumStoreDb]: quorum_store_db.rs over
      a schema database; [ProofQueue] and [Shuffle]: the proof queue of utils.rs,
      the random order of authors being an argument; [ProofManager]:
      proof_manager.rs and the payload filter; [ProofCoordinator]:
      proof_coordinator.rs; [BatchGenerator]: batch_generator.rs.  Their
      theorems are in [BatchStoreSafety], [BatchMessages], [ProofQueueSafety],
      [ProofPull], [ProofManagerSafety], [ProofCoordinatorSafety],
      [BatchGeneratorSafety], [BatchIds] and [InProgressSafety].
    - [BatchReader], [BatchReaderSafety]: batch_requester.rs, [get_batch] of
      batch_store.rs and [request_batch] of network.rs.  A request is driven by
      the ticks of its timer, the answers of the peers and the subscription to
      the store.
    - The transactions of a block are filtered, deduplicated and shuffled before
      execution.  [TxnOrder]: what a shuffler promises;
      [Deduper]: txn_hash_and_authenticator_deduper.rs; [SenderAware],
      [SenderAwareSafety]: transaction_shuffler/sender_aware.rs;
      [DelayedQueue], [DelayedQueueSafety], [UseCaseAwareSafety]:
      transaction_shuffler/use_case_aware; [BlockPreparer]: block_preparer.rs,
      which composes them.
    - The consensus observer, consensus/src/consensus_observer, follows a
      validator without voting.  [ObserverMessages], [ObserverPayloads]:
      network_message.rs and what its verification establishes;
      [ObserverStores], [ObserverStoresSafety]: the stores of payloads, ordered
      blocks and pending blocks; [Observer]: subscription.rs, publisher.rs,
      observer.rs and the observer's part of payload_manager.rs.  The state is
      the observer with its stores; the calls to the execution client are a log
      and an event is one turn of its loop or a commit callback.
      [ObserverSafety] has the runs and the theorems.
    - [Scenario], [MessageExamples], [VoteExamples], [RoundExamples],
      [BufferExamples], [TreeExamples], [StoreExamples], [ElectionExamples],
      [PipelineExamples], [QuorumStoreExamples], [ProposalExamples],
      [OrderingExamples], [ReaderExamples], [ObserverExamples]: a network of
      four validators and other concrete inputs at which the theorems with
      hypotheses are applied.

    A Rust method is a function with the method's name (prefixed by its type
    where two types share it); [&mut self] is state passing ([SM]), [Result] is
    [result] with a third outcome [Panic] for failed assertions, unwraps of the
    wrong variant and arithmetic overflow, as in a release build, whose profile
    checks for overflow and leaves out debug assertions.  A [u64] is a [Z] with the overflow
    check written out; a [HashMap] or [BTreeMap] is a [gmap].  Error messages
    are kept without the values interpolated into them.  Logging and metrics
    are left out.

    ** What the theorems show

    - Safety of the protocol ([Agreement.agreement],
      [Agreement.committed_block_unique]): in every reachable state of the
      network, ledger infos signed by quorums of one epoch commit blocks of one
      chain.  The hypotheses are that signatures of honest validators are not
      forged, that two quorums share an honest validator, and that hashes of
      vote data do not collide.
    - Safety of one validator ([NodeSafety.validator_never_equivocates],
      [NodeSafety.safety_data_monotone]): over any requests, failing writes and
      restarts.  A quorum is a list of distinct validators.
    - Vote collection ([PendingVotes]): certificates made of verified votes
      verify, a quorum of votes makes one, no vote counts twice.
    - The pacemaker ([RoundState]): announced rounds follow the certificates and
      strictly increase, no call panics, and the current round always times out
      in the end.
    - The block buffer ([BufferSafety]): blocks follow a life cycle, execution
      gets chains or is told that its waiting time is over, consensus only sees
      results execution produced, an epoch change reaches both sides exactly once, persistence gets each committed
      block and each notification once.
    - The block tree ([TreeSafety]): its links, roots and certificates stay
      consistent over any history in which callers respect what the block store
      guarantees, pruning keeps exactly the subtree of the committed block, and
      paths are exactly the chains of parent links.  The hypothesis on blocks is
      that an id determines a round and that rounds grow along parent links,
      which hashes and [Block_verify_well_formed] provide.
    - The block store ([StoreSafety], [Recovery]): ordered blocks are numbered
      and sent to execution once and in order, blocks are persisted before they
      are visible, the walks along parent links end, and the root found at a
      restart is one the tree can be built on.
    - Leaders ([Elections], [LeaderAgreement]): the weighted choice equals a walk
      along the weights and is fair, a validator accepts at most one proposal per
      round, and past the fork the leader is a function of the committed anchor,
      whatever the caches hold and whatever was asked before, unless a read of the
      performances at the anchor's block failed.  The hypotheses are that a read
      that succeeds gives the performances of the block, that they fit the integer
      types, and that a hash is its bytes.
    - The execution pipeline ([PipelineBuffer], [PipelineSafety]): the linked
      buffer is a queue with lookup by key; over any events every handler
      returns and blocks are persisted in the order in which they were ordered,
      none lost or repeated and only after execution.  The hypotheses are those of
      [PipelineSafety.event_ok]: blocks are ordered once and without backpressure,
      responses of the execution phase come in order and agree with the network,
      commit messages were verified.  The commit proofs verify if besides every
      commit vote signs the ledger info that belongs to its commit info; one that
      does not can spoil a proof ([PipelineSafety.deviating_vote_spoils_proof]).
      All of this holds with order votes and without.
    - The batch store ([BatchStoreSafety], [BatchMessages]): a signature promises
      the batch, which stays readable unless one of its digest was fetched under
      another epoch; quotas are exact; verified messages are stored and signed, or
      refused without effect.  The database is assumed to return what was written.
    - Proofs of store ([ProofCoordinatorSafety], [ProofQueueSafety], [ProofPull],
      [ProofManagerSafety]): proofs are made exactly at a quorum and verify, the
      counters of the queue are the sums they stand for, and a proposal keeps all
      limits and repeats no batch of the filtered blocks but those inlined in
      OptQuorumStore payloads, whatever order the authors are visited in.
      The commits handed to the queue are assumed to have the sizes of the queued
      proofs ([ProofQueueSafety.commit_matches]); without it the queue panics.
    - Batches ([BatchGeneratorSafety], [BatchIds], [InProgressSafety]): they keep
      the limits and verify and hold the pulled transactions by gas price, ids are
      never reused across crashes, and exactly the transactions of batches in progress are left out of the next pull.
    - Reading batches ([BatchReaderSafety]): whatever the peers respond, a batch
      that is delivered has the digest asked for, and a request ends after its
      retries, by when every signer was asked.
    - Transaction order ([Deduper], [SenderAwareSafety], [UseCaseAwareSafety],
      [BlockPreparer]): the deduper, if one is configured, keeps the first of equal transactions, a
      shuffler permutes the block and keeps the order of each sender, and no
      assertion fails; a prepared block is what these promise together.
    - The observer ([ObserverPayloads], [ObserverStoresSafety],
      [ObserverSafety]): blocks handed to execution are chains with verified
      proofs and with payloads that were received and verified, an accepted
      payload of the block's kind has exactly the block's transactions, the stores
      are bounded, and no event panics but the end of a state sync that finalizes
      a block again ([ObserverSafety.observer_survives] gives runs without it).
      Received blocks are those that deserialization makes.  Verification of
      signatures is assumed to return.
    - Message checks ([Payload], [Votes], [Block]): what a message that verifies
      guarantees, freedom from panics on arbitrary input, that honest messages
      pass, and round trips.
    - Defects: of the uncached storage path
      ([SafetyRules.uncached_safety_data_unreadable]), of the block buffer
      ([BlockBuffer.suffix_request_renames_block]), of restarts with order votes
      ([Recovery.order_vote_recovery_panics]), of the pending blocks
      ([PendingBlocks.pending_round_collision_leaks]), of the commit votes
      ([PipelineSafety.deviating_vote_spoils_proof]), of the batch store
      ([ProposalExamples.late_expiration_panics]), of the proof queue
      ([ProposalExamples.conflicting_commit_panics]), of the batch reader
      ([BatchReaderSafety.forged_batch_signed_unavailable]) and of the observer
      ([ObserverSafety.payload_replaced], [ObserverSafety.stale_decision_panics],
      [ObserverSafety.foreign_commit_unverified],
      [ObserverPayloads.extra_transactions_accepted],
      [ObserverPayloads.opt_payload_rejected],
      [ObserverStoresSafety.full_store_unverified]).

    ** Bounds

    Loops over lists and maps are structural.  The two loops of the block buffer
    over consecutive block numbers take fuel one above the number of buffered
    blocks: every iteration but the last finds another block, and the theorems
    show that the fuel never runs out.  The loops of the block tree and the block
    store take the number of stored blocks as fuel: rounds fall along parent
    links, so no block is visited twice, which the theorems use to show that the
    fuel is enough.  The binary search of the elections halves its range, so the
    length of the list is fuel enough.  The loops over the pipeline's linked
    buffer take its length: [PipelineBuffer.represents] makes it a list without
    cycles.  The loop of a pull takes [Shuffle.rounds] of its iterators, one above
    the length of the longest, since a round advances or drops every iterator;
    cutting a bucket into batches takes one step per transaction, and so does the
    iterator of the use case aware shuffler, whose fuel is one above the number of
    transactions.  Durations are bounded by a parameter that stands for the
    longest round; the theorems ask for clock values that leave room for it below the largest [Duration].

    ** What is not modelled

    Asynchronous plumbing (event loops of the round and epoch managers, network,
    threads), databases, HTTP endpoints, command line tools, metrics, the
    floating-point round interval, and the DAG protocol, which the node does not
    enable.  Of the block store, the replay of blocks through the execution
    client at a restart is left out but for the commit that ends it; of the
    quorum store, the mempool behind a channel and the pull rate, which is
    computed in floating point.  Batches that the code stores in parallel or in a
    spawned task are stored one after the other.  Of the observer, the task that
    serializes published messages and the reading of the on-chain configuration
    are left out, and the commit callback, which takes the locks of three stores
    in turn, is one step.  Of the payload managers, the one of the quorum store,
    which awaits the batches of a payload, is left out.  The randomness share
    stores and the mempool are not modelled. *)
From stdpp Require Export prelude gmap list strings sorting.
From Stdlib Require Export ZArith Lia.

#[export] Set Warnings "-notation-overridden,-clear-no-such-hyp".
#[global] Open Scope Z_scope.

(** * Outcomes of fallible Rust code

    [Ok] and [Err] are the constructors of Rust's [Result]; [Panic] is the
    outcome of a [panic!], a failed [assert!], an [expect] on the wrong
    variant or an [unreachable!]. *)
Inductive result (E A : Type) : Type :=
| Ok (a : A)
| Err (e : E)
| Panic.
Arguments Ok {E A} a.
Arguments Err {E A} e.
Arguments Panic {E A}.

#[global] Instance result_eq_dec {E A} `{EqDecision E, EqDecision A} :
  EqDecision (result E A).
Proof. solve_decision. Defined.

#[global] Instance result_ret E : MRet (result E) := λ A a, Ok a.
#[global] Instance result_bind E : MBind (result E) := λ A B f m,
  match m with Ok a => f a | Err e => Err e | Panic => Panic end.

Definition map_err {E F A} (f : E → F) (m : result E A) : result F A :=
  match m with Ok a => Ok a | Err e => Err (f e) | Panic => Panic end.

Definition ok_or {E A} (m : option A) (e : E) : result E A :=
  match m with Some a => Ok a | None => Err e end.

Definition is_ok {E A} (m : result E A) : bool :=
  match m with Ok _ => true | _ => false end.

(** A [for] loop that threads an accumulator and may stop early. *)
Fixpoint fold_result {E A B} (f : B → A → result E B) (b : B) (l : list A) : result E B :=
  match l with
  | [] => Ok b
  | a :: l => b ← f b a; fold_result f b l
  end.

(** [ensure!(cond, msg)] of the anyhow crate. *)
Definition ensure {E} (b : bool) (e : E) : result E unit :=
  if b then Ok tt else Err e.

(** * State-passing code with errors

    A [&mut self] method that returns a [Result] is a function from the state
    to the state it leaves behind and its outcome: an error or a panic keeps
    the writes made before it. *)
Definition SM (S E A : Type) : Type := S → S * result E A.

#[global] Instance SM_ret S E : MRet (SM S E) := λ A a s, (s, Ok a).
#[global] Instance SM_bind S E : MBind (SM S E) := λ A B f m s,
  match m s with
  | (s', Ok a) => f a s'
  | (s', Err e) => (s', Err e)
  | (s', Panic) => (s', Panic)
  end.

(** A read-only computation inside a state-passing one. *)
Definition lift {S E A} (m : S → result E A) : SM S E A := λ s, (s, m s).

(** An infallible update of the state. *)
Definition modify {S E} (f : S → S) : SM S E unit := λ s, (f s, Ok tt).

Lemma Ok_bind {E A B} (m : result E A) (f : A → result E B) b :
  (m ≫= f) = Ok b ↔ ∃ a, m = Ok a ∧ f a = Ok b.
Proof. destruct m; cbv; naive_solver. Qed.

Lemma Ok_map_err {E F A} (f : E → F) (m : result E A) a :
  map_err f m = Ok a ↔ m = Ok a.
Proof. destruct m; simpl; naive_solver. Qed.

Lemma Ok_ensure {E} (b : bool) (e : E) u : ensure b e = Ok u ↔ b = true.
Proof. destruct b, u; cbv; naive_solver. Qed.

Lemma Ok_ok_or {E A} (m : option A) (e : E) a : ok_or m e = Ok a ↔ m = Some a.
Proof. destruct m; cbv; naive_solver. Qed.

Lemma SM_Ok_bind {S E A B} (m : SM S E A) (f : A → SM S E B) s s' b :
  (m ≫= f) s = (s', Ok b) ↔ ∃ s1 a, m s = (s1, Ok a) ∧ f a s1 = (s', Ok b).
Proof.
  unfold mbind, SM_bind. destruct (m s) as [s1 [a|e|]]; naive_solver.
Qed.

(** * Machine integers

    A [u64] (and, on the 64-bit targets the node supports, a [usize]) is a [Z]
    in range.  The workspace's Cargo profiles all set [overflow-checks = true],
    so the plain [+], [-] and [*] panic where the mathematical result does not
    fit; the [checked_] and [saturating_] variants are the methods of the
    primitive type. *)
Definition u64_MAX : Z := 18446744073709551615.
Definition is_u64 (z : Z) : Prop := 0 ≤ z ≤ u64_MAX.

Definition u64_add {E} (a b : Z) : result E Z :=
  if a + b <=? u64_MAX then Ok (a + b) else Panic.
Definition u64_sub {E} (a b : Z) : result E Z :=
  if b <=? a then Ok (a - b) else Panic.
Definition u64_checked_add (a b : Z) : option Z :=
  if a + b <=? u64_MAX then Some (a + b) else None.
Definition u64_checked_sub (a b : Z) : option Z :=
  if b <=? a then Some (a - b) else None.
Definition u64_saturating_add (a b : Z) : Z := Z.min (a + b) u64_MAX.
Definition u64_saturating_sub (a b : Z) : Z := Z.max (a - b) 0.

(** [u128], the type of voting powers. *)
Definition u128_MAX : Z := 340282366920938463463374607431768211455.
Definition u128_add {E} (a b : Z) : result E Z :=
  if a + b <=? u128_MAX then Ok (a + b) else Panic.
Definition u128_sub {E} (a b : Z) : result E Z :=
  if b <=? a then Ok (a - b) else Panic.

Definition u64_mul {E} (a b : Z) : result E Z :=
  if a * b <=? u64_MAX then Ok (a * b) else Panic.

Definition u128_mul {E} (a b : Z) : result E Z :=
  if a * b <=? u128_MAX then Ok (a * b) else Panic.

(** [u32], the type of counters. *)
Definition u32_MAX : Z := 4294967295.
Definition u32_add {E} (a b : Z) : result E Z :=
  if a + b <=? u32_MAX then Ok (a + b) else Panic.
Definition u32_mul {E} (a b : Z) : result E Z :=
  if a * b <=? u32_MAX then Ok (a * b) else Panic.
Definition u32_saturating_add (a b : Z) : Z := Z.min (a + b) u32_MAX.

(** The sum of an iterator of [u32]s, with the overflow check of each step. *)
Fixpoint u32_sum_from {E} (acc : Z) (l : list Z) : result E Z :=
  match l with
  | [] => Ok acc
  | x :: l => acc' ← u32_add acc x; u32_sum_from acc' l
  end.
Definition u32_sum {E} (l : list Z) : result E Z := u32_sum_from 0 l.

(** The little-endian bytes of an integer of [n] bytes, and back. *)
Fixpoint to_le_bytes (n : nat) (z : Z) : list Z :=
  match n with
  | O => []
  | S n => z mod 256 :: to_le_bytes n (z / 256)
  end.
Fixpoint from_le_bytes (l : list Z) : Z :=
  match l with
  | [] => 0
  | b :: l => b + 256 * from_le_bytes l
  end.

Lemma length_to_le_bytes n z : length (to_le_bytes n z) = n.
Proof. revert z. induction n as [|n IH]; intros z; simpl; [done|]. by rewrite IH. Qed.

Lemma from_to_le_bytes (n : nat) z : 0 ≤ z < 256 ^ Z.of_nat n → from_le_bytes (to_le_bytes n z) = z.
Proof.
  revert z. induction n as [|n IH]; intros z Hz; simpl.
  { change (256 ^ Z.of_nat 0) with 1 in Hz. lia. }
  rewrite Nat2Z.inj_succ, Z.pow_succ_r in Hz by lia.
  rewrite IH; [pose proof (Z.div_mod z 256); lia|].
  split; [apply Z.div_pos; lia|apply Z.div_lt_upper_bound; lia].
Qed.

Lemma to_le_bytes_inj (n : nat) x y :
  0 ≤ x < 256 ^ Z.of_nat n → 0 ≤ y < 256 ^ Z.of_nat n → to_le_bytes n x = to_le_bytes n y → x = y.
Proof. intros Hx Hy Heq. by rewrite <- (from_to_le_bytes n x), <- (from_to_le_bytes n y), Heq. Qed.

(** The sum of an iterator of [u64]s, with the overflow check of each step. *)
Fixpoint u64_sum_from {E} (acc : Z) (l : list Z) : result E Z :=
  match l with
  | [] => Ok acc
  | x :: l => acc' ← u64_add acc x; u64_sum_from acc' l
  end.
Definition u64_sum {E} (l : list Z) : result E Z := u64_sum_from 0 l.

Lemma u64_add_Ok {E} a b c : u64_add (E:=E) a b = Ok c ↔ c = a + b ∧ a + b ≤ u64_MAX.
Proof. unfold u64_add. destruct (Z.leb_spec (a + b) u64_MAX); naive_solver lia. Qed.

Lemma u64_add_le {E} a b : a + b ≤ u64_MAX → u64_add (E:=E) a b = Ok (a + b).
Proof. intros. by apply u64_add_Ok. Qed.

Lemma u64_sub_Ok {E} a b c : u64_sub (E:=E) a b = Ok c ↔ c = a - b ∧ b ≤ a.
Proof. unfold u64_sub. destruct (Z.leb_spec b a); naive_solver lia. Qed.

Lemma u64_sub_le {E} a b : b ≤ a → u64_sub (E:=E) a b = Ok (a - b).
Proof. intros. by apply u64_sub_Ok. Qed.

Lemma u64_checked_add_Some a b c :
  u64_checked_add a b = Some c ↔ c = a + b ∧ a + b ≤ u64_MAX.
Proof. unfold u64_checked_add. destruct (Z.leb_spec (a + b) u64_MAX); naive_solver lia. Qed.

Lemma u64_checked_sub_Some a b c :
  u64_checked_sub a b = Some c ↔ c = a - b ∧ b ≤ a.
Proof. unfold u64_checked_sub. destruct (Z.leb_spec b a); naive_solver lia. Qed.

(** * Ordered maps

    A [BTreeMap] is a [gmap]; where the code iterates over it in key order the
    model takes its [btree_list]. *)
Definition on_fst {K A} (R : relation K) : relation (K * A) := λ x y, R x.1 y.1.
#[global] Instance on_fst_dec {K A} (R : relation K) `{!RelDecision R} :
  RelDecision (on_fst (A:=A) R).
Proof. intros x y. unfold on_fst. apply _. Defined.
#[global] Instance on_fst_total {K A} (R : relation K) `{!Total R} : Total (on_fst (A:=A) R).
Proof. intros x y. apply (total R). Qed.
#[global] Instance on_fst_trans {K A} (R : relation K) `{!Transitive R} :
  Transitive (on_fst (A:=A) R).
Proof. intros x y z. apply (transitivity (R:=R)). Qed.

Definition btree_list {K A} `{Countable K} (R : relation K) `{!RelDecision R}
    (m : gmap K A) : list (K * A) :=
  merge_sort (on_fst R) (map_to_list m).

Lemma elem_of_btree_list {K A} `{Countable K} (R : relation K) `{!RelDecision R}
    (m : gmap K A) k a :
  (k, a) ∈ btree_list R m ↔ m !! k = Some a.
Proof. unfold btree_list. rewrite merge_sort_Permutation. apply elem_of_map_to_list. Qed.

Lemma length_btree_list {K A} `{Countable K} (R : relation K) `{!RelDecision R}
    (m : gmap K A) :
  length (btree_list R m) = size m.
Proof. unfold btree_list. rewrite merge_sort_Permutation. apply length_map_to_list. Qed.

Lemma btree_list_sorted {K A} `{Countable K} (R : relation K)
    `{!RelDecision R, !Total R, !Transitive R} (m : gmap K A) :
  StronglySorted (on_fst R) (btree_list R m).
Proof. apply StronglySorted_merge_sort; apply _. Qed.

(** Choosing a value for each entry of a map. *)
Lemma map_choice {K A B} `{Countable K} (m : gmap K A) (P : K → A → B → Prop) (d : B) :
  (∀ k a, m !! k = Some a → ∃ b, P k a b) →
  ∃ f : K → B, ∀ k a, m !! k = Some a → P k a (f k).
Proof.
  induction m as [|k a m Hk IH] using map_ind; intros Hm.
  { exists (λ _, d). intros k a. by rewrite lookup_empty. }
  destruct IH as [f Hf].
  { intros k' a' Hk'. apply Hm. rewrite lookup_insert_ne; [done|]. congruence. }
  destruct (Hm k a) as [b Hb]; [by rewrite lookup_insert_eq|].
  exists (λ k', if decide (k' = k) then b else f k'). intros k' a' [[<- <-]|[Hne Hk']]%lookup_insert_Some.
  - by rewrite decide_True.
  - rewrite decide_False by congruence. by apply Hf.
Qed.

(** * Stable sorting

    [sort_by_key] of the standard library, by insertion from the right. *)
Fixpoint insert_by {A} (leb : A → A → bool) (x : A) (l : list A) : list A :=
  match l with
  | [] => [x]
  | y :: l' => if leb x y then x :: l else y :: insert_by leb x l'
  end.
Definition sort_by {A} (leb : A → A → bool) (l : list A) : list A := foldr (insert_by leb) [] l.

Lemma insert_by_Permutation {A} (leb : A → A → bool) x l : insert_by leb x l ≡ₚ x :: l.
Proof.
  induction l as [|y l IH]; simpl; [done|]. destruct (leb x y); [done|].
  rewrite IH. apply Permutation_swap.
Qed.

Lemma sort_by_Permutation {A} (leb : A → A → bool) l : sort_by leb l ≡ₚ l.
Proof. induction l as [|x l IH]; simpl; [done|]. by rewrite insert_by_Permutation, IH. Qed.

Lemma sort_by_sorted {A} (leb : A → A → bool) l :
  (∀ x y, leb x y = false → leb y x = true) →
  (∀ x y z, leb x y = true → leb y z = true → leb x z = true) →
  StronglySorted (λ x y, leb x y = true) (sort_by leb l).
Proof.
  intros Htot Htr. induction l as [|x l IH]; simpl; [constructor|].
  induction IH as [|y l' Hl IH Hy]; simpl; [repeat constructor|].
  destruct (leb x y) eqn:Hxy; constructor; [by constructor| |done|].
  - constructor; [done|]. eapply Forall_impl; [exact Hy|]. intros z. by apply Htr.
  - rewrite insert_by_Permutation. constructor; [by apply Htot|done].
Qed.

(** An optional value as a list of at most one. *)
Lemma elem_of_option_list {A} (x : A) (mx : option A) : x ∈ option_list mx ↔ mx = Some x.
Proof. destruct mx; simpl; set_solver. Qed.

(** A map over positions, listed by position, is the list it came from. *)
Definition positions {K A} (f : K → option A) (n : nat) (ks : list K) : list (nat * A) :=
  omap (λ p, pair p.1 <$> f p.2) (imap (λ i k, (n + i, k)%nat) ks).

Lemma positions_cons {K A} (f : K → option A) n k ks :
  positions f n (k :: ks) = option_list (pair n <$> f k) ++ positions f (S n) ks.
Proof.
  unfold positions. simpl. rewrite Nat.add_0_r.
  replace (imap _ ks) with (imap (λ i k, ((S n + i)%nat, k)) ks).
  2: { apply imap_ext. intros i x _. simpl. f_equal. lia. }
  destruct (f k); done.
Qed.

Lemma positions_snd {K A} (f : K → option A) n ks : (positions f n ks).*2 = omap f ks.
Proof.
  revert n. induction ks as [|k ks IH]; intros n; [done|].
  rewrite positions_cons, fmap_app, IH. simpl. by destruct (f k).
Qed.

Lemma elem_of_positions {K A} (f : K → option A) n ks i x :
  (i, x) ∈ positions f n ks ↔ ∃ j k, i = (n + j)%nat ∧ ks !! j = Some k ∧ f k = Some x.
Proof.
  revert n. induction ks as [|k ks IH]; intros n.
  - split; [by intros ?%elem_of_nil|]. intros (j & k & _ & [=] & _).
  - rewrite positions_cons, elem_of_app, elem_of_option_list, IH, fmap_Some. split.
    + intros [(y & Hf & [= -> ->])|(j & k' & -> & Hk & Hf)].
      * exists 0%nat, k. split_and!; [lia|done|done].
      * exists (S j), k'. split_and!; [lia|done|done].
    + intros ([|j] & k' & -> & Hk & Hf); simplify_eq/=; [left|right].
      * exists x. split; [done|]. f_equal. lia.
      * exists j, k'. split_and!; [lia|done|done].
Qed.

Lemma positions_sorted {K A} (f : K → option A) n ks :
  StronglySorted (on_fst lt) (positions f n ks).
Proof.
  revert n. induction ks as [|k ks IH]; intros n; [constructor|].
  rewrite positions_cons. destruct (f k) as [x|]; simpl; [|done].
  constructor; [done|]. apply Forall_forall. intros [i y] (j & k' & -> & _)%elem_of_positions.
  unfold on_fst; simpl. lia.
Qed.

Lemma btree_list_positions {K A} (m : gmap nat A) (f : K → option A) ks :
  (∀ i x, m !! i = Some x ↔ ∃ k, ks !! i = Some k ∧ f k = Some x) →
  btree_list le m = positions f 0 ks.
Proof.
  intros Hm. pose proof (positions_sorted f 0 ks) as Hlt.
  apply (StronglySorted_unique_strong (on_fst le)).
  - intros [i x] [j y] Hx%elem_of_btree_list Hy%elem_of_positions Hij Hji.
    unfold on_fst in *; simpl in *. assert (i = j) as -> by lia.
    destruct Hy as (j' & k & -> & Hk & Hf). simpl in *.
    assert (m !! j' = Some y) as Hy by (apply Hm; eauto). rewrite Hx in Hy. congruence.
  - apply btree_list_sorted; [intros x y; lia|intros x y z; lia].
  - clear Hm. induction Hlt as [|p l _ IH Hp]; constructor; [done|].
    eapply Forall_impl; [exact Hp|]. intros q. unfold on_fst. lia.
  - apply NoDup_Permutation.
    + unfold btree_list. rewrite merge_sort_Permutation. apply NoDup_map_to_list.
    + clear Hm. induction Hlt as [|p l Hl IH Hp]; constructor; [|done].
      rewrite Forall_forall in Hp. intros Hin%Hp. unfold on_fst in Hin. lia.
    + intros [i x]. rewrite elem_of_btree_list, elem_of_positions, Hm. split.
      * intros (k & ? & ?). exists i, k. done.
      * intros (j & k & -> & ? & ?). exists k. done.
Qed.

(** Selecting the entries of a list that a partial function is defined on. *)
Lemma length_omap_filter {A B} (P : A → Prop) `{∀ a, Decision (P a)} (f : A → option B) l :
  (∀ a, P a ↔ is_Some (f a)) → length (omap f l) = length (filter P l).
Proof.
  intros HP. induction l as [|a l IH]; [done|]. rewrite filter_cons. simpl.
  destruct (decide (P a)) as [[b Hb]%HP|Hn]; [rewrite Hb; simpl; f_equal; exact IH|].
  destruct (f a) eqn:Hf; [|done]. destruct Hn. apply HP. eauto.
Qed.

Lemma zip_omap_filter {A B C} (P : A → Prop) `{∀ a, Decision (P a)} (f : A → option B) (d : B)
    (g : B → C) l :
  (∀ a, P a ↔ is_Some (f a)) →
  (λ p, g p.2) <$> zip (filter P l) (omap f l) = (λ a, g (default d (f a))) <$> filter P l.
Proof.
  intros HP. induction l as [|a l IH]; [done|]. rewrite filter_cons. simpl.
  destruct (decide (P a)) as [[b Hb]%HP|Hn].
  { rewrite Hb. simpl. f_equal; [by rewrite Hb|exact IH]. }
  destruct (f a) eqn:Hf; [|done]. destruct Hn. apply HP. eauto.
Qed.

(** The outcome of a run suffices to evaluate it. *)
Lemma eq_fst_pair {A B} (x : A * B) (b : B) : x.2 = b → x = (x.1, b).
Proof. by destruct x; simpl; intros ->. Qed.

(** How often a list holds an element. *)
Fixpoint occurrences_in {A} `{EqDecision A} (x : A) (l : list A) : Z :=
  match l with
  | [] => 0
  | y :: l => (if decide (y = x) then 1 else 0) + occurrences_in x l
  end.

Lemma occurrences_in_nonneg {A} `{EqDecision A} (x : A) l : 0 ≤ occurrences_in x l.
Proof. induction l; simpl; [done|]. case_decide; lia. Qed.

Lemma occurrences_in_le_length {A} `{EqDecision A} (x : A) l :
  occurrences_in x l ≤ Z.of_nat (length l).
Proof. induction l as [|y l IH]; [done|]. cbn [occurrences_in length]. case_decide; lia. Qed.

Lemma occurrences_in_positive {A} `{EqDecision A} (x : A) l : 0 < occurrences_in x l ↔ x ∈ l.
Proof.
  induction l as [|y l IH]; simpl; [split; [done|by intros ?%elem_of_nil]|].
  rewrite elem_of_cons, <- IH. pose proof (occurrences_in_nonneg x l).
  case_decide as Hd; split; intros Hx; [by left|lia|right; lia|].
  destruct Hx as [->|]; [done|lia].
Qed.

(** * Sums over maps *)

Definition map_sum {K A} `{Countable K} (f : K → A → Z) (m : gmap K A) : Z :=
  map_fold (λ k a acc, f k a + acc) 0 m.

Lemma map_sum_empty {K A} `{Countable K} (f : K → A → Z) : map_sum f ∅ = 0.
Proof. apply map_fold_empty. Qed.

Lemma map_sum_insert {K A} `{Countable K} (f : K → A → Z) (m : gmap K A) k a :
  m !! k = None → map_sum f (<[k := a]> m) = f k a + map_sum f m.
Proof. intros Hk. unfold map_sum. rewrite map_fold_insert_L; [done|lia|done]. Qed.

Lemma map_sum_delete {K A} `{Countable K} (f : K → A → Z) (m : gmap K A) k a :
  m !! k = Some a → map_sum f (delete k m) = map_sum f m - f k a.
Proof.
  intros Hk. rewrite <- (insert_delete_id m k a) at 2 by done.
  rewrite map_sum_insert by apply lookup_delete_eq. lia.
Qed.

Lemma map_sum_replace {K A} `{Countable K} (f : K → A → Z) (m : gmap K A) k a b :
  m !! k = Some a → map_sum f (<[k := b]> m) = map_sum f m - f k a + f k b.
Proof.
  intros Hk. rewrite <- (insert_delete_eq m k b).
  rewrite map_sum_insert by apply lookup_delete_eq.
  rewrite (map_sum_delete f m k a Hk). lia.
Qed.

Lemma map_sum_nonneg {K A} `{Countable K} (f : K → A → Z) (m : gmap K A) :
  (∀ k a, m !! k = Some a → 0 ≤ f k a) → 0 ≤ map_sum f m.
Proof.
  induction m as [|k a m Hk IH] using map_ind; intros Hf; [by rewrite map_sum_empty|].
  rewrite map_sum_insert by done. pose proof (Hf k a (lookup_insert_eq _ _ _)).
  assert (0 ≤ map_sum f m); [|lia]. apply IH. intros k' a' Hk'. apply Hf.
  rewrite lookup_insert_ne; [done|congruence].
Qed.

(** One entry is at most the sum. *)
Lemma map_sum_lookup_le {K A} `{Countable K} (f : K → A → Z) (m : gmap K A) k a :
  (∀ k a, m !! k = Some a → 0 ≤ f k a) → m !! k = Some a → f k a ≤ map_sum f m.
Proof.
  intros Hf Hk. pose proof (map_sum_delete f m k a Hk).
  assert (0 ≤ map_sum f (delete k m)); [|lia]. apply map_sum_nonneg.
  intros k' a' [_ ?]%lookup_delete_Some. eauto.
Qed.

Lemma map_sum_ext {K A} `{Countable K} (f g : K → A → Z) (m : gmap K A) :
  (∀ k a, m !! k = Some a → f k a = g k a) → map_sum f m = map_sum g m.
Proof.
  induction m as [|k a m Hk IH] using map_ind; intros Hf; [done|].
  rewrite !map_sum_insert by done. rewrite (Hf k a) by apply lookup_insert_eq.
  f_equal. apply IH. intros k' a' Hk'. apply Hf. rewrite lookup_insert_ne; [done|congruence].
Qed.

(** * Freedom from panics *)

Lemma bind_no_panic {E A B} (m : result E A) (f : A → result E B) :
  m ≠ Panic → (∀ a, m = Ok a → f a ≠ Panic) → (m ≫= f) ≠ Panic.
Proof. destruct m; cbv; naive_solver. Qed.

Lemma ensure_no_panic {E} (b : bool) (e : E) : ensure b e ≠ Panic.
Proof. by destruct b. Qed.

Lemma ok_or_no_panic {E A} (m : option A) (e : E) : ok_or m e ≠ Panic.
Proof. by destruct m. Qed.

Lemma u64_add_no_panic {E} a b : a + b ≤ u64_MAX → u64_add (E:=E) a b ≠ Panic.
Proof. unfold u64_add. intros ?%Z.leb_le. by case_match. Qed.

(** * Tactics

    [no_panic] walks through a computation, leaving the steps whose freedom
    from panics is not immediate.  [inv_ok] takes apart hypotheses that say a computation returned [Ok]:
    binds become existential witnesses, [ensure!] becomes the boolean test,
    and integer tests become inequalities. *)
Create HintDb liquent.
Create Rewrite HintDb liquent.
#[export] Hint Rewrite @Ok_map_err @Ok_ensure @Ok_ok_or @u64_add_Ok @u64_sub_Ok
  u64_checked_add_Some u64_checked_sub_Some : liquent.

Ltac bool_to_prop :=
  repeat match goal with
  | H : _ && _ = true |- _ => apply andb_true_iff in H as [??]
  | H : _ && _ = false |- _ => apply andb_false_iff in H
  | H : _ || _ = true |- _ => apply orb_true_iff in H
  | H : _ || _ = false |- _ => apply orb_false_iff in H as [??]
  | H : negb _ = true |- _ => apply negb_true_iff in H
  | H : negb _ = false |- _ => apply negb_false_iff in H
  | H : (_ <? _) = true |- _ => apply Z.ltb_lt in H
  | H : (_ <? _) = false |- _ => apply Z.ltb_ge in H
  | H : (_ <=? _) = true |- _ => apply Z.leb_le in H
  | H : (_ <=? _) = false |- _ => apply Z.leb_gt in H
  | H : (_ =? _) = true |- _ => apply Z.eqb_eq in H
  | H : (_ =? _) = false |- _ => apply Z.eqb_neq in H
  | H : (_ >? _) = _ |- _ => rewrite Z.gtb_ltb in H
  | H : (_ >=? _) = _ |- _ => rewrite Z.geb_leb in H
  | H : bool_decide _ = true |- _ => apply bool_decide_eq_true in H
  | H : bool_decide _ = false |- _ => apply bool_decide_eq_false in H
  end.

Ltac no_panic :=
  repeat first
  [ done
  | apply ensure_no_panic
  | apply ok_or_no_panic
  | apply bind_no_panic; [|intros ? ?]
  | progress case_match ].

Ltac inv_ok :=
  repeat first
  [ progress simplify_eq/=
  | match goal with
    | H : (_ ≫= _) = Ok _ |- _ =>
        let a := fresh "a" in let H1 := fresh "Hm" in
        apply Ok_bind in H as (a & H1 & H)
    | H : (_ ≫= _) _ = (_, Ok _) |- _ =>
        let s := fresh "s" in let a := fresh "a" in let H1 := fresh "Hm" in
        apply SM_Ok_bind in H as (s & a & H1 & H)
    | H : map_err _ _ = Ok _ |- _ => apply Ok_map_err in H
    | H : ensure _ _ = Ok _ |- _ => apply Ok_ensure in H
    | H : ok_or _ _ = Ok _ |- _ => apply Ok_ok_or in H
    | H : lift _ _ = _ |- _ => unfold lift in H
    | H : mret _ = _ |- _ => unfold mret, result_ret in H
    | H : mret _ _ = _ |- _ => unfold mret, SM_ret in H
    | H : (_, _) = (_, _) |- _ => injection H as ??
    | a : () |- _ => destruct a
    end ]; bool_to_prop.
