(* ===== verification/Laptos.v ===== *)
(** The interface to the [laptos] crates.

    The consensus code takes its ledger types (block and ledger infos,
    validator sets), its BLS signatures and its hashing from the external
    [laptos] package, whose code is not part of the repository.  This file
    states that interface as an operational class [Laptos] whose fields are the
    types and functions the code calls, the class [CryptoHash] of the trait of
    the same name, and the class [LaptosLaws] of the documented constructor and
    accessor equations the theorems use.  Every definition of the development
    that needs one of these takes the class as an argument; the file [Toy] gives a
    concrete instance. *)
From S2P Require Import Prelude.

(** [anyhow::Error] is represented by the text it displays: [.context(m)]
    replaces the displayed text by [m].  Values interpolated into a message
    are left out. *)
Abbreviation anyhow := string.
Definition context {A} (msg : string) (m : result anyhow A) : result anyhow A :=
  map_err (λ _, msg) m.

(** The variants of [TransactionPayload], as the code matches on them. *)
Inductive TransactionPayload : Type :=
| GTxnBytes
| Script
| ModuleBundle
| EntryFunction
| Multisig.

(** The errors of [ValidatorVerifier], as the code matches on them. *)
Inductive VerifyError : Type :=
| UnknownAuthor
| TooLittleVotingPower (voting_power expected_voting_power : Z)
| EmptySignature
| OtherVerifyError (msg : string).

(** [EpochBlockInfo]: the block that ended an epoch. *)
Record EpochBlockInfo (HashValue : Type) : Type := {
  ebi_block_id : HashValue;
  ebi_block_number : Z;
  ebi_epoch_start_round : Z;
  ebi_epoch_start_timestamp_usecs : Z;
  ebi_block_hash : HashValue;
}.
Arguments ebi_block_id {_} _.
Arguments ebi_block_number {_} _.
Arguments ebi_epoch_start_round {_} _.
Arguments ebi_epoch_start_timestamp_usecs {_} _.
Arguments ebi_block_hash {_} _.
#[global] Instance EpochBlockInfo_eq_dec H `{EqDecision H} : EqDecision (EpochBlockInfo H).
Proof. solve_decision. Defined.

Class Laptos : Type := {
  (** aptos_crypto *)
  HashValue : Type;
  HashValue_eq_dec :: EqDecision HashValue;
  HashValue_countable :: Countable HashValue;
  HashValue_zero : HashValue;
  ACCUMULATOR_PLACEHOLDER_HASH : HashValue;
  GENESIS_BLOCK_ID : HashValue;
  Bytes : Type;
  PublicKey : Type;
  PublicKey_eq_dec :: EqDecision PublicKey;
  PrivateKey : Type;
  PrivateKey_public_key : PrivateKey → PublicKey;
  Signature : Type;
  Signature_eq_dec :: EqDecision Signature;

  (** aptos_types: accounts and validators *)
  AccountAddress : Type;
  AccountAddress_eq_dec :: EqDecision AccountAddress;
  AccountAddress_countable :: Countable AccountAddress;
  ValidatorSigner : Type;
  ValidatorSigner_new : AccountAddress → PrivateKey → ValidatorSigner;
  ValidatorSigner_author : ValidatorSigner → AccountAddress;
  ValidatorSigner_public_key : ValidatorSigner → PublicKey;
  ValidatorSigner_sign : ValidatorSigner → Bytes → result anyhow Signature;

  BitVec : Type;
  AggregateSignature : Type;
  AggregateSignature_eq_dec :: EqDecision AggregateSignature;
  AggregateSignature_empty : AggregateSignature;
  (** [AggregateSignature::new(BitVec::with_num_bits(n), None)] *)
  AggregateSignature_of_empty_bits : nat → AggregateSignature;
  AggregateSignature_get_num_voters : AggregateSignature → nat;
  AggregateSignature_get_signers_addresses :
    AggregateSignature → list AccountAddress → list AccountAddress;

  ValidatorVerifier : Type;
  ValidatorVerifier_len : ValidatorVerifier → nat;
  ValidatorVerifier_get_public_key : ValidatorVerifier → AccountAddress → option PublicKey;
  ValidatorVerifier_get_ordered_account_addresses : ValidatorVerifier → list AccountAddress;
  ValidatorVerifier_address_to_validator_index :
    ValidatorVerifier → gmap AccountAddress nat;
  ValidatorVerifier_verify :
    ValidatorVerifier → AccountAddress → Bytes → Signature → result anyhow unit;
  ValidatorVerifier_verify_multi_signatures :
    ValidatorVerifier → Bytes → AggregateSignature → result anyhow unit;
  ValidatorVerifier_verify_aggregate_signatures :
    ValidatorVerifier → list Bytes → AggregateSignature → result anyhow unit;
  ValidatorVerifier_get_voting_power : ValidatorVerifier → AccountAddress → option Z;
  ValidatorVerifier_quorum_voting_power : ValidatorVerifier → Z;
  ValidatorVerifier_total_voting_power : ValidatorVerifier → Z;
  (** [check_voting_power(authors, true)] *)
  ValidatorVerifier_check_voting_power :
    ValidatorVerifier → list AccountAddress → result VerifyError Z;
  ValidatorVerifier_aggregate_signatures :
    ValidatorVerifier → list (AccountAddress * Signature) → result VerifyError AggregateSignature;

  (** aptos_types: epochs, block infos and ledger infos *)
  EpochState : Type;
  EpochState_eq_dec :: EqDecision EpochState;
  EpochState_epoch : EpochState → Z;
  EpochState_verifier : EpochState → ValidatorVerifier;

  BlockInfo : Type;
  BlockInfo_eq_dec :: EqDecision BlockInfo;
  BlockInfo_new : Z → Z → HashValue → HashValue → Z → Z → option EpochState → BlockInfo;
  BlockInfo_empty : BlockInfo;
  BlockInfo_epoch : BlockInfo → Z;
  BlockInfo_round : BlockInfo → Z;
  BlockInfo_id : BlockInfo → HashValue;
  BlockInfo_executed_state_id : BlockInfo → HashValue;
  BlockInfo_version : BlockInfo → Z;
  BlockInfo_timestamp_usecs : BlockInfo → Z;
  BlockInfo_has_reconfiguration : BlockInfo → bool;
  BlockInfo_is_ordered_only : BlockInfo → bool;
  BlockInfo_match_ordered_only : BlockInfo → BlockInfo → bool;
  BlockInfo_next_epoch_state : BlockInfo → option EpochState;
  BlockInfo_epoch_block_info : BlockInfo → option (EpochBlockInfo HashValue);
  BlockInfo_new_with_epoch_block_info :
    Z → Z → HashValue → HashValue → Z → Z → option EpochState →
    option (EpochBlockInfo HashValue) → BlockInfo;
  BlockInfo_change_timestamp : Z → BlockInfo → BlockInfo;

  LedgerInfo : Type;
  LedgerInfo_eq_dec :: EqDecision LedgerInfo;
  LedgerInfo_new : BlockInfo → HashValue → LedgerInfo;
  (** [new_with_block_info]: commit info, consensus data hash, block hash and number *)
  LedgerInfo_new_with_block_info : BlockInfo → HashValue → HashValue → Z → LedgerInfo;
  LedgerInfo_commit_info : LedgerInfo → BlockInfo;
  LedgerInfo_consensus_data_hash : LedgerInfo → HashValue;
  LedgerInfo_set_consensus_data_hash : HashValue → LedgerInfo → LedgerInfo;
  LedgerInfo_epoch : LedgerInfo → Z;
  LedgerInfo_round : LedgerInfo → Z;
  LedgerInfo_ends_epoch : LedgerInfo → bool;
  LedgerInfo_next_epoch_state : LedgerInfo → option EpochState;
  LedgerInfo_version : LedgerInfo → Z;
  LedgerInfo_block_hash : LedgerInfo → HashValue;
  LedgerInfo_waypoint_version : LedgerInfo → Z;
  LedgerInfo_timestamp_usecs : LedgerInfo → Z;
  LedgerInfo_consensus_block_id : LedgerInfo → HashValue;
  LedgerInfo_block_number : LedgerInfo → Z;

  LedgerInfoWithSignatures : Type;
  LedgerInfoWithSignatures_eq_dec :: EqDecision LedgerInfoWithSignatures;
  LedgerInfoWithSignatures_new : LedgerInfo → AggregateSignature → LedgerInfoWithSignatures;
  LedgerInfoWithSignatures_ledger_info : LedgerInfoWithSignatures → LedgerInfo;
  LedgerInfoWithSignatures_get_num_voters : LedgerInfoWithSignatures → nat;
  LedgerInfoWithSignatures_verify_signatures :
    LedgerInfoWithSignatures → ValidatorVerifier → result anyhow unit;

  (** A ledger info with the signatures collected for it so far. *)
  LedgerInfoWithVerifiedSignatures : Type;
  (** [new(ledger_info, PartialSignatures::empty())] *)
  LedgerInfoWithVerifiedSignatures_new : LedgerInfo → LedgerInfoWithVerifiedSignatures;
  LedgerInfoWithVerifiedSignatures_ledger_info : LedgerInfoWithVerifiedSignatures → LedgerInfo;
  LedgerInfoWithVerifiedSignatures_signatures :
    LedgerInfoWithVerifiedSignatures → gmap AccountAddress Signature;
  LedgerInfoWithVerifiedSignatures_add_signature :
    AccountAddress → Signature → LedgerInfoWithVerifiedSignatures →
    LedgerInfoWithVerifiedSignatures;
  LedgerInfoWithVerifiedSignatures_aggregate_signatures :
    ValidatorVerifier → LedgerInfoWithVerifiedSignatures →
    result VerifyError LedgerInfoWithSignatures;

  Waypoint : Type;
  Waypoint_version : Waypoint → Z;
  Waypoint_new_epoch_boundary : LedgerInfo → result anyhow Waypoint;
  EpochChangeProof : Type;
  EpochChangeProof_verify : EpochChangeProof → Waypoint → result anyhow LedgerInfoWithSignatures;

  (** [is_consensus_fork_active] and [is_consensus_fork_active_at_epoch] of
      [ConsensusHardfork::ConsensusAlpha] *)
  is_consensus_alpha_active_at : Z → bool;
  is_consensus_alpha_active_at_epoch : Z → bool;

  (** Transactions carried in payloads *)
  SignedTransaction : Type;
  SignedTransaction_eq_dec :: EqDecision SignedTransaction;
  SignedTransaction_payload : SignedTransaction → TransactionPayload;
  SignedTransaction_sender : SignedTransaction → AccountAddress;
  SignedTransaction_sequence_number : SignedTransaction → Z;
  SignedTransaction_committed_hash : SignedTransaction → HashValue;
  SignedTransaction_raw_txn_bytes_len : SignedTransaction → Z;
  SignedTransaction_expiration_timestamp_secs : SignedTransaction → Z;
  SignedTransaction_gas_unit_price : SignedTransaction → Z;
  SignedTransaction_txn_bytes_len : SignedTransaction → Z;
  ValidatorTransaction : Type;
  ValidatorTransaction_eq_dec :: EqDecision ValidatorTransaction;
}.

(** The [CryptoHash] trait, derived by the macros of [aptos_crypto_derive]:
    a hash, and the byte string a signature on the value covers. *)
Class CryptoHash `{Laptos} (T : Type) : Type := {
  hash : T → HashValue;
  signing_message : T → Bytes;
}.

Section signing.
Context `{Laptos} {T : Type} `{!CryptoHash T}.

Definition signer_sign (signer : ValidatorSigner) (message : T) : result anyhow Signature :=
  ValidatorSigner_sign signer (signing_message message).

Definition verifier_verify (v : ValidatorVerifier) (author : AccountAddress)
    (message : T) (sig : Signature) : result anyhow unit :=
  ValidatorVerifier_verify v author (signing_message message) sig.

Definition verify_multi_signatures (v : ValidatorVerifier) (message : T)
    (sig : AggregateSignature) : result anyhow unit :=
  ValidatorVerifier_verify_multi_signatures v (signing_message message) sig.

Definition verify_aggregate_signatures (v : ValidatorVerifier) (messages : list T)
    (sig : AggregateSignature) : result anyhow unit :=
  ValidatorVerifier_verify_aggregate_signatures v (signing_message <$> messages) sig.
End signing.

(** Constructor and accessor equations of the plain data types. *)
Class LaptosLaws (L : Laptos) : Prop := {
  BlockInfo_epoch_new e r i x v t n : BlockInfo_epoch (BlockInfo_new e r i x v t n) = e;
  BlockInfo_round_new e r i x v t n : BlockInfo_round (BlockInfo_new e r i x v t n) = r;
  BlockInfo_id_new e r i x v t n : BlockInfo_id (BlockInfo_new e r i x v t n) = i;
  BlockInfo_timestamp_usecs_new e r i x v t n :
    BlockInfo_timestamp_usecs (BlockInfo_new e r i x v t n) = t;
  BlockInfo_version_new e r i x v t n : BlockInfo_version (BlockInfo_new e r i x v t n) = v;
  BlockInfo_new_with_None e r i x v t n :
    BlockInfo_new_with_epoch_block_info e r i x v t n None = BlockInfo_new e r i x v t n;
  BlockInfo_epoch_new_with e r i x v t n b :
    BlockInfo_epoch (BlockInfo_new_with_epoch_block_info e r i x v t n b) = e;
  BlockInfo_round_new_with e r i x v t n b :
    BlockInfo_round (BlockInfo_new_with_epoch_block_info e r i x v t n b) = r;
  BlockInfo_id_new_with e r i x v t n b :
    BlockInfo_id (BlockInfo_new_with_epoch_block_info e r i x v t n b) = i;
  BlockInfo_executed_state_id_new_with e r i x v t n b :
    BlockInfo_executed_state_id (BlockInfo_new_with_epoch_block_info e r i x v t n b) = x;
  BlockInfo_timestamp_usecs_new_with e r i x v t n b :
    BlockInfo_timestamp_usecs (BlockInfo_new_with_epoch_block_info e r i x v t n b) = t;
  BlockInfo_next_epoch_state_new_with e r i x v t n b :
    BlockInfo_next_epoch_state (BlockInfo_new_with_epoch_block_info e r i x v t n b) = n;
  BlockInfo_version_new_with e r i x v t n b :
    BlockInfo_version (BlockInfo_new_with_epoch_block_info e r i x v t n b) = v;
  BlockInfo_epoch_block_info_new_with e r i x v t n b :
    BlockInfo_epoch_block_info (BlockInfo_new_with_epoch_block_info e r i x v t n b) = b;
  BlockInfo_change_timestamp_new_with e r i x v t n b t' :
    BlockInfo_change_timestamp t' (BlockInfo_new_with_epoch_block_info e r i x v t n b) =
    BlockInfo_new_with_epoch_block_info e r i x v t' n b;
  BlockInfo_round_empty : BlockInfo_round BlockInfo_empty = 0;
  LedgerInfo_commit_info_new c h : LedgerInfo_commit_info (LedgerInfo_new c h) = c;
  LedgerInfo_commit_info_new_with c h b n :
    LedgerInfo_commit_info (LedgerInfo_new_with_block_info c h b n) = c;
  LedgerInfo_consensus_data_hash_new c h : LedgerInfo_consensus_data_hash (LedgerInfo_new c h) = h;
  LedgerInfo_consensus_data_hash_set h l :
    LedgerInfo_consensus_data_hash (LedgerInfo_set_consensus_data_hash h l) = h;
  LedgerInfo_commit_info_set h l :
    LedgerInfo_commit_info (LedgerInfo_set_consensus_data_hash h l) = LedgerInfo_commit_info l;
  LedgerInfo_round_commit_info l : LedgerInfo_round l = BlockInfo_round (LedgerInfo_commit_info l);
  LedgerInfo_epoch_commit_info l : LedgerInfo_epoch l = BlockInfo_epoch (LedgerInfo_commit_info l);
  LedgerInfo_consensus_block_id_commit_info l :
    LedgerInfo_consensus_block_id l = BlockInfo_id (LedgerInfo_commit_info l);
  LedgerInfoWithSignatures_ledger_info_new l a :
    LedgerInfoWithSignatures_ledger_info (LedgerInfoWithSignatures_new l a) = l;
  LedgerInfoWithSignatures_get_num_voters_new l a :
    LedgerInfoWithSignatures_get_num_voters (LedgerInfoWithSignatures_new l a) =
    AggregateSignature_get_num_voters a;
  BlockInfo_match_ordered_only_true b1 b2 :
    BlockInfo_match_ordered_only b1 b2 = true →
    BlockInfo_epoch b1 = BlockInfo_epoch b2 ∧ BlockInfo_round b1 = BlockInfo_round b2 ∧
    BlockInfo_id b1 = BlockInfo_id b2;
  LedgerInfoWithVerifiedSignatures_ledger_info_new l :
    LedgerInfoWithVerifiedSignatures_ledger_info (LedgerInfoWithVerifiedSignatures_new l) = l;
  LedgerInfoWithVerifiedSignatures_signatures_new l :
    LedgerInfoWithVerifiedSignatures_signatures (LedgerInfoWithVerifiedSignatures_new l) = ∅;
  LedgerInfoWithVerifiedSignatures_ledger_info_add a s l :
    LedgerInfoWithVerifiedSignatures_ledger_info
      (LedgerInfoWithVerifiedSignatures_add_signature a s l) =
    LedgerInfoWithVerifiedSignatures_ledger_info l;
  LedgerInfoWithVerifiedSignatures_signatures_add a s l :
    LedgerInfoWithVerifiedSignatures_signatures
      (LedgerInfoWithVerifiedSignatures_add_signature a s l) =
    <[a := s]> (LedgerInfoWithVerifiedSignatures_signatures l);
  AggregateSignature_get_num_voters_of_empty_bits n :
    AggregateSignature_get_num_voters (AggregateSignature_of_empty_bits n) = 0%nat;
}.
#[export] Hint Rewrite @BlockInfo_epoch_new @BlockInfo_round_new @BlockInfo_id_new
  @BlockInfo_timestamp_usecs_new @BlockInfo_version_new @BlockInfo_round_empty
  @BlockInfo_epoch_new_with @BlockInfo_round_new_with @BlockInfo_id_new_with
  @BlockInfo_executed_state_id_new_with @BlockInfo_timestamp_usecs_new_with
  @LedgerInfo_commit_info_new @LedgerInfo_consensus_data_hash_new
  @LedgerInfo_consensus_data_hash_set @LedgerInfo_commit_info_set
  @LedgerInfoWithSignatures_ledger_info_new @LedgerInfoWithSignatures_get_num_voters_new
  @LedgerInfoWithVerifiedSignatures_ledger_info_new
  @LedgerInfoWithVerifiedSignatures_signatures_new
  @LedgerInfoWithVerifiedSignatures_ledger_info_add
  @LedgerInfoWithVerifiedSignatures_signatures_add
  @AggregateSignature_get_num_voters_of_empty_bits
  @LedgerInfo_round_commit_info @LedgerInfo_epoch_commit_info using typeclasses eauto : liquent.

(** Documented behaviour of a validator set [v] and of BLS multi-signatures
    over it: the index map is the position in validator order, voting power
    depends on the set of signers only, and an aggregate of individually valid
    signatures names its signers in validator order and verifies once they
    have quorum power. *)
Class AggregationLaws `{L : Laptos} `{!CryptoHash LedgerInfo} (v : ValidatorVerifier) : Prop := {
  validator_index a i :
    ValidatorVerifier_address_to_validator_index v !! a = Some i ↔
    ValidatorVerifier_get_ordered_account_addresses v !! i = Some a;
  verify_known a b s :
    ValidatorVerifier_verify v a b s = Ok tt →
    is_Some (ValidatorVerifier_address_to_validator_index v !! a);
  voting_power_known a :
    is_Some (ValidatorVerifier_get_voting_power v a) ↔
    is_Some (ValidatorVerifier_address_to_validator_index v !! a);
  check_voting_power_perm Q1 Q2 :
    Q1 ≡ₚ Q2 →
    ValidatorVerifier_check_voting_power v Q1 = ValidatorVerifier_check_voting_power v Q2;
  check_voting_power_no_panic Q : ValidatorVerifier_check_voting_power v Q ≠ Panic;
  check_voting_power_quorum Q p :
    ValidatorVerifier_check_voting_power v Q = Ok p → ValidatorVerifier_quorum_voting_power v ≤ p;
  check_voting_power_known Q e :
    (∀ a, a ∈ Q → is_Some (ValidatorVerifier_address_to_validator_index v !! a)) →
    ValidatorVerifier_check_voting_power v Q = Err e → ∃ p q, e = TooLittleVotingPower p q;
  check_voting_power_mono Q1 Q2 :
    NoDup Q1 → Q1 ⊆ Q2 →
    (∀ a, a ∈ Q2 → is_Some (ValidatorVerifier_address_to_validator_index v !! a)) →
    is_ok (ValidatorVerifier_check_voting_power v Q1) = true →
    is_ok (ValidatorVerifier_check_voting_power v Q2) = true;
  quorum_voting_power_bounds :
    0 < ValidatorVerifier_quorum_voting_power v ≤ ValidatorVerifier_total_voting_power v ∧
    ValidatorVerifier_total_voting_power v ≤ u128_MAX;
  aggregate_ledger_info l :
    (∀ a s, LedgerInfoWithVerifiedSignatures_signatures l !! a = Some s →
       ValidatorVerifier_verify v a
         (signing_message (LedgerInfoWithVerifiedSignatures_ledger_info l)) s = Ok tt) →
    is_ok (ValidatorVerifier_check_voting_power v
      (map_to_list (LedgerInfoWithVerifiedSignatures_signatures l)).*1) = true →
    ∃ lis, LedgerInfoWithVerifiedSignatures_aggregate_signatures v l = Ok lis ∧
      LedgerInfoWithSignatures_ledger_info lis =
        LedgerInfoWithVerifiedSignatures_ledger_info l ∧
      LedgerInfoWithSignatures_verify_signatures lis v = Ok tt;
  aggregate_commit (sigs : gmap AccountAddress Signature) li :
    (∀ a s, sigs !! a = Some s → ValidatorVerifier_verify v a (signing_message li) s = Ok tt) →
    is_ok (ValidatorVerifier_check_voting_power v (map_to_list sigs).*1) = true →
    ∃ agg, ValidatorVerifier_aggregate_signatures v (map_to_list sigs) = Ok agg ∧
      LedgerInfoWithSignatures_verify_signatures (LedgerInfoWithSignatures_new li agg) v = Ok tt;
  aggregate_messages (sigs : gmap AccountAddress Signature) (msg : AccountAddress → Bytes) :
    (∀ a s, sigs !! a = Some s → ValidatorVerifier_verify v a (msg a) s = Ok tt) →
    let signers := filter (λ a, is_Some (sigs !! a))
                     (ValidatorVerifier_get_ordered_account_addresses v) in
    ∃ agg, ValidatorVerifier_aggregate_signatures v (map_to_list sigs) = Ok agg ∧
      AggregateSignature_get_num_voters agg = length signers ∧
      AggregateSignature_get_signers_addresses agg
        (ValidatorVerifier_get_ordered_account_addresses v) = signers ∧
      (is_ok (ValidatorVerifier_check_voting_power v signers) = true →
       ValidatorVerifier_verify_aggregate_signatures v (msg <$> signers) agg = Ok tt);
}.
