(* ===== verification/Toy.v ===== *)
(** A concrete instance of the external interface, with symbolic signatures.

    A signature is the pair of the signer and the bytes signed, an aggregate
    signature the list of such pairs in validator order, a validator set the
    list of addresses with their voting powers, and a hash an injective list
    encoding.  The instance satisfies the laws the theorems assume. *)
From S2P Require Import Prelude Laptos.

Record block_info := BI_with {
  info_epoch : Z; info_round : Z; info_id : list Z; info_exec : list Z;
  info_version : Z; info_time : Z; info_next : option (Z * list (Z * Z));
  info_ended : option (EpochBlockInfo (list Z));
}.
Definition BI e r i x v t n : block_info := BI_with e r i x v t n None.
#[global] Instance block_info_eq_dec : EqDecision block_info.
Proof. solve_decision. Defined.
Record ledger_info := LI { li_commit : block_info; li_hash : list Z }.
#[global] Instance ledger_info_eq_dec : EqDecision ledger_info.
Proof. solve_decision. Defined.

Definition len (l : list Z) : list Z := Z.of_nat (length l) :: l.
Definition enc_pairs (l : list (Z * Z)) : list Z := l ≫= λ p, [p.1; p.2].
Definition enc_next (n : option (Z * list (Z * Z))) : list Z :=
  match n with None => [] | Some (e, v) => e :: enc_pairs v end.
Definition enc_ended (o : option (EpochBlockInfo (list Z))) : list Z :=
  match o with
  | None => []
  | Some i =>
      [ebi_block_number i; ebi_epoch_start_round i; ebi_epoch_start_timestamp_usecs i] ++
      len (ebi_block_id i) ++ len (ebi_block_hash i)
  end.
Definition enc_info (b : block_info) : list Z :=
  [info_epoch b; info_round b; info_version b; info_time b] ++
  len (info_id b) ++ len (info_exec b) ++ len (enc_next (info_next b)) ++
  len (enc_ended (info_ended b)).

Lemma len_app_inj (l1 l2 r1 r2 : list Z) : len l1 ++ r1 = len l2 ++ r2 → l1 = l2 ∧ r1 = r2.
Proof. unfold len. intros [= Hlen%Nat2Z.inj Happ]. by apply app_inj_1. Qed.

Lemma len_inj (l1 l2 : list Z) : len l1 = len l2 → l1 = l2.
Proof. by intros [= _ ?]. Qed.

Lemma enc_pairs_inj l1 l2 : enc_pairs l1 = enc_pairs l2 → l1 = l2.
Proof.
  revert l2. induction l1 as [|[a b] l1 IH]; intros [|[c d] l2]; simpl; try done.
  intros [= -> -> H]. f_equal. by apply IH.
Qed.

Lemma enc_ended_inj o1 o2 : enc_ended o1 = enc_ended o2 → o1 = o2.
Proof.
  destruct o1 as [[i1 n1 r1 t1 h1]|], o2 as [[i2 n2 r2 t2 h2]|]; try done.
  unfold enc_ended. intros [H0 H]%app_inj_1; [|done]. injection H0 as -> -> ->.
  apply len_app_inj in H as [Hi Hh%len_inj]. simpl in Hi, Hh. by subst.
Qed.

Lemma enc_info_inj b1 b2 : enc_info b1 = enc_info b2 → b1 = b2.
Proof.
  destruct b1 as [e1 r1 i1 x1 v1 t1 n1 d1], b2 as [e2 r2 i2 x2 v2 t2 n2 d2].
  unfold enc_info. intros [H0 H]%app_inj_1; [|done]. injection H0 as -> -> -> ->.
  apply len_app_inj in H as [Hi [Hx [Hn Hd%len_inj%enc_ended_inj]%len_app_inj]%len_app_inj].
  simpl in Hi, Hx, Hn, Hd. subst. f_equal.
  destruct n1 as [[? ?]|], n2 as [[? ?]|]; simpl in Hn; try done.
  injection Hn as -> ->%enc_pairs_inj. done.
Qed.

Definition enc_ledger_info (l : ledger_info) : list Z :=
  1 :: len (enc_info (li_commit l)) ++ li_hash l.

Lemma enc_ledger_info_inj l1 l2 : enc_ledger_info l1 = enc_ledger_info l2 → l1 = l2.
Proof.
  destruct l1 as [c1 h1], l2 as [c2 h2]. intros H. apply (f_equal (drop 1)) in H.
  apply len_app_inj in H as [Hc%enc_info_inj Hh]. simpl in Hc, Hh. congruence.
Qed.

Definition power (v : list (Z * Z)) (signers : list Z) : Z :=
  foldr (λ p acc, if bool_decide (p.1 ∈ signers) then p.2 + acc else acc) 0 v.
Definition quorum_power (v : list (Z * Z)) : Z := foldr (λ p acc, p.2 + acc) 0 v * 2 / 3 + 1.
Definition check_voting_power (v : list (Z * Z)) (signers : list Z) : result VerifyError Z :=
  if forallb (λ a, bool_decide (a ∈ v.*1)) signers then
    if quorum_power v <=? power v signers then Ok (power v signers)
    else Err (TooLittleVotingPower (power v signers) (quorum_power v))
  else Err UnknownAuthor.
Definition check_power (v : list (Z * Z)) (signers : list Z) : result anyhow unit :=
  match check_voting_power v signers with
  | Ok _ => Ok tt
  | _ => Err "TooLittleVotingPower"%string
  end.
Definition check_agg (v : list (Z * Z)) (msgs : list (list Z)) (agg : list (Z * list Z)) :
    result anyhow unit :=
  if bool_decide (agg.*2 = msgs) then check_power v agg.*1
  else Err "InvalidMultiSignature"%string.
(** The signatures of a map, in validator order. *)
Definition in_order (v : list (Z * Z)) (sigs : gmap Z (Z * list Z)) : list (Z * list Z) :=
  omap (λ a, sigs !! a) v.*1.
Definition aggregate (v : list (Z * Z)) (sigs : gmap Z (Z * list Z)) :
    result VerifyError (list (Z * list Z)) :=
  if forallb (λ p, bool_decide (p.1 ∈ v.*1)) (map_to_list sigs)
  then Ok (in_order v sigs) else Err UnknownAuthor.

Lemma power_mono v Q1 Q2 : Forall (λ p, 0 ≤ p.2) v → Q1 ⊆ Q2 → power v Q1 ≤ power v Q2.
Proof.
  intros Hpos Hsub. unfold power. induction Hpos as [|[a p] l Hp _ IH]; simpl; [lia|].
  simpl in Hp. case_bool_decide as H1; case_bool_decide as H2; try lia. by destruct H2; apply Hsub.
Qed.

Section aggregation.
Context (v : list (Z * Z)) (Hnodup : NoDup v.*1).
Context (Hpos : Forall (λ p, 0 ≤ p.2) v).

Lemma power_perm Q1 Q2 : Q1 ≡ₚ Q2 → power v Q1 = power v Q2.
Proof using Hpos.
  intros HQ. apply Z.le_antisymm; apply power_mono; [done| |done|]; intros a; by rewrite HQ.
Qed.

Lemma known_spec Q : forallb (λ a, bool_decide (a ∈ v.*1)) Q = true ↔ ∀ a, a ∈ Q → a ∈ v.*1.
Proof using Type.
  rewrite forallb_forall. setoid_rewrite bool_decide_eq_true. by setoid_rewrite list_elem_of_In.
Qed.

Lemma check_voting_power_Ok Q p :
  check_voting_power v Q = Ok p ↔
  (∀ a, a ∈ Q → a ∈ v.*1) ∧ p = power v Q ∧ quorum_power v ≤ power v Q.
Proof using Type.
  unfold check_voting_power. destruct (forallb _ Q) eqn:Hk.
  - rewrite known_spec in Hk. destruct (Z.leb_spec (quorum_power v) (power v Q)); naive_solver lia.
  - split; [done|]. intros (H & _). rewrite <- known_spec in H. congruence.
Qed.

Lemma is_ok_check Q :
  is_ok (check_voting_power v Q) = true ↔
  (∀ a, a ∈ Q → a ∈ v.*1) ∧ quorum_power v ≤ power v Q.
Proof using Type.
  split.
  - destruct (check_voting_power v Q) as [p| |] eqn:H; [|done..]. apply check_voting_power_Ok in H. naive_solver.
  - intros [H1 H2]. by rewrite (proj2 (check_voting_power_Ok Q (power v Q))).
Qed.

(** Signatures whose bytes are those of the signer's message. *)
Lemma in_order_spec (sigs : gmap Z (Z * list Z)) (msg : Z → list Z) :
  (∀ a s, sigs !! a = Some s → s = (a, msg a)) →
  in_order v sigs = (λ a, (a, msg a)) <$> filter (λ a, is_Some (sigs !! a)) v.*1.
Proof using Type.
  clear Hnodup. intros Hs. unfold in_order. induction v.*1 as [|a l IH]; [done|]. rewrite filter_cons.
  destruct (decide (is_Some (sigs !! a))) as [[s Ha]|Hn]; simpl.
  - rewrite Ha. simpl. rewrite (Hs a s Ha). f_equal. exact IH.
  - destruct (sigs !! a) eqn:Ha; [by destruct Hn; eauto|exact IH].
Qed.

Lemma aggregate_known (sigs : gmap Z (Z * list Z)) :
  (∀ a, is_Some (sigs !! a) → a ∈ v.*1) → aggregate v sigs = Ok (in_order v sigs).
Proof using Type.
  intros Hk. unfold aggregate.
  rewrite (proj2 (forallb_forall _ _)); [done|]. intros [a s] Hin. apply bool_decide_eq_true, Hk.
  apply list_elem_of_In, elem_of_map_to_list in Hin. eauto.
Qed.

Lemma signers_perm (sigs : gmap Z (Z * list Z)) :
  (∀ a, is_Some (sigs !! a) → a ∈ v.*1) →
  filter (λ a, is_Some (sigs !! a)) v.*1 ≡ₚ (map_to_list sigs).*1.
Proof using Hnodup.
  intros Hk. apply NoDup_Permutation; [by apply NoDup_filter|apply NoDup_fst_map_to_list|].
  intros a. rewrite list_elem_of_filter. split.
  - intros [[s Hs] _]. apply list_elem_of_fmap. exists (a, s). by rewrite elem_of_map_to_list.
  - intros ([b s] & -> & Hs%elem_of_map_to_list)%list_elem_of_fmap. simpl. eauto.
Qed.

Lemma index_spec a i :
  (list_to_map (zip v.*1 (seq 0 (length v))) : gmap Z nat) !! a = Some i ↔ v.*1 !! i = Some a.
Proof using Hnodup.
  rewrite <- elem_of_list_to_map.
  - rewrite list_elem_of_lookup. setoid_rewrite lookup_zip_Some. split.
    + intros (j & Hj & [-> _]%lookup_seq). done.
    + intros H. exists i. split; [done|]. apply lookup_seq.
      apply lookup_lt_Some in H. rewrite length_fmap in H. lia.
  - rewrite fst_zip; [done|]. by rewrite length_fmap, length_seq.
Qed.
End aggregation.


#[export] Instance ToyLaptos : Laptos := {
  HashValue := list Z; HashValue_zero := []; ACCUMULATOR_PLACEHOLDER_HASH := [7];
  GENESIS_BLOCK_ID := [6];
  Bytes := list Z; PublicKey := Z; PrivateKey := Z; PrivateKey_public_key k := k;
  Signature := Z * list Z;
  AccountAddress := Z;
  ValidatorSigner := Z * Z; ValidatorSigner_new a k := (a, k);
  ValidatorSigner_author := fst; ValidatorSigner_public_key := snd;
  ValidatorSigner_sign s b := Ok (s.1, b);
  BitVec := list bool;
  AggregateSignature := list (Z * list Z); AggregateSignature_empty := [];
  AggregateSignature_of_empty_bits _ := [];
  AggregateSignature_get_num_voters := length;
  AggregateSignature_get_signers_addresses agg _ := agg.*1;
  ValidatorVerifier := list (Z * Z); ValidatorVerifier_len := length;
  ValidatorVerifier_get_public_key v a := if bool_decide (a ∈ v.*1) then Some a else None;
  ValidatorVerifier_get_ordered_account_addresses v := v.*1;
  ValidatorVerifier_address_to_validator_index v := list_to_map (zip v.*1 (seq 0 (length v)));
  ValidatorVerifier_verify v a b s :=
    if bool_decide (a ∈ v.*1 ∧ s = (a, b)) then Ok tt else Err "InvalidSignature"%string;
  ValidatorVerifier_verify_multi_signatures v b agg := check_agg v (replicate (length agg) b) agg;
  ValidatorVerifier_verify_aggregate_signatures v bs agg := check_agg v bs agg;
  ValidatorVerifier_get_voting_power v a := (list_to_map v : gmap Z Z) !! a;
  ValidatorVerifier_quorum_voting_power := quorum_power;
  ValidatorVerifier_check_voting_power := check_voting_power;
  ValidatorVerifier_total_voting_power v := foldr (λ p acc, p.2 + acc) 0 v;
  ValidatorVerifier_aggregate_signatures v l := aggregate v (list_to_map l);
  EpochState := Z * list (Z * Z); EpochState_epoch := fst; EpochState_verifier := snd;
  BlockInfo := block_info; BlockInfo_new := BI; BlockInfo_empty := BI 0 0 [] [] 0 0 None;
  BlockInfo_epoch := info_epoch; BlockInfo_round := info_round; BlockInfo_id := info_id;
  BlockInfo_executed_state_id := info_exec; BlockInfo_version := info_version;
  BlockInfo_timestamp_usecs := info_time;
  BlockInfo_has_reconfiguration b := if info_next b is Some _ then true else false;
  BlockInfo_is_ordered_only b := bool_decide (info_exec b = [7]);
  BlockInfo_match_ordered_only b1 b2 :=
    bool_decide (info_epoch b1 = info_epoch b2 ∧ info_round b1 = info_round b2 ∧ info_id b1 = info_id b2);
  BlockInfo_next_epoch_state := info_next; BlockInfo_epoch_block_info := info_ended;
  BlockInfo_new_with_epoch_block_info := BI_with;
  BlockInfo_change_timestamp t b :=
    BI_with (info_epoch b) (info_round b) (info_id b) (info_exec b) (info_version b) t
      (info_next b) (info_ended b);
  LedgerInfo := ledger_info; LedgerInfo_version l := info_version (li_commit l);
  LedgerInfo_new := LI; LedgerInfo_new_with_block_info c h _ _ := LI c h;
  LedgerInfo_commit_info := li_commit;
  LedgerInfo_consensus_data_hash := li_hash;
  LedgerInfo_set_consensus_data_hash h l := LI (li_commit l) h;
  LedgerInfo_epoch l := info_epoch (li_commit l); LedgerInfo_round l := info_round (li_commit l);
  LedgerInfo_ends_epoch l := if info_next (li_commit l) is Some _ then true else false;
  LedgerInfo_next_epoch_state l := info_next (li_commit l);
  LedgerInfo_block_hash l := info_exec (li_commit l);
  LedgerInfo_waypoint_version l := info_version (li_commit l);
  LedgerInfo_timestamp_usecs l := info_time (li_commit l);
  LedgerInfo_consensus_block_id l := info_id (li_commit l);
  LedgerInfo_block_number l := info_version (li_commit l);
  LedgerInfoWithSignatures := ledger_info * list (Z * list Z);
  LedgerInfoWithSignatures_new l a := (l, a); LedgerInfoWithSignatures_ledger_info := fst;
  LedgerInfoWithSignatures_get_num_voters p := length p.2;
  LedgerInfoWithSignatures_verify_signatures p v :=
    check_agg v (replicate (length p.2) (enc_ledger_info p.1)) p.2;
  LedgerInfoWithVerifiedSignatures := ledger_info * gmap Z (Z * list Z);
  LedgerInfoWithVerifiedSignatures_new l := (l, ∅);
  LedgerInfoWithVerifiedSignatures_ledger_info := fst;
  LedgerInfoWithVerifiedSignatures_signatures := snd;
  LedgerInfoWithVerifiedSignatures_add_signature a s l := (l.1, <[a := s]> l.2);
  LedgerInfoWithVerifiedSignatures_aggregate_signatures v l :=
    agg ← aggregate v l.2; Ok (l.1, agg);
  Waypoint := Z; Waypoint_version w := w; Waypoint_new_epoch_boundary l := Ok (info_version (li_commit l));
  EpochChangeProof := ledger_info * list (Z * list Z); EpochChangeProof_verify p _ := Ok p;
  is_consensus_alpha_active_at _ := false; is_consensus_alpha_active_at_epoch e := 1 <=? e;
  SignedTransaction := Z; ValidatorTransaction := Z;
  SignedTransaction_payload t := if t <? 0 then Script else GTxnBytes;
  SignedTransaction_sender t := t / 100; SignedTransaction_sequence_number t := t mod 100;
  SignedTransaction_committed_hash t := [t]; SignedTransaction_raw_txn_bytes_len t := 8;
  SignedTransaction_expiration_timestamp_secs t := 1000 + t;
  SignedTransaction_gas_unit_price t := t mod 10; SignedTransaction_txn_bytes_len t := 8;
}.
#[export] Instance ToyLaws : LaptosLaws ToyLaptos.
Proof.
  split; try reflexivity. intros b1 b2 H.
  exact (proj1 (bool_decide_eq_true _) H).
Qed.
#[export] Instance ledger_info_CryptoHash : CryptoHash LedgerInfo :=
  { hash := enc_ledger_info; signing_message := enc_ledger_info }.

(** Once the signers have quorum power, the aggregate verifies. *)
Lemma check_agg_Ok v (sigs : gmap Z (Z * list Z)) (msg : Z → list Z) :
  is_ok (check_voting_power v (filter (λ a, is_Some (sigs !! a)) v.*1)) = true →
  check_agg v (msg <$> filter (λ a, is_Some (sigs !! a)) v.*1)
    ((λ a, (a, msg a)) <$> filter (λ a, is_Some (sigs !! a)) v.*1) = Ok tt.
Proof.
  intros Hq. unfold check_agg, check_power. rewrite <- !list_fmap_compose, list_fmap_id.
  rewrite bool_decide_true by done. by destruct (check_voting_power _ _).
Qed.

Lemma check_agg_one (v : list (Z * Z)) (sigs : gmap Z (Z * list Z)) m :
  NoDup v.*1 → Forall (λ p, 0 ≤ p.2) v →
  (∀ a s, sigs !! a = Some s → a ∈ v.*1 ∧ s = (a, m)) →
  (∀ a, is_Some (sigs !! a) → a ∈ v.*1) →
  is_ok (check_voting_power v (map_to_list sigs).*1) = true →
  check_agg v (replicate (length (in_order v sigs)) m) (in_order v sigs) = Ok tt.
Proof.
  intros Hnd Hpos Hs Hk Hc.
  rewrite (in_order_spec v sigs (λ _, m)) by (intros a s Ha; by apply Hs).
  rewrite length_fmap, <- (check_agg_Ok v sigs (λ _, m)).
  - f_equal. induction (filter _ _) as [|a l IH]; simpl; [done|]. by f_equal.
  - apply is_ok_check in Hc as [_ Hc]. apply is_ok_check. split.
    + by intros a [? ?]%list_elem_of_filter.
    + by rewrite (power_perm v Hpos _ _ (signers_perm v Hnd sigs Hk)).
Qed.

#[export] Instance ToyAggregationLaws (v : list (Z * Z)) :
  NoDup v.*1 → Forall (λ p, 0 ≤ p.2) v → 0 < quorum_power v ≤ foldr (λ p acc, p.2 + acc) 0 v →
  foldr (λ p acc, p.2 + acc) 0 v ≤ u128_MAX →
  AggregationLaws (L:=ToyLaptos) v.
Proof.
  intros Hnd Hpos Hq Ht.
  assert (∀ a, is_Some ((list_to_map (zip v.*1 (seq 0 (length v))) : gmap Z nat) !! a) ↔ a ∈ v.*1) as Hk.
  { intros a. split.
    - intros [i Hi%index_spec]; [|done]. by eapply list_elem_of_lookup_2.
    - intros [i Hi]%list_elem_of_lookup. exists i. by apply index_spec. }
  split; simpl.
  - intros a i. by apply index_spec.
  - intros a b s H. apply Hk. case_bool_decide as Hb; [by destruct Hb|done].
  - intros a. rewrite Hk. split.
    + intros [p Hp%elem_of_list_to_map_2]. apply list_elem_of_fmap. by exists (a, p).
    + intros ([b p] & -> & Hp)%list_elem_of_fmap. exists p. by apply elem_of_list_to_map.
  - intros Q1 Q2 HQ. unfold check_voting_power. rewrite (power_perm v Hpos _ _ HQ).
    destruct (forallb _ Q1) eqn:H1, (forallb _ Q2) eqn:H2; try done.
    + rewrite known_spec in H1. setoid_rewrite HQ in H1. rewrite <- known_spec in H1. congruence.
    + rewrite known_spec in H2. setoid_rewrite <- HQ in H2. rewrite <- known_spec in H2. congruence.
  - intros Q. unfold check_voting_power. by repeat case_match.
  - intros Q p (_ & -> & ?)%check_voting_power_Ok. done.
  - intros Q e HQ. unfold check_voting_power. rewrite (proj2 (known_spec v Q)).
    + case_match; [done|]. intros [= <-]. eauto.
    + intros a Ha. by apply Hk, HQ.
  - intros Q1 Q2 _ Hsub HQ2 [_ H]%is_ok_check. apply is_ok_check. split.
    + intros a Ha. by apply Hk, HQ2.
    + pose proof (power_mono v _ _ Hpos Hsub). lia.
  - done.
  - intros [li sigs] Hs Hc. simpl in *.
    assert (∀ a s, sigs !! a = Some s → a ∈ v.*1 ∧ s = (a, enc_ledger_info li)) as Hs'.
    { intros a s Ha%Hs. by case_bool_decide. }
    assert (∀ a, is_Some (sigs !! a) → a ∈ v.*1) as Hk' by (intros a [s Ha]; by eapply Hs').
    rewrite aggregate_known by done. eexists. split; [done|]. split; [done|]. simpl.
    by apply check_agg_one.
  - intros sigs li Hs Hc. simpl in *.
    assert (∀ a s, sigs !! a = Some s → a ∈ v.*1 ∧ s = (a, enc_ledger_info li)) as Hs'.
    { intros a s Ha%Hs. by case_bool_decide. }
    assert (∀ a, is_Some (sigs !! a) → a ∈ v.*1) as Hk' by (intros a [s Ha]; by eapply Hs').
    rewrite list_to_map_to_list, aggregate_known by done. eexists. split; [done|].
    by apply check_agg_one.
  - intros sigs msg Hs.
    assert (∀ a s, sigs !! a = Some s → a ∈ v.*1 ∧ s = (a, msg a)) as Hs'.
    { intros a s Ha%Hs. by case_bool_decide. }
    rewrite list_to_map_to_list, aggregate_known by (intros a [s Ha]; by eapply Hs').
    eexists. split; [done|].
    rewrite (in_order_spec v sigs msg) by (intros a s Ha; by apply Hs').
    rewrite length_fmap, <- list_fmap_compose, list_fmap_id. split_and!; [done..|].
    apply check_agg_Ok.
Qed.
