(* ===== verification/Payload.v ===== *)
(** Block payloads: consensus-types/src/{proof_of_store,payload,common}.rs.

    Batches and proofs of store, the [Payload] enum a block carries, its
    measures and its verification through the proof cache. *)
From S2P Require Import Prelude Laptos.

Section payload.
Context `{L : Laptos}.

(** ** proof_of_store.rs *)

Record BatchId : Type := { batch_id_id : Z; batch_id_nonce : Z }.
#[global] Instance BatchId_eq_dec : EqDecision BatchId.
Proof using Type. solve_decision. Defined.
#[global] Instance BatchId_countable : Countable BatchId.
Proof using Type.
  refine (inj_countable' (λ b, (batch_id_id b, batch_id_nonce b))
            (λ p, {| batch_id_id := p.1; batch_id_nonce := p.2 |}) _).
  by intros [].
Defined.

Definition BatchId_new (nonce : Z) : BatchId := {| batch_id_id := 0; batch_id_nonce := nonce |}.

Definition BatchId_increment (b : BatchId) : result anyhow BatchId :=
  i ← u64_add (batch_id_id b) 1;
  Ok {| batch_id_id := i; batch_id_nonce := batch_id_nonce b |}.

Definition BatchId_cmp (self other : BatchId) : comparison :=
  match batch_id_nonce self ?= batch_id_nonce other with
  | Eq => batch_id_id self ?= batch_id_id other
  | ordering => ordering
  end.

Record BatchInfo : Type := {
  bi_author : AccountAddress;
  bi_batch_id : BatchId;
  bi_epoch : Z;
  bi_expiration : Z;
  bi_digest : HashValue;
  bi_num_txns : Z;
  bi_num_bytes : Z;
  bi_gas_bucket_start : Z;
}.
#[global] Instance BatchInfo_eq_dec : EqDecision BatchInfo.
Proof using Type. solve_decision. Defined.
#[global] Instance BatchInfo_countable : Countable BatchInfo.
Proof using Type.
  refine (inj_countable'
    (λ b, (bi_author b, bi_batch_id b, bi_epoch b, bi_expiration b, bi_digest b,
           bi_num_txns b, bi_num_bytes b, bi_gas_bucket_start b))
    (λ '(a, i, e, x, d, n, y, g),
      {| bi_author := a; bi_batch_id := i; bi_epoch := e; bi_expiration := x; bi_digest := d;
         bi_num_txns := n; bi_num_bytes := y; bi_gas_bucket_start := g |}) _).
  by intros [].
Defined.

(** [now] is the wall clock [duration_since_epoch().as_micros()]. *)
Definition BatchInfo_is_expired (now : Z) (b : BatchInfo) : bool := bi_expiration b <? now.

Record SignedBatchInfo : Type := {
  sbi_info : BatchInfo;
  sbi_signer : AccountAddress;
  sbi_signature : Signature;
}.

Record ProofOfStore : Type := {
  pos_info : BatchInfo;
  pos_multi_signature : AggregateSignature;
}.
#[global] Instance ProofOfStore_eq_dec : EqDecision ProofOfStore.
Proof using Type. solve_decision. Defined.

(** [ProofCache]: the entries the bounded cache currently holds. *)
#[local] Abbreviation ProofCache := (gmap BatchInfo AggregateSignature).

Context `{!CryptoHash BatchInfo}.

Definition SignedBatchInfo_new (batch_info : BatchInfo) (signer : ValidatorSigner) :
    result anyhow SignedBatchInfo :=
  signature ← signer_sign signer batch_info;
  Ok {| sbi_info := batch_info; sbi_signer := ValidatorSigner_author signer;
        sbi_signature := signature |}.

Definition SignedBatchInfo_verify (now : Z) (self : SignedBatchInfo) (sender : AccountAddress)
    (max_batch_expiry_gap_usecs : Z) (validator : ValidatorVerifier) : result anyhow unit :=
  if bool_decide (sender ≠ sbi_signer self) then Err "Sender mismatch signer"%string else
  limit ← u64_add now max_batch_expiry_gap_usecs;
  if bi_expiration (sbi_info self) >? limit
  then Err "Batch expiration too far in future"%string
  else verifier_verify validator (sbi_signer self) (sbi_info self) (sbi_signature self).

Fixpoint verify_all {A} (f : A → result anyhow unit) (l : list A) : result anyhow unit :=
  match l with
  | [] => Ok tt
  | x :: l => _ ← f x; verify_all f l
  end.

Definition SignedBatchInfoMsg_verify (now : Z) (signed_infos : list SignedBatchInfo)
    (sender : AccountAddress) (max_num_batches : nat) (max_batch_expiry_gap_usecs : Z)
    (validator : ValidatorVerifier) : result anyhow unit :=
  _ ← ensure (negb (bool_decide (signed_infos = []))) "Empty message"%string;
  _ ← ensure (length signed_infos <=? max_num_batches)%nat "Too many batches"%string;
  verify_all
    (λ i, SignedBatchInfo_verify now i sender max_batch_expiry_gap_usecs validator) signed_infos.

(** The epoch of a message is that of its first entry, and all agree. *)
Definition SignedBatchInfoMsg_epoch (signed_infos : list SignedBatchInfo) : result anyhow Z :=
  match signed_infos with
  | [] => Err "Empty message"%string
  | i :: _ =>
      let epoch := bi_epoch (sbi_info i) in
      _ ← verify_all
            (λ j, ensure (bi_epoch (sbi_info j) =? epoch) "Epoch mismatch"%string) signed_infos;
      Ok epoch
  end.

(** [ProofOfStore::verify] reads and fills the cache. *)
Definition ProofOfStore_verify (validator : ValidatorVerifier) (self : ProofOfStore) :
    SM ProofCache anyhow unit := λ cache,
  if bool_decide (cache !! pos_info self = Some (pos_multi_signature self)) then (cache, Ok tt)
  else
    match verify_multi_signatures validator (pos_info self) (pos_multi_signature self) with
    | Ok u => (<[pos_info self := pos_multi_signature self]> cache, Ok u)
    | Err _ => (cache, Err "Failed to verify ProofOfStore"%string)
    | Panic => (cache, Panic)
    end.

Fixpoint verify_proofs (validator : ValidatorVerifier) (proofs : list ProofOfStore) :
    SM ProofCache anyhow unit :=
  match proofs with
  | [] => mret tt
  | p :: proofs => _ ← ProofOfStore_verify validator p; verify_proofs validator proofs
  end.

Definition ProofOfStoreMsg_verify (max_num_proofs : nat) (validator : ValidatorVerifier)
    (proofs : list ProofOfStore) : SM ProofCache anyhow unit :=
  _ ← lift (λ _, ensure (negb (bool_decide (proofs = []))) "Empty message"%string);
  _ ← lift (λ _, ensure (length proofs <=? max_num_proofs)%nat "Too many proofs"%string);
  verify_proofs validator proofs.

Definition ProofOfStoreMsg_epoch (proofs : list ProofOfStore) : result anyhow Z :=
  match proofs with
  | [] => Err "Empty message"%string
  | p :: _ =>
      let epoch := bi_epoch (pos_info p) in
      _ ← verify_all
            (λ q, ensure (bi_epoch (pos_info q) =? epoch) "Epoch mismatch"%string) proofs;
      Ok epoch
  end.

(** ** payload.rs and common.rs

    [status] of a [ProofWithData] or [BatchPointer] is a shared cell
    ([Arc<Mutex<Option<DataStatus>>>]); values carry the identity of the cell,
    which is also what their [PartialEq] compares. *)
Definition StatusCell : Type := positive.

Record ProofWithData : Type := { pwd_proofs : list ProofOfStore; pwd_status : StatusCell }.
#[global] Instance ProofWithData_eq_dec : EqDecision ProofWithData.
Proof using Type. solve_decision. Defined.

Record ProofWithDataWithTxnLimit : Type := {
  pwl_proof_with_data : ProofWithData;
  pwl_max_txns_to_execute : option Z;
}.
#[global] Instance ProofWithDataWithTxnLimit_eq_dec : EqDecision ProofWithDataWithTxnLimit.
Proof using Type. solve_decision. Defined.

Record BatchPointer (T : Type) : Type := { bp_batch_summary : list T; bp_status : StatusCell }.
Arguments bp_batch_summary {T}.
Arguments bp_status {T}.
#[global] Instance BatchPointer_eq_dec {T} `{EqDecision T} : EqDecision (BatchPointer T).
Proof using Type. solve_decision. Defined.

Inductive PayloadExecutionLimit : Type :=
| NoLimit
| MaxTransactionsToExecute (max : Z).
#[global] Instance PayloadExecutionLimit_eq_dec : EqDecision PayloadExecutionLimit.
Proof using Type. solve_decision. Defined.

Record InlineBatch : Type := {
  ib_batch_info : BatchInfo;
  ib_transactions : list SignedTransaction;
}.
#[global] Instance InlineBatch_eq_dec : EqDecision InlineBatch.
Proof using Type. solve_decision. Defined.

Record OptQuorumStorePayload : Type := {
  oqs_inline_batches : list InlineBatch;
  oqs_opt_batches : BatchPointer BatchInfo;
  oqs_proofs : BatchPointer ProofOfStore;
  oqs_execution_limits : PayloadExecutionLimit;
}.
#[global] Instance OptQuorumStorePayload_eq_dec : EqDecision OptQuorumStorePayload.
Proof using Type. solve_decision. Defined.

Inductive Payload : Type :=
| DirectMempool (txns : list SignedTransaction)
| InQuorumStore (p : ProofWithData)
| InQuorumStoreWithLimit (p : ProofWithDataWithTxnLimit)
| QuorumStoreInlineHybrid (inline_batches : list (BatchInfo * list SignedTransaction))
    (proof_with_data : ProofWithData) (max_txns_to_execute : option Z)
| OptQuorumStore (p : OptQuorumStorePayload).
#[global] Instance Payload_eq_dec : EqDecision Payload.
Proof using Type. solve_decision. Defined.

(** Sums of counts; [usize] is 64 bits wide, so the casts are the identity. *)
Definition proofs_num_txns (proofs : list ProofOfStore) : result anyhow Z :=
  u64_sum ((λ p, bi_num_txns (pos_info p)) <$> proofs).
Definition proofs_num_bytes (proofs : list ProofOfStore) : result anyhow Z :=
  u64_sum ((λ p, bi_num_bytes (pos_info p)) <$> proofs).
Definition inline_num_txns (inline_batches : list (BatchInfo * list SignedTransaction)) :
    result anyhow Z :=
  u64_sum ((λ b, Z.of_nat (length b.2)) <$> inline_batches).

Definition ProofWithData_len (self : ProofWithData) : result anyhow Z :=
  proofs_num_txns (pwd_proofs self).
Definition ProofWithData_num_bytes (self : ProofWithData) : result anyhow Z :=
  proofs_num_bytes (pwd_proofs self).
Definition ProofWithData_is_empty (self : ProofWithData) : bool :=
  bool_decide (pwd_proofs self = []).

Definition OptQuorumStorePayload_num_txns (self : OptQuorumStorePayload) : result anyhow Z :=
  a ← u64_sum (bi_num_txns <$> bp_batch_summary (oqs_opt_batches self));
  b ← proofs_num_txns (bp_batch_summary (oqs_proofs self));
  ab ← u64_add a b;
  c ← u64_sum ((λ i, bi_num_txns (ib_batch_info i)) <$> oqs_inline_batches self);
  u64_add ab c.
Definition OptQuorumStorePayload_num_bytes (self : OptQuorumStorePayload) : result anyhow Z :=
  a ← u64_sum (bi_num_bytes <$> bp_batch_summary (oqs_opt_batches self));
  b ← proofs_num_bytes (bp_batch_summary (oqs_proofs self));
  ab ← u64_add a b;
  c ← u64_sum ((λ i, bi_num_bytes (ib_batch_info i)) <$> oqs_inline_batches self);
  u64_add ab c.
Definition OptQuorumStorePayload_is_empty (self : OptQuorumStorePayload) : bool :=
  bool_decide (bp_batch_summary (oqs_opt_batches self) = []) &&
  bool_decide (bp_batch_summary (oqs_proofs self) = []) &&
  bool_decide (oqs_inline_batches self = []).
Definition max_txns_to_execute (self : OptQuorumStorePayload) : option Z :=
  match oqs_execution_limits self with
  | NoLimit => None
  | MaxTransactionsToExecute max => Some max
  end.
Definition get_all_batch_infos (self : OptQuorumStorePayload) : list BatchInfo :=
  (ib_batch_info <$> oqs_inline_batches self) ++
  bp_batch_summary (oqs_opt_batches self) ++
  (pos_info <$> bp_batch_summary (oqs_proofs self)).

Definition Payload_is_empty (self : Payload) : bool :=
  match self with
  | DirectMempool txns => bool_decide (txns = [])
  | InQuorumStore p => bool_decide (pwd_proofs p = [])
  | InQuorumStoreWithLimit p => bool_decide (pwd_proofs (pwl_proof_with_data p) = [])
  | QuorumStoreInlineHybrid inline_batches proof_with_data _ =>
      bool_decide (pwd_proofs proof_with_data = []) && bool_decide (inline_batches = [])
  | OptQuorumStore p => OptQuorumStorePayload_is_empty p
  end.

Definition Payload_len (self : Payload) : result anyhow Z :=
  match self with
  | DirectMempool txns => Ok (Z.of_nat (length txns))
  | InQuorumStore p => ProofWithData_len p
  | InQuorumStoreWithLimit p => ProofWithData_len (pwl_proof_with_data p)
  | QuorumStoreInlineHybrid inline_batches proof_with_data _ =>
      a ← ProofWithData_len proof_with_data;
      b ← inline_num_txns inline_batches;
      u64_add a b
  | OptQuorumStore p => OptQuorumStorePayload_num_txns p
  end.

Definition Payload_len_for_execution (self : Payload) : result anyhow Z :=
  match self with
  | DirectMempool txns => Ok (Z.of_nat (length txns))
  | InQuorumStore p => ProofWithData_len p
  | InQuorumStoreWithLimit p =>
      n ← ProofWithData_len (pwl_proof_with_data p);
      Ok (Z.min n (default u64_MAX (pwl_max_txns_to_execute p)))
  | QuorumStoreInlineHybrid inline_batches proof_with_data limit =>
      a ← ProofWithData_len proof_with_data;
      b ← inline_num_txns inline_batches;
      n ← u64_add a b;
      Ok (Z.min n (default u64_MAX limit))
  | OptQuorumStore p => Ok (default u64_MAX (max_txns_to_execute p))
  end.

Definition Payload_size (self : Payload) : result anyhow Z :=
  match self with
  | DirectMempool txns => u64_sum (SignedTransaction_raw_txn_bytes_len <$> txns)
  | InQuorumStore p => ProofWithData_num_bytes p
  | InQuorumStoreWithLimit p => ProofWithData_num_bytes (pwl_proof_with_data p)
  | QuorumStoreInlineHybrid inline_batches proof_with_data _ =>
      a ← ProofWithData_num_bytes proof_with_data;
      b ← u64_sum ((λ i, bi_num_bytes i.1) <$> inline_batches);
      u64_add a b
  | OptQuorumStore p => OptQuorumStorePayload_num_bytes p
  end.

Definition transform_to_quorum_store_v2 (self : Payload) (limit : option Z) :
    result anyhow Payload :=
  match self with
  | InQuorumStore p =>
      Ok (InQuorumStoreWithLimit
            {| pwl_proof_with_data := p; pwl_max_txns_to_execute := limit |})
  | QuorumStoreInlineHybrid inline_batches proof_with_data _ =>
      Ok (QuorumStoreInlineHybrid inline_batches proof_with_data limit)
  | InQuorumStoreWithLimit _ | DirectMempool _ | OptQuorumStore _ => Panic
  end.

(** [cell] is the identity of the cell allocated by [Arc::new]. *)
Definition Payload_empty (cell : StatusCell)
    (quorum_store_enabled allow_batches_without_pos_in_proposal : bool) : Payload :=
  if quorum_store_enabled then
    if allow_batches_without_pos_in_proposal
    then QuorumStoreInlineHybrid [] {| pwd_proofs := []; pwd_status := cell |} None
    else InQuorumStore {| pwd_proofs := []; pwd_status := cell |}
  else DirectMempool [].

Definition ensure_supported_transaction_payloads (txns : list SignedTransaction) :
    result anyhow unit :=
  verify_all (λ t,
    match SignedTransaction_payload t with
    | GTxnBytes => Ok tt
    | _ => Err "Unsupported transaction payload type"%string
    end) txns.

(** The batches the cache already vouches for are dropped before the check. *)
Definition verify_with_cache (proofs : list ProofOfStore) (validator : ValidatorVerifier) :
    SM ProofCache anyhow unit := λ cache,
  let unverified :=
    filter (λ p, cache !! pos_info p ≠ Some (pos_multi_signature p)) proofs in
  verify_proofs validator unverified cache.

(** [batch_payload_hash author txns] is [BatchPayload::new(author, txns).hash()]:
    the hash of the serialization of the author and the transactions. *)
Definition Payload_verify (batch_payload_hash : AccountAddress → list SignedTransaction → HashValue)
    (self : Payload) (validator : ValidatorVerifier) (quorum_store_enabled : bool) :
    SM ProofCache anyhow unit :=
  match quorum_store_enabled, self with
  | false, DirectMempool txns => lift (λ _, ensure_supported_transaction_payloads txns)
  | true, InQuorumStore p => verify_with_cache (pwd_proofs p) validator
  | true, InQuorumStoreWithLimit p =>
      verify_with_cache (pwd_proofs (pwl_proof_with_data p)) validator
  | true, QuorumStoreInlineHybrid inline_batches proof_with_data _ =>
      _ ← verify_with_cache (pwd_proofs proof_with_data) validator;
      lift (λ _, verify_all (λ '(batch, txns),
        if bool_decide (batch_payload_hash (bi_author batch) txns ≠ bi_digest batch)
        then Err "Hash of the received inline batch doesn't match the digest value"%string
        else ensure_supported_transaction_payloads txns) inline_batches)
  | true, OptQuorumStore p =>
      _ ← verify_with_cache (bp_batch_summary (oqs_proofs p)) validator;
      lift (λ _, Err "OptQuorumStore is not supported yet."%string)
  | _, _ => lift (λ _, Err "Wrong payload type"%string)
  end.

(** ** Verification is sound, also through the cache *)

Section soundness.
Context (validator : ValidatorVerifier).

Definition proof_valid (p : ProofOfStore) : Prop :=
  verify_multi_signatures validator (pos_info p) (pos_multi_signature p) = Ok tt.

(** Every cached signature is a valid one. *)
Definition cache_sound (cache : ProofCache) : Prop :=
  ∀ info sig, cache !! info = Some sig →
    proof_valid {| pos_info := info; pos_multi_signature := sig |}.

Lemma ProofOfStore_verify_sound p cache cache' u :
  cache_sound cache → ProofOfStore_verify validator p cache = (cache', Ok u) →
  proof_valid p ∧ cache_sound cache'.
Proof using Type.
  intros Hc. unfold ProofOfStore_verify. case_bool_decide as Hp.
  - intros [= <- <-]. split; [|done]. destruct p. by apply Hc.
  - destruct (verify_multi_signatures _ _ _) as [[]| |] eqn:Hv; intros [=]; subst.
    split; [done|]. intros i s [[<- <-]|[? ?]]%lookup_insert_Some; [done|by apply Hc].
Qed.

Lemma verify_proofs_sound proofs cache cache' u :
  cache_sound cache → verify_proofs validator proofs cache = (cache', Ok u) →
  Forall proof_valid proofs ∧ cache_sound cache'.
Proof using Type.
  revert cache. induction proofs as [|p proofs IH]; intros cache Hc H; simpl in H.
  - inv_ok. split; [constructor|done].
  - apply SM_Ok_bind in H as (c1 & a & H1 & H).
    apply ProofOfStore_verify_sound in H1 as [Hp Hc1]; [|done].
    destruct (IH _ Hc1 H). split; [by constructor|done].
Qed.

Lemma verify_with_cache_sound proofs cache cache' u :
  cache_sound cache → verify_with_cache proofs validator cache = (cache', Ok u) →
  Forall proof_valid proofs ∧ cache_sound cache'.
Proof using Type.
  intros Hc H. unfold verify_with_cache in H.
  apply verify_proofs_sound in H as [Hv Hc']; [|done]. split; [|done].
  rewrite Forall_forall in Hv |- *. intros p Hp.
  destruct (decide (cache !! pos_info p = Some (pos_multi_signature p))) as [Hl|Hl].
  - destruct p. by apply Hc.
  - apply Hv, list_elem_of_filter. done.
Qed.

Lemma verify_all_Ok {A} (f : A → result anyhow unit) l :
  verify_all f l = Ok tt ↔ ∀ x, x ∈ l → f x = Ok tt.
Proof using Type.
  induction l as [|x l IH]; simpl; [set_solver|].
  rewrite Ok_bind. setoid_rewrite elem_of_cons. split.
  - intros ([] & Hx & Hl) y [->|Hy]; [done|by apply IH].
  - intros Hall. exists tt. split; [by apply Hall; left|]. apply IH. auto.
Qed.
End soundness.

(** The proofs of store a payload carries. *)
Definition payload_proofs (p : Payload) : list ProofOfStore :=
  match p with
  | DirectMempool _ => []
  | InQuorumStore p => pwd_proofs p
  | InQuorumStoreWithLimit p => pwd_proofs (pwl_proof_with_data p)
  | QuorumStoreInlineHybrid _ p _ => pwd_proofs p
  | OptQuorumStore p => bp_batch_summary (oqs_proofs p)
  end.

(** The transactions a payload carries in the block itself. *)
Definition payload_txns (p : Payload) : list SignedTransaction :=
  match p with
  | DirectMempool txns => txns
  | QuorumStoreInlineHybrid inline_batches _ _ => mjoin inline_batches.*2
  | _ => []
  end.

Definition Payload_is_quorum_store (self : Payload) : bool :=
  match self with DirectMempool _ => false | _ => true end.

Lemma supported_payload txns t :
  ensure_supported_transaction_payloads txns = Ok tt → t ∈ txns →
  SignedTransaction_payload t = GTxnBytes.
Proof using Type.
  intros H Ht. apply (proj1 (verify_all_Ok _ _) H) in Ht. by case_match.
Qed.

(** A payload that verifies carries only proofs of store with a valid
    quorum signature (whether checked now or vouched for by a sound cache),
    only inline batches whose digest matches their contents, and only
    transactions the execution layer supports; it has the kind of payload the
    configuration asks for, and the cache stays sound. *)
Theorem Payload_verify_sound (h : AccountAddress → list SignedTransaction → HashValue)
    (p : Payload) (validator : ValidatorVerifier) (qs : bool) (cache cache' : ProofCache) :
  cache_sound validator cache →
  Payload_verify h p validator qs cache = (cache', Ok tt) →
  Forall (proof_valid validator) (payload_proofs p) ∧
  (∀ t, t ∈ payload_txns p → SignedTransaction_payload t = GTxnBytes) ∧
  (∀ bs q m, p = QuorumStoreInlineHybrid bs q m →
     ∀ b txns, (b, txns) ∈ bs → h (bi_author b) txns = bi_digest b) ∧
  qs = Payload_is_quorum_store p ∧
  cache_sound validator cache'.
Proof using Type.
  intros Hc H. destruct qs, p as [txns|q|q|bs q m|q]; simpl in *; try by inv_ok.
  - apply verify_with_cache_sound in H as [? ?]; [|done].
    split_and!; [done|set_solver|naive_solver|done|done].
  - apply verify_with_cache_sound in H as [? ?]; [|done].
    split_and!; [done|set_solver|naive_solver|done|done].
  - apply SM_Ok_bind in H as (c1 & a & H1 & H).
    apply verify_with_cache_sound in H1 as [? ?]; [|done].
    unfold lift in H. injection H as <- H. rewrite verify_all_Ok in H.
    assert (∀ b txns, (b, txns) ∈ bs →
      h (bi_author b) txns = bi_digest b ∧ ensure_supported_transaction_payloads txns = Ok tt)
      as Hb.
    { intros b txns Hin. specialize (H _ Hin). simpl in H. by case_bool_decide; simplify_eq. }
    split_and!; [done| | |done|done].
    + intros t (txns & Ht & ([b txns'] & -> & Hin)%list_elem_of_fmap)%list_elem_of_join.
      eapply supported_payload; [|exact Ht]. by apply (Hb b).
    + intros ??? [= <- <- <-] b txns Hin. by apply (Hb b).
  - inv_ok. split_and!; [constructor| |naive_solver|done|done].
    intros t Ht. by eapply supported_payload.
Qed.
End payload.

Abbreviation ProofCache := (gmap BatchInfo AggregateSignature).
