(* ===== verification/Certificates.v ===== *)
(** Votes data and certificates: consensus-types/src/{vote_data, quorum_cert,
    wrapped_ledger_info, timeout_2chain}.rs.

    Quorum certificates, ledger-info certificates, and 2-chain timeout
    certificates with their aggregation from partial signatures. *)
From S2P Require Import Prelude Laptos.

Section certificates.
Context `{L : Laptos}.

(** ** vote_data.rs *)

Record VoteData : Type := { vd_proposed : BlockInfo; vd_parent : BlockInfo }.
#[global] Instance VoteData_eq_dec : EqDecision VoteData.
Proof using Type. solve_decision. Defined.

Definition VoteData_dummy : VoteData :=
  {| vd_proposed := BlockInfo_empty; vd_parent := BlockInfo_empty |}.

Definition VoteData_verify (self : VoteData) : result anyhow unit :=
  let parent := vd_parent self in
  let proposed := vd_proposed self in
  _ ← ensure (BlockInfo_epoch parent =? BlockInfo_epoch proposed)
        "Parent and proposed epochs do not match"%string;
  _ ← ensure (BlockInfo_round parent <? BlockInfo_round proposed)
        "Proposed round is less than parent round"%string;
  _ ← ensure (BlockInfo_timestamp_usecs parent <=? BlockInfo_timestamp_usecs proposed)
        "Proposed happened before parent"%string;
  _ ← ensure ((BlockInfo_version proposed =? 0) ||
              (BlockInfo_version parent <=? BlockInfo_version proposed))
        "Proposed version is less than parent version"%string;
  Ok tt.

Definition VoteData_is_for_nil (self : VoteData) : bool :=
  BlockInfo_timestamp_usecs (vd_proposed self) =? BlockInfo_timestamp_usecs (vd_parent self).

Context `{!CryptoHash VoteData}.

(** ** quorum_cert.rs *)

Record QuorumCert : Type := {
  qc_vote_data : VoteData;
  qc_signed_ledger_info : LedgerInfoWithSignatures;
}.
#[global] Instance QuorumCert_eq_dec : EqDecision QuorumCert.
Proof using Type. solve_decision. Defined.

Definition qc_certified_block (qc : QuorumCert) : BlockInfo := vd_proposed (qc_vote_data qc).
Definition qc_parent_block (qc : QuorumCert) : BlockInfo := vd_parent (qc_vote_data qc).
Definition qc_ledger_info (qc : QuorumCert) : LedgerInfo :=
  LedgerInfoWithSignatures_ledger_info (qc_signed_ledger_info qc).
Definition qc_commit_info (qc : QuorumCert) : BlockInfo :=
  LedgerInfo_commit_info (qc_ledger_info qc).
Definition qc_ends_epoch (qc : QuorumCert) : bool := LedgerInfo_ends_epoch (qc_ledger_info qc).
(** The round of the certified block. *)
Definition qc_round (qc : QuorumCert) : Z := BlockInfo_round (qc_certified_block qc).

Definition QuorumCert_certificate_for_genesis_from_ledger_info
    (ledger_info : LedgerInfo) (genesis_id : HashValue) : result anyhow QuorumCert :=
  match u64_checked_add (LedgerInfo_epoch ledger_info) 1,
        LedgerInfo_next_epoch_state ledger_info with
  | Some epoch, Some next =>
      let ancestor :=
        BlockInfo_new epoch 0 genesis_id (LedgerInfo_block_hash ledger_info)
          (LedgerInfo_waypoint_version ledger_info) (LedgerInfo_timestamp_usecs ledger_info)
          None in
      let vote_data := {| vd_proposed := ancestor; vd_parent := ancestor |} in
      let li := LedgerInfo_new ancestor (hash vote_data) in
      let validator_set_size := ValidatorVerifier_len (EpochState_verifier next) in
      Ok {| qc_vote_data := vote_data;
            qc_signed_ledger_info :=
              LedgerInfoWithSignatures_new li
                (AggregateSignature_of_empty_bits validator_set_size) |}
  | _, _ => Panic
  end.

Definition QuorumCert_verify (self : QuorumCert) (validator : ValidatorVerifier) :
    result anyhow unit :=
  let vote_hash := hash (qc_vote_data self) in
  _ ← ensure (bool_decide (LedgerInfo_consensus_data_hash (qc_ledger_info self) = vote_hash))
        "Quorum Cert's hash mismatch LedgerInfo"%string;
  if BlockInfo_round (qc_certified_block self) =? 0 then
    _ ← ensure (bool_decide (qc_parent_block self = qc_certified_block self))
          "Genesis QC has inconsistent parent block with certified block"%string;
    _ ← ensure (bool_decide (qc_certified_block self = qc_commit_info self))
          "Genesis QC has inconsistent commit block with certified block"%string;
    _ ← ensure
          (LedgerInfoWithSignatures_get_num_voters (qc_signed_ledger_info self) =? 0)%nat
          "Genesis QC should not carry signatures"%string;
    Ok tt
  else
    _ ← context "Fail to verify QuorumCert"
          (LedgerInfoWithSignatures_verify_signatures (qc_signed_ledger_info self) validator);
    _ ← VoteData_verify (qc_vote_data self);
    Ok tt.

Definition QuorumCert_create_merged_with_executed_state (self : QuorumCert)
    (executed_ledger_info : LedgerInfoWithSignatures) : result anyhow QuorumCert :=
  _ ← ensure
        (BlockInfo_match_ordered_only (qc_commit_info self)
           (LedgerInfo_commit_info (LedgerInfoWithSignatures_ledger_info executed_ledger_info)))
        "Block info from QC and executed LI need to match"%string;
  Ok {| qc_vote_data := qc_vote_data self; qc_signed_ledger_info := executed_ledger_info |}.

(** ** wrapped_ledger_info.rs *)

Record WrappedLedgerInfo : Type := {
  wli_vote_data : VoteData;
  wli_signed_ledger_info : LedgerInfoWithSignatures;
}.
#[global] Instance WrappedLedgerInfo_eq_dec : EqDecision WrappedLedgerInfo.
Proof using Type. solve_decision. Defined.

Definition qc_into_wrapped_ledger_info (qc : QuorumCert) : WrappedLedgerInfo :=
  {| wli_vote_data := qc_vote_data qc; wli_signed_ledger_info := qc_signed_ledger_info qc |}.

Definition wli_ledger_info (self : WrappedLedgerInfo) : LedgerInfo :=
  LedgerInfoWithSignatures_ledger_info (wli_signed_ledger_info self).
Definition wli_commit_info (self : WrappedLedgerInfo) : BlockInfo :=
  LedgerInfo_commit_info (wli_ledger_info self).

Definition WrappedLedgerInfo_verify_consensus_data_hash (self : WrappedLedgerInfo) :
    result anyhow unit :=
  let vote_hash := hash (wli_vote_data self) in
  _ ← ensure (bool_decide (LedgerInfo_consensus_data_hash (wli_ledger_info self) = vote_hash))
        "WrappedLedgerInfo's vote data hash mismatch LedgerInfo"%string;
  Ok tt.

Definition WrappedLedgerInfo_certified_block (self : WrappedLedgerInfo)
    (order_vote_enabled : bool) : result anyhow BlockInfo :=
  _ ← ensure (negb order_vote_enabled)
        "wrapped_ledger_info.certified_block should not be called when order votes are enabled"%string;
  _ ← WrappedLedgerInfo_verify_consensus_data_hash self;
  Ok (vd_proposed (wli_vote_data self)).

Definition WrappedLedgerInfo_verify (self : WrappedLedgerInfo) (validator : ValidatorVerifier) :
    result anyhow unit :=
  if LedgerInfo_round (wli_ledger_info self) =? 0 then
    let commit_info := wli_commit_info self in
    _ ← ensure (bool_decide (LedgerInfo_consensus_data_hash (wli_ledger_info self) =
                  hash {| vd_proposed := commit_info; vd_parent := commit_info |}))
          "Genesis QC has inconsistent commit block"%string;
    _ ← ensure
          (LedgerInfoWithSignatures_get_num_voters (wli_signed_ledger_info self) =? 0)%nat
          "Genesis QC should not carry signatures"%string;
    Ok tt
  else
    _ ← context "Fail to verify WrappedLedgerInfo"
          (LedgerInfoWithSignatures_verify_signatures (wli_signed_ledger_info self) validator);
    Ok tt.

Definition WrappedLedgerInfo_create_merged_with_executed_state (self : WrappedLedgerInfo)
    (executed_ledger_info : LedgerInfoWithSignatures) : result anyhow WrappedLedgerInfo :=
  _ ← ensure
        (BlockInfo_match_ordered_only (wli_commit_info self)
           (LedgerInfo_commit_info (LedgerInfoWithSignatures_ledger_info executed_ledger_info)))
        "Block info from QC and executed LI need to match"%string;
  Ok {| wli_vote_data := wli_vote_data self; wli_signed_ledger_info := executed_ledger_info |}.

Definition WrappedLedgerInfo_into_quorum_cert (self : WrappedLedgerInfo)
    (order_vote_enabled : bool) : result anyhow QuorumCert :=
  _ ← ensure (negb order_vote_enabled)
        "wrapped_ledger_info.into_quorum_cert should not be called when order votes are enabled"%string;
  _ ← WrappedLedgerInfo_verify_consensus_data_hash self;
  Ok {| qc_vote_data := wli_vote_data self;
        qc_signed_ledger_info := wli_signed_ledger_info self |}.

(** ** timeout_2chain.rs *)

Record TwoChainTimeout : Type := {
  timeout_epoch : Z;
  timeout_round : Z;
  timeout_quorum_cert : QuorumCert;
}.
#[global] Instance TwoChainTimeout_eq_dec : EqDecision TwoChainTimeout.
Proof using Type. solve_decision. Defined.

Definition timeout_hqc_round (self : TwoChainTimeout) : Z :=
  BlockInfo_round (qc_certified_block (timeout_quorum_cert self)).

Record TimeoutSigningRepr : Type := {
  tsr_epoch : Z;
  tsr_round : Z;
  tsr_hqc_round : Z;
}.
#[global] Instance TimeoutSigningRepr_eq_dec : EqDecision TimeoutSigningRepr.
Proof using Type. solve_decision. Defined.

Definition TwoChainTimeout_signing_format (self : TwoChainTimeout) : TimeoutSigningRepr :=
  {| tsr_epoch := timeout_epoch self; tsr_round := timeout_round self;
     tsr_hqc_round := timeout_hqc_round self |}.

Definition TwoChainTimeout_verify (self : TwoChainTimeout) (validators : ValidatorVerifier) :
    result anyhow unit :=
  _ ← ensure (timeout_hqc_round self <? timeout_round self)
        "Timeout round should be larger than the QC round"%string;
  _ ← QuorumCert_verify (timeout_quorum_cert self) validators;
  Ok tt.

Record AggregateSignatureWithRounds : Type := {
  asr_sig : AggregateSignature;
  asr_rounds : list Z;
}.
#[global] Instance AggregateSignatureWithRounds_eq_dec : EqDecision AggregateSignatureWithRounds.
Proof using Type. solve_decision. Defined.

Definition AggregateSignatureWithRounds_new {E} (sig : AggregateSignature) (rounds : list Z) :
    result E AggregateSignatureWithRounds :=
  if (AggregateSignature_get_num_voters sig =? length rounds)%nat
  then Ok {| asr_sig := sig; asr_rounds := rounds |}
  else Panic.

Definition AggregateSignatureWithRounds_empty : AggregateSignatureWithRounds :=
  {| asr_sig := AggregateSignature_empty; asr_rounds := [] |}.

Definition get_voters_and_rounds (self : AggregateSignatureWithRounds)
    (ordered_validator_addresses : list AccountAddress) : list (AccountAddress * Z) :=
  zip (AggregateSignature_get_signers_addresses (asr_sig self) ordered_validator_addresses)
      (asr_rounds self).

Record TwoChainTimeoutCertificate : Type := {
  tc_timeout : TwoChainTimeout;
  tc_signatures_with_rounds : AggregateSignatureWithRounds;
}.
#[global] Instance TwoChainTimeoutCertificate_eq_dec : EqDecision TwoChainTimeoutCertificate.
Proof using Type. solve_decision. Defined.

Definition tc_epoch (self : TwoChainTimeoutCertificate) : Z := timeout_epoch (tc_timeout self).
Definition tc_round (self : TwoChainTimeoutCertificate) : Z := timeout_round (tc_timeout self).
Definition tc_highest_hqc_round (self : TwoChainTimeoutCertificate) : Z :=
  timeout_hqc_round (tc_timeout self).

Definition TwoChainTimeoutCertificate_new (timeout : TwoChainTimeout) :
    TwoChainTimeoutCertificate :=
  {| tc_timeout := timeout; tc_signatures_with_rounds := AggregateSignatureWithRounds_empty |}.

(** [iter().max()] *)
Definition rounds_max (rounds : list Z) : option Z :=
  match rounds with
  | [] => None
  | r :: rs => Some (fold_left Z.max rs r)
  end.

Context `{!CryptoHash TimeoutSigningRepr}.

Definition tc_timeout_messages (self : TwoChainTimeoutCertificate)
    (validators : ValidatorVerifier) : list TimeoutSigningRepr :=
  (λ '(_, round),
    {| tsr_epoch := timeout_epoch (tc_timeout self);
       tsr_round := timeout_round (tc_timeout self);
       tsr_hqc_round := round |}) <$>
  get_voters_and_rounds (tc_signatures_with_rounds self)
    (ValidatorVerifier_get_ordered_account_addresses validators).

Definition TwoChainTimeoutCertificate_verify (self : TwoChainTimeoutCertificate)
    (validators : ValidatorVerifier) : result anyhow unit :=
  _ ← TwoChainTimeout_verify (tc_timeout self) validators;
  let hqc_round := timeout_hqc_round (tc_timeout self) in
  _ ← verify_aggregate_signatures validators (tc_timeout_messages self validators)
        (asr_sig (tc_signatures_with_rounds self));
  signed_hqc ← ok_or (rounds_max (asr_rounds (tc_signatures_with_rounds self)))
                 "Empty rounds"%string;
  _ ← ensure (hqc_round =? signed_hqc) "Inconsistent hqc round"%string;
  Ok tt.

(** [PartialSignaturesWithRound] is the map it wraps. *)
Abbreviation PartialSignaturesWithRound := (gmap AccountAddress (Z * Signature)).

(** [entry(validator).or_insert(..)]: the first signature of a validator stays. *)
Definition add_signature (self : PartialSignaturesWithRound) (validator : AccountAddress)
    (round : Z) (signature : Signature) : PartialSignaturesWithRound :=
  match self !! validator with
  | Some _ => self
  | None => <[validator := (round, signature)]> self
  end.

(** The body of the loop of [get_partial_sig_with_rounds]. *)
Definition collect_signature (address_to_validator_index : gmap AccountAddress nat)
    (address : AccountAddress) (entry : Z * Signature)
    (acc : gmap AccountAddress Signature * gmap nat Z) :
    gmap AccountAddress Signature * gmap nat Z :=
  match address_to_validator_index !! address with
  | Some index => (<[address := entry.2]> acc.1, <[index := entry.1]> acc.2)
  | None => acc
  end.

(** The signatures of known validators, and their rounds in validator order. *)
Definition get_partial_sig_with_rounds (self : PartialSignaturesWithRound)
    (address_to_validator_index : gmap AccountAddress nat) :
    gmap AccountAddress Signature * list Z :=
  let '(partial_sig, index_to_rounds) :=
    map_fold (collect_signature address_to_validator_index) (∅, ∅) self in
  (partial_sig, (btree_list le index_to_rounds).*2).

Record TwoChainTimeoutWithPartialSignatures : Type := {
  tps_timeout : TwoChainTimeout;
  tps_signatures : PartialSignaturesWithRound;
}.

Definition TwoChainTimeoutWithPartialSignatures_new (timeout : TwoChainTimeout) :
    TwoChainTimeoutWithPartialSignatures :=
  {| tps_timeout := timeout; tps_signatures := ∅ |}.

(** The debug assertions on the epoch and round are not part of a release
    build. *)
Definition TwoChainTimeoutWithPartialSignatures_add (self : TwoChainTimeoutWithPartialSignatures)
    (author : AccountAddress) (timeout : TwoChainTimeout) (signature : Signature) :
    TwoChainTimeoutWithPartialSignatures :=
  let hqc_round := timeout_hqc_round timeout in
  {| tps_timeout :=
       if hqc_round >? timeout_hqc_round (tps_timeout self) then timeout else tps_timeout self;
     tps_signatures := add_signature (tps_signatures self) author hqc_round signature |}.

Definition TwoChainTimeoutWithPartialSignatures_aggregate_signatures
    (self : TwoChainTimeoutWithPartialSignatures) (verifier : ValidatorVerifier) :
    result VerifyError TwoChainTimeoutCertificate :=
  let '(partial_sig, ordered_rounds) :=
    get_partial_sig_with_rounds (tps_signatures self)
      (ValidatorVerifier_address_to_validator_index verifier) in
  aggregated_sig ← ValidatorVerifier_aggregate_signatures verifier (map_to_list partial_sig);
  signatures_with_rounds ← AggregateSignatureWithRounds_new aggregated_sig ordered_rounds;
  Ok {| tc_timeout := tps_timeout self; tc_signatures_with_rounds := signatures_with_rounds |}.

(** ** Properties of certificates *)

Lemma VoteData_verify_Ok vd u :
  VoteData_verify vd = Ok u →
  BlockInfo_epoch (vd_parent vd) = BlockInfo_epoch (vd_proposed vd) ∧
  BlockInfo_round (vd_parent vd) < BlockInfo_round (vd_proposed vd).
Proof using Type. unfold VoteData_verify. intros. inv_ok. done. Qed.

(** What a verified quorum certificate carries: its ledger info commits to its
    vote data, and unless it is the genesis certificate the ledger info is
    signed and the certified block is above its parent. *)
Lemma QuorumCert_verify_Ok qc v u :
  QuorumCert_verify qc v = Ok u →
  LedgerInfo_consensus_data_hash (qc_ledger_info qc) = hash (qc_vote_data qc) ∧
  (qc_round qc = 0 ∧ qc_parent_block qc = qc_certified_block qc ∧
   qc_certified_block qc = qc_commit_info qc
   ∨ qc_round qc ≠ 0 ∧
     LedgerInfoWithSignatures_verify_signatures (qc_signed_ledger_info qc) v = Ok tt ∧
     BlockInfo_epoch (qc_parent_block qc) = BlockInfo_epoch (qc_certified_block qc) ∧
     BlockInfo_round (qc_parent_block qc) < qc_round qc).
Proof using Type.
  unfold QuorumCert_verify. intros H. apply Ok_bind in H as (? & H0 & H). inv_ok. split; [done|].
  unfold qc_round. destruct (Z.eqb_spec (BlockInfo_round (qc_certified_block qc)) 0); inv_ok.
  - left. done.
  - right. unfold context in *. inv_ok.
    match goal with Hv : VoteData_verify _ = _ |- _ => apply VoteData_verify_Ok in Hv as [??] end.
    done.
Qed.

(** The certificate generated for the genesis block of an epoch verifies
    against every validator set, both as a quorum certificate and as the
    ordered or committed ledger info made from it. *)
Lemma genesis_certificate_verifies `{!LaptosLaws L} (li : LedgerInfo) (id : HashValue)
    (qc : QuorumCert) (v : ValidatorVerifier) :
  QuorumCert_certificate_for_genesis_from_ledger_info li id = Ok qc →
  QuorumCert_verify qc v = Ok tt ∧
  WrappedLedgerInfo_verify (qc_into_wrapped_ledger_info qc) v = Ok tt ∧
  qc_round qc = 0 ∧ BlockInfo_epoch (qc_certified_block qc) = LedgerInfo_epoch li + 1 ∧
  BlockInfo_id (qc_certified_block qc) = id.
Proof using Type.
  unfold QuorumCert_certificate_for_genesis_from_ledger_info.
  destruct (u64_checked_add _ 1) as [e|] eqn:He; [|done].
  destruct (LedgerInfo_next_epoch_state li) as [n|]; [|done]. intros [= <-].
  apply u64_checked_add_Some in He as [-> ?].
  unfold QuorumCert_verify, WrappedLedgerInfo_verify, qc_round, qc_certified_block,
    qc_parent_block, qc_commit_info, wli_commit_info, wli_ledger_info, qc_ledger_info; simpl.
  autorewrite with liquent.
  rewrite !bool_decide_true by done. simpl. autorewrite with liquent. done.
Qed.

(** *** Timeout certificates *)

Lemma fold_left_max_spec rs r :
  let m := fold_left Z.max rs r in (m = r ∨ m ∈ rs) ∧ r ≤ m ∧ ∀ x, x ∈ rs → x ≤ m.
Proof using Type.
  revert r. induction rs as [|x rs IH]; intros r; simpl; [set_solver by lia|].
  destruct (IH (Z.max r x)) as (H1 & H2 & H3). split_and!.
  - destruct H1 as [->|?]; [|set_solver].
    destruct (Z.max_spec r x) as [[? ->]|[? ->]]; set_solver.
  - lia.
  - intros y [->|?]%elem_of_cons; [lia|auto].
Qed.

Lemma rounds_max_spec rs m :
  rounds_max rs = Some m ↔ m ∈ rs ∧ ∀ r, r ∈ rs → r ≤ m.
Proof using Type.
  destruct rs as [|r rs]; simpl; [set_solver|].
  pose proof (fold_left_max_spec rs r) as (H1 & H2 & H3). split.
  - intros [= <-]. split; [set_solver|]. intros x [->|?]%elem_of_cons; auto.
  - intros [Hm Hmax]. f_equal. apply Z.le_antisymm.
    + apply Hmax. set_solver.
    + apply elem_of_cons in Hm as [->|Hm]; auto.
Qed.

(** What a verified timeout certificate carries. *)
Lemma TwoChainTimeoutCertificate_verify_Ok tc v u :
  TwoChainTimeoutCertificate_verify tc v = Ok u →
  tc_highest_hqc_round tc < tc_round tc ∧
  QuorumCert_verify (timeout_quorum_cert (tc_timeout tc)) v = Ok tt ∧
  verify_aggregate_signatures v (tc_timeout_messages tc v)
    (asr_sig (tc_signatures_with_rounds tc)) = Ok tt ∧
  rounds_max (asr_rounds (tc_signatures_with_rounds tc)) = Some (tc_highest_hqc_round tc).
Proof using Type.
  unfold TwoChainTimeoutCertificate_verify, TwoChainTimeout_verify. intros. inv_ok.
  unfold tc_highest_hqc_round, tc_round. subst. done.
Qed.

(** The collected timeout carries the highest QC round among the signed ones. *)
Definition tps_inv (t : TwoChainTimeoutWithPartialSignatures) : Prop :=
  (∀ a r s, tps_signatures t !! a = Some (r, s) → r ≤ timeout_hqc_round (tps_timeout t)) ∧
  (∃ a s, tps_signatures t !! a = Some (timeout_hqc_round (tps_timeout t), s)).

Lemma tps_inv_init a timeout sig :
  tps_inv (TwoChainTimeoutWithPartialSignatures_add
             (TwoChainTimeoutWithPartialSignatures_new timeout) a timeout sig).
Proof using Type.
  unfold TwoChainTimeoutWithPartialSignatures_add, add_signature; simpl.
  rewrite lookup_empty, Z.gtb_ltb, Z.ltb_irrefl. split; simpl.
  - intros a' r s [[_ [= <- _]]|[_ []%lookup_empty_Some]]%lookup_insert_Some. done.
  - exists a, sig. apply lookup_insert_eq.
Qed.

Lemma tps_inv_add t a timeout sig :
  tps_inv t → tps_signatures t !! a = None →
  tps_inv (TwoChainTimeoutWithPartialSignatures_add t a timeout sig).
Proof using Type.
  intros [Hle (b & s & Hb)] Ha.
  unfold TwoChainTimeoutWithPartialSignatures_add, add_signature; rewrite Ha.
  rewrite Z.gtb_ltb. destruct (Z.ltb_spec (timeout_hqc_round (tps_timeout t))
                (timeout_hqc_round timeout)) as [Hlt|Hge]; split; simpl.
  - intros a' r s' [[_ [= <- _]]|[_ Hl]]%lookup_insert_Some; [done|]. apply Hle in Hl. lia.
  - exists a, sig. apply lookup_insert_eq.
  - intros a' r s' [[_ [= <- _]]|[_ Hl]]%lookup_insert_Some; [done|]. by eapply Hle.
  - exists b, s. rewrite lookup_insert_ne; [done|]. congruence.
Qed.

(** What the loop of [get_partial_sig_with_rounds] collects. *)
Lemma collect_signature_spec (sigs : PartialSignaturesWithRound)
    (index : gmap AccountAddress nat) ps ir :
  (∀ a b i, index !! a = Some i → index !! b = Some i → a = b) →
  map_fold (collect_signature index) (∅, ∅) sigs = (ps, ir) →
  (∀ a s, ps !! a = Some s ↔ ∃ r, sigs !! a = Some (r, s) ∧ is_Some (index !! a)) ∧
  (∀ i r, ir !! i = Some r ↔ ∃ a s, sigs !! a = Some (r, s) ∧ index !! a = Some i).
Proof using Type.
  intros Hinj. revert ps ir.
  induction sigs as [|a [ra sa] sigs Ha Hff IH] using map_first_key_ind; intros ps ir Hf.
  { rewrite map_fold_empty in Hf. simplify_eq. setoid_rewrite lookup_empty. naive_solver. }
  rewrite map_fold_insert_first_key in Hf by done.
  destruct (map_fold _ _ sigs) as [ps' ir'] eqn:Hf'.
  destruct (IH _ _ eq_refl) as [IHp IHr]. unfold collect_signature in Hf; simpl in Hf.
  setoid_rewrite lookup_insert_Some.
  destruct (index !! a) as [ia|] eqn:Hia; simplify_eq; split.
  - intros b s. rewrite lookup_insert_Some, IHp. naive_solver.
  - intros i r. rewrite lookup_insert_Some, IHr. split.
    + intros [[<- <-]|[Hne (b & s & Hb & Hib)]]; [naive_solver|].
      exists b, s. split; [|done]. right. split; congruence.
    + intros (b & s & [[<- [= <- <-]]|[Hne Hb]] & Hib); [naive_solver|].
      right. split; [|naive_solver]. intros ->. by eapply Hne, Hinj.
  - intros b s. rewrite IHp. split.
    + intros (r & Hb & Hib). exists r. split; [|done]. right. split; congruence.
    + intros (r & [[<- _]|[Hne Hb]] & Hib); [by rewrite Hia in Hib; destruct Hib|naive_solver].
  - intros i r. rewrite IHr. split.
    + intros (b & s & Hb & Hib). exists b, s. split; [|done]. right. split; congruence.
    + intros (b & s & [[<- _]|[Hne Hb]] & Hib); [congruence|naive_solver].
Qed.

End certificates.
