(* ===== verification/Block.v ===== *)
(** Blocks: consensus-types/src/{proposal_ext, block_data, block,
    block_retrieval}.rs.

    The block types, the checks a proposal passes before it is voted on, and
    the verification of retrieved chains of blocks. *)
From S2P Require Import Prelude Laptos Payload Certificates.

Section block.
Context `{L : Laptos} `{!CryptoHash VoteData}.

(** ** proposal_ext.rs and block_data.rs *)

Inductive ProposalExt : Type :=
| V0 (validator_txns : list ValidatorTransaction) (payload : Payload)
    (author : AccountAddress) (failed_authors : list (Z * AccountAddress)).

Inductive BlockType : Type :=
| Proposal (payload : Payload) (author : AccountAddress)
    (failed_authors : list (Z * AccountAddress))
| NilBlock (failed_authors : list (Z * AccountAddress))
| Genesis
| ProposalExt_ (p : ProposalExt)
| DAGBlock (author : AccountAddress) (failed_authors : list (Z * AccountAddress))
    (validator_txns : list ValidatorTransaction) (payload : Payload)
    (node_digests : list HashValue) (parent_block_id : HashValue) (parents_bitvec : BitVec).

Record BlockData : Type := {
  bd_epoch : Z;
  bd_round : Z;
  bd_timestamp_usecs : Z;
  bd_quorum_cert : QuorumCert;
  bd_block_type : BlockType;
}.

Definition BlockData_author (self : BlockData) : option AccountAddress :=
  match bd_block_type self with
  | Proposal _ author _ | DAGBlock author _ _ _ _ _ _ => Some author
  | ProposalExt_ (V0 _ _ author _) => Some author
  | _ => None
  end.

Definition BlockData_parent_id (self : BlockData) : HashValue :=
  match bd_block_type self with
  | DAGBlock _ _ _ _ _ parent_block_id _ => parent_block_id
  | _ => BlockInfo_id (qc_certified_block (bd_quorum_cert self))
  end.

Definition BlockData_payload (self : BlockData) : option Payload :=
  match bd_block_type self with
  | Proposal payload _ _ | DAGBlock _ _ _ payload _ _ _ => Some payload
  | ProposalExt_ (V0 _ payload _ _) => Some payload
  | _ => None
  end.

Definition BlockData_validator_txns (self : BlockData) : option (list ValidatorTransaction) :=
  match bd_block_type self with
  | ProposalExt_ (V0 txns _ _ _) => Some txns
  | Proposal _ _ _ | NilBlock _ | Genesis => None
  | DAGBlock _ _ txns _ _ _ _ => Some txns
  end.

Definition BlockData_is_genesis_block (self : BlockData) : bool :=
  match bd_block_type self with Genesis => true | _ => false end.

Definition BlockData_is_nil_block (self : BlockData) : bool :=
  match bd_block_type self with NilBlock _ => true | _ => false end.

Definition BlockData_failed_authors (self : BlockData) : option (list (Z * AccountAddress)) :=
  match bd_block_type self with
  | Proposal _ _ failed_authors | NilBlock failed_authors
  | DAGBlock _ failed_authors _ _ _ _ _ => Some failed_authors
  | ProposalExt_ (V0 _ _ _ failed_authors) => Some failed_authors
  | Genesis => None
  end.

Definition BlockData_is_reconfiguration_suffix (self : BlockData) : bool :=
  BlockInfo_has_reconfiguration (qc_certified_block (bd_quorum_cert self)).

Definition BlockData_new_genesis (timestamp_usecs : Z) (quorum_cert : QuorumCert) :
    result anyhow BlockData :=
  epoch ← u64_add (BlockInfo_epoch (qc_certified_block quorum_cert)) 1;
  Ok {| bd_epoch := epoch; bd_round := 0; bd_timestamp_usecs := timestamp_usecs;
        bd_quorum_cert := quorum_cert; bd_block_type := Genesis |}.

Definition BlockData_new_nil (round : Z) (quorum_cert : QuorumCert)
    (failed_authors : list (Z * AccountAddress)) : BlockData :=
  {| bd_epoch := BlockInfo_epoch (qc_certified_block quorum_cert);
     bd_round := round;
     bd_timestamp_usecs := BlockInfo_timestamp_usecs (qc_certified_block quorum_cert);
     bd_quorum_cert := quorum_cert;
     bd_block_type := NilBlock failed_authors |}.

Definition BlockData_new_proposal (payload : Payload) (author : AccountAddress)
    (failed_authors : list (Z * AccountAddress)) (round timestamp_usecs : Z)
    (quorum_cert : QuorumCert) : BlockData :=
  {| bd_epoch := BlockInfo_epoch (qc_certified_block quorum_cert);
     bd_round := round;
     bd_timestamp_usecs := timestamp_usecs;
     bd_quorum_cert := quorum_cert;
     bd_block_type := Proposal payload author failed_authors |}.

Definition BlockData_new_proposal_ext (validator_txns : list ValidatorTransaction)
    (payload : Payload) (author : AccountAddress)
    (failed_authors : list (Z * AccountAddress)) (round timestamp_usecs : Z)
    (quorum_cert : QuorumCert) : BlockData :=
  {| bd_epoch := BlockInfo_epoch (qc_certified_block quorum_cert);
     bd_round := round;
     bd_timestamp_usecs := timestamp_usecs;
     bd_quorum_cert := quorum_cert;
     bd_block_type := ProposalExt_ (V0 validator_txns payload author failed_authors) |}.

Definition BlockData_new_genesis_from_ledger_info (ledger_info : LedgerInfo) :
    result anyhow BlockData :=
  if negb (LedgerInfo_ends_epoch ledger_info) then Panic else
  let '(version, timestamp) :=
    match BlockInfo_epoch_block_info (LedgerInfo_commit_info ledger_info) with
    | Some info => (ebi_block_number info, ebi_epoch_start_timestamp_usecs info)
    | None => (LedgerInfo_version ledger_info, LedgerInfo_timestamp_usecs ledger_info)
    end in
  let ancestor :=
    BlockInfo_new (LedgerInfo_epoch ledger_info) 0 HashValue_zero
      (LedgerInfo_block_hash ledger_info) version timestamp None in
  let genesis_quorum_cert :=
    {| qc_vote_data := {| vd_proposed := ancestor; vd_parent := ancestor |};
       qc_signed_ledger_info :=
         LedgerInfoWithSignatures_new (LedgerInfo_new ancestor HashValue_zero)
           AggregateSignature_empty |} in
  BlockData_new_genesis timestamp genesis_quorum_cert.

(** ** block.rs *)

Record Block : Type := {
  block_id : HashValue;
  block_block_data : BlockData;
  block_signature : option Signature;
  block_block_number : option Z;
}.

Definition block_epoch (b : Block) : Z := bd_epoch (block_block_data b).
Definition block_round (b : Block) : Z := bd_round (block_block_data b).
Definition block_timestamp_usecs (b : Block) : Z := bd_timestamp_usecs (block_block_data b).
Definition block_quorum_cert (b : Block) : QuorumCert := bd_quorum_cert (block_block_data b).
Definition block_parent_id (b : Block) : HashValue := BlockData_parent_id (block_block_data b).
Definition block_author (b : Block) : option AccountAddress := BlockData_author (block_block_data b).
Definition block_payload (b : Block) : option Payload := BlockData_payload (block_block_data b).
Definition block_is_genesis_block (b : Block) : bool :=
  BlockData_is_genesis_block (block_block_data b).
Definition block_is_nil_block (b : Block) : bool := BlockData_is_nil_block (block_block_data b).

Definition Block_gen_block_info (self : Block) (executed_state_id : HashValue) (version : Z)
    (next_epoch_state : option EpochState) : BlockInfo :=
  BlockInfo_new (block_epoch self) (block_round self) (block_id self) executed_state_id version
    (block_timestamp_usecs self) next_epoch_state.

Context `{!CryptoHash BlockData}.

Definition Block_make_genesis_block_from_ledger_info (ledger_info : LedgerInfo) :
    result anyhow Block :=
  block_data ← BlockData_new_genesis_from_ledger_info ledger_info;
  let block_number :=
    match BlockInfo_epoch_block_info (LedgerInfo_commit_info ledger_info) with
    | Some info => ebi_block_number info
    | None => LedgerInfo_block_number ledger_info
    end in
  Ok {| block_id := hash block_data; block_block_data := block_data;
        block_signature := None; block_block_number := Some block_number |}.

Definition Block_new_nil (round : Z) (quorum_cert : QuorumCert)
    (failed_authors : list (Z * AccountAddress)) : Block :=
  let block_data := BlockData_new_nil round quorum_cert failed_authors in
  {| block_id := hash block_data; block_block_data := block_data;
     block_signature := None; block_block_number := None |}.

Definition Block_new_proposal_from_block_data_and_signature (block_data : BlockData)
    (signature : Signature) : Block :=
  {| block_id := hash block_data; block_block_data := block_data;
     block_signature := Some signature; block_block_number := None |}.

Definition Block_new_proposal_from_block_data (block_data : BlockData)
    (validator_signer : ValidatorSigner) : result anyhow Block :=
  signature ← signer_sign validator_signer block_data;
  Ok (Block_new_proposal_from_block_data_and_signature block_data signature).

Definition Block_new_proposal (payload : Payload) (round timestamp_usecs : Z)
    (quorum_cert : QuorumCert) (validator_signer : ValidatorSigner)
    (failed_authors : list (Z * AccountAddress)) : result anyhow Block :=
  let block_data :=
    BlockData_new_proposal payload (ValidatorSigner_author validator_signer) failed_authors
      round timestamp_usecs quorum_cert in
  Block_new_proposal_from_block_data block_data validator_signer.

(** What [Serialize] keeps of a block, and what [Deserialize] makes of it. *)
Definition Block_serialize (self : Block) : BlockData * option Signature * option Z :=
  (block_block_data self, block_signature self, block_block_number self).
Definition Block_deserialize (s : BlockData * option Signature * option Z) : Block :=
  let '(block_data, signature, _) := s in
  {| block_id := hash block_data; block_block_data := block_data;
     block_signature := signature; block_block_number := None |}.

(** [OnceCell::set]: the first number stays. *)
Definition Block_set_block_number (self : Block) (block_number : Z) : Block :=
  match block_block_number self with
  | Some _ => self
  | None =>
      {| block_id := block_id self; block_block_data := block_block_data self;
         block_signature := block_signature self; block_block_number := Some block_number |}
  end.

Definition Block_validate_signature (self : Block) (validator : ValidatorVerifier) :
    result anyhow unit :=
  let check_author (author : AccountAddress) :=
    signature ← ok_or (block_signature self) "Missing signature in Proposal"%string;
    _ ← verifier_verify validator author (block_block_data self) signature;
    QuorumCert_verify (block_quorum_cert self) validator in
  match bd_block_type (block_block_data self) with
  | Genesis => Err "We should not accept genesis from others"%string
  | NilBlock _ => QuorumCert_verify (block_quorum_cert self) validator
  | Proposal _ author _ => check_author author
  | ProposalExt_ (V0 _ _ author _) => check_author author
  | DAGBlock _ _ _ _ _ _ _ => Err "We should not accept DAG block from others"%string
  end.

(** The loop over [failed_authors]: rounds rise strictly between the bounds. *)
Fixpoint check_failed_authors (bound succ_round : Z) (failed : list (Z * AccountAddress)) :
    result anyhow unit :=
  match failed with
  | [] => Ok tt
  | (round, _) :: failed =>
      _ ← ensure ((bound <? round) && (round <? succ_round))
            "Incorrect round in failed authors"%string;
      check_failed_authors round succ_round failed
  end.

Definition TIMEBOUND : Z := 300000000.

(** [now] is the wall clock in microseconds, [duration_since_epoch()]. *)
Definition Block_verify_well_formed (now : Z) (self : Block) : result anyhow unit :=
  _ ← ensure (negb (block_is_genesis_block self)) "We must not accept genesis from others"%string;
  let parent := qc_certified_block (block_quorum_cert self) in
  _ ← ensure (BlockInfo_round parent <? block_round self)
        "Block must have a greater round than parent's block"%string;
  _ ← ensure (BlockInfo_epoch parent =? block_epoch self)
        "block's parent should be in the same epoch"%string;
  _ ← (if BlockInfo_has_reconfiguration parent
       then ensure (from_option Payload_is_empty true (block_payload self))
              "Reconfiguration suffix should not carry payload"%string
       else Ok tt);
  _ ← match BlockData_failed_authors (block_block_data self) with
      | None => Ok tt
      | Some failed_authors =>
          succ_round ← ok_or
            (u64_checked_add (block_round self) (if block_is_nil_block self then 1 else 0))
            "Block round overflow"%string;
          parent_succ ← u64_add (BlockInfo_round parent) 1;
          skipped_rounds ← ok_or (u64_checked_sub succ_round parent_succ)
            "Block round is smaller than block's parent round"%string;
          _ ← ensure (Z.of_nat (length failed_authors) <=? skipped_rounds)
                "Block has more failed authors than missed rounds"%string;
          check_failed_authors (BlockInfo_round parent) succ_round failed_authors
      end;
  _ ← (if block_is_nil_block self || BlockInfo_has_reconfiguration parent
       then ensure (block_timestamp_usecs self =? BlockInfo_timestamp_usecs parent)
              "Nil/reconfig suffix block must have same timestamp as parent"%string
       else
         _ ← ensure (block_timestamp_usecs self >? BlockInfo_timestamp_usecs parent)
               "Blocks must have strictly increasing timestamps"%string;
         ensure (block_timestamp_usecs self <=? u64_saturating_add now TIMEBOUND)
           "Blocks must not be too far in the future"%string);
  _ ← ensure (negb (qc_ends_epoch (block_quorum_cert self)))
        "Block cannot be proposed in an epoch that has ended"%string;
  Ok tt.

(** [failed_authors_to_indices]: the positions of the failed authors. *)
Fixpoint failed_authors_to_indices (validators : list AccountAddress)
    (failed_authors : list (Z * AccountAddress)) : result anyhow (list nat) :=
  match failed_authors with
  | [] => Ok []
  | (_, failed_author) :: failed_authors =>
      match list_find (λ v, v = failed_author) validators with
      | Some (index, _) =>
          if Z.of_nat index <=? 4294967295 then
            indices ← failed_authors_to_indices validators failed_authors;
            Ok (index :: indices)
          else Panic
      | None => Panic
      end
  end.

(** ** block_retrieval.rs *)

Record BlockRetrievalRequest : Type := {
  brr_block_id : HashValue;
  brr_num_blocks : Z;
  brr_target_block_id : option HashValue;
  brr_epoch : option Z;
}.

Definition match_target_id (self : BlockRetrievalRequest) (hash_value : HashValue) : bool :=
  from_option (λ id, bool_decide (id = hash_value)) false (brr_target_block_id self).

Inductive BlockRetrievalStatus : Type :=
| Succeeded
| IdNotFound
| NotEnoughBlocks
| SucceededWithTarget
| QuorumCertNotFound.
#[global] Instance BlockRetrievalStatus_eq_dec : EqDecision BlockRetrievalStatus.
Proof using Type. solve_decision. Defined.

(** A returned block with its block number and its randomness. *)
Record BlockRetrievalResponse : Type := {
  brs_status : BlockRetrievalStatus;
  brs_blocks : list (Block * option Z * option (list Z));
  brs_ledger_infos : list LedgerInfoWithSignatures;
  brs_quorum_certs : list QuorumCert;
}.

(** [collect] into a [HashMap]: a later entry replaces an earlier one. *)
Definition block_numbers_by_id (blocks : list (Block * option Z * option (list Z))) :
    gmap HashValue Z :=
  fold_left (λ m '(block, block_number, _),
    match block_number with
    | Some num => <[block_id block := num]> m
    | None => m
    end) blocks ∅.

Definition BlockRetrievalResponse_verify_ledger_infos (self : BlockRetrievalResponse)
    (retrieval_request : BlockRetrievalRequest) (sig_verifier : ValidatorVerifier) :
    result anyhow unit :=
  let numbers := block_numbers_by_id (brs_blocks self) in
  verify_all (λ ledger_info_with_sigs,
    _ ← LedgerInfoWithSignatures_verify_signatures ledger_info_with_sigs sig_verifier;
    let ledger_info := LedgerInfoWithSignatures_ledger_info ledger_info_with_sigs in
    _ ← match brr_epoch retrieval_request with
        | Some expected_epoch =>
            ensure (LedgerInfo_epoch ledger_info =? expected_epoch)
              "ledger info epoch mismatch"%string
        | None => Ok tt
        end;
    let commit_block_id := LedgerInfo_consensus_block_id ledger_info in
    block_number ← ok_or (numbers !! commit_block_id)
      "ledger info commits block that is missing from retrieval response"%string;
    _ ← ensure (block_number =? LedgerInfo_block_number ledger_info)
          "ledger info block number mismatch"%string;
    Ok tt) (brs_ledger_infos self).

(** The [try_fold] of [verify]: each block is the one expected, and its parent
    is expected next. *)
Fixpoint verify_chain (now : Z) (sig_verifier : ValidatorVerifier) (expected_id : HashValue)
    (blocks : list (Block * option Z * option (list Z))) : result anyhow HashValue :=
  match blocks with
  | [] => Ok expected_id
  | (block, _, _) :: blocks =>
      _ ← ensure (bool_decide (block_id block = expected_id)) "blocks doesn't form a chain"%string;
      _ ← Block_validate_signature block sig_verifier;
      _ ← Block_verify_well_formed now block;
      verify_chain now sig_verifier (block_parent_id block) blocks
  end.

Definition BlockRetrievalResponse_verify (now : Z) (self : BlockRetrievalResponse)
    (retrieval_request : BlockRetrievalRequest) (sig_verifier : ValidatorVerifier) :
    result anyhow unit :=
  _ ← ensure (negb (bool_decide (brs_status self = Succeeded)) ||
              (Z.of_nat (length (brs_blocks self)) =? brr_num_blocks retrieval_request))
        "not enough blocks returned"%string;
  _ ← verify_chain now sig_verifier (brr_block_id retrieval_request) (brs_blocks self);
  Ok tt.

(** ** Properties of blocks *)

Lemma check_failed_authors_Ok bound succ l u :
  check_failed_authors bound succ l = Ok u →
  StronglySorted Z.lt (bound :: l.*1) ∧ Forall (λ r, r < succ) l.*1.
Proof using Type.
  revert bound. induction l as [|[r a] l IH]; intros bound H; simpl in *.
  - split; repeat constructor.
  - inv_ok. destruct (IH _ H) as [Hs Hb]. split.
    + constructor; [done|]. constructor; [done|].
      apply StronglySorted_inv in Hs as [_ Hs]. eapply Forall_impl; [exact Hs|]. simpl. lia.
    + by constructor.
Qed.

(** What the well-formedness check guarantees. *)
Lemma Block_verify_well_formed_Ok now b u :
  Block_verify_well_formed now b = Ok u →
  let parent := qc_certified_block (block_quorum_cert b) in
  block_is_genesis_block b = false ∧
  BlockInfo_round parent < block_round b ∧
  BlockInfo_epoch parent = block_epoch b ∧
  BlockInfo_timestamp_usecs parent ≤ block_timestamp_usecs b ∧
  qc_ends_epoch (block_quorum_cert b) = false.
Proof using Type.
  unfold Block_verify_well_formed. intros H. inv_ok. split_and!; try done.
  destruct (block_is_nil_block b || BlockInfo_has_reconfiguration _); inv_ok; lia.
Qed.

Lemma check_failed_authors_no_panic bound succ l : check_failed_authors bound succ l ≠ Panic.
Proof using Type.
  revert bound. induction l as [|[r a] l IH]; intros bound; simpl; [done|]. no_panic.
Qed.

(** Checking a block for well-formedness never panics, whatever block a
    peer sends: the round arithmetic stays within [u64]. *)
Theorem Block_verify_well_formed_no_panic (now : Z) (b : Block) :
  is_u64 (block_round b) → Block_verify_well_formed now b ≠ Panic.
Proof using Type.
  unfold Block_verify_well_formed, is_u64. intros Hr. no_panic; inv_ok;
    first [apply u64_add_no_panic; lia | apply check_failed_authors_no_panic].
Qed.

Lemma check_failed_authors_complete bound succ l :
  StronglySorted Z.lt l.*1 → Forall (λ r, bound < r < succ) l.*1 →
  check_failed_authors bound succ l = Ok tt.
Proof using Type.
  revert bound. induction l as [|[r a] l IH]; intros bound Hs Hb; simpl; [done|].
  apply StronglySorted_inv in Hs as [Hs Hlt]. apply Forall_cons in Hb as [[Hr1 Hr2] Hb]. simpl in *.
  rewrite (proj2 (Z.ltb_lt _ _) Hr1), (proj2 (Z.ltb_lt _ _) Hr2). simpl.
  apply IH; [done|]. rewrite Forall_forall in Hlt, Hb |- *. intros x Hx.
  specialize (Hlt x Hx). specialize (Hb x Hx). simpl in *. lia.
Qed.

Lemma strictly_sorted_length (l : list Z) lo hi :
  lo ≤ hi → StronglySorted Z.lt l → Forall (λ r, lo < r ≤ hi) l → Z.of_nat (length l) ≤ hi - lo.
Proof using Type.
  revert lo. induction l as [|r l IH]; intros lo Hle Hs Hb; simpl; [lia|].
  apply StronglySorted_inv in Hs as [Hs Hlt]. apply Forall_cons in Hb as [Hr Hb].
  specialize (IH r). rewrite Forall_forall in Hlt, Hb, IH.
  assert (Z.of_nat (length l) ≤ hi - r); [|lia].
  apply IH; [lia|done|]. intros x Hx. specialize (Hlt x Hx). specialize (Hb x Hx). simpl in *. lia.
Qed.

(** NIL blocks agree across validators: the block a validator makes up for
    a timed-out round on top of a verified certificate passes both checks of
    every other validator, whatever the clocks say. *)
Theorem Block_new_nil_accepted (now round : Z) (qc : QuorumCert) (v : ValidatorVerifier)
    (failed : list (Z * AccountAddress)) :
  QuorumCert_verify qc v = Ok tt →
  qc_ends_epoch qc = false →
  0 ≤ qc_round qc < round → round < u64_MAX →
  StronglySorted Z.lt failed.*1 → Forall (λ r, qc_round qc < r ≤ round) failed.*1 →
  Block_validate_signature (Block_new_nil round qc failed) v = Ok tt ∧
  Block_verify_well_formed now (Block_new_nil round qc failed) = Ok tt.
Proof using Type.
  intros Hqc Hend Hround Hmax Hs Hb. split; [exact Hqc|].
  pose proof (strictly_sorted_length failed.*1 (qc_round qc) round) as Hlen.
  rewrite length_fmap in Hlen. specialize (Hlen ltac:(lia) Hs Hb).
  unfold Block_verify_well_formed, block_quorum_cert, block_round, block_epoch,
    block_timestamp_usecs; simpl. unfold qc_round in *. rewrite Hend.
  rewrite (proj2 (Z.ltb_lt _ _)), !Z.eqb_refl by lia. simpl.
  destruct (BlockInfo_has_reconfiguration _); simpl;
    rewrite (proj2 (u64_checked_add_Some _ _ (round + 1))) by lia; simpl;
    unfold u64_add; rewrite (proj2 (Z.leb_le _ u64_MAX)) by lia; simpl;
    rewrite (proj2 (u64_checked_sub_Some _ _ (round - BlockInfo_round (qc_certified_block qc))))
      by lia; simpl;
    rewrite (proj2 (Z.leb_le _ _)) by lia; simpl;
    rewrite check_failed_authors_complete; try done;
    (eapply Forall_impl; [exact Hb|]; simpl; lia).
Qed.

(** Whatever identifier a block travels with, a deserialized block carries
    the hash of its own data; a block that did is restored exactly, except for
    its block number, which is left to be assigned locally once. *)
Theorem Block_deserialize_serialize (b : Block) :
  let b' := Block_deserialize (Block_serialize b) in
  block_id b' = hash (block_block_data b) ∧
  (block_id b = hash (block_block_data b) → block_block_number b = None → b' = b) ∧
  (∀ n m, Block_set_block_number (Block_set_block_number b' n) m = Block_set_block_number b' n).
Proof using Type.
  split_and!; [done| |done]. destruct b; simpl. intros -> ->. done.
Qed.

(** The genesis block of an epoch and the certificate made for it agree:
    from one epoch-ending ledger info, the block gets the next epoch and round
    zero, and the certificate for its identifier certifies a block of that
    epoch, round and identifier and verifies against every validator set. *)
Theorem genesis_block_certified `{!LaptosLaws L} (li : LedgerInfo) (b : Block) (qc : QuorumCert)
    (v : ValidatorVerifier) :
  Block_make_genesis_block_from_ledger_info li = Ok b →
  QuorumCert_certificate_for_genesis_from_ledger_info li (block_id b) = Ok qc →
  block_is_genesis_block b = true ∧ block_round b = 0 ∧ block_epoch b = LedgerInfo_epoch li + 1 ∧
  block_id b = hash (block_block_data b) ∧
  BlockInfo_id (qc_certified_block qc) = block_id b ∧
  BlockInfo_epoch (qc_certified_block qc) = block_epoch b ∧
  qc_round qc = block_round b ∧ QuorumCert_verify qc v = Ok tt.
Proof using Type.
  intros Hb Hqc. destruct (genesis_certificate_verifies li _ qc v Hqc) as (? & _ & Hr & He & Hid).
  unfold Block_make_genesis_block_from_ledger_info in Hb. apply Ok_bind in Hb as (bd & Hbd & [= <-]).
  unfold BlockData_new_genesis_from_ledger_info in Hbd.
  destruct (LedgerInfo_ends_epoch li); [|done]. simpl in Hbd.
  destruct (match BlockInfo_epoch_block_info _ with Some _ => _ | None => _ end) as [ver t].
  unfold BlockData_new_genesis in Hbd. apply Ok_bind in Hbd as (e & Hep & [= <-]).
  apply u64_add_Ok in Hep as [-> _]. unfold block_round, block_epoch, qc_certified_block in *.
  simpl in *. rewrite BlockInfo_epoch_new in *. done.
Qed.

(** A list of blocks in which each is the parent of the one before. *)
Fixpoint parent_chain (expected_id : HashValue) (blocks : list Block) : Prop :=
  match blocks with
  | [] => True
  | b :: blocks => block_id b = expected_id ∧ parent_chain (block_parent_id b) blocks
  end.

Lemma verify_chain_Ok now v expected_id blocks last :
  verify_chain now v expected_id blocks = Ok last →
  parent_chain expected_id (fst <$> (fst <$> blocks)) ∧
  Forall (λ b, Block_validate_signature b v = Ok tt ∧ Block_verify_well_formed now b = Ok tt)
    (fst <$> (fst <$> blocks)).
Proof using Type.
  revert expected_id. induction blocks as [|[[b n] r] blocks IH]; intros expected_id H; simpl in *.
  - done.
  - inv_ok. destruct (IH _ H) as [Hc Hf]. split; [done|]. by constructor.
Qed.

(** A retrieval response that verifies answers the request: its blocks form
    a parent chain that starts at the requested block, each is signed by its
    author over a verified quorum certificate and well formed, and a response
    that claims success has the number of blocks asked for. *)
Theorem BlockRetrievalResponse_verify_sound (now : Z) (r : BlockRetrievalResponse)
    (q : BlockRetrievalRequest) (v : ValidatorVerifier) :
  BlockRetrievalResponse_verify now r q v = Ok tt →
  let blocks := fst <$> (fst <$> brs_blocks r) in
  parent_chain (brr_block_id q) blocks ∧
  Forall (λ b, Block_validate_signature b v = Ok tt ∧ Block_verify_well_formed now b = Ok tt)
    blocks ∧
  (brs_status r = Succeeded → Z.of_nat (length blocks) = brr_num_blocks q).
Proof using Type.
  unfold BlockRetrievalResponse_verify. intros H. inv_ok.
  apply verify_chain_Ok in Hm0 as [Hc Hf]. split_and!; [done|done|]. intros Hs.
  rewrite !length_fmap. rewrite Hs in Hm. simpl in Hm. bool_to_prop.
  destruct Hm as [Hm|Hm]; bool_to_prop; done.
Qed.

(** Validated blocks carry a verified certificate of their parent. *)
Lemma Block_validate_signature_qc b v u :
  Block_validate_signature b v = Ok u → QuorumCert_verify (block_quorum_cert b) v = Ok u.
Proof using Type.
  unfold Block_validate_signature. intros H.
  destruct (bd_block_type _) as [| | |[]|]; inv_ok; done.
Qed.
End block.
