(* ===== verification/Votes.v ===== *)
(** Votes and consensus messages: consensus-types/src/{vote, order_vote,
    vote_proposal, order_vote_proposal, sync_info, vote_msg, order_vote_msg,
    proposal_msg, safety_data}.rs and pipeline/{commit_vote, commit_decision}.rs. *)
From S2P Require Import Prelude Laptos Payload Certificates Block.

Section votes.
Context `{L : Laptos} `{!CryptoHash VoteData, !CryptoHash TimeoutSigningRepr}.
Context `{!CryptoHash LedgerInfo, !CryptoHash BlockData, !CryptoHash BatchInfo}.

(** ** vote.rs *)

Record Vote : Type := {
  vote_vote_data : VoteData;
  vote_author : AccountAddress;
  vote_ledger_info : LedgerInfo;
  vote_signature : Signature;
  vote_two_chain_timeout : option (TwoChainTimeout * Signature);
}.
#[global] Instance Vote_eq_dec : EqDecision Vote.
Proof using Type. solve_decision. Defined.

Definition vote_epoch (v : Vote) : Z := BlockInfo_epoch (vd_proposed (vote_vote_data v)).
Definition vote_round (v : Vote) : Z := BlockInfo_round (vd_proposed (vote_vote_data v)).
Definition vote_is_timeout (v : Vote) : bool :=
  match vote_two_chain_timeout v with Some _ => true | None => false end.

Definition Vote_new_with_signature (vote_data : VoteData) (author : AccountAddress)
    (ledger_info : LedgerInfo) (signature : Signature) : Vote :=
  {| vote_vote_data := vote_data; vote_author := author; vote_ledger_info := ledger_info;
     vote_signature := signature; vote_two_chain_timeout := None |}.

Definition Vote_new (vote_data : VoteData) (author : AccountAddress)
    (ledger_info_placeholder : LedgerInfo) (validator_signer : ValidatorSigner) :
    result anyhow Vote :=
  let ledger_info :=
    LedgerInfo_set_consensus_data_hash (hash vote_data) ledger_info_placeholder in
  signature ← signer_sign validator_signer ledger_info;
  Ok (Vote_new_with_signature vote_data author ledger_info signature).

Definition Vote_add_2chain_timeout (self : Vote) (timeout : TwoChainTimeout)
    (signature : Signature) : Vote :=
  {| vote_vote_data := vote_vote_data self; vote_author := vote_author self;
     vote_ledger_info := vote_ledger_info self; vote_signature := vote_signature self;
     vote_two_chain_timeout := Some (timeout, signature) |}.

Definition Vote_generate_2chain_timeout (self : Vote) (qc : QuorumCert) : TwoChainTimeout :=
  {| timeout_epoch := vote_epoch self; timeout_round := vote_round self;
     timeout_quorum_cert := qc |}.

Definition Vote_verify (self : Vote) (validator : ValidatorVerifier) : result anyhow unit :=
  _ ← ensure (bool_decide (LedgerInfo_consensus_data_hash (vote_ledger_info self) =
                hash (vote_vote_data self))) "Vote's hash mismatch with LedgerInfo"%string;
  _ ← context "Failed to verify Vote"
        (verifier_verify validator (vote_author self) (vote_ledger_info self)
           (vote_signature self));
  _ ← match vote_two_chain_timeout self with
      | Some (timeout, signature) =>
          _ ← ensure ((timeout_epoch timeout =? vote_epoch self) &&
                      (timeout_round timeout =? vote_round self))
                "2-chain timeout has different (epoch, round) than Vote"%string;
          _ ← TwoChainTimeout_verify timeout validator;
          context "Failed to verify 2-chain timeout signature"
            (verifier_verify validator (vote_author self)
               (TwoChainTimeout_signing_format timeout) signature)
      | None => Ok tt
      end;
  _ ← VoteData_verify (vote_vote_data self);
  Ok tt.

(** ** order_vote.rs *)

Record OrderVote : Type := {
  ov_author : AccountAddress;
  ov_ledger_info : LedgerInfo;
  ov_signature : Signature;
}.

Definition ov_epoch (o : OrderVote) : Z := LedgerInfo_epoch (ov_ledger_info o).

Definition OrderVote_verify (self : OrderVote) (validator : ValidatorVerifier) :
    result anyhow unit :=
  _ ← ensure (bool_decide (LedgerInfo_consensus_data_hash (ov_ledger_info self) = HashValue_zero))
        "Failed to verify OrderVote. Consensus data hash is not Zero"%string;
  _ ← context "Failed to verify OrderVote"
        (verifier_verify validator (ov_author self) (ov_ledger_info self) (ov_signature self));
  Ok tt.

(** ** pipeline/commit_vote.rs and pipeline/commit_decision.rs *)

Record CommitVote : Type := {
  cv_author : AccountAddress;
  cv_ledger_info : LedgerInfo;
  cv_signature : Signature;
}.

Definition CommitVote_new (author : AccountAddress) (ledger_info_placeholder : LedgerInfo)
    (validator_signer : ValidatorSigner) : result anyhow CommitVote :=
  signature ← signer_sign validator_signer ledger_info_placeholder;
  Ok {| cv_author := author; cv_ledger_info := ledger_info_placeholder;
        cv_signature := signature |}.

Definition CommitVote_verify (self : CommitVote) (validator : ValidatorVerifier) :
    result anyhow unit :=
  context "Failed to verify Commit Vote"
    (verifier_verify validator (cv_author self) (cv_ledger_info self) (cv_signature self)).

Definition CommitDecision_verify (ledger_info : LedgerInfoWithSignatures)
    (validator : ValidatorVerifier) : result anyhow unit :=
  _ ← ensure (negb (BlockInfo_is_ordered_only
                (LedgerInfo_commit_info (LedgerInfoWithSignatures_ledger_info ledger_info))))
        "Unexpected ordered only commit info"%string;
  context "Failed to verify Commit Decision"
    (LedgerInfoWithSignatures_verify_signatures ledger_info validator).

(** ** vote_proposal.rs and order_vote_proposal.rs *)

Record VoteProposal : Type := {
  vp_block : Block;
  vp_next_epoch_state : option EpochState;
  vp_decoupled_execution : bool;
}.

Definition VoteProposal_vote_data_ordering_only (self : VoteProposal) : VoteData :=
  {| vd_proposed :=
       Block_gen_block_info (vp_block self) ACCUMULATOR_PLACEHOLDER_HASH 0
         (vp_next_epoch_state self);
     vd_parent := qc_certified_block (block_quorum_cert (vp_block self)) |}.

Definition VoteProposal_gen_vote_data (self : VoteProposal) : result anyhow VoteData :=
  if vp_decoupled_execution self then Ok (VoteProposal_vote_data_ordering_only self) else Panic.

Record OrderVoteProposal : Type := {
  ovp_block : Block;
  ovp_block_info : BlockInfo;
  ovp_quorum_cert : QuorumCert;
}.

(** ** safety_data.rs *)

Record SafetyData : Type := {
  sd_epoch : Z;
  sd_last_voted_round : Z;
  sd_preferred_round : Z;
  sd_one_chain_round : Z;
  sd_last_vote : option Vote;
  sd_highest_timeout_round : Z;
}.

Definition SafetyData_new (epoch last_voted_round preferred_round one_chain_round : Z)
    (last_vote : option Vote) (highest_timeout_round : Z) : SafetyData :=
  {| sd_epoch := epoch; sd_last_voted_round := last_voted_round;
     sd_preferred_round := preferred_round; sd_one_chain_round := one_chain_round;
     sd_last_vote := last_vote; sd_highest_timeout_round := highest_timeout_round |}.

(** ** sync_info.rs *)

Record SyncInfo : Type := {
  si_highest_quorum_cert : QuorumCert;
  si_highest_ordered_cert : option WrappedLedgerInfo;
  si_highest_commit_cert : WrappedLedgerInfo;
  si_highest_2chain_timeout_cert : option TwoChainTimeoutCertificate;
}.

Definition SyncInfo_new_decoupled (highest_quorum_cert : QuorumCert)
    (highest_ordered_cert highest_commit_cert : WrappedLedgerInfo)
    (highest_2chain_timeout_cert : option TwoChainTimeoutCertificate) : SyncInfo :=
  {| si_highest_quorum_cert := highest_quorum_cert;
     si_highest_ordered_cert := Some highest_ordered_cert;
     si_highest_commit_cert := highest_commit_cert;
     si_highest_2chain_timeout_cert :=
       tc ← highest_2chain_timeout_cert;
       if tc_round tc >? qc_round highest_quorum_cert then Some tc else None |}.

Definition SyncInfo_new (highest_quorum_cert : QuorumCert)
    (highest_ordered_cert : WrappedLedgerInfo)
    (highest_2chain_timeout_cert : option TwoChainTimeoutCertificate) : SyncInfo :=
  SyncInfo_new_decoupled highest_quorum_cert highest_ordered_cert highest_ordered_cert
    highest_2chain_timeout_cert.

Definition SyncInfo_highest_ordered_cert (self : SyncInfo) : WrappedLedgerInfo :=
  default (qc_into_wrapped_ledger_info (si_highest_quorum_cert self))
    (si_highest_ordered_cert self).
Definition SyncInfo_highest_certified_round (self : SyncInfo) : Z :=
  qc_round (si_highest_quorum_cert self).
Definition SyncInfo_highest_timeout_round (self : SyncInfo) : Z :=
  from_option tc_round 0 (si_highest_2chain_timeout_cert self).
Definition SyncInfo_highest_ordered_round (self : SyncInfo) : Z :=
  BlockInfo_round (wli_commit_info (SyncInfo_highest_ordered_cert self)).
Definition SyncInfo_highest_commit_round (self : SyncInfo) : Z :=
  BlockInfo_round (wli_commit_info (si_highest_commit_cert self)).
Definition SyncInfo_highest_round (self : SyncInfo) : Z :=
  Z.max (SyncInfo_highest_certified_round self) (SyncInfo_highest_timeout_round self).
Definition SyncInfo_epoch (self : SyncInfo) : Z :=
  BlockInfo_epoch (qc_certified_block (si_highest_quorum_cert self)).

Definition SyncInfo_verify (self : SyncInfo) (validator : ValidatorVerifier) :
    result anyhow unit :=
  let epoch := SyncInfo_epoch self in
  let hoc := SyncInfo_highest_ordered_cert self in
  let hcc := si_highest_commit_cert self in
  _ ← ensure (epoch =? BlockInfo_epoch (wli_commit_info hoc))
        "Multi epoch in SyncInfo - HOC and HQC"%string;
  _ ← ensure (epoch =? BlockInfo_epoch (wli_commit_info hcc))
        "Multi epoch in SyncInfo - HOC and HCC"%string;
  _ ← match si_highest_2chain_timeout_cert self with
      | Some tc => ensure (epoch =? tc_epoch tc) "Multi epoch in SyncInfo - TC and HQC"%string
      | None => Ok tt
      end;
  _ ← ensure (SyncInfo_highest_certified_round self >=? SyncInfo_highest_ordered_round self)
        "HQC has lower round than HOC"%string;
  _ ← ensure (SyncInfo_highest_ordered_round self >=? SyncInfo_highest_commit_round self)
        "HOC has lower round than HLI"%string;
  _ ← ensure (negb (bool_decide (wli_commit_info hoc = BlockInfo_empty)))
        "HOC has no committed block"%string;
  _ ← ensure (negb (bool_decide (wli_commit_info hcc = BlockInfo_empty)))
        "HLI has empty commit info"%string;
  _ ← ensure (negb (BlockInfo_is_ordered_only (wli_commit_info hcc)))
        "HLI has ordered only commit info"%string;
  _ ← context "Fail to verify SyncInfo" (
    _ ← QuorumCert_verify (si_highest_quorum_cert self) validator;
    _ ← context "Fail to verify ordered certificate"
          (from_option (λ cert, WrappedLedgerInfo_verify cert validator) (Ok tt)
             (si_highest_ordered_cert self));
    _ ← (if BlockInfo_round (wli_commit_info hcc) >? 0
         then context "Fail to verify commit certificate" (WrappedLedgerInfo_verify hcc validator)
         else Ok tt);
    from_option (λ tc, TwoChainTimeoutCertificate_verify tc validator) (Ok tt)
      (si_highest_2chain_timeout_cert self));
  Ok tt.

Definition SyncInfo_has_newer_certificates (self other : SyncInfo) : bool :=
  (SyncInfo_highest_certified_round self >? SyncInfo_highest_certified_round other) ||
  (SyncInfo_highest_timeout_round self >? SyncInfo_highest_timeout_round other) ||
  (SyncInfo_highest_ordered_round self >? SyncInfo_highest_ordered_round other) ||
  (SyncInfo_highest_commit_round self >? SyncInfo_highest_commit_round other).

(** ** vote_msg.rs, order_vote_msg.rs and proposal_msg.rs *)

Record VoteMsg : Type := { vm_vote : Vote; vm_sync_info : SyncInfo }.

Definition VoteMsg_verify (self : VoteMsg) (validator : ValidatorVerifier) :
    result anyhow unit :=
  let vote := vm_vote self in
  _ ← ensure (vote_epoch vote =? SyncInfo_epoch (vm_sync_info self))
        "VoteMsg has different epoch"%string;
  _ ← ensure (vote_round vote >? SyncInfo_highest_round (vm_sync_info self))
        "Vote Round should be higher than SyncInfo"%string;
  _ ← match vote_two_chain_timeout vote with
      | Some (timeout, _) =>
          ensure (timeout_hqc_round timeout <=?
                    SyncInfo_highest_certified_round (vm_sync_info self))
            "2-chain Timeout hqc should be less or equal than the sync info hqc"%string
      | None => Ok tt
      end;
  Vote_verify vote validator.

Record OrderVoteMsg : Type := { ovm_order_vote : OrderVote; ovm_quorum_cert : QuorumCert }.

Definition OrderVoteMsg_verify_order_vote (self : OrderVoteMsg) (validator : ValidatorVerifier) :
    result anyhow unit :=
  _ ← ensure (bool_decide (qc_certified_block (ovm_quorum_cert self) =
                LedgerInfo_commit_info (ov_ledger_info (ovm_order_vote self))))
        "QuorumCert and OrderVote do not match"%string;
  _ ← context "[OrderVoteMsg] OrderVote verification failed"
        (OrderVote_verify (ovm_order_vote self) validator);
  Ok tt.

Record ProposalMsg : Type := { pm_proposal : Block; pm_sync_info : SyncInfo }.

Definition ProposalMsg_verify_well_formed (now : Z) (self : ProposalMsg) : result anyhow unit :=
  let proposal := pm_proposal self in
  let sync_info := pm_sync_info self in
  _ ← ensure (negb (block_is_nil_block proposal)) "Proposal for a NIL block"%string;
  _ ← context "Fail to verify ProposalMsg's block" (Block_verify_well_formed now proposal);
  _ ← ensure (block_round proposal >? 0) "Proposal has an incorrect round of 0"%string;
  _ ← ensure (block_epoch proposal =? SyncInfo_epoch sync_info)
        "ProposalMsg has different epoch number from SyncInfo"%string;
  _ ← ensure (bool_decide (block_parent_id proposal =
                BlockInfo_id (qc_certified_block (si_highest_quorum_cert sync_info))))
        "Proposal HQC in SyncInfo certifies a block that is not the parent"%string;
  previous_round ← ok_or (u64_checked_sub (block_round proposal) 1)
    "proposal round overflowed!"%string;
  let highest_certified_round :=
    Z.max (qc_round (block_quorum_cert proposal)) (SyncInfo_highest_timeout_round sync_info) in
  _ ← ensure (previous_round =? highest_certified_round)
        "Proposal does not have a certified round"%string;
  _ ← ensure (bool_decide (is_Some (block_author proposal)))
        "Proposal does not define an author"%string;
  Ok tt.

(** [format_err!("{:?}", e)] keeps the debug text of the inner error. *)
Definition ProposalMsg_verify
    (batch_payload_hash : AccountAddress → list SignedTransaction → HashValue)
    (now : Z) (self : ProposalMsg) (validator : ValidatorVerifier)
    (quorum_store_enabled : bool) : SM ProofCache anyhow unit :=
  let proposal := pm_proposal self in
  _ ← match block_payload proposal with
      | Some p => Payload_verify batch_payload_hash p validator quorum_store_enabled
      | None => mret tt
      end;
  _ ← lift (λ _, Block_validate_signature proposal validator);
  _ ← match si_highest_2chain_timeout_cert (pm_sync_info self) with
      | Some tc => lift (λ _, TwoChainTimeoutCertificate_verify tc validator)
      | None => mret tt
      end;
  lift (λ _, ProposalMsg_verify_well_formed now self).

(** ** Properties of messages *)

(** A proposal message that verifies justifies its round: the proposal is
    signed by its author, its certificate verifies, and it sits exactly one
    round above the highest of its quorum certificate and the verified timeout
    certificate of its sync info. *)
Theorem ProposalMsg_verify_sound (h : AccountAddress → list SignedTransaction → HashValue)
    (now : Z) (m : ProposalMsg) (v : ValidatorVerifier) (qs : bool) (c c' : ProofCache) :
  ProposalMsg_verify h now m v qs c = (c', Ok tt) →
  let b := pm_proposal m in
  let tc := si_highest_2chain_timeout_cert (pm_sync_info m) in
  QuorumCert_verify (block_quorum_cert b) v = Ok tt ∧
  (∀ t, tc = Some t → TwoChainTimeoutCertificate_verify t v = Ok tt) ∧
  block_round b = Z.max (qc_round (block_quorum_cert b)) (from_option tc_round 0 tc) + 1 ∧
  (∃ author sig, block_author b = Some author ∧ block_signature b = Some sig ∧
     verifier_verify v author (block_block_data b) sig = Ok tt).
Proof using Type.
  unfold ProposalMsg_verify. intros H.
  apply SM_Ok_bind in H as (c1 & [] & _ & H).
  apply SM_Ok_bind in H as (c2 & [] & Hsig & H).
  apply SM_Ok_bind in H as (c3 & [] & Htc & H).
  unfold lift in *. injection Hsig as <- Hsig. injection H as <- Hwf.
  unfold ProposalMsg_verify_well_formed, context in Hwf. inv_ok. split_and!.
  - by apply Block_validate_signature_qc.
  - intros t Ht. rewrite Ht in Htc. by injection Htc as _ Htc.
  - unfold SyncInfo_highest_timeout_round in *.
    match goal with Hp : u64_checked_sub _ _ = Some _ |- _ =>
      apply u64_checked_sub_Some in Hp as [-> ?] end.
    lia.
  - unfold Block_validate_signature, block_author, BlockData_author, block_is_nil_block,
      BlockData_is_nil_block in *.
    destruct (bd_block_type _) as [| | |[]|]; inv_ok; eauto 10.
Qed.

(** Sync info that verifies has all its certificates verified, the timeout
    certificate in the epoch of the quorum certificate, and its rounds in
    protocol order: commit round <= ordered round <= certified round. *)
Theorem SyncInfo_verify_sound (si : SyncInfo) (v : ValidatorVerifier) :
  SyncInfo_verify si v = Ok tt →
  SyncInfo_highest_commit_round si ≤ SyncInfo_highest_ordered_round si ≤
    SyncInfo_highest_certified_round si ∧
  QuorumCert_verify (si_highest_quorum_cert si) v = Ok tt ∧
  (∀ c, si_highest_ordered_cert si = Some c → WrappedLedgerInfo_verify c v = Ok tt) ∧
  (0 < SyncInfo_highest_commit_round si →
     WrappedLedgerInfo_verify (si_highest_commit_cert si) v = Ok tt) ∧
  (∀ tc, si_highest_2chain_timeout_cert si = Some tc →
     TwoChainTimeoutCertificate_verify tc v = Ok tt ∧ tc_epoch tc = SyncInfo_epoch si).
Proof using Type.
  unfold SyncInfo_verify, context. intros H. inv_ok. split_and!; try lia; try done.
  - intros c Hc. rewrite Hc in *. done.
  - intros Hpos. unfold SyncInfo_highest_commit_round in Hpos.
    rewrite Z.gtb_ltb, (proj2 (Z.ltb_lt _ _) Hpos) in *. inv_ok. done.
  - intros tc Htc. rewrite Htc in *. simpl in *. inv_ok. done.
Qed.
End votes.
