(* ===== verification/SafetyRules.v ===== *)
(** Safety rules: safety-rules/src/{error, persistent_safety_storage,
    consensus_state, safety_rules, safety_rules_2chain}.rs.

    The component that holds the consensus key and signs votes, order votes,
    timeouts, proposals and commit votes.  Its state is the persistent safety
    data behind a cache, the signer and the epoch state; every operation of the
    [TSafetyRules] interface is a state-passing function. *)
From S2P Require Import Prelude Laptos Payload Certificates Block Votes.

(** ** error.rs *)

Section errors.
Context `{L : Laptos}.

Inductive Error : Type :=
| IncorrectEpoch (provided expected : Z)
| IncorrectRound (round : Z)
| IncorrectLastVotedRound (round last_voted_round : Z)
| IncorrectPreferredRound (round preferred_round : Z)
| InvalidAccumulatorExtension (msg : string)
| InvalidEpochChangeProof (msg : string)
| InternalError (msg : string)
| InvalidLedgerInfo
| InvalidProposal (msg : string)
| InvalidQuorumCertificate (msg : string)
| NotInitialized (what : string)
| NotSafeForOrderVote (round highest_timeout_round : Z)
| SecureStorageMissingDataError (msg : string)
| SecureStorageUnexpectedError (msg : string)
| SerializationError (msg : string)
| ValidatorKeyNotFound (msg : string)
| ValidatorNotInSet (author : AccountAddress)
| VoteProposalSignatureNotFound
| NotSafeToVote (round qc_round tc_round hqc_round : Z)
| NotSafeToTimeout (round qc_round tc_round one_chain_round : Z)
| InvalidTimeoutCertificate (msg : string)
| InconsistentExecutionResult (ordered executed : BlockInfo)
| InvalidOrderedLedgerInfo (li : LedgerInfo)
| WaypointOutOfDate (previous updated current_epoch provided_epoch : Z)
| InvalidTimeout (msg : string)
| InvalidOneChainQuorumCertificate (qc_block block : HashValue).

(** The variants of [aptos_secure_storage::Error] the code tells apart. *)
Inductive StorageError : Type :=
| PermissionDenied
| KeyVersionNotFound (msg : string)
| KeyNotSet (msg : string)
| KeyAlreadyExists (msg : string)
| OtherStorageError (msg : string).

(** [impl From<aptos_secure_storage::Error> for Error], as the [?] operator
    applies it: a permission error panics. *)
Definition from_storage_error {A} (m : result StorageError A) : result Error A :=
  match m with
  | Ok a => Ok a
  | Err PermissionDenied => Panic
  | Err (KeyVersionNotFound msg) | Err (KeyNotSet msg) => Err (SecureStorageMissingDataError msg)
  | Err (KeyAlreadyExists msg) | Err (OtherStorageError msg) =>
      Err (SecureStorageUnexpectedError msg)
  | Panic => Panic
  end.
End errors.

(** The secure storage backend (external crate [aptos_secure_storage]), one
    method per key and type the code reads or writes: [get::<T>(key)] and
    [set::<T>(key, value)].  [set] may fail. *)
Class SecureStorage `{L : Laptos} : Type := {
  Storage : Type;
  storage_get_safety_data : Storage → result StorageError SafetyData;
  (** [get::<Result<SafetyData, Error>>(SAFETY_DATA)] *)
  storage_get_safety_data_result : Storage → result StorageError (result Error SafetyData);
  storage_set_safety_data : SafetyData → Storage → Storage * result StorageError unit;
  storage_get_waypoint : Storage → result StorageError Waypoint;
  storage_set_waypoint : Waypoint → Storage → Storage * result StorageError unit;
  storage_get_author : Storage → result StorageError AccountAddress;
  storage_set_author : AccountAddress → Storage → Storage * result StorageError unit;
  (** the key saved under [CONSENSUS_KEY], and under [CONSENSUS_KEY_<pk>] *)
  storage_get_default_sk : Storage → result StorageError PrivateKey;
  storage_get_explicit_sk : PublicKey → Storage → result StorageError PrivateKey;
  storage_set_default_sk : PrivateKey → Storage → Storage * result StorageError unit;
}.

Section safety_rules.
Context `{L : Laptos} `{!CryptoHash VoteData, !CryptoHash TimeoutSigningRepr}.
Context `{!CryptoHash LedgerInfo, !CryptoHash BlockData}.
Context `{ST : !SecureStorage}.

(** ** persistent_safety_storage.rs *)

Record PersistentSafetyStorage : Type := {
  ps_enable_cached_safety_data : bool;
  ps_cached_safety_data : option SafetyData;
  ps_internal_store : Storage;
}.

Definition ps_set (cached : option SafetyData) (store : Storage) (self : PersistentSafetyStorage) :
    PersistentSafetyStorage :=
  {| ps_enable_cached_safety_data := ps_enable_cached_safety_data self;
     ps_cached_safety_data := cached; ps_internal_store := store |}.

Definition PersistentSafetyStorage_new (internal_store : Storage)
    (enable_cached_safety_data : bool) : PersistentSafetyStorage :=
  {| ps_enable_cached_safety_data := enable_cached_safety_data;
     ps_cached_safety_data := None; ps_internal_store := internal_store |}.

Definition PersistentSafetyStorage_author (self : PersistentSafetyStorage) :
    result Error AccountAddress :=
  from_storage_error (storage_get_author (ps_internal_store self)).

Definition consensus_sk_by_pk (self : PersistentSafetyStorage) (pk : PublicKey) :
    result Error PrivateKey :=
  key ← match storage_get_explicit_sk pk (ps_internal_store self),
              storage_get_default_sk (ps_internal_store self) with
        | Ok sk_0, _ => Ok sk_0
        | _, Ok sk_1 => Ok sk_1
        | _, _ => Err (ValidatorKeyNotFound "not found!")
        end;
  if bool_decide (PrivateKey_public_key key ≠ pk)
  then Err (SecureStorageMissingDataError "Incorrect sk saved for the expected pk")
  else Ok key.

(** With the cache off, [return get(..).map(|v| v.value)?] reads the stored
    value at the type of the returned [Result]. *)
Definition PersistentSafetyStorage_safety_data : SM PersistentSafetyStorage Error SafetyData :=
  λ self,
    if negb (ps_enable_cached_safety_data self) then
      (self,
       match from_storage_error (storage_get_safety_data_result (ps_internal_store self)) with
       | Ok value => value
       | Err e => Err e
       | Panic => Panic
       end)
    else
      match ps_cached_safety_data self with
      | Some cached_safety_data => (self, Ok cached_safety_data)
      | None =>
          match from_storage_error (storage_get_safety_data (ps_internal_store self)) with
          | Ok safety_data =>
              (ps_set (Some safety_data) (ps_internal_store self) self, Ok safety_data)
          | Err e => (self, Err e)
          | Panic => (self, Panic)
          end
      end.

Definition PersistentSafetyStorage_set_safety_data (data : SafetyData) :
    SM PersistentSafetyStorage Error unit := λ self,
  match storage_set_safety_data data (ps_internal_store self) with
  | (store, Ok _) => (ps_set (Some data) store self, Ok tt)
  | (store, Err _) => (ps_set None store self, Err (SecureStorageUnexpectedError "set"))
  | (store, Panic) => (ps_set (ps_cached_safety_data self) store self, Panic)
  end.

Definition PersistentSafetyStorage_waypoint (self : PersistentSafetyStorage) :
    result Error Waypoint :=
  from_storage_error (storage_get_waypoint (ps_internal_store self)).

Definition PersistentSafetyStorage_set_waypoint (waypoint : Waypoint) :
    SM PersistentSafetyStorage Error unit := λ self,
  let '(store, r) := storage_set_waypoint waypoint (ps_internal_store self) in
  (ps_set (ps_cached_safety_data self) store self, from_storage_error r).

(** The outcome of [initialize_keys_and_accounts] and the store it leaves. *)
Definition initialize_keys_and_accounts (author : AccountAddress)
    (consensus_private_key : PrivateKey) : SM Storage Error unit := λ store,
  match storage_set_default_sk consensus_private_key store with
  | (store, Err (KeyAlreadyExists _)) => (store, Ok tt)
  | (store, _) =>
      let '(store, r) := storage_set_author author store in (store, from_storage_error r)
  end.

Definition PersistentSafetyStorage_initialize (internal_store : Storage)
    (author : AccountAddress) (consensus_private_key : PrivateKey) (waypoint : Waypoint)
    (enable_cached_safety_data : bool) : result Error PersistentSafetyStorage :=
  match initialize_keys_and_accounts author consensus_private_key internal_store with
  | (store, Ok _) =>
      let safety_data := SafetyData_new 1 0 0 0 None 0 in
      let storage :=
        {| ps_enable_cached_safety_data := enable_cached_safety_data;
           ps_cached_safety_data := Some safety_data; ps_internal_store := store |} in
      match PersistentSafetyStorage_set_safety_data safety_data storage with
      | (storage, Ok _) =>
          match PersistentSafetyStorage_set_waypoint waypoint storage with
          | (storage, Ok _) => Ok storage
          | _ => Panic
          end
      | _ => Panic
      end
  | _ => Panic
  end.

(** ** safety_rules.rs: state and helpers *)

Record SafetyRules : Type := {
  sr_persistent_storage : PersistentSafetyStorage;
  sr_validator_signer : option ValidatorSigner;
  sr_epoch_state : option EpochState;
}.

Definition SafetyRules_new (persistent_storage : PersistentSafetyStorage) : SafetyRules :=
  {| sr_persistent_storage := persistent_storage; sr_validator_signer := None;
     sr_epoch_state := None |}.

Definition set_storage (ps : PersistentSafetyStorage) (self : SafetyRules) : SafetyRules :=
  {| sr_persistent_storage := ps; sr_validator_signer := sr_validator_signer self;
     sr_epoch_state := sr_epoch_state self |}.
Definition set_signer (signer : option ValidatorSigner) (self : SafetyRules) : SafetyRules :=
  {| sr_persistent_storage := sr_persistent_storage self; sr_validator_signer := signer;
     sr_epoch_state := sr_epoch_state self |}.
Definition set_epoch_state (es : option EpochState) (self : SafetyRules) : SafetyRules :=
  {| sr_persistent_storage := sr_persistent_storage self;
     sr_validator_signer := sr_validator_signer self; sr_epoch_state := es |}.

(** A method of [self.persistent_storage] inside a method of [self]. *)
Definition on_storage {A} (m : SM PersistentSafetyStorage Error A) : SM SafetyRules Error A :=
  λ self, let '(ps, r) := m (sr_persistent_storage self) in (set_storage ps self, r).

Definition next_round (round : Z) : result Error Z :=
  ok_or (u64_checked_add round 1) (IncorrectRound round).

Definition signer (self : SafetyRules) : result Error ValidatorSigner :=
  ok_or (sr_validator_signer self) (NotInitialized "validator_signer").

Definition epoch_state (self : SafetyRules) : result Error EpochState :=
  ok_or (sr_epoch_state self) (NotInitialized "epoch_state").

Definition sign {T} `{!CryptoHash T} (message : T) (self : SafetyRules) : result Error Signature :=
  s ← signer self;
  map_err SerializationError (signer_sign s message).

Definition verify_epoch (epoch : Z) (safety_data : SafetyData) : result Error unit :=
  if negb (epoch =? sd_epoch safety_data)
  then Err (IncorrectEpoch epoch (sd_epoch safety_data))
  else Ok tt.

Definition verify_qc (qc : QuorumCert) (self : SafetyRules) : result Error unit :=
  es ← epoch_state self;
  _ ← map_err InvalidQuorumCertificate (QuorumCert_verify qc (EpochState_verifier es));
  Ok tt.

Definition verify_author (author : option AccountAddress) (self : SafetyRules) :
    result Error unit :=
  s ← signer self;
  author ← ok_or author (InvalidProposal "No author found in the proposal");
  if bool_decide (ValidatorSigner_author s ≠ author)
  then Err (InvalidProposal "Proposal author is not validator signer!")
  else Ok tt.

(** [observe_qc] returns the safety data it leaves, and whether it changed. *)
Definition observe_qc (qc : QuorumCert) (safety_data : SafetyData) : SafetyData * bool :=
  let one_chain := BlockInfo_round (qc_certified_block qc) in
  let two_chain := BlockInfo_round (qc_parent_block qc) in
  let up1 := one_chain >? sd_one_chain_round safety_data in
  let up2 := two_chain >? sd_preferred_round safety_data in
  ({| sd_epoch := sd_epoch safety_data;
      sd_last_voted_round := sd_last_voted_round safety_data;
      sd_preferred_round := if up2 then two_chain else sd_preferred_round safety_data;
      sd_one_chain_round := if up1 then one_chain else sd_one_chain_round safety_data;
      sd_last_vote := sd_last_vote safety_data;
      sd_highest_timeout_round := sd_highest_timeout_round safety_data |},
   up1 || up2).

Definition update_highest_timeout_round (timeout : TwoChainTimeout) (safety_data : SafetyData) :
    SafetyData :=
  if timeout_round timeout >? sd_highest_timeout_round safety_data then
    {| sd_epoch := sd_epoch safety_data;
       sd_last_voted_round := sd_last_voted_round safety_data;
       sd_preferred_round := sd_preferred_round safety_data;
       sd_one_chain_round := sd_one_chain_round safety_data;
       sd_last_vote := sd_last_vote safety_data;
       sd_highest_timeout_round := timeout_round timeout |}
  else safety_data.

(** Second voting rule *)
Definition verify_and_update_preferred_round (quorum_cert : QuorumCert)
    (safety_data : SafetyData) : result Error (SafetyData * bool) :=
  let preferred_round := sd_preferred_round safety_data in
  let one_chain_round := BlockInfo_round (qc_certified_block quorum_cert) in
  if one_chain_round <? preferred_round
  then Err (IncorrectPreferredRound one_chain_round preferred_round)
  else Ok (observe_qc quorum_cert safety_data).

(** First voting rule *)
Definition verify_and_update_last_vote_round (round : Z) (safety_data : SafetyData) :
    result Error SafetyData :=
  if round <=? sd_last_voted_round safety_data
  then Err (IncorrectLastVotedRound round (sd_last_voted_round safety_data))
  else Ok {| sd_epoch := sd_epoch safety_data;
             sd_last_voted_round := round;
             sd_preferred_round := sd_preferred_round safety_data;
             sd_one_chain_round := sd_one_chain_round safety_data;
             sd_last_vote := sd_last_vote safety_data;
             sd_highest_timeout_round := sd_highest_timeout_round safety_data |}.

Definition set_last_vote (vote : Vote) (safety_data : SafetyData) : SafetyData :=
  {| sd_epoch := sd_epoch safety_data;
     sd_last_voted_round := sd_last_voted_round safety_data;
     sd_preferred_round := sd_preferred_round safety_data;
     sd_one_chain_round := sd_one_chain_round safety_data;
     sd_last_vote := Some vote;
     sd_highest_timeout_round := sd_highest_timeout_round safety_data |}.

Definition get_safety_data : SM SafetyRules Error SafetyData :=
  on_storage PersistentSafetyStorage_safety_data.
Definition set_safety_data (data : SafetyData) : SM SafetyRules Error unit :=
  on_storage (PersistentSafetyStorage_set_safety_data data).

(** ** safety_rules.rs: operations *)

(** Validity checks; [now] is the clock [verify_well_formed] reads. *)
Definition verify_proposal (now : Z) (vote_proposal : VoteProposal) :
    SM SafetyRules Error VoteData :=
  let proposed_block := vp_block vote_proposal in
  safety_data ← get_safety_data;
  _ ← lift (λ _, verify_epoch (block_epoch proposed_block) safety_data);
  _ ← lift (verify_qc (block_quorum_cert proposed_block));
  es ← lift epoch_state;
  _ ← lift (λ _, map_err InvalidProposal
                   (Block_validate_signature proposed_block (EpochState_verifier es)));
  _ ← lift (λ _, map_err InvalidProposal (Block_verify_well_formed now proposed_block));
  lift (λ _, map_err InvalidAccumulatorExtension (VoteProposal_gen_vote_data vote_proposal)).

Definition verify_order_vote_proposal (order_vote_proposal : OrderVoteProposal) :
    SM SafetyRules Error unit :=
  let proposed_block := ovp_block order_vote_proposal in
  safety_data ← get_safety_data;
  _ ← lift (λ _, verify_epoch (block_epoch proposed_block) safety_data);
  let qc := ovp_quorum_cert order_vote_proposal in
  let certified := qc_certified_block qc in
  _ ← lift (λ _, ensure (bool_decide (certified = ovp_block_info order_vote_proposal))
        (InvalidOneChainQuorumCertificate (BlockInfo_id certified)
           (BlockInfo_id (ovp_block_info order_vote_proposal))));
  _ ← lift (λ _, ensure (bool_decide (BlockInfo_id certified = block_id proposed_block))
        (InvalidOneChainQuorumCertificate (BlockInfo_id certified) (block_id proposed_block)));
  lift (verify_qc qc).

Record ConsensusState : Type := {
  cs_safety_data : SafetyData;
  cs_waypoint : Waypoint;
  cs_in_validator_set : bool;
}.

Definition guarded_consensus_state : SM SafetyRules Error ConsensusState :=
  _ ← lift (λ self, PersistentSafetyStorage_waypoint (sr_persistent_storage self));
  _ ← get_safety_data;
  safety_data ← get_safety_data;
  waypoint ← lift (λ self, PersistentSafetyStorage_waypoint (sr_persistent_storage self));
  lift (λ self, Ok {| cs_safety_data := safety_data; cs_waypoint := waypoint;
                      cs_in_validator_set := is_ok (signer self) |}).

(** Key reconciliation at the end of [guarded_initialize]. *)
Definition reconcile_key (es : EpochState) : SM SafetyRules Error unit := λ self,
  match PersistentSafetyStorage_author (sr_persistent_storage self) with
  | Err e => (self, Err e)
  | Panic => (self, Panic)
  | Ok author =>
      let fail e := (set_signer None self, Err e) in
      match ValidatorVerifier_get_public_key (EpochState_verifier es) author with
      | None => fail (ValidatorNotInSet author)
      | Some expected_key =>
          let current_key := ValidatorSigner_public_key <$> sr_validator_signer self in
          if bool_decide (current_key = Some expected_key) then (self, Ok tt) else
          match consensus_sk_by_pk (sr_persistent_storage self) expected_key with
          | Ok consensus_key =>
              (set_signer (Some (ValidatorSigner_new author consensus_key)) self, Ok tt)
          | Err (SecureStorageMissingDataError error) => fail (ValidatorKeyNotFound error)
          | Err error => fail error
          | Panic => (self, Panic)
          end
      end
  end.

Definition guarded_initialize (proof : EpochChangeProof) : SM SafetyRules Error unit :=
  waypoint ← lift (λ self, PersistentSafetyStorage_waypoint (sr_persistent_storage self));
  last_li ← lift (λ _, map_err InvalidEpochChangeProof (EpochChangeProof_verify proof waypoint));
  let ledger_info := LedgerInfoWithSignatures_ledger_info last_li in
  es ← lift (λ _, ok_or (LedgerInfo_next_epoch_state ledger_info) InvalidLedgerInfo);
  new_waypoint ← lift (λ _, map_err InternalError (Waypoint_new_epoch_boundary ledger_info));
  _ ← (if Waypoint_version new_waypoint >? Waypoint_version waypoint
       then on_storage (PersistentSafetyStorage_set_waypoint new_waypoint)
       else mret tt);
  safety_data ← get_safety_data;
  let current_epoch := sd_epoch safety_data in
  _ ← match current_epoch ?= EpochState_epoch es with
      | Gt => lift (λ _, Err (WaypointOutOfDate (Waypoint_version waypoint)
                (Waypoint_version new_waypoint) current_epoch (EpochState_epoch es)))
      | Lt => set_safety_data (SafetyData_new (EpochState_epoch es) 0 0 0 None 0)
      | Eq => mret tt
      end;
  _ ← (λ self, (set_epoch_state (Some es) self, Ok tt));
  reconcile_key es.

Definition guarded_sign_proposal (block_data : BlockData) : SM SafetyRules Error Signature :=
  _ ← lift signer;
  _ ← lift (verify_author (BlockData_author block_data));
  safety_data ← get_safety_data;
  _ ← lift (λ _, verify_epoch (bd_epoch block_data) safety_data);
  _ ← lift (λ _, ensure (negb (bd_round block_data <=? sd_last_voted_round safety_data))
        (InvalidProposal "Proposed round is not higher than last voted round"));
  _ ← lift (verify_qc (bd_quorum_cert block_data));
  _ ← lift (λ _, verify_and_update_preferred_round (bd_quorum_cert block_data) safety_data);
  lift (sign block_data).

Definition guarded_sign_commit_vote (ledger_info : LedgerInfoWithSignatures)
    (new_ledger_info : LedgerInfo) : SM SafetyRules Error Signature :=
  _ ← lift signer;
  let old_ledger_info := LedgerInfoWithSignatures_ledger_info ledger_info in
  let old_info := LedgerInfo_commit_info old_ledger_info in
  let new_info := LedgerInfo_commit_info new_ledger_info in
  _ ← lift (λ _, ensure (negb (negb (BlockInfo_is_ordered_only old_info) &&
                               bool_decide (old_info ≠ new_info)))
        (InvalidOrderedLedgerInfo old_ledger_info));
  _ ← lift (λ _, ensure (BlockInfo_match_ordered_only old_info new_info)
        (InconsistentExecutionResult old_info new_info));
  es ← lift epoch_state;
  _ ← lift (λ _, map_err InvalidQuorumCertificate
        (LedgerInfoWithSignatures_verify_signatures ledger_info (EpochState_verifier es)));
  lift (sign new_ledger_info).

(** ** safety_rules_2chain.rs *)

Definition verify_tc (tc : TwoChainTimeoutCertificate) (self : SafetyRules) : result Error unit :=
  es ← epoch_state self;
  _ ← map_err InvalidTimeoutCertificate
        (TwoChainTimeoutCertificate_verify tc (EpochState_verifier es));
  Ok tt.

Definition verify_maybe_tc (timeout_cert : option TwoChainTimeoutCertificate)
    (self : SafetyRules) : result Error unit :=
  match timeout_cert with Some tc => verify_tc tc self | None => Ok tt end.

(** Core safety timeout rule *)
Definition safe_to_timeout (timeout : TwoChainTimeout)
    (maybe_tc : option TwoChainTimeoutCertificate) (safety_data : SafetyData) :
    result Error unit :=
  let round := timeout_round timeout in
  let qc_round := timeout_hqc_round timeout in
  let tc_round := from_option tc_round 0 maybe_tc in
  qc_next ← next_round qc_round;
  cond ← (if round =? qc_next then Ok true else
            tc_next ← next_round tc_round; Ok (round =? tc_next));
  if cond && (qc_round >=? sd_one_chain_round safety_data) then Ok tt
  else Err (NotSafeToTimeout round qc_round tc_round (sd_one_chain_round safety_data)).

(** Core safety voting rule *)
Definition safe_to_vote (block : Block) (maybe_tc : option TwoChainTimeoutCertificate) :
    result Error unit :=
  let round := block_round block in
  let qc_round := BlockInfo_round (qc_certified_block (block_quorum_cert block)) in
  let tc_round := from_option tc_round 0 maybe_tc in
  let hqc_round := from_option tc_highest_hqc_round 0 maybe_tc in
  qc_next ← next_round qc_round;
  cond ← (if round =? qc_next then Ok true else
            tc_next ← next_round tc_round;
            Ok ((round =? tc_next) && (qc_round >=? hqc_round)));
  if cond : bool then Ok tt else Err (NotSafeToVote round qc_round tc_round hqc_round).

Definition safe_for_order_vote (block : Block) (safety_data : SafetyData) : result Error unit :=
  let round := block_round block in
  if round >? sd_highest_timeout_round safety_data then Ok tt
  else Err (NotSafeForOrderVote round (sd_highest_timeout_round safety_data)).

Definition construct_ledger_info_2chain (proposed_block : Block)
    (consensus_data_hash : HashValue) : result Error LedgerInfo :=
  let block1 := block_round proposed_block in
  let block0 := BlockInfo_round (qc_certified_block (block_quorum_cert proposed_block)) in
  next ← next_round block0;
  let commit := next =? block1 in
  let commit_info :=
    if commit then qc_certified_block (block_quorum_cert proposed_block) else BlockInfo_empty in
  Ok (LedgerInfo_new commit_info consensus_data_hash).

Definition guarded_sign_timeout_with_qc (timeout : TwoChainTimeout)
    (timeout_cert : option TwoChainTimeoutCertificate) : SM SafetyRules Error Signature :=
  _ ← lift signer;
  safety_data ← get_safety_data;
  _ ← lift (λ _, verify_epoch (timeout_epoch timeout) safety_data);
  es ← lift epoch_state;
  _ ← lift (λ _, map_err InvalidTimeout
                   (TwoChainTimeout_verify timeout (EpochState_verifier es)));
  _ ← lift (verify_maybe_tc timeout_cert);
  _ ← lift (λ _, safe_to_timeout timeout timeout_cert safety_data);
  _ ← lift (λ _, ensure (negb (timeout_round timeout <? sd_last_voted_round safety_data))
        (IncorrectLastVotedRound (timeout_round timeout) (sd_last_voted_round safety_data)));
  safety_data ← lift (λ _,
    if timeout_round timeout >? sd_last_voted_round safety_data
    then verify_and_update_last_vote_round (timeout_round timeout) safety_data
    else Ok safety_data);
  let safety_data := update_highest_timeout_round timeout safety_data in
  _ ← set_safety_data safety_data;
  lift (sign (TwoChainTimeout_signing_format timeout)).

(** The part of voting after the check for an earlier vote in the round. *)
Definition sign_new_vote (proposed_block : Block) (vote_data : VoteData)
    (timeout_cert : option TwoChainTimeoutCertificate) (safety_data : SafetyData) :
    SM SafetyRules Error Vote :=
  safety_data ← lift (λ _,
    verify_and_update_last_vote_round (block_round proposed_block) safety_data);
  _ ← lift (λ _, safe_to_vote proposed_block timeout_cert);
  let safety_data := (observe_qc (block_quorum_cert proposed_block) safety_data).1 in
  s ← lift signer;
  let author := ValidatorSigner_author s in
  ledger_info ← lift (λ _, construct_ledger_info_2chain proposed_block (hash vote_data));
  signature ← lift (sign ledger_info);
  let vote := Vote_new_with_signature vote_data author ledger_info signature in
  _ ← set_safety_data (set_last_vote vote safety_data);
  mret vote.

Definition guarded_construct_and_sign_vote_two_chain (now : Z) (vote_proposal : VoteProposal)
    (timeout_cert : option TwoChainTimeoutCertificate) : SM SafetyRules Error Vote :=
  _ ← lift signer;
  vote_data ← verify_proposal now vote_proposal;
  _ ← lift (verify_maybe_tc timeout_cert);
  let proposed_block := vp_block vote_proposal in
  safety_data ← get_safety_data;
  match sd_last_vote safety_data with
  | Some vote =>
      if vote_round vote =? block_round proposed_block then mret vote
      else sign_new_vote proposed_block vote_data timeout_cert safety_data
  | None => sign_new_vote proposed_block vote_data timeout_cert safety_data
  end.

Definition guarded_construct_and_sign_order_vote (order_vote_proposal : OrderVoteProposal) :
    SM SafetyRules Error OrderVote :=
  _ ← lift signer;
  _ ← verify_order_vote_proposal order_vote_proposal;
  let proposed_block := ovp_block order_vote_proposal in
  safety_data ← get_safety_data;
  let safety_data := (observe_qc (ovp_quorum_cert order_vote_proposal) safety_data).1 in
  _ ← lift (λ _, safe_for_order_vote proposed_block safety_data);
  s ← lift signer;
  let author := ValidatorSigner_author s in
  let ledger_info := LedgerInfo_new (ovp_block_info order_vote_proposal) HashValue_zero in
  signature ← lift (sign ledger_info);
  let order_vote :=
    {| ov_author := author; ov_ledger_info := ledger_info; ov_signature := signature |} in
  _ ← set_safety_data safety_data;
  mret order_vote.
End safety_rules.

(** Documented behaviour of the storage backend: a successful [set] is what the
    next [get] of the same type returns, a failed one leaves the value as it
    was, keys do not interfere, and [serde] decodes a [Result] only from the
    tagged form, which the stored record of a [SafetyData] does not have. *)
Class StorageLaws `{L : Laptos} (ST : SecureStorage) : Prop := {
  get_set_safety_data d s s' u :
    storage_set_safety_data d s = (s', Ok u) → storage_get_safety_data s' = Ok d;
  get_set_safety_data_failed d s s' e :
    storage_set_safety_data d s = (s', Err e) →
    storage_get_safety_data s' = storage_get_safety_data s;
  set_safety_data_no_panic d s : (storage_set_safety_data d s).2 ≠ Panic;
  get_set_waypoint w s :
    storage_get_safety_data (storage_set_waypoint w s).1 = storage_get_safety_data s;
  get_result_set_safety_data d s s' u :
    storage_set_safety_data d s = (s', Ok u) →
    ∃ msg, storage_get_safety_data_result s' = Err (OtherStorageError msg);
}.

Section safety_rules_facts.
Context `{L : Laptos} `{!CryptoHash VoteData, !CryptoHash TimeoutSigningRepr}.
Context `{!CryptoHash LedgerInfo, !CryptoHash BlockData}.
Context `{ST : !SecureStorage} `{SL : !StorageLaws ST}.

(** ** Coherence of the cache

    [view s] is the safety data on disk.  The cache, when filled, holds it. *)
Definition view (s : SafetyRules) : result Error SafetyData :=
  from_storage_error (storage_get_safety_data (ps_internal_store (sr_persistent_storage s))).

Definition coherent (s : SafetyRules) : Prop :=
  ps_enable_cached_safety_data (sr_persistent_storage s) = true ∧
  ∀ d, ps_cached_safety_data (sr_persistent_storage s) = Some d → view s = Ok d.

(** Same disk, signer and epoch state; the cache may have been filled. *)
Definition same (s s' : SafetyRules) : Prop :=
  coherent s' ∧ view s' = view s ∧
  sr_validator_signer s' = sr_validator_signer s ∧ sr_epoch_state s' = sr_epoch_state s.

Lemma same_refl s : coherent s → same s s.
Proof using Type. done. Qed.

Lemma same_trans s1 s2 s3 : same s1 s2 → same s2 s3 → same s1 s3.
Proof using Type. unfold same. intros (?&?&?&?) (?&?&?&?). split_and!; congruence. Qed.

(** A computation that leaves the state the same, whatever its outcome. *)
Definition quiet {A} (m : SM SafetyRules Error A) : Prop :=
  ∀ s s' r, coherent s → m s = (s', r) → same s s'.

Lemma quiet_lift {A} (f : SafetyRules → result Error A) : quiet (lift f).
Proof using Type. intros s s' r Hs [= <- <-]. by apply same_refl. Qed.

Lemma quiet_ret {A} (a : A) : quiet (mret a).
Proof using Type. intros s s' r Hs [= <- <-]. by apply same_refl. Qed.

Lemma quiet_bind {A B} (m : SM SafetyRules Error A) (f : A → SM SafetyRules Error B) :
  quiet m → (∀ a, quiet (f a)) → quiet (m ≫= f).
Proof using Type.
  intros Hm Hf s s' r Hs. unfold mbind, SM_bind.
  destruct (m s) as [s1 [a|e|]] eqn:Hms; pose proof (Hm _ _ _ Hs Hms) as H1.
  - intros Hfa. eapply same_trans; [exact H1|]. eapply Hf; [by apply H1|done].
  - by intros [= <- <-].
  - by intros [= <- <-].
Qed.

Lemma set_storage_id s : set_storage (sr_persistent_storage s) s = s.
Proof using Type. by destruct s. Qed.

Lemma quiet_get : quiet get_safety_data.
Proof using Type.
  intros s s' r Hs. pose proof Hs as [He Hc]. unfold get_safety_data, on_storage, PersistentSafetyStorage_safety_data.
  rewrite He; simpl.
  destruct (ps_cached_safety_data (sr_persistent_storage s)) as [d|] eqn:Hd.
  - intros [= <- <-]. rewrite set_storage_id. by apply same_refl.
  - fold (view s). destruct (view s) as [d|e|] eqn:Hv; intros [= <- <-].
    + split_and!; [|by rewrite Hv|done|done]. split; [done|]. simpl.
      intros d' [= <-]. exact Hv.
    + rewrite set_storage_id. by apply same_refl.
    + rewrite set_storage_id. by apply same_refl.
Qed.

Lemma get_view s s' r : coherent s → get_safety_data s = (s', r) → r = view s.
Proof using Type.
  intros [He Hc]. unfold get_safety_data, on_storage, PersistentSafetyStorage_safety_data.
  rewrite He; simpl.
  destruct (ps_cached_safety_data (sr_persistent_storage s)) as [d|] eqn:Hd.
  - intros [= <- <-]. symmetry. by apply Hc.
  - fold (view s). destruct (view s) as [d|e|]; by intros [= <- <-].
Qed.

Lemma set_spec d s s' r :
  coherent s → set_safety_data d s = (s', r) →
  coherent s' ∧ sr_validator_signer s' = sr_validator_signer s ∧
  sr_epoch_state s' = sr_epoch_state s ∧
  ((r = Ok tt ∧ view s' = Ok d) ∨ ((∃ e, r = Err e) ∧ view s' = view s)).
Proof using SL.
  intros [He Hc]. unfold set_safety_data, on_storage, PersistentSafetyStorage_set_safety_data.
  destruct (storage_set_safety_data d _) as [st [[]|e|]] eqn:Hs; intros [= <- <-].
  - apply get_set_safety_data in Hs. unfold coherent, view; simpl. rewrite Hs. naive_solver.
  - apply get_set_safety_data_failed in Hs. unfold coherent, view; simpl. rewrite Hs.
    naive_solver.
  - by pose proof (set_safety_data_no_panic d (ps_internal_store (sr_persistent_storage s)));
      rewrite Hs in *.
Qed.

(** ** Outcomes of the operations *)

Ltac quiet :=
  repeat first
  [ apply quiet_lift | apply quiet_ret | apply quiet_get
  | apply quiet_bind; [|intros ?] | progress case_match ].

(** A bind whose first part is quiet either stops there, or goes on from the
    same state. *)
Lemma quiet_step {A B} (m : SM SafetyRules Error A) (f : A → SM SafetyRules Error B) s s' r :
  (m ≫= f) s = (s', r) → quiet m → coherent s →
  (same s s' ∧ ∀ b, r ≠ Ok b) ∨ ∃ s1 a, m s = (s1, Ok a) ∧ same s s1 ∧ f a s1 = (s', r).
Proof using Type.
  unfold mbind, SM_bind. intros H Hm Hs.
  destruct (m s) as [s1 [a|e|]] eqn:Hms; pose proof (Hm _ _ _ Hs Hms) as H1; simplify_eq; eauto 10.
Qed.

Lemma lift_step {A B} (m : SafetyRules → result Error A) (f : A → SM SafetyRules Error B) s s' r :
  (lift m ≫= f) s = (s', r) →
  (s' = s ∧ ∀ b, r ≠ Ok b) ∨ ∃ a, m s = Ok a ∧ f a s = (s', r).
Proof using Type. unfold mbind, SM_bind, lift. destruct (m s); intros; simplify_eq; eauto. Qed.

(** A computation that changes the state only when it succeeds. *)
Definition atomic {A} (m : SM SafetyRules Error A) : Prop :=
  ∀ s s' r, coherent s → m s = (s', r) → (∀ a, r ≠ Ok a) → same s s'.

Lemma quiet_atomic {A} (m : SM SafetyRules Error A) : quiet m → atomic m.
Proof using Type. intros Hm s s' r Hs H _. by eapply Hm. Qed.

Lemma atomic_bind {A B} (m : SM SafetyRules Error A) (f : A → SM SafetyRules Error B) :
  quiet m → (∀ a, atomic (f a)) → atomic (m ≫= f).
Proof using Type.
  intros Hm Hf s s' r Hs. unfold mbind, SM_bind.
  destruct (m s) as [s1 [a|e|]] eqn:Hms; pose proof (Hm _ _ _ Hs Hms) as H1.
  - intros Hfa Hr. eapply same_trans; [exact H1|]. eapply Hf; [by apply H1|done|done].
  - by intros [= <- <-].
  - by intros [= <- <-].
Qed.

Lemma atomic_set_ret {A} d (a : A) : atomic (_ ← set_safety_data d; mret a).
Proof using SL.
  intros s s' r Hs. unfold mbind, SM_bind.
  destruct (set_safety_data d s) as [s1 r1] eqn:Hset.
  destruct (set_spec _ _ _ _ Hs Hset) as (Hc & Hsg & Hes & [[-> Hv]|[[e ->] Hv]]).
  - intros [= <- <-] Hr. by destruct (Hr a).
  - by intros [= <- <-].
Qed.

Lemma same_view s s' d : same s s' → view s = Ok d → view s' = Ok d.
Proof using Type. intros (_&->&_). done. Qed.

(** Step through the successful bind at the head of [H : m s = (s', Ok a)]:
    [ok_quiet] for a step known to be quiet, [ok_lift] for a pure one. *)
Ltac ok_lift H :=
  let Hm := fresh "Hm" in
  apply SM_Ok_bind in H as (? & ? & Hm & H); unfold lift in Hm; injection Hm as <- Hm.

(** The same for any outcome: the goal on stopping is left first. *)
Ltac any_lift H :=
  let Hm := fresh "Hm" in
  apply lift_step in H as [[-> H]|(? & Hm & H)].

Lemma verify_proposal_quiet now vp : quiet (verify_proposal now vp).
Proof using Type. unfold verify_proposal. quiet. Qed.

Lemma verify_order_vote_proposal_quiet ovp : quiet (verify_order_vote_proposal ovp).
Proof using Type. unfold verify_order_vote_proposal. quiet. Qed.

Lemma verify_epoch_Ok e d u : verify_epoch e d = Ok u → e = sd_epoch d.
Proof using Type. unfold verify_epoch. destruct (Z.eqb_spec e (sd_epoch d)); naive_solver. Qed.

Lemma verify_qc_Ok qc s u :
  verify_qc qc s = Ok u →
  ∃ es, sr_epoch_state s = Some es ∧ QuorumCert_verify qc (EpochState_verifier es) = Ok tt.
Proof using Type. unfold verify_qc, epoch_state. intros. inv_ok. eauto. Qed.

Lemma verify_maybe_tc_Ok tc s u :
  verify_maybe_tc tc s = Ok u →
  ∀ t, tc = Some t → ∃ es, sr_epoch_state s = Some es ∧
    TwoChainTimeoutCertificate_verify t (EpochState_verifier es) = Ok tt.
Proof using Type. intros H t ->. simpl in H. unfold verify_tc, epoch_state in H. inv_ok. eauto. Qed.

Lemma signer_Ok s sg : signer s = Ok sg ↔ sr_validator_signer s = Some sg.
Proof using Type. apply Ok_ok_or. Qed.

Lemma sign_Ok {T} `{!CryptoHash T} (m : T) s sig :
  sign m s = Ok sig ↔ ∃ sg, sr_validator_signer s = Some sg ∧ signer_sign sg m = Ok sig.
Proof using Type.
  unfold sign. rewrite Ok_bind. by setoid_rewrite signer_Ok; setoid_rewrite Ok_map_err.
Qed.

(** What a proposal that passes verification satisfies. *)
Definition proposal_verified (now : Z) (vp : VoteProposal) (d : SafetyData) (es : EpochState) :
    Prop :=
  let b := vp_block vp in
  block_epoch b = sd_epoch d ∧
  QuorumCert_verify (block_quorum_cert b) (EpochState_verifier es) = Ok tt ∧
  Block_validate_signature b (EpochState_verifier es) = Ok tt ∧
  Block_verify_well_formed now b = Ok tt ∧
  vp_decoupled_execution vp = true.

Lemma verify_proposal_Ok now vp s s' vd :
  coherent s → verify_proposal now vp s = (s', Ok vd) →
  ∃ d es, view s = Ok d ∧ sr_epoch_state s = Some es ∧ proposal_verified now vp d es ∧
    vd = VoteProposal_vote_data_ordering_only vp.
Proof using Type.
  intros Hs H. unfold verify_proposal in H.
  apply SM_Ok_bind in H as (s1 & d & Hg & H).
  pose proof (quiet_get _ _ _ Hs Hg) as (Hc1 & Hv1 & Hsg1 & Hes1).
  pose proof (get_view _ _ _ Hs Hg) as Hv.
  do 5 ok_lift H. unfold lift in H. injection H as <- H.
  apply verify_epoch_Ok in Hm. apply verify_qc_Ok in Hm0 as (es & Hes & Hqc).
  unfold epoch_state in *. unfold VoteProposal_gen_vote_data in *. inv_ok.
  rewrite Hes1 in *. simplify_eq. case_match; simplify_eq.
  repeat match goal with u : unit |- _ => destruct u end.
  exists d, es. unfold proposal_verified. done.
Qed.

(** The safety data after voting for block [b] with the vote [v]. *)
Definition voted (b : Block) (v : Vote) (d : SafetyData) : SafetyData :=
  {| sd_epoch := sd_epoch d;
     sd_last_voted_round := block_round b;
     sd_preferred_round :=
       Z.max (sd_preferred_round d) (BlockInfo_round (qc_parent_block (block_quorum_cert b)));
     sd_one_chain_round := Z.max (sd_one_chain_round d) (qc_round (block_quorum_cert b));
     sd_last_vote := Some v;
     sd_highest_timeout_round := sd_highest_timeout_round d |}.

Lemma gtb_max a b : (if a >? b then a else b) = Z.max b a.
Proof using Type. rewrite Z.gtb_ltb. destruct (Z.ltb_spec b a); lia. Qed.

Lemma sign_new_vote_Ok b vd tc d s s' v :
  coherent s → sign_new_vote b vd tc d s = (s', Ok v) →
  sd_last_voted_round d < block_round b ∧ safe_to_vote b tc = Ok tt ∧
  view s' = Ok (voted b v d) ∧ coherent s' ∧
  sr_validator_signer s' = sr_validator_signer s ∧ sr_epoch_state s' = sr_epoch_state s ∧
  (∃ sg, sr_validator_signer s = Some sg ∧ vote_author v = ValidatorSigner_author sg ∧
     signer_sign sg (vote_ledger_info v) = Ok (vote_signature v)) ∧
  vote_vote_data v = vd ∧
  construct_ledger_info_2chain b (hash vd) = Ok (vote_ledger_info v).
Proof using SL.
  intros Hs H. unfold sign_new_vote in H. do 5 ok_lift H.
  apply SM_Ok_bind in H as (s1 & [] & Hset & H). unfold mret, SM_ret in H. injection H as <- <-.
  destruct (set_spec _ _ _ _ Hs Hset) as (Hc & Hsg & Hes & [[_ Hv]|[[? [=]] _]]).
  unfold verify_and_update_last_vote_round in Hm.
  destruct (Z.leb_spec (block_round b) (sd_last_voted_round d)); simplify_eq. inv_ok.
  rewrite signer_Ok in *. rewrite sign_Ok in *. destruct Hm3 as (sg & Hsg' & Hsign). simplify_eq.
  split_and!; try done; [|by eauto].
  rewrite Hv. unfold voted, set_last_vote, observe_qc; simpl. rewrite !gtb_max. done.
Qed.

Lemma vote_Ok now vp tc s s' v :
  coherent s → guarded_construct_and_sign_vote_two_chain now vp tc s = (s', Ok v) →
  ∃ d es, view s = Ok d ∧ sr_epoch_state s = Some es ∧ proposal_verified now vp d es ∧
    (∀ t, tc = Some t → TwoChainTimeoutCertificate_verify t (EpochState_verifier es) = Ok tt) ∧
    coherent s' ∧ sr_validator_signer s' = sr_validator_signer s ∧
    sr_epoch_state s' = sr_epoch_state s ∧
    ((sd_last_vote d = Some v ∧ vote_round v = block_round (vp_block vp) ∧ view s' = Ok d) ∨
     (sd_last_voted_round d < block_round (vp_block vp) ∧
      safe_to_vote (vp_block vp) tc = Ok tt ∧
      view s' = Ok (voted (vp_block vp) v d) ∧
      (∃ sg, sr_validator_signer s = Some sg ∧ vote_author v = ValidatorSigner_author sg ∧
         signer_sign sg (vote_ledger_info v) = Ok (vote_signature v)) ∧
      vote_vote_data v = VoteProposal_vote_data_ordering_only vp ∧
      construct_ledger_info_2chain (vp_block vp) (hash (vote_vote_data v)) =
        Ok (vote_ledger_info v))).
Proof using SL.
  intros Hs H. unfold guarded_construct_and_sign_vote_two_chain in H. ok_lift H.
  apply SM_Ok_bind in H as (s1 & vd & Hvp & H).
  pose proof (verify_proposal_quiet _ _ _ _ _ Hs Hvp) as (Hc1 & Hv1 & Hsg1 & Hes1).
  destruct (verify_proposal_Ok _ _ _ _ _ Hs Hvp) as (d & es & Hd & Hes & Hpv & ->).
  apply SM_Ok_bind in H as (s2 & [] & Htc & H). unfold lift in Htc. injection Htc as <- Htc.
  apply SM_Ok_bind in H as (s3 & d' & Hg & H).
  pose proof (quiet_get _ _ _ Hc1 Hg) as (Hc2 & Hv2 & Hsg2 & Hes2).
  pose proof (get_view _ _ _ Hc1 Hg) as Hd'. rewrite Hv1, Hd in Hd'. simplify_eq.
  exists d, es. do 3 (split; [done|]). split.
  { intros t Ht. destruct (verify_maybe_tc_Ok _ _ _ Htc t Ht) as (es' & ? & ?). congruence. }
  assert (∀ s', sign_new_vote (vp_block vp) (VoteProposal_vote_data_ordering_only vp) tc d s3 =
            (s', Ok v) → coherent s' ∧ sr_validator_signer s' = sr_validator_signer s ∧
    sr_epoch_state s' = sr_epoch_state s ∧ sd_last_voted_round d < block_round (vp_block vp) ∧
      safe_to_vote (vp_block vp) tc = Ok tt ∧
      view s' = Ok (voted (vp_block vp) v d) ∧
      (∃ sg, sr_validator_signer s = Some sg ∧ vote_author v = ValidatorSigner_author sg ∧
         signer_sign sg (vote_ledger_info v) = Ok (vote_signature v)) ∧
      vote_vote_data v = VoteProposal_vote_data_ordering_only vp ∧
      construct_ledger_info_2chain (vp_block vp) (hash (vote_vote_data v)) =
        Ok (vote_ledger_info v)) as Hnew.
  { intros s4 H4. apply sign_new_vote_Ok in H4 as (?&?&?&?&?&?&(sg&?&?&?)&Hvd&?); [|done].
    rewrite Hvd. split_and!; try done; try congruence. exists sg. split_and!; congruence. }
  destruct (sd_last_vote d) as [v'|] eqn:Hlv;
    [destruct (Z.eqb_spec (vote_round v') (block_round (vp_block vp)))|].
  - unfold mret, SM_ret in H. injection H as <- <-. split_and!; try congruence.
    left. split_and!; congruence.
  - apply Hnew in H as (?&?&?&?). do 3 (split; [done|]). by right.
  - apply Hnew in H as (?&?&?&?). do 3 (split; [done|]). by right.
Qed.

Lemma vote_atomic now vp tc : atomic (guarded_construct_and_sign_vote_two_chain now vp tc).
Proof using SL.
  assert (∀ b vd d, atomic (sign_new_vote b vd tc d)) as Hnew.
  { intros b vd d. unfold sign_new_vote.
    repeat (apply atomic_bind; [apply quiet_lift|intros ?]). apply atomic_set_ret. }
  unfold guarded_construct_and_sign_vote_two_chain.
  apply atomic_bind; [apply quiet_lift|intros _].
  apply atomic_bind; [apply verify_proposal_quiet|intros vd].
  apply atomic_bind; [apply quiet_lift|intros _].
  apply atomic_bind; [apply quiet_get|intros d].
  repeat case_match; auto using quiet_atomic, quiet_ret.
Qed.

(** The safety data after observing a certificate. *)
Definition observed (qc : QuorumCert) (d : SafetyData) : SafetyData :=
  {| sd_epoch := sd_epoch d;
     sd_last_voted_round := sd_last_voted_round d;
     sd_preferred_round := Z.max (sd_preferred_round d) (BlockInfo_round (qc_parent_block qc));
     sd_one_chain_round := Z.max (sd_one_chain_round d) (qc_round qc);
     sd_last_vote := sd_last_vote d;
     sd_highest_timeout_round := sd_highest_timeout_round d |}.

Lemma observe_qc_observed qc d : (observe_qc qc d).1 = observed qc d.
Proof using Type. unfold observe_qc, observed; simpl. rewrite !gtb_max. done. Qed.

Lemma order_vote_Ok ovp s s' o :
  coherent s → guarded_construct_and_sign_order_vote ovp s = (s', Ok o) →
  ∃ d es, view s = Ok d ∧ sr_epoch_state s = Some es ∧
    block_epoch (ovp_block ovp) = sd_epoch d ∧
    qc_certified_block (ovp_quorum_cert ovp) = ovp_block_info ovp ∧
    BlockInfo_id (ovp_block_info ovp) = block_id (ovp_block ovp) ∧
    QuorumCert_verify (ovp_quorum_cert ovp) (EpochState_verifier es) = Ok tt ∧
    sd_highest_timeout_round d < block_round (ovp_block ovp) ∧
    coherent s' ∧ sr_validator_signer s' = sr_validator_signer s ∧
    sr_epoch_state s' = sr_epoch_state s ∧
    view s' = Ok (observed (ovp_quorum_cert ovp) d) ∧
    (∃ sg, sr_validator_signer s = Some sg ∧ ov_author o = ValidatorSigner_author sg ∧
       signer_sign sg (ov_ledger_info o) = Ok (ov_signature o)) ∧
    ov_ledger_info o = LedgerInfo_new (ovp_block_info ovp) HashValue_zero.
Proof using SL.
  intros Hs H. unfold guarded_construct_and_sign_order_vote in H. ok_lift H.
  apply SM_Ok_bind in H as (s1 & [] & Hvp & H).
  pose proof (verify_order_vote_proposal_quiet _ _ _ _ Hs Hvp) as (Hc1 & Hv1 & Hsg1 & Hes1).
  apply SM_Ok_bind in H as (s2 & d & Hg & H).
  pose proof (quiet_get _ _ _ Hc1 Hg) as (Hc2 & Hv2 & Hsg2 & Hes2).
  pose proof (get_view _ _ _ Hc1 Hg) as Hd. do 3 ok_lift H.
  apply SM_Ok_bind in H as (s3 & [] & Hset & H). unfold mret, SM_ret in H. injection H as <- <-.
  rewrite observe_qc_observed in *.
  destruct (set_spec _ _ _ _ Hc2 Hset) as (Hc & Hsg & Hes & [[_ Hv]|[[? [=]] _]]).
  unfold verify_order_vote_proposal in Hvp.
  apply SM_Ok_bind in Hvp as (s4 & d4 & Hg4 & Hvp).
  pose proof (quiet_get _ _ _ Hs Hg4) as (Hc4 & Hv4 & Hsg4 & Hes4).
  pose proof (get_view _ _ _ Hs Hg4) as Hd4. do 3 ok_lift Hvp.
  unfold lift in Hvp. injection Hvp as <- Hqc.
  apply verify_qc_Ok in Hqc as (es & He & Hqc). rewrite Hes4 in He. inv_ok.
  apply verify_epoch_Ok in Hm3. unfold safe_for_order_vote in Hm0. simpl in Hm0.
  rewrite Z.gtb_ltb in Hm0.
  destruct (Z.ltb_spec (sd_highest_timeout_round d) (block_round (ovp_block ovp))); [|done].
  rewrite signer_Ok in *. rewrite sign_Ok in *. destruct Hm2 as (sg & Hsg' & Hsign).
  assert (d4 = d) as -> by congruence.
  exists d, es. split_and!; try done; try congruence.
  exists sg. simpl. split_and!; congruence.
Qed.

Lemma order_vote_atomic ovp : atomic (guarded_construct_and_sign_order_vote ovp).
Proof using SL.
  unfold guarded_construct_and_sign_order_vote.
  apply atomic_bind; [apply quiet_lift|intros _].
  apply atomic_bind; [apply verify_order_vote_proposal_quiet|intros _].
  apply atomic_bind; [apply quiet_get|intros d]. simpl.
  repeat (apply atomic_bind; [apply quiet_lift|intros ?]). apply atomic_set_ret.
Qed.

(** The safety data after timing out. *)
Definition timed_out (t : TwoChainTimeout) (d : SafetyData) : SafetyData :=
  {| sd_epoch := sd_epoch d;
     sd_last_voted_round := Z.max (sd_last_voted_round d) (timeout_round t);
     sd_preferred_round := sd_preferred_round d;
     sd_one_chain_round := sd_one_chain_round d;
     sd_last_vote := sd_last_vote d;
     sd_highest_timeout_round := Z.max (sd_highest_timeout_round d) (timeout_round t) |}.

Lemma update_timed_out t d d' :
  (if timeout_round t >? sd_last_voted_round d
   then verify_and_update_last_vote_round (timeout_round t) d else Ok d) = Ok d' →
  sd_last_voted_round d ≤ timeout_round t →
  update_highest_timeout_round t d' = timed_out t d.
Proof using Type.
  unfold update_highest_timeout_round, verify_and_update_last_vote_round, timed_out.
  rewrite Z.gtb_ltb. intros H Hle. destruct d as [e lv pr oc lvo ht]; simpl in *.
  destruct (Z.ltb_spec lv (timeout_round t)); [destruct (Z.leb_spec (timeout_round t) lv)|];
    simplify_eq/=; rewrite Z.gtb_ltb;
    destruct (Z.ltb_spec ht (timeout_round t)); f_equal; lia.
Qed.

(** Timing out, on every outcome: the state is the same, or the timeout was
    verified and allowed by the rules, and the safety data was updated. *)
Lemma timeout_spec t tc s s' r :
  coherent s → guarded_sign_timeout_with_qc t tc s = (s', r) →
  (same s s' ∧ ∀ sig, r ≠ Ok sig) ∨
  ∃ d es, view s = Ok d ∧ sr_epoch_state s = Some es ∧
    timeout_epoch t = sd_epoch d ∧
    TwoChainTimeout_verify t (EpochState_verifier es) = Ok tt ∧
    (∀ c, tc = Some c → TwoChainTimeoutCertificate_verify c (EpochState_verifier es) = Ok tt) ∧
    safe_to_timeout t tc d = Ok tt ∧ sd_last_voted_round d ≤ timeout_round t ∧
    coherent s' ∧ sr_validator_signer s' = sr_validator_signer s ∧
    sr_epoch_state s' = sr_epoch_state s ∧ view s' = Ok (timed_out t d) ∧
    ∀ sig, r = Ok sig → ∃ sg, sr_validator_signer s = Some sg ∧
      signer_sign sg (TwoChainTimeout_signing_format t) = Ok sig.
Proof using SL.
  intros Hs H. unfold guarded_sign_timeout_with_qc in H.
  any_lift H; [by left|].
  apply quiet_step in H as [?|(s1 & d & Hg & Hs1 & H)]; [by left| |apply quiet_get|done].
  pose proof (get_view _ _ _ Hs Hg) as Hd. symmetry in Hd.
  pose proof Hs1 as (Hc1 & Hv1 & Hsg1 & Hes1).
  do 7 (any_lift H; [by left|]). rename x5 into d'.
  apply verify_epoch_Ok in Hm0. unfold epoch_state in Hm1. inv_ok.
  pose proof (verify_maybe_tc_Ok _ _ _ Hm3) as Htc.
  unfold mbind, SM_bind in H. destruct (set_safety_data _ s1) as [s2 r2] eqn:Hset.
  destruct (set_spec _ _ _ _ Hc1 Hset) as (Hc & Hsg & Hes & [[-> Hv]|[[e ->] Hv]]).
  2: { left. simplify_eq. unfold same. split_and!; [done| |..|done]; congruence. }
  right. unfold lift in H. injection H as <- <-.
  rewrite (update_timed_out _ _ _ Hm6) in Hv by lia. rewrite Hes1 in *.
  exists d, x1. split_and!; try done; try congruence.
  - intros c Hc'. destruct (Htc c Hc') as (es' & ? & ?). congruence.
  - intros sig (sg & ? & ?)%sign_Ok. exists sg. split; congruence.
Qed.

Lemma sign_proposal_quiet bd : quiet (guarded_sign_proposal bd).
Proof using Type. unfold guarded_sign_proposal. quiet. Qed.

Lemma commit_vote_quiet li new : quiet (guarded_sign_commit_vote li new).
Proof using Type. unfold guarded_sign_commit_vote. quiet. Qed.

Lemma commit_vote_Ok li new s s' sig :
  guarded_sign_commit_vote li new s = (s', Ok sig) →
  let old_info := LedgerInfo_commit_info (LedgerInfoWithSignatures_ledger_info li) in
  let new_info := LedgerInfo_commit_info new in
  s' = s ∧ BlockInfo_match_ordered_only old_info new_info = true ∧
  (BlockInfo_is_ordered_only old_info = true ∨ old_info = new_info) ∧
  ∃ es, sr_epoch_state s = Some es ∧
    LedgerInfoWithSignatures_verify_signatures li (EpochState_verifier es) = Ok tt.
Proof using Type.
  unfold guarded_sign_commit_vote. intros H. do 5 ok_lift H. unfold lift in H.
  injection H as <- H. unfold epoch_state in *. inv_ok. split_and!; [done..| |by eauto].
  match goal with H : _ ∨ _ |- _ => destruct H; bool_to_prop; [by left|right; by apply dec_stable] end.
Qed.

Lemma consensus_state_quiet : quiet guarded_consensus_state.
Proof using Type. unfold guarded_consensus_state. quiet. Qed.

Lemma set_waypoint_quiet w : quiet (on_storage (PersistentSafetyStorage_set_waypoint w)).
Proof using SL.
  intros s s' r [He Hc]. unfold on_storage, PersistentSafetyStorage_set_waypoint.
  pose proof (get_set_waypoint w (ps_internal_store (sr_persistent_storage s))) as Hw.
  destruct (storage_set_waypoint _ _) as [st r'] eqn:Hst. intros [= <- <-].
  unfold same, coherent, view in *; simpl in *. rewrite Hw. done.
Qed.

(** Reconciling the key changes the signer only. *)
Lemma reconcile_key_spec es s s' r :
  coherent s → reconcile_key es s = (s', r) →
  coherent s' ∧ view s' = view s ∧ sr_epoch_state s' = sr_epoch_state s ∧
  (sr_validator_signer s' = sr_validator_signer s ∨ sr_validator_signer s' = None ∨
   ∃ author key, PersistentSafetyStorage_author (sr_persistent_storage s) = Ok author ∧
     ValidatorVerifier_get_public_key (EpochState_verifier es) author =
       Some (PrivateKey_public_key key) ∧
     sr_validator_signer s' = Some (ValidatorSigner_new author key)).
Proof using Type.
  intros Hs. unfold reconcile_key.
  assert (∀ s', s' = s ∨ s' = set_signer None s →
    coherent s' ∧ view s' = view s ∧ sr_epoch_state s' = sr_epoch_state s ∧
    (sr_validator_signer s' = sr_validator_signer s ∨ sr_validator_signer s' = None)) as Hno.
  { intros ? [-> | ->]; (split; [exact Hs|]); split_and!; simpl; auto. }
  destruct (PersistentSafetyStorage_author _) as [author|e|] eqn:Ha;
    [|by intros [= <- <-]; edestruct Hno as (?&?&?&[?|?]); eauto 10..].
  destruct (ValidatorVerifier_get_public_key _ _) as [pk|] eqn:Hpk;
    [|by intros [= <- <-]; edestruct Hno as (?&?&?&[?|?]); eauto 10].
  case_bool_decide; [by intros [= <- <-]; edestruct Hno as (?&?&?&[?|?]); eauto 10|].
  destruct (consensus_sk_by_pk _ _) as [key|e|] eqn:Hk;
    [|by case_match; intros [= <- <-]; edestruct Hno as (?&?&?&[?|?]); eauto 10|
      by intros [= <- <-]; edestruct Hno as (?&?&?&[?|?]); eauto 10].
  intros [= <- <-]. split_and!; try done. right; right. exists author, key. split_and!; try done.
  unfold consensus_sk_by_pk in Hk. inv_ok. case_bool_decide; simplify_eq. done.
Qed.

(** The epoch state an epoch change proof leads to from a waypoint. *)
Definition proof_leads_to (proof : EpochChangeProof) (waypoint : Waypoint) (es : EpochState) :
    Prop :=
  ∃ last_li, EpochChangeProof_verify proof waypoint = Ok last_li ∧
    LedgerInfo_next_epoch_state (LedgerInfoWithSignatures_ledger_info last_li) = Some es.

Lemma enter_epoch_spec es s s' r :
  ((λ self, (set_epoch_state (Some es) self, Ok tt)) ≫= (λ _ : unit, reconcile_key es)) s = (s', r) →
  coherent s →
  coherent s' ∧ sr_epoch_state s' = Some es ∧ view s' = view s.
Proof using Type.
  unfold mbind, SM_bind. intros H Hs.
  apply reconcile_key_spec in H as (?&?&?&_); [done|exact Hs].
Qed.

(** Initialising, on every outcome: nothing but the waypoint changes, or the
    epoch state is the one the proof leads to and the safety data belongs to
    that epoch, fresh if the epoch is new. *)
Lemma initialize_spec proof s s' r :
  coherent s → guarded_initialize proof s = (s', r) →
  same s s' ∨
  ∃ waypoint es d, PersistentSafetyStorage_waypoint (sr_persistent_storage s) = Ok waypoint ∧
    proof_leads_to proof waypoint es ∧ view s = Ok d ∧
    coherent s' ∧ sr_epoch_state s' = Some es ∧
    ((sd_epoch d = EpochState_epoch es ∧ view s' = Ok d) ∨
     (sd_epoch d < EpochState_epoch es ∧
      view s' = Ok (SafetyData_new (EpochState_epoch es) 0 0 0 None 0))).
Proof using SL.
  intros Hs H. unfold guarded_initialize in H.
  do 4 (any_lift H; [by left|]). rename x into w, x0 into last_li, x1 into es. inv_ok.
  assert (proof_leads_to proof w es) as Hlead by (by exists last_li).
  apply quiet_step in H as [[? _]|(s1 & [] & Hw & Hs1 & H)]; [by left| | |done].
  2: { case_match; [apply set_waypoint_quiet|apply quiet_ret]. }
  apply quiet_step in H as [[? _]|(s2 & d & Hg & Hs2 & H)];
    [by left; eapply same_trans| |apply quiet_get|by apply Hs1].
  assert (view s = Ok d) as Hd.
  { apply get_view in Hg; [|by apply Hs1]. destruct Hs1 as (_ & <- & _). done. }
  assert (same s s2) as (Hc2 & Hv2 & Hsg2 & Hes2) by by eapply same_trans.
  destruct (Z.compare_spec (sd_epoch d) (EpochState_epoch es)) as [Heq|Hlt|Hgt].
  - apply enter_epoch_spec in H as (?&?&?); [|done]. right. exists w, es, d.
    do 5 (split; [done|]). left. split; [done|congruence].
  - unfold mbind at 1, SM_bind at 1 in H.
    destruct (set_safety_data _ s2) as [s3 r3] eqn:Hset.
    destruct (set_spec _ _ _ _ Hc2 Hset) as (Hc & Hsg & Hes & [[-> Hv]|[[e ->] Hv]]).
    + apply enter_epoch_spec in H as (?&?&?); [|done]. right. exists w, es, d.
      do 5 (split; [done|]). right. split; [done|congruence].
    + injection H as <- <-. left. unfold same. split_and!; [done|congruence..].
  - any_lift H; [by left|done].
Qed.

(** With the cache disabled, safety data that was just written cannot be
    read back: [safety_data] decodes the stored value as a [Result], which
    fails, so every request to vote is refused. *)
Theorem uncached_safety_data_unreadable (d : SafetyData) (s s1 : SafetyRules) :
  ps_enable_cached_safety_data (sr_persistent_storage s) = false →
  set_safety_data d s = (s1, Ok tt) →
  ∃ msg, get_safety_data s1 = (s1, Err (SecureStorageUnexpectedError msg)) ∧
    ∀ now vp tc v, (guarded_construct_and_sign_vote_two_chain now vp tc s1).2 ≠ Ok v.
Proof using SL.
  intros He. unfold set_safety_data, on_storage, PersistentSafetyStorage_set_safety_data.
  destruct (storage_set_safety_data _ _) as [st [[]|e|]] eqn:Hst; intros [= <-].
  destruct (get_result_set_safety_data _ _ _ _ Hst) as [msg Hget]. exists msg.
  assert (get_safety_data (set_storage (ps_set (Some d) st (sr_persistent_storage s)) s) =
    (set_storage (ps_set (Some d) st (sr_persistent_storage s)) s,
     Err (SecureStorageUnexpectedError msg))) as Hg.
  { unfold get_safety_data, on_storage, PersistentSafetyStorage_safety_data; simpl.
    rewrite He; simpl. rewrite Hget. done. }
  split; [done|]. intros now vp tc v.
  destruct (guarded_construct_and_sign_vote_two_chain _ _ _ _) as [s2 r] eqn:Hv.
  simpl. intros ->. unfold guarded_construct_and_sign_vote_two_chain in Hv. ok_lift Hv.
  apply SM_Ok_bind in Hv as (? & ? & Hvp & _). unfold verify_proposal in Hvp.
  apply SM_Ok_bind in Hvp as (? & ? & Hg' & _). congruence.
Qed.
End safety_rules_facts.
