(* ===== verification/NodeSafety.v ===== *)
(** One validator over time: safety-rules/src/serializer.rs and the guarantees
    the safety rules give across any sequence of requests and restarts.

    [handle_message] dispatches a request to the safety rules, [serve] also
    covers a restart of the process from its storage, and [run] a sequence of
    these.  The events of a run are the messages the validator signed. *)
From S2P Require Import Prelude Laptos Payload Certificates Block Votes SafetyRules.

Section node.
Context `{L : Laptos} `{!CryptoHash VoteData, !CryptoHash TimeoutSigningRepr}.
Context `{!CryptoHash LedgerInfo, !CryptoHash BlockData}.
Context `{ST : !SecureStorage}.

(** ** serializer.rs *)

Inductive SafetyRulesInput : Type :=
| ConsensusState_
| Initialize (proof : EpochChangeProof)
| SignProposal (block_data : BlockData)
| SignTimeoutWithQC (timeout : TwoChainTimeout) (maybe_tc : option TwoChainTimeoutCertificate)
| ConstructAndSignVoteTwoChain (vote_proposal : VoteProposal)
    (maybe_tc : option TwoChainTimeoutCertificate)
| ConstructAndSignOrderVote (order_vote_proposal : OrderVoteProposal)
| SignCommitVote (ledger_info : LedgerInfoWithSignatures) (new_ledger_info : LedgerInfo).

(** The response to a request, before it is encoded. *)
Inductive SafetyRulesOutput : Type :=
| OutConsensusState (r : result Error ConsensusState)
| OutInitialize (r : result Error unit)
| OutSignature (r : result Error Signature)
| OutVote (r : result Error Vote)
| OutOrderVote (r : result Error OrderVote).

(** [now] is the clock read while verifying a proposal. *)
Definition handle_message (now : Z) (input : SafetyRulesInput) (self : SafetyRules) :
    SafetyRules * SafetyRulesOutput :=
  match input with
  | ConsensusState_ =>
      let '(self, r) := guarded_consensus_state self in (self, OutConsensusState r)
  | Initialize li => let '(self, r) := guarded_initialize li self in (self, OutInitialize r)
  | SignProposal block_data =>
      let '(self, r) := guarded_sign_proposal block_data self in (self, OutSignature r)
  | SignTimeoutWithQC timeout maybe_tc =>
      let '(self, r) := guarded_sign_timeout_with_qc timeout maybe_tc self in
      (self, OutSignature r)
  | ConstructAndSignVoteTwoChain vote_proposal maybe_tc =>
      let '(self, r) :=
        guarded_construct_and_sign_vote_two_chain now vote_proposal maybe_tc self in
      (self, OutVote r)
  | ConstructAndSignOrderVote order_vote_proposal =>
      let '(self, r) := guarded_construct_and_sign_order_vote order_vote_proposal self in
      (self, OutOrderVote r)
  | SignCommitVote ledger_info new_ledger_info =>
      let '(self, r) := guarded_sign_commit_vote ledger_info new_ledger_info self in
      (self, OutSignature r)
  end.

(** ** Runs *)

(** What a validator has signed, as far as agreement is concerned. *)
Inductive Event : Type :=
| VoteEv (v : Vote)
| TimeoutEv (t : TimeoutSigningRepr)
| OrderEv (o : OrderVote)
| CommitEv (li : LedgerInfo).

(** A request at a time, or a restart of the process from its storage. *)
Inductive Op : Type :=
| Request (now : Z) (input : SafetyRulesInput)
| Restart.

Definition signed_event (input : SafetyRulesInput) (out : SafetyRulesOutput) : option Event :=
  match input, out with
  | ConstructAndSignVoteTwoChain _ _, OutVote (Ok v) => Some (VoteEv v)
  | SignTimeoutWithQC t _, OutSignature (Ok _) =>
      Some (TimeoutEv (TwoChainTimeout_signing_format t))
  | ConstructAndSignOrderVote _, OutOrderVote (Ok o) => Some (OrderEv o)
  | SignCommitVote _ li, OutSignature (Ok _) => Some (CommitEv li)
  | _, _ => None
  end.

Definition restart (s : SafetyRules) : SafetyRules :=
  SafetyRules_new
    (PersistentSafetyStorage_new (ps_internal_store (sr_persistent_storage s)) true).

Definition serve (op : Op) (s : SafetyRules) : SafetyRules * option Event :=
  match op with
  | Request now input =>
      let '(s', out) := handle_message now input s in (s', signed_event input out)
  | Restart => (restart s, None)
  end.

(** The state after a run, and its events, the latest first. *)
Fixpoint run (ops : list Op) (s : SafetyRules) (log : list Event) : SafetyRules * list Event :=
  match ops with
  | [] => (s, log)
  | op :: ops => let '(s', ev) := serve op s in run ops s' (option_list ev ++ log)
  end.

(** The block info in a request for an order vote is the one of its block, as
    [PipelinedBlock::order_vote_proposal] makes it. *)
Definition op_wf (op : Op) : Prop :=
  match op with
  | Request _ (ConstructAndSignOrderVote ovp) =>
      BlockInfo_epoch (ovp_block_info ovp) = block_epoch (ovp_block ovp) ∧
      BlockInfo_round (ovp_block_info ovp) = block_round (ovp_block ovp)
  | _ => True
  end.

Definition vote_parent_round (v : Vote) : Z := BlockInfo_round (vd_parent (vote_vote_data v)).
Definition ov_block (o : OrderVote) : BlockInfo := LedgerInfo_commit_info (ov_ledger_info o).

(** Safety data only moves forward: to a later epoch, or within an epoch to
    rounds at least as high. *)
Definition advance (d d' : SafetyData) : Prop :=
  sd_epoch d < sd_epoch d' ∨
  sd_epoch d = sd_epoch d' ∧
  sd_last_voted_round d ≤ sd_last_voted_round d' ∧
  sd_preferred_round d ≤ sd_preferred_round d' ∧
  sd_one_chain_round d ≤ sd_one_chain_round d' ∧
  sd_highest_timeout_round d ≤ sd_highest_timeout_round d'.

(** The safety data covers an event. *)
Definition covers (d : SafetyData) (ev : Event) : Prop :=
  match ev with
  | VoteEv v =>
      vote_epoch v ≤ sd_epoch d ∧
      (vote_epoch v = sd_epoch d →
       vote_round v ≤ sd_last_voted_round d ∧ vote_parent_round v ≤ sd_one_chain_round d)
  | TimeoutEv t =>
      tsr_epoch t ≤ sd_epoch d ∧
      (tsr_epoch t = sd_epoch d →
       tsr_round t ≤ sd_last_voted_round d ∧ tsr_round t ≤ sd_highest_timeout_round d)
  | OrderEv o =>
      BlockInfo_epoch (ov_block o) ≤ sd_epoch d ∧
      (BlockInfo_epoch (ov_block o) = sd_epoch d →
       BlockInfo_round (ov_block o) ≤ sd_one_chain_round d)
  | CommitEv _ => True
  end.

(** Two events one validator may both sign: one vote per round, and no timeout
    that hides a block the validator voted on top of, or voted to order. *)
Definition compatible (e1 e2 : Event) : Prop :=
  match e1, e2 with
  | VoteEv v1, VoteEv v2 =>
      vote_epoch v1 = vote_epoch v2 → vote_round v1 = vote_round v2 → v1 = v2
  | VoteEv v, TimeoutEv t | TimeoutEv t, VoteEv v =>
      vote_epoch v = tsr_epoch t → vote_round v ≤ tsr_round t →
      vote_parent_round v ≤ tsr_hqc_round t
  | OrderEv o, TimeoutEv t | TimeoutEv t, OrderEv o =>
      BlockInfo_epoch (ov_block o) = tsr_epoch t →
      BlockInfo_round (ov_block o) ≤ tsr_round t →
      BlockInfo_round (ov_block o) ≤ tsr_hqc_round t
  | _, _ => True
  end.

Definition compatible_log (log : list Event) : Prop :=
  ∀ e1 e2, e1 ∈ log → e2 ∈ log → compatible e1 e2.

Definition node_inv (s : SafetyRules) (log : list Event) : Prop :=
  coherent s ∧ compatible_log log ∧
  ∀ d, view s = Ok d →
    (∀ ev, ev ∈ log → covers d ev) ∧
    (∀ v, sd_last_vote d = Some v → VoteEv v ∈ log) ∧
    (∀ es, sr_epoch_state s = Some es → EpochState_epoch es = sd_epoch d).
End node.

Section node_facts.
Context `{L : Laptos} `{LL : !LaptosLaws L}.
Context `{!CryptoHash VoteData, !CryptoHash TimeoutSigningRepr}.
Context `{!CryptoHash LedgerInfo, !CryptoHash BlockData}.
Context `{ST : !SecureStorage} `{SL : !StorageLaws ST}.

Lemma advance_refl d : advance d d.
Proof using Type. right. lia. Qed.

Lemma advance_trans d1 d2 d3 : advance d1 d2 → advance d2 d3 → advance d1 d3.
Proof using Type. unfold advance. lia. Qed.

Lemma covers_advance d d' ev : advance d d' → covers d ev → covers d' ev.
Proof using Type. unfold advance, covers. destruct ev; lia. Qed.

Lemma compatible_sym e1 e2 : compatible e1 e2 → compatible e2 e1.
Proof using Type. destruct e1, e2; simpl; auto. intros H ??. symmetry. by apply H. Qed.

Lemma compatible_log_cons ev log :
  compatible_log log → (∀ ev', ev' ∈ log → compatible ev ev') → compatible ev ev →
  compatible_log (ev :: log).
Proof using Type.
  intros Hlog Hev Hself e1 e2 [->|H1]%elem_of_cons [->|H2]%elem_of_cons; auto.
  apply compatible_sym. auto.
Qed.

Lemma advance_voted b v d : sd_last_voted_round d < block_round b → advance d (voted b v d).
Proof using Type. unfold advance, voted; simpl. lia. Qed.

Lemma advance_observed qc d : advance d (observed qc d).
Proof using Type. unfold advance, observed; simpl. lia. Qed.

Lemma advance_timed_out t d : advance d (timed_out t d).
Proof using Type. unfold advance, timed_out; simpl. lia. Qed.

(** A step that leaves the safety data, with or without an event that needs no
    cover. *)
Lemma node_inv_same s s' log : node_inv s log → same s s' → node_inv s' log.
Proof using Type.
  intros (Hc & Hl & Hd) (Hc' & Hv & Hsg & Hes). unfold node_inv. rewrite Hv, Hes. done.
Qed.

Lemma node_inv_event s log ev :
  node_inv s log → compatible_log (ev :: log) → (∀ d, view s = Ok d → covers d ev) →
  node_inv s (ev :: log).
Proof using Type.
  intros (Hc & Hl & Hd) Hev Hcov. split_and!; [done..|]. intros d Hv.
  destruct (Hd d Hv) as (H1 & H2 & H3). split_and!; [|by intros v ?; apply elem_of_cons; auto|done].
  intros e [->|?]%elem_of_cons; auto.
Qed.

(** A step that moves the safety data forward within the epoch. *)
Lemma node_inv_advance s s' log ev d d' :
  node_inv s log → view s = Ok d → coherent s' → view s' = Ok d' →
  sr_epoch_state s' = sr_epoch_state s → sd_epoch d' = sd_epoch d → advance d d' →
  (∀ v, sd_last_vote d' = Some v → sd_last_vote d = Some v ∨ ev = Some (VoteEv v)) →
  (∀ e, ev = Some e → covers d' e ∧ compatible e e ∧ ∀ e', covers d e' → compatible e e') →
  node_inv s' (option_list ev ++ log).
Proof using Type.
  intros (Hc & Hl & Hd) Hv Hc' Hv' Hes Hep Hadv Hlv Hev.
  destruct (Hd d Hv) as (Hcov & Hlast & Hst). unfold node_inv. split; [done|]. split.
  - destruct ev as [e|]; simpl; [|done].
    destruct (Hev e eq_refl) as (_ & Hself & Hcomp). apply compatible_log_cons; auto.
  - intros d0 Hd0. rewrite Hv' in Hd0. injection Hd0 as <-. split_and!.
    + intros e [->%elem_of_option_list|He]%elem_of_app; [by apply Hev|].
      eapply covers_advance; eauto.
    + intros v Hlv'. apply elem_of_app. destruct (Hlv v Hlv') as [?| ->]; [auto|].
      left. by apply elem_of_option_list.
    + intros es Hes'. rewrite Hes in Hes'. rewrite Hep. auto.
Qed.

Lemma vote_step now vp tc s s' r log :
  node_inv s log → guarded_construct_and_sign_vote_two_chain now vp tc s = (s', r) →
  node_inv s' (option_list (signed_event (ConstructAndSignVoteTwoChain vp tc) (OutVote r)) ++ log).
Proof using LL SL.
  intros Hinv H. pose proof Hinv as (Hc & Hl & Hd). destruct r as [v|e|]; simpl.
  2,3: eapply node_inv_same; [done|]; by eapply vote_atomic.
  destruct (vote_Ok _ _ _ _ _ _ Hc H) as (d & es & Hv & Hes & Hpv & Htc & Hc' & Hsg' & Hes' &
    [(Hlv & Hr & Hv')|(Hlt & Hsafe & Hv' & _ & Hvd & _)]).
  - apply node_inv_event.
    + eapply node_inv_same; [done|]. split_and!; congruence.
    + destruct (Hd d Hv) as (_ & Hlast & _). intros e1 e2.
      rewrite !elem_of_cons. intros H1 H2. apply Hl; naive_solver.
    + intros d0. rewrite Hv'. intros [= <-]. destruct (Hd d Hv) as (Hcov & Hlast & _). auto.
  - destruct Hpv as (Hep & Hqc & _). eapply (node_inv_advance _ _ _ (Some (VoteEv v)));
      try done; [by apply advance_voted|simpl; naive_solver|].
    intros e [= <-].
    assert (vote_epoch v = sd_epoch d ∧ vote_round v = block_round (vp_block vp) ∧
      vote_parent_round v = qc_round (block_quorum_cert (vp_block vp))) as (He & Hr & Hp).
    { unfold vote_epoch, vote_round, vote_parent_round. rewrite Hvd. simpl.
      unfold Block_gen_block_info. autorewrite with liquent. done. }
    split_and!; [simpl; lia|done|].
    intros [v'|t|o|li]; simpl; [|lia|done|done]. intros. exfalso. lia.
Qed.

Lemma safe_to_timeout_Ok t tc d u :
  safe_to_timeout t tc d = Ok u → sd_one_chain_round d ≤ timeout_hqc_round t.
Proof using Type.
  unfold safe_to_timeout. intros H. apply Ok_bind in H as (? & _ & H).
  apply Ok_bind in H as (c & _ & H). case_match; [|done]. bool_to_prop. done.
Qed.

Lemma timeout_step t tc s s' r log :
  node_inv s log → guarded_sign_timeout_with_qc t tc s = (s', r) →
  node_inv s' (option_list (signed_event (SignTimeoutWithQC t tc) (OutSignature r)) ++ log).
Proof using SL.
  intros Hinv H. pose proof Hinv as (Hc & Hl & Hd).
  destruct (timeout_spec _ _ _ _ _ Hc H) as [[Hsame Hr]|(d & es & Hv & Hes & Hep & Ht & Htc &
    Hsafe & Hle & Hc' & Hsg' & Hes' & Hv' & _)].
  { destruct r as [sig| |]; [by destruct (Hr sig)|by eapply node_inv_same..]. }
  apply safe_to_timeout_Ok in Hsafe.
  eapply node_inv_advance; try done; [by apply advance_timed_out|by auto|].
  intros e He. destruct r; simplify_eq/=. split_and!; [simpl; lia..|done|].
  intros [v|t'|o|li]; simpl; lia.
Qed.

Lemma order_vote_step ovp s s' r log :
  BlockInfo_epoch (ovp_block_info ovp) = block_epoch (ovp_block ovp) →
  BlockInfo_round (ovp_block_info ovp) = block_round (ovp_block ovp) →
  node_inv s log → guarded_construct_and_sign_order_vote ovp s = (s', r) →
  node_inv s' (option_list (signed_event (ConstructAndSignOrderVote ovp) (OutOrderVote r)) ++ log).
Proof using LL SL.
  intros Hbe Hbr Hinv H. pose proof Hinv as (Hc & Hl & Hd). destruct r as [o|e|]; simpl.
  2,3: eapply node_inv_same; [done|]; by eapply order_vote_atomic.
  destruct (order_vote_Ok _ _ _ _ Hc H) as (d & es & Hv & Hes & Hep & Hcert & Hid & Hqc & Hlt & Hc' &
    Hsg' & Hes' & Hv' & _ & Hli).
  eapply (node_inv_advance _ _ _ (Some (OrderEv o))); try done;
    [by apply advance_observed|by auto|].
  assert (ov_block o = ovp_block_info ovp) as Hb.
  { unfold ov_block. rewrite Hli. by autorewrite with liquent. }
  intros e [= <-]. unfold covers, compatible. rewrite Hb. split_and!; [simpl; lia| |done|].
  - intros _. simpl. unfold qc_round. rewrite Hcert. lia.
  - intros [v|t|o'|li]; simpl; try done. lia.
Qed.

Lemma initialize_step proof s s' r log :
  node_inv s log → guarded_initialize proof s = (s', r) → node_inv s' log.
Proof using SL.
  intros Hinv H. pose proof Hinv as (Hc & Hl & Hd).
  destruct (initialize_spec _ _ _ _ Hc H) as [?|(w & es & d & _ & _ & Hv & Hc' & Hes &
    [[Hep Hv']|[Hep Hv']])]; [by eapply node_inv_same|..];
    destruct (Hd d Hv) as (Hcov & Hlast & _); (do 2 (split; [done|])); rewrite Hv', Hes;
    intros d' [= <-].
  - split_and!; [done..|congruence].
  - split_and!; [|done|simpl; congruence].
    intros ev Hev. apply (covers_advance d); [|auto]. left. done.
Qed.

Lemma restart_step s log : node_inv s log → node_inv (restart s) log.
Proof using Type.
  intros (Hc & Hl & Hd). split; [done|]. split; [done|]. intros d Hv.
  change (view s = Ok d) in Hv. destruct (Hd d Hv) as (?&?&?). done.
Qed.

Lemma commit_vote_step li new s s' r log :
  node_inv s log → guarded_sign_commit_vote li new s = (s', r) →
  node_inv s' (option_list (signed_event (SignCommitVote li new) (OutSignature r)) ++ log).
Proof using Type.
  intros Hinv H. assert (node_inv s' log) as Hinv'.
  { eapply node_inv_same; [done|]. eapply commit_vote_quiet; [apply Hinv|done]. }
  destruct r as [sig|e|]; simpl; [|done..]. apply node_inv_event; [done| |done].
  apply compatible_log_cons; [apply Hinv'| |done]. by intros [] _.
Qed.

(** Every step preserves the invariant. *)
Lemma serve_inv op s s' ev log :
  op_wf op → node_inv s log → serve op s = (s', ev) → node_inv s' (option_list ev ++ log).
Proof using LL SL.
  intros Hwf Hinv H. destruct op as [now input|]; simpl in H.
  2: { injection H as <- <-. by apply restart_step. }
  destruct input as [|proof|bd|t tc|vp tc|ovp|li new]; simpl in H;
    (match type of H with context [let '(_, _) := ?m s in _] =>
       destruct (m s) as [s1 r] eqn:Hr end; injection H as <- <-).
  - eapply node_inv_same; [done|]. by eapply consensus_state_quiet; [apply Hinv|].
  - by eapply initialize_step.
  - eapply node_inv_same; [done|]. by eapply sign_proposal_quiet; [apply Hinv|].
  - by eapply timeout_step.
  - by eapply vote_step.
  - destruct Hwf. by eapply order_vote_step.
  - by eapply commit_vote_step.
Qed.

Lemma run_inv ops s log s' log' :
  Forall op_wf ops → node_inv s log → run ops s log = (s', log') → node_inv s' log'.
Proof using LL SL.
  intros Hwf. revert s log. induction Hwf as [|op ops Hop Hops IH]; intros s log Hinv H; simpl in H.
  - by simplify_eq.
  - destruct (serve op s) as [s1 ev] eqn:Hs. eapply IH; [|done]. by eapply serve_inv.
Qed.

(** A validator that has not signed anything yet: its cache is coherent and no
    vote is recorded. *)
Definition fresh (s : SafetyRules) : Prop :=
  coherent s ∧ sr_epoch_state s = None ∧ ∀ d, view s = Ok d → sd_last_vote d = None.

Lemma fresh_inv s : fresh s → node_inv s [].
Proof using Type.
  intros (Hc & Hes & Hd). split; [done|]. split; [by intros ?? ?%elem_of_nil|].
  intros d Hv. rewrite Hes, (Hd d Hv). split_and!; [by intros ? ?%elem_of_nil|done|done].
Qed.

(** C2. One validator never equivocates: over any sequence of requests, failed
    storage writes and restarts, all events it signs are pairwise compatible.
    It votes at most once per round, and a timeout it signs for the round of a
    block it voted for or a later one reports a highest QC round of at least
    that of the block's parent, or of the block itself if it voted to order
    it. *)
Theorem validator_never_equivocates (ops : list Op) (s s' : SafetyRules) (log : list Event) :
  fresh s → Forall op_wf ops → run ops s [] = (s', log) → compatible_log log.
Proof using LL SL.
  intros Hf Hwf H. apply fresh_inv in Hf. by eapply run_inv in H as (_ & H & _).
Qed.

Lemma serve_advance op s s' ev d :
  coherent s → view s = Ok d → serve op s = (s', ev) →
  coherent s' ∧ ∃ d', view s' = Ok d' ∧ advance d d'.
Proof using SL.
  intros Hc Hv H.
  assert (∀ s', same s s' → coherent s' ∧ ∃ d', view s' = Ok d' ∧ advance d d') as Hsame.
  { intros s1 (Hc1 & Hv1 & _). split; [done|]. exists d. rewrite Hv1. split; [done|apply advance_refl]. }
  destruct op as [now input|]; simpl in H.
  2: { injection H as <- <-. split; [done|]. exists d. split; [exact Hv|apply advance_refl]. }
  destruct input as [|proof|bd|t tc|vp tc|ovp|li new]; simpl in H;
    (match type of H with context [let '(_, _) := ?m s in _] =>
       destruct (m s) as [s1 r] eqn:Hr end; injection H as <- <-).
  - apply Hsame. by eapply consensus_state_quiet.
  - destruct (initialize_spec _ _ _ _ Hc Hr) as [?|(w & es & d0 & _ & _ & Hv0 & Hc' & _ &
      [[Hep Hv']|[Hep Hv']])]; [by apply Hsame|..]; rewrite Hv in Hv0; simplify_eq;
      (split; [done|]); eexists; (split; [done|]); [apply advance_refl|by left].
  - apply Hsame. by eapply sign_proposal_quiet.
  - destruct (timeout_spec _ _ _ _ _ Hc Hr) as [[Hsame' _]|(d0 & es & Hv0 & _ & _ & _ & _ & _ & _ &
      Hc' & _ & _ & Hv' & _)]; [by apply Hsame|]. rewrite Hv in Hv0. simplify_eq.
    split; [done|]. eexists. split; [done|]. apply advance_timed_out.
  - destruct r as [v|e|]; [|by apply Hsame; eapply vote_atomic..].
    destruct (vote_Ok _ _ _ _ _ _ Hc Hr) as (d0 & es & Hv0 & _ & _ & _ & Hc' & _ & _ &
      [(_ & _ & Hv')|(Hlt & _ & Hv' & _)]); rewrite Hv in Hv0; simplify_eq;
      (split; [done|]); eexists; (split; [done|]); [apply advance_refl|by apply advance_voted].
  - destruct r as [v|e|]; [|by apply Hsame; eapply order_vote_atomic..].
    destruct (order_vote_Ok _ _ _ _ Hc Hr) as (d0 & es & Hv0 & _ & _ & _ & _ & _ & _ & Hc' & _ & _ &
      Hv' & _). rewrite Hv in Hv0. simplify_eq.
    split; [done|]. eexists. split; [done|]. apply advance_observed.
  - apply Hsame. by eapply commit_vote_quiet.
Qed.

(** The persisted safety data survives every run and only moves forward:
    whatever is requested, whichever writes fail and however often the process
    restarts, it can be read back, its epoch never decreases and within an
    epoch none of its rounds decreases. *)
Theorem safety_data_monotone (ops : list Op) (s s' : SafetyRules) (log log' : list Event)
    (d : SafetyData) :
  coherent s → view s = Ok d → run ops s log = (s', log') →
  ∃ d', view s' = Ok d' ∧ advance d d'.
Proof using SL.
  revert s log d. induction ops as [|op ops IH]; intros s log d Hc Hv H; simpl in H.
  - simplify_eq. exists d. split; [done|apply advance_refl].
  - destruct (serve op s) as [s1 ev] eqn:Hs.
    destruct (serve_advance _ _ _ _ _ Hc Hv Hs) as (Hc1 & d1 & Hv1 & Hadv).
    destruct (IH _ _ _ Hc1 Hv1 H) as (d' & Hv' & Hadv'). exists d'.
    split; [done|]. by eapply advance_trans.
Qed.
End node_facts.
