(* ===== verification/Agreement.v ===== *)
(** Agreement: a network of validators running the safety rules.

    The honest validators each run [serve] on requests of their choice; what
    they have signed is a global log.  Certificates in requests that pass
    signature verification are backed by the log: the only assumption about
    the network and the dishonest validators is that they cannot forge
    signatures of honest ones, and that any two quorums of an epoch share an
    honest validator.  The section proves that all ledger infos signed by
    quorums in an epoch commit blocks of one chain. *)
From stdpp Require Import functions.
From S2P Require Import Prelude Laptos Payload Certificates Block Votes SafetyRules NodeSafety.

Section agreement.
Context `{L : Laptos}.
Context `{!CryptoHash VoteData, !CryptoHash TimeoutSigningRepr}.
Context `{!CryptoHash LedgerInfo, !CryptoHash BlockData}.
Context `{ST : !SecureStorage}.

(** The validator set of each epoch, and the validators that run this code. *)
Context (V : Z → ValidatorVerifier) (honest : AccountAddress → Prop).

Abbreviation Log := (list (AccountAddress * Event)).

(** Distinct validators with quorum power. *)
Definition quorum (v : ValidatorVerifier) (Q : list AccountAddress) : Prop :=
  NoDup Q ∧ is_ok (ValidatorVerifier_check_voting_power v Q) = true.

Definition event_ledger_info (ev : Event) : option LedgerInfo :=
  match ev with
  | VoteEv v => Some (vote_ledger_info v)
  | OrderEv o => Some (ov_ledger_info o)
  | CommitEv li => Some li
  | TimeoutEv _ => None
  end.

(** A quorum of an epoch all of whose honest members satisfy [P]. *)
Definition backed_by (e : Z) (P : AccountAddress → Prop) : Prop :=
  ∃ Q, quorum (V e) Q ∧ ∀ a, a ∈ Q → honest a → P a.

(** A quorum signed the ledger info. *)
Definition backed (log : Log) (e : Z) (li : LedgerInfo) : Prop :=
  backed_by e (λ a, ∃ ev, (a, ev) ∈ log ∧ event_ledger_info ev = Some li).

(** A quorum voted for the block. *)
Definition certified (log : Log) (vd : VoteData) : Prop :=
  backed_by (BlockInfo_epoch (vd_proposed vd))
    (λ a, ∃ v, (a, VoteEv v) ∈ log ∧ vote_vote_data v = vd).

(** A quorum timed out of the round, with QC rounds of at most [hqc]. *)
Definition timed_out_quorum (log : Log) (e round hqc : Z) : Prop :=
  backed_by e (λ a, ∃ t, (a, TimeoutEv t) ∈ log ∧ tsr_epoch t = e ∧ tsr_round t = round ∧
                         tsr_hqc_round t ≤ hqc).

(** Signatures of honest validators are not forged. *)
Definition li_unforged (log : Log) (li : LedgerInfoWithSignatures) : Prop :=
  ∀ e, LedgerInfoWithSignatures_verify_signatures li (V e) = Ok tt →
       backed log e (LedgerInfoWithSignatures_ledger_info li).

Definition tc_unforged (log : Log) (tc : TwoChainTimeoutCertificate) : Prop :=
  ∀ e, verify_aggregate_signatures (V e) (tc_timeout_messages tc (V e))
         (asr_sig (tc_signatures_with_rounds tc)) = Ok tt →
       backed_by e (λ a, ∃ t, (a, TimeoutEv t) ∈ log ∧ t ∈ tc_timeout_messages tc (V e)).

(** The requests the rest of the node makes of the safety rules: the timeout
    certificate given with a proposal is of the same epoch, as the check of
    the sync info ensures; epoch change proofs lead to the validator set of
    the epoch; and a ledger info to commit is made from one ordered in the
    current epoch. *)
Definition op_ok (log : Log) (s : SafetyRules) (op : Op) : Prop :=
  match op with
  | Request _ (ConstructAndSignVoteTwoChain vp maybe_tc) =>
      li_unforged log (qc_signed_ledger_info (block_quorum_cert (vp_block vp))) ∧
      ∀ tc, maybe_tc = Some tc → tc_unforged log tc ∧ tc_epoch tc = block_epoch (vp_block vp)
  | Request _ (ConstructAndSignOrderVote ovp) =>
      li_unforged log (qc_signed_ledger_info (ovp_quorum_cert ovp))
  | Request _ (SignCommitVote li new) =>
      let old := LedgerInfoWithSignatures_ledger_info li in
      li_unforged log li ∧ 0 < LedgerInfo_round old ∧
      LedgerInfo_consensus_data_hash new = LedgerInfo_consensus_data_hash old ∧
      ∀ es, sr_epoch_state s = Some es → EpochState_epoch es = LedgerInfo_epoch old
  | Request _ (Initialize proof) =>
      ∀ w es, proof_leads_to proof w es → EpochState_verifier es = V (EpochState_epoch es)
  | _ => True
  end.

Record System : Type := { sys_nodes : AccountAddress → SafetyRules; sys_log : Log }.

Inductive step : System → System → Prop :=
| step_serve st a op s' ev :
    honest a → op_wf op → op_ok (sys_log st) (sys_nodes st a) op →
    serve op (sys_nodes st a) = (s', ev) →
    step st {| sys_nodes := <[a := s']> (sys_nodes st);
               sys_log := (pair a <$> option_list ev) ++ sys_log st |}.

Definition initial (st : System) : Prop :=
  (∀ a, honest a → fresh (sys_nodes st a)) ∧ sys_log st = [].

Definition reachable (st : System) : Prop := ∃ st0, initial st0 ∧ rtc step st0 st.

(** ** Chains of certified blocks *)

Definition parent_of (log : Log) (p b : BlockInfo) : Prop :=
  ∃ vd, certified log vd ∧ vd_proposed vd = b ∧ vd_parent vd = p.
Definition extends (log : Log) : BlockInfo → BlockInfo → Prop := rtc (parent_of log).

(** A block is ordered by a quorum of order votes, or by a certified child in
    the next round. *)
Definition ordered (log : Log) (b : BlockInfo) : Prop :=
  0 < BlockInfo_round b ∧
  (backed_by (BlockInfo_epoch b) (λ a, ∃ o, (a, OrderEv o) ∈ log ∧ ov_block o = b) ∨
   ∃ vd, certified log vd ∧ vd_parent vd = b ∧
         BlockInfo_round (vd_proposed vd) = BlockInfo_round b + 1).

Definition same_block (b1 b2 : BlockInfo) : Prop :=
  BlockInfo_epoch b1 = BlockInfo_epoch b2 ∧ BlockInfo_round b1 = BlockInfo_round b2 ∧
  BlockInfo_id b1 = BlockInfo_id b2.

(** ** Why an event was signed *)

Definition certified_or_genesis (log : Log) (b : BlockInfo) : Prop :=
  BlockInfo_round b = 0 ∨ ∃ vd, certified log vd ∧ vd_proposed vd = b.

Definition vote_justified (log : Log) (v : Vote) : Prop :=
  let vd := vote_vote_data v in
  let round := BlockInfo_round (vd_proposed vd) in
  let qc_round := BlockInfo_round (vd_parent vd) in
  BlockInfo_epoch (vd_parent vd) = BlockInfo_epoch (vd_proposed vd) ∧
  qc_round < round ∧ certified_or_genesis log (vd_parent vd) ∧
  (round = qc_round + 1 ∨
   timed_out_quorum log (BlockInfo_epoch (vd_proposed vd)) (round - 1) qc_round) ∧
  LedgerInfo_consensus_data_hash (vote_ledger_info v) = hash vd ∧
  (LedgerInfo_commit_info (vote_ledger_info v) = vd_parent vd ∧ round = qc_round + 1 ∨
   LedgerInfo_commit_info (vote_ledger_info v) = BlockInfo_empty).

Definition justified (log : Log) (ev : Event) : Prop :=
  match ev with
  | VoteEv v => vote_justified log v
  | TimeoutEv _ => True
  | OrderEv o =>
      LedgerInfo_consensus_data_hash (ov_ledger_info o) = HashValue_zero ∧
      certified_or_genesis log (ov_block o)
  | CommitEv li =>
      (∀ vd, LedgerInfo_consensus_data_hash li = hash vd → certified log vd) ∧
      ∃ b, ordered log b ∧ same_block b (LedgerInfo_commit_info li)
  end.

Definition events_of (a : AccountAddress) (log : Log) : list Event :=
  (filter (λ p, p.1 = a) log).*2.

Definition sys_inv (st : System) : Prop :=
  (∀ a, honest a →
     node_inv (sys_nodes st a) (events_of a (sys_log st)) ∧
     ∀ es, sr_epoch_state (sys_nodes st a) = Some es →
           EpochState_verifier es = V (EpochState_epoch es)) ∧
  (∀ a ev, (a, ev) ∈ sys_log st → honest a ∧ justified (sys_log st) ev).
End agreement.

Section agreement_facts.
Context `{L : Laptos} `{LL : !LaptosLaws L}.
Context `{!CryptoHash VoteData, !CryptoHash TimeoutSigningRepr}.
Context `{!CryptoHash LedgerInfo, !CryptoHash BlockData}.
Context `{ST : !SecureStorage} `{SL : !StorageLaws ST}.
Context (V : Z → ValidatorVerifier) (honest : AccountAddress → Prop).
Context `{honest_dec : ∀ a, Decision (honest a)}.
(** Vote data hashes neither collide nor are zero, and two quorums of an epoch
    share an honest validator. *)
Context (hash_inj : Inj (=) (=) (hash (T:=VoteData))).
Context (hash_nonzero : ∀ vd : VoteData, hash vd ≠ HashValue_zero).
Context (quorums_intersect : ∀ e Q1 Q2,
  quorum (V e) Q1 → quorum (V e) Q2 → ∃ a, a ∈ Q1 ∧ a ∈ Q2 ∧ honest a).

Lemma certified_at e log vd :
  certified V honest log vd → BlockInfo_epoch (vd_proposed vd) = e →
  backed_by V honest e (λ a, ∃ v, (a, VoteEv v) ∈ log ∧ vote_vote_data v = vd).
Proof using Type. by intros H <-. Qed.

Abbreviation Log := (list (AccountAddress * Event)).
Abbreviation backed_by := (backed_by V honest).
Abbreviation backed := (backed V honest).
Abbreviation certified := (certified V honest).
Abbreviation ordered := (ordered V honest).
Abbreviation extends := (extends V honest).
Abbreviation justified := (justified V honest).
Abbreviation sys_inv := (sys_inv V honest).
Abbreviation timed_out_quorum := (timed_out_quorum V honest).

Lemma elem_of_events_of a ev (log : Log) : ev ∈ events_of a log ↔ (a, ev) ∈ log.
Proof using Type.
  unfold events_of. rewrite list_elem_of_fmap. split.
  - intros ([a' ev'] & -> & [Ha H]%list_elem_of_filter). simpl in *. by subst.
  - intros H. exists (a, ev). split; [done|]. apply list_elem_of_filter. done.
Qed.

Lemma backed_by_meet e P1 P2 :
  backed_by e P1 → backed_by e P2 → ∃ a, honest a ∧ P1 a ∧ P2 a.
Proof using quorums_intersect.
  intros (Q1 & HQ1 & H1) (Q2 & HQ2 & H2).
  destruct (quorums_intersect _ _ _ HQ1 HQ2) as (a & ? & ? & ?). exists a. auto.
Qed.

Lemma backed_by_mono e (P1 P2 : AccountAddress → Prop) :
  (∀ a, honest a → P1 a → P2 a) → backed_by e P1 → backed_by e P2.
Proof using Type. intros HP (Q & HQ & H). exists Q. auto. Qed.

(** If every honest member of a quorum satisfies [P] or gives [C], then all of
    them satisfy [P], or [C]. *)
Lemma backed_by_or e (P : AccountAddress → Prop) (C : Prop) :
  backed_by e (λ a, P a ∨ C) → backed_by e P ∨ C.
Proof using honest_dec.
  intros (Q & HQ & H).
  assert ((∀ a, a ∈ Q → honest a → P a) ∨ C) as [?|?]; [|left; by exists Q|by right].
  clear HQ. induction Q as [|a Q IH]; [by left; intros ? ?%elem_of_nil|].
  destruct IH as [IH|?]; [by intros; apply H; [apply elem_of_cons; right|]| |by right].
  destruct (decide (honest a)) as [Ha|Ha].
  - destruct (H a) as [?|?]; [apply elem_of_cons; by left|done| |by right].
    left. intros b [->|?]%elem_of_cons; auto.
  - left. intros b [->|?]%elem_of_cons; [done|auto].
Qed.

Lemma certified_mono (log log' : Log) vd : log ⊆ log' → certified log vd → certified log' vd.
Proof using Type.
  intros Hsub. apply backed_by_mono. intros a _ (v & ? & ?). eauto.
Qed.

Lemma timed_out_quorum_mono (log log' : Log) e r h :
  log ⊆ log' → timed_out_quorum log e r h → timed_out_quorum log' e r h.
Proof using Type. intros Hsub. apply backed_by_mono. intros a _ (t & ? & ?). eauto. Qed.

Lemma certified_or_genesis_mono (log log' : Log) b :
  log ⊆ log' → certified_or_genesis V honest log b → certified_or_genesis V honest log' b.
Proof using Type.
  intros Hsub [?|(vd & ? & ?)]; [by left|]. right. exists vd. split; [|done].
  by eapply certified_mono.
Qed.

Lemma ordered_mono (log log' : Log) b : log ⊆ log' → ordered log b → ordered log' b.
Proof using Type.
  intros Hsub [? [H|(vd & Hvd & ?)]]; (split; [done|]).
  - left. revert H. apply backed_by_mono. intros a _ (o & ? & ?). eauto.
  - right. exists vd. split; [|done]. by eapply certified_mono.
Qed.

Lemma justified_mono (log log' : Log) ev : log ⊆ log' → justified log ev → justified log' ev.
Proof using Type.
  intros Hsub. destruct ev as [v|t|o|li]; simpl.
  - intros (?&?&Hc&Ht&?&?). unfold vote_justified. do 2 (split; [done|]).
    split; [by eapply certified_or_genesis_mono|]. split; [|done].
    destruct Ht; [by left|right]. by eapply timed_out_quorum_mono.
  - done.
  - intros [? ?]. split; [done|]. by eapply certified_or_genesis_mono.
  - intros [H (b & ? & ?)]. split; [intros vd Hvd; by eapply certified_mono, H|].
    exists b. split; [|done]. by eapply ordered_mono.
Qed.

(** ** Consequences of the invariant *)

Section invariant.
Context (st : System) (Hinv : sys_inv st).
Let log : Log := sys_log st.

Lemma log_honest a ev : (a, ev) ∈ log → honest a.
Proof using Hinv. intros H. by apply Hinv in H as [? _]. Qed.

Lemma log_justified a ev : (a, ev) ∈ log → justified log ev.
Proof using Hinv. intros H. by apply Hinv in H as [_ ?]. Qed.

Lemma log_compatible a e1 e2 : (a, e1) ∈ log → (a, e2) ∈ log → compatible e1 e2.
Proof using Hinv.
  intros H1 H2. destruct (proj1 Hinv a (log_honest _ _ H1)) as [(_ & Hc & _) _].
  apply Hc; by apply elem_of_events_of.
Qed.

(** One block per round can be certified. *)
Lemma certified_unique vd1 vd2 :
  certified log vd1 → certified log vd2 →
  BlockInfo_epoch (vd_proposed vd1) = BlockInfo_epoch (vd_proposed vd2) →
  BlockInfo_round (vd_proposed vd1) = BlockInfo_round (vd_proposed vd2) → vd1 = vd2.
Proof using Hinv quorums_intersect.
  intros H1 H2 He Hr. apply (certified_at _ _ _ H1) in He as H1'.
  destruct (backed_by_meet _ _ _ H1' H2) as (a & Ha & (v1 & Hv1 & Hd1) & (v2 & Hv2 & Hd2)).
  pose proof (log_compatible _ _ _ Hv1 Hv2) as Hc. simpl in Hc. unfold vote_epoch, vote_round in Hc.
  rewrite Hd1, Hd2 in Hc. specialize (Hc He Hr). congruence.
Qed.

(** A certified block has a justified vote. *)
Lemma certified_vote vd :
  certified log vd → ∃ v, vote_justified V honest log v ∧ vote_vote_data v = vd.
Proof using Hinv quorums_intersect.
  intros H. destruct (backed_by_meet _ _ _ H H) as (a & _ & (v & Hv & Hd) & _).
  exists v. split; [|done]. by apply log_justified in Hv.
Qed.

Lemma ordered_certified b : ordered log b → ∃ vd, certified log vd ∧ vd_proposed vd = b.
Proof using Hinv quorums_intersect.
  intros [Hr [H|(vd & Hvd & <- & _)]].
  - destruct (backed_by_meet _ _ _ H H) as (a & _ & (o & Ho & <-) & _).
    apply log_justified in Ho as [_ [?|?]]; [lia|done].
  - apply certified_vote in Hvd as (v & (_ & _ & [?|?] & _) & <-); [lia|done].
Qed.

(** No certified block skips an ordered one: if its round is above that of an
    ordered block, so is its parent's, or the parent is that block's round. *)
Lemma certified_parent_above b vd :
  ordered log b → certified log vd →
  BlockInfo_epoch (vd_proposed vd) = BlockInfo_epoch b →
  BlockInfo_round b < BlockInfo_round (vd_proposed vd) →
  BlockInfo_round b ≤ BlockInfo_round (vd_parent vd).
Proof using Hinv quorums_intersect.
  intros [Hpos Hord] Hvd He Hlt.
  destruct (certified_vote _ Hvd) as (v & (_ & _ & _ & Hrule & _) & Hv). rewrite Hv in Hrule.
  destruct Hrule as [?|Htc]; [lia|].
  apply Z.le_ngt. intros Hbelow. rewrite He in Htc. destruct Hord as [Ho|(vc & Hvc & Hpc & Hrc)].
  - destruct (backed_by_meet _ _ _ Ho Htc) as (a & _ & (o & Hoa & Hob) & (t & Hta & Hte & Htr & Hth)).
    pose proof (log_compatible _ _ _ Hoa Hta) as Hc. simpl in Hc. rewrite Hob in Hc.
    specialize (Hc ltac:(lia) ltac:(lia)). lia.
  - destruct (decide (BlockInfo_round (vd_proposed vd) = BlockInfo_round (vd_proposed vc))) as [Heq|Hne].
    + assert (BlockInfo_epoch (vd_proposed vc) = BlockInfo_epoch b) as Hec.
      { destruct (certified_vote _ Hvc) as (w & (Hw & _) & Hwd). congruence. }
      rewrite (certified_unique vd vc) in Hbelow by (done || congruence). rewrite Hpc in Hbelow. lia.
    + destruct (certified_vote _ Hvc) as (w & (Hw & _) & Hwd).
      apply (certified_at (BlockInfo_epoch b)) in Hvc; [|congruence].
      destruct (backed_by_meet _ _ _ Hvc Htc) as (a & _ & (u & Hua & Hud) & (t & Hta & Hte & Htr & Hth)).
      pose proof (log_compatible _ _ _ Hua Hta) as Hc. simpl in Hc.
      unfold vote_epoch, vote_round, vote_parent_round in Hc. rewrite Hud in Hc.
      rewrite Hpc in Hc. specialize (Hc ltac:(congruence) ltac:(lia)). lia.
Qed.

(** Every certified block at or above an ordered one extends it. *)
Lemma certified_extends_ordered b vd :
  ordered log b → certified log vd →
  BlockInfo_epoch (vd_proposed vd) = BlockInfo_epoch b →
  BlockInfo_round b ≤ BlockInfo_round (vd_proposed vd) →
  extends log b (vd_proposed vd).
Proof using Hinv quorums_intersect.
  intros Hord. remember (Z.to_nat (BlockInfo_round (vd_proposed vd))) as n eqn:Hn.
  revert vd Hn. induction (lt_wf n) as [n _ IH]. intros vd -> Hvd He Hle.
  destruct (decide (BlockInfo_round b = BlockInfo_round (vd_proposed vd))) as [Heq|Hne].
  - destruct (ordered_certified _ Hord) as (vb & Hvb & Hb).
    rewrite (certified_unique vd vb) by (done || congruence). rewrite Hb. apply rtc_refl.
  - pose proof (certified_parent_above _ _ Hord Hvd He ltac:(lia)) as Hp.
    destruct (certified_vote _ Hvd) as (v & (Hpe & Hpr & Hcg & _) & Hv).
    rewrite Hv in Hpe, Hpr, Hcg. destruct Hord as [Hpos Hord].
    destruct Hcg as [?|(vp & Hvp & Hpp)]; [lia|].
    eapply rtc_r; [|exists vd; split; [done|]; split; [done|symmetry; exact Hpp]].
    eapply (IH (Z.to_nat (BlockInfo_round (vd_proposed vp)))); rewrite ?Hpp;
      [lia|done|done|congruence|lia].
Qed.

(** The vote data a quorum-signed ledger info commits to is certified. *)
Lemma backed_certified e li vd :
  backed log e li → LedgerInfo_consensus_data_hash li = hash vd →
  BlockInfo_epoch (vd_proposed vd) = e → certified log vd.
Proof using Hinv honest_dec hash_inj hash_nonzero.
  intros Hb Hh <-.
  destruct (backed_by_or (BlockInfo_epoch (vd_proposed vd))
    (λ a, ∃ v, (a, VoteEv v) ∈ log ∧ vote_vote_data v = vd) (certified log vd)) as [?|?]; [|done..].
  revert Hb. apply backed_by_mono. intros a _ (ev & Hev & Hli).
  pose proof (log_justified _ _ Hev) as Hj. destruct ev as [v|t|o|li']; simplify_eq/=.
  - left. exists v. split; [done|]. destruct Hj as (_ & _ & _ & _ & Hh' & _).
    apply hash_inj. congruence.
  - destruct Hj as [Hz _]. exfalso. eapply hash_nonzero. rewrite <- Hh. exact Hz.
  - right. by apply Hj.
Qed.

Lemma backed_commits e li :
  backed log e li → LedgerInfo_epoch li = e → 0 < LedgerInfo_round li →
  (∀ vd, LedgerInfo_consensus_data_hash li = hash vd → certified log vd) ∧
  ∃ b, ordered log b ∧ same_block b (LedgerInfo_commit_info li).
Proof using Hinv LL honest_dec hash_inj hash_nonzero quorums_intersect.
  rewrite LedgerInfo_epoch_commit_info, LedgerInfo_round_commit_info. intros Hb He Hr.
  assert (∀ v, vote_justified V honest log v → vote_ledger_info v = li →
    LedgerInfo_commit_info li = vd_parent (vote_vote_data v) ∧
    vote_round v = BlockInfo_round (LedgerInfo_commit_info li) + 1 ∧
    BlockInfo_epoch (vd_proposed (vote_vote_data v)) = e) as Hvote.
  { intros v (Hpe & _ & _ & _ & _ & Hc) <-. destruct Hc as [[Hc Hrr]|Hc].
    - rewrite Hc in *. split_and!; [done..|congruence].
    - rewrite Hc, BlockInfo_round_empty in Hr. lia. }
  assert (∀ vd, LedgerInfo_consensus_data_hash li = hash vd → certified log vd) as Hcert.
  { intros vd Hh. destruct (backed_by_meet _ _ _ Hb Hb) as (a & _ & (ev & Hev & Hli) & _).
    pose proof (log_justified _ _ Hev) as Hj. destruct ev as [v|t|o|li']; simplify_eq/=.
    - eapply backed_certified; [exact Hb|done|].
      destruct (Hvote v Hj eq_refl) as (_ & _ & <-). do 2 f_equal.
      apply hash_inj. destruct Hj as (_ & _ & _ & _ & Hh' & _). congruence.
    - destruct Hj as [Hz _]. exfalso. eapply hash_nonzero. rewrite <- Hh. exact Hz.
    - by apply Hj. }
  split; [done|].
  set (C := ∃ b, ordered log b ∧ same_block b (LedgerInfo_commit_info li)).
  destruct (backed_by_or e
    (λ a, ∃ o, (a, OrderEv o) ∈ log ∧ ov_block o = LedgerInfo_commit_info li) C) as [Ho|?];
    [|rewrite <- He in Ho; exists (LedgerInfo_commit_info li); split; [split; [done|by left]|done]|done].
  revert Hb. apply backed_by_mono. intros a _ (ev & Hev & Hli).
  pose proof (log_justified _ _ Hev) as Hj. destruct ev as [v|t|o|li']; simplify_eq/=.
  - right. destruct (Hvote v Hj eq_refl) as (Hc & Hr' & _).
    exists (LedgerInfo_commit_info (vote_ledger_info v)). split; [|done]. split; [done|]. right.
    exists (vote_vote_data v). split; [|done]. apply Hcert. by destruct Hj as (_ & _ & _ & _ & ? & _).
  - left. by exists o.
  - right. apply Hj.
Qed.
End invariant.

(** ** The invariant holds in every reachable state *)

Section preservation.
Context (st : System) (Hinv : sys_inv st).
Let log : Log := sys_log st.
Context (a : AccountAddress) (Ha : honest a).
Let s : SafetyRules := sys_nodes st a.

Lemma node_epoch d es :
  view s = Ok d → sr_epoch_state s = Some es →
  EpochState_epoch es = sd_epoch d ∧ EpochState_verifier es = V (sd_epoch d).
Proof using Hinv Ha.
  intros Hv Hes. destruct (proj1 Hinv a Ha) as [(_ & _ & Hn) HV].
  destruct (Hn d Hv) as (_ & _ & Hep). specialize (Hep es Hes). specialize (HV es Hes).
  split; [done|]. congruence.
Qed.

(** A verified certificate for a block of the node's epoch certifies it. *)
Lemma qc_certifies qc d es :
  li_unforged V honest log (qc_signed_ledger_info qc) →
  view s = Ok d → sr_epoch_state s = Some es →
  QuorumCert_verify qc (EpochState_verifier es) = Ok tt →
  BlockInfo_epoch (qc_certified_block qc) = sd_epoch d →
  certified_or_genesis V honest log (qc_certified_block qc).
Proof using Hinv Ha honest_dec hash_inj hash_nonzero.
  intros Hun Hv Hes Hqc Hep. destruct (node_epoch _ _ Hv Hes) as [_ HV]. rewrite HV in Hqc.
  destruct (QuorumCert_verify_Ok _ _ _ Hqc) as (Hh & [(? & _)|(_ & Hsig & _)]); [by left|right].
  exists (qc_vote_data qc). split; [|done]. eapply backed_certified; [done|by apply Hun|done|done].
Qed.

(** A verified timeout certificate of the node's epoch stands for a quorum of
    timeouts that report no QC above its own. *)
Lemma tc_times_out tc d es :
  tc_unforged V honest log tc → tc_epoch tc = sd_epoch d →
  view s = Ok d → sr_epoch_state s = Some es →
  TwoChainTimeoutCertificate_verify tc (EpochState_verifier es) = Ok tt →
  timed_out_quorum log (sd_epoch d) (tc_round tc) (tc_highest_hqc_round tc).
Proof using Hinv Ha.
  intros Hun Htce Hv Hes Htc. destruct (node_epoch _ _ Hv Hes) as [_ HV]. rewrite HV in Htc.
  destruct (TwoChainTimeoutCertificate_verify_Ok _ _ _ Htc) as (_ & _ & Hsig & Hmax).
  apply rounds_max_spec in Hmax as [_ Hmax].
  generalize (Hun _ Hsig). apply backed_by_mono. intros b _ (t & Ht & Hmsg). exists t.
  apply list_elem_of_fmap in Hmsg as ([c r] & -> & Hin). simpl. split_and!; try done.
  apply Hmax. unfold get_voters_and_rounds in Hin. by eapply elem_of_zip_r.
Qed.

Lemma safe_to_vote_Ok b tc u :
  safe_to_vote b tc = Ok u →
  let qc_round := qc_round (block_quorum_cert b) in
  block_round b = qc_round + 1 ∨
  block_round b = from_option tc_round 0 tc + 1 ∧ from_option tc_highest_hqc_round 0 tc ≤ qc_round.
Proof using Type.
  unfold safe_to_vote, next_round, qc_round. intros H. apply Ok_bind in H as (n & Hn & H).
  apply Ok_ok_or, u64_checked_add_Some in Hn as [-> _].
  apply Ok_bind in H as ([] & Hc & H); [|done].
  destruct (Z.eqb_spec (block_round b) (BlockInfo_round (qc_certified_block (block_quorum_cert b)) + 1));
    [by left|right]. apply Ok_bind in Hc as (m & Hm & [= Hc]).
  apply Ok_ok_or, u64_checked_add_Some in Hm as [-> _]. bool_to_prop. done.
Qed.

Lemma vote_event_justified now vp tc s' v :
  op_ok V honest log s (Request now (ConstructAndSignVoteTwoChain vp tc)) →
  guarded_construct_and_sign_vote_two_chain now vp tc s = (s', Ok v) →
  justified log (VoteEv v).
Proof using Hinv Ha LL SL honest_dec hash_inj hash_nonzero.
  intros [Hqu Htu] H. pose proof (proj1 Hinv a Ha) as [(Hc & _ & Hn) _].
  destruct (vote_Ok _ _ _ _ _ _ Hc H) as (d & es & Hv & Hes & Hpv & Htc & _ & _ & _ &
    [(Hlv & _ & _)|(_ & Hsafe & _ & _ & Hvd & Hli)]).
  { destruct (Hn d Hv) as (_ & Hlast & _). apply (log_justified st Hinv a).
    by apply elem_of_events_of, Hlast. }
  destruct Hpv as (Hbe & Hqc & _ & Hwf & _).
  destruct (Block_verify_well_formed_Ok _ _ _ Hwf) as (_ & Hpr & Hpe & _).
  unfold construct_ledger_info_2chain, next_round in Hli. inv_ok.
  apply u64_checked_add_Some in Hm as [-> _].
  simpl. unfold vote_justified. rewrite Hvd. simpl. unfold Block_gen_block_info.
  rewrite <- Hli. autorewrite with liquent. split_and!; [done|done| | | |].
  - eapply qc_certifies; try done. congruence.
  - destruct (safe_to_vote_Ok _ _ _ Hsafe) as [?|[Hr Hle]]; [by left|].
    destruct tc as [tc|]; simpl in *.
    + right. destruct (Htu tc eq_refl) as [Htu' Hte]. rewrite Hbe.
      replace (block_round (vp_block vp) - 1) with (tc_round tc) by lia.
      eapply backed_by_mono; [|by eapply (tc_times_out tc d es); auto; congruence].
      intros b _ (t & ? & ? & ? & ?). exists t. split_and!; try done. unfold qc_round in *. lia.
    + left. unfold qc_round in *. lia.
  - by rewrite Hvd.
  - case_match; [left|by right]. bool_to_prop. done.
Qed.

Lemma order_event_justified ovp s' o :
  BlockInfo_epoch (ovp_block_info ovp) = block_epoch (ovp_block ovp) →
  li_unforged V honest log (qc_signed_ledger_info (ovp_quorum_cert ovp)) →
  guarded_construct_and_sign_order_vote ovp s = (s', Ok o) →
  justified log (OrderEv o).
Proof using Hinv Ha LL SL honest_dec hash_inj hash_nonzero.
  intros Hbe Hqu H. pose proof (proj1 Hinv a Ha) as [(Hc & _ & Hn) _].
  destruct (order_vote_Ok _ _ _ _ Hc H) as (d & es & Hv & Hes & Hep & Hcert & _ & Hqc & _ & _ & _ &
    _ & _ & _ & Hli).
  simpl. unfold ov_block. rewrite Hli. autorewrite with liquent. split; [done|].
  rewrite <- Hcert. eapply qc_certifies; try done. congruence.
Qed.

Lemma commit_event_justified now li new s' sig :
  op_ok V honest log s (Request now (SignCommitVote li new)) →
  guarded_sign_commit_vote li new s = (s', Ok sig) →
  justified log (CommitEv new).
Proof using Hinv Ha LL honest_dec hash_inj hash_nonzero quorums_intersect.
  intros (Hun & Hr & Hh & He) H. pose proof (proj1 Hinv a Ha) as [_ HV].
  apply commit_vote_Ok in H as (_ & Hm1 & _ & es & Hes & Hsig).
  specialize (He _ Hes). specialize (HV _ Hes). rewrite HV, He in Hsig.
  destruct (backed_commits st Hinv _ _ (Hun _ Hsig) eq_refl Hr) as (Hcert & b & Hb & Hsame).
  simpl. rewrite Hh. split; [done|]. exists b. split; [done|].
  apply BlockInfo_match_ordered_only_true in Hm1 as (?&?&?).
  unfold same_block in *. intuition congruence.
Qed.

Lemma event_justified op s' ev :
  op_wf op → op_ok V honest log s op → serve op s = (s', Some ev) → justified log ev.
Proof using Hinv Ha LL SL honest_dec hash_inj hash_nonzero quorums_intersect.
  intros Hwf Hok H. destruct op as [now input|]; simpl in H; [|done].
  destruct input as [|proof|bd|t tc|vp tc|ovp|li new]; simpl in H;
    (match type of H with context [let '(_, _) := ?m s in _] =>
       destruct (m s) as [s1 r] eqn:Hr end; injection H as <- He; destruct r; simplify_eq/=).
  - done.
  - by eapply vote_event_justified.
  - destruct Hwf. by eapply order_event_justified.
  - by eapply (commit_event_justified now).
Qed.

Lemma serve_epoch_state op s' ev :
  op_ok V honest log s op → serve op s = (s', ev) →
  ∀ es, sr_epoch_state s' = Some es → EpochState_verifier es = V (EpochState_epoch es).
Proof using Hinv Ha SL.
  intros Hok H es. pose proof (proj1 Hinv a Ha) as [(Hc & _ & _) HV]. fold s in Hc, HV.
  assert (∀ s1, sr_epoch_state s1 = sr_epoch_state s →
    sr_epoch_state s1 = Some es → EpochState_verifier es = V (EpochState_epoch es)) as Hsame.
  { intros s1 ->. apply HV. }
  destruct op as [now input|]; simpl in H; [|by simplify_eq].
  destruct input as [|proof|bd|t tc|vp tc|ovp|li new]; simpl in H;
    (match type of H with context [let '(_, _) := ?m s in _] =>
       destruct (m s) as [s1 r] eqn:Hr end; injection H as <- <-).
  - apply Hsame. by eapply consensus_state_quiet.
  - destruct (initialize_spec _ _ _ _ Hc Hr) as [(_&_&_&?)|(w & es' & d & _ & Hlead & _ & _ & Hes & _)];
      [by apply Hsame|]. rewrite Hes. intros [= <-]. by eapply Hok.
  - apply Hsame. by eapply sign_proposal_quiet.
  - apply Hsame. by destruct (timeout_spec _ _ _ _ _ Hc Hr) as
      [[(_&_&_&?) _]|(?&?&?&?&?&?&?&?&?&?&?&?&_)].
  - apply Hsame. destruct r; [by destruct (vote_Ok _ _ _ _ _ _ Hc Hr) as (?&?&?&?&?&?&?&?&?&_)|
      by eapply vote_atomic..].
  - apply Hsame. destruct r; [by destruct (order_vote_Ok _ _ _ _ Hc Hr) as
      (?&?&?&?&?&?&?&?&?&?&?&?&_)|by eapply order_vote_atomic..].
  - apply Hsame. by eapply commit_vote_quiet.
Qed.
End preservation.

Lemma events_of_cons_eq a ev (log : Log) :
  events_of a ((pair a <$> option_list ev) ++ log) = option_list ev ++ events_of a log.
Proof using Type.
  destruct ev; simpl; [|done]. unfold events_of. by rewrite filter_cons_True.
Qed.

Lemma events_of_cons_ne a b ev (log : Log) :
  a ≠ b → events_of b ((pair a <$> option_list ev) ++ log) = events_of b log.
Proof using Type.
  intros Hab. destruct ev; simpl; [|done]. unfold events_of. by rewrite filter_cons_False.
Qed.

Lemma step_inv st st' : sys_inv st → step V honest st st' → sys_inv st'.
Proof using LL SL honest_dec hash_inj hash_nonzero quorums_intersect.
  intros Hinv Hst. destruct Hst as [st a op s' ev Ha Hwf Hok Hs]. split; simpl.
  - intros b Hb. destruct (decide (a = b)) as [<-|Hne].
    + rewrite fn_lookup_insert, events_of_cons_eq. split.
      * eapply serve_inv; [done| |done]. by apply Hinv.
      * by eapply serve_epoch_state.
    + rewrite fn_lookup_insert_ne, events_of_cons_ne by done. by apply Hinv.
  - intros b ev' [Hin|Hin]%elem_of_app.
    + apply list_elem_of_fmap in Hin as (e & [= -> ->] & ->%elem_of_option_list).
      split; [done|]. eapply justified_mono; [|by eapply event_justified].
      intros x Hx. apply elem_of_app. by right.
    + destruct (proj2 Hinv _ _ Hin) as [? ?]. split; [done|].
      eapply justified_mono; [|done]. intros x Hx. apply elem_of_app. by right.
Qed.

Lemma initial_inv st : initial honest st → sys_inv st.
Proof using Type.
  intros [Hf Hl]. split; rewrite Hl.
  - intros a Ha. split; [by apply fresh_inv, Hf|]. intros es Hes.
    destruct (Hf a Ha) as (_ & Hn & _). congruence.
  - by intros a ev ?%elem_of_nil.
Qed.

Lemma reachable_inv st : reachable V honest st → sys_inv st.
Proof using LL SL honest_dec hash_inj hash_nonzero quorums_intersect.
  intros (st0 & Hi & Hst). apply initial_inv in Hi.
  induction Hst as [|st0 st1 st2 Hst _ IH]; [done|]. apply IH. by eapply step_inv.
Qed.

(** Two ordered blocks of an epoch are on one chain. *)
Lemma ordered_comparable st b1 b2 :
  sys_inv st → ordered (sys_log st) b1 → ordered (sys_log st) b2 →
  BlockInfo_epoch b1 = BlockInfo_epoch b2 → BlockInfo_round b1 ≤ BlockInfo_round b2 →
  extends (sys_log st) b1 b2.
Proof using LL SL honest_dec hash_inj hash_nonzero quorums_intersect.
  intros Hinv H1 H2 He Hr. destruct (ordered_certified st Hinv _ H2) as (vd & Hvd & <-).
  by apply certified_extends_ordered.
Qed.

(** C1. Agreement.  In every reachable state of the network, any two ledger
    infos that quorums of an epoch have signed, whether by votes, order votes
    or commit votes, commit blocks that lie on one chain of certified blocks:
    one extends the other. *)
Theorem agreement (st : System) (li1 li2 : LedgerInfo) :
  reachable V honest st →
  backed (sys_log st) (LedgerInfo_epoch li1) li1 →
  backed (sys_log st) (LedgerInfo_epoch li2) li2 →
  LedgerInfo_epoch li1 = LedgerInfo_epoch li2 →
  0 < LedgerInfo_round li1 → 0 < LedgerInfo_round li2 →
  ∃ b1 b2, same_block b1 (LedgerInfo_commit_info li1) ∧
    same_block b2 (LedgerInfo_commit_info li2) ∧
    (extends (sys_log st) b1 b2 ∨ extends (sys_log st) b2 b1).
Proof using LL SL honest_dec hash_inj hash_nonzero quorums_intersect.
  rewrite !LedgerInfo_epoch_commit_info. intros Hr%reachable_inv H1 H2 He Hp1 Hp2.
  destruct (backed_commits st Hr _ _ H1) as (_ & b1 & Hb1 & Hs1);
    [by rewrite LedgerInfo_epoch_commit_info|done|].
  destruct (backed_commits st Hr _ _ H2) as (_ & b2 & Hb2 & Hs2);
    [by rewrite LedgerInfo_epoch_commit_info|done|].
  exists b1, b2. do 2 (split; [done|]).
  assert (BlockInfo_epoch b1 = BlockInfo_epoch b2) as Heb.
  { destruct Hs1 as (-> & _), Hs2 as (-> & _). done. }
  destruct (Z.le_ge_cases (BlockInfo_round b1) (BlockInfo_round b2)).
  - left. by apply ordered_comparable.
  - right. by apply ordered_comparable.
Qed.

(** C3. Quorums never commit two blocks at one round of an epoch. *)
Theorem committed_block_unique (st : System) (li1 li2 : LedgerInfo) :
  reachable V honest st →
  backed (sys_log st) (LedgerInfo_epoch li1) li1 →
  backed (sys_log st) (LedgerInfo_epoch li2) li2 →
  LedgerInfo_epoch li1 = LedgerInfo_epoch li2 →
  LedgerInfo_round li1 = LedgerInfo_round li2 → 0 < LedgerInfo_round li1 →
  BlockInfo_id (LedgerInfo_commit_info li1) = BlockInfo_id (LedgerInfo_commit_info li2).
Proof using LL SL honest_dec hash_inj hash_nonzero quorums_intersect.
  intros Hr%reachable_inv H1 H2 He Hrr Hp.
  destruct (backed_commits st Hr _ _ H1 eq_refl Hp) as (_ & b1 & Hb1 & Hs1).
  destruct (backed_commits st Hr _ _ H2 eq_refl ltac:(lia)) as (_ & b2 & Hb2 & Hs2).
  rewrite !LedgerInfo_epoch_commit_info, !LedgerInfo_round_commit_info in *.
  destruct Hs1 as (He1 & Hr1 & <-), Hs2 as (He2 & Hr2 & <-).
  destruct (ordered_certified st Hr _ Hb1) as (vd1 & Hvd1 & <-).
  destruct (ordered_certified st Hr _ Hb2) as (vd2 & Hvd2 & <-).
  by rewrite (certified_unique st Hr vd1 vd2) by (done || congruence).
Qed.
End agreement_facts.
