(* ===== verification/PendingVotes.v ===== *)
(** Vote aggregation: consensus/src/{pending_votes, pending_order_votes,
    qc_aggregator}.rs.

    The votes a validator collects for the current round and turns into a
    quorum certificate or a timeout certificate, and the order votes it
    collects for the last rounds. *)
From S2P Require Import Prelude Laptos Payload Certificates Block Votes.

Section pending_votes.
Context `{L : Laptos} `{!CryptoHash VoteData, !CryptoHash TimeoutSigningRepr}.
Context `{!CryptoHash LedgerInfo}.

Abbreviation LIVS := LedgerInfoWithVerifiedSignatures.
Abbreviation livs_ledger_info := LedgerInfoWithVerifiedSignatures_ledger_info.
Abbreviation livs_signatures := LedgerInfoWithVerifiedSignatures_signatures.

(** ** pending_votes.rs *)

Inductive VoteReceptionResult : Type :=
| VoteAdded (voting_power : Z)
| VoteAddedQCDelayed (voting_power : Z)
| DuplicateVote
| EquivocateVote
| NewQuorumCertificate (qc : QuorumCert)
| New2ChainTimeoutCertificate (tc : TwoChainTimeoutCertificate)
| ErrorAddingVote (e : VerifyError)
| ErrorAggregatingSignature (e : VerifyError)
| ErrorAggregatingTimeoutCertificate (e : VerifyError)
| UnexpectedRound (vote_round current_round : Z)
| EchoTimeout (voting_power : Z).

Record PendingVotes : Type := {
  pv_li_digest_to_votes : gmap HashValue (nat * LIVS);
  pv_maybe_partial_2chain_tc : option TwoChainTimeoutWithPartialSignatures;
  pv_author_to_vote : gmap AccountAddress (Vote * HashValue);
  pv_echo_timeout : bool;
}.

(** The aggregator is the only kind there is, [NoDelayQcAggregator], which has
    no state. *)
Definition PendingVotes_new : PendingVotes :=
  {| pv_li_digest_to_votes := ∅; pv_maybe_partial_2chain_tc := None;
     pv_author_to_vote := ∅; pv_echo_timeout := false |}.

(** The keys of a map of signatures; voting power does not depend on their
    order. *)
Definition keys {A} (m : gmap AccountAddress A) : list AccountAddress := (map_to_list m).*1.

Definition aggregate_qc_now (validator_verifier : ValidatorVerifier) (li_with_sig : LIVS)
    (vote_data : VoteData) : result anyhow VoteReceptionResult :=
  match LedgerInfoWithVerifiedSignatures_aggregate_signatures validator_verifier li_with_sig with
  | Ok ledger_info_with_sig =>
      Ok (NewQuorumCertificate
            {| qc_vote_data := vote_data; qc_signed_ledger_info := ledger_info_with_sig |})
  | Err e => Ok (ErrorAggregatingSignature e)
  | Panic => Panic
  end.

(** [NoDelayQcAggregator] *)
Definition handle_aggregated_qc (validator_verifier : ValidatorVerifier)
    (aggregated_voting_power : Z) (vote : Vote) (li_with_sig : LIVS) :
    result anyhow VoteReceptionResult :=
  if aggregated_voting_power >=? ValidatorVerifier_quorum_voting_power validator_verifier
  then aggregate_qc_now validator_verifier li_with_sig (vote_vote_data vote)
  else Panic.

(** Steps 4 and 5 of [insert_vote]: no QC, but perhaps a TC or an echo. *)
Definition insert_timeout (vote : Vote) (validator_verifier : ValidatorVerifier)
    (voting_power : Z) : SM PendingVotes anyhow VoteReceptionResult := λ self,
  match vote_two_chain_timeout vote with
  | None => (self, Ok (VoteAdded voting_power))
  | Some (timeout, signature) =>
      let partial_tc :=
        default (TwoChainTimeoutWithPartialSignatures_new timeout)
          (pv_maybe_partial_2chain_tc self) in
      let partial_tc :=
        TwoChainTimeoutWithPartialSignatures_add partial_tc (vote_author vote) timeout signature in
      let self' echo :=
        {| pv_li_digest_to_votes := pv_li_digest_to_votes self;
           pv_maybe_partial_2chain_tc := Some partial_tc;
           pv_author_to_vote := pv_author_to_vote self; pv_echo_timeout := echo |} in
      let self1 := self' (pv_echo_timeout self) in
      match ValidatorVerifier_check_voting_power validator_verifier
              (keys (tps_signatures partial_tc)) with
      | Ok _ =>
          match TwoChainTimeoutWithPartialSignatures_aggregate_signatures partial_tc
                  validator_verifier with
          | Ok tc_with_sig => (self1, Ok (New2ChainTimeoutCertificate tc_with_sig))
          | Err e => (self1, Ok (ErrorAggregatingTimeoutCertificate e))
          | Panic => (self1, Panic)
          end
      | Err (TooLittleVotingPower tc_voting_power _) =>
          if negb (pv_echo_timeout self) then
            match (d ← u128_sub (ValidatorVerifier_total_voting_power validator_verifier)
                        (ValidatorVerifier_quorum_voting_power validator_verifier);
                   u128_add d 1) with
            | Ok f_plus_one =>
                if tc_voting_power >=? f_plus_one
                then (self' true, Ok (EchoTimeout tc_voting_power))
                else (self1, Ok (VoteAdded voting_power))
            | Err e => (self1, Err e)
            | Panic => (self1, Panic)
            end
          else (self1, Ok (VoteAdded voting_power))
      | Err error => (self1, Ok (ErrorAddingVote error))
      | Panic => (self1, Panic)
      end
  end.

(** Step 2 of [insert_vote] and the signature update of step 3: the ledger info
    the vote is for, with its signatures, and the state with the vote stored. *)
Definition store_vote (vote : Vote) (self : PendingVotes) : LIVS * PendingVotes :=
  let li_digest := hash (vote_ledger_info vote) in
  let len := S (size (pv_li_digest_to_votes self)) in
  let '(hash_index, li_with_sig) :=
    default (len, LedgerInfoWithVerifiedSignatures_new (vote_ledger_info vote))
      (pv_li_digest_to_votes self !! li_digest) in
  let li_with_sig :=
    LedgerInfoWithVerifiedSignatures_add_signature (vote_author vote) (vote_signature vote)
      li_with_sig in
  (li_with_sig,
   {| pv_li_digest_to_votes :=
        <[li_digest := (hash_index, li_with_sig)]> (pv_li_digest_to_votes self);
      pv_maybe_partial_2chain_tc := pv_maybe_partial_2chain_tc self;
      pv_author_to_vote := <[vote_author vote := (vote, li_digest)]> (pv_author_to_vote self);
      pv_echo_timeout := pv_echo_timeout self |}).

(** Steps 2 to 5 of [insert_vote]. *)
Definition insert_new_vote (vote : Vote) (validator_verifier : ValidatorVerifier) :
    SM PendingVotes anyhow VoteReceptionResult := λ self,
  let '(li_with_sig, self) := store_vote vote self in
  match ValidatorVerifier_check_voting_power validator_verifier
          (keys (livs_signatures li_with_sig)) with
  | Ok aggregated_voting_power =>
      (self, handle_aggregated_qc validator_verifier aggregated_voting_power vote li_with_sig)
  | Err (TooLittleVotingPower voting_power _) =>
      insert_timeout vote validator_verifier voting_power self
  | Err error => (self, Ok (ErrorAddingVote error))
  | Panic => (self, Panic)
  end.

Definition PendingVotes_insert_vote (vote : Vote) (validator_verifier : ValidatorVerifier) :
    SM PendingVotes anyhow VoteReceptionResult := λ self,
  let li_digest := hash (vote_ledger_info vote) in
  match pv_author_to_vote self !! vote_author vote with
  | Some (previously_seen_vote, previous_li_digest) =>
      if bool_decide (li_digest = previous_li_digest) then
        let new_timeout_vote := vote_is_timeout vote && negb (vote_is_timeout previously_seen_vote) in
        if negb new_timeout_vote then (self, Ok DuplicateVote)
        else insert_new_vote vote validator_verifier self
      else (self, Ok EquivocateVote)
  | None => insert_new_vote vote validator_verifier self
  end.

Definition process_delayed_qc (validator_verifier : ValidatorVerifier) (vote : Vote)
    (self : PendingVotes) : result anyhow VoteReceptionResult :=
  match pv_li_digest_to_votes self !! hash (vote_ledger_info vote) with
  | Some (_, li_with_sig) =>
      match ValidatorVerifier_check_voting_power validator_verifier
              (keys (livs_signatures li_with_sig)) with
      | Ok _ => aggregate_qc_now validator_verifier li_with_sig (vote_vote_data vote)
      | Err (TooLittleVotingPower _ _) => Ok (ErrorAddingVote EmptySignature)
      | Err error => Ok (ErrorAddingVote error)
      | Panic => Panic
      end
  | None => Ok (ErrorAddingVote EmptySignature)
  end.

(** The drained ledger infos, in the order of the hash map's iteration, which
    is not specified. *)
Definition drain_votes (self : PendingVotes) :
    PendingVotes * (list (HashValue * LIVS) * option TwoChainTimeoutWithPartialSignatures) :=
  ({| pv_li_digest_to_votes := ∅; pv_maybe_partial_2chain_tc := None;
      pv_author_to_vote := pv_author_to_vote self; pv_echo_timeout := pv_echo_timeout self |},
   ((λ '(key, (_, li)), (key, li)) <$> map_to_list (pv_li_digest_to_votes self),
    pv_maybe_partial_2chain_tc self)).

(** ** pending_order_votes.rs *)

Inductive OrderVoteReceptionResult : Type :=
| OVoteAdded (voting_power : Z)
| NewLedgerInfoWithSignatures (li : LedgerInfoWithSignatures)
| OErrorAddingVote (e : VerifyError)
| OErrorAggregatingSignature (e : VerifyError)
| OUnknownAuthor (author : AccountAddress).

Inductive OrderVoteStatus : Type :=
| EnoughVotes (li_with_sig : LedgerInfoWithSignatures)
| NotEnoughVotes (li_with_sig : LIVS).

(** [PendingOrderVotes] is the map it wraps. *)
Abbreviation PendingOrderVotes := (gmap HashValue OrderVoteStatus).

Definition PendingOrderVotes_new : PendingOrderVotes := ∅.

Definition insert_order_vote (order_vote : OrderVote) (validator_verifier : ValidatorVerifier) :
    SM PendingOrderVotes anyhow OrderVoteReceptionResult := λ self,
  let li_digest := hash (ov_ledger_info order_vote) in
  let status :=
    default (NotEnoughVotes (LedgerInfoWithVerifiedSignatures_new (ov_ledger_info order_vote)))
      (self !! li_digest) in
  let self := <[li_digest := status]> self in
  match status with
  | EnoughVotes li_with_sig => (self, Ok (NewLedgerInfoWithSignatures li_with_sig))
  | NotEnoughVotes li_with_sig =>
      match ValidatorVerifier_get_voting_power validator_verifier (ov_author order_vote) with
      | None => (self, Ok (OUnknownAuthor (ov_author order_vote)))
      | Some _ =>
          let li_with_sig :=
            LedgerInfoWithVerifiedSignatures_add_signature (ov_author order_vote)
              (ov_signature order_vote) li_with_sig in
          let self := <[li_digest := NotEnoughVotes li_with_sig]> self in
          match ValidatorVerifier_check_voting_power validator_verifier
                  (keys (livs_signatures li_with_sig)) with
          | Ok aggregated_voting_power =>
              if aggregated_voting_power >=?
                   ValidatorVerifier_quorum_voting_power validator_verifier then
                match LedgerInfoWithVerifiedSignatures_aggregate_signatures validator_verifier
                        li_with_sig with
                | Ok ledger_info_with_sig =>
                    (<[li_digest := EnoughVotes ledger_info_with_sig]> self,
                     Ok (NewLedgerInfoWithSignatures ledger_info_with_sig))
                | Err e => (self, Ok (OErrorAggregatingSignature e))
                | Panic => (self, Panic)
                end
              else (self, Panic)
          | Err (TooLittleVotingPower voting_power _) => (self, Ok (OVoteAdded voting_power))
          | Err error => (self, Ok (OErrorAddingVote error))
          | Panic => (self, Panic)
          end
      end
  end.

(** The round of the ledger info votes are collected for. *)
Definition status_ledger_info (status : OrderVoteStatus) : LedgerInfo :=
  match status with
  | EnoughVotes li_with_sig => LedgerInfoWithSignatures_ledger_info li_with_sig
  | NotEnoughVotes li_with_sig => livs_ledger_info li_with_sig
  end.

Definition garbage_collect (highest_ordered_round : Z) (self : PendingOrderVotes) :
    PendingOrderVotes :=
  filter (λ '(_, status), LedgerInfo_round (status_ledger_info status) > highest_ordered_round)
    self.

Definition has_enough_order_votes (ledger_info : LedgerInfo) (self : PendingOrderVotes) : bool :=
  match self !! hash ledger_info with Some (EnoughVotes _) => true | _ => false end.
End pending_votes.

Abbreviation livs_ledger_info := LedgerInfoWithVerifiedSignatures_ledger_info.
Abbreviation livs_signatures := LedgerInfoWithVerifiedSignatures_signatures.
Abbreviation PendingOrderVotes := (gmap HashValue OrderVoteStatus).

Section pending_votes_facts.
Context `{L : Laptos} `{LL : !LaptosLaws L}.
Context `{!CryptoHash VoteData, !CryptoHash TimeoutSigningRepr, !CryptoHash LedgerInfo}.
(** The validator set, and collision freedom of the ledger info digests. *)
Context (v : ValidatorVerifier) `{AL : !AggregationLaws v}.
Context (li_hash_inj : Inj (=) (=) (hash (T:=LedgerInfo))).

(** What a verified vote carries. *)
Lemma Vote_verify_Ok vote :
  Vote_verify vote v = Ok tt →
  LedgerInfo_consensus_data_hash (vote_ledger_info vote) = hash (vote_vote_data vote) ∧
  verifier_verify v (vote_author vote) (vote_ledger_info vote) (vote_signature vote) = Ok tt ∧
  VoteData_verify (vote_vote_data vote) = Ok tt ∧
  ∀ t s, vote_two_chain_timeout vote = Some (t, s) →
    timeout_epoch t = vote_epoch vote ∧ timeout_round t = vote_round vote ∧
    TwoChainTimeout_verify t v = Ok tt ∧
    verifier_verify v (vote_author vote) (TwoChainTimeout_signing_format t) s = Ok tt.
Proof using Type.
  unfold Vote_verify, context. intros H. inv_ok. split_and!; try done.
  intros t s Ht. rewrite Ht in *. inv_ok. done.
Qed.

(** Votes of one round of one epoch that passed verification. *)
Definition round_vote (e r : Z) (vote : Vote) : Prop :=
  Vote_verify vote v = Ok tt ∧ vote_epoch vote = e ∧ vote_round vote = r ∧
  0 ≤ BlockInfo_round (vd_parent (vote_vote_data vote)).

(** The collected signatures are those of the recorded votes, one per author,
    and the collected timeouts belong to recorded timeout votes. *)
Definition pv_inv (e r : Z) (self : PendingVotes) : Prop :=
  (∀ a vote d, pv_author_to_vote self !! a = Some (vote, d) →
     vote_author vote = a ∧ d = hash (vote_ledger_info vote) ∧ round_vote e r vote) ∧
  (∀ d i l, pv_li_digest_to_votes self !! d = Some (i, l) →
     hash (livs_ledger_info l) = d ∧
     ∀ a s, livs_signatures l !! a = Some s ↔
       ∃ vote, pv_author_to_vote self !! a = Some (vote, d) ∧ vote_signature vote = s) ∧
  (∀ a vote d, pv_author_to_vote self !! a = Some (vote, d) →
     is_Some (pv_li_digest_to_votes self !! d)) ∧
  (∀ t, pv_maybe_partial_2chain_tc self = Some t →
     tps_inv t ∧ timeout_epoch (tps_timeout t) = e ∧ timeout_round (tps_timeout t) = r ∧
     TwoChainTimeout_verify (tps_timeout t) v = Ok tt ∧
     ∀ a q s, tps_signatures t !! a = Some (q, s) →
       ∃ vote d tm, pv_author_to_vote self !! a = Some (vote, d) ∧
         vote_two_chain_timeout vote = Some (tm, s) ∧ q = timeout_hqc_round tm).

Lemma pv_inv_new e r : pv_inv e r PendingVotes_new.
Proof using Type. split_and!; simpl; intros *; rewrite ?lookup_empty; done. Qed.

(** A vote that is new, or the first timeout vote after the same plain vote. *)
Definition may_store (vote : Vote) (self : PendingVotes) : Prop :=
  ∀ prev d, pv_author_to_vote self !! vote_author vote = Some (prev, d) →
    d = hash (vote_ledger_info vote) ∧ vote_is_timeout prev = false.

Lemma store_vote_inv e r vote self li self' :
  pv_inv e r self → round_vote e r vote → may_store vote self →
  store_vote vote self = (li, self') →
  pv_inv e r self' ∧ livs_ledger_info li = vote_ledger_info vote ∧
  (∀ a s, livs_signatures li !! a = Some s → verifier_verify v a (vote_ledger_info vote) s = Ok tt) ∧
  (∀ t, pv_maybe_partial_2chain_tc self' = Some t → tps_signatures t !! vote_author vote = None) ∧
  pv_author_to_vote self' !! vote_author vote = Some (vote, hash (vote_ledger_info vote)).
Proof using LL li_hash_inj.
  intros (Hv & Hl & Hd & Ht) Hvote Hmay H. unfold store_vote in H.
  destruct (default _ _) as [i l] eqn:Hdef. injection H as <- <-. simpl.
  set (d := hash (vote_ledger_info vote)) in *. set (a := vote_author vote) in *.
  assert (livs_ledger_info l = vote_ledger_info vote ∧
    ∀ b s, livs_signatures l !! b = Some s ↔
      ∃ w, pv_author_to_vote self !! b = Some (w, d) ∧ vote_signature w = s) as [Hli Hsigs].
  { destruct (pv_li_digest_to_votes self !! d) as [[i' l']|] eqn:Hdl; simplify_eq/=.
    - destruct (Hl _ _ _ Hdl) as [Hh Hs]. split; [by apply li_hash_inj|done].
    - rewrite LedgerInfoWithVerifiedSignatures_ledger_info_new,
        LedgerInfoWithVerifiedSignatures_signatures_new. split; [done|].
      intros b s. rewrite lookup_empty. split; [done|]. intros (w & Hw & _).
      destruct (Hd _ _ _ Hw) as [? ?]. congruence. }
  assert (∀ b s, livs_signatures (LedgerInfoWithVerifiedSignatures_add_signature a
      (vote_signature vote) l) !! b = Some s ↔
      ∃ w, <[a := (vote, d)]> (pv_author_to_vote self) !! b = Some (w, d) ∧
        vote_signature w = s) as Hsigs'.
  { intros b s. rewrite LedgerInfoWithVerifiedSignatures_signatures_add.
    destruct (decide (a = b)) as [<-|Hne].
    - rewrite !lookup_insert_eq. naive_solver.
    - rewrite !lookup_insert_ne by done. apply Hsigs. }
  assert (∀ t, pv_maybe_partial_2chain_tc self = Some t → tps_signatures t !! a = None) as Hnew.
  { intros t (_ & _ & _ & _ & Htv)%Ht. destruct (tps_signatures t !! a) as [[q s]|] eqn:Ha; [|done].
    destruct (Htv _ _ _ Ha) as (w & d' & tm & Hw & Htm & _). apply Hmay in Hw as [_ Hw].
    unfold vote_is_timeout in Hw. by rewrite Htm in Hw. }
  split; [split_and!; simpl|split_and!].
  - intros b w d' [[<- [= <- <-]]|[_ ?]]%lookup_insert_Some; auto.
  - intros d' i' l'. rewrite lookup_insert_Some. intros [[<- [= <- <-]]|[Hne Hl']].
    + rewrite LedgerInfoWithVerifiedSignatures_ledger_info_add, Hli. done.
    + destruct (Hl _ _ _ Hl') as [? Hs]. split; [done|]. intros b s. rewrite Hs.
      destruct (decide (a = b)) as [<-|?]; [|by rewrite lookup_insert_ne].
      rewrite lookup_insert_eq. split; [|naive_solver]. intros (w & Hw & _).
      apply Hmay in Hw as [-> _]. done.
  - intros b w d'. rewrite !lookup_insert_Some.
    destruct (decide (d = d')) as [->|Hne]; [by rewrite lookup_insert_eq|].
    rewrite lookup_insert_ne by done. intros [[<- [= <- <-]]|[_ ?]]; [done|]. by eapply Hd.
  - intros t Htc. destruct (Ht _ Htc) as (? & ? & ? & ? & Htv). do 4 (split; [done|]).
    intros b q s Hb. destruct (Htv _ _ _ Hb) as (w & d' & tm & Hw & ?).
    exists w, d', tm. split; [|done]. rewrite lookup_insert_ne; [done|].
    intros <-. by rewrite (Hnew t Htc) in Hb.
  - by rewrite LedgerInfoWithVerifiedSignatures_ledger_info_add.
  - intros b s (w & Hw & <-)%Hsigs'. apply lookup_insert_Some in Hw as [[<- [= <-]]|[_ Hw]].
    + by apply Vote_verify_Ok, Hvote.
    + destruct (Hv _ _ _ Hw) as (<- & Hdw & (Hok & _)). apply Vote_verify_Ok in Hok as (_ & Hsig & _).
      apply li_hash_inj in Hdw as ->. done.
  - done.
  - apply lookup_insert_eq.
Qed.

Lemma elem_of_keys {A} (m : gmap AccountAddress A) a : a ∈ keys m ↔ is_Some (m !! a).
Proof using Type.
  unfold keys. rewrite list_elem_of_fmap. split.
  - intros ([b x] & -> & Hx%elem_of_map_to_list). eauto.
  - intros [x Hx]. exists (a, x). split; [done|]. by apply elem_of_map_to_list.
Qed.

(** ** Timeout certificates *)

(** Collected timeouts of one round whose signatures have been verified. *)
Definition timeouts_ok (e r : Z) (t : TwoChainTimeoutWithPartialSignatures) : Prop :=
  tps_inv t ∧ timeout_epoch (tps_timeout t) = e ∧ timeout_round (tps_timeout t) = r ∧
  TwoChainTimeout_verify (tps_timeout t) v = Ok tt ∧
  ∀ a q s, tps_signatures t !! a = Some (q, s) →
    verifier_verify v a {| tsr_epoch := e; tsr_round := r; tsr_hqc_round := q |} s = Ok tt.

Lemma validator_index_inj a b i :
  ValidatorVerifier_address_to_validator_index v !! a = Some i →
  ValidatorVerifier_address_to_validator_index v !! b = Some i → a = b.
Proof using AL. rewrite !validator_index. congruence. Qed.

Lemma ordered_addresses_NoDup : NoDup (ValidatorVerifier_get_ordered_account_addresses v).
Proof using AL.
  apply NoDup_alt. intros i j a Hi Hj. apply validator_index in Hi, Hj. congruence.
Qed.

(** The partial signatures and ordered rounds of collected timeouts. *)
Lemma timeouts_partial_sigs e r t ps rounds :
  timeouts_ok e r t →
  get_partial_sig_with_rounds (tps_signatures t)
    (ValidatorVerifier_address_to_validator_index v) = (ps, rounds) →
  (∀ a, ps !! a = snd <$> tps_signatures t !! a) ∧
  rounds = omap (λ a, fst <$> tps_signatures t !! a)
             (ValidatorVerifier_get_ordered_account_addresses v).
Proof using AL.
  intros (_ & _ & _ & _ & Hs). unfold get_partial_sig_with_rounds.
  destruct (map_fold _ _ _) as [ps' ir] eqn:Hf. intros [= <- <-].
  destruct (collect_signature_spec _ _ _ _ validator_index_inj Hf) as [Hps Hir].
  assert (∀ a q s, tps_signatures t !! a = Some (q, s) →
    is_Some (ValidatorVerifier_address_to_validator_index v !! a)) as Hknown.
  { intros a q s ?%Hs. by eapply verify_known. }
  split.
  - intros a. apply option_eq. intros s. rewrite Hps, fmap_Some. split.
    + intros (q & Ha & _). exists (q, s). done.
    + intros ([q s'] & Ha & ->). exists q. split; [done|]. by eapply Hknown.
  - rewrite (btree_list_positions _ (λ a, fst <$> tps_signatures t !! a)
      (ValidatorVerifier_get_ordered_account_addresses v)); [by rewrite positions_snd|].
    intros i q. rewrite Hir. setoid_rewrite validator_index. split.
    + intros (a & s & Ha & Hi). exists a. split; [done|]. by rewrite Ha.
    + intros (a & Hi & ([q' s] & Ha & ->)%fmap_Some). exists a, s. done.
Qed.

Lemma timeouts_known e r t a :
  timeouts_ok e r t → is_Some (tps_signatures t !! a) →
  a ∈ ValidatorVerifier_get_ordered_account_addresses v.
Proof using AL.
  intros (_ & _ & _ & _ & Hs) [[q s] Ha]. apply Hs, verify_known in Ha as [i Hi].
  by eapply list_elem_of_lookup_2, validator_index.
Qed.

Lemma timeouts_rounds_max e r t :
  timeouts_ok e r t →
  rounds_max (omap (λ a, fst <$> tps_signatures t !! a)
                (ValidatorVerifier_get_ordered_account_addresses v)) =
  Some (timeout_hqc_round (tps_timeout t)).
Proof using AL.
  intros Hok. pose proof Hok as ([Hle (a & s & Ha)] & _). apply rounds_max_spec. split.
  - apply list_elem_of_omap. exists a. rewrite Ha. split; [|done].
    eapply timeouts_known; eauto.
  - intros q (b & _ & ([q' s'] & Hb & ->)%fmap_Some)%list_elem_of_omap. by eapply Hle.
Qed.

Lemma timeouts_aggregate e r t :
  timeouts_ok e r t →
  is_ok (ValidatorVerifier_check_voting_power v (keys (tps_signatures t))) = true →
  ∃ tc, TwoChainTimeoutWithPartialSignatures_aggregate_signatures t v = Ok tc ∧
    TwoChainTimeoutCertificate_verify tc v = Ok tt ∧ tc_timeout tc = tps_timeout t.
Proof using AL.
  intros Hok Hq. unfold TwoChainTimeoutWithPartialSignatures_aggregate_signatures.
  destruct (get_partial_sig_with_rounds _ _) as [ps rounds] eqn:Hps.
  destruct (timeouts_partial_sigs _ _ _ _ _ Hok Hps) as [Hlook ->].
  pose proof (timeouts_rounds_max _ _ _ Hok) as Hmax.
  pose proof (λ a, timeouts_known _ _ _ a Hok) as Hknown.
  destruct Hok as (Hinv & He & Hr & Ht & Hs).
  set (addrs := ValidatorVerifier_get_ordered_account_addresses v) in *.
  set (repr q := {| tsr_epoch := e; tsr_round := r; tsr_hqc_round := q |}).
  set (round_of a := fst <$> tps_signatures t !! a) in *.
  destruct (aggregate_messages ps (λ a, signing_message (repr (default 0 (round_of a)))))
    as (agg & Hagg & Hnum & Hsigners & Hver).
  { intros a s. rewrite Hlook. intros ([q s'] & Ha & ->)%fmap_Some.
    unfold round_of. rewrite Ha. by apply (Hs a q). }
  fold addrs in Hnum, Hsigners, Hver.
  assert (∀ a, is_Some (ps !! a) ↔ is_Some (round_of a)) as Hdom.
  { intros a. rewrite Hlook. unfold round_of. by rewrite !fmap_is_Some. }
  rewrite Hagg. simpl. unfold AggregateSignatureWithRounds_new.
  rewrite (length_omap_filter (λ a, is_Some (ps !! a))), <- Hnum, Nat.eqb_refl by done. simpl.
  eexists. split; [done|]. split; [|done].
  unfold TwoChainTimeoutCertificate_verify; simpl. rewrite Ht. simpl.
  rewrite Hmax. simpl. rewrite Z.eqb_refl. simpl.
  unfold verify_aggregate_signatures, tc_timeout_messages, get_voters_and_rounds; simpl.
  fold addrs. rewrite Hsigners, He, Hr, <- list_fmap_compose.
  rewrite (list_fmap_ext _ (λ p, signing_message (repr p.2))) by (by intros ? [] ?).
  rewrite (zip_omap_filter (λ a, is_Some (ps !! a)) _ 0 (λ q, signing_message (repr q))) by done.
  rewrite Hver; [done|]. rewrite <- Hq. f_equal. apply check_voting_power_perm.
  apply NoDup_Permutation; [apply NoDup_filter, ordered_addresses_NoDup|apply NoDup_fst_map_to_list|].
  intros a. rewrite list_elem_of_filter, Hlook, fmap_is_Some, elem_of_keys. naive_solver.
Qed.

Lemma pv_inv_timeouts_ok e r self t :
  pv_inv e r self → pv_maybe_partial_2chain_tc self = Some t → timeouts_ok e r t.
Proof using Type.
  intros (Hv & _ & _ & Ht) Htc. destruct (Ht _ Htc) as (? & He & Hr & ? & Hs).
  do 4 (split; [done|]). intros a q s Ha. destruct (Hs _ _ _ Ha) as (w & d & tm & Hw & Htm & ->).
  destruct (Hv _ _ _ Hw) as (<- & _ & (Hok & <- & <- & _)).
  apply Vote_verify_Ok in Hok as (_ & _ & _ & Htv). destruct (Htv _ _ Htm) as (<- & <- & _ & Hsig).
  exact Hsig.
Qed.

(** Adding the timeout of a stored vote to the collected ones. *)
Lemma add_timeout_inv e r self vote d timeout sig echo :
  pv_inv e r self → round_vote e r vote →
  pv_author_to_vote self !! vote_author vote = Some (vote, d) →
  (∀ t, pv_maybe_partial_2chain_tc self = Some t → tps_signatures t !! vote_author vote = None) →
  vote_two_chain_timeout vote = Some (timeout, sig) →
  pv_inv e r
    {| pv_li_digest_to_votes := pv_li_digest_to_votes self;
       pv_maybe_partial_2chain_tc :=
         Some (TwoChainTimeoutWithPartialSignatures_add
                 (default (TwoChainTimeoutWithPartialSignatures_new timeout)
                    (pv_maybe_partial_2chain_tc self)) (vote_author vote) timeout sig);
       pv_author_to_vote := pv_author_to_vote self; pv_echo_timeout := echo |}.
Proof using Type.
  intros (Hv & Hl & Hd & Ht) (Hok & He & Hr & _) Hvote Hnew Htm. do 3 (split; [done|]).
  intros t [= <-]. apply Vote_verify_Ok in Hok as (_ & _ & _ & Htv).
  destruct (Htv _ _ Htm) as (Hte & Htr & Htok & _).
  destruct (pv_maybe_partial_2chain_tc self) as [t|]; simpl.
  - specialize (Hnew t eq_refl). destruct (Ht t eq_refl) as (Hinv & Ht1 & Ht2 & Ht3 & Hs).
    split; [by apply tps_inv_add|].
    unfold TwoChainTimeoutWithPartialSignatures_add, add_signature; simpl. rewrite Hnew.
    split_and!; [case_match; congruence..|by case_match|].
    intros a q s [[<- [= <- <-]]|[_ Ha]]%lookup_insert_Some; eauto 10.
  - split; [apply tps_inv_init|].
    unfold TwoChainTimeoutWithPartialSignatures_add, add_signature; simpl.
    rewrite lookup_empty. split_and!; [case_match; congruence..|by case_match|].
    intros a q s [[<- [= <- <-]]|[_ Ha]]%lookup_insert_Some; [by eauto 10|].
    by rewrite lookup_empty in Ha.
Qed.

(** ** Inserting votes *)

(** The outcomes of inserting a verified vote: certificates verify, and there
    is no error. *)
Definition reception_ok (e r : Z) (vote : Vote) (res : VoteReceptionResult) : Prop :=
  match res with
  | VoteAdded _ | DuplicateVote | EquivocateVote | EchoTimeout _ => True
  | NewQuorumCertificate qc =>
      QuorumCert_verify qc v = Ok tt ∧ qc_vote_data qc = vote_vote_data vote
  | New2ChainTimeoutCertificate tc =>
      TwoChainTimeoutCertificate_verify tc v = Ok tt ∧ tc_epoch tc = e ∧ tc_round tc = r
  | _ => False
  end.

(** A quorum of verified signatures on the vote's ledger info gives a quorum
    certificate. *)
Lemma aggregate_qc_now_ok e r vote li p :
  round_vote e r vote → livs_ledger_info li = vote_ledger_info vote →
  (∀ a s, livs_signatures li !! a = Some s → verifier_verify v a (vote_ledger_info vote) s = Ok tt) →
  ValidatorVerifier_check_voting_power v (keys (livs_signatures li)) = Ok p →
  ∃ qc, aggregate_qc_now v li (vote_vote_data vote) = Ok (NewQuorumCertificate qc) ∧
    QuorumCert_verify qc v = Ok tt ∧ qc_vote_data qc = vote_vote_data vote.
Proof using AL.
  intros (Hok & He & Hr & Hp0) Hli Hsigs Hp.
  apply Vote_verify_Ok in Hok as (Hh & _ & Hvd & _). unfold aggregate_qc_now.
  destruct (aggregate_ledger_info li) as (lis & -> & Hlis & Hver).
  { rewrite Hli. exact Hsigs. }
  { unfold keys in Hp. by rewrite Hp. }
  eexists. split; [done|]. split; [|done]. destruct (VoteData_verify_Ok _ _ Hvd) as [_ Hlt].
  unfold QuorumCert_verify, qc_ledger_info, qc_certified_block; simpl.
  rewrite Hlis, Hli, Hh.
  rewrite (bool_decide_true (hash (vote_vote_data vote) = hash (vote_vote_data vote))) by done. simpl.
  rewrite (proj2 (Z.eqb_neq _ 0)) by lia. rewrite Hver. simpl. by rewrite Hvd.
Qed.

Lemma handle_aggregated_qc_ok e r vote li p :
  round_vote e r vote → livs_ledger_info li = vote_ledger_info vote →
  (∀ a s, livs_signatures li !! a = Some s → verifier_verify v a (vote_ledger_info vote) s = Ok tt) →
  ValidatorVerifier_check_voting_power v (keys (livs_signatures li)) = Ok p →
  ∃ qc, handle_aggregated_qc v p vote li = Ok (NewQuorumCertificate qc) ∧
    QuorumCert_verify qc v = Ok tt ∧ qc_vote_data qc = vote_vote_data vote.
Proof using AL.
  intros Hvote Hli Hsigs Hp. unfold handle_aggregated_qc.
  rewrite Z.geb_leb, (proj2 (Z.leb_le _ _)) by (by eapply check_voting_power_quorum).
  by eapply aggregate_qc_now_ok.
Qed.

(** Verified signatures come from validators of the set. *)
Lemma signers_known (li : LedgerInfo) l :
  (∀ a s, livs_signatures l !! a = Some s → verifier_verify v a li s = Ok tt) →
  ∀ a, a ∈ keys (livs_signatures l) →
    is_Some (ValidatorVerifier_address_to_validator_index v !! a).
Proof using AL. intros Hs a [s Ha]%elem_of_keys. by eapply verify_known, Hs. Qed.

Lemma timeouts_signers_known e r t a :
  timeouts_ok e r t → a ∈ keys (tps_signatures t) →
  is_Some (ValidatorVerifier_address_to_validator_index v !! a).
Proof using AL.
  intros (_ & _ & _ & _ & Hs) [[q s] Ha]%elem_of_keys. by eapply verify_known, Hs.
Qed.

Lemma f_plus_one_ok {E} :
  (d ← u128_sub (ValidatorVerifier_total_voting_power v)
         (ValidatorVerifier_quorum_voting_power v);
   u128_add d 1) =
  Ok (E:=E) (ValidatorVerifier_total_voting_power v - ValidatorVerifier_quorum_voting_power v + 1).
Proof using AL.
  destruct quorum_voting_power_bounds. unfold u128_sub, u128_add.
  rewrite (proj2 (Z.leb_le _ _)) by lia. simpl. by rewrite (proj2 (Z.leb_le _ _)) by lia.
Qed.

Ltac received := split; [done|]; eexists; (split; [done|]); done.

Lemma insert_timeout_ok e r vote self self' p res d :
  pv_inv e r self → round_vote e r vote →
  pv_author_to_vote self !! vote_author vote = Some (vote, d) →
  (∀ t, pv_maybe_partial_2chain_tc self = Some t → tps_signatures t !! vote_author vote = None) →
  insert_timeout vote v p self = (self', res) →
  pv_inv e r self' ∧ ∃ rr, res = Ok rr ∧ reception_ok e r vote rr.
Proof using AL.
  intros Hinv Hvote Hstored Hnew H. unfold insert_timeout in H.
  destruct (vote_two_chain_timeout vote) as [[timeout sig]|] eqn:Htm; [|by simplify_eq; received].
  pose proof (λ echo, add_timeout_inv _ _ _ _ _ _ _ echo Hinv Hvote Hstored Hnew Htm) as Hinv'.
  set (t := TwoChainTimeoutWithPartialSignatures_add _ _ _ _) in *.
  pose proof (pv_inv_timeouts_ok _ _ _ t (Hinv' false) eq_refl) as Hok.
  destruct (ValidatorVerifier_check_voting_power _ _) as [q|err|] eqn:Hq.
  - destruct (timeouts_aggregate _ _ _ Hok) as (tc & Htc & Hver & Ht); [by rewrite Hq|].
    rewrite Htc in H. simplify_eq. split; [done|]. eexists. split; [done|]. simpl.
    unfold tc_epoch, tc_round. rewrite Ht. destruct Hok as (_ & ? & ? & _). done.
  - destruct (check_voting_power_known _ _ (λ a, timeouts_signers_known _ _ _ a Hok) Hq) as (p1 & p2 & ->).
    rewrite f_plus_one_ok in H. destruct (pv_echo_timeout self); simpl in H; [by simplify_eq; received|].
    case_match; simplify_eq; received.
  - by apply check_voting_power_no_panic in Hq.
Qed.

Lemma insert_new_vote_ok e r vote self self' res :
  pv_inv e r self → round_vote e r vote → may_store vote self →
  insert_new_vote vote v self = (self', res) →
  pv_inv e r self' ∧ ∃ rr, res = Ok rr ∧ reception_ok e r vote rr.
Proof using AL LL li_hash_inj.
  intros Hinv Hvote Hmay H. unfold insert_new_vote in H.
  destruct (store_vote vote self) as [li self1] eqn:Hst.
  destruct (store_vote_inv _ _ _ _ _ _ Hinv Hvote Hmay Hst) as (Hinv1 & Hli & Hsigs & Hnew & Hstored).
  destruct (ValidatorVerifier_check_voting_power _ _) as [p|err|] eqn:Hp.
  - destruct (handle_aggregated_qc_ok _ _ _ _ _ Hvote Hli Hsigs Hp) as (qc & Hqc & ? & ?).
    rewrite Hqc in H. simplify_eq. received.
  - destruct (check_voting_power_known _ _ (signers_known _ _ Hsigs) Hp) as (p1 & p2 & ->).
    by eapply insert_timeout_ok.
  - by apply check_voting_power_no_panic in Hp.
Qed.

Lemma insert_vote_ok e r vote self self' res :
  pv_inv e r self → round_vote e r vote →
  PendingVotes_insert_vote vote v self = (self', res) →
  pv_inv e r self' ∧ ∃ rr, res = Ok rr ∧ reception_ok e r vote rr.
Proof using AL LL li_hash_inj.
  intros Hinv Hvote H. unfold PendingVotes_insert_vote in H.
  destruct (pv_author_to_vote self !! vote_author vote) as [[prev d]|] eqn:Hprev.
  - case_bool_decide as Hd; [|by simplify_eq; received].
    destruct (vote_is_timeout vote && negb (vote_is_timeout prev)) eqn:Hto; simpl in H;
      [|by simplify_eq; received].
    bool_to_prop. eapply insert_new_vote_ok; try done.
    intros prev' d'. rewrite Hprev. intros [= <- <-]. done.
  - eapply insert_new_vote_ok; try done. intros prev d. by rewrite Hprev.
Qed.

(** A delayed request for a certificate either finds a quorum of votes or
    reports that there is none. *)
Lemma process_delayed_qc_ok e r r' vote self :
  pv_inv e r self → round_vote e r' vote →
  ∃ rr, process_delayed_qc v vote self = Ok rr ∧
    (rr = ErrorAddingVote EmptySignature ∨
     ∃ qc, rr = NewQuorumCertificate qc ∧ QuorumCert_verify qc v = Ok tt ∧
       qc_vote_data qc = vote_vote_data vote).
Proof using AL li_hash_inj.
  intros (Hrec & Hdig & _) Hvote. unfold process_delayed_qc.
  destruct (pv_li_digest_to_votes self !! hash (vote_ledger_info vote)) as [[i l]|] eqn:Hl; [|eauto].
  destruct (Hdig _ _ _ Hl) as [Hli%li_hash_inj Hsig].
  assert (∀ a s, livs_signatures l !! a = Some s →
    verifier_verify v a (vote_ledger_info vote) s = Ok tt) as Hsigs.
  { intros a s (w & Hw & <-)%Hsig. destruct (Hrec _ _ _ Hw) as (<- & Hd%li_hash_inj & Hw' & _).
    rewrite Hd. by apply Vote_verify_Ok in Hw' as (_ & ? & _). }
  destruct (ValidatorVerifier_check_voting_power v (keys (livs_signatures l))) as [p|err|] eqn:Hp.
  - destruct (aggregate_qc_now_ok _ _ _ _ _ Hvote Hli Hsigs Hp) as (qc & -> & ? & ?). eauto 10.
  - destruct (check_voting_power_known _ _ (signers_known _ _ Hsigs) Hp) as (p1 & p2 & ->). eauto.
  - by apply check_voting_power_no_panic in Hp.
Qed.

(** The votes of a round, inserted one after the other. *)
Fixpoint insert_votes (votes : list Vote) (self : PendingVotes) : PendingVotes :=
  match votes with
  | [] => self
  | vote :: votes => insert_votes votes (PendingVotes_insert_vote vote v self).1
  end.

Lemma insert_votes_inv e r votes self :
  pv_inv e r self → Forall (round_vote e r) votes → pv_inv e r (insert_votes votes self).
Proof using AL LL li_hash_inj.
  intros Hinv Hvotes. revert self Hinv. induction Hvotes as [|vote votes Hv _ IH]; intros self Hinv;
    simpl; [done|]. apply IH.
  destruct (PendingVotes_insert_vote vote v self) as [self' res] eqn:H.
  by eapply insert_vote_ok in H as [? _].
Qed.

(** C8. Certificates made from collected votes verify.  Whatever verified votes
    of a round were inserted before, in whatever order, inserting another one
    never panics or fails: it is added, recognised as a duplicate or an
    equivocation, or completes a certificate, and then the quorum certificate
    verifies and certifies the block voted for, or the timeout certificate
    verifies and is of this round. *)
Theorem collected_certificates_verify (e r : Z) (votes : list Vote) (vote : Vote)
    (self' : PendingVotes) (res : result anyhow VoteReceptionResult) :
  Forall (round_vote e r) votes → round_vote e r vote →
  PendingVotes_insert_vote vote v (insert_votes votes PendingVotes_new) = (self', res) →
  ∃ rr, res = Ok rr ∧ reception_ok e r vote rr.
Proof using AL LL li_hash_inj.
  intros Hvotes Hvote H. eapply insert_vote_ok in H as [_ ?]; try done.
  apply insert_votes_inv; [apply pv_inv_new|done].
Qed.

(** ** Completeness *)

Lemma insert_timeout_authors vote p self :
  pv_author_to_vote (insert_timeout vote v p self).1 = pv_author_to_vote self.
Proof using Type. unfold insert_timeout. repeat case_match; done. Qed.

(** A vote is recorded unless its author already has one on record. *)
Lemma insert_vote_authors vote self :
  (pv_author_to_vote (PendingVotes_insert_vote vote v self).1 = pv_author_to_vote self ∧
   is_Some (pv_author_to_vote self !! vote_author vote)) ∨
  pv_author_to_vote (PendingVotes_insert_vote vote v self).1 =
    <[vote_author vote := (vote, hash (vote_ledger_info vote))]> (pv_author_to_vote self).
Proof using Type.
  assert (pv_author_to_vote (insert_new_vote vote v self).1 =
    <[vote_author vote := (vote, hash (vote_ledger_info vote))]> (pv_author_to_vote self)) as Hnew.
  { unfold insert_new_vote, store_vote. destruct (default _ _) as [i l].
    case_match; [done| |done]. case_match; try done. by rewrite insert_timeout_authors. }
  unfold PendingVotes_insert_vote.
  destruct (pv_author_to_vote self !! vote_author vote) as [[prev d]|] eqn:Hprev; [|by right].
  repeat case_match; eauto.
Qed.

Lemma insert_votes_authors votes self a :
  (∀ w d, pv_author_to_vote (insert_votes votes self) !! a = Some (w, d) →
     pv_author_to_vote self !! a = Some (w, d) ∨
     w ∈ votes ∧ vote_author w = a ∧ d = hash (vote_ledger_info w)) ∧
  ((∃ w, w ∈ votes ∧ vote_author w = a) ∨ is_Some (pv_author_to_vote self !! a) →
   is_Some (pv_author_to_vote (insert_votes votes self) !! a)).
Proof using Type.
  revert self. induction votes as [|vote votes IH]; intros self; simpl.
  { split; [by left|]. intros [(w & []%elem_of_nil & _)|?]; done. }
  destruct (IH (PendingVotes_insert_vote vote v self).1) as [IH1 IH2]. clear IH.
  setoid_rewrite elem_of_cons.
  destruct (insert_vote_authors vote self) as [[Heq Hsome]|Heq]; rewrite Heq in IH1, IH2.
  - split.
    + intros w d H. destruct (IH1 _ _ H) as [?|(?&?&?)]; eauto 10.
    + intros [(w & [->|Hw] & <-)|?]; apply IH2; eauto.
  - split.
    + intros w d H. destruct (IH1 _ _ H) as [[[<- [= <- <-]]|[_ ?]]%lookup_insert_Some|(?&?&?)];
        eauto 10.
    + intros H. apply IH2. destruct (decide (vote_author vote = a)) as [<-|Hne].
      { right. rewrite lookup_insert_eq. eauto. }
      rewrite lookup_insert_ne by done. destruct H as [(w & [->|Hw] & Hwa)|?]; [done|eauto..].
Qed.

Lemma store_vote_lookup vote self li self' :
  store_vote vote self = (li, self') →
  (∃ i, pv_li_digest_to_votes self' !! hash (vote_ledger_info vote) = Some (i, li)) ∧
  pv_author_to_vote self' =
    <[vote_author vote := (vote, hash (vote_ledger_info vote))]> (pv_author_to_vote self).
Proof using Type.
  unfold store_vote. destruct (default _ _) as [i l]. intros [= <- <-]. simpl.
  rewrite lookup_insert_eq. eauto.
Qed.

(** C9. A quorum certificate is made as soon as a quorum has voted: when the
    authors of a set with quorum power have each voted for the ledger info of
    the arriving vote and for nothing else, that vote completes a certificate
    of its block, whatever other votes were collected before. *)
Theorem quorum_of_votes_certifies (e r : Z) (votes : list Vote) (vote : Vote)
    (Q : list AccountAddress) :
  Forall (round_vote e r) (vote :: votes) →
  (∀ w, w ∈ votes → vote_author w ≠ vote_author vote) →
  NoDup Q →
  (∀ a, a ∈ Q → (∃ w, w ∈ vote :: votes ∧ vote_author w = a) ∧
     ∀ w, w ∈ vote :: votes → vote_author w = a → vote_ledger_info w = vote_ledger_info vote) →
  is_ok (ValidatorVerifier_check_voting_power v Q) = true →
  ∃ self' qc,
    PendingVotes_insert_vote vote v (insert_votes votes PendingVotes_new) =
      (self', Ok (NewQuorumCertificate qc)) ∧
    QuorumCert_verify qc v = Ok tt ∧ qc_vote_data qc = vote_vote_data vote.
Proof using AL LL li_hash_inj.
  intros [Hvote Hvotes]%Forall_cons Hfirst HnodupQ HQ Hpower.
  pose proof (insert_votes_inv e r votes _ (pv_inv_new e r) Hvotes) as Hinv.
  pose proof (λ a, insert_votes_authors votes PendingVotes_new a) as Hauth.
  set (self := insert_votes votes PendingVotes_new) in *. unfold PendingVotes_insert_vote.
  destruct (pv_author_to_vote self !! vote_author vote) as [[prev d]|] eqn:Hprev.
  { destruct (proj1 (Hauth _) _ _ Hprev) as [[=]|(Hin & Ha & _)]. by destruct (Hfirst prev Hin). }
  unfold insert_new_vote. destruct (store_vote vote self) as [li self1] eqn:Hst.
  assert (may_store vote self) as Hmay by (intros ??; by rewrite Hprev).
  destruct (store_vote_inv _ _ _ _ _ _ Hinv Hvote Hmay Hst) as (Hinv1 & Hli & Hsigs & _ & _).
  destruct (store_vote_lookup _ _ _ _ Hst) as [[i Hi] Heq].
  assert (Q ⊆ keys (livs_signatures li)) as Hsub.
  { intros a [Hex Hsame]%HQ. apply elem_of_keys.
    destruct Hinv1 as (_ & Hl & _). destruct (Hl _ _ _ Hi) as [_ Hsig].
    destruct (decide (vote_author vote = a)) as [<-|Hne].
    { exists (vote_signature vote). apply Hsig. exists vote. by rewrite Heq, lookup_insert_eq. }
    destruct Hex as (w & [->|Hw]%elem_of_cons & Hwa); [done|].
    destruct (proj2 (Hauth a)) as [[w' d'] Hw']; [by eauto|].
    destruct (proj1 (Hauth a) _ _ Hw') as [[=]|(Hin & Ha & ->)].
    exists (vote_signature w'). apply Hsig. exists w'. split; [|done].
    rewrite Heq, lookup_insert_ne, Hw' by done. do 2 f_equal. f_equal.
    apply Hsame; [by apply elem_of_cons; right|done]. }
  destruct (ValidatorVerifier_check_voting_power v (keys (livs_signatures li))) as [p|err|] eqn:Hp.
  - destruct (handle_aggregated_qc_ok _ _ _ _ _ Hvote Hli Hsigs Hp) as (qc & -> & ? & ?). eauto.
  - exfalso. eapply check_voting_power_mono in Hpower; [|done|done|by eapply signers_known].
    by rewrite Hp in Hpower.
  - by apply check_voting_power_no_panic in Hp.
Qed.

(** No validator counts twice: after any verified votes, the signatures
    collected for two different ledger infos have no author in common, and a
    second vote of an author for another ledger info is reported as an
    equivocation and changes nothing. *)
Theorem votes_counted_once (e r : Z) (votes : list Vote) :
  Forall (round_vote e r) votes →
  let self := insert_votes votes PendingVotes_new in
  (∀ d1 d2 i1 i2 l1 l2 a,
     pv_li_digest_to_votes self !! d1 = Some (i1, l1) →
     pv_li_digest_to_votes self !! d2 = Some (i2, l2) →
     is_Some (livs_signatures l1 !! a) → is_Some (livs_signatures l2 !! a) → d1 = d2) ∧
  (∀ w vote, w ∈ votes → vote_author vote = vote_author w →
     (∀ w', w' ∈ votes → vote_author w' = vote_author w →
        vote_ledger_info w' ≠ vote_ledger_info vote) →
     PendingVotes_insert_vote vote v self = (self, Ok EquivocateVote)).
Proof using AL LL li_hash_inj.
  intros Hvotes self.
  destruct (insert_votes_inv e r votes _ (pv_inv_new e r) Hvotes) as (Hv & Hl & _).
  split.
  - intros d1 d2 i1 i2 l1 l2 a H1 H2 [s1 Hs1] [s2 Hs2].
    apply (proj2 (Hl _ _ _ H1)) in Hs1 as (w1 & Hw1 & _).
    apply (proj2 (Hl _ _ _ H2)) in Hs2 as (w2 & Hw2 & _). congruence.
  - intros w vote Hw Ha Hdiff.
    destruct (insert_votes_authors votes PendingVotes_new (vote_author w)) as [H1 H2].
    fold self in H1, H2. destruct H2 as [[w' d] Hw']; [by eauto|].
    unfold PendingVotes_insert_vote. rewrite Ha, Hw'.
    destruct (H1 _ _ Hw') as [[=]|(Hin & Ha' & ->)].
    case_bool_decide as Hd; [|done]. apply li_hash_inj in Hd. by destruct (Hdiff w' Hin Ha').
Qed.

(** ** Order votes *)

(** The collected signatures of each ledger info verify, one by one before
    there are enough, and as an aggregate afterwards. *)
Definition pov_inv (self : PendingOrderVotes) : Prop :=
  ∀ d status, self !! d = Some status →
    hash (status_ledger_info status) = d ∧
    match status with
    | EnoughVotes lis => LedgerInfoWithSignatures_verify_signatures lis v = Ok tt
    | NotEnoughVotes l =>
        ∀ a s, livs_signatures l !! a = Some s → verifier_verify v a (livs_ledger_info l) s = Ok tt
    end.

Lemma OrderVote_verify_Ok o :
  OrderVote_verify o v = Ok tt →
  LedgerInfo_consensus_data_hash (ov_ledger_info o) = HashValue_zero ∧
  verifier_verify v (ov_author o) (ov_ledger_info o) (ov_signature o) = Ok tt.
Proof using Type. unfold OrderVote_verify, context. intros. inv_ok. done. Qed.

Lemma pov_inv_insert self d status :
  pov_inv self → hash (status_ledger_info status) = d →
  match status with
  | EnoughVotes lis => LedgerInfoWithSignatures_verify_signatures lis v = Ok tt
  | NotEnoughVotes l =>
      ∀ a s, livs_signatures l !! a = Some s → verifier_verify v a (livs_ledger_info l) s = Ok tt
  end → pov_inv (<[d := status]> self).
Proof using Type.
  intros Hinv Hh Hs d' status' [[<- <-]|[_ ?]]%lookup_insert_Some; [done|by apply Hinv].
Qed.

(** The outcomes of inserting a verified order vote. *)
Definition order_reception_ok (o : OrderVote) (self' : PendingOrderVotes)
    (res : OrderVoteReceptionResult) : Prop :=
  match res with
  | OVoteAdded _ => has_enough_order_votes (ov_ledger_info o) self' = false
  | NewLedgerInfoWithSignatures lis =>
      LedgerInfoWithSignatures_verify_signatures lis v = Ok tt ∧
      LedgerInfoWithSignatures_ledger_info lis = ov_ledger_info o ∧
      has_enough_order_votes (ov_ledger_info o) self' = true
  | _ => False
  end.

Lemma insert_order_vote_ok o self self' res :
  pov_inv self → OrderVote_verify o v = Ok tt → insert_order_vote o v self = (self', res) →
  pov_inv self' ∧ ∃ rr, res = Ok rr ∧ order_reception_ok o self' rr.
Proof using AL LL li_hash_inj.
  intros Hinv (_ & Hsig)%OrderVote_verify_Ok H. unfold insert_order_vote in H.
  set (d := hash (ov_ledger_info o)) in *.
  destruct (default _ _) as [lis|l] eqn:Hdef.
  { destruct (self !! d) as [status|] eqn:Hd; simplify_eq/=.
    destruct (Hinv _ _ Hd) as [Hh Hok]. simpl in Hh. apply li_hash_inj in Hh.
    split; [apply pov_inv_insert; [done|by simpl; rewrite Hh|done]|]. eexists. split; [done|]. split_and!; [done..|].
    unfold has_enough_order_votes. fold d. by rewrite lookup_insert_eq. }
  assert (livs_ledger_info l = ov_ledger_info o ∧ ∀ a s, livs_signatures l !! a = Some s →
    verifier_verify v a (ov_ledger_info o) s = Ok tt) as [Hli Hsigs].
  { destruct (self !! d) as [status|] eqn:Hd; simplify_eq/=.
    - destruct (Hinv _ _ Hd) as [Hh Hok]. simpl in Hh. apply li_hash_inj in Hh.
      rewrite Hh in Hok. done.
    - autorewrite with liquent. split; [done|]. intros a s. by rewrite lookup_empty. }
  destruct (proj2 (voting_power_known _) (verify_known _ _ _ Hsig)) as [power Hpower].
  rewrite Hpower in H.
  set (l' := LedgerInfoWithVerifiedSignatures_add_signature _ _ l) in *.
  assert (livs_ledger_info l' = ov_ledger_info o) as Hli'.
  { unfold l'. by autorewrite with liquent. }
  assert (∀ a s, livs_signatures l' !! a = Some s → verifier_verify v a (ov_ledger_info o) s = Ok tt)
    as Hsigs'.
  { intros a s. unfold l'. autorewrite with liquent.
    intros [[<- <-]|[_ ?]]%lookup_insert_Some; auto. }
  assert (pov_inv (<[d := NotEnoughVotes l']> (<[d := NotEnoughVotes l]> self))) as Hinv'.
  { rewrite insert_insert_eq. apply pov_inv_insert; [done|by simpl; rewrite Hli'|]. by rewrite Hli'. }
  destruct (ValidatorVerifier_check_voting_power _ _) as [p|err|] eqn:Hp.
  - rewrite Z.geb_leb, (proj2 (Z.leb_le _ _)) in H by (by eapply check_voting_power_quorum).
    destruct (aggregate_ledger_info l') as (lis & Hagg & Hlis & Hver).
    { rewrite Hli'. exact Hsigs'. }
    { unfold keys in Hp. by rewrite Hp. }
    rewrite Hagg in H. simplify_eq. rewrite Hli' in Hlis. split.
    + apply pov_inv_insert; [done|by simpl; rewrite Hlis|done].
    + eexists. split; [done|]. split_and!; [done..|].
      unfold has_enough_order_votes. fold d. by rewrite lookup_insert_eq.
  - destruct (check_voting_power_known _ _ (signers_known _ _ Hsigs') Hp) as (p1 & p2 & ->).
    simplify_eq. split; [done|]. eexists. split; [done|]. simpl.
    unfold has_enough_order_votes. fold d. by rewrite lookup_insert_eq.
  - by apply check_voting_power_no_panic in Hp.
Qed.

(** What the order votes of the last rounds go through. *)
Inductive OrderVoteOp : Type :=
| InsertOrderVote (o : OrderVote)
| GarbageCollect (highest_ordered_round : Z).

Definition order_vote_step (op : OrderVoteOp) (self : PendingOrderVotes) : PendingOrderVotes :=
  match op with
  | InsertOrderVote o => (insert_order_vote o v self).1
  | GarbageCollect highest_ordered_round => garbage_collect highest_ordered_round self
  end.

Lemma order_vote_steps_inv ops :
  (∀ o, InsertOrderVote o ∈ ops → OrderVote_verify o v = Ok tt) →
  pov_inv (foldr order_vote_step PendingOrderVotes_new ops).
Proof using AL LL li_hash_inj.
  induction ops as [|op ops IH]; intros Hops; simpl; [by intros d status; unfold PendingOrderVotes_new; rewrite lookup_empty|].
  specialize (IH ltac:(intros o Ho; apply Hops, elem_of_cons; by right)).
  destruct op as [o|hor]; simpl.
  - destruct (insert_order_vote _ _ _) as [self' res] eqn:H. simpl.
    eapply insert_order_vote_ok in H as [? _]; try done. apply Hops, elem_of_cons. by left.
  - intros d status [H _]%map_lookup_filter_Some. by apply IH.
Qed.

(** Order votes: after any verified order votes and garbage collections,
    inserting another verified order vote never fails; it is counted, or
    returns an aggregate of the ledger info voted for that verifies, and the
    ledger info is reported to have enough votes exactly in the second case.
    Garbage collection forgets exactly the ledger infos up to the given
    round. *)
Theorem order_votes_aggregate (ops : list OrderVoteOp) (o : OrderVote)
    (self' : PendingOrderVotes) (res : result anyhow OrderVoteReceptionResult) :
  (∀ o', InsertOrderVote o' ∈ ops → OrderVote_verify o' v = Ok tt) →
  OrderVote_verify o v = Ok tt →
  let self := foldr order_vote_step PendingOrderVotes_new ops in
  insert_order_vote o v self = (self', res) →
  (∃ rr, res = Ok rr ∧ order_reception_ok o self' rr) ∧
  ∀ round li, has_enough_order_votes li (garbage_collect round self') =
    has_enough_order_votes li self' && (round <? LedgerInfo_round li).
Proof using AL LL li_hash_inj.
  intros Hops Ho self H. pose proof (order_vote_steps_inv ops Hops) as Hinv. fold self in Hinv.
  eapply insert_order_vote_ok in H as [Hinv' Hres]; [|done|done]. split; [done|].
  intros round li. unfold has_enough_order_votes, garbage_collect. rewrite map_lookup_filter.
  destruct (self' !! hash li) as [status|] eqn:Hs; simpl; [|done].
  destruct (Hinv' _ _ Hs) as [Hh%li_hash_inj _]. rewrite <- Hh.
  destruct (Z.ltb_spec round (LedgerInfo_round (status_ledger_info status))).
  - rewrite option_guard_True by lia. by destruct status.
  - rewrite option_guard_False by lia. by destruct status.
Qed.
End pending_votes_facts.
