(* ===== verification/RoundState.v ===== *)
(** The pacemaker: consensus/src/liveness/round_state.rs, with the part of
    consensus/src/util/time_service.rs it runs on.

    A [RoundState] follows the certificates its caller learns of from round to
    round, keeps the votes of the current round, and re-arms one local timer.
    The theorems are about runs: sequences of calls, ticks of the clock, timers
    that fire and timeout messages that are delivered, in any order. *)
From S2P Require Import Prelude Laptos Payload Certificates Block Votes PendingVotes.

(** * Durations

    A [Duration] is a number of nanoseconds; its arithmetic panics when the
    seconds leave [u64]. *)
Definition NANOS_PER_SEC : Z := 1000000000.
Definition Duration_MAX : Z := u64_MAX * NANOS_PER_SEC + 999999999.
Definition Duration_from_secs (secs : Z) : Z := secs * NANOS_PER_SEC.
Definition Duration_add {E} (a b : Z) : result E Z :=
  if a + b <=? Duration_MAX then Ok (a + b) else Panic.
Definition Duration_mul {E} (a n : Z) : result E Z :=
  if a * n <=? Duration_MAX then Ok (a * n) else Panic.
Definition u32_MAX : Z := 4294967295.
Definition u32_mul {E} (a b : Z) : result E Z := if a * b <=? u32_MAX then Ok (a * b) else Panic.

(** * The time service

    The clock, the scheduled [SendTask]s by the handle that aborts them, each
    with the time it is due and the round it sends, and the rounds that were
    sent and not yet received. *)
Record TimeService : Type := {
  ts_now : Z;
  ts_next : nat;
  ts_tasks : gmap nat (Z * Z);
  ts_channel : list Z;
}.

Definition run_after (timeout message : Z) (self : TimeService) : nat * TimeService :=
  (ts_next self,
   {| ts_now := ts_now self; ts_next := S (ts_next self);
      ts_tasks := <[ts_next self := (ts_now self + timeout, message)]> (ts_tasks self);
      ts_channel := ts_channel self |}).

(** Aborting a task that has run is a no-op. *)
Definition abort (handle : nat) (self : TimeService) : TimeService :=
  {| ts_now := ts_now self; ts_next := ts_next self;
     ts_tasks := delete handle (ts_tasks self); ts_channel := ts_channel self |}.

(** A scheduled task whose sleep is over runs: it sends its message. *)
Definition fire (handle : nat) (self : TimeService) : TimeService :=
  match ts_tasks self !! handle with
  | Some (due, message) =>
      if due <=? ts_now self then
        {| ts_now := ts_now self; ts_next := ts_next self;
           ts_tasks := delete handle (ts_tasks self);
           ts_channel := ts_channel self ++ [message] |}
      else self
  | None => self
  end.

Definition elapse (t : Z) (self : TimeService) : TimeService :=
  {| ts_now := ts_now self + t; ts_next := ts_next self; ts_tasks := ts_tasks self;
     ts_channel := ts_channel self |}.

(** The trait [RoundTimeInterval]: how long a round lasts, given the number of
    rounds since the last one that ordered a block. *)
Class RoundTimeInterval : Type := { get_round_duration : Z → Z }.

(** * The round state *)

Inductive NewRoundReason : Type := QCReady | Timeout.

Section round_state.
Context `{L : Laptos} `{!CryptoHash VoteData, !CryptoHash TimeoutSigningRepr}.
Context `{!CryptoHash LedgerInfo} `{RTI : RoundTimeInterval}.

Record NewRoundEvent : Type := {
  nre_round : Z;
  nre_reason : NewRoundReason;
  nre_timeout : Z;
  nre_prev_round_votes : list (HashValue * LedgerInfoWithVerifiedSignatures);
  nre_prev_round_timeout_votes : option TwoChainTimeoutWithPartialSignatures;
}.

Record RoundState : Type := {
  rs_highest_ordered_round : Z;
  rs_current_round : Z;
  rs_current_round_deadline : Z;
  rs_time_service : TimeService;
  rs_pending_votes : PendingVotes;
  rs_vote_sent : option Vote;
  rs_abort_handle : option nat;
  rs_is_validator : bool;
}.

Definition RoundState_new (time_service : TimeService) (is_validator : bool) : RoundState :=
  {| rs_highest_ordered_round := 0; rs_current_round := 0;
     rs_current_round_deadline := Duration_from_secs u64_MAX;
     rs_time_service := time_service; rs_pending_votes := PendingVotes_new;
     rs_vote_sent := None; rs_abort_handle := None; rs_is_validator := is_validator |}.

Definition RoundState_is_vote_timeout (self : RoundState) : bool :=
  from_option vote_is_timeout false (rs_vote_sent self).

(** The index of the current round after the highest ordered one. *)
Definition round_index_after_ordered_round (self : RoundState) : result anyhow Z :=
  if rs_highest_ordered_round self =? 0 then u64_sub (rs_current_round self) 1
  else
    h ← u64_add (rs_highest_ordered_round self) 3;
    if rs_current_round self <? h then Ok 0
    else d ← u64_sub (rs_current_round self) (rs_highest_ordered_round self); u64_sub d 3.

Definition setup_deadline (multiplier : Z) : SM RoundState anyhow Z := λ self,
  match (i ← round_index_after_ordered_round self;
         timeout ← Duration_mul (get_round_duration i) multiplier;
         deadline ← Duration_add (ts_now (rs_time_service self)) timeout;
         Ok (timeout, deadline)) with
  | Ok (timeout, deadline) =>
      ({| rs_highest_ordered_round := rs_highest_ordered_round self;
          rs_current_round := rs_current_round self;
          rs_current_round_deadline := deadline;
          rs_time_service := rs_time_service self;
          rs_pending_votes := rs_pending_votes self; rs_vote_sent := rs_vote_sent self;
          rs_abort_handle := rs_abort_handle self;
          rs_is_validator := rs_is_validator self |}, Ok timeout)
  | Err e => (self, Err e)
  | Panic => (self, Panic)
  end.

(** Schedule the timer and abort the one it replaces. *)
Definition replace_timer (timeout : Z) (self : RoundState) : RoundState :=
  let '(abort_handle, time_service) :=
    run_after timeout (rs_current_round self) (rs_time_service self) in
  let time_service := from_option (λ h, abort h time_service) time_service (rs_abort_handle self) in
  {| rs_highest_ordered_round := rs_highest_ordered_round self;
     rs_current_round := rs_current_round self;
     rs_current_round_deadline := rs_current_round_deadline self;
     rs_time_service := time_service;
     rs_pending_votes := rs_pending_votes self; rs_vote_sent := rs_vote_sent self;
     rs_abort_handle := Some abort_handle; rs_is_validator := rs_is_validator self |}.

(** The [debug_assert!] counts as a panic. *)
Definition setup_timeout (multiplier : Z) : SM RoundState anyhow Z := λ self,
  if negb (rs_is_validator self) then (self, Panic)
  else
    (m ← lift (λ _, u32_mul multiplier 2);
     timeout ← setup_deadline m;
     ((λ self, (replace_timer timeout self, Ok timeout)) : SM RoundState anyhow Z)) self.

Definition process_local_timeout (round : Z) : SM RoundState anyhow bool := λ self,
  if negb (rs_is_validator self) || negb (round =? rs_current_round self) then (self, Ok false)
  else (_ ← setup_timeout 1; mret true) self.

(** The part of [process_certificates] that starts a new round. *)
Definition start_round (sync_info : SyncInfo) : SM RoundState anyhow NewRoundEvent := λ self,
  let '(_, (prev_round_votes, prev_round_timeout_votes)) := drain_votes (rs_pending_votes self) in
  let new_round := rs_current_round self in
  let self :=
    {| rs_highest_ordered_round := rs_highest_ordered_round self;
       rs_current_round := rs_current_round self;
       rs_current_round_deadline := rs_current_round_deadline self;
       rs_time_service := rs_time_service self;
       rs_pending_votes := PendingVotes_new; rs_vote_sent := None;
       rs_abort_handle := rs_abort_handle self; rs_is_validator := rs_is_validator self |} in
  (timeout ← setup_timeout 1;
   next ← lift (λ _, u64_add (SyncInfo_highest_certified_round sync_info) 1);
   mret {| nre_round := new_round;
           nre_reason := if next =? new_round then QCReady else Timeout;
           nre_timeout := timeout;
           nre_prev_round_votes := prev_round_votes;
           nre_prev_round_timeout_votes := prev_round_timeout_votes |}) self.

Definition process_certificates (sync_info : SyncInfo) : SM RoundState anyhow (option NewRoundEvent) :=
  λ self,
  let with_rounds ordered current :=
    {| rs_highest_ordered_round := ordered; rs_current_round := current;
       rs_current_round_deadline := rs_current_round_deadline self;
       rs_time_service := rs_time_service self;
       rs_pending_votes := rs_pending_votes self; rs_vote_sent := rs_vote_sent self;
       rs_abort_handle := rs_abort_handle self; rs_is_validator := rs_is_validator self |} in
  let ordered :=
    if SyncInfo_highest_ordered_round sync_info >? rs_highest_ordered_round self
    then SyncInfo_highest_ordered_round sync_info else rs_highest_ordered_round self in
  (new_round ← lift (λ _, u64_add (SyncInfo_highest_round sync_info) 1);
   if new_round >? rs_current_round self then
     _ ← (λ _, (with_rounds ordered new_round, Ok tt)) : SM RoundState anyhow unit;
     if negb (rs_is_validator self) then mret None
     else event ← start_round sync_info; mret (Some event)
   else mret None) (with_rounds ordered (rs_current_round self)).

Definition with_votes (pending_votes : PendingVotes) (vote_sent : option Vote) (self : RoundState) :
    RoundState :=
  {| rs_highest_ordered_round := rs_highest_ordered_round self;
     rs_current_round := rs_current_round self;
     rs_current_round_deadline := rs_current_round_deadline self;
     rs_time_service := rs_time_service self;
     rs_pending_votes := pending_votes; rs_vote_sent := vote_sent;
     rs_abort_handle := rs_abort_handle self; rs_is_validator := rs_is_validator self |}.

Definition RoundState_insert_vote (vote : Vote) (verifier : ValidatorVerifier) :
    SM RoundState anyhow VoteReceptionResult := λ self,
  if vote_round vote =? rs_current_round self then
    let '(pending_votes, res) := PendingVotes_insert_vote vote verifier (rs_pending_votes self) in
    (with_votes pending_votes (rs_vote_sent self) self, res)
  else (self, Ok (UnexpectedRound (vote_round vote) (rs_current_round self))).

Definition record_vote (vote : Vote) (self : RoundState) : RoundState :=
  if vote_round vote =? rs_current_round self
  then with_votes (rs_pending_votes self) (Some vote) self else self.

Definition process_delayed_qc_msg (validator_verifier : ValidatorVerifier) (vote : Vote)
    (self : RoundState) : result anyhow VoteReceptionResult :=
  process_delayed_qc validator_verifier vote (rs_pending_votes self).

End round_state.

(** * Runs *)
Section round_state_runs.
Context `{L : Laptos} `{!CryptoHash VoteData, !CryptoHash TimeoutSigningRepr}.
Context `{!CryptoHash LedgerInfo} `{RTI : RoundTimeInterval}.
(** The validator set of the epoch. *)
Context (v : ValidatorVerifier).

(** What happens to a round state: calls of its owner, ticks of the clock,
    timers that run, and delivery of the oldest timeout message. *)
Inductive RoundStateOp : Type :=
| Elapse (t : Z)
| Fire (handle : nat)
| DeliverTimeout
| Certificates (sync_info : SyncInfo)
| InsertVote (vote : Vote)
| RecordVote (vote : Vote)
| DelayedQc (vote : Vote).

Inductive Output : Type :=
| Quiet
| TimedOut (round : Z)
| NewRound (event : NewRoundEvent)
| Received (res : VoteReceptionResult).

Definition with_time_service (time_service : TimeService) (self : RoundState) : RoundState :=
  {| rs_highest_ordered_round := rs_highest_ordered_round self;
     rs_current_round := rs_current_round self;
     rs_current_round_deadline := rs_current_round_deadline self;
     rs_time_service := time_service;
     rs_pending_votes := rs_pending_votes self; rs_vote_sent := rs_vote_sent self;
     rs_abort_handle := rs_abort_handle self; rs_is_validator := rs_is_validator self |}.

(** The subscriber receives a timeout message and hands it to the round
    state. *)
Definition deliver_timeout : SM RoundState anyhow Output := λ self,
  match ts_channel (rs_time_service self) with
  | [] => (self, Ok Quiet)
  | round :: channel =>
      (b ← process_local_timeout round; mret (if b : bool then TimedOut round else Quiet))
        (with_time_service
           {| ts_now := ts_now (rs_time_service self); ts_next := ts_next (rs_time_service self);
              ts_tasks := ts_tasks (rs_time_service self); ts_channel := channel |} self)
  end.

Definition step (op : RoundStateOp) : SM RoundState anyhow Output :=
  match op with
  | Elapse t => λ self, (with_time_service (elapse t (rs_time_service self)) self, Ok Quiet)
  | Fire handle => λ self, (with_time_service (fire handle (rs_time_service self)) self, Ok Quiet)
  | DeliverTimeout => deliver_timeout
  | Certificates sync_info =>
      event ← process_certificates sync_info; mret (from_option NewRound Quiet event)
  | InsertVote vote => res ← RoundState_insert_vote vote v; mret (Received res)
  | RecordVote vote => λ self, (record_vote vote self, Ok Quiet)
  | DelayedQc vote => res ← lift (process_delayed_qc_msg v vote); mret (Received res)
  end.

Fixpoint run (ops : list RoundStateOp) : SM RoundState anyhow (list Output) :=
  match ops with
  | [] => mret []
  | op :: ops => o ← step op; os ← run ops; mret (o :: os)
  end.

(** The rounds started in a run. *)
Definition new_rounds : list Output → list Z :=
  omap (λ o, match o with NewRound event => Some (nre_round event) | _ => None end).

Definition elapsed (ops : list RoundStateOp) : Z :=
  foldr (λ op n, match op with Elapse t => t + n | _ => n end) 0 ops.

(** The round that a call lets the validator enter. *)
Definition next_round_of (op : RoundStateOp) : Z :=
  match op with Certificates sync_info => SyncInfo_highest_round sync_info + 1 | _ => 0 end.

(** What callers guarantee: time does not run backwards, rounds are [u64]s with
    some room left, and votes are those of the epoch that passed
    verification. *)
Definition sync_info_in_range (sync_info : SyncInfo) : Prop :=
  0 ≤ SyncInfo_highest_certified_round sync_info ∧
  0 ≤ SyncInfo_highest_ordered_round sync_info ≤ u64_MAX - 3 ∧
  SyncInfo_highest_round sync_info < u64_MAX.
Definition op_in_range (e : Z) (op : RoundStateOp) : Prop :=
  match op with
  | Elapse t => 0 ≤ t
  | Certificates sync_info => sync_info_in_range sync_info
  | InsertVote vote | RecordVote vote | DelayedQc vote => round_vote v e (vote_round vote) vote
  | Fire _ | DeliverTimeout => True
  end.

End round_state_runs.

Section round_state_facts.
Context `{L : Laptos} `{LL : !LaptosLaws L}.
Context `{!CryptoHash VoteData, !CryptoHash TimeoutSigningRepr, !CryptoHash LedgerInfo}.
Context (v : ValidatorVerifier) `{AL : !AggregationLaws v}.
Context (li_hash_inj : Inj (=) (=) (hash (T:=LedgerInfo))).
(** Rounds last at most [D]. *)
Context `{RTI : RoundTimeInterval} (D : Z).
Context (interval_bound : ∀ i, 0 ≤ get_round_duration i ≤ D).

(** The timer of the current round is pending, or its message is waiting. *)
Definition armed (self : RoundState) : Prop :=
  (∃ h, ts_tasks (rs_time_service self) !! h =
          Some (rs_current_round_deadline self, rs_current_round self)) ∨
  rs_current_round self ∈ ts_channel (rs_time_service self).

Definition timer_inv (self : RoundState) : Prop :=
  Forall (λ r, 1 ≤ r ≤ rs_current_round self) (ts_channel (rs_time_service self)) ∧
  (∀ h x, ts_tasks (rs_time_service self) !! h = Some x →
     rs_abort_handle self = Some h ∧
     x = (rs_current_round_deadline self, rs_current_round self) ∧ 1 ≤ rs_current_round self) ∧
  (∀ h, rs_abort_handle self = Some h → (h < ts_next (rs_time_service self))%nat) ∧
  (1 ≤ rs_current_round self → armed self ∧
     rs_current_round_deadline self ≤ ts_now (rs_time_service self) + 2 * D).

Definition rs_inv (e : Z) (self : RoundState) : Prop :=
  rs_is_validator self = true ∧
  0 ≤ rs_highest_ordered_round self ≤ u64_MAX - 3 ∧ 0 ≤ rs_current_round self ∧
  pv_inv v e (rs_current_round self) (rs_pending_votes self) ∧
  (∀ vote, rs_vote_sent self = Some vote → vote_round vote = rs_current_round self) ∧
  timer_inv self.

(** ** Setting the timer *)

Definition timer_set (timeout : Z) (self : RoundState) : RoundState :=
  let ts := rs_time_service self in
  {| rs_highest_ordered_round := rs_highest_ordered_round self;
     rs_current_round := rs_current_round self;
     rs_current_round_deadline := ts_now ts + timeout;
     rs_time_service :=
       {| ts_now := ts_now ts; ts_next := S (ts_next ts);
          ts_tasks := {[ts_next ts := (ts_now ts + timeout, rs_current_round self)]};
          ts_channel := ts_channel ts |};
     rs_pending_votes := rs_pending_votes self; rs_vote_sent := rs_vote_sent self;
     rs_abort_handle := Some (ts_next ts); rs_is_validator := rs_is_validator self |}.

Lemma round_index_ok self :
  1 ≤ rs_current_round self → 0 ≤ rs_highest_ordered_round self ≤ u64_MAX - 3 →
  ∃ i, round_index_after_ordered_round self = Ok i.
Proof using Type.
  intros Hcur Hord. unfold round_index_after_ordered_round.
  destruct (Z.eqb_spec (rs_highest_ordered_round self) 0).
  { eexists. apply u64_sub_Ok. split; [reflexivity|lia]. }
  unfold u64_add. destruct (Z.leb_spec (rs_highest_ordered_round self + 3) u64_MAX); [|lia].
  simpl. destruct (Z.ltb_spec (rs_current_round self) (rs_highest_ordered_round self + 3)); [eauto|].
  unfold u64_sub. destruct (Z.leb_spec (rs_highest_ordered_round self) (rs_current_round self)); [|lia].
  simpl. destruct (Z.leb_spec 3 (rs_current_round self - rs_highest_ordered_round self)); [eauto|lia].
Qed.

(** The replaced timer is the only one. *)
Lemma replaced_timer ts handle due timeout round :
  (∀ h x, ts_tasks ts !! h = Some x → handle = Some h) →
  (∀ h, handle = Some h → (h < ts_next ts)%nat) →
  due = ts_now ts + timeout →
  from_option (λ h, abort h (run_after timeout round ts).2) (run_after timeout round ts).2 handle =
    {| ts_now := ts_now ts; ts_next := S (ts_next ts);
       ts_tasks := {[ts_next ts := (due, round)]}; ts_channel := ts_channel ts |}.
Proof using Type.
  intros Htasks Hnext ->. unfold run_after, abort. simpl.
  destruct handle as [h0|]; simpl; f_equal; apply map_eq; intros h.
  - specialize (Hnext h0 eq_refl). destruct (decide (h = ts_next ts)) as [->|Hne].
    { rewrite lookup_delete_ne, lookup_insert_eq, lookup_singleton_eq by lia. done. }
    rewrite lookup_singleton_ne by done. apply eq_None_not_Some. intros [x Hx].
    apply lookup_delete_Some in Hx as [? [[? _]|[_ Hx]]%lookup_insert_Some]; [by subst|].
    by apply Htasks in Hx as [= ->].
  - destruct (decide (h = ts_next ts)) as [->|Hne].
    { rewrite lookup_insert_eq, lookup_singleton_eq. done. }
    rewrite lookup_insert_ne, lookup_singleton_ne by done.
    apply eq_None_not_Some. intros [x Hx]. by apply Htasks in Hx.
Qed.

Lemma setup_timeout_spec self :
  rs_is_validator self = true → 1 ≤ rs_current_round self →
  0 ≤ rs_highest_ordered_round self ≤ u64_MAX - 3 →
  0 ≤ ts_now (rs_time_service self) → ts_now (rs_time_service self) + 2 * D ≤ Duration_MAX →
  (∀ h x, ts_tasks (rs_time_service self) !! h = Some x → rs_abort_handle self = Some h) →
  (∀ h, rs_abort_handle self = Some h → (h < ts_next (rs_time_service self))%nat) →
  ∃ timeout, 0 ≤ timeout ≤ 2 * D ∧ setup_timeout 1 self = (timer_set timeout self, Ok timeout).
Proof using interval_bound.
  intros Hval Hcur Hord Hnow Hmax Htasks Hnext.
  destruct (round_index_ok self Hcur Hord) as [i Hi]. pose proof (interval_bound i) as Hint.
  exists (get_round_duration i * 2). split; [lia|].
  unfold setup_timeout, setup_deadline, replace_timer. rewrite Hval.
  unfold mbind, SM_bind, lift. simpl. rewrite Hi. simpl.
  unfold Duration_mul. rewrite (proj2 (Z.leb_le _ _)) by lia. simpl.
  unfold Duration_add. rewrite (proj2 (Z.leb_le _ _)) by lia. simpl.
  unfold timer_set. f_equal. f_equal.
  by apply (replaced_timer _ _ _ _ (rs_current_round self)).
Qed.

Lemma timer_set_inv timeout self :
  1 ≤ rs_current_round self → 0 ≤ timeout ≤ 2 * D →
  Forall (λ r, 1 ≤ r ≤ rs_current_round self) (ts_channel (rs_time_service self)) →
  timer_inv (timer_set timeout self).
Proof using Type.
  intros Hcur Ht Hchan. unfold timer_inv, timer_set, armed. simpl. split_and!; [done|..].
  - intros h x [<- <-]%lookup_singleton_Some. done.
  - intros h [= <-]. lia.
  - intros _. split; [|lia]. left. eexists. apply lookup_singleton_eq.
Qed.

(** ** Each operation *)

(** What a call of [process_certificates] did. *)
Definition certificates_processed (sync_info : SyncInfo) (self self' : RoundState)
    (event : option NewRoundEvent) : Prop :=
  match event with
  | Some event =>
      nre_round event = rs_current_round self' ∧ rs_current_round self < rs_current_round self' ∧
      rs_current_round self' = SyncInfo_highest_round sync_info + 1 ∧
      (nre_reason event = QCReady ↔
         SyncInfo_highest_certified_round sync_info + 1 = rs_current_round self')
  | None =>
      rs_current_round self' = rs_current_round self ∧
      SyncInfo_highest_round sync_info < rs_current_round self
  end.

Lemma process_certificates_ok e sync_info self :
  rs_inv e self → sync_info_in_range sync_info →
  0 ≤ ts_now (rs_time_service self) → ts_now (rs_time_service self) + 2 * D ≤ Duration_MAX →
  ∃ self' event, process_certificates sync_info self = (self', Ok event) ∧ rs_inv e self' ∧
    ts_now (rs_time_service self') = ts_now (rs_time_service self) ∧
    certificates_processed sync_info self self' event.
Proof using interval_bound.
  intros (Hval & Hord & Hcur & Hpv & Hsent & Hchan & Htasks & Hnext & Harmed)
    (Hcert & Hord' & Hhigh) Hnow Hmax.
  unfold process_certificates, mbind, SM_bind, lift. unfold u64_add.
  rewrite (proj2 (Z.leb_le _ _)) by lia.
  set (ordered := if SyncInfo_highest_ordered_round _ >? _ then _ else _).
  assert (0 ≤ ordered ≤ u64_MAX - 3) as Hordered by (subst ordered; case_match; done).
  clearbody ordered. destruct (_ >? _) eqn:Hgt; bool_to_prop.
  2: { eexists _, None. split; [done|]. split; [|split; [done|simpl; lia]].
       unfold rs_inv, timer_inv. simpl. split_and!; done || lia. }
  assert (0 ≤ SyncInfo_highest_round sync_info).
  { unfold SyncInfo_highest_round. lia. }
  rewrite Hval. simpl. unfold start_round, mbind, SM_bind. simpl.
  set (self1 := {| rs_vote_sent := None |}).
  destruct (setup_timeout_spec self1) as (timeout & Ht & ->);
    [subst self1; simpl; done || lia ..| | |].
  { subst self1. simpl. intros h x Hx. by apply Htasks in Hx as [? _]. }
  { done. }
  unfold lift, u64_add. rewrite (proj2 (Z.leb_le _ _)).
  2: { unfold SyncInfo_highest_round in Hhigh. lia. }
  eexists _, (Some _). split; [done|]. split; [|split; [done|]].
  - unfold rs_inv. simpl. split_and!; try done; try lia.
    apply timer_set_inv; subst self1; simpl; [lia|done|].
    eapply Forall_impl; [exact Hchan|]. simpl. lia.
  - simpl. split_and!; try done. case_match; bool_to_prop; split; try done; lia.
Qed.

Lemma rs_inv_time_service e self ts :
  rs_inv e self → timer_inv (with_time_service ts self) → rs_inv e (with_time_service ts self).
Proof using Type. unfold rs_inv. simpl. tauto. Qed.

Lemma fire_inv e self handle :
  rs_inv e self → rs_inv e (with_time_service (fire handle (rs_time_service self)) self).
Proof using Type.
  intros Hinv. apply rs_inv_time_service; [done|].
  destruct Hinv as (_ & _ & _ & _ & _ & Hchan & Htasks & Hnext & Harmed).
  unfold timer_inv, armed, fire in *. simpl.
  destruct (ts_tasks (rs_time_service self) !! handle) as [[due message]|] eqn:Hh; [|done].
  destruct (due <=? ts_now (rs_time_service self)); [|done]. simpl.
  apply Htasks in Hh as (Hhandle & [= -> ->] & Hcur). split_and!.
  - apply Forall_app. split; [done|]. by constructor.
  - intros h x [_ Hx]%lookup_delete_Some. by apply Htasks.
  - done.
  - intros _. destruct (Harmed Hcur) as [_ ?]. split; [|done].
    right. apply elem_of_app. right. by apply list_elem_of_singleton.
Qed.

Lemma elapse_inv e self t :
  rs_inv e self → 0 ≤ t → rs_inv e (with_time_service (elapse t (rs_time_service self)) self).
Proof using Type.
  intros Hinv Ht. apply rs_inv_time_service; [done|].
  destruct Hinv as (_ & _ & _ & _ & _ & Hchan & Htasks & Hnext & Harmed).
  unfold timer_inv, armed in *. simpl. split_and!; try done.
  intros Hcur. destruct (Harmed Hcur). split; [done|lia].
Qed.

(** The oldest timeout message either is about the current round, and re-arms
    its timer, or is stale and changes nothing else. *)
Lemma deliver_timeout_ok e self :
  rs_inv e self →
  0 ≤ ts_now (rs_time_service self) → ts_now (rs_time_service self) + 2 * D ≤ Duration_MAX →
  ∃ self' o, deliver_timeout self = (self', Ok o) ∧ rs_inv e self' ∧
    ts_now (rs_time_service self') = ts_now (rs_time_service self) ∧
    rs_current_round self' = rs_current_round self ∧
    match ts_channel (rs_time_service self) with
    | [] => o = Quiet
    | r :: channel =>
        ts_channel (rs_time_service self') = channel ∧
        o = if r =? rs_current_round self then TimedOut r else Quiet
    end.
Proof using interval_bound.
  intros Hinv Hnow Hmax. pose proof Hinv as (Hval & Hord & Hcur & Hpv & Hsent & Htimer).
  destruct Htimer as (Hchan & Htasks & Hnext & Harmed).
  unfold deliver_timeout. destruct (ts_channel (rs_time_service self)) as [|r channel] eqn:Hc.
  { by eexists _, _. }
  apply Forall_cons in Hchan as [Hr Hchan].
  unfold mbind, SM_bind, process_local_timeout. simpl. rewrite Hval. simpl.
  destruct (Z.eqb_spec r (rs_current_round self)) as [->|Hne]; simpl.
  - set (self1 := with_time_service _ self). unfold mbind, SM_bind.
    destruct (setup_timeout_spec self1) as (timeout & Ht & ->); [subst self1; simpl; done || lia ..| | |].
    { simpl. intros h x Hx. by apply Htasks in Hx as [? _]. }
    { done. }
    eexists _, _. split; [done|]. split; [|done]. unfold rs_inv. simpl. split_and!; try done; try lia.
    apply timer_set_inv; done || simpl; lia.
  - eexists _, _. split; [done|]. split; [|done]. apply rs_inv_time_service; [done|].
    unfold timer_inv, armed in *. simpl. split_and!; try done.
    rewrite Hc in Harmed. intros H1.
    destruct (Harmed H1) as [[?|[Heq|Hin]%elem_of_cons] ?]; [by eauto|by subst|by eauto].
Qed.

(** Inserting a vote: only votes of the current round count. *)
Definition vote_received (e : Z) (vote : Vote) (self self' : RoundState)
    (res : VoteReceptionResult) : Prop :=
  (vote_round vote = rs_current_round self ∧
     reception_ok v e (rs_current_round self) vote res) ∨
  (vote_round vote ≠ rs_current_round self ∧ self' = self ∧
     res = UnexpectedRound (vote_round vote) (rs_current_round self)).

Lemma RoundState_insert_vote_ok e vote self :
  rs_inv e self → round_vote v e (vote_round vote) vote →
  ∃ self' res, RoundState_insert_vote vote v self = (self', Ok res) ∧ rs_inv e self' ∧
    rs_time_service self' = rs_time_service self ∧
    rs_current_round self' = rs_current_round self ∧ vote_received e vote self self' res.
Proof using AL LL li_hash_inj.
  intros Hinv Hvote. unfold RoundState_insert_vote, vote_received.
  destruct (Z.eqb_spec (vote_round vote) (rs_current_round self)) as [Hr|Hr].
  2: { eexists _, _. split_and!; eauto. }
  destruct (PendingVotes_insert_vote vote v (rs_pending_votes self)) as [pv res] eqn:Hins.
  rewrite Hr in Hvote. destruct Hinv as (? & ? & ? & Hpv & ? & ?).
  destruct (insert_vote_ok _ li_hash_inj _ _ _ _ _ _ Hpv Hvote Hins) as (Hpv' & rr & -> & Hrr).
  eexists _, _. split; [done|]. split_and!; try done. by left.
Qed.

Lemma step_ok e op self :
  rs_inv e self → op_in_range v e op →
  0 ≤ ts_now (rs_time_service self) → ts_now (rs_time_service self) + 2 * D ≤ Duration_MAX →
  ∃ self' o, step v op self = (self', Ok o) ∧ rs_inv e self' ∧
    ts_now (rs_time_service self') = ts_now (rs_time_service self) + elapsed [op] ∧
    rs_current_round self' = Z.max (rs_current_round self) (next_round_of op) ∧
    new_rounds [o] =
      if rs_current_round self <? rs_current_round self' then [rs_current_round self'] else [].
Proof using AL LL li_hash_inj interval_bound.
  intros Hinv Hop Hnow Hmax. assert (0 ≤ rs_current_round self) as Hcur0 by apply Hinv.
  assert (∀ self' (l : list Z), rs_current_round self' = rs_current_round self → l = [] →
    rs_current_round self' = Z.max (rs_current_round self) 0 ∧
    l = if rs_current_round self <? rs_current_round self'
                     then [rs_current_round self'] else []) as Hsame.
  { intros self' l Hcur ->. rewrite Hcur, Z.ltb_irrefl. split; [lia|done]. }
  destruct op as [t|h| |si|vote|vote|vote]; unfold elapsed; simpl; rewrite ?Z.add_0_r.
  - eexists _, _. split; [done|]. split; [by apply elapse_inv|]. split; [done|]. by apply Hsame.
  - eexists _, _. split; [done|]. split; [by apply fire_inv|]. split; [|by apply Hsame].
    unfold fire; simpl. by repeat case_match.
  - destruct (deliver_timeout_ok _ _ Hinv Hnow Hmax) as (self' & o & Ho & ? & ? & Hcur & Hout).
    exists self', o. split; [done|]. split; [done|]. split; [done|]. apply Hsame; [done|].
    repeat case_match; destruct_and?; by subst.
  - destruct (process_certificates_ok _ _ _ Hinv Hop Hnow Hmax) as (self' & ev & Hev & ? & ? & Hp).
    unfold mbind, SM_bind. rewrite Hev. eexists _, _. split; [done|].
    split; [done|]. split; [done|].
    destruct ev as [ev|]; simpl in *; destruct_and!.
    + split; [lia|]. rewrite (proj2 (Z.ltb_lt _ _)) by lia. congruence.
    + split; [lia|]. rewrite (proj2 (Z.ltb_ge _ _)) by lia. done.
  - destruct (RoundState_insert_vote_ok _ _ _ Hinv Hop) as (self' & res & Hres & ? & Hts & Hcur & _).
    unfold mbind, SM_bind. rewrite Hres. eexists _, _. split; [done|]. rewrite Hts.
    split; [done|]. split; [done|]. by apply Hsame.
  - eexists _, _. split; [done|]. unfold record_vote.
    destruct (Z.eqb_spec (vote_round vote) (rs_current_round self)).
    2: { split; [done|]. split; [done|]. by apply Hsame. }
    split; [|split; [done|by apply Hsame]].
    destruct Hinv as (? & ? & ? & ? & ? & ?). unfold rs_inv; simpl.
    split_and!; try done; try lia. by intros w [= <-].
  - pose proof Hinv as (_ & _ & _ & Hpv & _).
    destruct (process_delayed_qc_ok _ li_hash_inj _ _ _ _ _ Hpv Hop) as (rr & Hrr & _).
    unfold mbind, SM_bind, lift, process_delayed_qc_msg. rewrite Hrr.
    eexists _, _. split; [done|]. split; [done|]. split; [done|]. by apply Hsame.
Qed.

Lemma elapsed_nonneg e ops : Forall (op_in_range v e) ops → 0 ≤ elapsed ops.
Proof using Type. induction 1 as [|op ops Hop _ IH]; [done|]. destruct op; simpl in *; lia. Qed.

Lemma new_rounds_cons o os : new_rounds (o :: os) = new_rounds [o] ++ new_rounds os.
Proof using Type. unfold new_rounds. simpl. by destruct o. Qed.

Lemma run_ok e ops self :
  rs_inv e self → Forall (op_in_range v e) ops → 0 ≤ ts_now (rs_time_service self) →
  ts_now (rs_time_service self) + elapsed ops + 2 * D ≤ Duration_MAX →
  ∃ self' os, run v ops self = (self', Ok os) ∧ rs_inv e self' ∧
    ts_now (rs_time_service self') = ts_now (rs_time_service self) + elapsed ops ∧
    rs_current_round self' = foldl Z.max (rs_current_round self) (next_round_of <$> ops) ∧
    StronglySorted Z.lt (rs_current_round self :: new_rounds os) ∧
    rs_current_round self' = default (rs_current_round self) (last (new_rounds os)).
Proof using AL LL li_hash_inj interval_bound.
  intros Hinv Hops. revert self Hinv. induction Hops as [|op ops Hop Hops IH];
    intros self Hinv Hnow Hmax.
  { eexists _, []. split; [done|]. simpl. split_and!; try done; [lia|]. repeat constructor. }
  pose proof (elapsed_nonneg _ _ Hops) as Hpos.
  assert (elapsed (op :: ops) = elapsed [op] + elapsed ops) as Hel
    by (destruct op; simpl; lia).
  assert (0 ≤ elapsed [op]) by (apply (elapsed_nonneg e); by constructor).
  destruct (step_ok e op self) as (self1 & o & Ho & Hinv1 & Hnow1 & Hcur1 & Hr1); [done || lia ..|].
  destruct (IH self1) as (self' & os & Hos & Hinv' & Hnow' & Hcur' & Hsorted & Hlast);
    [done || lia ..|].
  exists self', (o :: os). split.
  { simpl. unfold mbind, SM_bind. by rewrite Ho, Hos. }
  split; [done|]. split; [lia|]. rewrite new_rounds_cons, Hr1. split.
  { simpl. by rewrite <- Hcur1. }
  destruct (Z.ltb_spec (rs_current_round self) (rs_current_round self1)) as [Hlt|Hge]; simpl.
  - split.
    + constructor; [done|]. constructor; [done|]. apply StronglySorted_inv in Hsorted as [_ Hall].
      eapply Forall_impl; [exact Hall|]. simpl. lia.
    + rewrite Hlast, last_cons. by destruct (last (new_rounds os)).
  - replace (rs_current_round self) with (rs_current_round self1) by lia. done.
Qed.

(** ** Theorems *)

(** A validator's round state at the start of an epoch. *)
Definition fresh_time_service (ts : TimeService) : Prop :=
  ts_tasks ts = ∅ ∧ ts_channel ts = [] ∧ 0 ≤ ts_now ts.

Lemma fresh_round_inv e ts : fresh_time_service ts → rs_inv e (RoundState_new ts true).
Proof using Type.
  intros (Htasks & Hchan & Hnow). unfold rs_inv, timer_inv; simpl. rewrite Htasks, Hchan.
  split_and!; done || lia.
Qed.

(** The round state follows the certificates.  In any run of a validator no
    call panics; the rounds announced are strictly increasing, the last one
    announced is the current round, and the current round is one above the
    highest quorum or timeout certificate seen. *)
Theorem rounds_follow_certificates (e : Z) (ops : list RoundStateOp) (ts : TimeService) :
  fresh_time_service ts → Forall (op_in_range v e) ops →
  ts_now ts + elapsed ops + 2 * D ≤ Duration_MAX →
  ∃ self os, run v ops (RoundState_new ts true) = (self, Ok os) ∧
    StronglySorted Z.lt (new_rounds os) ∧
    rs_current_round self = default 0 (last (new_rounds os)) ∧
    rs_current_round self = foldl Z.max 0 (next_round_of <$> ops).
Proof using AL LL li_hash_inj interval_bound.
  intros Hts Hops Hmax.
  destruct (run_ok e ops (RoundState_new ts true)) as (self & os & Hrun & _ & _ & Hcur & Hs & Hlast);
    [by apply fresh_round_inv|done|apply Hts|done|].
  exists self, os. split_and!; try done. by apply StronglySorted_inv in Hs as [? _].
Qed.

(** Votes of the current round are never lost or mixed with those of another
    round: after any run of a validator, a verified vote either is of another
    round, and is refused without effect, or is collected with the votes of the
    current round, and a certificate it completes verifies and is of this
    round. *)
Theorem round_votes_collected (e : Z) (ops : list RoundStateOp) (ts : TimeService)
    (self : RoundState) (os : list Output) (vote : Vote) :
  fresh_time_service ts → Forall (op_in_range v e) ops →
  ts_now ts + elapsed ops + 2 * D ≤ Duration_MAX →
  run v ops (RoundState_new ts true) = (self, Ok os) →
  round_vote v e (vote_round vote) vote →
  ∃ self' res, RoundState_insert_vote vote v self = (self', Ok res) ∧
    vote_received e vote self self' res.
Proof using AL LL li_hash_inj interval_bound.
  intros Hts Hops Hmax Hrun Hvote.
  destruct (run_ok e ops (RoundState_new ts true)) as (? & ? & Hrun' & Hinv & _);
    [by apply fresh_round_inv|done|apply Hts|done|].
  rewrite Hrun in Hrun'. injection Hrun' as <- <-.
  destruct (RoundState_insert_vote_ok _ _ _ Hinv Hvote) as (self' & res & ? & _ & _ & _ & ?). eauto.
Qed.

(** A queued message about the current round is eventually delivered. *)
Lemma deliver_until e self :
  rs_inv e self → rs_current_round self ∈ ts_channel (rs_time_service self) →
  0 ≤ ts_now (rs_time_service self) → ts_now (rs_time_service self) + 2 * D ≤ Duration_MAX →
  ∃ n self' os, run v (replicate n DeliverTimeout) self = (self', Ok os) ∧
    TimedOut (rs_current_round self) ∈ os.
Proof using interval_bound.
  remember (ts_channel (rs_time_service self)) as channel eqn:Hc.
  revert self Hc. induction channel as [|r channel IH]; intros self Hc Hinv Hin Hnow Hmax.
  { by apply elem_of_nil in Hin. }
  destruct (deliver_timeout_ok _ _ Hinv Hnow Hmax) as (self1 & o & Ho & Hinv1 & Hnow1 & Hcur1 & Hout).
  rewrite <- Hc in Hout. destruct Hout as [Hc1 Hout].
  destruct (Z.eqb_spec r (rs_current_round self)) as [->|Hne].
  { exists 1%nat, self1, [o]. subst o. split; [|by apply list_elem_of_singleton].
    simpl. unfold mbind, SM_bind. by rewrite Ho. }
  apply elem_of_cons in Hin as [?|Hin]; [done|].
  destruct (IH self1) as (n & self' & os & Hrun & Hos); try done; [by rewrite Hcur1|lia|lia|].
  exists (S n), self', (o :: os). split.
  - simpl. unfold mbind, SM_bind. by rewrite Ho, Hrun.
  - rewrite <- Hcur1. by apply list_elem_of_further.
Qed.

(** C10. The pacemaker never stalls.  After any run of a validator that entered a
    round, waiting at most the length of a round, letting the pending timer run
    and receiving the queued messages times the current round out. *)
Theorem current_round_times_out (e : Z) (ops : list RoundStateOp) (ts : TimeService)
    (self : RoundState) (os : list Output) :
  fresh_time_service ts → Forall (op_in_range v e) ops →
  ts_now ts + elapsed ops + 4 * D ≤ Duration_MAX →
  run v ops (RoundState_new ts true) = (self, Ok os) → 1 ≤ rs_current_round self →
  ∃ t h n self' os', 0 ≤ t ≤ 2 * D ∧
    run v (Elapse t :: Fire h :: replicate n DeliverTimeout) self = (self', Ok os') ∧
    TimedOut (rs_current_round self) ∈ os'.
Proof using AL LL li_hash_inj interval_bound.
  intros Hts Hops Hmax Hrun Hcur. pose proof (interval_bound 0) as HD.
  destruct (run_ok e ops (RoundState_new ts true)) as (? & ? & Hrun' & Hinv & Hnow & _);
    [by apply fresh_round_inv|done|apply Hts|simpl; lia|].
  rewrite Hrun in Hrun'. injection Hrun' as <- <-. simpl in Hnow. pose proof (elapsed_nonneg _ _ Hops) as Hel.
  destruct Hts as (_ & _ & Hts).
  pose proof Hinv as (_ & _ & _ & _ & _ & _ & _ & _ & Harmed).
  destruct (Harmed Hcur) as [Ha Hdl]. clear Harmed.
  set (t := Z.max 0 (rs_current_round_deadline self - ts_now (rs_time_service self))).
  assert (0 ≤ t ≤ 2 * D) as Ht by lia.
  assert (∃ h, let self1 := with_time_service (elapse t (rs_time_service self)) self in
    let self2 := with_time_service (fire h (rs_time_service self1)) self1 in
    rs_current_round self ∈ ts_channel (rs_time_service self2) ∧
    ts_now (rs_time_service self2) = ts_now (rs_time_service self) + t) as (h & Hin & Hnow2).
  { unfold fire, elapse; simpl. destruct Ha as [[h Hh]|Hin].
    - exists h. rewrite Hh. rewrite (proj2 (Z.leb_le _ _)) by lia. simpl. split; [|done].
      apply elem_of_app. right. by apply list_elem_of_singleton.
    - exists 0%nat. repeat case_match; simpl; rewrite ?elem_of_app; eauto. }
  eapply elapse_inv, (fire_inv _ _ h) in Hinv; [|apply Ht].
  destruct (deliver_until _ _ Hinv) as (n & self' & os' & Hdel & Hos); [done|lia|lia|].
  exists t, h, n, self', (Quiet :: Quiet :: os'). split; [done|]. split.
  - simpl. unfold mbind, SM_bind. by rewrite Hdel.
  - by do 2 apply list_elem_of_further.
Qed.

End round_state_facts.
