(* ===== verification/BlockBuffer.v ===== *)
(** The hand-over of blocks between consensus and the execution client:
    crates/block-buffer-manager/src/block_buffer_manager.rs, with the compute
    results of dependencies/aptos-executor-types.

    The manager is one mutex-protected state machine.  Each definition is one
    critical section of it: a call that finds nothing to return releases the
    lock, waits for a notification or a timeout and tries again, so an attempt
    returns [Pending] or is [Done] with the call's result.  Whether the call has
    exceeded [max_wait_timeout] by the time of the attempt is an argument of it.  The profile of a
    block, a table of time stamps that only log lines read, is left out. *)
From S2P Require Import Prelude Laptos.

(** The types of [laptos::api_types] the manager stores.  A [BlockId] and a
    block hash are arrays of 32 bytes, as a [HashValue] is; the conversions
    between them are the identity. *)
Class Gcei `{L : Laptos} : Type := {
  ExternalBlock : Type;
  eb_block_id : ExternalBlock → HashValue;
  eb_block_number : ExternalBlock → Z;
  eb_epoch : ExternalBlock → Z;
  eb_usecs : ExternalBlock → Z;
  eb_txns_len : ExternalBlock → Z;
  VerifiedTxnWithAccountSeqNum : Type;
  (** [Option<Vec<TxnStatus>>] *)
  TxnStatuses : Type;
  TxnStatuses_eq_dec :: EqDecision TxnStatuses;
  TxnStatuses_None : TxnStatuses;
  LiquentEvent : Type;
  LiquentEvent_eq_dec :: EqDecision LiquentEvent;
  (** The epoch and the encoded validator set of a [NewEpoch] event. *)
  LiquentEvent_new_epoch : LiquentEvent → option (Z * Bytes);
  (** [bcs::from_bytes], [convert_validator_set] and the conversion to a
      verifier *)
  validator_set_from_bytes : Bytes → result anyhow ValidatorVerifier;
  EpochState_new : Z → ValidatorVerifier → EpochState;
  BlockEndInfo : Type;
  BlockEndInfo_eq_dec :: EqDecision BlockEndInfo;
  (** The randomness of a round. *)
  Randomness : Type;
  Randomness_eq_dec :: EqDecision Randomness;
}.

Class GceiLaws `(G : Gcei) : Prop := {
  EpochState_new_epoch e vs : EpochState_epoch (EpochState_new e vs) = e;
}.

Inductive poll (A : Type) : Type :=
| Pending
| Done (r : result anyhow A).
Arguments Pending {A}.
Arguments Done {A} r.

Record BlockKey : Type := BlockKey_new { bk_epoch : Z; bk_block_number : Z }.
#[global] Instance BlockKey_eq_dec : EqDecision BlockKey.
Proof. solve_decision. Defined.
#[global] Program Instance BlockKey_countable : Countable BlockKey :=
  inj_countable' (λ k, (bk_epoch k, bk_block_number k)) (λ p, BlockKey_new p.1 p.2) _.
Next Obligation. by intros []. Qed.

Inductive BufferState : Type := Uninitialized | BufferReady | EpochChange.
#[global] Instance BufferState_eq_dec : EqDecision BufferState.
Proof. solve_decision. Defined.

Section block_buffer.
Context `{L : Laptos} `{G : !Gcei}.

(** ** Compute results *)

Record ComputeRes : Type := {
  cr_data : HashValue;
  cr_txn_num : Z;
  cr_txn_status : TxnStatuses;
  cr_events : list LiquentEvent;
}.

#[global] Instance ComputeRes_eq_dec : EqDecision ComputeRes.
Proof using Type. solve_decision. Defined.

Record StateComputeResult : Type := StateComputeResult_new {
  scr_execution_output : ComputeRes;
  scr_epoch_state : option EpochState;
  scr_block_end_info : option BlockEndInfo;
}.
#[global] Instance StateComputeResult_eq_dec : EqDecision StateComputeResult.
Proof using Type. solve_decision. Defined.

Definition StateComputeResult_with_root_hash (root_hash : HashValue) : StateComputeResult :=
  StateComputeResult_new
    {| cr_data := root_hash; cr_txn_num := 0; cr_txn_status := TxnStatuses_None; cr_events := [] |}
    None None.
Definition StateComputeResult_new_dummy : StateComputeResult :=
  StateComputeResult_with_root_hash ACCUMULATOR_PLACEHOLDER_HASH.
Definition StateComputeResult_new_dummy_with_epoch_state (epoch_state : EpochState) :
    StateComputeResult :=
  let res := StateComputeResult_new_dummy in
  StateComputeResult_new (scr_execution_output res) (Some epoch_state) (scr_block_end_info res).
Definition StateComputeResult_root_hash (self : StateComputeResult) : HashValue :=
  cr_data (scr_execution_output self).
Definition StateComputeResult_has_reconfiguration (self : StateComputeResult) : bool :=
  bool_decide (is_Some (scr_epoch_state self)).

(** ** The state *)

Record TxnItem : Type := {
  ti_txns : list VerifiedTxnWithAccountSeqNum;
  ti_gas_limit : Z;
}.

(** The sending half of a persist notification channel is the number of the
    channel. *)
Record BlockHashRef : Type := {
  bhr_block_id : HashValue;
  bhr_num : Z;
  bhr_hash : option HashValue;
  bhr_persist_notifier : option nat;
}.

Inductive BlockState : Type :=
| Ordered (block : ExternalBlock) (parent_id : HashValue) (round : Z)
| Computed (id : HashValue) (compute_result : StateComputeResult)
| Committed (hash : option HashValue) (compute_result : StateComputeResult) (id : HashValue)
    (persist_notifier : option nat)
| Historical (id : HashValue).

Definition BlockState_get_block_id (self : BlockState) : HashValue :=
  match self with
  | Ordered block _ _ => eb_block_id block
  | Computed id _ | Committed _ _ id _ | Historical id => id
  end.

Record EpochChangeCache : Type := {
  ecc_epoch_block_info : EpochBlockInfo HashValue;
  ecc_epoch_state : EpochState;
}.

(** [BlockBufferManager] with its [BlockStateMachine]; [bb_channels] counts the
    notification channels made so far. *)
Record BlockBuffer : Type := {
  bb_txns : list TxnItem;
  bb_blocks : gmap BlockKey BlockState;
  bb_latest_commit_block_number : Z;
  bb_latest_finalized_block_number : Z;
  bb_block_number_to_block_id : gmap Z HashValue;
  bb_current_epoch : Z;
  bb_next_epoch : option Z;
  bb_latest_epoch_change_block_number : Z;
  bb_epoch_change_block_info : option EpochChangeCache;
  bb_epoch_change_ready : bool;
  bb_buffer_state : BufferState;
  bb_channels : nat;
}.

Definition BlockBufferManager_new : BlockBuffer :=
  {| bb_txns := []; bb_blocks := ∅; bb_latest_commit_block_number := 0;
     bb_latest_finalized_block_number := 0; bb_block_number_to_block_id := ∅;
     bb_current_epoch := 0; bb_next_epoch := None; bb_latest_epoch_change_block_number := 0;
     bb_epoch_change_block_info := None; bb_epoch_change_ready := false;
     bb_buffer_state := Uninitialized; bb_channels := 0 |}.

Definition with_txns (txns : list TxnItem) (self : BlockBuffer) : BlockBuffer :=
  {| bb_txns := txns; bb_blocks := bb_blocks self;
     bb_latest_commit_block_number := bb_latest_commit_block_number self;
     bb_latest_finalized_block_number := bb_latest_finalized_block_number self;
     bb_block_number_to_block_id := bb_block_number_to_block_id self;
     bb_current_epoch := bb_current_epoch self; bb_next_epoch := bb_next_epoch self;
     bb_latest_epoch_change_block_number := bb_latest_epoch_change_block_number self;
     bb_epoch_change_block_info := bb_epoch_change_block_info self;
     bb_epoch_change_ready := bb_epoch_change_ready self;
     bb_buffer_state := bb_buffer_state self; bb_channels := bb_channels self |}.

Definition with_blocks (blocks : gmap BlockKey BlockState) (self : BlockBuffer) : BlockBuffer :=
  {| bb_txns := bb_txns self; bb_blocks := blocks;
     bb_latest_commit_block_number := bb_latest_commit_block_number self;
     bb_latest_finalized_block_number := bb_latest_finalized_block_number self;
     bb_block_number_to_block_id := bb_block_number_to_block_id self;
     bb_current_epoch := bb_current_epoch self; bb_next_epoch := bb_next_epoch self;
     bb_latest_epoch_change_block_number := bb_latest_epoch_change_block_number self;
     bb_epoch_change_block_info := bb_epoch_change_block_info self;
     bb_epoch_change_ready := bb_epoch_change_ready self;
     bb_buffer_state := bb_buffer_state self; bb_channels := bb_channels self |}.

Definition with_channels (channels : nat) (self : BlockBuffer) : BlockBuffer :=
  {| bb_txns := bb_txns self; bb_blocks := bb_blocks self;
     bb_latest_commit_block_number := bb_latest_commit_block_number self;
     bb_latest_finalized_block_number := bb_latest_finalized_block_number self;
     bb_block_number_to_block_id := bb_block_number_to_block_id self;
     bb_current_epoch := bb_current_epoch self; bb_next_epoch := bb_next_epoch self;
     bb_latest_epoch_change_block_number := bb_latest_epoch_change_block_number self;
     bb_epoch_change_block_info := bb_epoch_change_block_info self;
     bb_epoch_change_ready := bb_epoch_change_ready self;
     bb_buffer_state := bb_buffer_state self; bb_channels := channels |}.

Definition with_commit_state (latest_commit latest_finalized : Z) (self : BlockBuffer) : BlockBuffer :=
  {| bb_txns := bb_txns self; bb_blocks := bb_blocks self;
     bb_latest_commit_block_number := latest_commit;
     bb_latest_finalized_block_number := latest_finalized;
     bb_block_number_to_block_id := bb_block_number_to_block_id self;
     bb_current_epoch := bb_current_epoch self; bb_next_epoch := bb_next_epoch self;
     bb_latest_epoch_change_block_number := bb_latest_epoch_change_block_number self;
     bb_epoch_change_block_info := bb_epoch_change_block_info self;
     bb_epoch_change_ready := bb_epoch_change_ready self;
     bb_buffer_state := bb_buffer_state self; bb_channels := bb_channels self |}.

(** The fields an epoch change moves. *)
Definition with_epoch (current_epoch : Z) (next_epoch : option Z) (latest_change : Z)
    (info : option EpochChangeCache) (ready : bool) (state : BufferState) (self : BlockBuffer) :
    BlockBuffer :=
  {| bb_txns := bb_txns self; bb_blocks := bb_blocks self;
     bb_latest_commit_block_number := bb_latest_commit_block_number self;
     bb_latest_finalized_block_number := bb_latest_finalized_block_number self;
     bb_block_number_to_block_id := bb_block_number_to_block_id self;
     bb_current_epoch := current_epoch; bb_next_epoch := next_epoch;
     bb_latest_epoch_change_block_number := latest_change;
     bb_epoch_change_block_info := info; bb_epoch_change_ready := ready;
     bb_buffer_state := state; bb_channels := bb_channels self |}.

(** ** Predicates *)

Definition is_suffix_block (block_num : Z) (self : BlockBuffer) : bool :=
  from_option (λ cache, block_num >? ebi_block_number (ecc_epoch_block_info cache)) false
    (bb_epoch_change_block_info self).

Definition is_stale_commit_after_epoch_change (epoch block_num : Z) (self : BlockBuffer) : bool :=
  (epoch <? bb_current_epoch self) ||
  from_option (λ cache, (epoch =? bb_current_epoch self) &&
      (block_num >? ebi_block_number (ecc_epoch_block_info cache))) false
    (bb_epoch_change_block_info self).

Definition is_ready (self : BlockBuffer) : bool :=
  negb (bool_decide (bb_buffer_state self = Uninitialized)).
Definition is_epoch_change (self : BlockBuffer) : bool :=
  bool_decide (bb_buffer_state self = EpochChange).

(** [wait_until_ready] at the start of a call. *)
Definition when_ready {A} (call : BlockBuffer → BlockBuffer * poll A) :
    BlockBuffer → BlockBuffer * poll A :=
  λ self, if is_ready self then call self else (self, Pending).

(** ** Start-up and clean-up *)

Definition remove_committed_blocks (max_block_size : nat) (self : BlockBuffer) : BlockBuffer :=
  if bool_decide (size (bb_blocks self) < max_block_size)%nat then self
  else
    let latest_persist_block_num := bb_latest_finalized_block_number self in
    with_blocks (filter (λ '(key, _), latest_persist_block_num ≤ bk_block_number key)
                   (bb_blocks self)) self.

Definition BlockBufferManager_init (latest_commit_block_number : Z)
    (block_number_to_block_id_with_epoch : gmap Z (Z * HashValue)) (initial_epoch : Z) :
    SM BlockBuffer anyhow unit := λ self,
  let commit_block : result anyhow (option (Z * HashValue)) :=
    if bool_decide (size block_number_to_block_id_with_epoch = 0%nat) then
      _ ← ensure (negb (latest_commit_block_number >? 0))
            "BlockBufferManager::init: a non-empty map is required"%string;
      Ok None
    else
      b ← ok_or (block_number_to_block_id_with_epoch !! latest_commit_block_number)
            "BlockBufferManager::init: latest_commit_block_number not found"%string;
      Ok (Some b) in
  match commit_block with
  | Ok commit_block =>
      ({| bb_txns := bb_txns self;
          bb_blocks :=
            from_option (λ '(commit_block_epoch, commit_block_id),
                <[BlockKey_new commit_block_epoch latest_commit_block_number :=
                    Historical commit_block_id]> (bb_blocks self))
              (bb_blocks self) commit_block;
          bb_latest_commit_block_number := latest_commit_block_number;
          bb_latest_finalized_block_number := latest_commit_block_number;
          bb_block_number_to_block_id := snd <$> block_number_to_block_id_with_epoch;
          bb_current_epoch := initial_epoch;
          bb_next_epoch := bb_next_epoch self;
          bb_latest_epoch_change_block_number :=
            from_option (λ _, 0) (bb_latest_epoch_change_block_number self) commit_block;
          bb_epoch_change_block_info := bb_epoch_change_block_info self;
          bb_epoch_change_ready := bb_epoch_change_ready self;
          bb_buffer_state := BufferReady; bb_channels := bb_channels self |}, Ok tt)
  | Err e => (self, Err e)
  | Panic => (self, Panic)
  end.

Definition init_epoch (epoch : Z) (self : BlockBuffer) : BlockBuffer :=
  with_epoch epoch (bb_next_epoch self) (bb_latest_epoch_change_block_number self)
    (bb_epoch_change_block_info self) (bb_epoch_change_ready self) (bb_buffer_state self) self.

(** ** The transaction buffer *)

Definition push_txns (txns : list VerifiedTxnWithAccountSeqNum) (gas_limit : Z)
    (self : BlockBuffer) : BlockBuffer :=
  with_txns (bb_txns self ++ [{| ti_txns := txns; ti_gas_limit := gas_limit |}]) self.

(** The [position] of the first item that does not fit, with the running
    totals of gas and items. *)
Fixpoint split_point (items : list TxnItem) (total_gas_limit count max_size gas_limit : Z) :
    result anyhow nat :=
  match items with
  | [] => Ok 0%nat
  | item :: items =>
      total ← u64_add total_gas_limit (ti_gas_limit item);
      if (total >? gas_limit) || (count >=? max_size) then Ok 0%nat
      else n ← split_point items total (count + 1) max_size gas_limit; Ok (S n)
  end.

Definition pop_txns (max_size gas_limit : Z) :
    SM BlockBuffer anyhow (list VerifiedTxnWithAccountSeqNum) := λ self,
  match split_point (bb_txns self) 0 0 max_size gas_limit with
  | Ok n =>
      let n := if bool_decide (n = 0%nat) && negb (bool_decide (bb_txns self = [])) &&
                  (max_size >? 0)
               then 1%nat else n in
      (with_txns (drop n (bb_txns self)) self,
       Ok (mjoin (ti_txns <$> take n (bb_txns self))))
  | Err e => (self, Err e)
  | Panic => (self, Panic)
  end.

(** ** Ordering *)

(** The identifier of the block before, if the buffer has it. *)
Definition actual_parent (block : ExternalBlock) (self : BlockBuffer) : option BlockState :=
  parent_block_num ← u64_checked_sub (eb_block_number block) 1;
  match bb_blocks self !! BlockKey_new (eb_epoch block) parent_block_num with
  | Some state => Some state
  | None =>
      if eb_epoch block >? 0
      then bb_blocks self !! BlockKey_new (eb_epoch block - 1) parent_block_num
      else None
  end.

Definition set_ordered_blocks (parent_id : HashValue) (block : ExternalBlock) (round : Z) :
    BlockBuffer → BlockBuffer * poll unit := when_ready (λ self,
  let current_epoch := bb_current_epoch self in
  if bb_epoch_change_ready self then
    (self, Done (Err "set_ordered_blocks: epoch change is waiting to be consumed"%string))
  else if eb_epoch block <? current_epoch then (self, Done (Ok tt))
  else if eb_epoch block >? current_epoch then
    (self, Done (Err "set_ordered_blocks: block has future epoch"%string))
  else
    let block_key := BlockKey_new (eb_epoch block) (eb_block_number block) in
    match bb_blocks self !! block_key with
    | Some _ => (self, Done (Ok tt))
    | None =>
        let parent_id := from_option BlockState_get_block_id parent_id (actual_parent block self) in
        (with_blocks (<[block_key := Ordered block parent_id round]> (bb_blocks self)) self,
         Done (Ok tt))
    end).

(** The inner loop of [get_ordered_blocks].  It visits consecutive numbers as
    long as they have a block, so the number of blocks bounds its iterations. *)
Fixpoint collect_ordered (fuel : nat) (blocks : gmap BlockKey BlockState) (expected_epoch : Z)
    (current_num : Z) (len max_size : Z) : result anyhow (list (ExternalBlock * HashValue)) :=
  match fuel with
  | O => Panic
  | S fuel =>
      match blocks !! BlockKey_new expected_epoch current_num with
      | Some (Ordered block parent_id _) =>
          if len + 1 >=? max_size then Ok [(block, parent_id)]
          else
            current_num ← u64_add current_num 1;
            rest ← collect_ordered fuel blocks expected_epoch current_num (len + 1) max_size;
            Ok ((block, parent_id) :: rest)
      | _ => Ok []
      end
  end.

Definition get_ordered_blocks (timed_out : bool) (start_num : Z) (max_size : option Z)
    (expected_epoch : Z) :
    BlockBuffer → BlockBuffer * poll (list (ExternalBlock * HashValue)) := when_ready (λ self,
  if timed_out then (self, Done (Err "Timeout waiting for ordered blocks"%string))
  else if bb_epoch_change_ready self || negb (bb_current_epoch self =? expected_epoch) then
    (self, Done (Err "Buffer is in epoch change"%string))
  else
    match collect_ordered (S (size (bb_blocks self))) (bb_blocks self) expected_epoch start_num 0
            (default u64_MAX max_size) with
    | Ok [] => (self, Pending)
    | r => (self, Done r)
    end).

(** ** Execution results *)

Definition get_executed_res (timed_out : bool) (block_id : HashValue) (block_num epoch : Z) :
    BlockBuffer → BlockBuffer * poll StateComputeResult := when_ready (λ self,
  if timed_out then (self, Done (Err "get_executed_res timeout"%string)) else
  let block_key := BlockKey_new epoch block_num in
  match bb_blocks self !! block_key with
  | Some (Computed id compute_result) =>
      if bool_decide (id = block_id) then (self, Done (Ok compute_result))
      else (self, Done (Err "get_executed_res: block id mismatch for Computed block"%string))
  | Some (Ordered _ _ _) =>
      if is_suffix_block block_num self then
        match bb_epoch_change_block_info self with
        | Some cache =>
            let dummy_result :=
              StateComputeResult_new_dummy_with_epoch_state (ecc_epoch_state cache) in
            (with_blocks (<[block_key := Computed block_id dummy_result]> (bb_blocks self)) self,
             Done (Ok dummy_result))
        | None => (self, Done Panic)
        end
      else (self, Pending)
  | Some (Committed _ compute_result id _) =>
      if bool_decide (id = block_id) then (self, Done (Ok compute_result))
      else (self, Done (Err "get_executed_res: block id mismatch for Committed block"%string))
  | Some (Historical _) =>
      (self, Done (Err "Cannot get executed result for historical block"%string))
  | None =>
      if epoch <? bb_current_epoch self then (self, Done (Ok StateComputeResult_new_dummy))
      else (self, Done (Err "There is no Ordered Block but try to get executed result"%string))
  end).

(** The first [NewEpoch] event.  The messages of the two decoding steps are not
    told apart. *)
Definition find_new_epoch (events : list LiquentEvent) : option (Z * Bytes) :=
  head (omap LiquentEvent_new_epoch events).

Definition calculate_new_epoch_state (events : list LiquentEvent) (block_num : Z) :
    SM BlockBuffer anyhow (option EpochState) := λ self,
  match find_new_epoch events with
  | None => (self, Ok None)
  | Some (new_epoch, bytes) =>
      match context "[on-chain config] Failed to deserialize into config"
              (validator_set_from_bytes bytes) with
      | Ok validator_set =>
          (with_epoch (bb_current_epoch self) (Some new_epoch) block_num
             (bb_epoch_change_block_info self) (bb_epoch_change_ready self)
             (bb_buffer_state self) self,
           Ok (Some (EpochState_new new_epoch validator_set)))
      | Err e => (self, Err e)
      | Panic => (self, Panic)
      end
  end.

(** Every block of the epoch ordered after the one that ends it gets a dummy
    result. *)
Definition suffix_result (epoch_change_block_num epoch : Z) (epoch_state : EpochState)
    (key : BlockKey) (state : BlockState) : BlockState :=
  match state with
  | Ordered _ _ _ =>
      if (bk_epoch key =? epoch) && (bk_block_number key >? epoch_change_block_num)
      then Computed (BlockState_get_block_id state)
             (StateComputeResult_new_dummy_with_epoch_state epoch_state)
      else state
  | _ => state
  end.

Definition handle_epoch_change_suffix_blocks (epoch_change_block_num epoch : Z)
    (block_id : HashValue) (block_timestamp_usecs block_round : Z) (block_hash : HashValue)
    (epoch_state : EpochState) (self : BlockBuffer) : BlockBuffer :=
  let info :=
    {| ecc_epoch_block_info :=
         {| ebi_block_id := block_id; ebi_block_number := epoch_change_block_num;
            ebi_epoch_start_round := block_round;
            ebi_epoch_start_timestamp_usecs := block_timestamp_usecs;
            ebi_block_hash := block_hash |};
       ecc_epoch_state := epoch_state |} in
  with_blocks (map_imap (λ key state,
      Some (suffix_result epoch_change_block_num epoch epoch_state key state)) (bb_blocks self))
    (with_epoch (bb_current_epoch self) (bb_next_epoch self)
       (bb_latest_epoch_change_block_number self) (Some info) (bb_epoch_change_ready self)
       (bb_buffer_state self) self).

Definition set_compute_res (block_id block_hash : HashValue) (block_num epoch : Z)
    (txn_status : TxnStatuses) (events : list LiquentEvent) :
    BlockBuffer → BlockBuffer * poll unit := when_ready (λ self,
  let block_key := BlockKey_new epoch block_num in
  match bb_blocks self !! block_key with
  | Some (Ordered block _ round) =>
      if bool_decide (eb_block_id block = block_id) then
        match calculate_new_epoch_state events block_num self with
        | (self, Ok new_epoch_state) =>
            let compute_result :=
              StateComputeResult_new
                {| cr_data := block_hash; cr_txn_num := eb_txns_len block;
                   cr_txn_status := txn_status; cr_events := events |} new_epoch_state None in
            let self :=
              with_blocks (<[block_key := Computed block_id compute_result]> (bb_blocks self)) self in
            (from_option (λ epoch_state,
                 handle_epoch_change_suffix_blocks block_num epoch block_id (eb_usecs block) round
                   block_hash epoch_state self) self new_epoch_state,
             Done (Ok tt))
        | (self, Err e) => (self, Done (Err e))
        | (self, Panic) => (self, Done Panic)
        end
      else (self, Done (Err "set_compute_res: block id mismatch"%string))
  | _ => (self, Done (Err "There is no Ordered Block but try to push compute result"%string))
  end).

(** ** Committing *)

(** One iteration of [set_commit_blocks]: the receiving halves of the channels
    it makes are the numbers it returns. *)
Definition commit_block (epoch : Z) (ref : BlockHashRef) : SM BlockBuffer anyhow (list nat) := λ self,
  let block_key := BlockKey_new epoch (bhr_num ref) in
  let is_suffix := is_suffix_block (bhr_num ref) self in
  match bb_blocks self !! block_key with
  | Some (Computed id compute_result) =>
      if bool_decide (id = bhr_block_id ref) then
        let notify := bool_decide (is_Some (scr_epoch_state compute_result)) && negb is_suffix in
        let channel := bb_channels self in
        let state persist_notifier :=
          Committed (bhr_hash ref) compute_result (bhr_block_id ref) persist_notifier in
        if notify then
          (with_channels (S channel)
             (with_blocks (<[block_key := state (Some channel)]> (bb_blocks self)) self),
           Ok [channel])
        else (with_blocks (<[block_key := state None]> (bb_blocks self)) self, Ok [])
      else (self, Err "Computed Block id and number is not equal"%string)
  | Some (Committed _ _ id _) =>
      if negb is_suffix && negb (bool_decide (id = bhr_block_id ref))
      then (self, Err "Committed Block id mismatch"%string)
      else (self, Ok [])
  | Some (Ordered _ _ _) => (self, Err "Set commit block meet ordered block"%string)
  | Some (Historical id) =>
      if negb (bool_decide (id = bhr_block_id ref))
      then (self, Err "Historical Block id mismatch"%string)
      else (self, Ok [])
  | None =>
      if is_stale_commit_after_epoch_change epoch (bhr_num ref) self then (self, Ok [])
      else (self, Err "There is no Block but try to push commit block"%string)
  end.

Fixpoint commit_blocks (epoch : Z) (block_ids : list BlockHashRef) :
    SM BlockBuffer anyhow (list nat) :=
  match block_ids with
  | [] => mret []
  | ref :: block_ids =>
      receivers ← commit_block epoch ref;
      rest ← commit_blocks epoch block_ids;
      mret (receivers ++ rest)
  end.

Definition set_commit_blocks (block_ids : list BlockHashRef) (epoch : Z) :
    BlockBuffer → BlockBuffer * poll (list nat) := when_ready (λ self,
  let '(self, r) := commit_blocks epoch block_ids self in (self, Done r)).

(** The inner loop of [get_committed_blocks], which takes the notifiers out of
    the blocks it returns. *)
Fixpoint collect_committed (fuel : nat) (epoch current_num len max_size : Z) :
    SM BlockBuffer anyhow (list BlockHashRef) := λ self,
  match fuel with
  | O => (self, Panic)
  | S fuel =>
      if is_suffix_block current_num self then (self, Ok [])
      else
        match bb_blocks self !! BlockKey_new epoch current_num with
        | Some (Committed hash compute_result id persist_notifier) =>
            let ref :=
              {| bhr_block_id := id; bhr_num := current_num; bhr_hash := hash;
                 bhr_persist_notifier := persist_notifier |} in
            let self :=
              with_blocks (<[BlockKey_new epoch current_num :=
                               Committed hash compute_result id None]> (bb_blocks self)) self in
            if len + 1 >=? max_size then (self, Ok [ref])
            else
              (current_num ← lift (λ _, u64_add current_num 1);
               rest ← collect_committed fuel epoch current_num (len + 1) max_size;
               mret (ref :: rest)) self
        | _ => (self, Ok [])
        end
  end.

Definition get_committed_blocks (timed_out : bool) (start_num : Z) (max_size : option Z) (epoch : Z) :
    BlockBuffer → BlockBuffer * poll (list BlockHashRef) := when_ready (λ self,
  if timed_out then (self, Done (Err "Timeout waiting for committed blocks"%string)) else
  match collect_committed (S (size (bb_blocks self))) epoch start_num 0
          (default u64_MAX max_size) self with
  | (self, Ok []) => (self, Pending)
  | (self, r) => (self, Done r)
  end).

Definition set_state (latest_commit_block_number latest_finalized_block_number : Z)
    (self : BlockBuffer) : BlockBuffer :=
  with_commit_state latest_commit_block_number latest_finalized_block_number self.

(** ** Epoch changes *)

Definition get_current_epoch : BlockBuffer → BlockBuffer * poll Z := when_ready (λ self,
  (self, Done (Ok (bb_current_epoch self)))).

Definition get_epoch_change_block_info (block_num epoch : Z) (self : BlockBuffer) :
    option (EpochBlockInfo HashValue) :=
  cache ← bb_epoch_change_block_info self;
  if (block_num >? ebi_block_number (ecc_epoch_block_info cache)) &&
     (epoch =? bb_current_epoch self)
  then Some (ecc_epoch_block_info cache) else None.

Definition consume_epoch_change (self : BlockBuffer) : BlockBuffer * (Z * Z) :=
  let epoch_change_block_number := bb_latest_epoch_change_block_number self in
  let new_epoch := default (bb_current_epoch self) (bb_next_epoch self) in
  let effective_block_number :=
    if epoch_change_block_number =? 0 then bb_latest_commit_block_number self
    else epoch_change_block_number in
  (with_epoch (bb_current_epoch self) (bb_next_epoch self) 0 (bb_epoch_change_block_info self)
     false BufferReady self,
   (new_epoch, effective_block_number)).

Definition release_inflight_blocks (self : BlockBuffer) : BlockBuffer :=
  let latest_epoch_change_block_number := bb_latest_epoch_change_block_number self in
  let has_pending_epoch_change :=
    negb (latest_epoch_change_block_number =? 0) ||
    bool_decide (is_Some (bb_next_epoch self)) ||
    bool_decide (is_Some (bb_epoch_change_block_info self)) in
  if negb has_pending_epoch_change then self
  else
    with_blocks (filter (λ '(key, _), bk_block_number key ≤ latest_epoch_change_block_number)
                   (bb_blocks self))
      (with_epoch (default (bb_current_epoch self) (bb_next_epoch self)) None
         latest_epoch_change_block_number None true EpochChange self).

(** A request for the result of an ordered block beyond an epoch change is
    answered whatever identifier it names, and leaves the block with that
    identifier, where the requests for computed and committed blocks refuse an
    identifier that is not the block's. *)
Theorem suffix_request_renames_block (self : BlockBuffer) (block : ExternalBlock)
    (parent_id block_id : HashValue) (round n epoch : Z) :
  is_ready self = true → is_suffix_block n self = true →
  bb_blocks self !! BlockKey_new epoch n = Some (Ordered block parent_id round) →
  ∃ self' res, get_executed_res false block_id n epoch self = (self', Done (Ok res)) ∧
    BlockState_get_block_id <$> bb_blocks self' !! BlockKey_new epoch n = Some block_id.
Proof using Type.
  intros Hready Hs Hk. unfold get_executed_res, when_ready. rewrite Hready, Hk, Hs.
  unfold is_suffix_block in Hs. destruct (bb_epoch_change_block_info self); [|done].
  eexists _, _. split; [done|]. simpl. by rewrite lookup_insert_eq.
Qed.

End block_buffer.
