(* ===== verification/BufferSafety.v ===== *)
(** What the block buffer promises to consensus and to the execution client,
    over any sequence of calls: the life of a block, the results handed to
    consensus, the blocks handed to execution and to persistence, and the
    protocol of an epoch change. *)
From S2P Require Import Prelude Laptos BlockBuffer.

(** * Calls as steps *)
Section block_buffer_steps.
Context `{L : Laptos} `{G : !Gcei}.

Inductive BufferOp : Type :=
| RemoveCommittedBlocks (max_block_size : nat)
| InitEpoch (epoch : Z)
| PushTxns (txns : list VerifiedTxnWithAccountSeqNum) (gas_limit : Z)
| PopTxns (max_size gas_limit : Z)
| SetOrdered (parent_id : HashValue) (block : ExternalBlock) (round : Z)
| GetOrdered (timed_out : bool) (start_num : Z) (max_size : option Z) (expected_epoch : Z)
| GetExecuted (timed_out : bool) (block_id : HashValue) (block_num epoch : Z)
| SetComputeRes (block_id block_hash : HashValue) (block_num epoch : Z) (txn_status : TxnStatuses)
    (events : list LiquentEvent)
| SetCommit (block_ids : list BlockHashRef) (epoch : Z)
| GetCommitted (timed_out : bool) (start_num : Z) (max_size : option Z) (epoch : Z)
| SetState (latest_commit latest_finalized : Z)
| ConsumeEpochChange
| ReleaseInflight.

Inductive BufferOutput : Type :=
| ONone
| OPopped (r : result anyhow (list VerifiedTxnWithAccountSeqNum))
| OUnit (r : poll unit)
| OOrdered (r : poll (list (ExternalBlock * HashValue)))
| OExecuted (r : poll StateComputeResult)
| OReceivers (r : poll (list nat))
| OCommitted (r : poll (list BlockHashRef))
| OConsumed (new_epoch block_number : Z).

Definition buffer_step (op : BufferOp) (self : BlockBuffer) : BlockBuffer * BufferOutput :=
  match op with
  | RemoveCommittedBlocks max_block_size => (remove_committed_blocks max_block_size self, ONone)
  | InitEpoch epoch => (init_epoch epoch self, ONone)
  | PushTxns txns gas_limit => (push_txns txns gas_limit self, ONone)
  | PopTxns max_size gas_limit => prod_map id OPopped (pop_txns max_size gas_limit self)
  | SetOrdered parent_id block round =>
      prod_map id OUnit (set_ordered_blocks parent_id block round self)
  | GetOrdered timed_out start_num max_size expected_epoch =>
      prod_map id OOrdered (get_ordered_blocks timed_out start_num max_size expected_epoch self)
  | GetExecuted timed_out block_id block_num epoch =>
      prod_map id OExecuted (get_executed_res timed_out block_id block_num epoch self)
  | SetComputeRes block_id block_hash block_num epoch txn_status events =>
      prod_map id OUnit
        (set_compute_res block_id block_hash block_num epoch txn_status events self)
  | SetCommit block_ids epoch => prod_map id OReceivers (set_commit_blocks block_ids epoch self)
  | GetCommitted timed_out start_num max_size epoch =>
      prod_map id OCommitted (get_committed_blocks timed_out start_num max_size epoch self)
  | SetState latest_commit latest_finalized => (set_state latest_commit latest_finalized self, ONone)
  | ConsumeEpochChange =>
      let '(self, (new_epoch, block_number)) := consume_epoch_change self in
      (self, OConsumed new_epoch block_number)
  | ReleaseInflight => (release_inflight_blocks self, ONone)
  end.

(** The life of a block, as the call [op] in the state [self] can change it:
    ordered in the current epoch; computed when execution delivers a result for
    it or, if it lies beyond one that ends the epoch, when that one's is delivered
    or a result is asked for; committed; its notifier taken; and dropped once it
    is below the persisted blocks or beyond an epoch change. *)
Inductive lifecycle (op : BufferOp) (self : BlockBuffer) (key : BlockKey) :
    option BlockState → option BlockState → Prop :=
| lc_same x : lifecycle op self key x x
| lc_ordered parent block parent_id round :
    op = SetOrdered parent block round →
    bk_epoch key = bb_current_epoch self → bb_epoch_change_ready self = false →
    eb_epoch block = bk_epoch key → eb_block_number block = bk_block_number key →
    lifecycle op self key None (Some (Ordered block parent_id round))
| lc_computed id block_hash n txn_status events block parent_id round res :
    op = SetComputeRes id block_hash n (bk_epoch key) txn_status events →
    n ≤ bk_block_number key →
    lifecycle op self key (Some (Ordered block parent_id round))
      (Some (Computed (eb_block_id block) res))
| lc_suffix timed_out id block parent_id round cache :
    op = GetExecuted timed_out id (bk_block_number key) (bk_epoch key) →
    bb_epoch_change_block_info self = Some cache →
    ebi_block_number (ecc_epoch_block_info cache) < bk_block_number key →
    lifecycle op self key (Some (Ordered block parent_id round))
      (Some (Computed id (StateComputeResult_new_dummy_with_epoch_state (ecc_epoch_state cache))))
| lc_committed refs epoch id res hash notifier :
    op = SetCommit refs epoch →
    lifecycle op self key (Some (Computed id res)) (Some (Committed hash res id notifier))
| lc_notified timed_out n max_size epoch id res hash notifier :
    op = GetCommitted timed_out n max_size epoch →
    lifecycle op self key (Some (Committed hash res id notifier)) (Some (Committed hash res id None))
| lc_persisted max_block_size x :
    op = RemoveCommittedBlocks max_block_size →
    bk_block_number key < bb_latest_finalized_block_number self → lifecycle op self key (Some x) None
| lc_released x :
    op = ReleaseInflight →
    bb_latest_epoch_change_block_number self < bk_block_number key →
    lifecycle op self key (Some x) None.

Lemma lifecycle_insert op self key state key' :
  (key' = key → lifecycle op self key (bb_blocks self !! key) (Some state)) →
  lifecycle op self key' (bb_blocks self !! key') (<[key := state]> (bb_blocks self) !! key').
Proof using Type.
  intros H. destruct (decide (key' = key)) as [->|Hne].
  - rewrite lookup_insert_eq. auto.
  - rewrite lookup_insert_ne by done. constructor.
Qed.

Lemma lifecycle_filter op self (P : BlockKey → Prop) `{∀ k, Decision (P k)} key :
  (∀ x, ¬ P key → lifecycle op self key (Some x) None) →
  lifecycle op self key (bb_blocks self !! key)
    (filter (λ '(k, _), P k) (bb_blocks self) !! key).
Proof using Type.
  intros Hrem. destruct (bb_blocks self !! key) as [x|] eqn:Hx.
  - destruct (decide (P key)) as [HP|HP].
    + rewrite (proj2 (map_lookup_filter_Some _ _ _ x)); [constructor|done].
    + rewrite (proj2 (map_lookup_filter_None _ _ _)); [by apply Hrem|]. right.
      intros y Hy. by rewrite Hx in Hy.
  - rewrite (proj2 (map_lookup_filter_None _ _ _)); [constructor|by left].
Qed.

(** ** What calls leave alone *)

(** Everything but blocks, channels, transactions and commit state. *)
Definition epoch_fields (self : BlockBuffer) :=
  (bb_current_epoch self, bb_next_epoch self, bb_latest_epoch_change_block_number self,
   bb_epoch_change_block_info self, bb_epoch_change_ready self, bb_buffer_state self).

(** What committing and fetching committed blocks do to a block. *)
Definition committing (x y : option BlockState) : Prop :=
  x = y ∨ ∃ id res hash notifier,
    x = Some (Computed id res) ∧ y = Some (Committed hash res id notifier).
Definition notifying (x y : option BlockState) : Prop :=
  x = y ∨ ∃ id res hash notifier,
    x = Some (Committed hash res id notifier) ∧ y = Some (Committed hash res id None).

#[local] Instance committing_trans : Transitive committing.
Proof using Type.
  intros x y z [->|(id & res & h & n & -> & ->)]; [done|].
  intros [<-|(? & ? & ? & ? & [=] & _)]. right. eauto 10.
Qed.
#[local] Instance notifying_trans : Transitive notifying.
Proof using Type.
  intros x y z [->|(id & res & h & n & -> & ->)]; [done|].
  intros [<-|(? & ? & ? & ? & [= <- <- <- <-] & ->)]; right; eauto 10.
Qed.

Lemma commit_block_spec epoch ref self self' r :
  commit_block epoch ref self = (self', r) →
  epoch_fields self' = epoch_fields self ∧
  ∀ key, committing (bb_blocks self !! key) (bb_blocks self' !! key).
Proof using Type.
  unfold commit_block. intros H.
  destruct (bb_blocks self !! _) as [[]|] eqn:Hk; repeat case_match; simplify_eq; simpl;
    (split; [done|]); try (by left); intros key.
  all: destruct (decide (key = BlockKey_new epoch (bhr_num ref))) as [->|];
    [rewrite lookup_insert_eq, Hk|rewrite lookup_insert_ne by done; by left].
  all: bool_to_prop; subst; right; eauto 10.
Qed.

Lemma commit_blocks_spec epoch refs self self' r :
  commit_blocks epoch refs self = (self', r) →
  epoch_fields self' = epoch_fields self ∧
  ∀ key, committing (bb_blocks self !! key) (bb_blocks self' !! key).
Proof using Type.
  revert self self' r. induction refs as [|ref refs IH]; intros self self' r; simpl.
  { intros [= <- <-]. split; [done|by left]. }
  unfold mbind, SM_bind. destruct (commit_block epoch ref self) as [s1 r1] eqn:H1.
  apply commit_block_spec in H1 as [He1 Hk1].
  destruct r1; [|by intros [= <- <-]..].
  destruct (commit_blocks epoch refs s1) as [s2 r2] eqn:H2.
  apply IH in H2 as [He2 Hk2]. intros H.
  assert (self' = s2) as -> by (destruct r2; cbv [mret SM_ret] in H; by simplify_eq).
  split; [congruence|]. intros key. etrans; [apply Hk1|apply Hk2].
Qed.

(** The committed blocks from [n] on, as stored before the call. *)
Definition committed_refs (epoch n : Z) (self : BlockBuffer) (refs : list BlockHashRef) : Prop :=
  ∀ i ref, refs !! i = Some ref →
    bhr_num ref = n + Z.of_nat i ∧ is_suffix_block (bhr_num ref) self = false ∧
    ∃ res, bb_blocks self !! BlockKey_new epoch (bhr_num ref) =
      Some (Committed (bhr_hash ref) res (bhr_block_id ref) (bhr_persist_notifier ref)).

Lemma collect_committed_spec fuel epoch n len max_size self self' r :
  collect_committed fuel epoch n len max_size self = (self', r) →
  epoch_fields self' = epoch_fields self ∧ bb_channels self' = bb_channels self ∧
  (∀ key, notifying (bb_blocks self !! key) (bb_blocks self' !! key)) ∧
  (∀ key, bk_block_number key < n → bb_blocks self' !! key = bb_blocks self !! key) ∧
  ∀ refs, r = Ok refs → committed_refs epoch n self refs ∧
    ∀ ref, ref ∈ refs → ∃ hash res id,
      bb_blocks self' !! BlockKey_new epoch (bhr_num ref) = Some (Committed hash res id None).
Proof using Type.
  revert n len self self' r. induction fuel as [|fuel IH]; intros n len self self' r; simpl.
  { intros [= <- <-]. split_and!; try done; by left. }
  assert ((self, Ok []) = (self', r) →
    epoch_fields self' = epoch_fields self ∧ bb_channels self' = bb_channels self ∧
    (∀ key, notifying (bb_blocks self !! key) (bb_blocks self' !! key)) ∧
    (∀ key, bk_block_number key < n → bb_blocks self' !! key = bb_blocks self !! key) ∧
    ∀ refs, r = Ok refs → committed_refs epoch n self refs ∧
      ∀ ref, ref ∈ refs → ∃ hash res id,
        bb_blocks self' !! BlockKey_new epoch (bhr_num ref) = Some (Committed hash res id None))
    as Hstop.
  { intros [= <- <-]. split_and!; try done; [by left|]. intros refs [= <-].
    split; [by intros i ref|]. by intros ref ?%elem_of_nil. }
  destruct (is_suffix_block n self) eqn:Hsuf; [done|].
  destruct (bb_blocks self !! BlockKey_new epoch n) as [[| |hash res id notifier|]|] eqn:Hk; try done.
  clear Hstop. set (ref := {| bhr_num := n |}).
  set (self1 := with_blocks _ self).
  assert (∀ key, notifying (bb_blocks self !! key) (bb_blocks self1 !! key)) as Hn1.
  { intros key. unfold self1; simpl. destruct (decide (key = BlockKey_new epoch n)) as [->|].
    - rewrite lookup_insert_eq, Hk. right. eauto 10.
    - rewrite lookup_insert_ne by done. by left. }
  assert (∀ key, key ≠ BlockKey_new epoch n → bb_blocks self1 !! key = bb_blocks self !! key) as Hne1.
  { intros key Hne. unfold self1; simpl. by rewrite lookup_insert_ne. }
  assert (bb_blocks self1 !! BlockKey_new epoch n = Some (Committed hash res id None)) as Hk1
    by apply lookup_insert_eq.
  assert (∀ refs, committed_refs epoch (n + 1) self1 refs →
    committed_refs epoch n self (ref :: refs)) as Hcons.
  { intros refs Hrefs [|i] ref' Href'; simpl in Href'.
    - injection Href' as <-. simpl. split_and!; [lia|done|eauto].
    - destruct (Hrefs _ _ Href') as (-> & Hs & res' & Hres').
      split_and!; [lia|done|]. exists res'. rewrite <- Hres'. symmetry. apply Hne1.
      intros [= ?]. lia. }
  destruct (len + 1 >=? max_size).
  { intros [= <- <-]. split_and!; try done.
    - intros key Hlt. apply Hne1. intros ->. simpl in Hlt. lia.
    - intros refs [= <-]. split; [apply Hcons; by intros ??|].
      intros ref' ->%list_elem_of_singleton. eauto. }
  unfold mbind, SM_bind, lift, u64_add. destruct (n + 1 <=? u64_MAX).
  2: { intros [= <- <-]. split_and!; try done.
       intros key Hlt. apply Hne1. intros ->. simpl in Hlt. lia. }
  destruct (collect_committed fuel epoch (n + 1) (len + 1) max_size self1) as [s2 r2] eqn:H2.
  apply IH in H2 as (He2 & Hc2 & Hn2 & Hb2 & Hr2). intros H.
  assert (self' = s2) as -> by (destruct r2; cbv [mret SM_ret] in H; by simplify_eq).
  split_and!; [by rewrite He2|by rewrite Hc2|intros key; etrans; [apply Hn1|apply Hn2]|..].
  - intros key Hlt. rewrite Hb2 by lia. apply Hne1. intros ->. simpl in Hlt. lia.
  - intros refs ->. destruct r2 as [refs2| |]; cbv [mret SM_ret] in H; simplify_eq.
    destruct (Hr2 _ eq_refl) as [Hrefs Htaken]. split; [by apply Hcons|].
    intros ref' [->|Hin]%elem_of_cons; [|by apply Htaken].
    simpl. rewrite Hb2 by (simpl; lia). eauto.
Qed.

Lemma set_commit_blocks_spec block_ids epoch self :
  epoch_fields (set_commit_blocks block_ids epoch self).1 = epoch_fields self ∧
  ∀ key, committing (bb_blocks self !! key)
           (bb_blocks (set_commit_blocks block_ids epoch self).1 !! key).
Proof using Type.
  unfold set_commit_blocks, when_ready. destruct (is_ready self); [|split; [done|by left]].
  destruct (commit_blocks epoch block_ids self) as [self' r] eqn:H.
  by apply commit_blocks_spec in H.
Qed.

Lemma get_committed_blocks_spec timed_out start_num max_size epoch self :
  epoch_fields (get_committed_blocks timed_out start_num max_size epoch self).1 = epoch_fields self ∧
  ∀ key, notifying (bb_blocks self !! key)
           (bb_blocks (get_committed_blocks timed_out start_num max_size epoch self).1 !! key).
Proof using Type.
  unfold get_committed_blocks, when_ready. destruct (is_ready self); [|split; [done|by left]].
  destruct timed_out; [split; [done|by left]|].
  destruct (collect_committed _ _ _ _ _ _) as [self' r] eqn:H.
  apply collect_committed_spec in H as (? & _ & ? & _). by repeat case_match.
Qed.

Lemma get_ordered_blocks_reads timed_out start_num max_size epoch self :
  (get_ordered_blocks timed_out start_num max_size epoch self).1 = self.
Proof using Type. unfold get_ordered_blocks, when_ready. by repeat case_match. Qed.

(** The blocks after a result was set: the block itself and, when it ends the
    epoch, the ones ordered after it. *)
Lemma set_compute_res_blocks block_id block_hash block_num epoch txn_status events self key :
  let self' := (set_compute_res block_id block_hash block_num epoch txn_status events self).1 in
  bb_blocks self' !! key = bb_blocks self !! key ∨
  bk_epoch key = epoch ∧ block_num ≤ bk_block_number key ∧
  ∃ block parent_id round res,
    bb_blocks self !! key = Some (Ordered block parent_id round) ∧
    bb_blocks self' !! key = Some (Computed (eb_block_id block) res).
Proof using Type.
  simpl. unfold set_compute_res, when_ready. destruct (is_ready self); [|by left].
  destruct (bb_blocks self !! BlockKey_new epoch block_num) as [[block p round| | |]|] eqn:Hk;
    try by left.
  case_bool_decide as Hid; [|by left].
  destruct (calculate_new_epoch_state events block_num self) as [self1 r] eqn:Hcalc.
  assert (bb_blocks self1 = bb_blocks self) as Hb1.
  { unfold calculate_new_epoch_state in Hcalc. by repeat case_match; simplify_eq. }
  destruct r as [new_epoch_state| |]; simpl; [|by rewrite Hb1; left..].
  set (res := StateComputeResult_new _ _ _). rewrite Hb1.
  set (blocks1 := <[_ := _]> (bb_blocks self)).
  assert (blocks1 !! key = bb_blocks self !! key ∨
    bk_epoch key = epoch ∧ block_num ≤ bk_block_number key ∧ ∃ block p round res, bb_blocks self !! key = Some (Ordered block p round) ∧
      blocks1 !! key = Some (Computed (eb_block_id block) res)) as Hins.
  { unfold blocks1. destruct (decide (key = BlockKey_new epoch block_num)) as [->|].
    - rewrite lookup_insert_eq, Hk. right. subst block_id. simpl. split_and!; [done|done|eauto 10].
    - rewrite lookup_insert_ne by done. by left. }
  destruct new_epoch_state as [es|]; simpl; [|done].
  rewrite map_lookup_imap. clearbody blocks1.
  destruct Hins as [->|(He & Hn & b & p' & r & res' & H1 & H2)]; [|rewrite H2; right; eauto 10].
  destruct (bb_blocks self !! key) as [[b p' r| | |]|]; simpl; try by left.
  destruct ((_ =? _) && _) eqn:Hsuf; [|by left]. bool_to_prop. right. split_and!; [done|lia|eauto 10].
Qed.

Lemma get_executed_res_blocks timed_out block_id block_num epoch self key :
  let self' := (get_executed_res timed_out block_id block_num epoch self).1 in
  bb_blocks self' !! key = bb_blocks self !! key ∨
  key = BlockKey_new epoch block_num ∧
  ∃ block parent_id round cache,
    bb_blocks self !! key = Some (Ordered block parent_id round) ∧
    bb_epoch_change_block_info self = Some cache ∧
    ebi_block_number (ecc_epoch_block_info cache) < block_num ∧
    bb_blocks self' !! key =
      Some (Computed block_id (StateComputeResult_new_dummy_with_epoch_state (ecc_epoch_state cache))).
Proof using Type.
  simpl. unfold get_executed_res, when_ready. destruct (is_ready self); [|by left].
  destruct timed_out; [by left|].
  destruct (bb_blocks self !! BlockKey_new epoch block_num) as [[block p round| | |]|] eqn:Hk;
    try (repeat case_match; by left).
  destruct (is_suffix_block block_num self) eqn:Hs; [|by left].
  unfold is_suffix_block in Hs. destruct (bb_epoch_change_block_info self) as [cache|] eqn:Hc;
    [|done]. simpl in *. bool_to_prop.
  destruct (decide (key = BlockKey_new epoch block_num)) as [->|].
  - rewrite lookup_insert_eq. right. split; [done|]. eauto 10.
  - rewrite lookup_insert_ne by done. by left.
Qed.

Lemma lifecycle_step (op : BufferOp) (self : BlockBuffer) (key : BlockKey) :
  lifecycle op self key (bb_blocks self !! key) (bb_blocks (buffer_step op self).1 !! key).
Proof using Type.
  destruct op; simpl in *; try (by constructor).
  - unfold remove_committed_blocks. case_bool_decide; [constructor|]. simpl.
    apply (lifecycle_filter _ self (λ k, _ ≤ bk_block_number k)).
    intros x Hx. eapply lc_persisted; [done|lia].
  - unfold pop_txns. repeat case_match; constructor.
  - unfold set_ordered_blocks, when_ready.
    destruct (is_ready self), (bb_epoch_change_ready self) eqn:?; simpl; try constructor.
    destruct (_ <? _) eqn:?; [constructor|]. destruct (_ >? _) eqn:?; [constructor|].
    destruct (bb_blocks self !! BlockKey_new _ _) eqn:Hk; [constructor|]. simpl.
    apply lifecycle_insert. intros _. rewrite Hk. bool_to_prop.
    eapply lc_ordered; simpl; done || lia.
  - rewrite get_ordered_blocks_reads. constructor.
  - destruct (get_executed_res_blocks timed_out block_id block_num epoch self key)
      as [->|(-> & b & p & r & cache & -> & Hc & Hn & ->)]; [constructor|].
    by eapply lc_suffix.
  - destruct (set_compute_res_blocks block_id block_hash block_num epoch txn_status events self key)
      as [->|(<- & Hn & b & p & r & res & -> & ->)]; [constructor|]. by eapply lc_computed.
  - destruct (set_commit_blocks_spec block_ids epoch self) as [_ H].
    destruct (H key) as [<-|(id & res & h & n & -> & ->)]; [constructor|by eapply lc_committed].
  - destruct (get_committed_blocks_spec timed_out start_num max_size epoch self) as [_ H].
    destruct (H key) as [<-|(id & res & h & n & -> & ->)]; [constructor|by eapply lc_notified].
  - unfold release_inflight_blocks. destruct (negb _); [constructor|]. simpl.
    apply (lifecycle_filter _ self (λ k, bk_block_number k ≤ _)).
    intros x Hx. eapply lc_released; [done|lia].
Qed.

(** ** Histories *)

Abbreviation history := (list (BufferOp * BufferOutput)).

(** The states reached from [start] by calls that callers guard, with the calls
    that led there, the latest first. *)
Inductive reaches (guard : BlockBuffer → BufferOp → Prop) (start : BlockBuffer) :
    history → BlockBuffer → Prop :=
| reaches_start : reaches guard start [] start
| reaches_step h self op :
    reaches guard start h self → guard self op →
    reaches guard start ((op, (buffer_step op self).2) :: h) (buffer_step op self).1.

Definition any_call (self : BlockBuffer) (op : BufferOp) : Prop := True.

(** What can become of a block while the buffer has it. *)
Definition advanced (state state' : BlockState) : Prop :=
  match state, state' with
  | Ordered block parent_id round, Ordered block' parent_id' round' =>
      block' = block ∧ parent_id' = parent_id ∧ round' = round
  | Ordered block _ _, (Computed id res | Committed _ res id _) =>
      id = eb_block_id block ∨ ∃ es, res = StateComputeResult_new_dummy_with_epoch_state es
  | Computed id res, (Computed id' res' | Committed _ res' id' _) => id' = id ∧ res' = res
  | Committed hash res id notifier, Committed hash' res' id' notifier' =>
      hash' = hash ∧ res' = res ∧ id' = id ∧ (notifier' = notifier ∨ notifier' = None)
  | Historical id, Historical id' => id' = id
  | _, _ => False
  end.

(** Calls that leave a block with this key in the buffer. *)
Definition stays (key : BlockKey) (self self' : BlockBuffer) : Prop :=
  ∃ op, self' = (buffer_step op self).1 ∧ is_Some (bb_blocks self' !! key).

Lemma lifecycle_advanced op self key state state' :
  lifecycle op self key (Some state) (Some state') → advanced state state'.
Proof using Type.
  inversion 1; subst; simpl; eauto 10. destruct state'; simpl; eauto 10.
Qed.
Lemma advanced_trans x y z : advanced x y → advanced y z → advanced x z.
Proof using Type.
  destruct x, y; simpl; try done; destruct z; simpl; naive_solver.
Qed.

(** C7. Blocks move along their life.  A call changes the block with a number only
    in one of these ways: it is ordered, in the current epoch and while no epoch
    change waits to be consumed; it is computed, under its own identifier, when a
    result is delivered for it or for a block before it, or under the identifier
    that a request for its result names, when it lies beyond one that ended the
    epoch; it is committed, or its notifier taken; it is dropped, below the
    persisted blocks by the clean-up or beyond the last epoch change by its
    release.  So as long as a block stays in the buffer, no stage is repeated, and
    whatever calls are made, its result, once it has one, and its identifier from
    then on never change, nor does its hash once it is committed. *)
Theorem blocks_follow_lifecycle (op : BufferOp) (self self' : BlockBuffer) (key : BlockKey) :
  lifecycle op self key (bb_blocks self !! key) (bb_blocks (buffer_step op self).1 !! key) ∧
  ∀ state state', rtc (stays key) self self' →
    bb_blocks self !! key = Some state → bb_blocks self' !! key = Some state' →
    advanced state state'.
Proof using Type.
  split; [apply lifecycle_step|]. intros state state' Hr. revert state.
  induction Hr as [s|s s1 s' (o & -> & [x Hx]) _ IH]; intros state Hs Hs'.
  - rewrite Hs in Hs'. injection Hs' as <-. destruct state; simpl; auto.
  - pose proof (lifecycle_step o s key) as Hl. rewrite Hs, Hx in Hl.
    eapply advanced_trans; [by eapply lifecycle_advanced|by apply IH].
Qed.

(** Execution delivered [res] for the block [id] with this key. *)
Definition delivered (h : history) (key : BlockKey) (id : HashValue) (res : StateComputeResult) :
    Prop :=
  ∃ block_hash txn_status events,
    (SetComputeRes id block_hash (bk_block_number key) (bk_epoch key) txn_status events,
     OUnit (Done (Ok tt))) ∈ h ∧
    cr_data (scr_execution_output res) = block_hash ∧
    cr_txn_status (scr_execution_output res) = txn_status ∧
    cr_events (scr_execution_output res) = events.

(** Execution announced the epoch state [es] with the result of block number
    [n]. *)
Definition announced (h : history) (n : Z) (es : EpochState) : Prop :=
  ∃ id block_hash epoch txn_status events new_epoch bytes validator_set,
    (SetComputeRes id block_hash n epoch txn_status events, OUnit (Done (Ok tt))) ∈ h ∧
    find_new_epoch events = Some (new_epoch, bytes) ∧
    validator_set_from_bytes bytes = Ok validator_set ∧
    es = EpochState_new new_epoch validator_set.

(** A result is the one delivered for this block, or the dummy result of a
    block beyond one that ended the epoch. *)
Definition accounted (h : history) (key : BlockKey) (id : HashValue) (res : StateComputeResult) :
    Prop :=
  delivered h key id res ∨
  ∃ n es, n < bk_block_number key ∧ announced h n es ∧
    res = StateComputeResult_new_dummy_with_epoch_state es.

Definition stored_result (state : BlockState) : option (HashValue * StateComputeResult) :=
  match state with
  | Computed id res | Committed _ res id _ => Some (id, res)
  | Ordered _ _ _ | Historical _ => None
  end.

Definition results_inv (h : history) (self : BlockBuffer) : Prop :=
  (∀ key state id res, bb_blocks self !! key = Some state →
     stored_result state = Some (id, res) → accounted h key id res) ∧
  (∀ cache, bb_epoch_change_block_info self = Some cache →
     announced h (ebi_block_number (ecc_epoch_block_info cache)) (ecc_epoch_state cache)).

Lemma accounted_cons x h key id res : accounted h key id res → accounted (x :: h) key id res.
Proof using Type.
  intros [(bh & ts & ev & Hin & Heq)|(n & es & Hn & Ha & Heq)].
  - left. exists bh, ts, ev. split; [by apply list_elem_of_further|done].
  - right. exists n, es. split; [done|]. split; [|done].
    destruct Ha as (i & bh & ep & ts & ev & ne & bs & vs & Hin & Hrest).
    exists i, bh, ep, ts, ev, ne, bs, vs. split; [by apply list_elem_of_further|done].
Qed.

Lemma announced_cons x h n es : announced h n es → announced (x :: h) n es.
Proof using Type.
  intros (i & bh & ep & ts & ev & ne & bs & vs & Hin & Hrest).
  exists i, bh, ep, ts, ev, ne, bs, vs. split; [by apply list_elem_of_further|done].
Qed.

(** Calls that neither compute results nor touch the epoch change. *)
Lemma results_inv_frame x h self self' :
  results_inv h self →
  (bb_epoch_change_block_info self' = bb_epoch_change_block_info self ∨
   bb_epoch_change_block_info self' = None) →
  (∀ key state' id res, bb_blocks self' !! key = Some state' →
     stored_result state' = Some (id, res) →
     ∃ state, bb_blocks self !! key = Some state ∧ stored_result state = Some (id, res)) →
  results_inv (x :: h) self'.
Proof using Type.
  intros [Hres Hann] Hinfo Hblocks. split.
  - intros key state' id res Hk Hs. destruct (Hblocks _ _ _ _ Hk Hs) as (state & Hk' & Hs').
    apply accounted_cons. eauto.
  - intros cache Hc. apply announced_cons, Hann. destruct Hinfo; congruence.
Qed.

Lemma results_inv_filter x h self self' (P : BlockKey * BlockState → Prop) `{∀ p, Decision (P p)} :
  results_inv h self →
  (bb_epoch_change_block_info self' = bb_epoch_change_block_info self ∨
   bb_epoch_change_block_info self' = None) →
  bb_blocks self' = filter P (bb_blocks self) → results_inv (x :: h) self'.
Proof using Type.
  intros Hinv Hinfo Hb. eapply results_inv_frame; [done|done|].
  intros key state' id res Hk Hs. rewrite Hb in Hk. apply map_lookup_filter_Some in Hk as [Hk _].
  eauto.
Qed.

Lemma results_inv_set_compute h self id block_hash n epoch txn_status events :
  results_inv h self →
  let op := SetComputeRes id block_hash n epoch txn_status events in
  results_inv ((op, (buffer_step op self).2) :: h) (buffer_step op self).1.
Proof using Type.
  intros Hinv op. simpl. unfold set_compute_res, when_ready.
  assert (∀ o, results_inv ((op, o) :: h) self) as Hsame.
  { intros o. eapply results_inv_frame; [done|by left|by eauto]. }
  destruct (is_ready self); [|apply Hsame].
  destruct (bb_blocks self !! BlockKey_new epoch n) as [[block p round| | |]|] eqn:Hk;
    try apply Hsame.
  case_bool_decide as Hid; [|apply Hsame].
  set (h' := (op, OUnit (Done (Ok tt))) :: h).
  assert (∀ key state i r res,
    <[BlockKey_new epoch n := Computed id (StateComputeResult_new
        {| cr_data := block_hash; cr_txn_num := eb_txns_len block;
           cr_txn_status := txn_status; cr_events := events |} res None)]>
      (bb_blocks self) !! key = Some state →
    stored_result state = Some (i, r) → accounted h' key i r) as Hins.
  { intros key state i r res [[<- <-]|[_ Hk']]%lookup_insert_Some Hst.
    - injection Hst as <- <-. left. exists block_hash, txn_status, events.
      split; [apply list_elem_of_here|done].
    - apply accounted_cons. destruct Hinv as [Hres _]. eauto. }
  unfold calculate_new_epoch_state. destruct (find_new_epoch events) as [[ne bytes]|] eqn:Hne; simpl.
  2: { split; [intros key state i r Hk' Hst; exact (Hins _ _ _ _ None Hk' Hst)|]. intros cache Hc. apply announced_cons. by apply Hinv. }
  destruct (validator_set_from_bytes bytes) as [vs| |] eqn:Hvs; simpl; try apply Hsame.
  assert (announced h' n (EpochState_new ne vs)) as Hann.
  { exists id, block_hash, epoch, txn_status, events, ne, bytes, vs.
    split; [apply list_elem_of_here|done]. }
  split; simpl; [|by intros cache [= <-]].
  intros key state i r. rewrite map_lookup_imap, bind_Some.
  intros (state0 & Hk0 & [= <-]) Hst.
  unfold suffix_result in Hst. destruct state0; try exact (Hins _ _ _ _ (Some _) Hk0 Hst).
  destruct ((_ =? _) && _) eqn:Hb; [|done]. bool_to_prop. injection Hst as <- <-.
  right. exists n, (EpochState_new ne vs). split; [lia|done].
Qed.

Lemma results_inv_executed h self o timed_out block_id block_num epoch :
  results_inv h self →
  results_inv (o :: h) (get_executed_res timed_out block_id block_num epoch self).1.
Proof using Type.
  intros Hinv. pose proof Hinv as [Hres Hann]. split.
  - intros key state i r Hk Hst. apply accounted_cons.
    destruct (get_executed_res_blocks timed_out block_id block_num epoch self key)
      as [Heq|(-> & b & p & rd & cache & _ & Hc & Hn & Heq)]; rewrite Hk in Heq; [by eauto|].
    injection Heq as ->. injection Hst as <- <-. right. eexists _, _. split; [exact Hn|]. eauto.
  - intros cache Hc. apply announced_cons, Hann. rewrite <- Hc. symmetry.
    unfold get_executed_res, when_ready. by repeat case_match.
Qed.

Lemma results_inv_step h self op :
  results_inv h self →
  results_inv ((op, (buffer_step op self).2) :: h) (buffer_step op self).1.
Proof using Type.
  intros Hinv.
  assert (∀ o self', epoch_fields self' = epoch_fields self → bb_blocks self' = bb_blocks self →
    results_inv (o :: h) self') as Hframe.
  { intros o self' He Hb. eapply results_inv_frame; [done| |rewrite Hb; by eauto].
    left. by injection He. }
  destruct op; simpl; try (by apply Hframe).
  - unfold remove_committed_blocks. case_bool_decide; [by apply Hframe|].
    eapply (results_inv_filter _ _ _ _ (λ p : BlockKey * BlockState, let '(key, _) := p in _));
      [done|by left|done].
  - eapply results_inv_frame; [done|by left|by eauto].
  - unfold pop_txns. repeat case_match; by apply Hframe.
  - unfold set_ordered_blocks, when_ready. repeat case_match; simpl; try (by apply Hframe).
    eapply results_inv_frame; [done|by left|].
    simpl. intros key state' i r [[<- <-]|[_ ?]]%lookup_insert_Some Hst; [done|eauto].
  - rewrite get_ordered_blocks_reads. by apply Hframe.
  - by apply results_inv_executed.
  - by apply results_inv_set_compute.
  - destruct (set_commit_blocks_spec block_ids epoch self) as [He Hb].
    eapply results_inv_frame; [done|left; by injection He|].
    intros key state' i r Hk Hst. specialize (Hb key). rewrite Hk in Hb.
    destruct Hb as [->|(i' & r' & hs & nt & -> & [= ->])]; eauto.
  - destruct (get_committed_blocks_spec timed_out start_num max_size epoch self) as [He Hb].
    eapply results_inv_frame; [done|left; by injection He|].
    intros key state' i r Hk Hst. specialize (Hb key). rewrite Hk in Hb.
    destruct Hb as [->|(i' & r' & hs & nt & -> & [= ->])]; eauto.
  - eapply results_inv_frame; [done|by left|by eauto].
  - unfold release_inflight_blocks. destruct (negb _); [by apply Hframe|].
    eapply (results_inv_filter _ _ _ _ (λ p : BlockKey * BlockState, let '(key, _) := p in _));
      [done|by right|done].
Qed.

(** A buffer as [init] leaves it: no block has a result yet. *)
Definition no_results (self : BlockBuffer) : Prop :=
  (∀ key state, bb_blocks self !! key = Some state → stored_result state = None) ∧
  bb_epoch_change_block_info self = None.

Lemma results_reachable start h self :
  no_results start → reaches any_call start h self → results_inv h self.
Proof using Type.
  intros [Hno Hinfo]. induction 1 as [|h self op _ IH _]; [|by apply results_inv_step].
  split; [|by rewrite Hinfo]. intros key state id res Hk Hst.
  apply Hno in Hk. congruence.
Qed.

(** C4. Consensus only sees results that execution produced.  Whatever calls
    were made since start-up, a result handed to consensus for a block was
    delivered by the execution client for the block with this epoch, number and
    identifier; or the block lies beyond one that ended the epoch, and the
    result carries that block's epoch state and no execution output; or the
    block is unknown and of an earlier epoch, and the result is empty. *)
Theorem executed_results_authentic (start self self' : BlockBuffer) (h : history)
    (timed_out : bool) (block_id : HashValue) (block_num epoch : Z) (res : StateComputeResult) :
  no_results start → reaches any_call start h self →
  get_executed_res timed_out block_id block_num epoch self = (self', Done (Ok res)) →
  delivered h (BlockKey_new epoch block_num) block_id res ∨
  (∃ n es, n < block_num ∧ announced h n es ∧
     res = StateComputeResult_new_dummy_with_epoch_state es) ∨
  (res = StateComputeResult_new_dummy ∧ epoch < bb_current_epoch self ∧
     bb_blocks self !! BlockKey_new epoch block_num = None).
Proof using Type.
  intros Hno Hreach H. destruct (results_reachable _ _ _ Hno Hreach) as [Hres Hann].
  assert (accounted h (BlockKey_new epoch block_num) block_id res ∨
    (res = StateComputeResult_new_dummy ∧ epoch < bb_current_epoch self ∧
     bb_blocks self !! BlockKey_new epoch block_num = None)) as [[?|?]|?]; [|eauto..].
  unfold get_executed_res, when_ready in H. destruct (is_ready self); [|done].
  destruct timed_out; [done|]. destruct (bb_blocks self !! _) as [[]|] eqn:Hk.
  - destruct (is_suffix_block block_num self) eqn:Hs; [|done]. unfold is_suffix_block in Hs.
    destruct (bb_epoch_change_block_info self) as [cache|]; [|done]. simpl in Hs. bool_to_prop.
    simplify_eq. left. right. eexists _, _. split; [exact Hs|]. auto.
  - case_bool_decide; simplify_eq. left. eauto.
  - case_bool_decide; simplify_eq. left. eauto.
  - done.
  - destruct (epoch <? bb_current_epoch self) eqn:He; simplify_eq. bool_to_prop. auto.
Qed.

(** ** Ordered blocks *)

(** Only [set_ordered_blocks] makes ordered blocks. *)
Lemma ordered_created op self key block parent_id round :
  bb_blocks (buffer_step op self).1 !! key = Some (Ordered block parent_id round) →
  bb_blocks self !! key = Some (Ordered block parent_id round) ∨
  ∃ parent, op = SetOrdered parent block round ∧
    key = BlockKey_new (eb_epoch block) (eb_block_number block) ∧
    parent_id = from_option BlockState_get_block_id parent (actual_parent block self).
Proof using Type.
  intros H. destruct op; simpl in H; try (by left).
  - unfold remove_committed_blocks in H. case_bool_decide; [by left|].
    apply map_lookup_filter_Some in H as [? _]. by left.
  - unfold pop_txns in H. repeat case_match; by left.
  - unfold set_ordered_blocks, when_ready in H. repeat case_match; try (by left). simpl in H.
    apply lookup_insert_Some in H as [[<- [= -> <- ->]]|[_ ?]]; [right; eauto|by left].
  - rewrite get_ordered_blocks_reads in H. by left.
  - destruct (get_executed_res_blocks timed_out block_id block_num epoch self key)
      as [Heq|(_ & b & p & r & cache & _ & _ & _ & Heq)]; rewrite H in Heq; [by left|done].
  - destruct (set_compute_res_blocks block_id block_hash block_num epoch txn_status events self key)
      as [Heq|(_ & _ & b & p & r & res & _ & Heq)]; simpl in Heq; rewrite H in Heq; [by left|done].
  - destruct (set_commit_blocks_spec block_ids epoch self) as [_ Hb].
    specialize (Hb key). rewrite H in Hb. destruct Hb as [?|(? & ? & ? & ? & _ & ?)]; [by left|done].
  - destruct (get_committed_blocks_spec timed_out start_num max_size epoch self) as [_ Hb].
    specialize (Hb key). rewrite H in Hb. destruct Hb as [?|(? & ? & ? & ? & _ & ?)]; [by left|done].
  - unfold release_inflight_blocks in H. destruct (negb _); [by left|].
    apply map_lookup_filter_Some in H as [? _]. by left.
Qed.

(** Block numbers are [u64]s with room for the next one, and a block is ordered
    before its successor. *)
Definition orderly (self : BlockBuffer) (op : BufferOp) : Prop :=
  match op with
  | SetOrdered _ block _ =>
      0 ≤ eb_block_number block < u64_MAX ∧
      ∀ b p r, bb_blocks self !! BlockKey_new (eb_epoch block) (eb_block_number block + 1) ≠
        Some (Ordered b p r)
  | _ => True
  end.

Definition ordered_inv (self : BlockBuffer) : Prop :=
  (∀ key state, bb_blocks self !! key = Some state → 0 ≤ bk_block_number key < u64_MAX) ∧
  (∀ key b p r, bb_blocks self !! key = Some (Ordered b p r) →
     eb_epoch b = bk_epoch key ∧ eb_block_number b = bk_block_number key) ∧
  (∀ epoch n b p r b' p' r',
     bb_blocks self !! BlockKey_new epoch (n + 1) = Some (Ordered b p r) →
     bb_blocks self !! BlockKey_new epoch n = Some (Ordered b' p' r') → p = eb_block_id b').

Lemma lifecycle_origin op self key x state' :
  lifecycle op self key x (Some state') →
  (∃ state, x = Some state) ∨
  x = None ∧ ∃ block p r, state' = Ordered block p r.
Proof using Type. inversion 1; subst; eauto 10. Qed.

Lemma ordered_inv_step self op :
  ordered_inv self → orderly self op → ordered_inv (buffer_step op self).1.
Proof using Type.
  intros (Hnum & Hwf & Hlink) Hop. split_and!.
  - intros key state' Hk. pose proof (lifecycle_step op self key) as Hlc. rewrite Hk in Hlc.
    destruct (lifecycle_origin _ _ _ _ _ Hlc) as [[state Hs]|[Hs (b & p & r & ->)]]; [by eauto|].
    apply ordered_created in Hk as [?|(parent & -> & -> & _)]; [by eauto|apply Hop].
  - intros key b p r [?|(parent & _ & -> & _)]%ordered_created; [by eauto|done].
  - intros epoch n b p r b' p' r' Hk Hprev.
    apply ordered_created in Hk as [Hk|(parent & -> & [= -> Hn] & ->)];
      apply ordered_created in Hprev as [Hprev|(parent' & Heq & [= He' Hn'] & _)].
    + by eapply Hlink.
    + subst op. destruct Hop as [_ Hop]. exfalso. apply (Hop b p r). by rewrite <- He', <- Hn'.
    + unfold actual_parent, u64_checked_sub. destruct (Hnum _ _ Hprev) as [? _]; simpl in *.
      rewrite <- Hn, (proj2 (Z.leb_le _ _)) by lia. simpl.
      replace (n + 1 - 1) with n by lia. by rewrite Hprev.
    + injection Heq as -> -> ->. lia.
Qed.

(** ** Blocks handed to execution *)

(** The keys a loop over consecutive numbers can still visit. *)
Definition keys_from (epoch n : Z) (blocks : gmap BlockKey BlockState) : gset BlockKey :=
  filter (λ key, bk_epoch key = epoch ∧ n ≤ bk_block_number key) (dom blocks).

Lemma keys_from_next epoch n blocks state :
  blocks !! BlockKey_new epoch n = Some state →
  (size (keys_from epoch (n + 1) blocks) < size (keys_from epoch n blocks))%nat.
Proof using Type.
  intros Hk. apply subset_size. split.
  - intros key. unfold keys_from. rewrite !elem_of_filter. intros [[? ?] ?]. split_and!; done || lia.
  - intros Hsub. assert (BlockKey_new epoch n ∈ keys_from epoch (n + 1) blocks) as Hin.
    { apply Hsub, elem_of_filter. simpl. split; [split; [done|lia]|]. by eapply elem_of_dom_2. }
    apply elem_of_filter in Hin as [[_ Hle] _]. simpl in Hle. lia.
Qed.

Lemma keys_from_size epoch n blocks : (size (keys_from epoch n blocks) ≤ size blocks)%nat.
Proof using Type.
  rewrite <- (size_dom blocks). apply subseteq_size. intros key Hk.
  by apply elem_of_filter in Hk as [_ ?].
Qed.

(** The longest run of ordered blocks from [n] on, cut at [max_size]. *)
Definition ordered_run (blocks : gmap BlockKey BlockState) (epoch n len max_size : Z)
    (l : list (ExternalBlock * HashValue)) : Prop :=
  (∀ i b p, l !! i = Some (b, p) →
     ∃ r, blocks !! BlockKey_new epoch (n + Z.of_nat i) = Some (Ordered b p r)) ∧
  (l = [] ∨ len + Z.of_nat (length l) < max_size → ∀ b p r,
     blocks !! BlockKey_new epoch (n + Z.of_nat (length l)) ≠ Some (Ordered b p r)) ∧
  (l = [] ∨ len + Z.of_nat (length l) ≤ Z.max (len + 1) max_size).

Lemma ordered_run_nil blocks epoch n len max_size :
  (∀ b p r, blocks !! BlockKey_new epoch n ≠ Some (Ordered b p r)) →
  ordered_run blocks epoch n len max_size [].
Proof using Type.
  intros Hno. split_and!; [done| |by left]. intros _. simpl. by rewrite Z.add_0_r.
Qed.

Lemma ordered_run_cons blocks epoch n len max_size b p r l :
  blocks !! BlockKey_new epoch n = Some (Ordered b p r) → len + 1 < max_size →
  ordered_run blocks epoch (n + 1) (len + 1) max_size l →
  ordered_run blocks epoch n len max_size ((b, p) :: l).
Proof using Type.
  intros Hk Hmax (Hl & Hstop & Hlen). split_and!.
  - intros [|i] b' p'; simpl; [intros [= <- <-]; rewrite Z.add_0_r; eauto|].
    intros Hi. destruct (Hl _ _ _ Hi) as [r' Hr']. exists r'. rewrite <- Hr'. f_equal. f_equal. lia.
  - intros [[=]|Hlt'] b' p' r'. replace (n + Z.of_nat (length ((b, p) :: l)))
      with (n + 1 + Z.of_nat (length l)) by (simpl; lia). apply Hstop. right. simpl in Hlt'. lia.
  - right. simpl. destruct Hlen as [->|Hlen]; simpl; lia.
Qed.

(** More fuel than there are blocks is enough. *)
Lemma collect_ordered_ok fuel blocks epoch n len max_size :
  (size (keys_from epoch n blocks) < fuel)%nat →
  (∀ key state, blocks !! key = Some state → bk_block_number key < u64_MAX) →
  ∃ l, collect_ordered fuel blocks epoch n len max_size = Ok l ∧
    ordered_run blocks epoch n len max_size l.
Proof using Type.
  revert n len. induction fuel as [|fuel IH]; intros n len Hfuel Hnum; [lia|]. simpl.
  destruct (blocks !! BlockKey_new epoch n) as [[b p r| | |]|] eqn:Hk;
    try (eexists; split; [done|]; apply ordered_run_nil; intros; by rewrite Hk).
  destruct (len + 1 >=? max_size) eqn:Hmax; bool_to_prop.
  { exists [(b, p)]. split; [done|]. split_and!.
    - intros [|i] b' p'; [|done]. intros [= <- <-]. simpl. rewrite Z.add_0_r. eauto.
    - simpl. intros [[=]|?]. lia.
    - right. simpl. lia. }
  pose proof (Hnum _ _ Hk) as Hn. simpl in Hn. unfold u64_add.
  rewrite (proj2 (Z.leb_le _ _)) by lia. simpl.
  pose proof (keys_from_next _ _ _ _ Hk) as Hlt.
  destruct (IH (n + 1) (len + 1)) as (l & -> & Hl); [lia|done|].
  eexists. split; [done|]. by eapply ordered_run_cons.
Qed.

(** A buffer as [init] leaves it: at most blocks recovered from storage. *)
Definition recovered (self : BlockBuffer) : Prop :=
  ∀ key state, bb_blocks self !! key = Some state →
    0 ≤ bk_block_number key < u64_MAX ∧ ∃ id, state = Historical id.

Lemma ordered_reachable start h self :
  recovered start → reaches orderly start h self → ordered_inv self.
Proof using Type.
  intros Hstart. induction 1 as [|h self op _ IH Hop]; [|by apply ordered_inv_step].
  split_and!.
  - intros key state Hk. by apply Hstart in Hk as [? _].
  - intros key b p r Hk. by apply Hstart in Hk as [_ [? [=]]].
  - intros epoch n b p r b' p' r' Hk. by apply Hstart in Hk as [_ [? [=]]].
Qed.

(** C6. The execution client gets a chain.  As long as consensus orders blocks
    in the order of their numbers, fetching ordered blocks fails only when the
    call has waited for [max_wait_timeout], the epoch is not the expected one or
    an epoch change is waiting, and otherwise waits only where there is no
    ordered block; what it returns is a chain: the blocks of this epoch with
    consecutive numbers from the requested one on, each named as the parent of
    the next. *)
Theorem execution_gets_chain (start self self' : BlockBuffer) (h : history) (timed_out : bool)
    (n epoch : Z) (max_size : option Z) (out : poll (list (ExternalBlock * HashValue))) :
  recovered start → reaches orderly start h self → is_ready self = true →
  get_ordered_blocks timed_out n max_size epoch self = (self', out) →
  self' = self ∧
  match out with
  | Pending => ∀ b p r, bb_blocks self !! BlockKey_new epoch n ≠ Some (Ordered b p r)
  | Done (Ok l) =>
      l ≠ [] ∧ epoch = bb_current_epoch self ∧
      (∀ i b p, l !! i = Some (b, p) → eb_epoch b = epoch ∧ eb_block_number b = n + Z.of_nat i) ∧
      (∀ i b p b' p', l !! i = Some (b, p) → l !! S i = Some (b', p') → p' = eb_block_id b)
  | Done (Err _) =>
      timed_out = true ∨ bb_epoch_change_ready self = true ∨ epoch ≠ bb_current_epoch self
  | Done Panic => False
  end.
Proof using Type.
  intros Hstart Hreach Hready H.
  destruct (ordered_reachable _ _ _ Hstart Hreach) as (Hnum & Hwf & Hlink).
  unfold get_ordered_blocks, when_ready in H. rewrite Hready in H.
  destruct timed_out; [simplify_eq; auto|].
  destruct (bb_epoch_change_ready self) eqn:Hchange; simpl in H; [simplify_eq; auto|].
  destruct (Z.eqb_spec (bb_current_epoch self) epoch) as [He|He]; simpl in H; [|simplify_eq; auto].
  destruct (collect_ordered_ok (S (size (bb_blocks self))) (bb_blocks self) epoch n 0
    (default u64_MAX max_size)) as (l & Hl & Hrun & Hstop & Hlen).
  { pose proof (keys_from_size epoch n (bb_blocks self)). lia. }
  { intros key state Hk. by apply Hnum in Hk as [_ ?]. }
  change (match collect_ordered (S (size (bb_blocks self))) (bb_blocks self) epoch n 0
            (default u64_MAX max_size) with
          | Ok [] => (self, Pending) | r => (self, Done r) end = (self', out)) in H.
  rewrite Hl in H. destruct l as [|x l]; simplify_eq; (split; [done|]).
  - replace n with (n + Z.of_nat 0) by lia. apply Hstop. by left.
  - split_and!; try done.
    + intros i b p Hi. destruct (Hrun _ _ _ Hi) as [r Hr]. by apply Hwf in Hr.
    + intros i b p b' p' Hi Hi'. destruct (Hrun _ _ _ Hi) as [r Hr].
      destruct (Hrun _ _ _ Hi') as [r' Hr']. eapply (Hlink _ (n + Z.of_nat i)); [|exact Hr].
      rewrite <- Hr'. f_equal. f_equal. lia.
Qed.

(** ** Epoch changes *)

(** Calls that have no part in an epoch change. *)
Definition within_epoch (self : BlockBuffer) (op : BufferOp) : Prop :=
  match op with
  | SetComputeRes _ _ _ _ _ events => find_new_epoch events = None
  | InitEpoch _ | ConsumeEpochChange | ReleaseInflight => False
  | _ => True
  end.

Lemma within_epoch_fields self op :
  within_epoch self op → epoch_fields (buffer_step op self).1 = epoch_fields self.
Proof using Type.
  intros Hop. destruct op; simpl in *; try done.
  - unfold remove_committed_blocks. by case_bool_decide.
  - unfold pop_txns. by repeat case_match.
  - unfold set_ordered_blocks, when_ready. by repeat case_match.
  - by rewrite get_ordered_blocks_reads.
  - unfold get_executed_res, when_ready. by repeat case_match.
  - unfold set_compute_res, when_ready, calculate_new_epoch_state. rewrite Hop. simpl.
    by repeat case_match; simplify_eq/=.
  - by destruct (set_commit_blocks_spec block_ids epoch self).
  - by destruct (get_committed_blocks_spec timed_out start_num max_size epoch self).
Qed.

Lemma within_epoch_reaches start h self :
  reaches within_epoch start h self → epoch_fields self = epoch_fields start.
Proof using Type.
  induction 1 as [|h self op _ IH Hop]; [done|]. by rewrite within_epoch_fields.
Qed.

(** While an epoch change waits to be consumed no block is added. *)
Lemma waiting_adds_nothing start h self key state :
  bb_epoch_change_ready start = true → reaches within_epoch start h self →
  bb_blocks self !! key = Some state → is_Some (bb_blocks start !! key).
Proof using Type.
  intros Hready Hreach. revert state. induction Hreach as [|h self op Hreach IH Hop];
    intros state Hk; [by eauto|].
  pose proof (lifecycle_step op self key) as Hlc. rewrite Hk in Hlc.
  destruct (bb_blocks self !! key) as [x|] eqn:Hx; [by eauto|].
  apply within_epoch_reaches in Hreach. inversion Hlc; subst.
  exfalso. assert (bb_epoch_change_ready self = bb_epoch_change_ready start) by (by injection Hreach).
  congruence.
Qed.

(** What the result of a block that ends the epoch does. *)
Lemma set_compute_res_epoch_change block_id block_hash n epoch txn_status events self self'
    new_epoch bytes :
  set_compute_res block_id block_hash n epoch txn_status events self = (self', Done (Ok tt)) →
  find_new_epoch events = Some (new_epoch, bytes) →
  bb_current_epoch self' = bb_current_epoch self ∧
  bb_next_epoch self' = Some new_epoch ∧
  bb_latest_epoch_change_block_number self' = n ∧
  (∀ m b p r, n < m → bb_blocks self' !! BlockKey_new epoch m ≠ Some (Ordered b p r)).
Proof using Type.
  unfold set_compute_res, when_ready, calculate_new_epoch_state. intros H Hne. rewrite Hne in H.
  destruct (is_ready self); [|done].
  destruct (bb_blocks self !! _) as [[block p round| | |]|]; try done.
  case_bool_decide; [|done].
  destruct (validator_set_from_bytes bytes) as [vs| |]; simpl in H; simplify_eq. simpl.
  split_and!; try done. intros m b p' r Hm. rewrite map_lookup_imap, bind_Some.
  intros (x & _ & Hx). unfold suffix_result in Hx. destruct x; try done. simpl in Hx.
  rewrite Z.eqb_refl, Z.gtb_ltb, (proj2 (Z.ltb_lt _ _)) in Hx by lia. done.
Qed.

(** C5. An epoch change reaches both sides exactly once.  After the execution
    client delivered a block [n] whose events start a new epoch, the blocks of
    the epoch ordered beyond [n] count as computed and the epoch stays the old
    one whatever calls follow, until consensus releases the blocks in flight.
    From then on nothing beyond [n] is in the buffer and no block is added
    until the execution client consumes the change; it is told the new epoch
    and [n], the epoch is the new one, and there is nothing left to release. *)
Theorem epoch_change_protocol (self self1 self2 self3 self4 : BlockBuffer) (h2 h3 : history)
    (block_id block_hash : HashValue) (n epoch new_epoch m e : Z) (txn_status : TxnStatuses)
    (events : list LiquentEvent) (bytes : Bytes) :
  n ≠ 0 → find_new_epoch events = Some (new_epoch, bytes) →
  set_compute_res block_id block_hash n epoch txn_status events self = (self1, Done (Ok tt)) →
  reaches within_epoch self1 h2 self2 →
  reaches within_epoch (release_inflight_blocks self2) h3 self3 →
  consume_epoch_change self3 = (self4, (e, m)) →
  (∀ k b p r, n < k → bb_blocks self1 !! BlockKey_new epoch k ≠ Some (Ordered b p r)) ∧
  bb_current_epoch self2 = bb_current_epoch self ∧
  (∀ key state, bb_blocks self3 !! key = Some state → bk_block_number key ≤ n) ∧
  (e, m) = (new_epoch, n) ∧ bb_current_epoch self4 = new_epoch ∧
  bb_epoch_change_ready self4 = false ∧ release_inflight_blocks self4 = self4.
Proof using Type.
  intros Hn Hne Hset Hreach2 Hreach3 Hconsume.
  destruct (set_compute_res_epoch_change _ _ _ _ _ _ _ _ _ _ Hset Hne) as (Hcur & Hnext & Hlast & Hsuf).
  pose proof (within_epoch_reaches _ _ _ Hreach2) as H2. injection H2 as Hc2 Hn2 Hl2 Hi2 Hr2 Hb2.
  assert (bb_blocks (release_inflight_blocks self2) =
      filter (λ '(key, _), bk_block_number key ≤ n) (bb_blocks self2) ∧
    epoch_fields (release_inflight_blocks self2) = (new_epoch, None, n, None, true, EpochChange))
    as [Hblocks Hfields].
  { unfold release_inflight_blocks, epoch_fields. rewrite Hl2, Hlast, Hn2, Hnext.
    rewrite (proj2 (Z.eqb_neq n 0)) by done. done. }
  pose proof (within_epoch_reaches _ _ _ Hreach3) as H3. rewrite Hfields in H3.
  injection H3 as Hc3 Hn3 Hl3 Hi3 Hr3 Hb3. injection Hfields as _ _ _ _ Hready _.
  unfold consume_epoch_change in Hconsume. rewrite Hl3, Hn3, Hc3, Hi3 in Hconsume.
  rewrite (proj2 (Z.eqb_neq n 0)) in Hconsume by done.
  simplify_eq/=. split_and!; try done; [congruence|].
  intros key state Hk.
  destruct (waiting_adds_nothing _ _ _ _ _ Hready Hreach3 Hk) as [x Hx].
  rewrite Hblocks in Hx. by apply map_lookup_filter_Some in Hx as [_ ?].
Qed.

(** ** Committed blocks *)

Definition notifier_of (state : BlockState) : option nat :=
  match state with Committed _ _ _ notifier => notifier | _ => None end.

(** The block with this key holds the sending half of channel [c]. *)
Definition holds (self : BlockBuffer) (key : BlockKey) (c : nat) : Prop :=
  ∃ state, bb_blocks self !! key = Some state ∧ notifier_of state = Some c.

(** The notifiers that were given to the execution client. *)
Definition notifiers (refs : list BlockHashRef) : list nat := omap bhr_persist_notifier refs.
Fixpoint handed (h : history) : list nat :=
  match h with
  | [] => []
  | (_, OCommitted (Done (Ok refs))) :: h => notifiers refs ++ handed h
  | _ :: h => handed h
  end.

Definition notifiers_inv (given : list nat) (self : BlockBuffer) : Prop :=
  (∀ key c, holds self key c → (c < bb_channels self)%nat ∧ c ∉ given) ∧
  (∀ key1 key2 c, holds self key1 c → holds self key2 c → key1 = key2) ∧
  (∀ c, c ∈ given → (c < bb_channels self)%nat) ∧ NoDup given.

Lemma notifiers_inv_frame given self self' :
  notifiers_inv given self → bb_channels self' = bb_channels self →
  (∀ key c, holds self' key c → holds self key c) → notifiers_inv given self'.
Proof using Type.
  intros (Hfresh & Hinj & Hgiven & Hnodup) Hch Hholds. unfold notifiers_inv. rewrite Hch.
  split_and!; try done; eauto.
Qed.

(** Only committing makes notifiers. *)
Lemma holds_created op self key c :
  holds (buffer_step op self).1 key c →
  holds self key c ∨ ∃ refs epoch, op = SetCommit refs epoch.
Proof using Type.
  intros (state & Hk & Hc). unfold holds. destruct op; simpl in Hk; try (by left; eauto).
  - unfold remove_committed_blocks in Hk. case_bool_decide; [by left; eauto|].
    apply map_lookup_filter_Some in Hk as [? _]. left; eauto.
  - unfold pop_txns in Hk. repeat case_match; left; eauto.
  - unfold set_ordered_blocks, when_ready in Hk. repeat case_match; try (by left; eauto).
    simpl in Hk. apply lookup_insert_Some in Hk as [[_ <-]|[_ ?]]; [done|left; eauto].
  - rewrite get_ordered_blocks_reads in Hk. left; eauto.
  - destruct (get_executed_res_blocks timed_out block_id block_num epoch self key)
      as [Heq|(_ & b & p & r & cache & _ & _ & _ & Heq)]; rewrite Hk in Heq; [left; eauto|].
    by simplify_eq.
  - destruct (set_compute_res_blocks block_id block_hash block_num epoch txn_status events self key)
      as [Heq|(_ & _ & b & p & r & res & _ & Heq)]; simpl in Heq; rewrite Hk in Heq; [left; eauto|].
    by simplify_eq.
  - right. eauto.
  - destruct (get_committed_blocks_spec timed_out start_num max_size epoch self) as [_ Hb].
    specialize (Hb key). rewrite Hk in Hb.
    destruct Hb as [?|(? & ? & ? & ? & _ & ?)]; [left; eauto|]. by simplify_eq.
  - unfold release_inflight_blocks in Hk. destruct (negb _); [left; eauto|].
    apply map_lookup_filter_Some in Hk as [? _]. left; eauto.
Qed.

Lemma holds_insert self key state c key' :
  holds (with_blocks (<[key := state]> (bb_blocks self)) self) key' c →
  (key' = key ∧ notifier_of state = Some c) ∨ (key' ≠ key ∧ holds self key' c).
Proof using Type.
  intros (x & Hx & Hc). simpl in Hx. apply lookup_insert_Some in Hx as [[<- <-]|[? ?]]; [by left|].
  right. split; [done|]. by exists x.
Qed.

Lemma commit_block_notifiers epoch ref given self :
  notifiers_inv given self → notifiers_inv given (commit_block epoch ref self).1.
Proof using Type.
  intros Hinv. unfold commit_block.
  destruct (bb_blocks self !! _) as [[|id res| |]|] eqn:Hk; try (by repeat case_match).
  case_bool_decide; [|done]. destruct (bool_decide _ && _); simpl.
  2: { eapply notifiers_inv_frame; [done|done|].
       intros key c [[_ [=]]|[_ ?]]%holds_insert. done. }
  destruct Hinv as (Hfresh & Hinj & Hgiven & Hnodup).
  set (self' := with_channels _ _).
  assert (∀ key c, holds self' key c →
    (key = BlockKey_new epoch (bhr_num ref) ∧ c = bb_channels self) ∨ holds self key c) as Hnew.
  { intros key c Hh. assert (holds (with_blocks (bb_blocks self') self) key c) as Hh' by exact Hh.
    apply holds_insert in Hh' as [[-> [= <-]]|[_ ?]]; auto. }
  split_and!; simpl.
  - intros key c [[-> ->]|Hh]%Hnew; [|destruct (Hfresh _ _ Hh); split; [lia|done]].
    split; [lia|]. intros Hin%Hgiven. lia.
  - intros key1 key2 c [[-> ->]|Hh1]%Hnew [[-> Hc]|Hh2]%Hnew; try done; [..|by eauto].
    + destruct (Hfresh _ _ Hh2). lia.
    + subst. destruct (Hfresh _ _ Hh1). lia.
  - intros c Hin%Hgiven. lia.
  - done.
Qed.

Lemma set_commit_notifiers refs epoch given self :
  notifiers_inv given self → notifiers_inv given (set_commit_blocks refs epoch self).1.
Proof using Type.
  intros Hinv. unfold set_commit_blocks, when_ready. destruct (is_ready self); [|done].
  enough (notifiers_inv given (commit_blocks epoch refs self).1) by (by destruct commit_blocks).
  revert self Hinv. induction refs as [|ref refs IH]; intros self Hinv; simpl; [done|].
  unfold mbind, SM_bind. apply (commit_block_notifiers epoch ref) in Hinv.
  destruct (commit_block epoch ref self) as [self1 [r1| |]]; simpl in *; try done.
  apply IH in Hinv. by destruct (commit_blocks epoch refs self1) as [self2 []].
Qed.

(** The notifiers of consecutive committed blocks are held by them, and by no
    two of them. *)
Lemma committed_refs_notifiers epoch n self refs c :
  committed_refs epoch n self refs → c ∈ notifiers refs →
  ∃ ref, ref ∈ refs ∧ holds self (BlockKey_new epoch (bhr_num ref)) c.
Proof using Type.
  intros Hrefs (ref & Hin & Hc)%list_elem_of_omap. exists ref. split; [done|].
  apply list_elem_of_lookup in Hin as [i Hi]. destruct (Hrefs _ _ Hi) as (_ & _ & res & Hk).
  eexists. split; [exact Hk|done].
Qed.

Lemma committed_refs_tail epoch n self ref refs :
  committed_refs epoch n self (ref :: refs) → committed_refs epoch (n + 1) self refs.
Proof using Type.
  intros Hrefs i ref' Hi. destruct (Hrefs (S i) ref' Hi) as (Hn & ? & ?).
  split_and!; [lia|done|done].
Qed.

Lemma committed_refs_nodup epoch n given self refs :
  notifiers_inv given self → committed_refs epoch n self refs → NoDup (notifiers refs).
Proof using Type.
  intros Hinv. revert n. induction refs as [|ref refs IH]; intros n Hrefs; [constructor|].
  pose proof (committed_refs_tail _ _ _ _ _ Hrefs) as Htail. unfold notifiers. simpl.
  destruct (bhr_persist_notifier ref) as [c|] eqn:Hc; [|by eapply IH].
  constructor; [|by eapply IH]. intros Hin.
  destruct (Hrefs 0%nat ref eq_refl) as (Hn & _ & res & Hk).
  destruct (committed_refs_notifiers _ _ _ _ _ Htail Hin) as (ref' & Hin' & Hh').
  apply list_elem_of_lookup in Hin' as [i Hi]. destruct (Htail _ _ Hi) as [Hn' _].
  destruct Hinv as (_ & Hinj & _).
  assert (holds self (BlockKey_new epoch (bhr_num ref)) c) as Hh by (by eexists).
  specialize (Hinj _ _ _ Hh Hh') as [= ?]. lia.
Qed.

Lemma get_committed_notifiers timed_out n max_size epoch h self :
  notifiers_inv (handed h) self →
  let op := GetCommitted timed_out n max_size epoch in
  notifiers_inv (handed ((op, (buffer_step op self).2) :: h)) (buffer_step op self).1.
Proof using Type.
  intros Hinv. simpl. unfold get_committed_blocks, when_ready.
  destruct (is_ready self); [|done]. destruct timed_out; [done|].
  destruct (collect_committed _ _ _ _ _ _) as [self' r] eqn:H.
  apply collect_committed_spec in H as (_ & Hch & Hnot & _ & Hrefs).
  assert (∀ key c, holds self' key c → holds self key c) as Hholds.
  { intros key c (state & Hk & Hc). specialize (Hnot key). rewrite Hk in Hnot.
    destruct Hnot as [Heq|(i & res & hs & nt & _ & [= ->])]; [|done]. by exists state. }
  assert (notifiers_inv (handed h) self') as Hsame by (by eapply notifiers_inv_frame).
  destruct r as [refs| |]; simpl; try done. destruct (Hrefs _ eq_refl) as [Hr Htaken].
  destruct refs as [|ref refs]; [done|]. set (all := ref :: refs) in *. clearbody all.
  destruct Hsame as (Hfresh & Hinj & Hgiven & Hnodup). simpl. split_and!.
  - intros key c Hh. destruct (Hfresh _ _ Hh) as [? Hnin]. split; [done|].
    rewrite elem_of_app. intros [Hin|?]; [|done].
    destruct (committed_refs_notifiers _ _ _ _ _ Hr Hin) as (ref' & Hin' & Hh').
    destruct Hinv as (_ & Hinj0 & _). specialize (Hinj0 _ _ _ (Hholds _ _ Hh) Hh') as ->.
    destruct (Htaken _ Hin') as (hs & res & i & Hk).
    destruct Hh as (state & Hk' & Hc). rewrite Hk in Hk'. by simplify_eq.
  - done.
  - intros c [Hin|?]%elem_of_app; [|by apply Hgiven].
    destruct (committed_refs_notifiers _ _ _ _ _ Hr Hin) as (ref' & _ & Hh').
    rewrite Hch. by apply Hinv in Hh' as [? _].
  - apply NoDup_app. split_and!; [by eapply committed_refs_nodup| |done].
    intros c Hin. destruct (committed_refs_notifiers _ _ _ _ _ Hr Hin) as (ref' & _ & Hh').
    by apply Hinv in Hh' as [_ ?].
Qed.

Lemma notifiers_reachable guard start h self :
  (∀ key c, ¬ holds start key c) → reaches guard start h self → notifiers_inv (handed h) self.
Proof using Type.
  intros Hno. induction 1 as [|h self op _ IH _].
  { split_and!; simpl; [by intros ?? ?%Hno|by intros ??? ?%Hno|by intros ? ?%elem_of_nil|].
    constructor. }
  assert (bb_channels (buffer_step op self).1 = bb_channels self →
    (∀ refs epoch, op ≠ SetCommit refs epoch) →
    notifiers_inv (handed h) (buffer_step op self).1) as Hframe.
  { intros Hch Hop. eapply notifiers_inv_frame; [exact IH|done|].
    intros key c [?|(refs & epoch & ->)]%holds_created; [done|by destruct (Hop refs epoch)]. }
  destruct op; try (by apply Hframe);
    [..|by apply set_commit_notifiers|by apply get_committed_notifiers|]; apply Hframe; try done; simpl.
  - unfold remove_committed_blocks. by case_bool_decide.
  - unfold pop_txns. by repeat case_match.
  - unfold set_ordered_blocks, when_ready. by repeat case_match.
  - by rewrite get_ordered_blocks_reads.
  - unfold get_executed_res, when_ready. by repeat case_match.
  - unfold set_compute_res, when_ready, calculate_new_epoch_state.
    repeat case_match; simplify_eq/=; try done; by destruct (Some _ : option EpochState).
  - unfold release_inflight_blocks. by case_match.
Qed.

Definition is_committed (state : option BlockState) : bool :=
  match state with Some (Committed _ _ _ _) => true | _ => false end.

Lemma collect_committed_ok fuel epoch n len max_size self :
  (size (keys_from epoch n (bb_blocks self)) < fuel)%nat →
  (∀ key state, bb_blocks self !! key = Some state → bk_block_number key < u64_MAX) →
  ∃ self' refs, collect_committed fuel epoch n len max_size self = (self', Ok refs) ∧
    (refs = [] → is_suffix_block n self = true ∨
                 is_committed (bb_blocks self !! BlockKey_new epoch n) = false).
Proof using Type.
  revert n len self. induction fuel as [|fuel IH]; intros n len self Hfuel Hnum; [lia|]. simpl.
  destruct (is_suffix_block n self); [by eauto|].
  destruct (bb_blocks self !! BlockKey_new epoch n) as [[| |hash res id nt|]|] eqn:Hk; try by eauto.
  destruct (len + 1 >=? max_size); [by eexists _, _|].
  pose proof (Hnum _ _ Hk) as Hn. simpl in Hn.
  unfold mbind, SM_bind, lift, u64_add. rewrite (proj2 (Z.leb_le _ _)) by lia.
  set (self1 := with_blocks _ self).
  assert (dom (bb_blocks self1) = dom (bb_blocks self)) as Hdom.
  { apply dom_insert_lookup_L. by eauto. }
  destruct (IH (n + 1) (len + 1) self1) as (self' & refs & -> & _).
  - pose proof (keys_from_next _ _ _ _ Hk) as Hlt. unfold keys_from in *. rewrite Hdom. lia.
  - intros key state Hs. assert (key ∈ dom (bb_blocks self)) as [x Hx]%elem_of_dom
      by (rewrite <- Hdom; by eapply elem_of_dom_2). by eapply Hnum.
  - by eexists _, _.
Qed.

(** Persistence gets each committed block once it is committed and each
    notification once.  Fetching committed blocks fails only after
    [max_wait_timeout]; it returns
    committed blocks of the epoch with consecutive numbers from the requested
    one on, none of them beyond a block that ended the epoch, and waits only
    where there is no such block.  A notifier it hands over was never handed
    over before. *)
Theorem committed_blocks_handed_once (start self self' : BlockBuffer) (h : history)
    (timed_out : bool) (n epoch : Z) (max_size : option Z) (out : poll (list BlockHashRef)) :
  recovered start → reaches orderly start h self → is_ready self = true →
  get_committed_blocks timed_out n max_size epoch self = (self', out) →
  match out with
  | Pending => is_suffix_block n self = true ∨
               is_committed (bb_blocks self !! BlockKey_new epoch n) = false
  | Done (Ok refs) =>
      refs ≠ [] ∧ committed_refs epoch n self refs ∧
      NoDup (notifiers refs ++ handed h) ∧
      ∀ key c, c ∈ notifiers refs → ¬ holds self' key c
  | Done (Err _) => timed_out = true
  | Done Panic => False
  end.
Proof using Type.
  intros Hstart Hreach Hready H.
  destruct (ordered_reachable _ _ _ Hstart Hreach) as (Hnum & _).
  assert (notifiers_inv (handed h) self) as Hinv.
  { eapply notifiers_reachable; [|exact Hreach]. intros key c (state & Hk & Hc).
    by apply Hstart in Hk as [_ [id ->]]. }
  pose proof (get_committed_notifiers timed_out n max_size epoch _ _ Hinv) as Hinv'. simpl in Hinv'.
  rewrite H in Hinv'. simpl in Hinv'.
  unfold get_committed_blocks, when_ready in H. rewrite Hready in H.
  destruct timed_out; [by simplify_eq|].
  destruct (collect_committed_ok (S (size (bb_blocks self))) epoch n 0 (default u64_MAX max_size) self)
    as (self1 & refs & Hcol & Hnil).
  { pose proof (keys_from_size epoch n (bb_blocks self)). lia. }
  { intros key state Hk. by apply Hnum in Hk as [_ ?]. }
  rewrite Hcol in H. apply collect_committed_spec in Hcol as (_ & _ & _ & _ & Hrefs).
  destruct (Hrefs _ eq_refl) as [Hr _]. destruct refs as [|ref refs]; simplify_eq; [by apply Hnil|].
  destruct Hinv' as (Hfresh & _ & _ & Hnodup). split_and!; try done.
  intros key c Hc [_ Hh]%Hfresh. apply Hh, elem_of_app. by left.
Qed.

(** ** The transaction buffer *)

Definition total_gas (items : list TxnItem) : Z := foldr (λ item n, ti_gas_limit item + n) 0 items.

Lemma split_point_ok items total count max_size gas_limit :
  0 ≤ total ≤ gas_limit →
  Forall (λ item, 0 ≤ ti_gas_limit item ∧ gas_limit + ti_gas_limit item ≤ u64_MAX) items →
  ∃ k, split_point items total count max_size gas_limit = Ok k ∧ (k ≤ length items)%nat ∧
    total + total_gas (take k items) ≤ gas_limit ∧
    (k = 0%nat ∨ count + Z.of_nat k ≤ max_size) ∧
    (k = length items ∨ gas_limit < total + total_gas (take (S k) items) ∨
     max_size ≤ count + Z.of_nat k).
Proof using Type.
  intros Htotal Hitems. revert total count Htotal.
  induction Hitems as [|item items [Hgas Hmax] _ IH]; intros total count Htotal; simpl.
  { exists 0%nat. simpl. split_and!; try lia; auto. }
  unfold u64_add. rewrite (proj2 (Z.leb_le _ _)) by lia. simpl.
  destruct ((_ >? _) || _) eqn:Hstop; bool_to_prop.
  { exists 0%nat. simpl. rewrite Z.add_0_r. split_and!; [done|lia|lia|by left|].
    right. destruct Hstop; bool_to_prop; lia. }
  destruct (IH (total + ti_gas_limit item) (count + 1)) as (k & -> & Hlen & Hfit & Hcnt & Hmaximal);
    [lia|]. simpl.
  exists (S k). split; [done|]. split; [simpl; lia|]. simpl. split; [lia|]. split; [right; lia|].
  destruct Hmaximal as [->|[Hm|Hm]]; [by left|right; left|right; right; lia].
  lia.
Qed.

(** All buffered transactions, in order. *)
Definition buffered (self : BlockBuffer) : list VerifiedTxnWithAccountSeqNum :=
  mjoin (ti_txns <$> bb_txns self).

(** Popping transactions loses none and keeps their order: what is popped
    followed by what stays is what was buffered.  At most [max_size] batches
    are popped, within the gas limit unless the first batch alone exceeds it,
    and at least one when there is any: the queue always makes progress. *)
Theorem pop_txns_fifo (max_size gas_limit : Z) (self : BlockBuffer) :
  0 ≤ gas_limit →
  Forall (λ item, 0 ≤ ti_gas_limit item ∧ gas_limit + ti_gas_limit item ≤ u64_MAX) (bb_txns self) →
  ∃ self' txns k, pop_txns max_size gas_limit self = (self', Ok txns) ∧
    txns ++ buffered self' = buffered self ∧
    bb_txns self' = drop k (bb_txns self) ∧ (k = 0%nat ∨ Z.of_nat k ≤ max_size) ∧
    (k = 1%nat ∨ total_gas (take k (bb_txns self)) ≤ gas_limit) ∧
    (bb_txns self ≠ [] → 0 < max_size → (0 < k)%nat).
Proof using Type.
  intros Hlimit Hitems. unfold pop_txns, buffered.
  destruct (split_point_ok (bb_txns self) 0 0 max_size gas_limit) as (k & -> & Hlen & Hfit & Hcnt & _);
    [lia|done|].
  set (k' := if _ : bool then 1%nat else k).
  assert ((k' = k ∧ (k ≠ 0%nat ∨ bb_txns self = [] ∨ max_size ≤ 0)) ∨ k' = 1%nat ∧ 0 < max_size) as Hk'.
  { unfold k'. destruct (bool_decide _ && _ && _) eqn:Hb; bool_to_prop; [right; split; [done|lia]|].
    left. split; [done|]. destruct Hb as [Hb|Hb]; bool_to_prop; [|right; right; lia].
    destruct Hb; bool_to_prop; auto. }
  clearbody k'. eexists _, _, k'. split; [done|]. simpl.
  split; [by rewrite <- join_app, <- fmap_app, take_drop|]. split; [done|].
  destruct Hk' as [[-> Hk]|[-> Hm]]; split_and!; try lia; auto.
  destruct Hk as [?|[?|?]]; [lia|done|lia].
Qed.

End block_buffer_steps.
