(* ===== verification/Pipelined.v ===== *)
(** Blocks in the execution pipeline: consensus-types/src/pipelined_block.rs.

    A block with its execution result and its randomness.  Of the futures and
    channels of the pipeline the model keeps whether the pre-commit future and
    the sender of the randomness are there to be taken. *)
From S2P Require Import Prelude Laptos Payload Certificates Block Votes BlockBuffer.

Section pipelined_block.
Context `{L : Laptos} `{G : !Gcei} `{!CryptoHash VoteData}.

Record ExecutionSummary : Type := {
  es_payload_len : Z;
  es_to_commit : Z;
  es_to_retry : Z;
  es_execution_time : Z;
  es_root_hash : HashValue;
}.

Record PipelinedBlock : Type := {
  pb_block : Block;
  pb_input_transactions : list SignedTransaction;
  pb_state_compute_result : StateComputeResult;
  pb_randomness : option Randomness;
  pb_insertion_time : option Z;
  pb_execution_summary : option ExecutionSummary;
  pb_pre_commit_fut : bool;
  pb_rand_tx : bool;
}.

Definition PipelinedBlock_new (block : Block) (input_transactions : list SignedTransaction)
    (state_compute_result : StateComputeResult) : PipelinedBlock :=
  {| pb_block := block; pb_input_transactions := input_transactions;
     pb_state_compute_result := state_compute_result; pb_randomness := None;
     pb_insertion_time := None; pb_execution_summary := None; pb_pre_commit_fut := false;
     pb_rand_tx := false |}.

Definition PipelinedBlock_new_ordered (block : Block) : PipelinedBlock :=
  PipelinedBlock_new block [] StateComputeResult_new_dummy.

Definition pb_id (self : PipelinedBlock) : HashValue := block_id (pb_block self).
Definition pb_epoch (self : PipelinedBlock) : Z := block_epoch (pb_block self).
Definition pb_round (self : PipelinedBlock) : Z := block_round (pb_block self).
Definition pb_parent_id (self : PipelinedBlock) : HashValue := block_parent_id (pb_block self).

Definition PipelinedBlock_block_info (self : PipelinedBlock) : BlockInfo :=
  let version := default 0 (block_block_number (pb_block self)) in
  Block_gen_block_info (pb_block self)
    (StateComputeResult_root_hash (pb_state_compute_result self)) version
    (scr_epoch_state (pb_state_compute_result self)).

Definition PipelinedBlock_vote_proposal (self : PipelinedBlock) : VoteProposal :=
  {| vp_block := pb_block self;
     vp_next_epoch_state := scr_epoch_state (pb_state_compute_result self);
     vp_decoupled_execution := true |}.

Definition PipelinedBlock_order_vote_proposal (self : PipelinedBlock) (quorum_cert : QuorumCert) :
    OrderVoteProposal :=
  {| ovp_block := pb_block self; ovp_block_info := PipelinedBlock_block_info self;
     ovp_quorum_cert := quorum_cert |}.

Definition PipelinedBlock_is_reconfiguration_suffix (self : PipelinedBlock) : bool :=
  StateComputeResult_has_reconfiguration (pb_state_compute_result self).

(** Only the first summary is kept. *)
Definition PipelinedBlock_set_execution_result (input_txns : list SignedTransaction)
    (res : StateComputeResult) (execution_time : Z) (self : PipelinedBlock) :
    result anyhow PipelinedBlock :=
  to_commit ← from_option Payload_len (Ok 0) (block_payload (pb_block self));
  payload_len ← from_option Payload_len_for_execution (Ok 0) (block_payload (pb_block self));
  let execution_summary :=
    {| es_payload_len := payload_len; es_to_commit := to_commit; es_to_retry := 0;
       es_execution_time := execution_time; es_root_hash := StateComputeResult_root_hash res |} in
  Ok {| pb_block := pb_block self; pb_input_transactions := input_txns;
        pb_state_compute_result := res; pb_randomness := pb_randomness self;
        pb_insertion_time := pb_insertion_time self;
        pb_execution_summary := Some (default execution_summary (pb_execution_summary self));
        pb_pre_commit_fut := true; pb_rand_tx := pb_rand_tx self |}.

(** The block after the call and what is sent to the pipeline, if anything. *)
Definition PipelinedBlock_set_randomness (randomness : Randomness) (self : PipelinedBlock) :
    PipelinedBlock * option (option Randomness) :=
  let stored := default randomness (pb_randomness self) in
  let should_notify_pipeline := bool_decide (stored = randomness) in
  let notify := should_notify_pipeline && pb_rand_tx self in
  ({| pb_block := pb_block self; pb_input_transactions := pb_input_transactions self;
      pb_state_compute_result := pb_state_compute_result self; pb_randomness := Some stored;
      pb_insertion_time := pb_insertion_time self;
      pb_execution_summary := pb_execution_summary self;
      pb_pre_commit_fut := pb_pre_commit_fut self;
      pb_rand_tx := pb_rand_tx self && negb notify |},
   if notify then Some (Some stored) else None).

(** [set_insertion_time] asserts that the time was not set before. *)
Definition PipelinedBlock_set_insertion_time (now : Z) : SM PipelinedBlock anyhow unit := λ self,
  match pb_insertion_time self with
  | Some _ => (self, Panic)
  | None =>
      ({| pb_block := pb_block self; pb_input_transactions := pb_input_transactions self;
          pb_state_compute_result := pb_state_compute_result self;
          pb_randomness := pb_randomness self; pb_insertion_time := Some now;
          pb_execution_summary := pb_execution_summary self;
          pb_pre_commit_fut := pb_pre_commit_fut self; pb_rand_tx := pb_rand_tx self |}, Ok tt)
  end.

Definition PipelinedBlock_take_pre_commit_fut : SM PipelinedBlock anyhow unit := λ self,
  if pb_pre_commit_fut self then
    ({| pb_block := pb_block self; pb_input_transactions := pb_input_transactions self;
        pb_state_compute_result := pb_state_compute_result self;
        pb_randomness := pb_randomness self; pb_insertion_time := pb_insertion_time self;
        pb_execution_summary := pb_execution_summary self;
        pb_pre_commit_fut := false; pb_rand_tx := pb_rand_tx self |}, Ok tt)
  else (self, Panic).

(** What is serialized of a block. *)
Definition PipelinedBlock_serialize (self : PipelinedBlock) :
    (BlockData * option Signature * option Z) * list SignedTransaction * StateComputeResult *
    option Randomness :=
  (Block_serialize (pb_block self), pb_input_transactions self, pb_state_compute_result self,
   pb_randomness self).
End pipelined_block.

Section deserialize.
Context `{L : Laptos} `{G : !Gcei} `{!CryptoHash VoteData} `{!CryptoHash BlockData}.

(** The execution result that is sent is not read back, and a received block has
    no insertion time. *)
Definition PipelinedBlock_deserialize
    (s : (BlockData * option Signature * option Z) * list SignedTransaction * StateComputeResult *
         option Randomness) : PipelinedBlock :=
  let '(block, input_transactions, _, randomness) := s in
  let block := PipelinedBlock_new (Block_deserialize block) input_transactions
                 StateComputeResult_new_dummy in
  from_option (λ r, (PipelinedBlock_set_randomness r block).1) block randomness.
End deserialize.
