(* ===== verification/BlockTree.v ===== *)
(** The block tree: consensus/src/block_storage/{block_tree, pending_blocks}.rs.

    All blocks a validator knows, with links from parents to children, the
    roots of the ordering and of the commit phase and the highest
    certificates; pruning up to a committed block and paths between blocks. *)
From S2P Require Import Prelude Laptos Payload Certificates Block Votes BlockBuffer Pipelined.

Section block_tree.
Context `{L : Laptos} `{G : !Gcei}.

Record LinkableBlock : Type := {
  lb_executed_block : PipelinedBlock;
  lb_children : gset HashValue;
}.

Definition LinkableBlock_new (block : PipelinedBlock) : LinkableBlock :=
  {| lb_executed_block := block; lb_children := ∅ |}.
Definition lb_id (self : LinkableBlock) : HashValue := pb_id (lb_executed_block self).
Definition lb_round (self : LinkableBlock) : Z := pb_round (lb_executed_block self).

Definition LinkableBlock_add_child (child_id : HashValue) (self : LinkableBlock) :
    result anyhow LinkableBlock :=
  if bool_decide (child_id ∈ lb_children self) then Panic
  else Ok {| lb_executed_block := lb_executed_block self;
             lb_children := {[child_id]} ∪ lb_children self |}.

Record BlockTree : Type := {
  bt_id_to_block : gmap HashValue LinkableBlock;
  bt_ordered_root_id : HashValue;
  bt_commit_root_id : HashValue;
  bt_highest_certified_block_id : HashValue;
  bt_head_block_id : HashValue;
  bt_safe_block_id : HashValue;
  bt_finalized_block_id : HashValue;
  bt_highest_quorum_cert : QuorumCert;
  bt_highest_2chain_timeout_cert : option TwoChainTimeoutCertificate;
  bt_highest_ordered_cert : WrappedLedgerInfo;
  bt_highest_commit_cert : WrappedLedgerInfo;
  bt_id_to_quorum_cert : gmap HashValue QuorumCert;
  bt_pruned_block_ids : list HashValue;
  bt_max_pruned_blocks_in_mem : nat;
}.

Definition BlockTree_new (root : PipelinedBlock) (root_quorum_cert : QuorumCert)
    (root_ordered_cert root_commit_cert : WrappedLedgerInfo) (max_pruned_blocks_in_mem : nat)
    (highest_2chain_timeout_cert : option TwoChainTimeoutCertificate) : result anyhow BlockTree :=
  if bool_decide (pb_id root = BlockInfo_id (wli_commit_info root_ordered_cert)) then
    let root_id := pb_id root in
    Ok {| bt_id_to_block := {[root_id := LinkableBlock_new root]};
          bt_ordered_root_id := root_id; bt_commit_root_id := root_id;
          bt_highest_certified_block_id := root_id; bt_head_block_id := root_id;
          bt_safe_block_id := root_id; bt_finalized_block_id := root_id;
          bt_highest_quorum_cert := root_quorum_cert;
          bt_highest_2chain_timeout_cert := highest_2chain_timeout_cert;
          bt_highest_ordered_cert := root_ordered_cert;
          bt_highest_commit_cert := root_commit_cert;
          bt_id_to_quorum_cert :=
            {[BlockInfo_id (qc_certified_block root_quorum_cert) := root_quorum_cert]};
          bt_pruned_block_ids := []; bt_max_pruned_blocks_in_mem := max_pruned_blocks_in_mem |}
  else Panic.

(** ** Field updates *)

Definition with_blocks (blocks : gmap HashValue LinkableBlock) (self : BlockTree) : BlockTree :=
  {| bt_id_to_block := blocks; bt_ordered_root_id := bt_ordered_root_id self;
     bt_commit_root_id := bt_commit_root_id self;
     bt_highest_certified_block_id := bt_highest_certified_block_id self;
     bt_head_block_id := bt_head_block_id self; bt_safe_block_id := bt_safe_block_id self;
     bt_finalized_block_id := bt_finalized_block_id self;
     bt_highest_quorum_cert := bt_highest_quorum_cert self;
     bt_highest_2chain_timeout_cert := bt_highest_2chain_timeout_cert self;
     bt_highest_ordered_cert := bt_highest_ordered_cert self;
     bt_highest_commit_cert := bt_highest_commit_cert self;
     bt_id_to_quorum_cert := bt_id_to_quorum_cert self;
     bt_pruned_block_ids := bt_pruned_block_ids self;
     bt_max_pruned_blocks_in_mem := bt_max_pruned_blocks_in_mem self |}.

Definition with_roots (ordered_root commit_root head safe finalized : HashValue)
    (self : BlockTree) : BlockTree :=
  {| bt_id_to_block := bt_id_to_block self; bt_ordered_root_id := ordered_root;
     bt_commit_root_id := commit_root;
     bt_highest_certified_block_id := bt_highest_certified_block_id self;
     bt_head_block_id := head; bt_safe_block_id := safe; bt_finalized_block_id := finalized;
     bt_highest_quorum_cert := bt_highest_quorum_cert self;
     bt_highest_2chain_timeout_cert := bt_highest_2chain_timeout_cert self;
     bt_highest_ordered_cert := bt_highest_ordered_cert self;
     bt_highest_commit_cert := bt_highest_commit_cert self;
     bt_id_to_quorum_cert := bt_id_to_quorum_cert self;
     bt_pruned_block_ids := bt_pruned_block_ids self;
     bt_max_pruned_blocks_in_mem := bt_max_pruned_blocks_in_mem self |}.

Definition with_certs (certified_id : HashValue) (qc : QuorumCert)
    (tc : option TwoChainTimeoutCertificate) (ordered commit : WrappedLedgerInfo)
    (qcs : gmap HashValue QuorumCert) (self : BlockTree) : BlockTree :=
  {| bt_id_to_block := bt_id_to_block self; bt_ordered_root_id := bt_ordered_root_id self;
     bt_commit_root_id := bt_commit_root_id self;
     bt_highest_certified_block_id := certified_id;
     bt_head_block_id := bt_head_block_id self; bt_safe_block_id := bt_safe_block_id self;
     bt_finalized_block_id := bt_finalized_block_id self;
     bt_highest_quorum_cert := qc; bt_highest_2chain_timeout_cert := tc;
     bt_highest_ordered_cert := ordered; bt_highest_commit_cert := commit;
     bt_id_to_quorum_cert := qcs; bt_pruned_block_ids := bt_pruned_block_ids self;
     bt_max_pruned_blocks_in_mem := bt_max_pruned_blocks_in_mem self |}.

Definition with_pruned (pruned : list HashValue) (self : BlockTree) : BlockTree :=
  {| bt_id_to_block := bt_id_to_block self; bt_ordered_root_id := bt_ordered_root_id self;
     bt_commit_root_id := bt_commit_root_id self;
     bt_highest_certified_block_id := bt_highest_certified_block_id self;
     bt_head_block_id := bt_head_block_id self; bt_safe_block_id := bt_safe_block_id self;
     bt_finalized_block_id := bt_finalized_block_id self;
     bt_highest_quorum_cert := bt_highest_quorum_cert self;
     bt_highest_2chain_timeout_cert := bt_highest_2chain_timeout_cert self;
     bt_highest_ordered_cert := bt_highest_ordered_cert self;
     bt_highest_commit_cert := bt_highest_commit_cert self;
     bt_id_to_quorum_cert := bt_id_to_quorum_cert self;
     bt_pruned_block_ids := pruned;
     bt_max_pruned_blocks_in_mem := bt_max_pruned_blocks_in_mem self |}.

(** ** Reading *)

Definition BlockTree_block_exists (block_id : HashValue) (self : BlockTree) : bool :=
  bool_decide (is_Some (bt_id_to_block self !! block_id)).
Definition BlockTree_get_block (block_id : HashValue) (self : BlockTree) : option PipelinedBlock :=
  lb_executed_block <$> bt_id_to_block self !! block_id.
(** [expect]: a missing block is a panic. *)
Definition expect_block (block_id : HashValue) (self : BlockTree) : result anyhow PipelinedBlock :=
  from_option Ok Panic (BlockTree_get_block block_id self).
Definition BlockTree_ordered_root (self : BlockTree) : result anyhow PipelinedBlock :=
  expect_block (bt_ordered_root_id self) self.
Definition BlockTree_commit_root (self : BlockTree) : result anyhow PipelinedBlock :=
  expect_block (bt_commit_root_id self) self.
Definition BlockTree_highest_certified_block (self : BlockTree) : result anyhow PipelinedBlock :=
  expect_block (bt_highest_certified_block_id self) self.
Definition linkable_root (self : BlockTree) : result anyhow LinkableBlock :=
  from_option Ok Panic (bt_id_to_block self !! bt_commit_root_id self).
Definition get_quorum_cert_for_block (block_id : HashValue) (self : BlockTree) : option QuorumCert :=
  bt_id_to_quorum_cert self !! block_id.
Definition get_all_quorum_certs_with_commit_info (self : BlockTree) : list QuorumCert :=
  filter (λ qc, qc_commit_info qc ≠ BlockInfo_empty) (map_to_list (bt_id_to_quorum_cert self)).*2.

Definition is_block_payload_none (block_id : HashValue) (self : BlockTree) : result anyhow bool :=
  block ← expect_block block_id self;
  Ok (bool_decide (block_payload (pb_block block) = None)).
Definition is_safe_block_payload_none (self : BlockTree) : result anyhow bool :=
  is_block_payload_none (bt_safe_block_id self) self.
Definition is_finalized_block_payload_none (self : BlockTree) : result anyhow bool :=
  is_block_payload_none (bt_finalized_block_id self) self.
Definition is_head_block_payload_none (self : BlockTree) : result anyhow bool :=
  is_block_payload_none (bt_head_block_id self) self.
Definition is_head_block_qc (self : BlockTree) : bool :=
  bool_decide (is_Some (bt_id_to_quorum_cert self !! bt_head_block_id self)).

(** ** Inserting *)

(** [head_block_id] moves before the block is known to fit. *)
Definition BlockTree_insert_block (block : PipelinedBlock) :
    SM BlockTree anyhow PipelinedBlock := λ self,
  let block_id := pb_id block in
  let self :=
    if block_is_nil_block (pb_block block) then self
    else with_roots (bt_ordered_root_id self) (bt_commit_root_id self) block_id
           (bt_safe_block_id self) (bt_finalized_block_id self) self in
  match BlockTree_get_block block_id self with
  | Some existing_block =>
      if bool_decide (pb_state_compute_result existing_block = pb_state_compute_result block)
      then (self, Ok existing_block) else (self, Panic)
  | None =>
      match bt_id_to_block self !! pb_parent_id block with
      | Some parent_block =>
          match LinkableBlock_add_child block_id parent_block with
          | Ok parent_block =>
              (with_blocks (<[block_id := LinkableBlock_new block]>
                 (<[pb_parent_id block := parent_block]> (bt_id_to_block self))) self, Ok block)
          | Err e => (self, Err e)
          | Panic => (self, Panic)
          end
      | None =>
          if bool_decide (pb_parent_id block ≠ GENESIS_BLOCK_ID) then
            (self, Err "Parent block not found"%string)
          else (with_blocks (<[block_id := LinkableBlock_new block]> (bt_id_to_block self)) self,
                Ok block)
      end
  end.

Definition update_commit_and_finalized_root (root_id : HashValue) : SM BlockTree anyhow unit :=
  λ self,
  match BlockTree_get_block root_id self with
  | None => (self, Panic)
  | Some block =>
      (with_roots (bt_ordered_root_id self) root_id (bt_head_block_id self)
         (bt_safe_block_id self)
         (if block_is_nil_block (pb_block block) then bt_finalized_block_id self else root_id)
         self, Ok tt)
  end.

Definition update_ordered_root (root_id : HashValue) : SM BlockTree anyhow unit := λ self,
  if BlockTree_block_exists root_id self then
    (with_roots root_id (bt_commit_root_id self) (bt_head_block_id self)
       (bt_safe_block_id self) (bt_finalized_block_id self) self, Ok tt)
  else (self, Panic).

Definition update_highest_commit_cert (new_commit_cert : WrappedLedgerInfo) :
    SM BlockTree anyhow unit := λ self,
  if BlockInfo_round (wli_commit_info (bt_highest_commit_cert self))
       <? BlockInfo_round (wli_commit_info new_commit_cert) then
    update_commit_and_finalized_root (BlockInfo_id (wli_commit_info new_commit_cert))
      (with_certs (bt_highest_certified_block_id self) (bt_highest_quorum_cert self)
         (bt_highest_2chain_timeout_cert self) (bt_highest_ordered_cert self) new_commit_cert
         (bt_id_to_quorum_cert self) self)
  else (self, Ok tt).

Definition insert_ordered_cert (ordered_cert : WrappedLedgerInfo) (self : BlockTree) : BlockTree :=
  if BlockInfo_round (wli_commit_info (bt_highest_ordered_cert self))
       <? BlockInfo_round (wli_commit_info ordered_cert) then
    with_certs (bt_highest_certified_block_id self) (bt_highest_quorum_cert self)
      (bt_highest_2chain_timeout_cert self) ordered_cert (bt_highest_commit_cert self)
      (bt_id_to_quorum_cert self) self
  else self.

Definition replace_2chain_timeout_cert (tc : TwoChainTimeoutCertificate) (self : BlockTree) :
    BlockTree :=
  with_certs (bt_highest_certified_block_id self) (bt_highest_quorum_cert self) (Some tc)
    (bt_highest_ordered_cert self) (bt_highest_commit_cert self) (bt_id_to_quorum_cert self) self.

(** The certificate of a block at the highest round replaces the highest
    certificate. *)
Definition raise_highest_quorum_cert (qc : QuorumCert) (block : PipelinedBlock)
    (self : BlockTree) : result anyhow BlockTree :=
  highest ← BlockTree_highest_certified_block self;
  if pb_round highest <? pb_round block then
    let safe :=
      if block_is_nil_block (pb_block block) then bt_safe_block_id self else pb_id block in
    Ok (with_certs (pb_id block) qc (bt_highest_2chain_timeout_cert self)
          (bt_highest_ordered_cert self) (bt_highest_commit_cert self) (bt_id_to_quorum_cert self)
          (with_roots (bt_ordered_root_id self) (bt_commit_root_id self) (bt_head_block_id self)
             safe (bt_finalized_block_id self) self))
  else Ok self.

Definition or_insert (k : HashValue) (qc : QuorumCert) (m : gmap HashValue QuorumCert) :
    gmap HashValue QuorumCert :=
  match m !! k with Some _ => m | None => <[k := qc]> m end.

Definition BlockTree_insert_quorum_cert (qc : QuorumCert) : SM BlockTree anyhow unit := λ self,
  let block_id := BlockInfo_id (qc_certified_block qc) in
  match BlockTree_get_block block_id self with
  | None => (self, Err "Block not found"%string)
  | Some block =>
      match raise_highest_quorum_cert qc block self with
      | Ok self =>
          let ordered :=
            if BlockInfo_round (wli_commit_info (bt_highest_ordered_cert self))
                 <? BlockInfo_round (qc_commit_info qc)
            then qc_into_wrapped_ledger_info qc else bt_highest_ordered_cert self in
          (with_certs (bt_highest_certified_block_id self) (bt_highest_quorum_cert self)
             (bt_highest_2chain_timeout_cert self) ordered (bt_highest_commit_cert self)
             (or_insert block_id qc (bt_id_to_quorum_cert self)) self, Ok tt)
      | Err e => (self, Err e)
      | Panic => (self, Panic)
      end
  end.

(** ** Pruning *)

Definition remove_block (block_id : HashValue) (self : BlockTree) : BlockTree :=
  with_certs (bt_highest_certified_block_id self) (bt_highest_quorum_cert self)
    (bt_highest_2chain_timeout_cert self) (bt_highest_ordered_cert self)
    (bt_highest_commit_cert self) (delete block_id (bt_id_to_quorum_cert self))
    (with_blocks (delete block_id (bt_id_to_block self)) self).

(** The children of a block pushed on the stack, in the order of the set. *)
Fixpoint push_children (self : BlockTree) (next_root_id : HashValue)
    (children : list HashValue) (blocks_to_be_pruned : list LinkableBlock) :
    result anyhow (list LinkableBlock) :=
  match children with
  | [] => Ok blocks_to_be_pruned
  | child_id :: children =>
      if bool_decide (next_root_id = child_id) then
        push_children self next_root_id children blocks_to_be_pruned
      else match bt_id_to_block self !! child_id with
           | Some block => push_children self next_root_id children (block :: blocks_to_be_pruned)
           | None => Panic
           end
  end.

(** The [while let Some(..) = pop()] loop; the top of the stack is the head of
    the list. *)
Fixpoint prune_loop (fuel : nat) (self : BlockTree) (next_root_id : HashValue)
    (blocks_to_be_pruned : list LinkableBlock) (blocks_pruned : list (Z * HashValue)) :
    result anyhow (list (Z * HashValue)) :=
  match blocks_to_be_pruned, fuel with
  | [], _ => Ok blocks_pruned
  | _ :: _, O => Panic
  | block_to_remove :: blocks_to_be_pruned, S fuel =>
      blocks_to_be_pruned ← push_children self next_root_id
        (elements (lb_children block_to_remove)) blocks_to_be_pruned;
      prune_loop fuel self next_root_id blocks_to_be_pruned
        (blocks_pruned ++
         [(pb_epoch (lb_executed_block block_to_remove), lb_id block_to_remove)])
  end.

Definition find_blocks_to_prune (next_root_id : HashValue) (self : BlockTree) :
    result anyhow (list (Z * HashValue)) :=
  if bool_decide (next_root_id = bt_commit_root_id self) then Ok []
  else match BlockTree_get_block next_root_id self with
  | None => Ok []
  | Some next_root =>
      commit_root ← BlockTree_commit_root self;
      if pb_round next_root <=? pb_round commit_root then Ok []
      else
        root ← linkable_root self;
        prune_loop (size (bt_id_to_block self)) self next_root_id [root] []
  end.

(** Removes [num_blocks_to_remove] ids from the front of the deque. *)
Fixpoint remove_oldest (num_blocks_to_remove : nat) (self : BlockTree) : BlockTree :=
  match num_blocks_to_remove with
  | O => self
  | S n =>
      remove_oldest n
        match bt_pruned_block_ids self with
        | [] => self
        | id :: ids => remove_block id (with_pruned ids self)
        end
  end.

Definition process_pruned_blocks (newly_pruned_blocks : list (Z * HashValue))
    (self : BlockTree) : BlockTree :=
  let self := with_pruned (bt_pruned_block_ids self ++ newly_pruned_blocks.*2) self in
  if (bt_max_pruned_blocks_in_mem self <? length (bt_pruned_block_ids self))%nat then
    remove_oldest (length (bt_pruned_block_ids self) - bt_max_pruned_blocks_in_mem self) self
  else self.

(** ** Paths *)

Fixpoint path_loop (fuel : nat) (self : BlockTree) (root_round : Z) (cur_block_id : HashValue)
    (res : list PipelinedBlock) : result anyhow (option (HashValue * list PipelinedBlock)) :=
  match BlockTree_get_block cur_block_id self, fuel with
  | None, _ => Ok None
  | Some block, fuel =>
      if pb_round block <=? root_round then Ok (Some (cur_block_id, res))
      else match fuel with
           | O => Panic
           | S fuel => path_loop fuel self root_round (pb_parent_id block) (res ++ [block])
           end
  end.

Definition path_from_root_to_block (block_id root_id : HashValue) (root_round : Z)
    (self : BlockTree) : result anyhow (option (list PipelinedBlock)) :=
  found ← path_loop (size (bt_id_to_block self)) self root_round block_id [];
  match found with
  | None => Ok None
  | Some (cur_block_id, res) =>
      if bool_decide (cur_block_id ≠ root_id) then Ok None else Ok (Some (reverse res))
  end.

Definition path_from_ordered_root (block_id : HashValue) (self : BlockTree) :
    result anyhow (option (list PipelinedBlock)) :=
  root ← BlockTree_ordered_root self;
  path_from_root_to_block block_id (bt_ordered_root_id self) (pb_round root) self.
Definition path_from_commit_root (block_id : HashValue) (self : BlockTree) :
    result anyhow (option (list PipelinedBlock)) :=
  root ← BlockTree_commit_root self;
  path_from_root_to_block block_id (bt_commit_root_id self) (pb_round root) self.

(** ** Committing *)

Definition commit_callback (blocks_to_commit : list PipelinedBlock)
    (finality_proof : WrappedLedgerInfo) (commit_decision : LedgerInfoWithSignatures) :
    SM BlockTree anyhow unit := λ self,
  match last blocks_to_commit, BlockTree_commit_root self with
  | Some block_to_commit, Ok commit_root =>
      if pb_round block_to_commit <=? pb_round commit_root then (self, Ok tt)
      else match WrappedLedgerInfo_create_merged_with_executed_state finality_proof
                   commit_decision with
      | Ok commit_proof =>
          match find_blocks_to_prune (pb_id block_to_commit) self with
          | Ok ids_to_remove =>
              update_highest_commit_cert commit_proof (process_pruned_blocks ids_to_remove self)
          | Err e => (self, Err e)
          | Panic => (self, Panic)
          end
      | _ => (self, Panic)
      end
  | _, _ => (self, Panic)
  end.

End block_tree.
