(* ===== verification/TreeSafety.v ===== *)
(** The block tree over histories of calls: its invariant, exactness of
    pruning, and the paths it returns. *)
From S2P Require Import Prelude Laptos Payload Certificates Block Votes BlockBuffer Pipelined.
From S2P Require Import BlockTree.

Section tree_safety.
Context `{L : Laptos} `{G : !Gcei}.

(** Block ids are hashes, so an id determines a round: [round_of] is that
    function.  The rounds of a block and of the parent its certificate names
    are checked by [Block_verify_well_formed]. *)
Context (round_of : HashValue → Z).

Definition block_rounds (b : PipelinedBlock) : Prop :=
  pb_round b = round_of (pb_id b) ∧ round_of (pb_parent_id b) < round_of (pb_id b).

(** ** Links and subtrees *)

Definition child (m : gmap HashValue LinkableBlock) (a b : HashValue) : Prop :=
  ∃ lb, m !! a = Some lb ∧ b ∈ lb_children lb.
Definition subtree (m : gmap HashValue LinkableBlock) : HashValue → HashValue → Prop :=
  rtc (child m).
(** The tree below the commit root. *)
Definition live (t : BlockTree) (x : HashValue) : Prop :=
  subtree (bt_id_to_block t) (bt_commit_root_id t) x.

(** Blocks are stored under their ids with rounds above their parent's; a child
    link leads to a stored block whose parent link leads back. *)
Record linked (m : gmap HashValue LinkableBlock) : Prop := {
  linked_id k lb : m !! k = Some lb → lb_id lb = k;
  linked_rounds k lb : m !! k = Some lb → block_rounds (lb_executed_block lb);
  linked_child k c : child m k c →
    ∃ lc, m !! c = Some lc ∧ pb_parent_id (lb_executed_block lc) = k;
}.

(** Where [x] is a child of [p], [p] is earlier in the list. *)
Definition parents_first (m : gmap HashValue LinkableBlock) (l : list HashValue) : Prop :=
  ∀ p x l1 l2, child m p x → l = l1 ++ x :: l2 → p ∈ l1.

Record tree_inv (t : BlockTree) : Prop := {
  ti_linked : linked (bt_id_to_block t);
  ti_commit_root : is_Some (bt_id_to_block t !! bt_commit_root_id t);
  ti_ordered_root : live t (bt_ordered_root_id t);
  ti_certified : live t (bt_highest_certified_block_id t);
  ti_pruned_NoDup : NoDup (bt_pruned_block_ids t);
  ti_pruned_stored x : x ∈ bt_pruned_block_ids t → is_Some (bt_id_to_block t !! x);
  ti_pruned_dead x : x ∈ bt_pruned_block_ids t → ¬ live t x;
  ti_pruned_order : parents_first (bt_id_to_block t) (bt_pruned_block_ids t);
  ti_commit_parent p :
    child (bt_id_to_block t) p (bt_commit_root_id t) → p ∈ bt_pruned_block_ids t;
  ti_pruned_bound : (length (bt_pruned_block_ids t) ≤ bt_max_pruned_blocks_in_mem t)%nat;
  ti_commit_cert : BlockInfo_round (wli_commit_info (bt_highest_commit_cert t))
                     ≤ round_of (bt_commit_root_id t);
  ti_highest_qc :
    BlockInfo_id (qc_certified_block (bt_highest_quorum_cert t)) = bt_highest_certified_block_id t;
  ti_qcs k qc : bt_id_to_quorum_cert t !! k = Some qc →
    is_Some (bt_id_to_block t !! k) ∧
    BlockInfo_id (qc_certified_block qc) = k ∧
    round_of k ≤ round_of (bt_highest_certified_block_id t) ∧
    BlockInfo_round (qc_commit_info qc)
      ≤ BlockInfo_round (wli_commit_info (bt_highest_ordered_cert t));
}.

(** ** Histories *)

Inductive tree_op : Type :=
| OpInsertBlock (block : PipelinedBlock)
| OpInsertQuorumCert (qc : QuorumCert)
| OpInsertOrderedCert (ordered_cert : WrappedLedgerInfo)
| OpReplaceTimeoutCert (tc : TwoChainTimeoutCertificate)
| OpUpdateOrderedRoot (root_id : HashValue)
| OpCommit (blocks_to_commit : list PipelinedBlock) (finality_proof : WrappedLedgerInfo)
    (commit_decision : LedgerInfoWithSignatures)
| OpRecover (blocks_to_commit : list PipelinedBlock) (finality_proof : WrappedLedgerInfo).

(** During recovery the block store commits and moves the ordered root in one go. *)
Definition recover_commit (blocks_to_commit : list PipelinedBlock)
    (finality_proof : WrappedLedgerInfo) : SM BlockTree anyhow unit :=
  _ ← commit_callback blocks_to_commit finality_proof (wli_signed_ledger_info finality_proof);
  _ ← update_ordered_root (BlockInfo_id (wli_commit_info finality_proof));
  modify (insert_ordered_cert finality_proof).

Definition tree_call (op : tree_op) : SM BlockTree anyhow unit :=
  match op with
  | OpInsertBlock block => _ ← BlockTree_insert_block block; mret tt
  | OpInsertQuorumCert qc => BlockTree_insert_quorum_cert qc
  | OpInsertOrderedCert ordered_cert => modify (insert_ordered_cert ordered_cert)
  | OpReplaceTimeoutCert tc => modify (replace_2chain_timeout_cert tc)
  | OpUpdateOrderedRoot root_id => update_ordered_root root_id
  | OpCommit blocks finality_proof decision => commit_callback blocks finality_proof decision
  | OpRecover blocks finality_proof => recover_commit blocks finality_proof
  end.

(** The decision is about the block [r] of the tree, between the commit root and
    the highest certified block. *)
Record commits (t : BlockTree) (finality_proof : WrappedLedgerInfo)
    (decision : LedgerInfoWithSignatures) (r : HashValue) : Prop := {
  commits_live : live t r;
  commits_certified : subtree (bt_id_to_block t) r (bt_highest_certified_block_id t);
  commits_match : BlockInfo_match_ordered_only (wli_commit_info finality_proof)
    (LedgerInfo_commit_info (LedgerInfoWithSignatures_ledger_info decision)) = true;
  commits_id :
    BlockInfo_id (LedgerInfo_commit_info (LedgerInfoWithSignatures_ledger_info decision)) = r;
  commits_round :
    BlockInfo_round (LedgerInfo_commit_info (LedgerInfoWithSignatures_ledger_info decision)) =
    round_of r;
}.

(** What the callers in the block store guarantee: a block that is inserted
    again has the same execution result; the highest certificate and the
    ordered root extend the commit root; a commit is either stale or decides a
    block between the commit root and both of them, except that a recovery may
    commit beyond the ordered root. *)
Definition tree_op_ok (t : BlockTree) (op : tree_op) : Prop :=
  match op with
  | OpInsertBlock block =>
      block_rounds block ∧
      ∀ b, BlockTree_get_block (pb_id block) t = Some b →
        pb_state_compute_result b = pb_state_compute_result block
  | OpInsertQuorumCert qc =>
      let id := BlockInfo_id (qc_certified_block qc) in
      round_of (bt_highest_certified_block_id t) < round_of id →
      is_Some (bt_id_to_block t !! id) → live t id
  | OpUpdateOrderedRoot root_id => live t root_id
  | OpCommit blocks finality_proof decision =>
      ∃ b, last blocks = Some b ∧
        (pb_round b ≤ round_of (bt_commit_root_id t) ∨
         pb_round b = round_of (pb_id b) ∧ commits t finality_proof decision (pb_id b) ∧
         subtree (bt_id_to_block t) (pb_id b) (bt_ordered_root_id t))
  | OpRecover blocks finality_proof =>
      ∃ b, last blocks = Some b ∧ pb_round b = round_of (pb_id b) ∧
        round_of (bt_commit_root_id t) < pb_round b ∧
        commits t finality_proof (wli_signed_ledger_info finality_proof) (pb_id b)
  | _ => True
  end.

(** The trees of histories in which every call respects [tree_op_ok]. *)
Inductive tree_history : BlockTree → Prop :=
| TreeNew root qc ordered commit max tc t :
    BlockTree_new root qc ordered commit max tc = Ok t →
    block_rounds root →
    BlockInfo_id (qc_certified_block qc) = pb_id root →
    BlockInfo_round (qc_commit_info qc) ≤ BlockInfo_round (wli_commit_info ordered) →
    BlockInfo_round (wli_commit_info commit) ≤ pb_round root →
    tree_history t
| TreeCall t op : tree_history t → tree_op_ok t op → tree_history (tree_call op t).1.

(** ** Lemmas on links *)

Lemma child_rounds m k c : linked m → child m k c → round_of k < round_of c.
Proof using Type.
  intros Hl Hc. destruct (linked_child _ Hl _ _ Hc) as (lc&Hlc&<-).
  pose proof (linked_rounds _ Hl _ _ Hlc) as [_ ?].
  pose proof (linked_id _ Hl _ _ Hlc) as Hid. unfold lb_id in Hid. by rewrite <- Hid.
Qed.

Lemma subtree_rounds m k c : linked m → subtree m k c → round_of k ≤ round_of c.
Proof using Type.
  intros Hl. induction 1 as [|x y z Hc _ IH]; [lia|].
  pose proof (child_rounds _ _ _ Hl Hc). lia.
Qed.

Lemma child_parent_unique m p q c : linked m → child m p c → child m q c → p = q.
Proof using Type.
  intros Hl Hp Hq. destruct (linked_child _ Hl _ _ Hp) as (lc&Hlc&<-).
  destruct (linked_child _ Hl _ _ Hq) as (lc'&Hlc'&<-). congruence.
Qed.

Lemma child_stored m k c : child m k c → is_Some (m !! k).
Proof using Type. intros (lb&?&_). eauto. Qed.

(** A subtree is entered at its root only. *)
Lemma subtree_last m r b c :
  linked m → subtree m r c → c ≠ r → child m b c → subtree m r b.
Proof using Type.
  intros Hl Hs Hne Hc. apply rtc_inv_r in Hs as [->|(p&Hs&Hp)]; [done|].
  by rewrite (child_parent_unique _ _ _ _ Hl Hc Hp).
Qed.

Lemma subtree_stored m r c : linked m → is_Some (m !! r) → subtree m r c → is_Some (m !! c).
Proof using Type.
  intros Hl Hr Hs. apply rtc_inv_r in Hs as [->|(p&_&Hp)]; [done|].
  destruct (linked_child _ Hl _ _ Hp) as (lc&?&_). eauto.
Qed.

Lemma linked_parent m k lb : linked m → m !! k = Some lb → 
  round_of (pb_parent_id (lb_executed_block lb)) < round_of k.
Proof using Type.
  intros Hl Hk. pose proof (linked_rounds _ Hl _ _ Hk) as [_ ?].
  pose proof (linked_id _ Hl _ _ Hk) as Hid. unfold lb_id in Hid. by rewrite <- Hid.
Qed.

Lemma linked_round m k lb : linked m → m !! k = Some lb → pb_round (lb_executed_block lb) = round_of k.
Proof using Type.
  intros Hl Hk. pose proof (linked_rounds _ Hl _ _ Hk) as [-> _].
  f_equal. by apply (linked_id _ Hl).
Qed.

Lemma get_block_Some t k b :
  BlockTree_get_block k t = Some b ↔
  ∃ lb, bt_id_to_block t !! k = Some lb ∧ lb_executed_block lb = b.
Proof using Type.
  unfold BlockTree_get_block. rewrite fmap_Some.
  split; intros (lb&?&?); exists lb; auto.
Qed.

Lemma list_length_dom (m : gmap HashValue LinkableBlock) (l : list HashValue) :
  NoDup l → (∀ x, x ∈ l → is_Some (m !! x)) → (length l ≤ size m)%nat.
Proof using Type.
  intros Hnd Hin. rewrite <- size_dom, <- (size_list_to_set (C := gset HashValue) l Hnd).
  apply subseteq_size. intros x Hx. apply elem_of_list_to_set in Hx.
  apply elem_of_dom. by apply Hin.
Qed.

(** ** Pruning *)

Section pruning.
Context (t : BlockTree) (next_root_id : HashValue) (Hl : linked (bt_id_to_block t)).
Let m := bt_id_to_block t.
Let r := bt_commit_root_id t.
Context (Hr : is_Some (m !! r)).

Definition between (x : HashValue) : Prop := subtree m r x ∧ ¬ subtree m next_root_id x.

(** The state of the loop: what is pruned and what is on the stack is between
    the two roots, without repetition, and closed under child links. *)
Record prune_inv (stack : list LinkableBlock) (pruned : list HashValue) : Prop := {
  pi_stored lb : lb ∈ stack → m !! lb_id lb = Some lb;
  pi_NoDup : NoDup (pruned ++ (lb_id <$> stack));
  pi_between x : x ∈ pruned ++ (lb_id <$> stack) → between x;
  pi_root : r ∈ pruned ++ (lb_id <$> stack);
  pi_closed x c : x ∈ pruned → child m x c →
    c = next_root_id ∨ c ∈ pruned ++ (lb_id <$> stack);
  pi_parent p x : x ∈ lb_id <$> stack → x ≠ r → child m p x → p ∈ pruned;
  pi_order p x l1 l2 : pruned = l1 ++ x :: l2 → x ≠ r → child m p x → p ∈ l1;
}.

Lemma push_children_spec (cs : list HashValue) stack :
  (∀ c, c ∈ cs → is_Some (m !! c)) →
  ∃ new, push_children t next_root_id cs stack = Ok (new ++ stack) ∧
    lb_id <$> new ≡ₚ filter (λ c, c ≠ next_root_id) cs ∧
    ∀ lb, lb ∈ new → m !! lb_id lb = Some lb.
Proof using Hl.
  revert stack. induction cs as [|c cs IH]; intros stack Hin; simpl.
  { exists []. split_and!; [done|done|]. intros lb Hlb. by apply elem_of_nil in Hlb. }
  case_bool_decide as Hc.
  - rewrite filter_cons_False by congruence.
    apply IH. intros x Hx. apply Hin. by right.
  - destruct (Hin c) as [lc Hlc]; [by left|]. fold m. rewrite Hlc.
    rewrite filter_cons_True by congruence.
    destruct (IH (lc :: stack)) as (new&->&Hp&Hst). { intros x Hx. apply Hin. by right. }
    exists (new ++ [lc]). split_and!.
    + by rewrite <- app_assoc.
    + rewrite fmap_app, Hp. simpl. rewrite (linked_id _ Hl _ _ Hlc). by rewrite Permutation_app_comm.
    + intros lb [Hlb|Hlb]%elem_of_app; [by apply Hst|].
      apply list_elem_of_singleton in Hlb as ->. by rewrite (linked_id _ Hl _ _ Hlc).
Qed.

Lemma elements_child lb c :
  m !! lb_id lb = Some lb → c ∈ elements (lb_children lb) ↔ child m (lb_id lb) c.
Proof using Type.
  intros Hlb. rewrite elem_of_elements. split; [intros ?; by exists lb|].
  intros (lb'&Hlb'&Hc). congruence.
Qed.

(** A child of the block on top of the stack has not been seen. *)
Lemma prune_inv_fresh lb stack pruned c :
  prune_inv (lb :: stack) pruned → child m (lb_id lb) c →
  c ∉ pruned ++ (lb_id <$> lb :: stack).
Proof using Hl.
  intros Hpi Hc Hin. destruct Hpi as [_ Hnd Hbt _ _ Hpar Hord].
  assert (Hnp : lb_id lb ∉ pruned).
  { apply NoDup_app in Hnd as (_&Hd&_). intros Hx. apply (Hd _ Hx). by left. }
  assert (Hcr : c ≠ r).
  { intros ->. destruct (Hbt (lb_id lb)) as [Hs _].
    { apply elem_of_app. right. by left. }
    pose proof (child_rounds _ _ _ Hl Hc). pose proof (subtree_rounds _ _ _ Hl Hs). lia. }
  apply elem_of_app in Hin as [Hin|Hin].
  - apply list_elem_of_split in Hin as (l1&l2&Heq).
    apply Hnp. rewrite Heq. apply elem_of_app. left. by eapply Hord.
  - by apply Hnp, (Hpar _ c).
Qed.

Lemma prune_step lb stack pruned :
  prune_inv (lb :: stack) pruned →
  ∃ new, push_children t next_root_id (elements (lb_children lb)) stack = Ok (new ++ stack) ∧
    prune_inv (new ++ stack) (pruned ++ [lb_id lb]).
Proof using Hl.
  intros Hpi. pose proof (prune_inv_fresh lb stack pruned) as Hfresh. pose proof Hpi as [Hst Hnd Hbt Hrt Hcl Hpar Hord].
  assert (Hch := λ c, elements_child lb c (Hst lb (list_elem_of_here _ _))).
  destruct (push_children_spec (elements (lb_children lb)) stack) as (new&Heq&Hperm&Hnew).
  { intros c Hc%Hch. destruct (linked_child _ Hl _ _ Hc) as (?&?&_). eauto. }
  assert (Hids : ∀ c, c ∈ lb_id <$> new ↔ c ≠ next_root_id ∧ child m (lb_id lb) c).
  { intros c. by rewrite Hperm, list_elem_of_filter, Hch. }
  assert (Hall : (pruned ++ [lb_id lb]) ++ (lb_id <$> new ++ stack) ≡ₚ
                 (lb_id <$> new) ++ pruned ++ (lb_id <$> lb :: stack)).
  { rewrite fmap_app. simpl. rewrite <- (app_assoc pruned). simpl.
    rewrite (app_assoc _ pruned), (Permutation_app_comm _ pruned), <- app_assoc.
    apply Permutation_app_head. by rewrite Permutation_middle. }
  exists new. split; [done|]. split.
  - intros lb' [?|?]%elem_of_app; [by apply Hnew|]. apply Hst. by right.
  - rewrite Hall. apply NoDup_app. split_and!; [|intros c Hc%Hids|done].
    + rewrite Hperm. apply NoDup_filter, NoDup_elements.
    + apply Hfresh; [done|apply Hc].
  - intros c. rewrite Hall. intros [Hc%Hids|?]%elem_of_app; [|by apply Hbt].
    destruct Hc as [Hne Hc]. destruct (Hbt (lb_id lb)) as [Hs Hns].
    { apply elem_of_app. right. by left. }
    split; [by eapply rtc_r|]. intros Hs'. apply Hns. by eapply subtree_last.
  - rewrite Hall. apply elem_of_app. by right.
  - intros x c Hx Hc. rewrite Hall. apply elem_of_app in Hx as [Hx|Hx].
    + destruct (Hcl x c Hx Hc) as [?|?]; [by left|right]. apply elem_of_app. by right.
    + apply list_elem_of_singleton in Hx as ->.
      destruct (decide (c = next_root_id)) as [?|Hne]; [by left|right].
      apply elem_of_app. left. by apply Hids.
  - intros p x Hx Hxr Hp. rewrite fmap_app in Hx. apply elem_of_app.
    apply elem_of_app in Hx as [[_ Hc]%Hids|Hx].
    + right. apply list_elem_of_singleton. by eapply child_parent_unique.
    + left. eapply Hpar; [by right|done|done].
  - intros p x l1 l2 Heq' Hxr Hp. destruct l2 as [|y l2 _] using rev_ind.
    + apply app_inj_tail in Heq' as [-> <-]. eapply Hpar; [by left|done|done].
    + rewrite app_comm_cons, app_assoc in Heq'.
      apply app_inj_tail in Heq' as [-> _]. by eapply Hord.
Qed.

Lemma prune_loop_spec fuel stack acc :
  prune_inv stack acc.*2 → (size m ≤ fuel + length acc)%nat →
  ∃ ids, prune_loop fuel t next_root_id stack acc = Ok ids ∧ prune_inv [] ids.*2.
Proof using Hl Hr.
  revert stack acc. induction fuel as [|fuel IH]; intros [|lb stack] acc Hpi Hf; simpl;
    [by exists acc| |by exists acc|].
  - exfalso. pose proof (list_length_dom m (acc.*2 ++ (lb_id <$> lb :: stack))) as Hlen.
    destruct Hpi as [Hst Hnd Hbt Hrt _ _ _]. rewrite length_app, !length_fmap in Hlen. simpl in Hlen.
    cut (length acc + S (length stack) ≤ size m)%nat; [lia|]. apply Hlen; [done|].
    intros x Hx. apply Hbt in Hx as [Hs _]. by eapply subtree_stored.
  - destruct (prune_step _ _ _ Hpi) as (new&->&Hpi'). simpl.
    apply IH; [by rewrite fmap_app|]. rewrite length_app. simpl. lia.
Qed.

(** Every block between the roots is pruned, once, parents first. *)
Lemma find_blocks_to_prune_spec :
  is_Some (m !! next_root_id) → round_of r < round_of next_root_id →
  ∃ ids, find_blocks_to_prune next_root_id t = Ok ids ∧
    NoDup ids.*2 ∧ (∀ x, x ∈ ids.*2 ↔ between x) ∧
    ∀ p x l1 l2, ids.*2 = l1 ++ x :: l2 → x ≠ r → child m p x → p ∈ l1.
Proof using Hl Hr.
  intros [ln Hn] Hlt. destruct Hr as [lr Hlr].
  assert (Hid := linked_id _ Hl _ _ Hlr).
  destruct (prune_loop_spec (size m) [lr] []) as (ids&Heq&[_ Hnd Hbt Hrt Hcl _ Hord]).
  { split; simpl; rewrite ?Hid.
    - intros lb ->%list_elem_of_singleton. by rewrite Hid.
    - apply NoDup_singleton.
    - intros x ->%list_elem_of_singleton. split; [apply rtc_refl|].
      intros Hs%(subtree_rounds _ _ _ Hl). fold r in Hlt. lia.
    - by left.
    - intros x c Hx. by apply elem_of_nil in Hx.
    - intros p x ->%list_elem_of_singleton. done.
    - intros p x [|] l2 Hx; discriminate Hx. }
  { simpl. lia. }
  simpl in Hnd, Hbt, Hrt, Hcl. rewrite app_nil_r in Hnd, Hrt.
  exists ids. split_and!; [|done| |done].
  - unfold find_blocks_to_prune, BlockTree_commit_root, expect_block, linkable_root,
      BlockTree_get_block.
    rewrite bool_decide_false by (intros ->; fold r in Hlt; lia). fold m r.
    rewrite Hn, Hlr. simpl.
    rewrite (linked_round _ _ _ Hl Hn), (linked_round _ _ _ Hl Hlr).
    by rewrite (proj2 (Z.leb_gt _ _)) by done.
  - intros x. split; [intros Hx; apply Hbt; by rewrite app_nil_r|].
    intros [Hs Hns]. revert Hns.
    refine (rtc_ind_r (λ x, ¬ subtree m next_root_id x → x ∈ ids.*2) r _ _ x Hs); [done|].
    intros y z Hy' Hc IH Hns.
    assert (y ∈ ids.*2) as Hy. { apply IH. intros ?. apply Hns. by eapply rtc_r. }
    destruct (Hcl y z Hy Hc) as [->|Hz]; [by destruct Hns; apply rtc_refl|].
    by rewrite app_nil_r in Hz.
Qed.

End pruning.

(** [t'] is [t] without the blocks and the certificates of [removed], and with
    the ids [kept] still to be removed. *)
Record removes (removed kept : list HashValue) (t t' : BlockTree) : Prop := {
  rm_blocks x : bt_id_to_block t' !! x =
    if decide (x ∈ removed) then None else bt_id_to_block t !! x;
  rm_qcs x : bt_id_to_quorum_cert t' !! x =
    if decide (x ∈ removed) then None else bt_id_to_quorum_cert t !! x;
  rm_pruned : bt_pruned_block_ids t' = kept;
  rm_rest :
    (bt_ordered_root_id t', bt_commit_root_id t', bt_highest_certified_block_id t',
     bt_highest_quorum_cert t', bt_highest_ordered_cert t', bt_highest_commit_cert t',
     bt_max_pruned_blocks_in_mem t') =
    (bt_ordered_root_id t, bt_commit_root_id t, bt_highest_certified_block_id t,
     bt_highest_quorum_cert t, bt_highest_ordered_cert t, bt_highest_commit_cert t,
     bt_max_pruned_blocks_in_mem t);
}.

Lemma remove_oldest_spec n t :
  removes (take n (bt_pruned_block_ids t)) (drop n (bt_pruned_block_ids t)) t (remove_oldest n t).
Proof using Type.
  revert t. induction n as [|n IH]; intros t; simpl; [by split|].
  destruct (bt_pruned_block_ids t) as [|id ids] eqn:Hp; simpl.
  - destruct (IH t) as [Hb Hq Hk Hr]. rewrite Hp, take_nil in *. rewrite drop_nil in Hk.
    by split.
  - destruct (IH (remove_block id (with_pruned ids t))) as [Hb Hq Hk Hr]. simpl in *.
    split; [intros x; rewrite Hb|intros x; rewrite Hq|done|done]; simpl.
    all: destruct (decide (x ∈ take n ids)) as [Hx|Hx];
      [by rewrite decide_True by (by right)|].
    all: destruct (decide (id = x)) as [->|Hne].
    all: first [by rewrite lookup_delete_eq, decide_True by (by left)
               |rewrite lookup_delete_ne by done].
    all: by rewrite decide_False by (intros [?|?]%elem_of_cons; [by subst|done]).
Qed.

Lemma process_pruned_blocks_spec ids t :
  ∃ removed kept, bt_pruned_block_ids t ++ ids.*2 = removed ++ kept ∧
    length removed = (length (bt_pruned_block_ids t ++ ids.*2) - bt_max_pruned_blocks_in_mem t)%nat ∧
    removes removed kept t (process_pruned_blocks ids t).
Proof using Type.
  unfold process_pruned_blocks.
  set (all := bt_pruned_block_ids t ++ ids.*2). simpl. fold all.
  destruct (Nat.ltb_spec (bt_max_pruned_blocks_in_mem t) (length all)) as [Hlt|Hle].
  - destruct (remove_oldest_spec (length all - bt_max_pruned_blocks_in_mem t) (with_pruned all t))
      as [Hb Hq Hk Hr]. simpl in *.
    eexists _, _. split; [symmetry; apply take_drop|].
    split; [|split; [exact Hb|exact Hq|exact Hk|exact Hr]]. rewrite length_take. lia.
  - exists [], all. split; [done|]. split; [simpl; lia|]. by split.
Qed.

(** ** A commit *)

Section commit.
Context (t t' : BlockTree) (r : HashValue) (newly : list HashValue) (removed kept : list HashValue).
Context (Hinv : tree_inv t).
Context (Hnd : NoDup newly) (Hnew : ∀ x, x ∈ newly ↔ between t r x).
Context (Hord : ∀ p x l1 l2, newly = l1 ++ x :: l2 → x ≠ bt_commit_root_id t →
  child (bt_id_to_block t) p x → p ∈ l1).
Context (Hr : live t r) (Hlt : round_of (bt_commit_root_id t) < round_of r).
Context (Hall : bt_pruned_block_ids t ++ newly = removed ++ kept).
Context (Hrm : removes removed kept t t').
Let m := bt_id_to_block t.
Let m' := bt_id_to_block t'.

Lemma commit_linked_old : linked m.
Proof using All. apply Hinv. Qed.

Lemma commit_child_shrinks p x : child m' p x → child m p x.
Proof using All.
  intros (lb&Hp&Hx). exists lb. split; [|done]. unfold m' in Hp.
  rewrite (rm_blocks _ _ _ _ Hrm) in Hp. by case_decide.
Qed.

Lemma commit_all_NoDup : NoDup (bt_pruned_block_ids t ++ newly).
Proof using All.
  apply NoDup_app. split_and!; [apply Hinv| |done].
  intros x Hx [Hs _]%Hnew. by eapply (ti_pruned_dead _ Hinv).
Qed.

(** In the extended list, parents still come first. *)
Lemma commit_parents_first : parents_first m (bt_pruned_block_ids t ++ newly).
Proof using All.
  intros p x l1 l2 Hc Heq.
  assert (Hhere : ∀ k k', newly = k ++ x :: k' → p ∈ bt_pruned_block_ids t ++ k).
  { intros k k' Hk. apply elem_of_app.
    destruct (decide (x = bt_commit_root_id t)) as [->|Hne].
    - left. by apply (ti_commit_parent _ Hinv).
    - right. by eapply Hord. }
  apply app_eq_inv in Heq as [([|y k]&Ho&Hn)|(k&->&Hn)]; [| |by eapply Hhere].
  - rewrite app_nil_r in Ho. rewrite <- Ho, <- (app_nil_r (bt_pruned_block_ids t)).
    by eapply (Hhere []).
  - injection Hn as <- ->. by eapply (ti_pruned_order _ Hinv).
Qed.

(** What is removed has no parent left, so no link dangles. *)
Lemma commit_removed_child p x : child m p x → x ∈ removed → p ∈ removed.
Proof using All.
  intros Hc (l1&l2&Heq)%list_elem_of_split. rewrite Heq. apply elem_of_app. left.
  eapply commit_parents_first; [done|]. by rewrite Hall, Heq, <- app_assoc.
Qed.

Lemma commit_child p x : child m' p x ↔ child m p x ∧ p ∉ removed.
Proof using All.
  unfold child, m'. rewrite (rm_blocks _ _ _ _ Hrm). case_decide as Hp.
  - split; [intros (?&?&_); done|]. by intros [_ ?].
  - split; [intros (lb&?&?)|intros [(lb&?&?) _]]; eauto.
Qed.

Lemma commit_linked : linked m'.
Proof using All.
  pose proof commit_linked_old as Hl. split.
  - intros k lb Hk. unfold m' in Hk. rewrite (rm_blocks _ _ _ _ Hrm) in Hk. case_decide; [done|].
    by apply (linked_id _ Hl).
  - intros k lb Hk. unfold m' in Hk. rewrite (rm_blocks _ _ _ _ Hrm) in Hk. case_decide; [done|].
    by apply (linked_rounds _ Hl k).
  - intros k c [Hc Hk]%commit_child. destruct (linked_child _ Hl _ _ Hc) as (lc&Hlc&Hp).
    exists lc. split; [|done]. unfold m'. rewrite (rm_blocks _ _ _ _ Hrm), decide_False; [done|].
    intros Hx. by eapply Hk, commit_removed_child.
Qed.

(** The subtree of the new root stays. *)
Lemma commit_live_dead x : subtree m r x → x ∉ bt_pruned_block_ids t ++ newly.
Proof using All.
  intros Hs [Hx|Hx]%elem_of_app; [|by apply Hnew in Hx as [_ ?]].
  eapply (ti_pruned_dead _ Hinv); [done|]. unfold live, subtree. by transitivity r.
Qed.

Lemma commit_subtree x : subtree m' r x ↔ subtree m r x.
Proof using All.
  split.
  - apply rtc_subrel. intros ??. apply commit_child_shrinks.
  - refine (rtc_ind_r (λ x, subtree m' r x) r _ _ x); [apply rtc_refl|].
    intros y z Hy Hc IH. eapply rtc_r; [done|]. apply commit_child. split; [done|].
    intros Hx. apply (commit_live_dead y Hy). rewrite Hall. apply elem_of_app. by left.
Qed.

Lemma commit_stored x : x ∉ removed → m' !! x = m !! x.
Proof using All. intros Hx. unfold m'. by rewrite (rm_blocks _ _ _ _ Hrm), decide_False. Qed.

Lemma commit_root_stored : is_Some (m' !! r).
Proof using All.
  rewrite commit_stored.
  - eapply subtree_stored; [apply Hinv|apply (ti_commit_root _ Hinv)|exact Hr].
  - intros Hx. apply (commit_live_dead r); [apply rtc_refl|]. rewrite Hall.
    apply elem_of_app. by left.
Qed.

Lemma commit_parent_pruned p : child m' p r → p ∈ kept.
Proof using All.
  intros [Hc Hp]%commit_child. pose proof commit_linked_old as Hl.
  assert (Hin : p ∈ newly).
  { apply Hnew. split.
    - eapply subtree_last; [done|exact Hr| |done]. intros ->. lia.
    - intros Hs%(subtree_rounds _ _ _ Hl). pose proof (child_rounds _ _ _ Hl Hc). lia. }
  assert (Hin' : p ∈ removed ++ kept). { rewrite <- Hall. apply elem_of_app. by right. }
  apply elem_of_app in Hin' as [?|?]; done.
Qed.

(** The tree with [r] as its new commit root. *)
Lemma commit_inv t'' :
  (length kept ≤ bt_max_pruned_blocks_in_mem t)%nat →
  subtree m r (bt_ordered_root_id t'') → subtree m r (bt_highest_certified_block_id t) →
  bt_id_to_block t'' = m' → bt_id_to_quorum_cert t'' = bt_id_to_quorum_cert t' →
  bt_pruned_block_ids t'' = kept → bt_commit_root_id t'' = r →
  BlockInfo_round (wli_commit_info (bt_highest_commit_cert t'')) ≤ round_of r →
  (bt_highest_certified_block_id t'', bt_highest_quorum_cert t'',
   bt_highest_ordered_cert t'', bt_max_pruned_blocks_in_mem t'') =
  (bt_highest_certified_block_id t, bt_highest_quorum_cert t,
   bt_highest_ordered_cert t, bt_max_pruned_blocks_in_mem t) →
  tree_inv t''.
Proof using All.
  intros Hlen Hso Hsc Hb Hq Hp Hc Hcert [= Eh Eq Ew Em].
  assert (Hdisj : NoDup (removed ++ kept)). { rewrite <- Hall. apply commit_all_NoDup. }
  apply NoDup_app in Hdisj as (_&Hdisj&Hndk).
  assert (Hkept : ∀ x, x ∈ kept → x ∈ bt_pruned_block_ids t ++ newly).
  { intros x Hx. rewrite Hall. apply elem_of_app. by right. }
  split; unfold live; rewrite ?Hb, ?Hc, ?Hp, ?Eh, ?Eq, ?Ew, ?Em; try done.
  - apply commit_linked.
  - apply commit_root_stored.
  - by apply commit_subtree.
  - by apply commit_subtree.
  - intros x Hx. rewrite commit_stored by (intros Hx'; by apply (Hdisj x)).
    apply Hkept, elem_of_app in Hx as [Hx|[Hx _]%Hnew]; [by apply (ti_pruned_stored _ Hinv)|].
    eapply subtree_stored; [apply Hinv|apply (ti_commit_root _ Hinv)|exact Hx].
  - intros x Hx Hs%commit_subtree. by apply (commit_live_dead x), Hkept.
  - intros p x l1 l2 [Hch Hnp]%commit_child Heq.
    assert (p ∈ removed ++ l1) as Hin.
    { eapply commit_parents_first; [done|]. by rewrite Hall, Heq, app_assoc. }
    apply elem_of_app in Hin as [?|?]; done.
  - intros p. apply commit_parent_pruned.
  - apply (ti_highest_qc _ Hinv).
  - rewrite Hq. intros k qc. rewrite (rm_qcs _ _ _ _ Hrm). case_decide as Hk; [done|].
    intros (?&?&?&?)%(ti_qcs _ Hinv). by rewrite commit_stored.
Qed.

End commit.

Lemma commit_root_Ok t : tree_inv t →
  ∃ b, BlockTree_commit_root t = Ok b ∧ pb_round b = round_of (bt_commit_root_id t).
Proof using Type.
  intros Hinv. destruct (ti_commit_root _ Hinv) as [lr Hlr].
  exists (lb_executed_block lr). split; [|by apply (linked_round _ _ _ (ti_linked _ Hinv))].
  unfold BlockTree_commit_root, expect_block, BlockTree_get_block. by rewrite Hlr.
Qed.

Definition set_ordered_root (o : HashValue) (t : BlockTree) : BlockTree :=
  with_roots o (bt_commit_root_id t) (bt_head_block_id t) (bt_safe_block_id t)
    (bt_finalized_block_id t) t.

(** A commit that is not stale, end to end; the ordered root may be any block
    below the new commit root. *)
Lemma commit_callback_spec t blocks finality_proof decision b :
  tree_inv t → last blocks = Some b → pb_round b = round_of (pb_id b) →
  round_of (bt_commit_root_id t) < pb_round b → commits t finality_proof decision (pb_id b) →
  ∃ t' newly removed kept, commit_callback blocks finality_proof decision t = (t', Ok tt) ∧
    (∀ o, subtree (bt_id_to_block t) (pb_id b) o → tree_inv (set_ordered_root o t')) ∧
    bt_ordered_root_id t' = bt_ordered_root_id t ∧ bt_commit_root_id t' = pb_id b ∧
    (∀ x, live t' x ↔ subtree (bt_id_to_block t) (pb_id b) x) ∧
    NoDup newly ∧ (∀ x, x ∈ newly ↔ between t (pb_id b) x) ∧
    bt_pruned_block_ids t ++ newly = removed ++ kept ∧
    length removed =
      (length (bt_pruned_block_ids t ++ newly) - bt_max_pruned_blocks_in_mem t)%nat ∧
    bt_pruned_block_ids t' = kept ∧
    (∀ x, bt_id_to_block t' !! x = if decide (x ∈ removed) then None else bt_id_to_block t !! x).
Proof using Type.
  intros Hinv Hb Hround Hlt [Hr Hsc Hmatch Hid Hcr]. rewrite Hround in Hlt.
  pose proof (ti_linked _ Hinv) as Hl. destruct (commit_root_Ok _ Hinv) as (cr&Hroot&Hcrr).
  assert (Hst : is_Some (bt_id_to_block t !! pb_id b)).
  { eapply subtree_stored; [done|apply (ti_commit_root _ Hinv)|exact Hr]. }
  destruct (find_blocks_to_prune_spec t (pb_id b) Hl (ti_commit_root _ Hinv) Hst Hlt)
    as (ids&Hfind&Hnd&Hnew&Hord).
  destruct (process_pruned_blocks_spec ids t) as (removed&kept&Hall&Hlen&Hrm).
  set (t1 := process_pruned_blocks ids t) in *.
  pose proof (rm_rest _ _ _ _ Hrm) as [= Eo Ec Eh Eq Ew Ecc Em].
  destruct (commit_root_stored t t1 (pb_id b) ids.*2 removed kept) as [lr Hlr]; [done..|].
  unfold commit_callback. rewrite Hb, Hroot, Hcrr, Hround, (proj2 (Z.leb_gt _ _)) by done.
  unfold WrappedLedgerInfo_create_merged_with_executed_state. rewrite Hmatch. simpl.
  set (proof := {| wli_vote_data := _ |}).
  assert (wli_commit_info proof =
    LedgerInfo_commit_info (LedgerInfoWithSignatures_ledger_info decision)) as Hp by done.
  rewrite Hfind. fold t1. unfold update_highest_commit_cert. rewrite Hp, Ecc, Hcr, Hid.
  pose proof (ti_commit_cert _ Hinv) as Hcc. rewrite (proj2 (Z.ltb_lt _ _)) by lia.
  unfold update_commit_and_finalized_root, BlockTree_get_block. simpl. rewrite Hlr. simpl.
  eexists _, ids.*2, removed, kept. split; [reflexivity|]. unfold live. simpl.
  split_and!; try done.
  - intros o Ho. apply (commit_inv t t1 (pb_id b) ids.*2 removed kept); try done; simpl.
    + apply (f_equal length) in Hall. rewrite !length_app in *. lia.
    + by apply (rm_pruned _ _ _ _ Hrm).
    + rewrite Hp. lia.
    + congruence.
  - intros x. apply (commit_subtree t t1 (pb_id b) ids.*2 removed kept); done.
  - by apply (rm_pruned _ _ _ _ Hrm).
  - apply (rm_blocks _ _ _ _ Hrm).
Qed.

(** ** Insertions *)

(** [m'] is [m] with the block [b], linked from its parent if that is stored. *)
Record extends (m m' : gmap HashValue LinkableBlock) (b : PipelinedBlock) : Prop := {
  ex_fresh : m !! pb_id b = None;
  ex_new : m' !! pb_id b = Some (LinkableBlock_new b);
  ex_old x : x ≠ pb_id b → lb_executed_block <$> m' !! x = lb_executed_block <$> m !! x;
  ex_child a c : child m' a c ↔
    child m a c ∨ (a = pb_parent_id b ∧ c = pb_id b ∧ is_Some (m !! a));
}.

Lemma extends_stored m m' b x : extends m m' b → is_Some (m !! x) → is_Some (m' !! x).
Proof using Type.
  intros Hex [lb Hx]. destruct (decide (x = pb_id b)) as [->|Hne].
  - rewrite (ex_new _ _ _ Hex). eauto.
  - pose proof (ex_old _ _ _ Hex x Hne) as Hold. rewrite Hx in Hold.
    destruct (m' !! x) eqn:E; [eauto|discriminate].
Qed.

Lemma extends_linked m m' b : extends m m' b → block_rounds b → linked m → linked m'.
Proof using Type.
  intros Hex Hb Hl.
  assert (Hold : ∀ k lb, m' !! k = Some lb → lb_executed_block lb = b ∧ k = pb_id b ∨
    ∃ lb', m !! k = Some lb' ∧ lb_executed_block lb = lb_executed_block lb').
  { intros k lb Hk. destruct (decide (k = pb_id b)) as [->|Hne].
    - rewrite (ex_new _ _ _ Hex) in Hk. injection Hk as <-. by left.
    - pose proof (ex_old _ _ _ Hex k Hne) as Ho. rewrite Hk in Ho. symmetry in Ho.
      apply fmap_Some in Ho as (lb'&?&?). right. by exists lb'. }
  split.
  - intros k lb [[Hlb ->]|(lb'&Hk&Hlb)]%Hold; unfold lb_id; rewrite Hlb; [done|].
    by apply (linked_id _ Hl).
  - intros k lb [[-> ->]|(lb'&Hk&->)]%Hold; [done|]. by apply (linked_rounds _ Hl k).
  - intros k c [Hc|(->&->&_)]%(ex_child _ _ _ Hex).
    + destruct (linked_child _ Hl _ _ Hc) as (lc&Hlc&Hp).
      assert (c ≠ pb_id b) as Hne. { intros ->. by rewrite (ex_fresh _ _ _ Hex) in Hlc. }
      pose proof (ex_old _ _ _ Hex c Hne) as Ho. rewrite Hlc in Ho.
      apply fmap_Some in Ho as (lc'&?&Heq). exists lc'. by rewrite <- Heq.
    + eexists. split; [apply (ex_new _ _ _ Hex)|done].
Qed.

(** Seen from the blocks that were there, the tree has not changed. *)
Lemma extends_subtree m m' b r x :
  extends m m' b → is_Some (m !! x) → subtree m' r x ↔ subtree m r x.
Proof using Type.
  intros Hex Hx. split.
  - intros Hs. revert Hx.
    refine (rtc_ind_r (λ x, is_Some (m !! x) → subtree m r x) r _ _ x Hs); [constructor|].
    intros y z _ Hc IH Hz. apply (ex_child _ _ _ Hex) in Hc as [Hc|(_&->&_)].
    + eapply rtc_r; [apply IH; by eapply child_stored|done].
    + rewrite (ex_fresh _ _ _ Hex) in Hz. by destruct Hz.
  - apply rtc_subrel. intros a c Hc. apply (ex_child _ _ _ Hex). by left.
Qed.

Lemma extends_inv t m' b :
  tree_inv t → block_rounds b → extends (bt_id_to_block t) m' b → tree_inv (with_blocks m' t).
Proof using Type.
  intros Hinv Hb Hex. pose proof (ti_linked _ Hinv) as Hl.
  assert (Hstored : ∀ x, live t x → is_Some (bt_id_to_block t !! x)).
  { intros x Hx. eapply subtree_stored; [done|apply (ti_commit_root _ Hinv)|exact Hx]. }
  assert (Hlive : ∀ x, is_Some (bt_id_to_block t !! x) → live (with_blocks m' t) x ↔ live t x).
  { intros x Hx. by apply extends_subtree with b. }
  assert (Hchild : ∀ p x, is_Some (bt_id_to_block t !! x) → child m' p x →
    child (bt_id_to_block t) p x).
  { intros p x Hx [?|(_&->&_)]%(ex_child _ _ _ Hex); [done|].
    rewrite (ex_fresh _ _ _ Hex) in Hx. by destruct Hx. }
  pose proof Hinv as [_ Hroot Ho Hc Hnd Hps Hpd Hpo Hcp Hlen Hcc Hhq Hqcs].
  split; try done; simpl.
  - by eapply extends_linked.
  - by eapply extends_stored.
  - apply Hlive; auto.
  - apply Hlive; auto.
  - intros x Hx. eapply extends_stored; [done|auto].
  - intros x Hx Hlv. apply (Hpd x Hx), Hlive; auto.
  - intros p x l1 l2 Hch Heq. eapply Hpo; [|done]. apply Hchild; [|done].
    apply Hps. rewrite Heq. apply elem_of_app. right. by left.
  - intros p Hch. apply Hcp. by apply Hchild.
  - intros k qc (?&?&?&?)%Hqcs. split_and!; try done. by eapply extends_stored.
Qed.

Lemma extends_parent m b lp :
  m !! pb_id b = None → m !! pb_parent_id b = Some lp →
  extends m (<[pb_id b := LinkableBlock_new b]> (<[pb_parent_id b :=
    {| lb_executed_block := lb_executed_block lp; lb_children := {[pb_id b]} ∪ lb_children lp |}]> m))
    b.
Proof using Type.
  intros Hf Hp. assert (pb_parent_id b ≠ pb_id b) as Hne by congruence.
  split; [done|by rewrite lookup_insert_eq| |].
  - intros x Hx. rewrite lookup_insert_ne by done.
    destruct (decide (pb_parent_id b = x)) as [<-|?].
    + by rewrite lookup_insert_eq, Hp.
    + by rewrite lookup_insert_ne.
  - intros a c. unfold child. destruct (decide (pb_id b = a)) as [<-|Ha].
    { rewrite lookup_insert_eq, Hf. split; [intros (?&[= <-]&Hc); by apply elem_of_empty in Hc|].
      intros [(?&?&_)|(?&_)]; congruence. }
    rewrite lookup_insert_ne by done. destruct (decide (pb_parent_id b = a)) as [<-|Hpa].
    + rewrite lookup_insert_eq, Hp. split.
      * intros (?&[= <-]&Hc). simpl in Hc.
        apply elem_of_union in Hc as [->%elem_of_singleton|Hc]; [right|left]; eauto.
      * intros [(?&[= <-]&Hc)|(_&->&_)]; eexists; (split; [done|]); simpl; apply elem_of_union.
        -- by right.
        -- left. by apply elem_of_singleton.
    + rewrite lookup_insert_ne by done. split; [by left|]. intros [?|(?&_)]; [done|congruence].
Qed.

Lemma extends_orphan m b :
  m !! pb_id b = None → m !! pb_parent_id b = None →
  extends m (<[pb_id b := LinkableBlock_new b]> m) b.
Proof using Type.
  intros Hf Hp. split; [done|by rewrite lookup_insert_eq|intros x ?; by rewrite lookup_insert_ne|].
  intros a c. unfold child. destruct (decide (pb_id b = a)) as [<-|Ha].
  - rewrite lookup_insert_eq, Hf. split; [intros (?&[= <-]&Hc); by apply elem_of_empty in Hc|].
    intros [(?&?&_)|(_&_&?&?)]; congruence.
  - rewrite lookup_insert_ne by done. split; [by left|].
    intros [?|(->&_&?&?)]; [done|congruence].
Qed.

(** What an insertion does: it fails without a trace in the links, finds the
    block, or adds it. *)
Lemma insert_block_spec t block t' res :
  tree_inv t → tree_op_ok t (OpInsertBlock block) →
  BlockTree_insert_block block t = (t', res) →
  res ≠ Panic ∧ tree_inv t' ∧
  match res with
  | Ok b => BlockTree_get_block (pb_id block) t' = Some b
  | _ => BlockTree_get_block (pb_parent_id block) t = None ∧ bt_id_to_block t' = bt_id_to_block t
  end.
Proof using Type.
  intros Hinv [Hb Hsame]. unfold BlockTree_insert_block.
  set (t1 := if block_is_nil_block (pb_block block) then t else _).
  assert (Hm : bt_id_to_block t1 = bt_id_to_block t) by (unfold t1; by case_match).
  assert (Hinv1 : tree_inv t1). { unfold t1. case_match; [done|]. by destruct Hinv; split. }
  assert (Hget : ∀ k, BlockTree_get_block k t1 = BlockTree_get_block k t).
  { intros k. unfold BlockTree_get_block. by rewrite Hm. }
  rewrite Hget. destruct (BlockTree_get_block (pb_id block) t) as [old|] eqn:Hold.
  { rewrite bool_decide_true by (by apply Hsame). intros [= <- <-].
    split_and!; [done|done|by rewrite Hget]. }
  unfold BlockTree_get_block in Hold. apply fmap_None in Hold. rewrite <- Hm in Hold.
  destruct (bt_id_to_block t1 !! pb_parent_id block) as [lp|] eqn:Hp.
  - unfold LinkableBlock_add_child. rewrite bool_decide_false.
    + intros [= <- <-]. split_and!; [done|eapply extends_inv; [done..|by apply extends_parent]|].
      unfold BlockTree_get_block. simpl. by rewrite lookup_insert_eq.
    + intros Hc. destruct (linked_child _ (ti_linked _ Hinv1) (pb_parent_id block) (pb_id block))
        as (?&?&_); [by exists lp|congruence].
  - case_bool_decide as Hg; intros [= <- <-].
    + split_and!; [done|done| |done]. unfold BlockTree_get_block. by rewrite <- Hm, Hp.
    + split_and!; [done|eapply extends_inv; [done..|by apply extends_orphan]|].
      unfold BlockTree_get_block. simpl. by rewrite lookup_insert_eq.
Qed.

Lemma raise_highest_quorum_cert_spec t qc lb :
  tree_inv t → tree_op_ok t (OpInsertQuorumCert qc) →
  bt_id_to_block t !! BlockInfo_id (qc_certified_block qc) = Some lb →
  ∃ t1, raise_highest_quorum_cert qc (lb_executed_block lb) t = Ok t1 ∧ tree_inv t1 ∧
    bt_id_to_block t1 = bt_id_to_block t ∧
    round_of (BlockInfo_id (qc_certified_block qc)) ≤ round_of (bt_highest_certified_block_id t1).
Proof using Type.
  intros Hinv Hok Hlb. pose proof (ti_linked _ Hinv) as Hl. simpl in Hok.
  destruct (subtree_stored _ _ _ Hl (ti_commit_root _ Hinv) (ti_certified _ Hinv)) as [lh Hlh].
  unfold raise_highest_quorum_cert, BlockTree_highest_certified_block, expect_block,
    BlockTree_get_block. rewrite Hlh. simpl.
  pose proof (linked_id _ Hl _ _ Hlb) as Hid. unfold lb_id in Hid.
  rewrite (linked_round _ _ _ Hl Hlb), (linked_round _ _ _ Hl Hlh), Hid.
  destruct (Z.ltb_spec (round_of (bt_highest_certified_block_id t))
    (round_of (BlockInfo_id (qc_certified_block qc)))) as [Hlt|Hge].
  - eexists. split; [done|]. split_and!; [|done|simpl; lia].
    specialize (Hok Hlt ltac:(eauto)).
    destruct Hinv as [? ? ? ? ? ? ? ? ? ? ? ? Hqcs]. split; try done.
    intros k q (?&?&?&?)%Hqcs. simpl. split_and!; try done. lia.
  - exists t. split_and!; [done..|lia].
Qed.

(** A certificate of a known block is stored, and only it. *)
Lemma insert_quorum_cert_spec t qc t' res :
  tree_inv t → tree_op_ok t (OpInsertQuorumCert qc) →
  BlockTree_insert_quorum_cert qc t = (t', res) →
  res ≠ Panic ∧ tree_inv t'.
Proof using Type.
  intros Hinv Hok. unfold BlockTree_insert_quorum_cert.
  destruct (BlockTree_get_block _ t) as [b|] eqn:Hb; [|by intros [= <- <-]].
  apply get_block_Some in Hb as (lb&Hlb&<-).
  destruct (raise_highest_quorum_cert_spec _ _ _ Hinv Hok Hlb) as (t1&->&Hinv1&Hm&Hge).
  rewrite <- Hm in Hlb. clear Hm Hinv Hok t. intros [= <- <-]. split; [done|].
  set (ordered := if _ <? _ then qc_into_wrapped_ledger_info qc else _).
  assert (Ho : BlockInfo_round (qc_commit_info qc) ≤ BlockInfo_round (wli_commit_info ordered) ∧
    BlockInfo_round (wli_commit_info (bt_highest_ordered_cert t1))
      ≤ BlockInfo_round (wli_commit_info ordered)).
  { unfold ordered. destruct (Z.ltb_spec
      (BlockInfo_round (wli_commit_info (bt_highest_ordered_cert t1)))
      (BlockInfo_round (qc_commit_info qc))) as [?|?]; [|lia].
    change (wli_commit_info (qc_into_wrapped_ledger_info qc)) with (qc_commit_info qc). lia. }
  destruct Hinv1 as [? ? ? ? ? ? ? ? ? ? ? ? Hqcs]. split; try done. simpl.
  assert (Hold : ∀ k q, bt_id_to_quorum_cert t1 !! k = Some q →
    is_Some (bt_id_to_block t1 !! k) ∧ BlockInfo_id (qc_certified_block q) = k ∧
    round_of k ≤ round_of (bt_highest_certified_block_id t1) ∧
    BlockInfo_round (qc_commit_info q) ≤ BlockInfo_round (wli_commit_info ordered)).
  { intros k q (?&?&?&?)%Hqcs. split_and!; try done. lia. }
  intros k q. unfold or_insert. case_match; [apply Hold|].
  intros [[<- <-]|[_ Hk]]%lookup_insert_Some; [|by apply Hold].
  split_and!; [eauto|done|done|lia].
Qed.

Lemma insert_ordered_cert_inv t cert : tree_inv t → tree_inv (insert_ordered_cert cert t).
Proof using Type.
  intros Hinv. unfold insert_ordered_cert. case_match eqn:Hlt; [|done]. bool_to_prop.
  destruct Hinv as [? ? ? ? ? ? ? ? ? ? ? ? Hqcs]. split; try done. simpl.
  intros k q (?&?&?&?)%Hqcs. split_and!; try done. lia.
Qed.

Lemma update_ordered_root_spec t root_id :
  tree_inv t → live t root_id →
  (update_ordered_root root_id t).2 = Ok tt ∧ tree_inv (update_ordered_root root_id t).1.
Proof using Type.
  intros Hinv Hlive. unfold update_ordered_root, BlockTree_block_exists.
  rewrite bool_decide_true.
  - split; [done|]. by destruct Hinv; split.
  - eapply subtree_stored; [apply Hinv|apply (ti_commit_root _ Hinv)|exact Hlive].
Qed.

Lemma commit_call_spec t blocks finality_proof decision :
  tree_inv t → tree_op_ok t (OpCommit blocks finality_proof decision) →
  (commit_callback blocks finality_proof decision t).2 = Ok tt ∧
  tree_inv (commit_callback blocks finality_proof decision t).1.
Proof using Type.
  intros Hinv (b&Hlast&Hok).
  destruct (Z.le_gt_cases (pb_round b) (round_of (bt_commit_root_id t))) as [Hle|Hlt].
  - destruct (commit_root_Ok _ Hinv) as (cr&Hcr&Hround).
    unfold commit_callback. rewrite Hlast, Hcr, Hround, (proj2 (Z.leb_le _ _)) by done. done.
  - destruct Hok as [?|(Hround&Hc&Hso)]; [lia|].
    destruct (commit_callback_spec _ _ _ _ _ Hinv Hlast Hround Hlt Hc) as (t'&?&?&?&->&Ht'&Ho&_).
    split; [done|]. specialize (Ht' _ Hso). rewrite <- Ho in Ht'. by destruct t'.
Qed.

Lemma recover_commit_spec t blocks finality_proof :
  tree_inv t → tree_op_ok t (OpRecover blocks finality_proof) →
  (recover_commit blocks finality_proof t).2 = Ok tt ∧
  tree_inv (recover_commit blocks finality_proof t).1.
Proof using Type.
  intros Hinv (b&Hlast&Hround&Hlt&Hc).
  destruct (commit_callback_spec _ _ _ _ _ Hinv Hlast Hround Hlt Hc) as (t'&?&?&?&Heq&Ht'&_&Hr&_).
  unfold recover_commit, mbind, SM_bind. rewrite Heq.
  pose proof (commits_id _ _ _ _ Hc) as Hid.
  change (BlockInfo_id (wli_commit_info finality_proof) = pb_id b) in Hid. rewrite Hid.
  specialize (Ht' (pb_id b) (rtc_refl _ _)).
  pose proof (ti_commit_root _ Ht') as Hst. simpl in Hst. rewrite Hr in Hst.
  unfold update_ordered_root, BlockTree_block_exists. rewrite bool_decide_true by done.
  split; [done|]. by apply insert_ordered_cert_inv.
Qed.

Lemma tree_call_spec t op :
  tree_inv t → tree_op_ok t op → (tree_call op t).2 ≠ Panic ∧ tree_inv (tree_call op t).1.
Proof using Type.
  intros Hinv Hok. destruct op as [b|qc|cert|tc|root|blocks fp d|blocks fp]; simpl.
  - unfold mbind, SM_bind. destruct (BlockTree_insert_block b t) as [t' res] eqn:Heq.
    destruct (insert_block_spec _ _ _ _ Hinv Hok Heq) as (?&?&_). by destruct res.
  - destruct (BlockTree_insert_quorum_cert qc t) as [t' res] eqn:Heq.
    by apply (insert_quorum_cert_spec _ _ _ _ Hinv Hok Heq).
  - split; [done|by apply insert_ordered_cert_inv].
  - split; [done|]. by destruct Hinv; split.
  - destruct (update_ordered_root_spec _ _ Hinv Hok) as [-> ?]. done.
  - destruct (commit_call_spec _ _ _ _ Hinv Hok) as [-> ?]. done.
  - destruct (recover_commit_spec _ _ _ Hinv Hok) as [-> ?]. done.
Qed.

Lemma tree_new_inv root qc ordered commit max tc t :
  BlockTree_new root qc ordered commit max tc = Ok t → block_rounds root →
  BlockInfo_id (qc_certified_block qc) = pb_id root →
  BlockInfo_round (qc_commit_info qc) ≤ BlockInfo_round (wli_commit_info ordered) →
  BlockInfo_round (wli_commit_info commit) ≤ pb_round root → tree_inv t.
Proof using Type.
  unfold BlockTree_new. case_bool_decide as Hroot; [|done]. intros [= <-] [Hr Hp] Hqc Ho Hc.
  assert (Hchild : ∀ a c, ¬ child {[pb_id root := LinkableBlock_new root]} a c).
  { intros a c (lb&[_ <-]%lookup_singleton_Some&Hx). by apply elem_of_empty in Hx. }
  split; simpl; unfold live; try apply rtc_refl; try done; try (intros x Hx; by apply elem_of_nil in Hx).
  - split; [by intros k lb [<- <-]%lookup_singleton_Some..|]. intros k c Hx. by apply Hchild in Hx.
  - rewrite lookup_singleton_eq. eauto.
  - constructor.
  - intros p x l1 l2 Hx. by apply Hchild in Hx.
  - intros p Hx. by apply Hchild in Hx.
  - lia.
  - lia.
  - intros k q [<- <-]%lookup_singleton_Some. rewrite Hqc, lookup_singleton_eq.
    split_and!; [eauto|done|lia|done].
Qed.

Lemma tree_history_inv t : tree_history t → tree_inv t.
Proof using Type.
  induction 1; [by eapply tree_new_inv|]. by apply tree_call_spec.
Qed.

(** ** Paths *)

(** The chain of parent links from a block back to [root], oldest block first. *)
Inductive parent_path (t : BlockTree) (root : HashValue) :
    HashValue → list PipelinedBlock → Prop :=
| PathRoot : parent_path t root root []
| PathBlock x b path :
    BlockTree_get_block x t = Some b → parent_path t root (pb_parent_id b) path →
    parent_path t root x (path ++ [b]).

Section paths.
Context (t : BlockTree) (Hl : linked (bt_id_to_block t)).

Lemma get_block_rounds k b :
  BlockTree_get_block k t = Some b →
  is_Some (bt_id_to_block t !! k) ∧ pb_id b = k ∧ pb_round b = round_of k ∧
  round_of (pb_parent_id b) < round_of k.
Proof using Hl.
  intros (lb&Hk&<-)%get_block_Some. split_and!; [eauto|by apply (linked_id _ Hl)| |].
  - by apply (linked_round _ _ _ Hl).
  - by apply (linked_parent _ _ _ Hl).
Qed.

Lemma parent_path_rounds root x path :
  parent_path t root x path → round_of root ≤ round_of x.
Proof using Hl.
  induction 1 as [|x b path Hb _ IH]; [lia|]. apply get_block_rounds in Hb as (_&_&_&?). lia.
Qed.

(** [o] is the right answer of the loop at the block [cur], with [res] behind it. *)
Definition path_answer (root : HashValue) (res : list PipelinedBlock) (cur : HashValue)
    (o : option (HashValue * list PipelinedBlock)) : Prop :=
  (∀ c path, o = Some (c, path) → ∃ q, path = res ++ q) ∧
  ∀ p, (∃ q, o = Some (root, res ++ q) ∧ reverse q = p) ↔ parent_path t root cur p.

Lemma path_answer_missing root res cur :
  is_Some (bt_id_to_block t !! root) → BlockTree_get_block cur t = None →
  path_answer root res cur None.
Proof using Type.
  intros [lr Hr] Hb. split; [done|]. intros p. split; [by intros (?&?&_)|].
  inversion 1; subst; [|congruence]. unfold BlockTree_get_block in Hb. by rewrite Hr in Hb.
Qed.

Lemma path_answer_stop root res cur :
  round_of cur ≤ round_of root → path_answer root res cur (Some (cur, res)).
Proof using Hl.
  intros Hle. split; [intros ?? [= <- <-]; exists []; by rewrite app_nil_r|]. intros p. split.
  - intros (q&[= -> Hq]&<-). rewrite <- (app_nil_r res) in Hq at 1.
    apply app_inv_head in Hq as <-. constructor.
  - inversion 1 as [|? b ? Hb Hp]; subst; [exists []; by rewrite app_nil_r|].
    apply parent_path_rounds in Hp. apply get_block_rounds in Hb as (_&_&_&?). lia.
Qed.

Lemma path_answer_step root res cur b o :
  BlockTree_get_block cur t = Some b → round_of root < round_of cur →
  path_answer root (res ++ [b]) (pb_parent_id b) o → path_answer root res cur o.
Proof using Hl.
  intros Hb Hgt [Hext Hans]. split.
  - intros c path (q&->)%Hext. exists (b :: q). by rewrite <- app_assoc.
  - intros p. split.
    + intros (q&Ho&<-). destruct (Hext _ _ Ho) as (q'&Hq).
      rewrite <- app_assoc in Hq. apply app_inv_head in Hq as ->.
      rewrite app_assoc in Ho. simpl. rewrite reverse_cons.
      econstructor; [done|]. apply Hans. by exists q'.
    + inversion 1 as [|? b' path Hb' Hp]; subst; [lia|]. rewrite Hb in Hb'. injection Hb' as <-.
      apply Hans in Hp as (q&->&<-). exists (b :: q).
      by rewrite <- app_assoc, reverse_cons.
Qed.

(** Rounds fall along parent links, so no block is visited twice. *)
Lemma path_loop_spec root fuel cur res :
  is_Some (bt_id_to_block t !! root) →
  (∀ b, b ∈ res → is_Some (bt_id_to_block t !! pb_id b) ∧ round_of cur < round_of (pb_id b)) →
  NoDup (pb_id <$> res) → (size (bt_id_to_block t) ≤ fuel + length res)%nat →
  ∃ o, path_loop fuel t (round_of root) cur res = Ok o ∧ path_answer root res cur o.
Proof using Hl.
  intros Hroot. revert cur res. induction fuel as [|fuel IH]; intros cur res Hres Hnd Hf; simpl.
  all: destruct (BlockTree_get_block cur t) as [b|] eqn:Hb;
    [|eexists; split; [reflexivity|by apply path_answer_missing]].
  all: pose proof (get_block_rounds _ _ Hb) as (Hst&Hid&Hround&Hpar); rewrite Hround.
  all: destruct (Z.leb_spec (round_of cur) (round_of root)) as [Hle|Hgt];
    [eexists; split; [reflexivity|by apply path_answer_stop]|].
  all: assert (Hnew : cur ∉ pb_id <$> res);
    [intros (b'&->&Hb')%list_elem_of_fmap; destruct (Hres _ Hb') as [_ ?]; lia|].
  - exfalso. pose proof (list_length_dom (bt_id_to_block t) (cur :: (pb_id <$> res))) as Hlen.
    simpl in Hlen. rewrite length_fmap in Hlen. simpl in Hf.
    cut (S (length res) ≤ size (bt_id_to_block t))%nat; [lia|].
    apply Hlen; [by constructor|].
    intros x [->|(b'&->&Hb')%list_elem_of_fmap]%elem_of_cons; [done|]. by apply Hres.
  - destruct (IH (pb_parent_id b) (res ++ [b])) as (o&Ho&Hans).
    + intros b' [Hb'|Hb']%elem_of_app.
      * destruct (Hres _ Hb') as [? ?]. split; [done|lia].
      * apply list_elem_of_singleton in Hb' as ->. by rewrite Hid.
    + rewrite fmap_app. simpl. rewrite Hid. apply NoDup_app. split_and!; [done| |apply NoDup_singleton].
      intros x Hx ->%list_elem_of_singleton. done.
    + rewrite length_app. simpl. lia.
    + exists o. split; [done|]. by eapply path_answer_step.
Qed.

Lemma path_answer_Ok root_id root block_id :
  BlockTree_get_block root_id t = Some root →
  ∃ answer, path_from_root_to_block block_id root_id (pb_round root) t = Ok answer ∧
    ∀ path, answer = Some path ↔ parent_path t root_id block_id path.
Proof using Hl.
  intros Hroot. destruct (get_block_rounds _ _ Hroot) as (Hst&_&Hround&_).
  destruct (path_loop_spec root_id (size (bt_id_to_block t)) block_id [])
    as (o&Ho&_&Hans); [done|intros ? Hx; by apply elem_of_nil in Hx|constructor|simpl; lia|].
  unfold path_from_root_to_block. rewrite Hround, Ho. simpl.
  destruct o as [[c res]|]; [case_bool_decide as Hc|]; eexists; (split; [done|]); intros path;
    rewrite <- Hans; simpl.
  - split; [done|]. intros (q&[= ? _]&_). congruence.
  - subst c. split.
    + intros [= <-]. by exists res.
    + intros (q&[= <-]&<-). done.
  - split; [done|]. by intros (?&?&_).
Qed.

End paths.

(** C11. The invariant of the block tree.  In every history of calls that
    respects the callers' obligations, blocks are stored under their ids,
    parent and child links agree, the roots and the highest certified block
    are in the tree below the commit root, certificates belong to stored
    blocks and none is above the highest one, and what waits for removal is
    apart from the tree, bounded and in the order in which it may go; and no
    such call panics. *)
Theorem block_tree_invariant t op :
  tree_history t → tree_op_ok t op →
  tree_inv t ∧ tree_inv (tree_call op t).1 ∧ (tree_call op t).2 ≠ Panic.
Proof using Type.
  intros Hinv%tree_history_inv Hok. destruct (tree_call_spec _ _ Hinv Hok). done.
Qed.

(** C12. Pruning is exact.  A commit above the commit root makes the committed
    block the commit root; the tree below it is what was below it before, and
    the ids queued for removal are those of the other blocks below the old
    root, each once.  The oldest ids beyond the bound, and only those, lose
    their blocks. *)
Theorem commit_prunes_exactly t blocks finality_proof decision b :
  tree_history t → last blocks = Some b → pb_round b = round_of (pb_id b) →
  round_of (bt_commit_root_id t) < pb_round b → commits t finality_proof decision (pb_id b) →
  ∃ t' newly removed kept,
    commit_callback blocks finality_proof decision t = (t', Ok tt) ∧
    bt_commit_root_id t' = pb_id b ∧
    (∀ x, live t' x ↔ subtree (bt_id_to_block t) (pb_id b) x) ∧
    NoDup newly ∧
    (∀ x, x ∈ newly ↔ live t x ∧ ¬ subtree (bt_id_to_block t) (pb_id b) x) ∧
    bt_pruned_block_ids t ++ newly = removed ++ kept ∧
    length removed =
      (length (bt_pruned_block_ids t ++ newly) - bt_max_pruned_blocks_in_mem t)%nat ∧
    bt_pruned_block_ids t' = kept ∧
    (∀ x, bt_id_to_block t' !! x = if decide (x ∈ removed) then None else bt_id_to_block t !! x).
Proof using Type.
  intros Hinv%tree_history_inv Hb Hround Hlt Hc.
  destruct (commit_callback_spec _ _ _ _ _ Hinv Hb Hround Hlt Hc) as (t'&n&r&k&?&_&_&?).
  by exists t', n, r, k.
Qed.

(** Paths.  From a stored root, the walk along parent links always ends,
    and it returns exactly the chain from the root to the block: a list iff
    that list is the chain, and nothing iff the block does not descend from
    the root. *)
Theorem path_from_root_exact t root_id root block_id :
  tree_history t → BlockTree_get_block root_id t = Some root →
  ∃ answer, path_from_root_to_block block_id root_id (pb_round root) t = Ok answer ∧
    ∀ path, answer = Some path ↔ parent_path t root_id block_id path.
Proof using Type.
  intros Hinv%tree_history_inv. by apply path_answer_Ok, ti_linked.
Qed.

End tree_safety.
