(* ===== verification/PendingBlocks.v ===== *)
(** Blocks that arrive before they are asked for:
    consensus/src/block_storage/pending_blocks.rs.

    A sender of a oneshot channel is a number; a call returns what it sends. *)
From S2P Require Import Prelude Laptos Payload Certificates Block.

Section pending_blocks.
Context `{L : Laptos}.

Record PendingBlocks : Type := {
  blocks_by_hash : gmap HashValue Block;
  blocks_by_round : gmap Z Block;
  pending_request : option (HashValue * nat);
}.

Definition PendingBlocks_new : PendingBlocks :=
  {| blocks_by_hash := ∅; blocks_by_round := ∅; pending_request := None |}.

Definition PendingBlocks_insert_block (block : Block) (self : PendingBlocks) :
    PendingBlocks * option (nat * Block) :=
  let by_hash := <[block_id block := block]> (blocks_by_hash self) in
  let by_round := <[block_round block := block]> (blocks_by_round self) in
  match pending_request self with
  | Some (id, tx) =>
      if bool_decide (id = block_id block) then
        ({| blocks_by_hash := by_hash; blocks_by_round := by_round; pending_request := None |},
         Some (tx, block))
      else
        ({| blocks_by_hash := by_hash; blocks_by_round := by_round;
            pending_request := Some (id, tx) |}, None)
  | None =>
      ({| blocks_by_hash := by_hash; blocks_by_round := by_round; pending_request := None |}, None)
  end.

Definition PendingBlocks_insert_request (block_id : HashValue) (tx : nat) (self : PendingBlocks) :
    PendingBlocks * option (nat * Block) :=
  match blocks_by_hash self !! block_id with
  | Some block => (self, Some (tx, block))
  | None =>
      ({| blocks_by_hash := blocks_by_hash self; blocks_by_round := blocks_by_round self;
          pending_request := Some (block_id, tx) |}, None)
  end.

Definition gc_round (r : Z) (self : PendingBlocks) : PendingBlocks :=
  match blocks_by_round self !! r with
  | Some block =>
      {| blocks_by_hash := delete (block_id block) (blocks_by_hash self);
         blocks_by_round := delete r (blocks_by_round self);
         pending_request := pending_request self |}
  | None => self
  end.

Definition PendingBlocks_gc (round : Z) (self : PendingBlocks) : PendingBlocks :=
  let to_remove := filter (λ r, r ≤ round) (btree_list Z.le (blocks_by_round self)).*1 in
  foldl (λ self r, gc_round r self) self to_remove.

(** ** Histories *)

Inductive pending_op : Type :=
| PendBlock (block : Block)
| PendRequest (block_id : HashValue) (tx : nat)
| PendGc (round : Z).

Definition pending_call (op : pending_op) (self : PendingBlocks) :
    PendingBlocks * option (nat * Block) :=
  match op with
  | PendBlock block => PendingBlocks_insert_block block self
  | PendRequest block_id tx => PendingBlocks_insert_request block_id tx self
  | PendGc round => (PendingBlocks_gc round self, None)
  end.

(** The state after some calls, and the blocks sent so far, the latest first. *)
Fixpoint pending_calls (ops : list pending_op) (self : PendingBlocks)
    (sent : list (nat * Block)) : PendingBlocks * list (nat * Block) :=
  match ops with
  | [] => (self, sent)
  | op :: ops =>
      let '(self', out) := pending_call op self in
      pending_calls ops self' (option_list out ++ sent)
  end.

(** The requests of a history. *)
Definition requested (ops : list pending_op) : list (HashValue * nat) :=
  omap (λ op, match op with PendRequest id tx => Some (id, tx) | _ => None end) ops.

(** Blocks are under their ids, and nobody waits for a block that is there. *)
Record pending_inv (ops : list pending_op) (self : PendingBlocks) (sent : list (nat * Block)) :
    Prop := {
  pend_ids id b : blocks_by_hash self !! id = Some b → block_id b = id;
  pend_waiting id tx : pending_request self = Some (id, tx) →
    blocks_by_hash self !! id = None ∧ (id, tx) ∈ requested ops;
  pend_sent tx b : (tx, b) ∈ sent → (block_id b, tx) ∈ requested ops;
}.

Lemma gc_round_shrinks r self :
  blocks_by_hash (gc_round r self) ⊆ blocks_by_hash self ∧
  pending_request (gc_round r self) = pending_request self.
Proof using Type.
  unfold gc_round. case_match; simpl; [|done]. split; [apply delete_subseteq|done].
Qed.

Lemma gc_shrinks rs self :
  blocks_by_hash (foldl (λ self r, gc_round r self) self rs) ⊆ blocks_by_hash self ∧
  pending_request (foldl (λ self r, gc_round r self) self rs) = pending_request self.
Proof using Type.
  revert self. induction rs as [|r rs IH]; intros self; simpl; [done|].
  destruct (IH (gc_round r self)) as [Hs Hp], (gc_round_shrinks r self) as [Hs' Hp'].
  split; [by etrans|congruence].
Qed.

Lemma requested_snoc ops op :
  requested (ops ++ [op]) =
  requested ops ++ option_list (match op with PendRequest id tx => Some (id, tx) | _ => None end).
Proof using Type. unfold requested. rewrite omap_app. by destruct op. Qed.

Lemma pending_call_inv ops self sent op :
  pending_inv ops self sent →
  pending_inv (ops ++ [op]) (pending_call op self).1
    (option_list (pending_call op self).2 ++ sent).
Proof using Type.
  intros [Hids Hwait Hsent].
  assert (Hsub : ∀ x, x ∈ requested ops → x ∈ requested (ops ++ [op])).
  { intros x Hx. rewrite requested_snoc. apply elem_of_app. by left. }
  destruct op as [b|id tx|round]; simpl.
  - unfold PendingBlocks_insert_block.
    destruct (pending_request self) as [[id tx]|] eqn:Hp; [case_bool_decide as Hid|];
      simpl; split; simpl; try done.
    all: try (intros i b' [[<- <-]|[_ ?]]%lookup_insert_Some; [done|by apply Hids]).
    + intros t b' [[= -> ->]|Hin]%elem_of_cons; [|by apply Hsub, Hsent].
      rewrite <- Hid. by apply Hsub, Hwait.
    + intros i t [= <- <-]. destruct (Hwait _ _ eq_refl) as [Hn Hin].
      split; [by rewrite lookup_insert_ne by done|by apply Hsub].
    + intros t b' Hin. by apply Hsub, Hsent.
    + intros t b' Hin. by apply Hsub, Hsent.
  - unfold PendingBlocks_insert_request.
    destruct (blocks_by_hash self !! id) as [b|] eqn:Hb; simpl; split; simpl; try done.
    + intros i t Hi. destruct (Hwait _ _ Hi). split; [done|by apply Hsub].
    + intros t b' [[= -> ->]|Hin]%elem_of_cons; [|by apply Hsub, Hsent].
      rewrite (Hids _ _ Hb), requested_snoc. apply elem_of_app. right. by left.
    + intros i t [= <- <-]. split; [done|]. rewrite requested_snoc. apply elem_of_app.
      right. by left.
    + intros t b' Hin. by apply Hsub, Hsent.
  - unfold PendingBlocks_gc. set (rs := filter _ _).
    destruct (gc_shrinks rs self) as [Hs Hp]. split.
    + intros i b Hb. apply Hids. by eapply lookup_weaken.
    + rewrite Hp. intros i t Hi. destruct (Hwait _ _ Hi) as [Hn Hin]. split; [|by apply Hsub].
      by eapply lookup_weaken_None.
    + intros t b Hin. by apply Hsub, Hsent.
Qed.

Lemma pending_calls_inv done ops self sent :
  pending_inv done self sent →
  pending_inv (done ++ ops) (pending_calls ops self sent).1 (pending_calls ops self sent).2.
Proof using Type.
  revert done self sent. induction ops as [|op ops IH]; intros dn self sent Hinv; simpl.
  - by rewrite app_nil_r.
  - pose proof (pending_call_inv _ _ _ op Hinv) as Hinv'.
    destruct (pending_call op self) as [self' out]. simpl in *.
    apply (IH (dn ++ [op])) in Hinv'. by rewrite <- app_assoc in Hinv'.
Qed.

(** Requests for pending blocks.  In every history, a block that is sent has
    the id its receiver asked for, and a request only waits while no block with
    its id is held: a block and the request for it never miss each other. *)
Theorem pending_requests_served ops self sent :
  pending_calls ops PendingBlocks_new [] = (self, sent) →
  (∀ tx b, (tx, b) ∈ sent → (block_id b, tx) ∈ requested ops) ∧
  (∀ id tx, pending_request self = Some (id, tx) →
     (id, tx) ∈ requested ops ∧ blocks_by_hash self !! id = None).
Proof using Type.
  intros Heq. assert (pending_inv [] PendingBlocks_new []) as H.
  { split; simpl; [intros ??; by rewrite lookup_empty|done|].
    intros ?? Hx. by apply elem_of_nil in Hx. }
  apply (pending_calls_inv [] ops) in H. rewrite Heq in H. destruct H as [_ Hw Hs].
  split; [exact Hs|]. intros id tx Hp. destruct (Hw _ _ Hp). done.
Qed.

(** A held block that the index by rounds does not know. *)
Definition shadowed (b1 : Block) (self : PendingBlocks) : Prop :=
  blocks_by_hash self !! block_id b1 = Some b1 ∧
  ∀ r b, blocks_by_round self !! r = Some b → block_id b ≠ block_id b1.

Lemma gc_shadowed b1 rs self :
  shadowed b1 self → shadowed b1 (foldl (λ self r, gc_round r self) self rs).
Proof using Type.
  revert self. induction rs as [|r rs IH]; intros self [Hh Hr]; simpl; [done|].
  apply IH. unfold gc_round. destruct (blocks_by_round self !! r) as [b|] eqn:Hb; [|done].
  split; simpl.
  - rewrite lookup_delete_ne; [done|by eapply Hr].
  - intros r' b' [_ ?]%lookup_delete_Some. by eapply Hr.
Qed.

Lemma insert_block_shadowed b1 b self :
  block_id b ≠ block_id b1 → shadowed b1 self →
  shadowed b1 (PendingBlocks_insert_block b self).1.
Proof using Type.
  intros Hne [Hh Hr]. unfold PendingBlocks_insert_block.
  repeat case_match; split; simpl; try (by rewrite lookup_insert_ne).
  all: intros r' b' [[_ <-]|[_ ?]]%lookup_insert_Some; [done|by eapply Hr].
Qed.

Lemma pending_calls_shadowed b1 ops self sent :
  (∀ b, PendBlock b ∈ ops → block_id b ≠ block_id b1) → shadowed b1 self →
  shadowed b1 (pending_calls ops self sent).1.
Proof using Type.
  revert self sent. induction ops as [|op ops IH]; intros self sent Hops Hs; simpl; [done|].
  assert (Hs' : shadowed b1 (pending_call op self).1).
  { destruct op as [b|id tx|round]; simpl.
    - apply insert_block_shadowed; [apply Hops; by left|done].
    - unfold PendingBlocks_insert_request. by case_match.
    - by apply gc_shadowed. }
  destruct (pending_call op self) as [self' out]. apply IH; [|done].
  intros b Hb. apply Hops. by right.
Qed.

(** A second block of a round makes the first one permanent.  When two
    blocks of one round are inserted, as an equivocating proposer can arrange,
    no garbage collection removes the first one, whatever round it is asked
    to clear. *)
Theorem pending_round_collision_leaks b1 b2 ops self sent :
  block_round b1 = block_round b2 → block_id b1 ≠ block_id b2 →
  (∀ b, b ∈ (map_to_list (blocks_by_round self)).*2 → block_id b ≠ block_id b1) →
  (∀ b, PendBlock b ∈ ops → block_id b ≠ block_id b1) →
  blocks_by_hash (pending_calls (PendBlock b1 :: PendBlock b2 :: ops) self sent).1
    !! block_id b1 = Some b1.
Proof using Type.
  intros Hround Hid Hself Hops. simpl.
  assert (Hs : shadowed b1 (PendingBlocks_insert_block b2
    (PendingBlocks_insert_block b1 self).1).1).
  { assert (Hold : ∀ r b, r ≠ block_round b2 →
      <[block_round b1 := b1]> (blocks_by_round self) !! r = Some b → block_id b ≠ block_id b1).
    { intros r b Hr [[<- _]|[_ Hb]]%lookup_insert_Some; [done|]. apply Hself.
      apply list_elem_of_fmap. exists (r, b). split; [done|]. by apply elem_of_map_to_list. }
    assert (Hr : blocks_by_round (PendingBlocks_insert_block b1 self).1 =
                 <[block_round b1 := b1]> (blocks_by_round self) ∧
                 blocks_by_hash (PendingBlocks_insert_block b1 self).1 =
                 <[block_id b1 := b1]> (blocks_by_hash self)).
    { unfold PendingBlocks_insert_block. by repeat case_match. }
    destruct Hr as [Hr Hh]. unfold PendingBlocks_insert_block at 1. rewrite Hr, Hh.
    repeat case_match; split; simpl;
      try (rewrite lookup_insert_ne by done; by rewrite lookup_insert_eq).
    all: intros r b [[_ <-]|[? ?]]%lookup_insert_Some; [done|by eapply Hold]. }
  destruct (PendingBlocks_insert_block b1 self) as [self1 out1]. simpl in *.
  destruct (PendingBlocks_insert_block b2 self1) as [self2 out2]. simpl in *.
  apply (pending_calls_shadowed b1 ops self2); done.
Qed.

End pending_blocks.
