(* ===== verification/Recovery.v ===== *)
(** What a restarted validator reads from its database:
    consensus/src/persistent_liveness_storage.rs.

    The blocks, certificates and the last vote found in the database are
    arguments; the theorems are about the root that is chosen among them and
    the block tree that is built on it. *)
From S2P Require Import Prelude Laptos Payload Certificates Block Votes BlockBuffer Pipelined.
From S2P Require Import BlockTree.

Section recovery.
Context `{L : Laptos} `{G : !Gcei} `{!CryptoHash VoteData} `{!CryptoHash BlockData}.

Record RootInfo : Type := {
  ri_block : Block;
  ri_quorum_cert : QuorumCert;
  ri_ordered_cert : WrappedLedgerInfo;
  ri_commit_cert : WrappedLedgerInfo;
}.

Record LedgerRecoveryData : Type := { lrd_storage_ledger : LedgerInfoWithSignatures }.

Definition lrd_commit_info (self : LedgerRecoveryData) : BlockInfo :=
  LedgerInfo_commit_info (LedgerInfoWithSignatures_ledger_info (lrd_storage_ledger self)).
Definition committed_round (self : LedgerRecoveryData) : Z := BlockInfo_round (lrd_commit_info self).

(** [GENESIS_ROUND] is 0. *)
Definition is_epoch_start_timestamp_only_mismatch (ordered executed : BlockInfo) : bool :=
  (BlockInfo_epoch ordered =? BlockInfo_epoch executed) &&
  (BlockInfo_round ordered =? 0) && (BlockInfo_round executed =? 0) &&
  bool_decide (BlockInfo_id ordered = BlockInfo_id executed) &&
  bool_decide (BlockInfo_executed_state_id ordered = BlockInfo_executed_state_id executed) &&
  (BlockInfo_version ordered =? BlockInfo_version executed) &&
  bool_decide (BlockInfo_next_epoch_state ordered = BlockInfo_next_epoch_state executed) &&
  bool_decide (BlockInfo_epoch_block_info ordered = BlockInfo_epoch_block_info executed) &&
  negb (BlockInfo_timestamp_usecs ordered =? BlockInfo_timestamp_usecs executed).

(** [sort_by_key(|b| (b.epoch(), b.round()))] *)
Definition epoch_round_leb (a b : Block) : bool :=
  (block_epoch a <? block_epoch b) ||
  ((block_epoch a =? block_epoch b) && (block_round a <=? block_round b)).
Definition sort_blocks (blocks : list Block) : list Block := sort_by epoch_round_leb blocks.

(** Takes the first block for which [P] holds out of the list. *)
Definition take_block (P : Block → Prop) `{∀ b, Decision (P b)} (blocks : list Block)
    (e : anyhow) : result anyhow (Block * list Block) :=
  '(i, b) ← ok_or (list_find P blocks) e;
  Ok (b, delete i blocks).

Definition find_qc (P : QuorumCert → Prop) `{∀ q, Decision (P q)} (quorum_certs : list QuorumCert) :
    option QuorumCert :=
  snd <$> list_find P quorum_certs.

(** The commit certificate of a root whose ordering certificate is [ordered]. *)
Definition merge_commit_cert (root_commit_qc : QuorumCert)
    (latest_ledger_info_sig : LedgerInfoWithSignatures) : result anyhow WrappedLedgerInfo :=
  let root_ordered_cert := qc_into_wrapped_ledger_info root_commit_qc in
  match WrappedLedgerInfo_create_merged_with_executed_state root_ordered_cert
          latest_ledger_info_sig with
  | Ok root_commit_cert => Ok root_commit_cert
  | _ =>
      if is_epoch_start_timestamp_only_mismatch (wli_commit_info root_ordered_cert)
           (LedgerInfo_commit_info (LedgerInfoWithSignatures_ledger_info latest_ledger_info_sig))
      then Ok {| wli_vote_data := qc_vote_data root_commit_qc;
                 wli_signed_ledger_info := latest_ledger_info_sig |}
      else Panic
  end.

(** The root id and its ledger info; the virtual genesis block of a new epoch
    is added to the blocks and the certificates. *)
Definition ledger_root (self : LedgerRecoveryData) (blocks : list Block)
    (quorum_certs : list QuorumCert) :
    result anyhow (HashValue * LedgerInfoWithSignatures * list Block * list QuorumCert) :=
  let ledger_info := LedgerInfoWithSignatures_ledger_info (lrd_storage_ledger self) in
  if LedgerInfo_ends_epoch ledger_info then
    genesis ← Block_make_genesis_block_from_ledger_info ledger_info;
    genesis_qc ← QuorumCert_certificate_for_genesis_from_ledger_info ledger_info (block_id genesis);
    Ok (block_id genesis, qc_signed_ledger_info genesis_qc, blocks ++ [genesis],
        quorum_certs ++ [genesis_qc])
  else Ok (LedgerInfo_consensus_block_id ledger_info, lrd_storage_ledger self, blocks, quorum_certs).

(** The root, and what is left of the blocks and the certificates. *)
Definition LedgerRecoveryData_find_root (self : LedgerRecoveryData) (blocks : list Block)
    (quorum_certs : list QuorumCert) (order_vote_enabled : bool) :
    result anyhow (RootInfo * list Block * list QuorumCert) :=
  '(root_id, latest_ledger_info_sig, blocks, quorum_certs) ← ledger_root self blocks quorum_certs;
  '(root_block, blocks) ← take_block (λ b, block_id b = root_id) (sort_blocks blocks)
      "unable to find root"%string;
  root_quorum_cert ←
    ok_or (find_qc (λ qc, BlockInfo_id (qc_certified_block qc) = block_id root_block) quorum_certs)
      "No QC found for root"%string;
  '(root_ordered_cert, root_commit_cert) ←
    (if order_vote_enabled then
       let root_ordered_cert :=
         {| wli_vote_data := VoteData_dummy; wli_signed_ledger_info := latest_ledger_info_sig |} in
       Ok (root_ordered_cert, root_ordered_cert)
     else
       root_commit_qc ←
         ok_or (find_qc (λ qc, BlockInfo_id (qc_commit_info qc) = block_id root_block) quorum_certs)
           "No LI found for root"%string;
       root_commit_cert ← merge_commit_cert root_commit_qc latest_ledger_info_sig;
       Ok (qc_into_wrapped_ledger_info root_commit_qc, root_commit_cert));
  Ok ({| ri_block := root_block; ri_quorum_cert := root_quorum_cert;
         ri_ordered_cert := root_ordered_cert; ri_commit_cert := root_commit_cert |},
      blocks, quorum_certs).

Definition make_placeholder_commit_cert (root_block : Block) : WrappedLedgerInfo :=
  let commit_info := Block_gen_block_info root_block ACCUMULATOR_PLACEHOLDER_HASH 0 None in
  let vote_data := {| vd_proposed := commit_info; vd_parent := commit_info |} in
  {| wli_vote_data := vote_data;
     wli_signed_ledger_info :=
       LedgerInfoWithSignatures_new (LedgerInfo_new commit_info (hash vote_data))
         AggregateSignature_empty |}.

Definition find_root_by_block_number (execution_latest_block_num : Z) (blocks : list Block)
    (quorum_certs : list QuorumCert) (order_vote_enabled : bool) :
    result anyhow (RootInfo * list Block * list QuorumCert) :=
  '(root_block, blocks) ←
    take_block (λ b, block_block_number b = Some execution_latest_block_num) (sort_blocks blocks)
      "unable to find block_number"%string;
  root_quorum_cert ←
    ok_or (find_qc (λ qc, BlockInfo_id (qc_certified_block qc) = block_id root_block) quorum_certs)
      "No QC found for root"%string;
  '(root_ordered_cert, root_commit_cert) ←
    (if order_vote_enabled then
       let root_ordered_cert :=
         {| wli_vote_data := VoteData_dummy;
            wli_signed_ledger_info := qc_signed_ledger_info root_quorum_cert |} in
       Ok (root_ordered_cert, root_ordered_cert)
     else
       match find_qc (λ qc, BlockInfo_id (qc_commit_info qc) = block_id root_block) quorum_certs with
       | Some qc =>
           let root_ordered_cert := qc_into_wrapped_ledger_info qc in
           match WrappedLedgerInfo_create_merged_with_executed_state root_ordered_cert
                   (wli_signed_ledger_info root_ordered_cert) with
           | Ok root_commit_cert => Ok (root_ordered_cert, root_commit_cert)
           | _ => Panic
           end
       | None =>
           let placeholder := make_placeholder_commit_cert root_block in
           Ok (placeholder, placeholder)
       end);
  Ok ({| ri_block := root_block; ri_quorum_cert := root_quorum_cert;
         ri_ordered_cert := root_ordered_cert; ri_commit_cert := root_commit_cert |},
      blocks, quorum_certs).

Record RecoveryData : Type := {
  rd_last_vote : option Vote;
  rd_root : RootInfo;
  rd_blocks : list Block;
  rd_quorum_certs : list QuorumCert;
  rd_highest_2chain_timeout_certificate : option TwoChainTimeoutCertificate;
}.

(** A message is kept when it is of the epoch of the root. *)
Definition of_epoch {A} (epoch_of : A → Z) (epoch : Z) (o : option A) : option A :=
  match o with
  | Some x => if epoch_of x =? epoch then Some x else None
  | None => None
  end.

Definition RecoveryData_new (last_vote : option Vote) (ledger_recovery_data : LedgerRecoveryData)
    (execution_latest_block_num : Z) (blocks : list Block) (quorum_certs : list QuorumCert)
    (highest_2chain_timeout_cert : option TwoChainTimeoutCertificate)
    (order_vote_enabled has_root : bool) : result anyhow RecoveryData :=
  '(root, blocks, quorum_certs) ←
    (if has_root then
       find_root_by_block_number execution_latest_block_num blocks quorum_certs order_vote_enabled
     else
       LedgerRecoveryData_find_root ledger_recovery_data blocks quorum_certs order_vote_enabled);
  let epoch := block_epoch (ri_block root) in
  Ok {| rd_last_vote := of_epoch vote_epoch epoch last_vote; rd_root := root;
        rd_blocks := blocks; rd_quorum_certs := quorum_certs;
        rd_highest_2chain_timeout_certificate :=
          of_epoch tc_epoch epoch highest_2chain_timeout_cert |}.

(** The tree [BlockStore::build] starts from. *)
Definition build_root (root : RootInfo) (max_pruned_blocks_in_mem : nat)
    (highest_2chain_timeout_cert : option TwoChainTimeoutCertificate) : result anyhow BlockTree :=
  let result := StateComputeResult_with_root_hash (block_id (ri_block root)) in
  BlockTree_new (PipelinedBlock_new (ri_block root) [] result) (ri_quorum_cert root)
    (ri_ordered_cert root) (ri_commit_cert root) max_pruned_blocks_in_mem
    highest_2chain_timeout_cert.

Lemma take_block_Ok (P : Block → Prop) `{∀ b, Decision (P b)} blocks e b rest :
  take_block P blocks e = Ok (b, rest) → P b ∧ b :: rest ≡ₚ blocks.
Proof using Type.
  unfold take_block. destruct (list_find P blocks) as [[i b']|] eqn:Hf; [|done].
  intros [= -> <-]. apply list_find_Some in Hf as (Hi&HP&_).
  split; [done|]. by rewrite <- delete_Permutation.
Qed.

Lemma find_qc_Some (P : QuorumCert → Prop) `{∀ q, Decision (P q)} qcs qc :
  find_qc P qcs = Some qc → P qc ∧ qc ∈ qcs.
Proof using Type.
  unfold find_qc. intros ([i q]&Hf&->)%fmap_Some. apply list_find_Some in Hf as (Hi&HP&_).
  split; [done|]. by eapply list_elem_of_lookup_2.
Qed.

Lemma of_epoch_Some {A} (epoch_of : A → Z) epoch o x :
  of_epoch epoch_of epoch o = Some x → epoch_of x = epoch ∧ o = Some x.
Proof using Type.
  unfold of_epoch. repeat case_match; intros; simplify_eq. by bool_to_prop.
Qed.

Context `{!LaptosLaws L}.

Lemma merge_commit_cert_id qc li cert :
  merge_commit_cert qc li = Ok cert →
  BlockInfo_id (wli_commit_info cert) =
  BlockInfo_id (LedgerInfo_commit_info (LedgerInfoWithSignatures_ledger_info li)).
Proof using Type.
  unfold merge_commit_cert, WrappedLedgerInfo_create_merged_with_executed_state.
  destruct (BlockInfo_match_ordered_only _ _); simpl; [by intros [= <-]|].
  case_match; [|done]. by intros [= <-].
Qed.

(** The ledger info of the root is about the root. *)
Lemma ledger_root_id self blocks qcs root_id li blocks' qcs' :
  ledger_root self blocks qcs = Ok (root_id, li, blocks', qcs') →
  BlockInfo_id (LedgerInfo_commit_info (LedgerInfoWithSignatures_ledger_info li)) = root_id.
Proof using LaptosLaws0.
  unfold ledger_root. destruct (LedgerInfo_ends_epoch _).
  - intros H. apply Ok_bind in H as (g&_&H). apply Ok_bind in H as (qc&Hqc&H).
    injection H as <- <- _ _.
    unfold QuorumCert_certificate_for_genesis_from_ledger_info in Hqc.
    repeat (case_match; try done). injection Hqc as <-. simpl. by autorewrite with liquent.
  - intros [= <- <- _ _]. symmetry. apply LedgerInfo_consensus_block_id_commit_info.
Qed.

(** The certificates of a root name it. *)
Definition root_certified (root : RootInfo) : Prop :=
  BlockInfo_id (qc_certified_block (ri_quorum_cert root)) = block_id (ri_block root) ∧
  BlockInfo_id (wli_commit_info (ri_ordered_cert root)) = block_id (ri_block root) ∧
  BlockInfo_id (wli_commit_info (ri_commit_cert root)) = block_id (ri_block root).

Lemma find_root_certified self blocks qcs ov root blocks' qcs' :
  LedgerRecoveryData_find_root self blocks qcs ov = Ok (root, blocks', qcs') →
  root_certified root.
Proof using LaptosLaws0.
  unfold LedgerRecoveryData_find_root. intros H.
  apply Ok_bind in H as ([[[root_id li] bs] qs]&Hroot%ledger_root_id&H).
  apply Ok_bind in H as ([b bs']&[Hb _]%take_block_Ok&H).
  apply Ok_bind in H as (qc&[Hqc _]%Ok_ok_or%find_qc_Some&H).
  apply Ok_bind in H as ([oc cc]&Hcert&H). injection H as <- _ _.
  unfold root_certified. simpl. split; [done|]. destruct ov.
  - injection Hcert as <- <-.
    assert (wli_commit_info {| wli_vote_data := VoteData_dummy; wli_signed_ledger_info := li |} =
      LedgerInfo_commit_info (LedgerInfoWithSignatures_ledger_info li)) as -> by done.
    rewrite Hroot. done.
  - apply Ok_bind in Hcert as (q&[Hq _]%Ok_ok_or%find_qc_Some&Hcert).
    apply Ok_bind in Hcert as (c&Hc%merge_commit_cert_id&[= <- <-]).
    split; [exact Hq|]. by rewrite Hc, Hroot.
Qed.

Lemma find_root_by_block_number_certified num blocks qcs root blocks' qcs' :
  find_root_by_block_number num blocks qcs false = Ok (root, blocks', qcs') →
  root_certified root ∧ block_block_number (ri_block root) = Some num ∧
  ri_block root :: blocks' ≡ₚ blocks.
Proof using LaptosLaws0.
  unfold find_root_by_block_number. intros H.
  apply Ok_bind in H as ([b bs']&[Hb Hbs]%take_block_Ok&H).
  apply Ok_bind in H as (qc&[Hqc _]%Ok_ok_or%find_qc_Some&H).
  apply Ok_bind in H as ([oc cc]&Hcert&H). injection H as <- <- _. simpl.
  split; [|split; [done|by rewrite Hbs; apply sort_by_Permutation]].
  unfold root_certified. simpl. split; [done|]. destruct (find_qc _ qcs) as [q|] eqn:Hf.
  - apply find_qc_Some in Hf as [Hq _].
    unfold WrappedLedgerInfo_create_merged_with_executed_state in Hcert.
    destruct (BlockInfo_match_ordered_only _ _); [|done]. injection Hcert as <- <-. done.
  - injection Hcert as <- <-. unfold make_placeholder_commit_cert, wli_commit_info, wli_ledger_info.
    simpl. autorewrite with liquent. unfold Block_gen_block_info. by autorewrite with liquent.
Qed.

(** The root of a restart.  Whatever the database holds, a root that is
    found without order votes, or from the ledger, is certified by all three
    of its certificates, so that the block tree can be built on it; a vote and
    a timeout certificate are only taken over from the epoch of the root, and
    with a known block number the root is the block of that number. *)
Theorem recovered_root_accepted last_vote ledger num blocks qcs tc order_vote_enabled has_root rd
    max :
  RecoveryData_new last_vote ledger num blocks qcs tc order_vote_enabled has_root = Ok rd →
  order_vote_enabled && has_root = false →
  root_certified (rd_root rd) ∧
  (∃ t, build_root (rd_root rd) max (rd_highest_2chain_timeout_certificate rd) = Ok t) ∧
  (∀ v, rd_last_vote rd = Some v →
     last_vote = Some v ∧ vote_epoch v = block_epoch (ri_block (rd_root rd))) ∧
  (∀ c, rd_highest_2chain_timeout_certificate rd = Some c →
     tc = Some c ∧ tc_epoch c = block_epoch (ri_block (rd_root rd))) ∧
  (has_root = true → block_block_number (ri_block (rd_root rd)) = Some num ∧
     ri_block (rd_root rd) :: rd_blocks rd ≡ₚ blocks).
Proof using LaptosLaws0.
  unfold RecoveryData_new. intros H Hmode. apply Ok_bind in H as ([[root bs] qs]&Hroot&[= <-]).
  simpl.
  assert (Hc : root_certified root ∧ (has_root = true →
    block_block_number (ri_block root) = Some num ∧ ri_block root :: bs ≡ₚ blocks)).
  { destruct has_root.
    - rewrite andb_true_r in Hmode. rewrite Hmode in Hroot.
      by apply find_root_by_block_number_certified in Hroot as (?&?&?).
    - split; [by eapply find_root_certified|done]. }
  destruct Hc as [Hc Hnum]. split_and!; [done| | | |done].
  - unfold build_root, BlockTree_new. rewrite bool_decide_true; [eauto|].
    symmetry. apply Hc.
  - intros v [? ?]%of_epoch_Some. done.
  - intros c [? ?]%of_epoch_Some. done.
Qed.

(** C39. With order votes, a restart at a known block number cannot build its
    tree.  The certificate of the root is taken as its ordering certificate,
    although a certificate made of votes commits at most an ancestor of the
    block it certifies; the assertion of the block tree then fails. *)
Theorem order_vote_recovery_panics last_vote ledger num blocks qcs tc rd max :
  RecoveryData_new last_vote ledger num blocks qcs tc true true = Ok rd →
  BlockInfo_id (qc_commit_info (ri_quorum_cert (rd_root rd))) ≠
    BlockInfo_id (qc_certified_block (ri_quorum_cert (rd_root rd))) →
  build_root (rd_root rd) max (rd_highest_2chain_timeout_certificate rd) = Panic.
Proof using Type.
  unfold RecoveryData_new. intros H Hne. apply Ok_bind in H as ([[root bs] qs]&Hroot&[= <-]).
  simpl in *. unfold find_root_by_block_number in Hroot.
  apply Ok_bind in Hroot as ([b bs']&_&H). apply Ok_bind in H as (qc&[Hqc _]%Ok_ok_or%find_qc_Some&H).
  injection H as <- _ _. simpl in *.
  unfold build_root, BlockTree_new. rewrite bool_decide_false; [done|].
  intros Heq. apply Hne. rewrite Hqc. symmetry. exact Heq.
Qed.

End recovery.
