(* ===== verification/BlockStore.v ===== *)
(** The block store: consensus/src/block_storage/block_store.rs.

    The block tree behind the persistent storage, the pending blocks and the
    channel to the execution pipeline.  The storage backend is an operational
    class; the time service is the local clock; every batch handed to
    [finalize_order] is logged in [bs_sent]. *)
From S2P Require Import Prelude Laptos Payload Certificates Block Votes BlockBuffer Pipelined.
From S2P Require Import BlockTree PendingBlocks Recovery TreeSafety.

(** [PersistentLivenessStorage] and the parts of the consensus database the
    store reads; [Randomness_new epoch round bytes] is
    [Randomness::new(RandMetadata { epoch, round }, bytes)]. *)
Class LivenessStorage `{L : Laptos} `{G : !Gcei} : Type := {
  Storage : Type;
  save_tree : list Block → list QuorumCert → list (Z * Z * HashValue) → SM Storage anyhow unit;
  save_highest_2chain_timeout_cert : TwoChainTimeoutCertificate → SM Storage anyhow unit;
  db_get_block : Storage → Z → HashValue → option Block;
  db_get_randomness : Storage → Z → option Bytes;
  Randomness_new : Z → Z → Bytes → Randomness;
}.

Section block_store.
Context `{L : Laptos} `{G : !Gcei} `{St : !LivenessStorage} `{!CryptoHash VoteData}.

Record BlockStore : Type := {
  bs_inner : BlockTree;
  bs_storage : Storage;
  bs_time : Z;
  bs_vote_back_pressure_limit : Z;
  bs_is_validator : bool;
  bs_pending_blocks : PendingBlocks;
  bs_enable_randomness : bool;
  bs_require_block_randomness : bool;
  bs_batch_commit_size : nat;
  bs_execute_tx : bool;
  bs_sent : list (list PipelinedBlock * WrappedLedgerInfo);
}.

Definition with_state (inner : BlockTree) (storage : Storage) (time : Z) (pending : PendingBlocks)
    (sent : list (list PipelinedBlock * WrappedLedgerInfo)) (self : BlockStore) : BlockStore :=
  {| bs_inner := inner; bs_storage := storage; bs_time := time;
     bs_vote_back_pressure_limit := bs_vote_back_pressure_limit self;
     bs_is_validator := bs_is_validator self; bs_pending_blocks := pending;
     bs_enable_randomness := bs_enable_randomness self;
     bs_require_block_randomness := bs_require_block_randomness self;
     bs_batch_commit_size := bs_batch_commit_size self; bs_execute_tx := bs_execute_tx self;
     bs_sent := sent |}.

Definition with_inner (inner : BlockTree) (self : BlockStore) : BlockStore :=
  with_state inner (bs_storage self) (bs_time self) (bs_pending_blocks self) (bs_sent self) self.

(** A call on the tree, under the write lock. *)
Definition on_tree {A} (m : SM BlockTree anyhow A) : SM BlockStore anyhow A := λ self,
  let '(t, r) := m (bs_inner self) in (with_inner t self, r).
Definition on_storage {A} (m : SM Storage anyhow A) : SM BlockStore anyhow A := λ self,
  let '(st, r) := m (bs_storage self) in
  (with_state (bs_inner self) st (bs_time self) (bs_pending_blocks self) (bs_sent self) self, r).
Definition SM_context {S A} (msg : string) (m : SM S anyhow A) : SM S anyhow A := λ s,
  let '(s', r) := m s in (s', context msg r).

Fixpoint sm_iter {A} (f : A → SM BlockStore anyhow unit) (l : list A) : SM BlockStore anyhow unit :=
  match l with
  | [] => mret tt
  | x :: l => _ ← f x; sm_iter f l
  end.

(** ** Readers *)

Definition BlockStore_get_block (block_id : HashValue) (self : BlockStore) : option PipelinedBlock :=
  BlockTree_get_block block_id (bs_inner self).
Definition BlockStore_ordered_root (self : BlockStore) : result anyhow PipelinedBlock :=
  BlockTree_ordered_root (bs_inner self).
Definition BlockStore_commit_root (self : BlockStore) : result anyhow PipelinedBlock :=
  BlockTree_commit_root (bs_inner self).

Definition BlockStore_sync_info (self : BlockStore) : SyncInfo :=
  SyncInfo_new_decoupled (bt_highest_quorum_cert (bs_inner self))
    (bt_highest_ordered_cert (bs_inner self)) (bt_highest_commit_cert (bs_inner self))
    (bt_highest_2chain_timeout_cert (bs_inner self)).

Definition vote_back_pressure (self : BlockStore) : result anyhow bool :=
  commit_root ← BlockStore_commit_root self;
  ordered_root ← BlockStore_ordered_root self;
  _ ← u64_sub (pb_round ordered_root) (pb_round commit_root);
  bound ← u64_add (bs_vote_back_pressure_limit self) (pb_round commit_root);
  Ok (bound <? pb_round ordered_root).

Fixpoint recent_times_loop (fuel : nat) (self : BlockStore) (num_blocks : nat)
    (cur_block : option PipelinedBlock) (res : list ExecutionSummary) :
    result anyhow (list ExecutionSummary) :=
  match cur_block with
  | None => Ok res
  | Some block =>
      let res :=
        match pb_execution_summary block with
        | Some summary => res ++ [summary]
        | None => res
        end in
      if bool_decide (is_Some (pb_execution_summary block)) && (num_blocks <=? length res)%nat
      then Ok res
      else match fuel with
           | O => Panic
           | S fuel =>
               recent_times_loop fuel self num_blocks
                 (BlockStore_get_block (pb_parent_id block) self) res
           end
  end.

Definition get_recent_block_execution_times (num_blocks : nat) (self : BlockStore) :
    result anyhow (list ExecutionSummary) :=
  root ← BlockStore_ordered_root self;
  recent_times_loop (size (bt_id_to_block (bs_inner self))) self num_blocks (Some root) [].

(** The walk from the highest ordered block back to the committed round; the
    last block without randomness it meets is the closest to the commit. *)
Fixpoint missing_randomness_loop (fuel : nat) (self : BlockStore) (commit_round : Z)
    (cursor : PipelinedBlock) (closest : option PipelinedBlock) :
    result anyhow (option PipelinedBlock) :=
  if pb_round cursor <=? commit_round then Ok closest
  else
    let closest :=
      match pb_randomness cursor with None => Some cursor | Some _ => closest end in
    match BlockStore_get_block (pb_parent_id cursor) self, fuel with
    | None, _ => Ok closest
    | Some _, O => Panic
    | Some parent, S fuel => missing_randomness_loop fuel self commit_round parent closest
    end.

Definition find_missing_randomness_block_on_path (ledger_info : LedgerInfoWithSignatures)
    (self : BlockStore) : result anyhow (bool * option WrappedLedgerInfo) :=
  let tree := bs_inner self in
  skip ← (if bs_require_block_randomness self then
            root ← BlockStore_ordered_root self;
            Ok ((pb_epoch root =? 1) ||
                (BlockInfo_round (LedgerInfo_commit_info
                   (LedgerInfoWithSignatures_ledger_info ledger_info)) =? 0))
          else Ok true);
  let highest_commit_cert := bt_highest_commit_cert tree in
  let highest_ordered_block_id := BlockInfo_id (wli_commit_info (bt_highest_ordered_cert tree)) in
  if (skip : bool) then Ok (false, None)
  else match BlockStore_get_block highest_ordered_block_id self with
  | None => Ok (false, Some highest_commit_cert)
  | Some cursor =>
      closest ← missing_randomness_loop (size (bt_id_to_block tree)) self
        (BlockInfo_round (wli_commit_info highest_commit_cert)) cursor None;
      match closest with
      | None => Ok (false, Some highest_commit_cert)
      | Some block =>
          let cert :=
            from_option qc_into_wrapped_ledger_info highest_commit_cert
              (get_quorum_cert_for_block (pb_id block) tree) in
          let cert :=
            if BlockInfo_round (wli_commit_info cert)
                 <? BlockInfo_round (wli_commit_info highest_commit_cert)
            then highest_commit_cert else cert in
          Ok (true, Some cert)
      end
  end.

(** ** Blocks of the tree, shared by reference *)

(** An update of a block that the tree shares. *)
Definition update_block (f : PipelinedBlock → PipelinedBlock) (id : HashValue) (t : BlockTree) :
    BlockTree :=
  with_blocks (alter (λ lb, {| lb_executed_block := f (lb_executed_block lb);
                               lb_children := lb_children lb |}) id (bt_id_to_block t)) t.

Definition try_set_randomness_from_db (pipelined_block : PipelinedBlock) (block : Block)
    (self : BlockStore) : PipelinedBlock :=
  if bs_enable_randomness self then
    match block_block_number block, pb_randomness pipelined_block with
    | Some block_number, None =>
        match db_get_randomness (bs_storage self) block_number with
        | Some randomness =>
            (PipelinedBlock_set_randomness
               (Randomness_new (block_epoch block) (block_round block) randomness)
               pipelined_block).1
        | None => pipelined_block
        end
    | _, _ => pipelined_block
    end
  else pipelined_block.

(** ** Inserting *)

(** [wait_until] returns when the clock has reached the time it is given. *)
Definition wait_until (t : Z) (self : BlockStore) : BlockStore :=
  with_state (bs_inner self) (bs_storage self) (Z.max t (bs_time self)) (bs_pending_blocks self)
    (bs_sent self) self.

Definition BlockStore_insert_block (block : Block) (rebuild : bool) :
    SM BlockStore anyhow PipelinedBlock := λ self,
  match BlockStore_get_block (block_id block) self with
  | Some existing_block =>
      let existing_block := try_set_randomness_from_db existing_block block self in
      (with_inner (update_block (λ _, existing_block) (block_id block) (bs_inner self)) self,
       Ok existing_block)
  | None =>
      (_ ← (if rebuild then mret tt
            else lift (λ self, root ← BlockStore_ordered_root self;
                               ensure (pb_round root <? block_round block)
                                 "Block with old round"%string));
       pipelined_block ← lift (λ self,
         Ok (try_set_randomness_from_db (PipelinedBlock_new_ordered block) block self));
       _ ← modify (wait_until (block_timestamp_usecs block));
       _ ← (if rebuild then mret tt
            else SM_context "Insert block failed when saving block"
                   (on_storage (save_tree [block] [] [])));
       on_tree (BlockTree_insert_block pipelined_block)) self
  end.

Definition insert_single_quorum_cert (qc : QuorumCert) (rebuild : bool) :
    SM BlockStore anyhow unit := λ self,
  match BlockStore_get_block (BlockInfo_id (qc_certified_block qc)) self with
  | None => (self, Err "Insert QC without having the block in store first"%string)
  | Some pipelined_block =>
      (_ ← lift (λ _, ensure (BlockInfo_match_ordered_only
                                (PipelinedBlock_block_info pipelined_block)
                                (qc_certified_block qc))
                        "QC for block has different block info than local"%string);
       _ ← (if rebuild then mret tt
            else SM_context "Insert block failed when saving quorum"
                   (on_storage (save_tree [] [qc] [])));
       on_tree (BlockTree_insert_quorum_cert qc)) self
  end.

Definition insert_2chain_timeout_certificate (tc : TwoChainTimeoutCertificate) :
    SM BlockStore anyhow unit := λ self,
  let cur_tc_round :=
    from_option tc_round 0 (bt_highest_2chain_timeout_cert (bs_inner self)) in
  if tc_round tc <=? cur_tc_round then (self, Ok tt)
  else
    (_ ← SM_context "Timeout certificate insert failed when persisting to DB"
           (on_storage (save_highest_2chain_timeout_cert tc));
     on_tree (modify (replace_2chain_timeout_cert tc))) self.

(** ** Ordering *)

Definition set_block_number (block_number : Z) (b : PipelinedBlock) : PipelinedBlock :=
  {| pb_block := Block_set_block_number (pb_block b) block_number;
     pb_input_transactions := pb_input_transactions b;
     pb_state_compute_result := pb_state_compute_result b; pb_randomness := pb_randomness b;
     pb_insertion_time := pb_insertion_time b; pb_execution_summary := pb_execution_summary b;
     pb_pre_commit_fut := pb_pre_commit_fut b; pb_rand_tx := pb_rand_tx b |}.

(** One above the number of the parent, in the tree or in the database. *)
Definition next_block_number (p_block : PipelinedBlock) (self : BlockStore) : result anyhow Z :=
  let parent :=
    match BlockStore_get_block (pb_parent_id p_block) self with
    | Some parent_block => Some (pb_block parent_block)
    | None => db_get_block (bs_storage self) (pb_epoch p_block) (pb_parent_id p_block)
    end in
  match parent ≫= block_block_number with
  | Some n => u64_add n 1
  | None => Panic
  end.

Fixpoint init_numbers (ordered_blocks : list PipelinedBlock) :
    SM BlockStore anyhow (list (Z * Z * HashValue)) :=
  match ordered_blocks with
  | [] => mret []
  | p_block :: ordered_blocks =>
      block_number ← lift (next_block_number p_block);
      match block_block_number (pb_block p_block) with
      | Some cur_block_number =>
          if cur_block_number =? block_number then init_numbers ordered_blocks
          else lift (λ _, Panic)
      | None =>
          _ ← on_tree (modify (update_block (set_block_number block_number) (pb_id p_block)));
          block_numbers ← init_numbers ordered_blocks;
          mret ((pb_epoch p_block, block_number, pb_id p_block) :: block_numbers)
      end
  end.

Definition init_block_number (ordered_blocks : list PipelinedBlock) : SM BlockStore anyhow unit :=
  block_numbers ← init_numbers ordered_blocks;
  match block_numbers with
  | [] => mret tt
  | _ => (λ self, match on_storage (save_tree [] [] block_numbers) self with
                  | (self, Ok _) => (self, Ok tt)
                  | (self, _) => (self, Panic)
                  end) : SM BlockStore anyhow unit
  end.

(** pipeline/execution_client.rs: the blocks are stamped and sent, if the
    pipeline is there. *)
Definition stamp_block (block : PipelinedBlock) : SM BlockStore anyhow unit := λ self,
  let '(block, r) := PipelinedBlock_set_insertion_time (bs_time self)
    (default block (BlockStore_get_block (pb_id block) self)) in
  (with_inner (update_block (λ _, block) (pb_id block) (bs_inner self)) self, r).
Definition log_batch (batch : list PipelinedBlock * WrappedLedgerInfo) (self : BlockStore) :
    BlockStore :=
  with_state (bs_inner self) (bs_storage self) (bs_time self) (bs_pending_blocks self)
    (bs_sent self ++ [batch]) self.
Definition finalize_order (blocks : list PipelinedBlock) (proof : WrappedLedgerInfo) :
    SM BlockStore anyhow unit :=
  match blocks with
  | [] => lift (λ _, Panic)
  | _ => (λ self,
      if bs_execute_tx self then
        (_ ← sm_iter stamp_block blocks; modify (log_batch (blocks, proof))) self
      else (self, Ok tt)) : SM BlockStore anyhow unit
  end.

(** The certificate that commits a block of the path: the one that was asked
    for at its end, or the one that certifies the next block. *)
Definition proof_of_block (block_id_to_commit : HashValue) (finality_proof : WrappedLedgerInfo)
    (block : PipelinedBlock) (next : option PipelinedBlock) (self : BlockStore) :
    option WrappedLedgerInfo :=
  if bool_decide (pb_id block = block_id_to_commit) then Some finality_proof
  else
    next ← next;
    qc ← get_quorum_cert_for_block (pb_id next) (bs_inner self);
    if bool_decide (BlockInfo_id (qc_commit_info qc) = pb_id block)
    then Some (qc_into_wrapped_ledger_info qc) else None.

Definition send_block (block : PipelinedBlock) (proof : WrappedLedgerInfo) :
    SM BlockStore anyhow unit :=
  path ← lift (λ self, path_from_ordered_root (pb_id block) (bs_inner self));
  match default [] path with
  | [] => mret tt
  | path =>
      _ ← finalize_order path proof;
      _ ← on_tree (update_ordered_root (pb_id block));
      on_tree (modify (insert_ordered_cert proof))
  end.

Fixpoint send_blocks (block_id_to_commit : HashValue) (finality_proof : WrappedLedgerInfo)
    (blocks_to_commit : list PipelinedBlock) : SM BlockStore anyhow unit :=
  match blocks_to_commit with
  | [] => mret tt
  | block :: blocks =>
      proof ← lift (λ self,
        Ok (proof_of_block block_id_to_commit finality_proof block (head blocks) self));
      _ ← match proof with Some proof => send_block block proof | None => mret tt end;
      send_blocks block_id_to_commit finality_proof blocks
  end.

Definition gc_pending (round : Z) (self : BlockStore) : BlockStore :=
  with_state (bs_inner self) (bs_storage self) (bs_time self)
    (PendingBlocks_gc round (bs_pending_blocks self)) (bs_sent self) self.

(** The blocks from the ordered root to the one to commit, numbered; none if
    there is nothing to send. *)
Definition blocks_to_send (finality_proof : WrappedLedgerInfo) :
    SM BlockStore anyhow (list PipelinedBlock) :=
  let block_id_to_commit := BlockInfo_id (wli_commit_info finality_proof) in
  block_to_commit ← lift (λ self,
    ok_or (BlockStore_get_block block_id_to_commit self) "Committed block id not found"%string);
  ordered_root ← lift BlockStore_ordered_root;
  _ ← lift BlockStore_commit_root;
  _ ← lift (λ _, ensure (pb_round ordered_root <? pb_round block_to_commit)
                   "Committed block round lower than root"%string);
  path ← lift (λ self, path_from_ordered_root block_id_to_commit (bs_inner self));
  match default [] path with
  | [] => mret []
  | path =>
      _ ← modify (gc_pending (BlockInfo_round (wli_commit_info finality_proof)));
      _ ← init_block_number path;
      mret path
  end.

(** [send_for_execution(finality_proof, false, None)]: ordering during normal
    operation. *)
Definition send_for_execution (finality_proof : WrappedLedgerInfo) : SM BlockStore anyhow unit :=
  λ self,
  if bs_is_validator self then
    (blocks_to_commit ← blocks_to_send finality_proof;
     (λ self,
        if (0 <? bs_batch_commit_size self)%nat &&
           (length blocks_to_commit <=? bs_batch_commit_size self)%nat
        then (self, Ok tt)
        else send_blocks (BlockInfo_id (wli_commit_info finality_proof)) finality_proof
               blocks_to_commit self) : SM BlockStore anyhow unit) self
  else (self, Ok tt).

Definition replay_ordered_path_if_needed : SM BlockStore anyhow unit := λ self,
  match BlockStore_ordered_root self with
  | Ok root =>
      let highest_ordered_cert := bt_highest_ordered_cert (bs_inner self) in
      if pb_round root <? BlockInfo_round (wli_commit_info highest_ordered_cert)
      then send_for_execution highest_ordered_cert self else (self, Ok tt)
  | Err e => (self, Err e)
  | Panic => (self, Panic)
  end.

(** ** Building a store *)

(** Failed insertions are logged and skipped. *)
Definition skip_errors {A} (m : SM BlockStore anyhow A) : SM BlockStore anyhow unit := λ self,
  match m self with
  | (self, Panic) => (self, Panic)
  | (self, _) => (self, Ok tt)
  end.

(** The loops of [build], on the store that has the root only. *)
Definition build_inserts (root_round : Z) (root_id : HashValue) (blocks : list Block)
    (quorum_certs : list QuorumCert) : SM BlockStore anyhow unit :=
  _ ← sm_iter (λ block,
        if (block_round block <=? root_round) && bool_decide (block_id block ≠ root_id)
        then mret tt else skip_errors (BlockStore_insert_block block true)) blocks;
  sm_iter (λ qc,
    if BlockInfo_round (qc_certified_block qc) <? root_round
    then mret tt else skip_errors (insert_single_quorum_cert qc true)) quorum_certs.

(** [build] on the fields that a rebuild takes over from the old store [self]. *)
Definition build (root : RootInfo) (blocks : list Block) (quorum_certs : list QuorumCert)
    (highest_2chain_timeout_cert : option TwoChainTimeoutCertificate)
    (max_pruned_blocks_in_mem : nat) (self : BlockStore) : BlockStore * result anyhow unit :=
  match build_root root max_pruned_blocks_in_mem highest_2chain_timeout_cert with
  | Ok tree =>
      build_inserts (block_round (ri_block root)) (block_id (ri_block root)) blocks quorum_certs
        (with_inner tree self)
  | Err e => (self, Err e)
  | Panic => (self, Panic)
  end.

(** The part of [rebuild] before the recovery of blocks. *)
Definition rebuild_tree (root : RootInfo) (blocks : list Block) (quorum_certs : list QuorumCert) :
    SM BlockStore anyhow unit := λ self,
  build root blocks quorum_certs (bt_highest_2chain_timeout_cert (bs_inner self))
    (bt_max_pruned_blocks_in_mem (bs_inner self)) self.

(** The inserts of [append_blocks_for_sync]; block numbers come with the blocks. *)
Definition append_inserts (blocks : list (Block * option Z)) (quorum_certs : list QuorumCert) :
    SM BlockStore anyhow unit :=
  _ ← sm_iter (λ '(block, block_number),
        let block := from_option (Block_set_block_number block) block block_number in
        skip_errors (BlockStore_insert_block block true)) blocks;
  sm_iter (λ qc, skip_errors (insert_single_quorum_cert qc true)) quorum_certs.
Definition append_inserts_checked (blocks : list (Block * option Z))
    (quorum_certs : list QuorumCert) : SM BlockStore anyhow unit :=
  _ ← sm_iter (λ '(block, block_number),
        let block := from_option (Block_set_block_number block) block block_number in
        _ ← SM_context "Failed to append forward-sync block" (BlockStore_insert_block block true);
        mret tt) blocks;
  sm_iter (λ qc,
    SM_context "Failed to append forward-sync QC" (insert_single_quorum_cert qc true)) quorum_certs.

End block_store.
