(* ===== verification/StoreSafety.v ===== *)
(** The block store: ordered blocks are numbered and handed to execution once,
    readers never panic, and what is visible has been persisted. *)
From S2P Require Import Prelude Laptos Payload Certificates Block Votes BlockBuffer Pipelined.
From S2P Require Import BlockTree PendingBlocks Recovery TreeSafety BlockStore.

Section store_safety.
Context `{L : Laptos} `{G : !Gcei} `{St : !LivenessStorage} `{!CryptoHash VoteData}.
Context (round_of : HashValue → Z).
#[local] Abbreviation tree_inv := (TreeSafety.tree_inv round_of).
#[local] Abbreviation linked := (TreeSafety.linked round_of).

(** ** Trees that differ in what their blocks carry *)

Definition same_block (b b' : PipelinedBlock) : Prop :=
  pb_id b = pb_id b' ∧ pb_parent_id b = pb_parent_id b' ∧ pb_round b = pb_round b' ∧
  pb_epoch b = pb_epoch b'.

Definition same_linkable (lb lb' : LinkableBlock) : Prop :=
  lb_children lb = lb_children lb' ∧
  same_block (lb_executed_block lb) (lb_executed_block lb').

(** [t'] is [t] with other execution results, numbers, randomness or times. *)
Definition same_tree (t t' : BlockTree) : Prop :=
  (∀ x, option_Forall2 same_linkable (bt_id_to_block t !! x) (bt_id_to_block t' !! x)) ∧
  t' = with_blocks (bt_id_to_block t') t.

#[local] Instance same_block_equiv : Equivalence same_block.
Proof using Type.
  split; [done|by intros ?? (?&?&?&?)|].
  intros ??? (?&?&?&?) (?&?&?&?). unfold same_block. split_and!; congruence.
Qed.
#[local] Instance same_linkable_equiv : Equivalence same_linkable.
Proof using Type.
  split; [done|by intros ?? [? ?]|].
  intros ??? [? ?] [? ?]. split; [congruence|by etrans].
Qed.
#[local] Instance same_tree_refl : Reflexive same_tree.
Proof using Type. intros t. split; [intros x; reflexivity|by destruct t]. Qed.
#[local] Instance same_tree_trans : Transitive same_tree.
Proof using Type.
  intros t1 t2 t3 [H1 E1] [H2 E2]. split.
  { intros x. specialize (H1 x). specialize (H2 x).
    destruct H1; inversion H2; subst; constructor. by etrans. }
  rewrite E2. rewrite E1. by destruct t1.
Qed.









(** ** Paths of ids *)

Inductive ids_path (t : BlockTree) (root : HashValue) : HashValue → list HashValue → Prop :=
| IdsRoot : ids_path t root root []
| IdsBlock x b ids :
    BlockTree_get_block x t = Some b → ids_path t root (pb_parent_id b) ids →
    ids_path t root x (ids ++ [x]).












(** ** Updates of shared blocks *)


(** Only what blocks carry, the storage and the pending blocks change. *)
Definition store_frame (self self' : BlockStore) : Prop :=
  same_tree (bs_inner self) (bs_inner self') ∧
  self' = with_state (bs_inner self') (bs_storage self') (bs_time self) (bs_pending_blocks self')
            (bs_sent self) self.

#[local] Instance store_frame_refl : Reflexive store_frame.
Proof using Type. intros self. split; [reflexivity|by destruct self]. Qed.
#[local] Instance store_frame_trans : Transitive store_frame.
Proof using Type.
  intros s1 s2 s3 [H1 E1] [H2 E2]. split; [by etrans|]. rewrite E2, E1. by destruct s1.
Qed.




(** ** Block numbers *)







(** ** Sending *)

Lemma subtree_ids_path t o x :
  linked (bt_id_to_block t) → subtree (bt_id_to_block t) o x →
  ∃ ids, ids_path t o x ids ∧ ∀ y, y ∈ ids → subtree (bt_id_to_block t) o y.
Proof using Type.
  intros Hl Hs. refine (rtc_ind_r (λ x, ∃ ids, ids_path t o x ids ∧
    ∀ y, y ∈ ids → subtree (bt_id_to_block t) o y) o _ _ x Hs).
  - exists []. split; [constructor|]. intros y Hy. by apply elem_of_nil in Hy.
  - intros y z Hy Hc (ids&Hids&Hall). destruct (linked_child _ _ Hl _ _ Hc) as (lc&Hlc&Hp).
    exists (ids ++ [z]). split.
    + eapply (IdsBlock _ _ _ (lb_executed_block lc)); [unfold BlockTree_get_block; by rewrite Hlc|].
      by rewrite Hp.
    + intros w [Hw|Hw]%elem_of_app; [by apply Hall|].
      apply list_elem_of_singleton in Hw as ->. by eapply rtc_r.
Qed.













(** ** Ordering *)






(** ** Readers *)

(** A block and its ancestors, as far as they are stored, the latest first. *)
Inductive lineage (t : BlockTree) : HashValue → list PipelinedBlock → Prop :=
| LineageEnd x : BlockTree_get_block x t = None → lineage t x []
| LineageBlock x b l :
    BlockTree_get_block x t = Some b → lineage t (pb_parent_id b) l → lineage t x (b :: l).

Lemma lineage_exists t fuel x (seen : list HashValue) :
  linked (bt_id_to_block t) → NoDup seen →
  (∀ y, y ∈ seen → is_Some (bt_id_to_block t !! y) ∧ round_of x < round_of y) →
  (size (bt_id_to_block t) ≤ fuel + length seen)%nat →
  ∃ l, lineage t x l ∧ (length l ≤ fuel)%nat.
Proof using Type.
  intros Hl. revert x seen. induction fuel as [|fuel IH]; intros x seen Hnd Hseen Hf.
  all: destruct (BlockTree_get_block x t) as [b|] eqn:Hb;
    [|exists []; split; [by constructor|simpl; lia]].
  all: destruct (get_block_rounds _ _ Hl _ _ Hb) as (Hst&_&_&Hlt).
  all: assert (Hnd' : NoDup (x :: seen)) by
    (constructor; [intros [_ ?]%Hseen; lia|done]).
  all: assert (Hin : ∀ y, y ∈ x :: seen → is_Some (bt_id_to_block t !! y)) by
    (intros y [->|[? _]%Hseen]%elem_of_cons; done).
  - pose proof (list_length_dom _ _ Hnd' Hin). simpl in *. lia.
  - destruct (IH (pb_parent_id b) (x :: seen) Hnd') as (l&Hlin&Hlen).
    + intros y [->|[? ?]%Hseen]%elem_of_cons; (split; [done|lia]).
    + simpl. lia.
    + exists (b :: l). split; [by econstructor|simpl; lia].
Qed.

Lemma lineage_functional t x l l' : lineage t x l → lineage t x l' → l = l'.
Proof using Type.
  intros H. revert l'. induction H as [x Hx|x b l Hb _ IH]; intros l' H'; inversion H'; subst;
    try congruence. rewrite Hb in *. simplify_eq. f_equal. by apply IH.
Qed.

Lemma lineage_Ok t x :
  linked (bt_id_to_block t) → ∃ l, lineage t x l ∧ (length l ≤ size (bt_id_to_block t))%nat.
Proof using Type.
  intros Hl. apply (lineage_exists t _ x []); [done|constructor| |simpl; lia].
  intros y Hy. by apply elem_of_nil in Hy.
Qed.

Lemma recent_times_loop_spec self n x l fuel res :
  lineage (bs_inner self) x l → (length l ≤ fuel)%nat → (length res < Nat.max 1 n)%nat →
  recent_times_loop fuel self n (BlockStore_get_block x self) res =
  Ok (res ++ take (Nat.max 1 n - length res) (omap pb_execution_summary l)).
Proof using Type.
  intros Hlin. revert fuel res. induction Hlin as [x Hx|x b l Hb _ IH]; intros fuel res Hf Hres;
    unfold BlockStore_get_block in *.
  - rewrite Hx. destruct fuel; simpl; by rewrite take_nil, app_nil_r.
  - rewrite Hb. simpl in Hf. destruct fuel as [|fuel]; [lia|]. simpl.
    destruct (pb_execution_summary b) as [sm|]; simpl.
    + rewrite length_app. simpl.
      destruct (Nat.leb_spec n (length res + 1)) as [Hle|Hgt].
      * replace (Nat.max 1 n - length res)%nat with 1%nat by lia. simpl. by rewrite take_0.
      * unfold BlockStore_get_block in IH. rewrite IH by (rewrite ?length_app; simpl; lia).
        rewrite length_app. simpl. rewrite <- app_assoc. simpl.
        replace (Nat.max 1 n - length res)%nat with (S (Nat.max 1 n - (length res + 1))) by lia. done.
    + apply IH; lia.
Qed.

Fixpoint take_above (round : Z) (l : list PipelinedBlock) : list PipelinedBlock :=
  match l with
  | [] => []
  | b :: l => if pb_round b <=? round then [] else b :: take_above round l
  end.
Definition without_randomness (round : Z) (l : list PipelinedBlock) : list PipelinedBlock :=
  filter (λ b, pb_randomness b = None) (take_above round l).

Lemma missing_randomness_loop_spec self round x b l fuel closest :
  BlockTree_get_block x (bs_inner self) = Some b →
  lineage (bs_inner self) x l → (length l ≤ S fuel)%nat →
  missing_randomness_loop fuel self round b closest =
  Ok (match last (without_randomness round l) with Some c => Some c | None => closest end).
Proof using Type.
  intros Hb Hlin. revert b Hb fuel closest.
  induction Hlin as [x Hx|x b l Hb Hlin IH]; intros b' Hb' fuel closest Hf; [congruence|].
  rewrite Hb in Hb'. injection Hb' as <-. unfold without_randomness in *. simpl.
  assert (Heq : missing_randomness_loop fuel self round b closest =
    if pb_round b <=? round then Ok closest
    else let closest := match pb_randomness b with None => Some b | Some _ => closest end in
      match BlockStore_get_block (pb_parent_id b) self, fuel with
      | None, _ => Ok closest
      | Some _, O => Panic
      | Some parent, S fuel => missing_randomness_loop fuel self round parent closest
      end) by (by destruct fuel).
  rewrite Heq. destruct (pb_round b <=? round); [done|]. simpl.
  unfold BlockStore_get_block. destruct (BlockTree_get_block (pb_parent_id b) (bs_inner self))
    as [parent|] eqn:Hparent.
  - destruct fuel as [|fuel].
    { simpl in Hf. assert (l = []) as -> by (destruct l; [done|simpl in Hf; lia]).
      inversion Hlin; congruence. }
    rewrite (IH _ eq_refl) by (simpl in Hf; lia). f_equal. rewrite filter_cons.
    destruct (pb_randomness b) as [r|] eqn:Hr.
    + by rewrite decide_False by done.
    + rewrite decide_True by done. rewrite last_cons. by destruct (last _).
  - inversion Hlin; subst; [|congruence]. simpl. rewrite filter_cons.
    by destruct (pb_randomness b); case_decide.
Qed.

Lemma vote_back_pressure_Ok self :
  tree_inv (bs_inner self) →
  bs_vote_back_pressure_limit self + round_of (bt_commit_root_id (bs_inner self)) ≤ u64_MAX →
  vote_back_pressure self =
  Ok (bs_vote_back_pressure_limit self + round_of (bt_commit_root_id (bs_inner self))
        <? round_of (bt_ordered_root_id (bs_inner self))).
Proof using Type.
  intros Hinv Hmax. pose proof (ti_linked _ _ Hinv) as Hl.
  destruct (commit_root_Ok _ _ Hinv) as (cr&Hcr&Hround).
  destruct (subtree_stored _ _ _ _ Hl (ti_commit_root _ _ Hinv) (ti_ordered_root _ _ Hinv)) as [lr Hlr].
  pose proof (subtree_rounds _ _ _ _ Hl (ti_ordered_root _ _ Hinv)) as Hle.
  unfold vote_back_pressure, BlockStore_commit_root, BlockStore_ordered_root,
    BlockTree_ordered_root, expect_block, BlockTree_get_block. rewrite Hcr, Hlr. simpl.
  rewrite Hround, (linked_round _ _ _ _ Hl Hlr).
  unfold u64_sub, u64_add. rewrite (proj2 (Z.leb_le _ _)) by done. simpl.
  by rewrite (proj2 (Z.leb_le _ _)) by done.
Qed.

(** Readers of the store.  The walks along parent links end: the recent
    execution times are those of the latest executed blocks at or before the
    ordered root, and the search for a block without randomness finds the
    oldest one above the committed round, never answering with a certificate
    below the highest commit.  The test for back pressure does not underflow:
    the ordered root is never behind the commit root. *)
Theorem store_walks_exact self n ledger_info :
  tree_inv (bs_inner self) →
  (bs_vote_back_pressure_limit self + round_of (bt_commit_root_id (bs_inner self)) ≤ u64_MAX →
   vote_back_pressure self =
     Ok (bs_vote_back_pressure_limit self + round_of (bt_commit_root_id (bs_inner self))
           <? round_of (bt_ordered_root_id (bs_inner self)))) ∧
  (∃ l, lineage (bs_inner self) (bt_ordered_root_id (bs_inner self)) l ∧
     get_recent_block_execution_times n self =
       Ok (take (Nat.max 1 n) (omap pb_execution_summary l))) ∧
  ∃ missing cert, find_missing_randomness_block_on_path ledger_info self = Ok (missing, cert) ∧
    ∀ c, cert = Some c →
      BlockInfo_round (wli_commit_info (bt_highest_commit_cert (bs_inner self)))
        ≤ BlockInfo_round (wli_commit_info c) ∧
      ∀ l, lineage (bs_inner self)
             (BlockInfo_id (wli_commit_info (bt_highest_ordered_cert (bs_inner self)))) l →
        missing = true ↔
        without_randomness
          (BlockInfo_round (wli_commit_info (bt_highest_commit_cert (bs_inner self)))) l ≠ [].
Proof using Type.
  intros Hinv. pose proof (ti_linked _ _ Hinv) as Hl. set (t := bs_inner self) in *.
  destruct (subtree_stored _ _ _ _ Hl (ti_commit_root _ _ Hinv) (ti_ordered_root _ _ Hinv)) as [lr Hlr].
  assert (Hroot : BlockTree_get_block (bt_ordered_root_id t) t = Some (lb_executed_block lr)).
  { unfold BlockTree_get_block. by rewrite Hlr. }
  split; [by apply vote_back_pressure_Ok|]. split.
  - destruct (lineage_Ok t (bt_ordered_root_id t) Hl) as (l&Hlin&Hlen). exists l. split; [done|].
    unfold get_recent_block_execution_times, BlockStore_ordered_root, BlockTree_ordered_root,
      expect_block. fold t. rewrite Hroot. simpl. fold t.
    pose proof (recent_times_loop_spec self n _ l _ [] Hlin Hlen) as Hloop.
    unfold BlockStore_get_block in Hloop. fold t in Hloop. rewrite Hroot in Hloop.
    rewrite Hloop by (simpl; lia). simpl. by rewrite Nat.sub_0_r.
  - unfold find_missing_randomness_block_on_path, BlockStore_ordered_root, BlockTree_ordered_root,
      expect_block, BlockStore_get_block. fold t. rewrite Hroot. simpl.
    destruct (bs_require_block_randomness self); simpl; [|by eexists _, _].
    destruct (_ || _); [by eexists _, _|].
    set (oid := BlockInfo_id (wli_commit_info (bt_highest_ordered_cert t))).
    set (cr := BlockInfo_round (wli_commit_info (bt_highest_commit_cert t))).
    destruct (lineage_Ok t oid Hl) as (l&Hlin&Hlen).
    destruct (BlockTree_get_block oid t) as [b|] eqn:Hb.
    + rewrite (missing_randomness_loop_spec self cr oid b l) by (done || lia). simpl.
      destruct (last (without_randomness cr l)) as [c|] eqn:Hlast; eexists _, _; (split; [done|]);
        intros c' [= <-]; (split; [try (case_match; bool_to_prop); lia|]);
        intros l' Hlin'; rewrite (lineage_functional _ _ _ _ Hlin' Hlin).
      * split; [|done]. intros _ Hnil. by rewrite Hnil in Hlast.
      * split; [done|]. intros Hne. by apply last_None in Hlast.
    + eexists _, _. split; [done|]. intros c [= <-]. split; [unfold cr; lia|]. intros l' Hlin'.
      inversion Hlin'; [|congruence]. by split.
Qed.

(** ** Inserting *)

Lemma set_randomness_same r b : same_block b (PipelinedBlock_set_randomness r b).1.
Proof using Type. done. Qed.

Lemma try_set_randomness_same b block self : same_block b (try_set_randomness_from_db b block self).
Proof using Type. unfold try_set_randomness_from_db. repeat case_match; done. Qed.

(** The last step of an insertion, on any block that stands for [block]. *)
Lemma insert_block_tree block pb s s' r :
  tree_inv (bs_inner s) → block_rounds round_of (PipelinedBlock_new_ordered block) →
  BlockStore_get_block (block_id block) s = None →
  same_block (PipelinedBlock_new_ordered block) pb →
  on_tree (BlockTree_insert_block pb) s = (s', r) →
  r ≠ Panic ∧ tree_inv (bs_inner s') ∧ bs_storage s' = bs_storage s ∧ bs_time s' = bs_time s ∧
  ∀ b, r = Ok b → BlockStore_get_block (block_id block) s' = Some b.
Proof using Type.
  intros Hinv Hrounds Hnew (Hid&Hp&Hr&_). unfold on_tree.
  destruct (BlockTree_insert_block pb (bs_inner s)) as [t' r'] eqn:Hins. intros [= <- <-].
  change (pb_id (PipelinedBlock_new_ordered block)) with (block_id block) in Hid.
  assert (Hok : tree_op_ok round_of (bs_inner s) (OpInsertBlock pb)).
  { split; [unfold block_rounds; rewrite <- Hid, <- Hp, <- Hr; exact Hrounds|].
    rewrite <- Hid. intros b Hb. unfold BlockStore_get_block in Hnew. congruence. }
  destruct (insert_block_spec _ _ _ _ _ Hinv Hok Hins) as (?&?&Hres). split_and!; try done.
  intros b ->. rewrite <- Hid in Hres. exact Hres.
Qed.

(** Nothing is visible before it is persisted.  A block that the store did
    not have is only returned after the storage accepted it, above the ordered
    root and once the local clock has reached its timestamp; it is then in the
    tree, whose invariant holds whatever the outcome, and no insertion
    panics. *)
Theorem inserted_block_persisted block self self' res :
  tree_inv (bs_inner self) → block_rounds round_of (PipelinedBlock_new_ordered block) →
  BlockStore_get_block (block_id block) self = None →
  (save_tree [block] [] [] (bs_storage self)).2 ≠ Panic →
  BlockStore_insert_block block false self = (self', res) →
  res ≠ Panic ∧ tree_inv (bs_inner self') ∧
  ∀ b, res = Ok b → BlockStore_get_block (block_id block) self' = Some b ∧
    block_timestamp_usecs block ≤ bs_time self' ∧
    round_of (bt_ordered_root_id (bs_inner self)) < block_round block ∧
    save_tree [block] [] [] (bs_storage self) = (bs_storage self', Ok tt).
Proof using Type.
  intros Hinv Hrounds Hnew Hsave. pose proof (ti_linked _ _ Hinv) as Hl.
  destruct (subtree_stored _ _ _ _ Hl (ti_commit_root _ _ Hinv) (ti_ordered_root _ _ Hinv)) as [lr Hlr].
  unfold BlockStore_insert_block. rewrite Hnew. unfold mbind, SM_bind, lift.
  unfold BlockStore_ordered_root, BlockTree_ordered_root, expect_block, BlockTree_get_block.
  rewrite Hlr. simpl. rewrite (linked_round _ _ _ _ Hl Hlr). unfold ensure.
  destruct (Z.ltb_spec (round_of (bt_ordered_root_id (bs_inner self))) (block_round block)) as [Hlt|?];
    [|by intros [= <- <-]].
  unfold SM_context, on_storage. simpl.
  destruct (save_tree [block] [] [] (bs_storage self)) as [st r] eqn:Hst. simpl in Hsave.
  destruct r as [[]|e|]; [|by intros [= <- <-]|done]. simpl. intros Hins.
  apply (insert_block_tree block) in Hins as (?&?&Hs'&Ht'&Hget);
    [|done|done|done|apply try_set_randomness_same].
  split_and!; try done. intros b Hb. split_and!; [by apply Hget| |done|by rewrite Hs'].
  rewrite Ht'. simpl. lia.
Qed.

End store_safety.
