(* ===== verification/Elections.v ===== *)
(** Proposer elections (consensus/src/liveness): the [ProposerElection] trait,
    the weighted choice of proposer_election.rs, the rotating and the per-round
    election, and the two wrappers around any election,
    cached_proposer_election.rs and unequivocal_proposer_election.rs.

    The trait is a class of operations on the election's state, so that the
    wrappers are defined and proved against it; the reputation-based election
    of Reputation.v is its main instance.  An election may read data that
    other tasks change, such as the committed ledger infos: every operation
    takes the current [World]. *)
From S2P Require Import Prelude Laptos Certificates Block.

(** What the elections use of the laptos crates and of [f64]. *)
Class ElectionLib `{L : Laptos} : Type := {
  (** [to_vec] and [as_ref] of [HashValue]: its bytes *)
  HashValue_to_vec : HashValue → list Z;
  HashValue_sha3_256_of : list Z → HashValue;
  AccountAddress_leb : AccountAddress → AccountAddress → bool;
  F64 : Type;
  f64_one : F64;
  f64_from_u64 : Z → F64;
  f64_sum : list F64 → F64;
  f64_div : F64 → F64 → F64;
  f64_ge : F64 → F64 → bool;
}.

Section elections.
Context `{L : Laptos} `{EL : !ElectionLib} `{!CryptoHash VoteData}.
#[local] Abbreviation Author := AccountAddress.

(** ** proposer_election.rs *)

Record ProposerElectionCacheKey : Type := {
  pek_round : Z;
  pek_version : option (list Z);
}.

Definition ProposerElectionCacheKey_new (round : Z) : ProposerElectionCacheKey :=
  {| pek_round := round; pek_version := None |}.
Definition ProposerElectionCacheKey_with_version (round : Z) (version : list Z) :
    ProposerElectionCacheKey :=
  {| pek_round := round; pek_version := Some version |}.

#[global] Instance ProposerElectionCacheKey_eq_dec : EqDecision ProposerElectionCacheKey.
Proof using Type. solve_decision. Defined.
#[global] Instance ProposerElectionCacheKey_countable : Countable ProposerElectionCacheKey.
Proof using Type.
  refine (inj_countable' (λ k, (pek_round k, pek_version k))
    (λ p, {| pek_round := p.1; pek_version := p.2 |}) _). by intros [].
Defined.

(** The derived order: by round, then [None] before [Some], then the bytes. *)
Fixpoint bytes_leb (l1 l2 : list Z) : bool :=
  match l1, l2 with
  | [], _ => true
  | _ :: _, [] => false
  | x :: l1, y :: l2 => (x <? y) || (x =? y) && bytes_leb l1 l2
  end.
Definition ProposerElectionCacheKey_leb (a b : ProposerElectionCacheKey) : bool :=
  (pek_round a <? pek_round b) ||
  (pek_round a =? pek_round b) &&
    match pek_version a, pek_version b with
    | None, _ => true
    | Some _, None => false
    | Some v, Some w => bytes_leb v w
    end.

Definition next_in_range (state : list Z) (max : Z) : result anyhow Z :=
  let hash := HashValue_to_vec (HashValue_sha3_256_of state) in
  let temp := take 16 hash in
  if max =? 0 then Panic else Ok (from_le_bytes temp mod max).

(** The loop that makes the weights cumulative in place. *)
Fixpoint accumulate_weights (total_weight : Z) (weights : list Z) :
    result anyhow (Z * list Z) :=
  match weights with
  | [] => Ok (total_weight, [])
  | w :: weights =>
      total_weight ← u128_add total_weight w;
      '(total, rest) ← accumulate_weights total_weight weights;
      Ok (total, total_weight :: rest)
  end.

(** [slice::binary_search_by]: halve the range until one element is left.
    [inl] is a match, [inr] the place to insert. *)
Fixpoint binary_search_loop (fuel : nat) (f : nat → comparison) (base size : nat) : nat :=
  match fuel with
  | O => base
  | S fuel =>
      if (1 <? size)%nat then
        let half := (size / 2)%nat in
        let mid := (base + half)%nat in
        binary_search_loop fuel f (match f mid with Gt => base | _ => mid end) (size - half)
      else base
  end.
Definition binary_search_by {A} (f : A → comparison) (l : list A) : nat + nat :=
  let at_ (i : nat) := match l !! i with Some a => f a | None => Gt end in
  if (length l =? 0)%nat then inr 0%nat
  else
    let base := binary_search_loop (length l) at_ 0 (length l) in
    match at_ base with
    | Eq => inl base
    | Lt => inr (S base)
    | Gt => inr base
    end.

Definition choose_index (weights state : list Z) : result anyhow nat :=
  '(total_weight, weights) ← accumulate_weights 0 weights;
  chosen_weight ← next_in_range state total_weight;
  match binary_search_by (λ w, if w <=? chosen_weight then Lt else Gt) weights with
  | inr i => Ok i
  | inl _ => Panic
  end.

(** The trait. *)
Class ProposerElection (World T : Type) : Type := {
  get_valid_proposer : World → Z → SM T anyhow Author;
  get_voting_power_participation_ratio : World → Z → SM T anyhow F64;
  get_valid_proposer_and_ratio : World → Z → SM T anyhow (Author * F64);
  cache_key : World → T → Z → option ProposerElectionCacheKey;
}.

(** Its provided methods. *)
Definition default_ratio {World T} (w : World) (round : Z) : SM T anyhow F64 := mret f64_one.
Definition default_proposer_and_ratio {World T} (get_valid_proposer : World → Z → SM T anyhow Author)
    (get_ratio : World → Z → SM T anyhow F64) (w : World) (round : Z) :
    SM T anyhow (Author * F64) :=
  proposer ← get_valid_proposer w round;
  ratio ← get_ratio w round;
  mret (proposer, ratio).
Definition default_cache_key {World T} (w : World) (self : T) (round : Z) :
    option ProposerElectionCacheKey :=
  Some (ProposerElectionCacheKey_new round).

Definition is_valid_proposer {World T} `{!ProposerElection World T} (w : World) (author : Author)
    (round : Z) : SM T anyhow bool :=
  proposer ← get_valid_proposer w round;
  mret (bool_decide (proposer = author)).

(** ** rotating_proposer_election.rs *)

Record RotatingProposer : Type := {
  rp_proposers : list Author;
  rp_contiguous_rounds : Z;
}.

Definition min_author (acc : option Author) (a : Author) : option Author :=
  match acc with
  | None => Some a
  | Some m => if AccountAddress_leb m a then Some m else Some a
  end.
Definition choose_leader (peers : list Author) : result anyhow Author :=
  match foldl min_author None peers with
  | Some a => Ok a
  | None => Panic
  end.

Definition RotatingProposer_new (proposers : list Author) (contiguous_rounds : Z) :
    result anyhow RotatingProposer :=
  if bool_decide (proposers = []) then Panic
  else if contiguous_rounds <=? 0 then Panic
  else Ok {| rp_proposers := proposers; rp_contiguous_rounds := contiguous_rounds |}.

(** Division and remainder by zero and an index out of range panic. *)
Definition RotatingProposer_get_valid_proposer (self : RotatingProposer) (round : Z) :
    result anyhow Author :=
  if (rp_contiguous_rounds self =? 0) || (length (rp_proposers self) =? 0)%nat then Panic
  else
    let index := (round / rp_contiguous_rounds self) mod Z.of_nat (length (rp_proposers self)) in
    match rp_proposers self !! Z.to_nat index with
    | Some a => Ok a
    | None => Panic
    end.

#[global] Instance RotatingProposer_election World : ProposerElection World RotatingProposer := {
  get_valid_proposer w round := lift (λ self, RotatingProposer_get_valid_proposer self round);
  get_voting_power_participation_ratio := default_ratio;
  get_valid_proposer_and_ratio :=
    default_proposer_and_ratio
      (λ _ round, lift (λ self, RotatingProposer_get_valid_proposer self round)) default_ratio;
  cache_key := default_cache_key;
}.

(** ** round_proposer_election.rs *)

Record RoundProposer : Type := {
  rdp_proposers : gmap Z Author;
  rdp_default_proposer : Author;
}.

Definition RoundProposer_new (proposers : gmap Z Author) (default_proposer : Author) :
    RoundProposer :=
  {| rdp_proposers := proposers; rdp_default_proposer := default_proposer |}.

Definition RoundProposer_get_valid_proposer (self : RoundProposer) (round : Z) : Author :=
  match rdp_proposers self !! round with
  | None => rdp_default_proposer self
  | Some round_proposer => round_proposer
  end.

#[global] Instance RoundProposer_election World : ProposerElection World RoundProposer := {
  get_valid_proposer w round := lift (λ self, Ok (RoundProposer_get_valid_proposer self round));
  get_voting_power_participation_ratio := default_ratio;
  get_valid_proposer_and_ratio :=
    default_proposer_and_ratio
      (λ _ round, lift (λ self, Ok (RoundProposer_get_valid_proposer self round))) default_ratio;
  cache_key := default_cache_key;
}.

(** ** cached_proposer_election.rs *)

Section wrappers.
Context {World T : Type} `{PE : !ProposerElection World T}.

Record CachedProposerElection : Type := {
  cpe_epoch : Z;
  cpe_proposer_election : T;
  cpe_recent_elections : gmap ProposerElectionCacheKey (Author * F64);
  cpe_window : Z;
}.

Definition CachedProposerElection_new (epoch : Z) (proposer_election : T) (window : Z) :
    CachedProposerElection :=
  {| cpe_epoch := epoch; cpe_proposer_election := proposer_election;
     cpe_recent_elections := ∅; cpe_window := window |}.

Definition cpe_with (proposer_election : T)
    (recent_elections : gmap ProposerElectionCacheKey (Author * F64))
    (self : CachedProposerElection) : CachedProposerElection :=
  {| cpe_epoch := cpe_epoch self; cpe_proposer_election := proposer_election;
     cpe_recent_elections := recent_elections; cpe_window := cpe_window self |}.

(** [BTreeMap::split_off] returns the entries at or after the key. *)
Definition split_off (key : ProposerElectionCacheKey)
    (m : gmap ProposerElectionCacheKey (Author * F64)) :
    gmap ProposerElectionCacheKey (Author * F64) :=
  filter (λ kv, ProposerElectionCacheKey_leb key kv.1 = true) m.

(** The closure [compute]. *)
Definition compute_entry (w : World) (round : Z) :
    SM CachedProposerElection anyhow (Author * F64) := λ self,
  let '(proposer_election, result) :=
    get_valid_proposer_and_ratio w round (cpe_proposer_election self) in
  (cpe_with proposer_election (cpe_recent_elections self) self, result).

Definition get_or_compute_entry (w : World) (round : Z) :
    SM CachedProposerElection anyhow (Author * F64) := λ self,
  match cache_key w (cpe_proposer_election self) round with
  | None => compute_entry w round self
  | Some cache_key =>
      let self :=
        if cpe_window self <? round then
          cpe_with (cpe_proposer_election self)
            (split_off (ProposerElectionCacheKey_new (round - cpe_window self))
               (cpe_recent_elections self)) self
        else self in
      match cpe_recent_elections self !! cache_key with
      | Some entry => (self, Ok entry)
      | None =>
          (entry ← compute_entry w round;
           _ ← modify (λ self : CachedProposerElection,
                 cpe_with (cpe_proposer_election self)
                   (<[cache_key := entry]> (cpe_recent_elections self)) self);
           mret entry) self
      end
  end.

#[global] Instance CachedProposerElection_election :
    ProposerElection World CachedProposerElection := {
  get_valid_proposer w round := entry ← get_or_compute_entry w round; mret entry.1;
  get_voting_power_participation_ratio w round :=
    entry ← get_or_compute_entry w round; mret entry.2;
  get_valid_proposer_and_ratio :=
    default_proposer_and_ratio
      (λ w round, entry ← get_or_compute_entry w round; mret entry.1)
      (λ w round, entry ← get_or_compute_entry w round; mret entry.2);
  cache_key := default_cache_key;
}.

(** ** unequivocal_proposer_election.rs *)

Record UnequivocalProposerElection : Type := {
  upe_proposer_election : T;
  upe_already_proposed : Z * HashValue;
}.

Definition UnequivocalProposerElection_new (proposer_election : T) : UnequivocalProposerElection :=
  {| upe_proposer_election := proposer_election; upe_already_proposed := (0, HashValue_zero) |}.

Definition upe_inner {A} (m : SM T anyhow A) : SM UnequivocalProposerElection anyhow A := λ self,
  let '(proposer_election, result) := m (upe_proposer_election self) in
  ({| upe_proposer_election := proposer_election;
      upe_already_proposed := upe_already_proposed self |}, result).

#[global] Instance UnequivocalProposerElection_election :
    ProposerElection World UnequivocalProposerElection := {
  get_valid_proposer w round := upe_inner (get_valid_proposer w round);
  get_voting_power_participation_ratio w round :=
    upe_inner (get_voting_power_participation_ratio w round);
  get_valid_proposer_and_ratio :=
    default_proposer_and_ratio
      (λ w round, upe_inner (get_valid_proposer w round))
      (λ w round, upe_inner (get_voting_power_participation_ratio w round));
  cache_key := default_cache_key;
}.

Definition set_already_proposed (round : Z) (id : HashValue) (self : UnequivocalProposerElection) :
    UnequivocalProposerElection :=
  {| upe_proposer_election := upe_proposer_election self; upe_already_proposed := (round, id) |}.

(** The log of a proposal from a wrong author asks for the valid proposer once
    more. *)
Definition is_valid_proposal (w : World) (block : Block) :
    SM UnequivocalProposerElection anyhow bool :=
  match block_author block with
  | None => mret false
  | Some author =>
      valid_author ← is_valid_proposer w author (block_round block);
      if negb valid_author then
        _ ← get_valid_proposer w (block_round block);
        mret false
      else λ self : UnequivocalProposerElection,
        let '(round, id) := upe_already_proposed self in
        match block_round block ?= round with
        | Gt => (set_already_proposed (block_round block) (block_id block) self, Ok true)
        | Eq => (self, Ok (bool_decide (id = block_id block)))
        | Lt => (self, Ok false)
        end
  end.

End wrappers.

(** ** The weighted choice *)

Definition sum_Z (l : list Z) : Z := foldr Z.add 0 l.

(** Walk along the weights until the value falls into one of them. *)
Fixpoint weighted_choice (c : Z) (weights : list Z) : nat :=
  match weights with
  | [] => 0
  | w :: weights => if c <? w then 0 else S (weighted_choice (c - w) weights)
  end.

(** The value the hash of the seed selects below [max]. *)
Definition seed_value (state : list Z) (max : Z) : Z :=
  from_le_bytes (take 16 (HashValue_to_vec (HashValue_sha3_256_of state))) mod max.

Lemma sum_Z_nonneg l : Forall (λ w, 0 ≤ w) l → 0 ≤ sum_Z l.
Proof using Type. induction 1; simpl; lia. Qed.

Lemma sum_Z_take_le l i :
  Forall (λ w, 0 ≤ w) l → sum_Z (take i l) ≤ sum_Z l.
Proof using Type.
  intros Hl. revert i. induction Hl as [|w l Hw Hl IH]; intros [|i]; simpl; [lia|lia| |].
  - pose proof (sum_Z_nonneg l Hl). lia.
  - specialize (IH i). lia.
Qed.

Lemma accumulate_weights_spec t l :
  Forall (λ w, 0 ≤ w) l → t ≤ u128_MAX →
  accumulate_weights t l =
    if t + sum_Z l <=? u128_MAX
    then Ok (t + sum_Z l, imap (λ i _, t + sum_Z (take (S i) l)) l) else Panic.
Proof using Type.
  intros Hl. revert t. induction Hl as [|w l Hw Hl IH]; intros t Ht; simpl.
  { rewrite Z.add_0_r. by destruct (Z.leb_spec t u128_MAX); [|lia]. }
  pose proof (sum_Z_nonneg l Hl). unfold u128_add.
  destruct (Z.leb_spec (t + w) u128_MAX); simpl.
  2: { by destruct (Z.leb_spec (t + (w + sum_Z l)) u128_MAX); [lia|]. }
  rewrite IH by done. replace (t + w + sum_Z l) with (t + (w + sum_Z l)) by lia.
  destruct (Z.leb_spec (t + (w + sum_Z l)) u128_MAX); [|done]. simpl. do 2 f_equal.
  unfold compose. f_equal; [lia|]. apply imap_ext. intros i x _. simpl. lia.
Qed.

Lemma binary_search_loop_spec (f : nat → comparison) p fuel base size :
  (∀ i, f i = if (i <? p)%nat then Lt else Gt) →
  (size ≤ fuel)%nat → (1 ≤ size)%nat → (base < p ∨ base = 0)%nat → (p ≤ base + size)%nat →
  let b := binary_search_loop fuel f base size in
  (b < base + size ∧ (b < p ∨ b = 0) ∧ p ≤ S b)%nat.
Proof using Type.
  intros Hf. revert base size. induction fuel as [|fuel IH]; intros base size Hs H1 Hb Hp;
    cbn [binary_search_loop]; [lia|].
  destruct (Nat.ltb_spec 1 size) as [Hlt|]; [|lia].
  pose proof (Nat.Div0.mul_div_le size 2).
  pose proof (Nat.div_str_pos size 2 ltac:(lia)).
  rewrite Hf. set (half := (size / 2)%nat) in *.
  destruct (Nat.ltb_spec (base + half) p).
  - destruct (IH (base + half) (size - half))%nat as (?&?&?); lia.
  - destruct (IH base (size - half))%nat as (?&?&?); lia.
Qed.

Lemma binary_search_by_partition {A} (f : A → comparison) (l : list A) p :
  (p ≤ length l)%nat →
  (∀ i a, l !! i = Some a → f a = if (i <? p)%nat then Lt else Gt) →
  binary_search_by f l = inr p.
Proof using Type.
  intros Hp Hf. unfold binary_search_by.
  destruct (Nat.eqb_spec (length l) 0) as [|Hl]; [f_equal; lia|].
  set (at_ := λ i : nat, match l !! i with Some a => f a | None => Gt end).
  assert (∀ i, at_ i = if (i <? p)%nat then Lt else Gt) as Hat.
  { intros i. unfold at_. destruct (l !! i) eqn:Hi; [by apply Hf|].
    apply lookup_ge_None in Hi. by destruct (Nat.ltb_spec i p); [lia|]. }
  destruct (binary_search_loop_spec at_ p (length l) 0 (length l) Hat) as (?&?&?); try lia.
  set (b := binary_search_loop (length l) at_ 0 (length l)) in *.
  change (match at_ b with Eq => inl b | Lt => inr (S b) | Gt => inr b end = inr p).
  rewrite Hat. destruct (Nat.ltb_spec b p); f_equal; lia.
Qed.

Lemma weighted_choice_spec weights i w c :
  Forall (λ w, 0 ≤ w) weights → weights !! i = Some w → 0 ≤ c →
  weighted_choice c weights = i ↔ sum_Z (take i weights) ≤ c < sum_Z (take i weights) + w.
Proof using Type.
  intros Hl. revert i c. induction Hl as [|x l Hx Hl IH]; intros [|i] c Hi Hc; simplify_eq/=.
  - destruct (Z.ltb_spec c w); split; [lia|done|done|lia].
  - pose proof (sum_Z_nonneg (take i l)
      ltac:(eapply Forall_take; exact Hl)).
    destruct (Z.ltb_spec c x); [split; [done|lia]|].
    pose proof (IH i (c - x) Hi ltac:(lia)) as Hiff. rewrite Nat.succ_inj_wd, Hiff. lia.
Qed.

Lemma weighted_choice_lt weights c :
  0 ≤ c < sum_Z weights → (weighted_choice c weights < length weights)%nat.
Proof using Type.
  revert c. induction weights as [|w l IH]; intros c Hc; simpl in *; [lia|].
  destruct (Z.ltb_spec c w); [lia|]. specialize (IH (c - w)). lia.
Qed.

(** The cumulative weights up to and including a place exceed the value exactly
    from the chosen place on. *)
Lemma weighted_choice_cumulative weights i c :
  Forall (λ w, 0 ≤ w) weights → (i < length weights)%nat →
  (sum_Z (take (S i) weights) <=? c) = (i <? weighted_choice c weights)%nat.
Proof using Type.
  intros Hl. revert i c. induction Hl as [|w l Hw Hl IH]; intros [|i] c Hi;
    simpl in *; [lia|lia| |].
  - rewrite Z.add_0_r. by destruct (Z.ltb_spec c w), (Z.leb_spec w c); try lia.
  - pose proof (sum_Z_nonneg (take (S i) l) ltac:(by apply Forall_take)) as Hn.
    simpl in Hn. destruct (Z.ltb_spec c w).
    + apply Z.leb_gt. lia.
    + trans (i <? weighted_choice (c - w) l)%nat; [|done]. rewrite <- (IH i (c - w)) by lia. simpl.
      match goal with |- (?a <=? _) = (?b <=? _) =>
        destruct (Z.leb_spec a c), (Z.leb_spec b (c - w)) end; lia || done.
Qed.

Lemma choose_index_spec weights state :
  Forall (λ w, 0 ≤ w) weights →
  choose_index weights state =
    if (0 <? sum_Z weights) && (sum_Z weights <=? u128_MAX)
    then Ok (weighted_choice (seed_value state (sum_Z weights)) weights) else Panic.
Proof using Type.
  intros Hl. pose proof (sum_Z_nonneg _ Hl). unfold choose_index.
  rewrite accumulate_weights_spec, Z.add_0_l by done.
  destruct (Z.leb_spec (sum_Z weights) u128_MAX); [|by rewrite andb_false_r]. simpl.
  unfold next_in_range. destruct (Z.eqb_spec (sum_Z weights) 0) as [->|]; [done|].
  destruct (Z.ltb_spec 0 (sum_Z weights)); [|lia]. simpl. fold (seed_value state (sum_Z weights)).
  assert (0 ≤ seed_value state (sum_Z weights) < sum_Z weights) as Hc
    by (apply Z.mod_pos_bound; lia).
  set (c := seed_value state (sum_Z weights)) in *.
  rewrite (binary_search_by_partition _ _ (weighted_choice c weights)); [done| |].
  - rewrite length_imap. pose proof (weighted_choice_lt weights c Hc). lia.
  - intros i a. rewrite list_lookup_imap, fmap_Some. intros (w & Hi%lookup_lt_Some & ->).
    pose proof (weighted_choice_cumulative weights i c Hl Hi) as Heq.
    cbv beta. by rewrite Z.add_0_l, Heq.
Qed.

(** The choice of an index by weight: with cumulative weights and a binary
    search, [choose_index] returns exactly what walking along the weights
    returns for the value drawn from the seed, and panics exactly when the
    weights sum to zero or beyond 128 bits.  The drawn value lies below the sum,
    the index is one of the weights, and an index of weight [w] is chosen by
    exactly [w] consecutive values, so one of weight zero never is. *)
Theorem choose_index_by_weight weights state :
  Forall (λ w, 0 ≤ w) weights →
  choose_index weights state =
    (if (0 <? sum_Z weights) && (sum_Z weights <=? u128_MAX)
     then Ok (weighted_choice (seed_value state (sum_Z weights)) weights) else Panic) ∧
  (∀ c, 0 ≤ c < sum_Z weights → (weighted_choice c weights < length weights)%nat) ∧
  (∀ i w c, weights !! i = Some w → 0 ≤ c →
     weighted_choice c weights = i ↔
     sum_Z (take i weights) ≤ c < sum_Z (take i weights) + w).
Proof using Type.
  intros Hl. split; [by apply choose_index_spec|]. split; [apply weighted_choice_lt|].
  intros i w c. by apply weighted_choice_spec.
Qed.

(** ** Unequivocal proposals *)

Section unequivocal.
Context {World T : Type} `{PE : !ProposerElection World T}.
#[local] Abbreviation Unequivocal := (UnequivocalProposerElection (T:=T)).

(** The proposals accepted in a run, in the order in which they came. *)
Fixpoint accepted_proposals (proposals : list (World * Block)) (self : Unequivocal) :
    list (World * Block) :=
  match proposals with
  | [] => []
  | (w, block) :: proposals =>
      match is_valid_proposal w block self with
      | (self, Ok true) => (w, block) :: accepted_proposals proposals self
      | (self, Ok false) => accepted_proposals proposals self
      | _ => []
      end
  end.

Lemma get_valid_proposer_keeps w round (self self' : Unequivocal) r :
  get_valid_proposer w round self = (self', r) →
  upe_already_proposed self' = upe_already_proposed self.
Proof using Type.
  cbn. unfold upe_inner. destruct (get_valid_proposer _ _ _). intros [= <- _]. done.
Qed.

(** What an answer says about the last accepted proposal. *)
Lemma is_valid_proposal_inv w block (self self' : Unequivocal) r :
  is_valid_proposal w block self = (self', Ok r) →
  if r then
    upe_already_proposed self' = (block_round block, block_id block) ∧
    ((upe_already_proposed self).1 < block_round block ∨
     upe_already_proposed self = (block_round block, block_id block)) ∧
    ∃ author election, block_author block = Some author ∧
      get_valid_proposer w (block_round block) (upe_proposer_election self) = (election, Ok author)
  else upe_already_proposed self' = upe_already_proposed self.
Proof using Type.
  unfold is_valid_proposal. destruct (block_author block) as [author|]; [|by intros [= <- <-]].
  unfold is_valid_proposer, mbind, SM_bind.
  destruct (get_valid_proposer w (block_round block) self) as [self1 [p|e|]] eqn:Hp; [|done..].
  pose proof (get_valid_proposer_keeps _ _ _ _ _ Hp) as Hk. cbv [mret SM_ret].
  destruct (decide (p = author)) as [->|Hne].
  2: { rewrite bool_decide_eq_false_2 by done. cbn [negb].
       destruct (get_valid_proposer w (block_round block) self1) as [self2 [q|e|]] eqn:Hq;
         [|done..]. intros [= <- <-].
       by rewrite (get_valid_proposer_keeps _ _ _ _ _ Hq). }
  rewrite bool_decide_eq_true_2 by done. cbn [negb].
  assert (∃ election, get_valid_proposer w (block_round block) (upe_proposer_election self)
            = (election, Ok author)) as [election Hel].
  { revert Hp. cbn. unfold upe_inner. destruct (get_valid_proposer _ _ _) as [el r'].
    intros [= _ ->]. eauto. }
  rewrite Hk. destruct (upe_already_proposed self) as [round id] eqn:Hs. simpl.
  destruct (Z.compare_spec (block_round block) round) as [<-|Hlt|Hgt].
  - intros [= <- <-]. case_bool_decide; [subst id|by rewrite Hk].
    split_and!; [done|by right|eauto].
  - intros [= <- <-]. done.
  - intros [= <- <-]. split_and!; [done|left; lia|eauto].
Qed.

Lemma accepted_after proposals (self : Unequivocal) :
  Forall (λ p : World * Block,
    (upe_already_proposed self).1 < block_round p.2 ∨
    upe_already_proposed self = (block_round p.2, block_id p.2))
    (accepted_proposals proposals self).
Proof using Type.
  revert self. induction proposals as [|[w b] l IH]; intros self; simpl; [constructor|].
  destruct (is_valid_proposal w b self) as [self' [[]|e|]] eqn:Hv; [| |constructor..].
  - apply is_valid_proposal_inv in Hv as (Ha & Hle & _). constructor; [done|].
    eapply Forall_impl; [apply IH|]. rewrite Ha. intros p Hp. simpl in Hp.
    destruct Hle as [Hlt|Heq], Hp as [Hlt'|[= Hr Hi]]; [left; lia|left; lia| |].
    + left. rewrite Heq. simpl. lia.
    + right. by rewrite Heq, Hr, Hi.
  - apply is_valid_proposal_inv in Hv. eapply Forall_impl; [apply IH|]. by rewrite Hv.
Qed.

Lemma is_valid_proposal_true w block (self : Unequivocal) author election :
  block_author block = Some author →
  get_valid_proposer w (block_round block) (upe_proposer_election self) = (election, Ok author) →
  (upe_already_proposed self).1 < block_round block ∨
    upe_already_proposed self = (block_round block, block_id block) →
  (is_valid_proposal w block self).2 = Ok true.
Proof using Type.
  intros Ha Hp Hle. unfold is_valid_proposal. rewrite Ha.
  unfold is_valid_proposer, mbind, SM_bind. cbn [get_valid_proposer UnequivocalProposerElection_election].
  unfold upe_inner. rewrite Hp. cbv [mret SM_ret]. rewrite bool_decide_eq_true_2 by done.
  cbn [negb upe_already_proposed].
  destruct (upe_already_proposed self) as [round id]; simpl in Hle.
  destruct Hle as [Hlt|[= -> ->]].
  - by rewrite (proj2 (Z.compare_gt_iff _ _) Hlt).
  - rewrite Z.compare_refl. simpl. by rewrite bool_decide_eq_true_2.
Qed.

(** A validator accepts at most one proposal per round.  A proposal is
    accepted exactly when it comes from the proposer elected for its round and
    is either of a later round than the last accepted one or that proposal
    again; so in any run from the start the accepted proposals never go back to
    an earlier round, and two of one round are the same block. *)
Theorem proposals_unequivocal :
  (∀ w block (self : Unequivocal),
     (is_valid_proposal w block self).2 = Ok true ↔
     ∃ author election, block_author block = Some author ∧
       get_valid_proposer w (block_round block) (upe_proposer_election self) =
         (election, Ok author) ∧
       ((upe_already_proposed self).1 < block_round block ∨
        upe_already_proposed self = (block_round block, block_id block))) ∧
  (∀ proposals election,
     StronglySorted
       (λ p q : World * Block, block_round p.2 ≤ block_round q.2 ∧
          (block_round p.2 = block_round q.2 → block_id p.2 = block_id q.2))
       (accepted_proposals proposals (UnequivocalProposerElection_new election))).
Proof using Type.
  split.
  - intros w block self. split.
    + intros Hv%eq_fst_pair. apply is_valid_proposal_inv in Hv as (_ & ? & ? & ? & ? & ?). eauto 8.
    + intros (author & election & ? & ? & ?). by eapply is_valid_proposal_true.
  - intros proposals election. generalize (UnequivocalProposerElection_new election) as self.
    induction proposals as [|[w b] l IH]; intros self; simpl; [constructor|].
    destruct (is_valid_proposal w b self) as [self' [[]|e|]] eqn:Hv; [|done|constructor..].
    constructor; [done|]. apply is_valid_proposal_inv in Hv as (Ha & _).
    eapply Forall_impl; [apply accepted_after|]. rewrite Ha. simpl.
    intros p [Hlt|[= Hr Hi]]; split; lia || done.
Qed.

End unequivocal.

(** ** Cached elections

    An election whose answers are a function of its cache key, whatever calls
    came before: the interface the cache relies on. *)
Section cached.
Context {World T : Type} `{PE : !ProposerElection World T}.
#[local] Abbreviation Cached := (CachedProposerElection (T:=T)).

(** [valid] are the worlds of a run, [answers] what the election is to answer
    for a key that [fixed] says determines the answer, and [inv] what the
    election maintains. *)
Class KeyedElection (valid : World → Prop) (fixed : ProposerElectionCacheKey → Prop)
    (answers : ProposerElectionCacheKey → result anyhow (Author * F64) → Prop) (inv : T → Prop) :
    Prop := {
  keyed_inv w round t : valid w → inv t → inv (get_valid_proposer_and_ratio w round t).1;
  keyed_answer w t round key :
    valid w → inv t → cache_key w t round = Some key → fixed key →
    answers key (get_valid_proposer_and_ratio w round t).2;
  keyed_round w t round key : cache_key w t round = Some key → pek_round key = round;
}.

Context {valid : World → Prop} {fixed : ProposerElectionCacheKey → Prop}.
Context {answers : ProposerElectionCacheKey → result anyhow (Author * F64) → Prop}.
Context {inv : T → Prop}.
Context `{KE : !KeyedElection valid fixed answers inv}.

(** The cached entries are the answers for their keys. *)
Definition cache_inv (self : Cached) : Prop :=
  inv (cpe_proposer_election self) ∧
  ∀ key entry, cpe_recent_elections self !! key = Some entry → fixed key →
    answers key (Ok entry).

(** A run: any calls, in any worlds of the run. *)
Fixpoint run_queries (queries : list (World * Z)) (self : Cached) : Cached :=
  match queries with
  | [] => self
  | (w, round) :: queries => run_queries queries (get_or_compute_entry w round self).1
  end.

Lemma cache_inv_new epoch t window :
  inv t → cache_inv (CachedProposerElection_new epoch t window).
Proof using Type. intros Ht. split; [done|]. intros key entry [=]. Qed.

Lemma cache_inv_split key (self : Cached) :
  cache_inv self →
  cache_inv (cpe_with (cpe_proposer_election self) (split_off key (cpe_recent_elections self)) self).
Proof using Type.
  intros [Ht Hc]. split; [done|]. cbn. intros k entry.
  unfold split_off. rewrite map_lookup_filter_Some. intros [? _]. by apply Hc.
Qed.

Lemma compute_entry_spec w round (self : Cached) :
  valid w → cache_inv self →
  cache_inv (compute_entry w round self).1 ∧
  (∀ key, cache_key w (cpe_proposer_election self) round = Some key → fixed key →
     answers key (compute_entry w round self).2).
Proof using KE.
  intros Hw [Ht Hc]. unfold compute_entry.
  pose proof (keyed_inv w round _ Hw Ht) as Hinv.
  pose proof (λ key, keyed_answer w _ round key Hw Ht) as Hans.
  destruct (get_valid_proposer_and_ratio w round (cpe_proposer_election self)) as [t' r].
  split; [by split|]. exact Hans.
Qed.

Lemma get_or_compute_entry_spec w round (self : Cached) :
  valid w → cache_inv self →
  cache_inv (get_or_compute_entry w round self).1 ∧
  (∀ key, cache_key w (cpe_proposer_election self) round = Some key → fixed key →
     answers key (get_or_compute_entry w round self).2).
Proof using KE.
  intros Hw Hs. unfold get_or_compute_entry.
  destruct (cache_key w (cpe_proposer_election self) round) as [key|] eqn:Hk.
  2: { split; [by apply compute_entry_spec|]. intros key [=]. }
  set (self1 := if cpe_window self <? round then _ else self).
  assert (cache_inv self1 ∧ cpe_proposer_election self1 = cpe_proposer_election self) as [Hs1 He].
  { unfold self1. case_match; [|done]. split; [by apply cache_inv_split|done]. }
  clearbody self1. destruct (cpe_recent_elections self1 !! key) as [entry|] eqn:Hl.
  { split; [done|]. intros k [= <-] Hf. by apply Hs1. }
  destruct (compute_entry_spec w round self1 Hw Hs1) as [Hinv Hans]. rewrite He in Hans.
  unfold mbind, SM_bind, modify.
  destruct (compute_entry w round self1) as [self2 [entry|e|]]; simpl in *;
    [|split; [done|]; by intros k [= <-]; apply Hans..].
  split; [|by intros k [= <-]; apply Hans]. destruct Hinv as [Ht Hc]. split; [done|].
  cbn. intros k entry' [[<- <-]|[_ ?]]%lookup_insert_Some Hf; [|by apply Hc].
  by apply Hans.
Qed.

Lemma run_queries_inv queries (self : Cached) :
  Forall (λ q, valid q.1) queries → cache_inv self → cache_inv (run_queries queries self).
Proof using KE.
  intros Hq. revert self. induction Hq as [|[w round] l Hw _ IH]; intros self Hs; [done|].
  simpl. apply IH. by apply get_or_compute_entry_spec.
Qed.

(** The cache keeps to its window. *)
Lemma get_or_compute_entry_window w round (self : Cached) key :
  cache_key w (cpe_proposer_election self) round = Some key →
  0 ≤ cpe_window self < round →
  map_Forall (λ k _, round - cpe_window self ≤ pek_round k)
    (cpe_recent_elections (get_or_compute_entry w round self).1).
Proof using KE.
  intros Hk Hwin. unfold get_or_compute_entry. rewrite Hk.
  destruct (Z.ltb_spec (cpe_window self) round) as [_|]; [|lia].
  set (self1 := cpe_with _ _ _).
  assert (map_Forall (λ k _, round - cpe_window self ≤ pek_round k) (cpe_recent_elections self1)) as H1.
  { intros k e. unfold self1. cbn. unfold split_off. rewrite map_lookup_filter_Some.
    unfold ProposerElectionCacheKey_leb. cbn. intros [_ Hle].
    apply orb_true_iff in Hle as [Hle|Hle]; bool_to_prop; lia. }
  destruct (cpe_recent_elections self1 !! key) as [entry|] eqn:Hl; [done|].
  unfold mbind, SM_bind, modify, compute_entry.
  destruct (get_valid_proposer_and_ratio w round _) as [t' [entry|e|]]; simpl; [|done..].
  apply map_Forall_insert_2; [|done]. apply keyed_round in Hk. lia.
Qed.

End cached.

End elections.
