(* ===== verification/Reputation.v ===== *)
(** Leader reputation (consensus/src/liveness/leader_reputation.rs): the
    history of committed blocks, the counters over a window of it, the
    heuristic that turns counters or on-chain performances into weights, the
    election that draws the proposer by weight and voting power, and the
    committed anchor (consensusdb/mod.rs) that post-fork elections read their
    performances at. *)
From S2P Require Import Prelude Laptos Certificates Block Elections.

(** The block whose state a configuration is read at. *)
Inductive BlockNumber : Type :=
| Latest
| Number (n : Z).

(** What the reputation reads of the laptos crates. *)
Class ReputationLib `{L : Laptos} : Type := {
  NewBlockEvent : Type;
  NewBlockEvent_epoch : NewBlockEvent → Z;
  NewBlockEvent_round : NewBlockEvent → Z;
  NewBlockEvent_proposer : NewBlockEvent → AccountAddress;
  NewBlockEvent_failed_proposer_indices : NewBlockEvent → list Z;
  (** [previous_block_votes_bitvec().clone().into()] *)
  NewBlockEvent_previous_block_votes_bitvec : NewBlockEvent → BitVec;
  EventData : Type;
  NewBlockEvent_from_bytes : EventData → result anyhow NewBlockEvent;
  BitVec_required_buckets : Z → nat;
  BitVec_num_buckets : BitVec → nat;
  BitVec_is_set : BitVec → Z → bool;
  (** the successful and the failed proposals of each validator, as decoded
      from the bytes of a configuration, and the largest value of their type *)
  ConfigBytes : Type;
  ValidatorPerformances_from_bytes : ConfigBytes → result anyhow (list (Z * Z));
  PERFORMANCE_MAX : Z;
  CHAIN_HEALTH_WINDOW_SIZES : list nat;
}.

Section reputation.
Context `{L : Laptos} `{EL : !ElectionLib} `{RL : !ReputationLib} `{!CryptoHash VoteData}.
#[local] Abbreviation Author := AccountAddress.

(** The committed anchor of consensusdb/mod.rs. *)
Record CommittedBlockAnchor : Type := {
  cba_block_number : Z;
  cba_timestamp_usecs : Z;
  cba_block_hash : HashValue;
}.

(** The data other tasks change: the committed ledger infos by block number,
    each of which may fail to be read, the configuration storage once it is
    set, and the database of events. *)
Record World : Type := {
  w_ledger_infos : result anyhow (list (result anyhow (Z * LedgerInfoWithSignatures)));
  w_config_storage : option (BlockNumber → option ConfigBytes);
  w_latest_block_events : nat → result anyhow (list (EventData * Z));
  w_latest_ledger_info_version : result anyhow Z;
  w_accumulator_root_hash : Z → result anyhow HashValue;
}.

(** The loop of [get_reputation_anchor] over the ledger infos, newest first. *)
Fixpoint find_reputation_anchor (target_epoch target_round : Z)
    (iter : list (result anyhow (Z * LedgerInfoWithSignatures))) :
    result anyhow (option CommittedBlockAnchor) :=
  match iter with
  | [] => Ok None
  | item :: iter =>
      '(_, ledger_info_with_sigs) ← item;
      let ledger_info := LedgerInfoWithSignatures_ledger_info ledger_info_with_sigs in
      let commit_info := LedgerInfo_commit_info ledger_info in
      let starts_target :=
        match BlockInfo_next_epoch_state commit_info with
        | Some next_epoch_state => EpochState_epoch next_epoch_state =? target_epoch
        | None => false
        end in
      if starts_target then
        match BlockInfo_epoch_block_info commit_info with
        | Some info =>
            Ok (Some {| cba_block_number := ebi_block_number info;
                        cba_timestamp_usecs := ebi_epoch_start_timestamp_usecs info;
                        cba_block_hash := ebi_block_hash info |})
        | None => find_reputation_anchor target_epoch target_round iter
        end
      else if bool_decide (BlockInfo_next_epoch_state commit_info = None) &&
              (BlockInfo_epoch commit_info =? target_epoch) &&
              (BlockInfo_round commit_info <=? target_round) then
        Ok (Some {| cba_block_number := LedgerInfo_block_number ledger_info;
                    cba_timestamp_usecs := LedgerInfo_timestamp_usecs ledger_info;
                    cba_block_hash := LedgerInfo_block_hash ledger_info |})
      else if u64_saturating_add (BlockInfo_epoch commit_info) 1 <? target_epoch then Ok None
      else find_reputation_anchor target_epoch target_round iter
  end.

Definition get_reputation_anchor (w : World) (target_epoch target_round : Z) :
    result anyhow (option CommittedBlockAnchor) :=
  items ← w_ledger_infos w;
  find_reputation_anchor target_epoch target_round (reverse items).

(** [ConsensusDBReputationAnchorBackend::get_anchor]. *)
Definition get_anchor (w : World) (target_epoch target_round : Z) :
    result anyhow (option CommittedBlockAnchor) :=
  get_reputation_anchor w target_epoch target_round.

(** ** AptosDBBackend *)

Record VersionedNewBlockEvent : Type := {
  vnbe_event : NewBlockEvent;
  vnbe_version : Z;
}.

Record AptosDBBackend : Type := {
  adb_window_size : nat;
  adb_seek_len : nat;
  adb_db_result : option (list VersionedNewBlockEvent * Z * bool);
}.

Definition AptosDBBackend_new (window_size seek_len : nat) : AptosDBBackend :=
  {| adb_window_size := window_size; adb_seek_len := seek_len; adb_db_result := None |}.

Definition versioned_event (event : EventData * Z) : result anyhow VersionedNewBlockEvent :=
  e ← NewBlockEvent_from_bytes event.1;
  Ok {| vnbe_event := e; vnbe_version := event.2 |}.

Definition refresh_db_result (w : World) (latest_db_version : Z) :
    SM AptosDBBackend anyhow (list VersionedNewBlockEvent * Z * bool) := λ self,
  let limit := (adb_window_size self + adb_seek_len self)%nat in
  match
    (events ← w_latest_block_events w limit;
     let max_returned_version := match events with [] => 0 | first :: _ => first.2 end in
     new_block_events ← mapM versioned_event events;
     let hit_end := (length new_block_events <? limit)%nat in
     mret (new_block_events, Z.max latest_db_version max_returned_version, hit_end))
  with
  | Ok r => ({| adb_window_size := adb_window_size self; adb_seek_len := adb_seek_len self;
                adb_db_result := Some r |}, Ok r)
  | e => (self, e)
  end.

(** The lexicographic order of (epoch, round). *)
Definition event_order_leb (a b : Z * Z) : bool :=
  (a.1 <? b.1) || (a.1 =? b.1) && (a.2 <=? b.2).
Definition event_epoch_round (e : NewBlockEvent) : Z * Z :=
  (NewBlockEvent_epoch e, NewBlockEvent_round e).

Definition get_from_db_result (w : World) (self : AptosDBBackend) (target_epoch target_round : Z)
    (events : list VersionedNewBlockEvent) : list NewBlockEvent * HashValue :=
  let '(max_version, result) :=
    foldl (λ '(max_version, result) event,
        if event_order_leb (event_epoch_round (vnbe_event event)) (target_epoch, target_round) &&
           (length result <? adb_window_size self)%nat
        then (Z.max max_version (vnbe_version event), result ++ [vnbe_event event])
        else (max_version, result))
      (0, []) events in
  match result with
  | [] => ([], HashValue_zero)
  | _ =>
      (result,
       match w_accumulator_root_hash w max_version with Ok h => h | _ => HashValue_zero end)
  end.

Definition get_block_metadata (w : World) (target_epoch target_round : Z) :
    SM AptosDBBackend anyhow (list NewBlockEvent * HashValue) := λ self,
  let latest_db_version := match w_latest_ledger_info_version w with Ok v => v | _ => 0 end in
  let '(self, cached) :=
    match adb_db_result self with
    | None => refresh_db_result w latest_db_version self
    | Some r => (self, Ok r)
    end in
  match cached with
  | Err _ => (self, Ok ([], HashValue_zero))
  | Panic => (self, Panic)
  | Ok (events, version, _) =>
      let has_larger :=
        match events with
        | [] => false
        | e :: _ => event_order_leb (target_epoch, target_round) (event_epoch_round (vnbe_event e))
        end in
      if negb has_larger && (version <? latest_db_version) then
        match refresh_db_result w latest_db_version self with
        | (self, Ok (events, _, _)) =>
            (self, Ok (get_from_db_result w self target_epoch target_round events))
        | (self, Err _) => (self, Ok ([], HashValue_zero))
        | (self, Panic) => (self, Panic)
        end
      else (self, Ok (get_from_db_result w self target_epoch target_round events))
  end.

(** ** NewBlockEventAggregation *)

Record NewBlockEventAggregation : Type := {
  nba_voter_window_size : nat;
  nba_proposer_window_size : nat;
  nba_reputation_window_from_stale_end : bool;
}.

(** [as u16] keeps the low 16 bits. *)
Definition as_u16 (n : nat) : Z := Z.of_nat n mod 65536.

Definition bitvec_to_voters (validators : list Author) (bitvec : BitVec) :
    result string (list Author) :=
  if (BitVec_required_buckets (as_u16 (length validators)) =? BitVec_num_buckets bitvec)%nat then
    Ok (omap id (imap (λ index validator,
          if BitVec_is_set bitvec (as_u16 index) then Some validator else None) validators))
  else Err "bitvec bucket does not match validators len".

Definition indices_to_validators (validators : list Author) (indices : list Z) :
    result string (list Author) :=
  mapM (λ index, ok_or (validators !! Z.to_nat index) "index is larger than number of validators")
    indices.

Definition history_iter (history : list NewBlockEvent)
    (epoch_to_candidates : gmap Z (list Author)) (window_size : nat) (from_stale_end : bool) :
    result anyhow (list NewBlockEvent) :=
  sub_history ←
    (if from_stale_end then
       let start :=
         (if window_size <? length history then length history - window_size else 0)%nat in
       Ok (drop start history)
     else
       _ ← match head history, last history with
           | Some first, Some last =>
               if event_order_leb (event_epoch_round last) (event_epoch_round first)
               then Ok tt else Panic
           | _, _ => Ok tt
           end;
       let end_ := (if window_size <? length history then window_size else length history)%nat in
       Ok (take end_ history));
  Ok (filter (λ meta, is_Some (epoch_to_candidates !! NewBlockEvent_epoch meta)) sub_history).

(** [map.entry(author).or_insert(0)], then a saturating increment. *)
Definition count_one (map : gmap Author Z) (author : Author) : gmap Author Z :=
  <[author := u32_saturating_add (default 0 (map !! author)) 1]> map.

Definition count_votes_custom (epoch_to_candidates : gmap Z (list Author))
    (history : list NewBlockEvent) (window_size : nat) (from_stale_end : bool) :
    result anyhow (gmap Author Z) :=
  events ← history_iter history epoch_to_candidates window_size from_stale_end;
  fold_result (λ map meta,
    match epoch_to_candidates !! NewBlockEvent_epoch meta with
    | None => Panic
    | Some validators =>
        match bitvec_to_voters validators (NewBlockEvent_previous_block_votes_bitvec meta) with
        | Ok voters => Ok (foldl count_one map voters)
        | Err _ => Ok map
        | Panic => Panic
        end
    end) ∅ events.

Definition count_votes (self : NewBlockEventAggregation)
    (epoch_to_candidates : gmap Z (list Author)) (history : list NewBlockEvent) :
    result anyhow (gmap Author Z) :=
  count_votes_custom epoch_to_candidates history (nba_voter_window_size self)
    (nba_reputation_window_from_stale_end self).

Definition count_proposals_custom (epoch_to_candidates : gmap Z (list Author))
    (history : list NewBlockEvent) (window_size : nat) (from_stale_end : bool) :
    result anyhow (gmap Author Z) :=
  events ← history_iter history epoch_to_candidates window_size from_stale_end;
  Ok (foldl (λ map meta, count_one map (NewBlockEvent_proposer meta)) ∅ events).

Definition count_proposals (self : NewBlockEventAggregation)
    (epoch_to_candidates : gmap Z (list Author)) (history : list NewBlockEvent) :
    result anyhow (gmap Author Z) :=
  count_proposals_custom epoch_to_candidates history (nba_proposer_window_size self)
    (nba_reputation_window_from_stale_end self).

Definition count_failed_proposals (self : NewBlockEventAggregation)
    (epoch_to_candidates : gmap Z (list Author)) (history : list NewBlockEvent) :
    result anyhow (gmap Author Z) :=
  events ← history_iter history epoch_to_candidates (nba_proposer_window_size self)
             (nba_reputation_window_from_stale_end self);
  fold_result (λ map meta,
    match epoch_to_candidates !! NewBlockEvent_epoch meta with
    | None => Panic
    | Some validators =>
        match indices_to_validators validators (NewBlockEvent_failed_proposer_indices meta) with
        | Ok failed_proposers => Ok (foldl count_one map failed_proposers)
        | Err _ => Ok map
        | Panic => Panic
        end
    end) ∅ events.

(** The size reported to the metrics is a sum of [u32]s that may overflow. *)
Definition get_aggregated_metrics (self : NewBlockEventAggregation)
    (epoch_to_candidates : gmap Z (list Author)) (history : list NewBlockEvent) :
    result anyhow (gmap Author Z * gmap Author Z * gmap Author Z) :=
  votes ← count_votes self epoch_to_candidates history;
  proposals ← count_proposals self epoch_to_candidates history;
  failed_proposals ← count_failed_proposals self epoch_to_candidates history;
  _ ← u32_sum (map_to_list proposals).*2;
  _ ← u32_sum (map_to_list failed_proposals).*2;
  Ok (votes, proposals, failed_proposals).

(** ** The heuristics *)

Class ReputationHeuristic (H : Type) : Type := {
  get_weights : H → Z → gmap Z (list Author) → list NewBlockEvent → result anyhow (list Z);
  get_legacy_weights :
    World → Z → gmap Z (list Author) → list NewBlockEvent → SM H anyhow (list Z);
  get_weights_at_block : World → Z → gmap Z (list Author) → Z → SM H anyhow (list Z);
  get_fallback_weights : H → Z → gmap Z (list Author) → result anyhow (list Z);
}.

Definition LEGACY_PERFORMANCE_CACHE_REFRESH_CALLS : Z := 100.

Record ProposerAndVoterHeuristic : Type := {
  pvh_author : Author;
  pvh_active_weight : Z;
  pvh_inactive_weight : Z;
  pvh_failed_weight : Z;
  pvh_failure_threshold_percent : Z;
  pvh_aggregation : NewBlockEventAggregation;
  pvh_legacy_cached_weights : Z * option (list Z);
  pvh_anchored_cached_weights : option (Z * list Z);
}.

Definition ProposerAndVoterHeuristic_new (author : Author)
    (active_weight inactive_weight failed_weight failure_threshold_percent : Z)
    (voter_window_size proposer_window_size : nat) (reputation_window_from_stale_end : bool) :
    ProposerAndVoterHeuristic :=
  {| pvh_author := author; pvh_active_weight := active_weight;
     pvh_inactive_weight := inactive_weight; pvh_failed_weight := failed_weight;
     pvh_failure_threshold_percent := failure_threshold_percent;
     pvh_aggregation :=
       {| nba_voter_window_size := voter_window_size;
          nba_proposer_window_size := proposer_window_size;
          nba_reputation_window_from_stale_end := reputation_window_from_stale_end |};
     pvh_legacy_cached_weights := (0, None); pvh_anchored_cached_weights := None |}.

Definition pvh_with_caches (legacy : Z * option (list Z)) (anchored : option (Z * list Z))
    (self : ProposerAndVoterHeuristic) : ProposerAndVoterHeuristic :=
  {| pvh_author := pvh_author self; pvh_active_weight := pvh_active_weight self;
     pvh_inactive_weight := pvh_inactive_weight self; pvh_failed_weight := pvh_failed_weight self;
     pvh_failure_threshold_percent := pvh_failure_threshold_percent self;
     pvh_aggregation := pvh_aggregation self;
     pvh_legacy_cached_weights := legacy; pvh_anchored_cached_weights := anchored |}.

(** The performances the configuration storage holds at a block. *)
Definition fetch_performances (w : World) (block_number : BlockNumber) :
    result anyhow (list (Z * Z)) :=
  storage ← ok_or (w_config_storage w) "global config storage is not initialized";
  bytes_res ← ok_or (storage block_number) "ValidatorPerformances unavailable";
  map_err (λ _, "ValidatorPerformances BCS decode failed")
    (ValidatorPerformances_from_bytes bytes_res).

(** The weight of one validator's (successful, failed) proposals. *)
Definition performance_weight (self : ProposerAndVoterHeuristic) (p : Z * Z) : result anyhow Z :=
  let '(successful_proposals, failed_proposals) := p in
  total ← (if successful_proposals + failed_proposals <=? PERFORMANCE_MAX
           then Ok (successful_proposals + failed_proposals) else Panic);
  if 0 <? total then
    lhs ← u64_mul failed_proposals 100;
    rhs ← u64_mul total (pvh_failure_threshold_percent self);
    if rhs <? lhs then Ok (pvh_failed_weight self) else Ok (pvh_active_weight self)
  else Ok (pvh_inactive_weight self).

Definition fetch_and_compute_weights (w : World) (self : ProposerAndVoterHeuristic)
    (candidates : list Author) (block_number : BlockNumber) : result anyhow (list Z) :=
  validators ← fetch_performances w block_number;
  _ ← ensure (length validators =? length candidates)%nat "ValidatorPerformances length mismatch";
  mapM (performance_weight self) validators.

(** The weight the counters of a window give an author, in [u32] arithmetic. *)
Definition history_weight (self : ProposerAndVoterHeuristic)
    (votes proposals failed_proposals : gmap Author Z) (author : Author) : result anyhow Z :=
  let cur_votes := default 0 (votes !! author) in
  let cur_proposals := default 0 (proposals !! author) in
  let cur_failed_proposals := default 0 (failed_proposals !! author) in
  lhs ← u32_mul cur_failed_proposals 100;
  rounds ← u32_add cur_proposals cur_failed_proposals;
  rhs ← u32_mul rounds (pvh_failure_threshold_percent self);
  if rhs <? lhs then Ok (pvh_failed_weight self)
  else if (0 <? cur_proposals) || (0 <? cur_votes) then Ok (pvh_active_weight self)
  else Ok (pvh_inactive_weight self).

Definition pvh_get_weights (self : ProposerAndVoterHeuristic) (epoch : Z)
    (epoch_to_candidates : gmap Z (list Author)) (history : list NewBlockEvent) :
    result anyhow (list Z) :=
  match epoch_to_candidates !! epoch with
  | None => Panic
  | Some candidates =>
      '(votes, proposals, failed_proposals) ←
        get_aggregated_metrics (pvh_aggregation self) epoch_to_candidates history;
      mapM (history_weight self votes proposals failed_proposals) candidates
  end.

Definition pvh_get_legacy_weights (w : World) (epoch : Z)
    (epoch_to_candidates : gmap Z (list Author)) (history : list NewBlockEvent) :
    SM ProposerAndVoterHeuristic anyhow (list Z) := λ self,
  match epoch_to_candidates !! epoch with
  | None => (self, Panic)
  | Some candidates =>
      let '(counter, cached) := pvh_legacy_cached_weights self in
      let fresh :=
        match cached with
        | Some weights =>
            if (length weights =? length candidates)%nat &&
               negb (counter mod LEGACY_PERFORMANCE_CACHE_REFRESH_CALLS =? 0)
            then Some weights else None
        | None => None
        end in
      match fresh with
      | Some weights =>
          match u64_add (E:=anyhow) counter 1 with
          | Ok c => (pvh_with_caches (c, cached) (pvh_anchored_cached_weights self) self, Ok weights)
          | _ => (self, Panic)
          end
      | None =>
          match
            (weights ← match fetch_and_compute_weights w self candidates Latest with
                       | Err _ => Ok ((λ _, pvh_active_weight self) <$> candidates)
                       | r => r
                       end;
             c ← u64_add counter 1;
             mret (c, weights))
          with
          | Ok (c, weights) =>
              (pvh_with_caches (c, Some weights) (pvh_anchored_cached_weights self) self, Ok weights)
          | Err e => (self, Err e)
          | Panic => (self, Panic)
          end
      end
  end.

Definition pvh_get_weights_at_block (w : World) (epoch : Z)
    (epoch_to_candidates : gmap Z (list Author)) (block_number : Z) :
    SM ProposerAndVoterHeuristic anyhow (list Z) := λ self,
  match epoch_to_candidates !! epoch with
  | None => (self, Err "missing proposer candidates for epoch")
  | Some candidates =>
      let hit :=
        match pvh_anchored_cached_weights self with
        | Some (cached_block_number, cached_weights) =>
            if (cached_block_number =? block_number) &&
               (length cached_weights =? length candidates)%nat
            then Some cached_weights else None
        | None => None
        end in
      match hit with
      | Some cached_weights => (self, Ok cached_weights)
      | None =>
          match fetch_and_compute_weights w self candidates (Number block_number) with
          | Ok weights =>
              (pvh_with_caches (pvh_legacy_cached_weights self) (Some (block_number, weights)) self,
               Ok weights)
          | e => (self, e)
          end
      end
  end.

Definition pvh_get_fallback_weights (self : ProposerAndVoterHeuristic) (epoch : Z)
    (epoch_to_candidates : gmap Z (list Author)) : list Z :=
  match epoch_to_candidates !! epoch with
  | Some candidates => (λ _, pvh_active_weight self) <$> candidates
  | None => []
  end.

#[global] Instance ProposerAndVoterHeuristic_heuristic :
    ReputationHeuristic ProposerAndVoterHeuristic := {
  get_weights := pvh_get_weights;
  get_legacy_weights := pvh_get_legacy_weights;
  get_weights_at_block := pvh_get_weights_at_block;
  get_fallback_weights self epoch candidates := Ok (pvh_get_fallback_weights self epoch candidates);
}.

(** ** LeaderReputation *)

Section leader.
Context {H : Type} `{RH : !ReputationHeuristic H}.

(** The anchor backend, once set, is the consensus database of the [World]. *)
Record LeaderReputation : Type := {
  lr_epoch : Z;
  lr_epoch_to_proposers : gmap Z (list Author);
  lr_voting_powers : list Z;
  lr_backend : AptosDBBackend;
  lr_reputation_anchor_backend : bool;
  lr_heuristic : H;
  lr_exclude_round : Z;
  lr_use_root_hash : bool;
  lr_window_for_chain_health : nat;
}.

Definition LeaderReputation_new (epoch : Z) (epoch_to_proposers : gmap Z (list Author))
    (voting_powers : list Z) (backend : AptosDBBackend) (heuristic : H) (exclude_round : Z)
    (use_root_hash : bool) (window_for_chain_health : nat) : result anyhow LeaderReputation :=
  match epoch_to_proposers !! epoch with
  | None => Panic
  | Some proposers =>
      if (length proposers =? length voting_powers)%nat then
        Ok {| lr_epoch := epoch; lr_epoch_to_proposers := epoch_to_proposers;
              lr_voting_powers := voting_powers; lr_backend := backend;
              lr_reputation_anchor_backend := false; lr_heuristic := heuristic;
              lr_exclude_round := exclude_round; lr_use_root_hash := use_root_hash;
              lr_window_for_chain_health := window_for_chain_health |}
      else Panic
  end.

Definition lr_with (backend : AptosDBBackend) (anchored : bool) (heuristic : H)
    (self : LeaderReputation) : LeaderReputation :=
  {| lr_epoch := lr_epoch self; lr_epoch_to_proposers := lr_epoch_to_proposers self;
     lr_voting_powers := lr_voting_powers self; lr_backend := backend;
     lr_reputation_anchor_backend := anchored; lr_heuristic := heuristic;
     lr_exclude_round := lr_exclude_round self; lr_use_root_hash := lr_use_root_hash self;
     lr_window_for_chain_health := lr_window_for_chain_health self |}.

Definition with_reputation_anchor_backend (self : LeaderReputation) : LeaderReputation :=
  lr_with (lr_backend self) true (lr_heuristic self) self.

Definition is_consensus_alpha_active (self : LeaderReputation)
    (anchor : option CommittedBlockAnchor) : bool :=
  is_consensus_alpha_active_at_epoch (lr_epoch self) ||
  match anchor with
  | Some anchor => is_consensus_alpha_active_at (cba_timestamp_usecs anchor)
  | None => false
  end.

(** One window of [compute_chain_health_and_add_metrics]; the metrics are left
    out. *)
Definition chain_health_window (self : LeaderReputation) (candidates : list Author)
    (total_voting_power : F64) (history : list NewBlockEvent) (round : Z) (current : option F64)
    (participants_window_size : nat) : result anyhow (option F64) :=
  let chosen := (lr_window_for_chain_health self =? participants_window_size)%nat in
  let sample_fraction := (participants_window_size / 10)%nat in
  if chosen || (sample_fraction <=? 1)%nat || (round mod Z.of_nat sample_fraction =? 1) then
    votes ← count_votes_custom (lr_epoch_to_proposers self) history participants_window_size false;
    proposals ←
      count_proposals_custom (lr_epoch_to_proposers self) history participants_window_size false;
    let participants : gset Author := dom votes ∪ dom proposals in
    let participating_voting_power :=
      f64_sum ((λ p, f64_from_u64 p.2) <$>
        filter (λ p : Author * Z, p.1 ∈ participants) (zip candidates (lr_voting_powers self))) in
    _ ← u64_sub (Z.of_nat (length CHAIN_HEALTH_WINDOW_SIZES)) 2;
    if chosen then
      Ok (Some
        (if bool_decide (history = []) ||
            (length history <? participants_window_size)%nat && (lr_epoch self <=? 2) then f64_one
         else if f64_ge total_voting_power f64_one
         then f64_div participating_voting_power total_voting_power
         else f64_one))
    else Ok current
  else Ok current.

Definition compute_chain_health_and_add_metrics (self : LeaderReputation)
    (history : list NewBlockEvent) (round : Z) : result anyhow F64 :=
  match lr_epoch_to_proposers self !! lr_epoch self with
  | None => Panic
  | Some candidates =>
      let total_voting_power := f64_sum (f64_from_u64 <$> lr_voting_powers self) in
      result ← fold_result (chain_health_window self candidates total_voting_power history round)
                 None CHAIN_HEALTH_WINDOW_SIZES;
      match result with Some ratio => Ok ratio | None => Panic end
  end.

Definition lr_target_round (self : LeaderReputation) (round : Z) : Z :=
  u64_saturating_sub round (lr_exclude_round self).

Definition anchor_version (anchor : CommittedBlockAnchor) : list Z :=
  to_le_bytes 8 (cba_block_number anchor) ++ to_le_bytes 8 (cba_timestamp_usecs anchor) ++
  HashValue_to_vec (cba_block_hash anchor).

Definition lr_cache_key (w : World) (self : LeaderReputation) (round : Z) :
    option ProposerElectionCacheKey :=
  if lr_reputation_anchor_backend self then
    match get_anchor w (lr_epoch self) (lr_target_round self round) with
    | Ok (Some anchor) =>
        Some (ProposerElectionCacheKey_with_version round (anchor_version anchor))
    | _ => None
    end
  else Some (ProposerElectionCacheKey_new round).

(** The anchor an election for a round resolves; a read error counts as none. *)
Definition lr_anchor (w : World) (self : LeaderReputation) (round : Z) :
    option CommittedBlockAnchor :=
  if lr_reputation_anchor_backend self then
    match get_anchor w (lr_epoch self) (lr_target_round self round) with
    | Ok anchor => anchor
    | _ => None
    end
  else None.

(** The sliding window, the root hash and the weights of an election. *)
Definition election_inputs (w : World) (round : Z) :
    SM LeaderReputation anyhow (list NewBlockEvent * HashValue * list Z) := λ self,
  let target_round := lr_target_round self round in
  let anchor := lr_anchor w self round in
  let epoch := lr_epoch self in
  let proposers := lr_epoch_to_proposers self in
  if is_consensus_alpha_active self anchor then
    match anchor with
    | Some anchor =>
        let '(heuristic, weights) :=
          get_weights_at_block w epoch proposers (cba_block_number anchor) (lr_heuristic self) in
        let self := lr_with (lr_backend self) (lr_reputation_anchor_backend self) heuristic self in
        (self,
         weights ← match weights with
                   | Err _ => get_fallback_weights heuristic epoch proposers
                   | r => r
                   end;
         Ok ([], cba_block_hash anchor, weights))
    | None =>
        if lr_reputation_anchor_backend self then
          (self,
           weights ← get_fallback_weights (lr_heuristic self) epoch proposers;
           Ok ([], HashValue_zero, weights))
        else
          let '(backend, metadata) := get_block_metadata w epoch target_round (lr_backend self) in
          let self := lr_with backend (lr_reputation_anchor_backend self) (lr_heuristic self) self in
          (self,
           '(history, root_hash) ← metadata;
           weights ← get_weights (lr_heuristic self) epoch proposers history;
           Ok (history, root_hash, weights))
    end
  else
    let '(heuristic, weights) := get_legacy_weights w epoch proposers [] (lr_heuristic self) in
    (lr_with (lr_backend self) (lr_reputation_anchor_backend self) heuristic self,
     weights ← weights; Ok ([], HashValue_zero, weights)).

Fixpoint stake_weights (weights voting_powers : list Z) : result anyhow (list Z) :=
  match weights, voting_powers with
  | [], _ => Ok []
  | _ :: _, [] => Panic
  | w :: weights, v :: voting_powers =>
      s ← u128_mul w v;
      rest ← stake_weights weights voting_powers;
      Ok (s :: rest)
  end.

Definition election_state (self : LeaderReputation) (root_hash : HashValue) (round : Z) : list Z :=
  if lr_use_root_hash self then
    HashValue_to_vec root_hash ++ to_le_bytes 8 (lr_epoch self) ++ to_le_bytes 8 round
  else to_le_bytes 8 (lr_epoch self) ++ to_le_bytes 8 round.

(** What follows once the inputs are known. *)
Definition elect (self : LeaderReputation) (round : Z)
    (inputs : list NewBlockEvent * HashValue * list Z) : result anyhow (Author * F64) :=
  let '(sliding_window, root_hash, weights) := inputs in
  ratio ← compute_chain_health_and_add_metrics self sliding_window round;
  match lr_epoch_to_proposers self !! lr_epoch self with
  | None => Panic
  | Some proposers =>
      if negb (length weights =? length proposers)%nat then Panic
      else
        stakes ← stake_weights weights (lr_voting_powers self);
        chosen_index ← choose_index stakes (election_state self root_hash round);
        match proposers !! chosen_index with
        | Some proposer => Ok (proposer, ratio)
        | None => Panic
        end
  end.

(** The map lookup of the current epoch's proposers comes before the inputs and
    panics without an entry. *)
Definition lr_get_valid_proposer_and_ratio (w : World) (round : Z) :
    SM LeaderReputation anyhow (Author * F64) := λ self,
  match lr_epoch_to_proposers self !! lr_epoch self with
  | None => (self, Panic)
  | Some _ =>
      let '(self, inputs) := election_inputs w round self in
      (self, inputs ← inputs; elect self round inputs)
  end.

#[global] Instance LeaderReputation_election : ProposerElection World LeaderReputation := {
  get_valid_proposer w round := r ← lr_get_valid_proposer_and_ratio w round; mret r.1;
  get_voting_power_participation_ratio w round :=
    r ← lr_get_valid_proposer_and_ratio w round; mret r.2;
  get_valid_proposer_and_ratio := lr_get_valid_proposer_and_ratio;
  cache_key := lr_cache_key;
}.

End leader.

(** ** The proposers of earlier epochs *)

Fixpoint extract_epochs (last_index : nat) (epoch : Z) (proposers : list Author)
    (needed_rounds : Z) (epochs : list (nat * (EpochState * Z))) (num_rounds : Z)
    (acc : gmap Z (list Author)) : result anyhow (gmap Z (list Author)) :=
  match epochs with
  | [] => Ok acc
  | (index, (next_epoch_state, cur_epoch_rounds)) :: epochs =>
      let next_epoch_proposers :=
        ValidatorVerifier_get_ordered_account_addresses (EpochState_verifier next_epoch_state) in
      _ ← (if (index =? last_index)%nat then
             _ ← ensure (epoch =? EpochState_epoch next_epoch_state)
                   "fetched epoch_ending ledger_infos are for a wrong epoch";
             ensure (bool_decide (proposers = next_epoch_proposers))
               "proposers from state and fetched epoch_ending ledger_infos are missaligned"
           else Ok tt);
      let acc := <[EpochState_epoch next_epoch_state := next_epoch_proposers]> acc in
      if needed_rounds <? num_rounds then Ok acc
      else
        num_rounds ← u64_add num_rounds cur_epoch_rounds;
        extract_epochs last_index epoch proposers needed_rounds epochs num_rounds acc
  end.

(** [len() - 1] underflows without epochs. *)
Definition extract_epoch_to_proposers_impl (epochs : list (EpochState * Z)) (epoch : Z)
    (proposers : list Author) (needed_rounds : Z) : result anyhow (gmap Z (list Author)) :=
  last_index ← u64_sub (Z.of_nat (length epochs)) 1;
  result ← extract_epochs (Z.to_nat last_index) epoch proposers needed_rounds
             (reverse (imap pair epochs)) 0 ∅;
  _ ← ensure (bool_decide (is_Some (result !! epoch))) "Current epoch not in fetched map";
  Ok result.

Definition extract_epoch_to_proposers (ledger_info_with_sigs : list LedgerInfoWithSignatures)
    (epoch : Z) (proposers : list Author) (needed_rounds : Z) :
    result anyhow (gmap Z (list Author)) :=
  epochs ← mapM (λ ledger_info,
      let info := LedgerInfoWithSignatures_ledger_info ledger_info in
      next_epoch_state ← ok_or (BlockInfo_next_epoch_state (LedgerInfo_commit_info info))
                           "no cur_epoch_state";
      Ok (next_epoch_state, LedgerInfo_round info)) ledger_info_with_sigs;
  extract_epoch_to_proposers_impl epochs epoch proposers needed_rounds.

End reputation.
