(* ===== verification/LeaderAgreement.v ===== *)
(** The validators agree on the leader: after the fork a cached
    reputation-based election (Elections.v over Reputation.v) answers with a
    function of the round and of the committed anchor it resolves, whatever
    was asked before and whatever its caches hold, up to reads of the storage
    that fail.  The election is proved
    against the interface of its heuristic, [AnchoredHeuristic], and the
    proposer-and-voter heuristic is proved to satisfy it. *)
From S2P Require Import Prelude Laptos Certificates Block Elections Reputation.

(** A hash is its bytes. *)
Class HashBytes `{L : Laptos} `{EL : !ElectionLib} : Prop := {
  HashValue_to_vec_inj h1 h2 : HashValue_to_vec h1 = HashValue_to_vec h2 → h1 = h2;
}.

Section agreement.
Context `{L : Laptos} `{EL : !ElectionLib} `{RL : !ReputationLib} `{!CryptoHash VoteData}.
#[local] Abbreviation Author := AccountAddress.

(** ** What an election over an anchor is to compute *)

(** The weight of (successful, failed) proposals, without machine arithmetic. *)
Definition spec_weight (h : ProposerAndVoterHeuristic) (p : Z * Z) : Z :=
  if p.1 + p.2 <=? 0 then pvh_inactive_weight h
  else if (p.1 + p.2) * pvh_failure_threshold_percent h <? p.2 * 100
  then pvh_failed_weight h else pvh_active_weight h.

(** All candidates count as active where the performances cannot be had. *)
Definition spec_weights (h : ProposerAndVoterHeuristic) (candidates : list Author)
    (performances : result anyhow (list (Z * Z))) : list Z :=
  match performances with
  | Ok validators =>
      if (length validators =? length candidates)%nat then spec_weight h <$> validators
      else (λ _, pvh_active_weight h) <$> candidates
  | _ => (λ _, pvh_active_weight h) <$> candidates
  end.

(** The stakes: weight times voting power. *)
Definition spec_stakes (weights voting_powers : list Z) : list Z :=
  zip_with Z.mul weights voting_powers.

(** The proposer drawn by stake from the seed. *)
Definition spec_leader {H} (lr : LeaderReputation (H:=H)) (candidates : list Author)
    (weights : list Z) (root_hash : HashValue) (round : Z) : option Author :=
  let stakes := spec_stakes weights (lr_voting_powers lr) in
  candidates !! weighted_choice (seed_value (election_state lr root_hash round) (sum_Z stakes)) stakes.

(** ** The heuristic's promise *)

Class AnchoredHeuristic {H} `{RH : !ReputationHeuristic H} (valid : World → Prop) (inv : H → Prop)
    (weights_at : list Author → Z → list Z → Prop) : Prop := {
  anchored_legacy w e c history h :
    valid w → inv h → inv (get_legacy_weights w e c history h).1;
  anchored_at_block w e c n h candidates :
    valid w → inv h → c !! e = Some candidates →
    inv (get_weights_at_block w e c n h).1 ∧
    ∃ weights, weights_at candidates n weights ∧
    match (get_weights_at_block w e c n h).2 with
    | Err _ => get_fallback_weights (get_weights_at_block w e c n h).1 e c
    | r => r
    end = Ok weights;
}.

(** ** The proposer-and-voter heuristic keeps it *)

Section heuristic.
(** The performances at each block, and the blocks for which a read fails in some
    world of a run. *)
Context (storage : Z → list (Z * Z)) (failed : Z → Prop) (h0 : ProposerAndVoterHeuristic).

(** A read gives the performances or fails. *)
Definition storage_agrees (w : World) : Prop :=
  ∀ n, fetch_performances w (Number n) = Ok (storage n) ∨
    failed n ∧ ∃ e, fetch_performances w (Number n) = Err e.

(** The weights of the performances, or those of a failed read. *)
Definition weights_read (candidates : list Author) (n : Z) (weights : list Z) : Prop :=
  ∃ performances, weights = spec_weights h0 candidates performances ∧
    (performances = Ok (storage n) ∨ failed n ∧ ∃ e, performances = Err e).

(** The bounds under which the weights are computed without overflow. *)
Definition performance_ok (p : Z * Z) : Prop :=
  0 ≤ p.1 ∧ 0 ≤ p.2 ∧ p.1 + p.2 ≤ PERFORMANCE_MAX ∧ p.2 * 100 ≤ u64_MAX ∧
  (p.1 + p.2) * pvh_failure_threshold_percent h0 ≤ u64_MAX.

(** The configuration of [h0], and a cache that holds what the storage gives. *)
Definition heuristic_inv (h : ProposerAndVoterHeuristic) : Prop :=
  pvh_with_caches (0, None) None h = pvh_with_caches (0, None) None h0 ∧
  ∀ n weights, pvh_anchored_cached_weights h = Some (n, weights) →
    weights = spec_weight h0 <$> storage n.

Context (Hperf : ∀ n, Forall performance_ok (storage n)).

Lemma performance_weight_spec h p :
  pvh_with_caches (0, None) None h = pvh_with_caches (0, None) None h0 →
  performance_ok p → performance_weight h p = Ok (spec_weight h0 p).
Proof using Type.
  intros [= _ Ha Hi Hf Ht _] (H1 & H2 & H3 & H4 & H5). destruct p as [s f]; simpl in *.
  unfold performance_weight, spec_weight, u64_mul; simpl. rewrite Ha, Hi, Hf, Ht.
  destruct (Z.leb_spec (s + f) PERFORMANCE_MAX); [|lia]. simpl.
  destruct (Z.leb_spec (s + f) 0), (Z.ltb_spec 0 (s + f)); [lia|done| |lia].
  destruct (Z.leb_spec (f * 100) u64_MAX); [|lia]. simpl.
  destruct (Z.leb_spec ((s + f) * pvh_failure_threshold_percent h0) u64_MAX); [|lia]. simpl.
  by case_match.
Qed.

Lemma mapM_performance_weight h validators :
  pvh_with_caches (0, None) None h = pvh_with_caches (0, None) None h0 →
  Forall performance_ok validators →
  mapM (performance_weight h) validators = Ok (spec_weight h0 <$> validators).
Proof using Type.
  intros Hh. induction 1 as [|p l Hp Hl IH]; [done|].
  cbn. by rewrite (performance_weight_spec h p Hh Hp), IH.
Qed.

(** Outcomes of the fetch at a block. *)
Lemma fetch_and_compute_weights_spec w h candidates n :
  storage_agrees w → pvh_with_caches (0, None) None h = pvh_with_caches (0, None) None h0 →
  match fetch_and_compute_weights w h candidates (Number n) with
  | Ok weights =>
      weights = spec_weights h0 candidates (Ok (storage n)) ∧ weights = spec_weight h0 <$> storage n
  | Err _ => weights_read candidates n ((λ _, pvh_active_weight h0) <$> candidates)
  | Panic => False
  end.
Proof using Hperf.
  intros Hw Hh. unfold fetch_and_compute_weights. destruct (Hw n) as [->|(Hf & e & ->)]; simpl.
  - destruct (length (storage n) =? length candidates)%nat eqn:Hl; simpl.
    + by rewrite mapM_performance_weight.
    + exists (Ok (storage n)). unfold spec_weights. rewrite Hl. auto.
  - exists (Err e). eauto.
Qed.

Lemma heuristic_inv_new : heuristic_inv (pvh_with_caches (0, None) None h0).
Proof using Type. split; [done|]. intros n weights [=]. Qed.

Lemma pvh_legacy_inv w e c history h :
  heuristic_inv h → heuristic_inv (pvh_get_legacy_weights w e c history h).1.
Proof using Type.
  intros Hinv. unfold pvh_get_legacy_weights. destruct (c !! e) as [candidates|]; [|done].
  destruct (pvh_legacy_cached_weights h) as [counter cached].
  repeat case_match; simplify_eq/=; exact Hinv.
Qed.

Lemma pvh_fallback_spec h e c candidates :
  pvh_with_caches (0, None) None h = pvh_with_caches (0, None) None h0 → c !! e = Some candidates →
  pvh_get_fallback_weights h e c = (λ _, pvh_active_weight h0) <$> candidates.
Proof using Type.
  intros [= _ Ha _ _ _ _] Hc. unfold pvh_get_fallback_weights. by rewrite Hc, Ha.
Qed.

Lemma pvh_at_block_spec w e c n h candidates :
  storage_agrees w → heuristic_inv h → c !! e = Some candidates →
  heuristic_inv (pvh_get_weights_at_block w e c n h).1 ∧
  ∃ weights, weights_read candidates n weights ∧
  match (pvh_get_weights_at_block w e c n h).2 with
  | Err _ =>
      Ok (pvh_get_fallback_weights (pvh_get_weights_at_block w e c n h).1 e c)
  | r => r
  end = Ok weights.
Proof using Hperf.
  intros Hw Hinv Hc. unfold pvh_get_weights_at_block. rewrite Hc. case_match eqn:Hhit.
  - split; [done|]. simpl. eexists. split; [|done]. exists (Ok (storage n)). split; [|by left].
    destruct (pvh_anchored_cached_weights h) as [[m weights]|] eqn:Ha; [|done].
    destruct (m =? n) eqn:Hm; [|done]. destruct (_ =? _)%nat eqn:Hl; simplify_eq/=.
    apply Z.eqb_eq in Hm as ->. destruct Hinv as [_ Hcache].
    rewrite (Hcache _ _ Ha) in Hl |- *. unfold spec_weights. by rewrite length_fmap in Hl; rewrite Hl.
  - pose proof (fetch_and_compute_weights_spec w h candidates n Hw (proj1 Hinv)) as Hf.
    destruct (fetch_and_compute_weights w h candidates (Number n)) as [weights|err|]; [| |done].
    + destruct Hf as (Heq & Hs). split; [|exists weights; split; [exists (Ok (storage n)); by auto|done]].
      split; [apply Hinv|]. cbn. by intros m ws [= <- <-].
    + split; [done|]. simpl. rewrite (pvh_fallback_spec h e c candidates (proj1 Hinv) Hc). eauto.
Qed.

Lemma length_spec_weights candidates performances :
  length (spec_weights h0 candidates performances) = length candidates.
Proof using Type.
  unfold spec_weights. destruct performances as [validators| |]; [|apply length_fmap..].
  destruct (Nat.eqb_spec (length validators) (length candidates)); by rewrite length_fmap.
Qed.

#[global] Instance ProposerAndVoterHeuristic_anchored :
  AnchoredHeuristic storage_agrees heuristic_inv weights_read.
Proof using Hperf.
  split.
  - intros w e c history h _. apply pvh_legacy_inv.
  - intros w e c n h candidates. apply pvh_at_block_spec.
Qed.

End heuristic.

(** ** Elections over an anchored heuristic *)

Section election.
Context {H} `{RH : !ReputationHeuristic H} `{HB : !HashBytes}.
Context {valid : World → Prop} {inv : H → Prop} {weights_at : list Author → Z → list Z → Prop}.
Context `{AH : !AnchoredHeuristic valid inv weights_at}.
Context (lr0 : LeaderReputation (H:=H)) (candidates : list Author).
Context (Hcand : lr_epoch_to_proposers lr0 !! lr_epoch lr0 = Some candidates).
Context (Hanchor : lr_reputation_anchor_backend lr0 = true).

(** The worlds of a run: anchors hold integers of 64 bits. *)
Definition anchors_u64 (w : World) : Prop :=
  ∀ e r a, get_anchor w e r = Ok (Some a) →
    is_u64 (cba_block_number a) ∧ is_u64 (cba_timestamp_usecs a).

(** The election is the one that started, up to its caches. *)
Definition election_inv (lr : LeaderReputation (H:=H)) : Prop :=
  lr_with (lr_backend lr0) (lr_reputation_anchor_backend lr) (lr_heuristic lr0) lr = lr0 ∧
  inv (lr_heuristic lr).

(** What is answered at an anchor. *)
Definition anchored_answer (a : CommittedBlockAnchor) (round : Z)
    (r : result anyhow (Author * F64)) : Prop :=
  ∃ weights, weights_at candidates (cba_block_number a) weights ∧
    r = elect lr0 round ([], cba_block_hash a, weights).

Definition key_at (a : CommittedBlockAnchor) (round : Z) : ProposerElectionCacheKey :=
  ProposerElectionCacheKey_with_version round (anchor_version a).

(** Keys of anchors past the fork. *)
Definition alpha_key (key : ProposerElectionCacheKey) : Prop :=
  ∃ a round, key = key_at a round ∧ is_u64 (cba_block_number a) ∧ is_u64 (cba_timestamp_usecs a) ∧
    is_consensus_alpha_active lr0 (Some a) = true.

Definition alpha_answers (key : ProposerElectionCacheKey) (r : result anyhow (Author * F64)) : Prop :=
  ∀ a round, key = key_at a round → is_u64 (cba_block_number a) →
    is_u64 (cba_timestamp_usecs a) → anchored_answer a round r.

Lemma anchor_version_inj a b :
  is_u64 (cba_block_number a) → is_u64 (cba_timestamp_usecs a) →
  is_u64 (cba_block_number b) → is_u64 (cba_timestamp_usecs b) →
  anchor_version a = anchor_version b → a = b.
Proof using HB.
  unfold anchor_version, is_u64, u64_MAX. intros Hn Ht Hn' Ht' Heq.
  apply app_inj_1 in Heq as [H1 Heq]; [|by rewrite !length_to_le_bytes].
  apply app_inj_1 in Heq as [H2 H3]; [|by rewrite !length_to_le_bytes].
  apply to_le_bytes_inj in H1; [|change (256 ^ Z.of_nat 8) with 18446744073709551616; lia..].
  apply to_le_bytes_inj in H2; [|change (256 ^ Z.of_nat 8) with 18446744073709551616; lia..].
  apply HashValue_to_vec_inj in H3. destruct a, b; simpl in *; congruence.
Qed.

Lemma key_at_inj a b r r' :
  is_u64 (cba_block_number a) → is_u64 (cba_timestamp_usecs a) →
  is_u64 (cba_block_number b) → is_u64 (cba_timestamp_usecs b) →
  key_at a r = key_at b r' → a = b ∧ r = r'.
Proof using HB.
  intros ???? Heq. split; [|exact (f_equal pek_round Heq)].
  apply anchor_version_inj; [done..|]. apply (inj Some). exact (f_equal pek_version Heq).
Qed.

Lemma election_inv_fields lr :
  election_inv lr →
  lr_epoch lr = lr_epoch lr0 ∧ lr_epoch_to_proposers lr = lr_epoch_to_proposers lr0 ∧
  lr_reputation_anchor_backend lr = true ∧ lr_exclude_round lr = lr_exclude_round lr0 ∧
  inv (lr_heuristic lr).
Proof using Hanchor.
  intros [Heq Hinv]. split_and!; [exact (f_equal lr_epoch Heq)|
    exact (f_equal lr_epoch_to_proposers Heq)| |exact (f_equal lr_exclude_round Heq)|done].
  rewrite <- Hanchor. exact (f_equal lr_reputation_anchor_backend Heq).
Qed.

Lemma election_inv_with lr backend heuristic :
  election_inv lr → inv heuristic →
  election_inv (lr_with backend (lr_reputation_anchor_backend lr) heuristic lr).
Proof using Type. intros [Heq _] Hinv. split; [exact Heq|exact Hinv]. Qed.

Lemma elect_config lr round inputs : election_inv lr → elect lr round inputs = elect lr0 round inputs.
Proof using Type. intros [Heq _]. rewrite <- Heq. reflexivity. Qed.

Lemma alpha_active_config lr a :
  election_inv lr → is_consensus_alpha_active lr a = is_consensus_alpha_active lr0 a.
Proof using Type. intros [Heq _]. rewrite <- Heq. reflexivity. Qed.

Lemma lr_anchor_config w lr round : election_inv lr → lr_anchor w lr round = lr_anchor w lr0 round.
Proof using Type. intros [Heq _]. rewrite <- Heq. reflexivity. Qed.

Lemma election_inputs_spec w round lr :
  valid w → election_inv lr →
  election_inv (election_inputs w round lr).1 ∧
  (∀ a, lr_anchor w lr0 round = Some a → is_consensus_alpha_active lr0 (Some a) = true →
     ∃ weights, weights_at candidates (cba_block_number a) weights ∧
       (election_inputs w round lr).2 = Ok ([], cba_block_hash a, weights)).
Proof using AH Hanchor Hcand.
  intros Hw Hlr. destruct (election_inv_fields lr Hlr) as (He & Hp & Hb & _ & Hinv).
  unfold election_inputs. rewrite lr_anchor_config, alpha_active_config, He, Hp by done.
  destruct (is_consensus_alpha_active lr0 (lr_anchor w lr0 round)) eqn:Hact.
  - destruct (lr_anchor w lr0 round) as [a|].
    + destruct (anchored_at_block w (lr_epoch lr0) (lr_epoch_to_proposers lr0) (cba_block_number a)
        (lr_heuristic lr) candidates Hw Hinv Hcand) as (Hinv' & ws & Hat & Hws).
      destruct (get_weights_at_block w _ _ _ _) as [h' r]. simpl in *.
      split; [by apply election_inv_with|]. intros a' [= <-] _.
      exists ws. split; [done|]. destruct r; simpl in *; by rewrite ?Hws; simplify_eq/=.
    + rewrite Hb. split; [done|]. intros a [=].
  - pose proof (anchored_legacy w (lr_epoch lr0) (lr_epoch_to_proposers lr0) []
      (lr_heuristic lr) Hw Hinv) as Hinv'.
    destruct (get_legacy_weights w _ _ _ _) as [h' r]. simpl in *.
    split; [by apply election_inv_with|]. intros a Ha Hact'. by rewrite Ha, Hact' in Hact.
Qed.

Lemma lr_get_valid_proposer_spec w round lr :
  valid w → election_inv lr →
  election_inv (lr_get_valid_proposer_and_ratio w round lr).1 ∧
  (∀ a, lr_anchor w lr0 round = Some a → is_consensus_alpha_active lr0 (Some a) = true →
     anchored_answer a round (lr_get_valid_proposer_and_ratio w round lr).2).
Proof using AH Hanchor Hcand.
  intros Hw Hlr. destruct (election_inv_fields lr Hlr) as (He & Hp & _).
  unfold lr_get_valid_proposer_and_ratio. rewrite He, Hp, Hcand.
  destruct (election_inputs_spec w round lr Hw Hlr) as [Hinv Hin].
  destruct (election_inputs w round lr) as [lr' inputs]. simpl in *. split; [done|].
  intros a Ha Hact. destruct (Hin a Ha Hact) as (ws & Hat & ->). exists ws. split; [done|].
  cbn [mbind result_bind]. by apply elect_config.
Qed.

Lemma lr_cache_key_anchor w lr round key :
  election_inv lr → lr_cache_key w lr round = Some key →
  ∃ a, key = key_at a round ∧ lr_anchor w lr0 round = Some a ∧
    get_anchor w (lr_epoch lr0) (lr_target_round lr0 round) = Ok (Some a).
Proof using Hanchor.
  intros Hlr. destruct (election_inv_fields lr Hlr) as (He & _ & Hb & Hx & _).
  unfold lr_cache_key, lr_anchor, lr_target_round. rewrite Hb, He, Hx, Hanchor.
  destruct (get_anchor w _ _) as [[a|]|e|]; [|done..]. intros [= <-]. exists a. done.
Qed.

#[global] Instance LeaderReputation_keyed :
  KeyedElection (λ w, valid w ∧ anchors_u64 w) alpha_key alpha_answers election_inv.
Proof using AH Hanchor Hcand HB.
  split.
  - intros w round lr [Hw _] Hlr. by apply lr_get_valid_proposer_spec.
  - intros w lr round key [Hw Hu] Hlr Hk (a & r & -> & Hn & Ht & Hact).
    destruct (lr_cache_key_anchor w lr round _ Hlr Hk) as (b & Hab & Hb & Hgb).
    destruct (Hu _ _ _ Hgb) as [Hnb Htb]. apply key_at_inj in Hab as [<- ->]; [|done..].
    destruct (lr_get_valid_proposer_spec w round lr Hw Hlr) as [_ Hans].
    intros a' r' Hk' Hn' Ht'. apply key_at_inj in Hk' as [<- <-]; [|done..]. by apply Hans.
  - intros w lr round key. cbn. unfold lr_cache_key. repeat case_match; by intros [= <-].
Qed.

(** Without a history the chain counts as healthy. *)
Lemma chain_health_window_empty (lr : LeaderReputation (H:=H)) total round current size :
  (2 ≤ length CHAIN_HEALTH_WINDOW_SIZES)%nat →
  chain_health_window lr candidates total [] round current size =
    Ok (if (lr_window_for_chain_health lr =? size)%nat then Some f64_one else current).
Proof using Type.
  intros Hlen. unfold chain_health_window.
  assert (count_votes_custom (lr_epoch_to_proposers lr) [] size false = Ok ∅) as ->.
  { unfold count_votes_custom, history_iter. done. }
  assert (count_proposals_custom (lr_epoch_to_proposers lr) [] size false = Ok ∅) as ->.
  { unfold count_proposals_custom, history_iter. done. }
  destruct (_ =? size)%nat; cbn [orb mbind result_bind].
  2: case_match; [|done]; cbn [mbind result_bind].
  all: unfold u64_sub; destruct (Z.leb_spec 2 (Z.of_nat (length CHAIN_HEALTH_WINDOW_SIZES)));
    [done|lia].
Qed.

Lemma chain_health_empty round :
  (2 ≤ length CHAIN_HEALTH_WINDOW_SIZES)%nat →
  lr_window_for_chain_health lr0 ∈ CHAIN_HEALTH_WINDOW_SIZES →
  compute_chain_health_and_add_metrics lr0 [] round = Ok f64_one.
Proof using Hcand.
  intros Hlen Hin. unfold compute_chain_health_and_add_metrics. rewrite Hcand.
  set (f := chain_health_window lr0 candidates _ [] round).
  pose proof (λ current size, chain_health_window_empty lr0
    (f64_sum (f64_from_u64 <$> lr_voting_powers lr0)) round current size Hlen) as Hf. fold f in Hf.
  assert (∀ sizes, fold_result f (Some f64_one) sizes = Ok (Some f64_one)) as Hsome.
  { intros sizes. induction sizes as [|s sizes IH]; [done|]. cbn [fold_result].
    rewrite Hf. cbn [mbind result_bind].
    case_match; exact IH. }
  assert (fold_result f None CHAIN_HEALTH_WINDOW_SIZES = Ok (Some f64_one)) as ->; [|done].
  revert Hin. generalize CHAIN_HEALTH_WINDOW_SIZES at 1 2 as sizes. intros sizes Hin.
  induction sizes as [|s sizes IH]; [by apply elem_of_nil in Hin|]. cbn [fold_result].
  rewrite Hf. cbn [mbind result_bind].
  destruct (Nat.eqb_spec (lr_window_for_chain_health lr0) s); [apply Hsome|].
  apply elem_of_cons in Hin as [|Hin]; [done|]. by apply IH.
Qed.

Lemma stake_weights_spec weights voting_powers :
  length weights = length voting_powers →
  Forall (λ s, s ≤ u128_MAX) (spec_stakes weights voting_powers) →
  stake_weights weights voting_powers = Ok (spec_stakes weights voting_powers).
Proof using Type.
  revert voting_powers. induction weights as [|w ws IH]; intros [|v vs] Hl; try done.
  injection Hl as Hl. simpl. intros [Hs Hr]%Forall_cons. unfold u128_mul.
  destruct (Z.leb_spec (w * v) u128_MAX); [|lia]. simpl. by rewrite IH.
Qed.

Lemma Forall_le_sum_Z l : Forall (λ w, 0 ≤ w) l → Forall (λ w, w ≤ sum_Z l) l.
Proof using Type.
  induction 1 as [|w l Hw Hl IH]; constructor; simpl.
  - pose proof (sum_Z_nonneg l Hl). lia.
  - eapply Forall_impl; [exact IH|]. simpl. intros x ?. lia.
Qed.

Lemma spec_stakes_nonneg weights voting_powers :
  Forall (λ w, 0 ≤ w) weights → Forall (λ v, 0 ≤ v) voting_powers →
  Forall (λ s, 0 ≤ s) (spec_stakes weights voting_powers).
Proof using Type.
  intros Hw. revert voting_powers. induction Hw as [|w ws Hw _ IH]; intros vs Hv; [constructor|].
  destruct Hv as [|v vs Hv Hvs]; [constructor|]. constructor; [lia|by apply IH].
Qed.

Lemma elect_spec weights root_hash round :
  (2 ≤ length CHAIN_HEALTH_WINDOW_SIZES)%nat →
  lr_window_for_chain_health lr0 ∈ CHAIN_HEALTH_WINDOW_SIZES →
  length weights = length candidates → length candidates = length (lr_voting_powers lr0) →
  Forall (λ w, 0 ≤ w) weights → Forall (λ v, 0 ≤ v) (lr_voting_powers lr0) →
  0 < sum_Z (spec_stakes weights (lr_voting_powers lr0)) ≤ u128_MAX →
  ∃ leader i s,
    spec_leader lr0 candidates weights root_hash round = Some leader ∧
    elect lr0 round ([], root_hash, weights) = Ok (leader, f64_one) ∧
    candidates !! i = Some leader ∧
    spec_stakes weights (lr_voting_powers lr0) !! i = Some s ∧ 0 < s.
Proof using Hcand.
  intros Hlen Hin Hw Hc Hnw Hnv Hsum. unfold elect, spec_leader.
  rewrite chain_health_empty, Hcand, Hw, Nat.eqb_refl by done. cbn [mbind result_bind negb].
  set (stakes := spec_stakes weights (lr_voting_powers lr0)) in *.
  assert (Forall (λ s, 0 ≤ s) stakes) as Hn by by apply spec_stakes_nonneg.
  rewrite stake_weights_spec; [|congruence|].
  2: { eapply Forall_impl; [by apply Forall_le_sum_Z|]. fold stakes. simpl. lia. }
  cbn [mbind result_bind]. fold stakes. rewrite choose_index_spec by done.
  destruct (Z.ltb_spec 0 (sum_Z stakes)), (Z.leb_spec (sum_Z stakes) u128_MAX); [|lia..].
  cbn [andb mbind result_bind]. set (c := seed_value _ _).
  assert (0 ≤ c < sum_Z stakes) as Hcr by (apply Z.mod_pos_bound; lia).
  pose proof (weighted_choice_lt stakes c Hcr) as Hlt.
  destruct (lookup_lt_is_Some_2 stakes _ Hlt) as [s Hs].
  assert (length stakes = length candidates) as Hls.
  { unfold stakes, spec_stakes. rewrite length_zip_with. lia. }
  rewrite Hls in Hlt. destruct (lookup_lt_is_Some_2 candidates _ Hlt) as [leader Hl].
  exists leader, (weighted_choice c stakes), s. rewrite Hl. split_and!; [done..|].
  pose proof (proj1 (weighted_choice_spec stakes _ s c Hn Hs ltac:(lia)) eq_refl). lia.
Qed.

End election.

(** ** Anchors of validators at different heights *)

(** A ledger info that an election for the round never anchors to: it neither
    starts the epoch nor commits one of its blocks up to the round. *)
Definition beyond (epoch round : Z) (item : result anyhow (Z * LedgerInfoWithSignatures)) : Prop :=
  ∃ n li, item = Ok (n, li) ∧
    let commit_info := LedgerInfo_commit_info (LedgerInfoWithSignatures_ledger_info li) in
    epoch ≤ BlockInfo_epoch commit_info ∧
    (∀ s, BlockInfo_next_epoch_state commit_info = Some s → EpochState_epoch s ≠ epoch) ∧
    (BlockInfo_next_epoch_state commit_info = None → BlockInfo_epoch commit_info = epoch →
     round < BlockInfo_round commit_info).

Lemma find_reputation_anchor_beyond epoch round newer items :
  epoch ≤ u64_MAX → Forall (beyond epoch round) newer →
  find_reputation_anchor epoch round (newer ++ items) = find_reputation_anchor epoch round items.
Proof using Type.
  intros He. induction 1 as [|item newer Hitem _ IH]; [done|].
  destruct Hitem as (n & li & -> & Hge & Hnext & Hround). cbn.
  set (ci := LedgerInfo_commit_info _) in *.
  assert ((u64_saturating_add (BlockInfo_epoch ci) 1 <? epoch) = false) as ->.
  { apply Z.ltb_ge. unfold u64_saturating_add. lia. }
  destruct (BlockInfo_next_epoch_state ci) as [s|].
  - destruct (Z.eqb_spec (EpochState_epoch s) epoch) as [Heq|]; [by apply Hnext in Heq|]. exact IH.
  - rewrite bool_decide_eq_true_2 by done. cbn [andb].
    destruct (Z.eqb_spec (BlockInfo_epoch ci) epoch) as [Heq|]; [|exact IH].
    destruct (Z.leb_spec (BlockInfo_round ci) round); [|exact IH].
    specialize (Hround eq_refl Heq). lia.
Qed.

(** Validators that have committed past the round an election looks at
    resolve the same anchor: when two databases share the ledger infos up to
    that round, whatever later rounds and epochs each of them has committed
    since does not change the anchor. *)
Theorem anchor_of_common_prefix w1 w2 items newer1 newer2 epoch round :
  epoch ≤ u64_MAX →
  w_ledger_infos w1 = Ok (items ++ newer1) → w_ledger_infos w2 = Ok (items ++ newer2) →
  Forall (beyond epoch round) newer1 → Forall (beyond epoch round) newer2 →
  get_anchor w1 epoch round = get_anchor w2 epoch round.
Proof using Type.
  intros He Hw1 Hw2 H1 H2. unfold get_anchor, get_reputation_anchor. rewrite Hw1, Hw2. simpl.
  rewrite !reverse_app, !find_reputation_anchor_beyond by (done || by apply Forall_reverse). done.
Qed.

(** ** The node's election *)

Lemma LeaderReputation_new_Ok {H} `{!ReputationHeuristic H} epoch proposers powers backend (h : H)
    exclude use_root health lr candidates :
  LeaderReputation_new epoch proposers powers backend h exclude use_root health = Ok lr →
  proposers !! epoch = Some candidates →
  length candidates = length powers ∧ lr_voting_powers lr = powers ∧
  lr_epoch lr = epoch ∧ lr_epoch_to_proposers lr = proposers ∧ lr_heuristic lr = h ∧
  lr_window_for_chain_health lr = health.
Proof using Type.
  unfold LeaderReputation_new. intros Hnew Hc. rewrite Hc in Hnew.
  destruct (Nat.eqb_spec (length candidates) (length powers)); [|done]. by injection Hnew as <-.
Qed.

Lemma spec_weights_nonneg h candidates performances :
  0 ≤ pvh_active_weight h → 0 ≤ pvh_inactive_weight h → 0 ≤ pvh_failed_weight h →
  Forall (λ w, 0 ≤ w) (spec_weights h candidates performances).
Proof using Type.
  intros. assert (Forall (λ w, 0 ≤ w) ((λ _, pvh_active_weight h) <$> candidates)) as Hact.
  { apply Forall_fmap, Forall_true. done. }
  unfold spec_weights. destruct performances as [validators| |]; [|done..].
  case_match; [|done]. apply Forall_fmap, Forall_true. intros p. simpl.
  unfold spec_weight. by repeat case_match.
Qed.

(** C33. Past the fork, the leader of a round is a function of the committed
    anchor, up to failed reads.  A validator that starts its cached reputation
    election, is asked about any rounds in any states of its databases, and then
    resolves the anchor [a] for a round, answers with the proposer that the seed
    draws by stake (weight from the performances at the anchor's block, times
    voting power), and with full participation.  If a read of the performances at
    that block failed, now or at an earlier question, the answer may instead be
    drawn with all candidates counted as active, and this answer stays cached.
    Nothing else of the caches, of the questions asked before or of the
    validator's identity changes the answer, so validators that resolve the same
    anchor and whose reads of its block succeed agree; the leader is a candidate
    of positive stake, and nothing panics or fails. *)
Theorem leader_determined_by_anchor
    (storage : Z → list (Z * Z)) (h : ProposerAndVoterHeuristic)
    epoch proposers powers backend exclude use_root health lr candidates window
    (queries : list (World * Z)) w round a `{!HashBytes} :
  let worlds := ((w, round) :: queries).*1 in
  let node := run_queries queries
    (CachedProposerElection_new epoch (with_reputation_anchor_backend lr) window) in
  let failed n := ∃ w' e, w' ∈ worlds ∧ fetch_performances w' (Number n) = Err e in
  (∀ n, Forall (performance_ok h) (storage n)) →
  (∀ w' n, w' ∈ worlds → fetch_performances w' (Number n) = Ok (storage n) ∨
     ∃ e, fetch_performances w' (Number n) = Err e) →
  Forall anchors_u64 worlds →
  pvh_with_caches (0, None) None h = h →
  0 ≤ pvh_active_weight h → 0 ≤ pvh_inactive_weight h → 0 ≤ pvh_failed_weight h →
  Forall (λ v, 0 ≤ v) powers →
  (2 ≤ length CHAIN_HEALTH_WINDOW_SIZES)%nat → health ∈ CHAIN_HEALTH_WINDOW_SIZES →
  LeaderReputation_new epoch proposers powers backend h exclude use_root health = Ok lr →
  proposers !! epoch = Some candidates →
  get_anchor w epoch (lr_target_round lr round) = Ok (Some a) →
  is_consensus_alpha_active lr (Some a) = true →
  (∀ performances,
     0 < sum_Z (spec_stakes (spec_weights h candidates performances) powers) ≤ u128_MAX) →
  ∃ performances leader i s,
    (performances = Ok (storage (cba_block_number a)) ∨
     failed (cba_block_number a) ∧ ∃ e, performances = Err e) ∧
    let weights := spec_weights h candidates performances in
    spec_leader lr candidates weights (cba_block_hash a) round = Some leader ∧
    (get_or_compute_entry w round node).2 = Ok (leader, f64_one) ∧
    candidates !! i = Some leader ∧ spec_stakes weights powers !! i = Some s ∧ 0 < s.
Proof using Type.
  intros worlds node failed Hperf Hread Hu Hfresh Ha Hi Hf Hpow Hsizes Hhealth Hnew Hc Hanchor Halpha
    Hsum.
  destruct (LeaderReputation_new_Ok _ _ _ _ _ _ _ _ _ _ Hnew Hc) as (Hlen & Hvp & He & Hp & Hh & Hwin).
  assert (Forall (λ q, storage_agrees storage failed q.1 ∧ anchors_u64 q.1) ((w, round) :: queries))
    as [Hw Hq]%Forall_cons.
  { apply Forall_forall. intros [w' r] Hin. apply (list_elem_of_fmap_2 fst) in Hin. simpl in *.
    rewrite Forall_forall in Hu. split; [|by apply Hu]. intros n.
    destruct (Hread w' n Hin) as [?|[e ?]]; [by left|right]. split; [by exists w', e|by exists e]. }
  set (lr0 := with_reputation_anchor_backend lr).
  assert (lr_epoch_to_proposers lr0 !! lr_epoch lr0 = Some candidates) as Hcand.
  { cbn. by rewrite Hp, He. }
  pose proof (ProposerAndVoterHeuristic_anchored storage failed h Hperf) as AH.
  pose proof (LeaderReputation_keyed (AH:=AH) lr0 candidates Hcand eq_refl) as KE.
  assert (cache_inv (fixed:=alpha_key lr0)
    (answers:=alpha_answers (weights_at:=weights_read storage failed h) lr0 candidates)
    (inv:=election_inv (inv:=heuristic_inv storage h) lr0) node) as Hnode.
  { apply (run_queries_inv (KE:=KE)); [done|]. apply cache_inv_new. split; [done|].
    cbn. rewrite Hh. pose proof (heuristic_inv_new storage h) as Hinv. by rewrite Hfresh in Hinv. }
  destruct (get_or_compute_entry_spec (KE:=KE) w round node Hw Hnode) as [_ Hans].
  assert (lr_cache_key w (cpe_proposer_election node) round = Some (key_at a round)) as Hkey.
  { destruct (election_inv_fields lr0 eq_refl _ (proj1 Hnode)) as (He' & _ & Hb & Hx & _).
    unfold lr_cache_key, lr_target_round. rewrite Hb, He', Hx. cbn. rewrite He.
    fold (lr_target_round lr round). by rewrite Hanchor. }
  destruct (proj2 Hw _ _ _ Hanchor) as [Hn Ht].
  assert (alpha_key lr0 (key_at a round)) as Hfix by (exists a, round; done).
  destruct (Hans _ Hkey Hfix a round eq_refl Hn Ht) as (weights & (performances & -> & Hor) & ->).
  destruct (elect_spec lr0 candidates Hcand (spec_weights h candidates performances)
    (cba_block_hash a) round) as (leader & i & s & Hl & Hel & Hci & Hst & Hpos); cbn; try done.
  { by rewrite Hwin. } { apply length_spec_weights. } { by rewrite Hvp. }
  { by apply spec_weights_nonneg. } { by rewrite Hvp. } { by rewrite Hvp. }
  exists performances, leader, i, s. cbn in Hst. rewrite Hvp in Hst. done.
Qed.

End agreement.
