(* ===== verification/PipelineBuffer.v ===== *)
(** The ordered dictionary of the execution pipeline
    (consensus/src/pipeline/buffer.rs): a linked list threaded through a hash
    map, with cursors that are keys.  It refines a list of entries. *)
From S2P Require Import Prelude Laptos.

(** The [Hashable] trait; the hash of an item without blocks panics. *)
Class Hashable `{L : Laptos} (T : Type) : Type := item_hash : T → result anyhow HashValue.

Section buffer.
Context `{L : Laptos} {T : Type} `{HT : !Hashable T}.

Record LinkedItem : Type := {
  lki_elem : option T;
  lki_index : Z;
  lki_next : option HashValue;
}.

Record Buffer : Type := {
  bf_map : gmap HashValue LinkedItem;
  bf_count : Z;
  bf_head : option HashValue;
  bf_tail : option HashValue;
}.

Definition Buffer_new : Buffer :=
  {| bf_map := ∅; bf_count := 0; bf_head := None; bf_tail := None |}.

Definition Buffer_len (self : Buffer) : nat := size (bf_map self).

Definition head_cursor (self : Buffer) : option HashValue := bf_head self.

Definition with_map (map : gmap HashValue LinkedItem) (self : Buffer) : Buffer :=
  {| bf_map := map; bf_count := bf_count self; bf_head := bf_head self; bf_tail := bf_tail self |}.

(** [get] and [unwrap] of the entry under a cursor. *)
Definition linked_item (self : Buffer) (cursor : option HashValue) :
    result anyhow (HashValue * LinkedItem) :=
  match cursor with
  | None => Panic
  | Some key => match bf_map self !! key with Some item => Ok (key, item) | None => Panic end
  end.

Definition push_back (elem : T) (self : Buffer) : result anyhow Buffer :=
  count ← match u64_checked_add (bf_count self) 1 with Some c => Ok c | None => Panic end;
  t_hash ← item_hash elem;
  let map := <[t_hash := {| lki_elem := Some elem; lki_index := count; lki_next := None |}]>
               (bf_map self) in
  map ← match bf_tail self with
        | None => Ok map
        | Some tail =>
            match map !! tail with
            | None => Panic
            | Some item =>
                Ok (<[tail := {| lki_elem := lki_elem item; lki_index := lki_index item;
                                 lki_next := Some t_hash |}]> map)
            end
        end;
  Ok {| bf_map := map; bf_count := count;
        bf_head := Some (default t_hash (bf_head self)); bf_tail := Some t_hash |}.

Definition pop_front (self : Buffer) : result anyhow (option T * Buffer) :=
  match bf_head self with
  | None => Ok (None, self)
  | Some head =>
      match bf_map self !! head with
      | None => Panic
      | Some item =>
          match lki_elem item with
          | None => Panic
          | Some elem =>
              Ok (Some elem,
                  {| bf_map := delete head (bf_map self); bf_count := bf_count self;
                     bf_head := lki_next item;
                     bf_tail := match lki_next item with None => None | Some _ => bf_tail self end |})
          end
      end
  end.

Definition get_next (self : Buffer) (cursor : option HashValue) :
    result anyhow (option HashValue) :=
  '(_, item) ← linked_item self cursor;
  Ok (lki_next item).

Definition buffer_get (self : Buffer) (cursor : option HashValue) : result anyhow T :=
  '(_, item) ← linked_item self cursor;
  match lki_elem item with Some elem => Ok elem | None => Panic end.

Definition buffer_set (cursor : option HashValue) (new_val : T) (self : Buffer) :
    result anyhow Buffer :=
  '(key, item) ← linked_item self cursor;
  Ok (with_map (<[key := {| lki_elem := Some new_val; lki_index := lki_index item;
                            lki_next := lki_next item |}]> (bf_map self)) self).

Definition buffer_take (cursor : option HashValue) (self : Buffer) : result anyhow (T * Buffer) :=
  '(key, item) ← linked_item self cursor;
  match lki_elem item with
  | None => Panic
  | Some elem =>
      Ok (elem, with_map (<[key := {| lki_elem := None; lki_index := lki_index item;
                                      lki_next := lki_next item |}]> (bf_map self)) self)
  end.

Definition Buffer_exist (self : Buffer) (cursor : option HashValue) : bool :=
  match cursor with
  | None => false
  | Some key => bool_decide (is_Some (bf_map self !! key))
  end.

(** The [while] loop; [Err] stands for a loop that does not end within the
    fuel. *)
Fixpoint find_elem_loop (fuel : nat) (self : Buffer) (compare : T → bool)
    (current : option HashValue) : result anyhow (option HashValue) :=
  match current with
  | None => Ok None
  | Some _ =>
      match fuel with
      | O => Err "loop"
      | S fuel =>
          elem ← buffer_get self current;
          if compare elem then Ok current
          else next ← get_next self current; find_elem_loop fuel self compare next
      end
  end.

Definition find_elem_from (self : Buffer) (cursor : option HashValue) (compare : T → bool) :
    result anyhow (option HashValue) :=
  if Buffer_exist self cursor then find_elem_loop (size (bf_map self)) self compare cursor
  else Ok None.

Definition find_elem_by_key (self : Buffer) (cursor : option HashValue) (key : HashValue) :
    option HashValue :=
  cursor ← cursor;
  cursor_item ← bf_map self !! cursor;
  item ← bf_map self !! key;
  if lki_index cursor_item <=? lki_index item then Some key else None.

Lemma find_elem_by_key_Some (self : Buffer) cursor key c :
  find_elem_by_key self cursor key = Some c → c = key.
Proof using Type.
  unfold find_elem_by_key. destruct cursor as [cursor|]; [|done]. simpl.
  destruct (bf_map self !! cursor); [|done]. simpl. destruct (bf_map self !! key); [|done]. simpl.
  case_match; [|done]. by intros [= <-].
Qed.

(** ** The list of entries

    An entry is a key with its index and its element; the element is missing
    while it is taken. *)
#[local] Abbreviation entry := (HashValue * (Z * option T))%type.

Definition entry_item (e : entry) (next : option HashValue) : LinkedItem :=
  {| lki_elem := e.2.2; lki_index := e.2.1; lki_next := next |}.

Fixpoint buffer_map (l : list entry) : gmap HashValue LinkedItem :=
  match l with
  | [] => ∅
  | e :: l => <[e.1 := entry_item e (head l.*1)]> (buffer_map l)
  end.

Definition buffer_of (count : Z) (l : list entry) : Buffer :=
  {| bf_map := buffer_map l; bf_count := count; bf_head := head l.*1; bf_tail := last l.*1 |}.

(** Keys are unique, and indices grow up to the count. *)
Definition entries_ok (count : Z) (l : list entry) : Prop :=
  NoDup l.*1 ∧ StronglySorted Z.lt ((λ e : entry, e.2.1) <$> l) ∧
  Forall (λ e : entry, e.2.1 ≤ count) l.

Lemma head_lookup {A} (l : list A) : head l = l !! 0%nat.
Proof using Type. by destruct l. Qed.

Lemma entry_key (l : list entry) i e : l !! i = Some e → e.1 ∈ l.*1.
Proof using Type. intros Hi. by apply list_elem_of_fmap_2, (list_elem_of_lookup_2 _ i). Qed.

Lemma buffer_map_None (l : list entry) h : buffer_map l !! h = None ↔ h ∉ l.*1.
Proof using Type.
  induction l as [|e l IH]; simpl.
  - split; [intros _ []%elem_of_nil|done].
  - rewrite lookup_insert_None, IH, not_elem_of_cons. split; intros [? ?]; split; done || by intros ->.
Qed.

Lemma buffer_map_lookup (l : list entry) i e :
  NoDup l.*1 → l !! i = Some e → buffer_map l !! e.1 = Some (entry_item e (l.*1 !! S i)).
Proof using Type.
  revert i. induction l as [|f l IH]; intros i Hnd Hi; [done|].
  apply NoDup_cons in Hnd as [Hf Hnd]. destruct i as [|i]; simplify_eq/=.
  - by rewrite lookup_insert_eq, head_lookup.
  - rewrite lookup_insert_ne; [by apply IH|]. intros Heq. apply Hf. rewrite Heq.
    by apply (entry_key l i).
Qed.

Lemma buffer_map_size (l : list entry) : NoDup l.*1 → size (buffer_map l) = length l.
Proof using Type.
  induction l as [|e l IH]; simpl; [intros _; apply map_size_empty|].
  intros [He Hnd]%NoDup_cons. rewrite map_size_insert_None by by apply buffer_map_None. by rewrite IH.
Qed.

Lemma buffer_map_update (l : list entry) i h v w :
  NoDup l.*1 → l !! i = Some (h, v) →
  buffer_map (<[i := (h, w)]> l) = <[h := entry_item (h, w) (l.*1 !! S i)]> (buffer_map l).
Proof using Type.
  revert i. induction l as [|f l IH]; intros i Hnd Hi; [done|].
  apply NoDup_cons in Hnd as [Hf Hnd]. destruct i as [|i]; simplify_eq/=.
  - by rewrite insert_insert_eq, head_lookup.
  - rewrite IH by done. rewrite list_fmap_insert. simpl.
    rewrite (list_insert_id l.*1) by by rewrite list_lookup_fmap, Hi.
    rewrite insert_insert_ne; [done|]. intros Heq. apply Hf. rewrite Heq.
    exact (entry_key l i (h, v) Hi).
Qed.

Lemma buffer_map_snoc (l : list entry) t e :
  NoDup ((l ++ [t]) ++ [e]).*1 →
  buffer_map ((l ++ [t]) ++ [e]) =
    <[t.1 := entry_item t (Some e.1)]> (<[e.1 := entry_item e None]> (buffer_map (l ++ [t]))).
Proof using Type.
  induction l as [|f l IH]; intros Hnd; simpl.
  - simpl in Hnd. apply NoDup_cons in Hnd as [Ht _].
    rewrite (insert_insert_ne _ e.1), insert_insert_eq; [done|].
    intros Heq. apply Ht. rewrite Heq. apply list_elem_of_here.
  - rewrite <- !app_comm_cons, fmap_cons in Hnd. apply NoDup_cons in Hnd as [Hf Hnd].
    rewrite IH by done. rewrite !fmap_app, !elem_of_app in Hf. simpl in Hf. rewrite !list_elem_of_singleton in Hf.
    assert (e.1 ≠ f.1 ∧ t.1 ≠ f.1) as [He Ht] by (split; intros Heq; apply Hf; auto).
    rewrite (insert_insert_ne _ e.1 f.1), (insert_insert_ne _ t.1 f.1) by done.
    f_equal. f_equal. by destruct l.
Qed.

(** ** The operations on the list of entries *)

Lemma push_back_spec count (l : list entry) x h :
  entries_ok count l → count < u64_MAX → item_hash x = Ok h → h ∉ l.*1 →
  push_back x (buffer_of count l) =
    Ok (buffer_of (count + 1) (l ++ [(h, (count + 1, Some x))])) ∧
  entries_ok (count + 1) (l ++ [(h, (count + 1, Some x))]).
Proof using Type.
  intros (Hnd & Hsort & Hle) Hc Hh Hfresh.
  assert (NoDup (l ++ [(h, (count + 1, Some x))]).*1) as Hnd'.
  { rewrite fmap_app. apply NoDup_app. split_and!; [done| |apply NoDup_singleton].
    intros k Hk ->%list_elem_of_singleton. done. }
  split.
  - unfold push_back, u64_checked_add. simpl.
    destruct (Z.leb_spec (count + 1) u64_MAX); [|lia]. simpl. rewrite Hh. simpl.
    destruct l as [|t l _] using rev_ind; simpl; [done|].
    assert (last (l ++ [t]).*1 = Some t.1) as -> by by rewrite fmap_last, last_snoc.
    assert (t.1 ≠ h) as Hne.
    { intros Heq. apply Hfresh. rewrite fmap_app, elem_of_app, <- Heq. right. apply list_elem_of_here. }
    rewrite lookup_insert_ne by done.
    rewrite (buffer_map_lookup _ (length l) t) by (done || by apply list_lookup_middle).
    unfold buffer_of. rewrite buffer_map_snoc by done. simpl. do 2 f_equal.
    + by destruct l.
    + by rewrite fmap_last, last_snoc.
  - split_and!; [done| |].
    + rewrite fmap_app. apply StronglySorted_app_2; [|done|repeat constructor].
      intros a b (e & -> & He)%list_elem_of_fmap ->%list_elem_of_singleton.
      rewrite Forall_forall in Hle. specialize (Hle e He). simpl. lia.
    + apply Forall_app. split; [|repeat constructor; simpl; lia].
      eapply Forall_impl; [exact Hle|]. simpl. intros e ?. lia.
Qed.

Lemma pop_front_spec count (l : list entry) h n x :
  entries_ok count ((h, (n, Some x)) :: l) →
  pop_front (buffer_of count ((h, (n, Some x)) :: l)) = Ok (Some x, buffer_of count l) ∧
  entries_ok count l.
Proof using Type.
  intros (Hnd & Hsort & Hle). apply NoDup_cons in Hnd as [Hh Hnd]. split.
  - unfold pop_front, buffer_of. simpl. rewrite lookup_insert_eq. simpl. do 3 f_equal.
    + rewrite delete_insert_eq. apply delete_id. by apply buffer_map_None.
    + by destruct l.
  - apply StronglySorted_inv in Hsort as [? _]. apply Forall_cons in Hle as [_ ?]. done.
Qed.

Lemma linked_item_spec count (l : list entry) i h v :
  entries_ok count l → l !! i = Some (h, v) →
  linked_item (buffer_of count l) (Some h) = Ok (h, entry_item (h, v) (l.*1 !! S i)).
Proof using Type.
  intros (Hnd & _) Hi. unfold linked_item. simpl.
  pose proof (buffer_map_lookup l i (h, v) Hnd Hi) as Hl. simpl in Hl. by rewrite Hl.
Qed.

Lemma entries_ok_update count (l : list entry) i h n x y :
  entries_ok count l → l !! i = Some (h, (n, x)) → entries_ok count (<[i := (h, (n, y))]> l).
Proof using Type.
  intros (Hnd & Hsort & Hle) Hi. unfold entries_ok. rewrite !list_fmap_insert. simpl.
  rewrite !list_insert_id by by rewrite list_lookup_fmap, Hi.
  split_and!; [done|done|]. apply Forall_insert; [done|].
  rewrite Forall_lookup in Hle. exact (Hle i _ Hi).
Qed.

Lemma entries_update_ends (l : list entry) i h n x y :
  l !! i = Some (h, (n, x)) → (<[i := (h, (n, y))]> l).*1 = l.*1.
Proof using Type.
  intros Hi. rewrite list_fmap_insert. apply list_insert_id. by rewrite list_lookup_fmap, Hi.
Qed.

Lemma buffer_take_spec count (l : list entry) i h n x :
  entries_ok count l → l !! i = Some (h, (n, Some x)) →
  buffer_take (Some h) (buffer_of count l) =
    Ok (x, buffer_of count (<[i := (h, (n, None))]> l)).
Proof using Type.
  intros Hok Hi. unfold buffer_take.
  rewrite (linked_item_spec count l i h (n, Some x) Hok Hi). simpl.
  unfold with_map, buffer_of. rewrite (buffer_map_update l i h (n, Some x)) by (apply Hok || done).
  by rewrite (entries_update_ends l i h n (Some x)).
Qed.

Lemma buffer_set_spec count (l : list entry) i h n x y :
  entries_ok count l → l !! i = Some (h, (n, x)) →
  buffer_set (Some h) y (buffer_of count l) = Ok (buffer_of count (<[i := (h, (n, Some y))]> l)).
Proof using Type.
  intros Hok Hi. unfold buffer_set.
  rewrite (linked_item_spec count l i h (n, x) Hok Hi). simpl.
  unfold with_map, buffer_of. rewrite (buffer_map_update l i h (n, x)) by (apply Hok || done).
  by rewrite (entries_update_ends l i h n x).
Qed.

Lemma buffer_get_spec count (l : list entry) i h n x :
  entries_ok count l → l !! i = Some (h, (n, Some x)) →
  buffer_get (buffer_of count l) (Some h) = Ok x.
Proof using Type.
  intros Hok Hi. unfold buffer_get.
  by rewrite (linked_item_spec count l i h (n, Some x) Hok Hi).
Qed.

Lemma get_next_spec count (l : list entry) i h v :
  entries_ok count l → l !! i = Some (h, v) →
  get_next (buffer_of count l) (Some h) = Ok (l.*1 !! S i).
Proof using Type.
  intros Hok Hi. unfold get_next. by rewrite (linked_item_spec count l i h v Hok Hi).
Qed.

(** ** The queue a buffer represents *)

Definition entries_of (l : list entry) : list (HashValue * option T) := prod_map id snd <$> l.

Definition represents (count : Z) (b : Buffer) (q : list (HashValue * T)) : Prop :=
  ∃ l, b = buffer_of count l ∧ entries_ok count l ∧
    entries_of l = prod_map id Some <$> q.

(** The first key from which on an element satisfies the predicate. *)
Fixpoint first_key (f : T → bool) (q : list (HashValue * T)) : option HashValue :=
  match q with
  | [] => None
  | (h, x) :: q => if f x then Some h else first_key f q
  end.

Lemma entries_lookup l q i :
  entries_of l = prod_map id Some <$> q →
  (∀ h x, q !! i = Some (h, x) → ∃ n, l !! i = Some (h, (n, Some x))).
Proof using Type.
  intros Heq h x Hq. assert (entries_of l !! i = Some (h, Some x)) as Hl.
  { rewrite Heq, list_lookup_fmap, Hq. done. }
  unfold entries_of in Hl. rewrite list_lookup_fmap in Hl.
  destruct (l !! i) as [[h' [n y]]|]; simplify_eq/=. eauto.
Qed.

Lemma entries_keys l q : entries_of l = prod_map id Some <$> q → l.*1 = q.*1.
Proof using Type.
  intros Heq. apply (f_equal (fmap fst)) in Heq. unfold entries_of in Heq.
  rewrite <- !list_fmap_compose in Heq. exact Heq.
Qed.

Lemma represents_NoDup count b q : represents count b q → NoDup q.*1.
Proof using Type. intros (l & _ & (Hnd & _) & Heq). by rewrite <- (entries_keys l q Heq). Qed.

Lemma represents_new : represents 0 Buffer_new [].
Proof using Type. exists []. split_and!; [done| |done]. repeat constructor. Qed.

Lemma represents_head count b q : represents count b q → head_cursor b = head q.*1.
Proof using Type.
  intros (l & -> & _ & Heq). unfold head_cursor. simpl. by rewrite (entries_keys l q Heq).
Qed.

Lemma represents_push count b q x h :
  represents count b q → count < u64_MAX → item_hash x = Ok h → h ∉ q.*1 →
  ∃ b', push_back x b = Ok b' ∧ represents (count + 1) b' (q ++ [(h, x)]).
Proof using Type.
  intros (l & -> & Hok & Heq) Hc Hh Hfresh.
  destruct (push_back_spec count l x h Hok Hc Hh) as [Hp Hok'].
  { by rewrite (entries_keys l q Heq). }
  eexists. split; [exact Hp|].
  eexists. split_and!; [done|exact Hok'|]. unfold entries_of in *.
  by rewrite !fmap_app, Heq.
Qed.

Lemma represents_pop count b q :
  represents count b q →
  match q with
  | [] => pop_front b = Ok (None, b)
  | (h, x) :: q => ∃ b', pop_front b = Ok (Some x, b') ∧ represents count b' q
  end.
Proof using Type.
  intros (l & -> & Hok & Heq). destruct q as [|[h x] q].
  - destruct l; [|done]. done.
  - destruct (entries_lookup l _ 0 Heq h x eq_refl) as [n Hn].
    destruct l as [|e l]; [done|]. injection Hn as ->.
    destruct (pop_front_spec count l h n x Hok) as [Hp Hok'].
    eexists. split; [exact Hp|].
    eexists. split_and!; [done|done|]. injection Heq as Heq. done.
Qed.

Lemma represents_update count b q i h x y :
  represents count b q → q !! i = Some (h, x) →
  ∃ b1 b2, buffer_take (Some h) b = Ok (x, b1) ∧ buffer_set (Some h) y b1 = Ok b2 ∧
    represents count b2 (<[i := (h, y)]> q).
Proof using Type.
  intros (l & -> & Hok & Heq) Hq. destruct (entries_lookup l q i Heq h x Hq) as [n Hn].
  pose proof (lookup_lt_Some _ _ _ Hn) as Hlt.
  eexists _, _. split_and!.
  - by apply buffer_take_spec.
  - apply (buffer_set_spec _ _ i h n None).
    + by eapply entries_ok_update.
    + by apply list_lookup_insert_eq.
  - rewrite list_insert_insert_eq. eexists. split_and!; [done|by eapply entries_ok_update|].
    unfold entries_of in *. by rewrite !list_fmap_insert, Heq.
Qed.

Lemma represents_take count b q i h x :
  represents count b q → q !! i = Some (h, x) →
  ∃ b1, buffer_take (Some h) b = Ok (x, b1) ∧
    ∀ y, ∃ b2, buffer_set (Some h) y b1 = Ok b2 ∧ represents count b2 (<[i := (h, y)]> q).
Proof using Type.
  intros Hr Hq. destruct (represents_update count b q i h x x Hr Hq) as (b1 & _ & Ht & _).
  exists b1. split; [done|]. intros y.
  destruct (represents_update count b q i h x y Hr Hq) as (b1' & b2 & Ht' & ? & ?).
  rewrite Ht in Ht'. injection Ht' as <-. eauto.
Qed.

Lemma represents_get count b q i h x :
  represents count b q → q !! i = Some (h, x) → buffer_get b (Some h) = Ok x.
Proof using Type.
  intros (l & -> & Hok & Heq) Hq. destruct (entries_lookup l q i Heq h x Hq) as [n Hn].
  by eapply buffer_get_spec.
Qed.

Lemma represents_next count b q i h x :
  represents count b q → q !! i = Some (h, x) → get_next b (Some h) = Ok (q.*1 !! S i).
Proof using Type.
  intros (l & -> & Hok & Heq) Hq. destruct (entries_lookup l q i Heq h x Hq) as [n Hn].
  rewrite <- (entries_keys l q Heq). by eapply get_next_spec.
Qed.

Lemma find_elem_loop_spec count b q f fuel i :
  represents count b q → (length q ≤ i + fuel)%nat →
  find_elem_loop fuel b f (q.*1 !! i) = Ok (first_key f (drop i q)).
Proof using Type.
  intros Hr. revert i. induction fuel as [|fuel IH]; intros i Hi; rewrite list_lookup_fmap.
  - rewrite lookup_ge_None_2 by lia. by rewrite drop_ge by lia.
  - destruct (q !! i) as [[h x]|] eqn:Hq.
    2: { apply lookup_ge_None in Hq. by rewrite drop_ge. }
    rewrite (drop_S q (h, x) i Hq). simpl. rewrite (represents_get count b q i h x Hr Hq). simpl.
    destruct (f x); [done|]. rewrite (represents_next count b q i h x Hr Hq). simpl.
    apply IH. lia.
Qed.

Lemma represents_size count b q : represents count b q → Buffer_len b = length q.
Proof using Type.
  intros (l & -> & (Hnd & _) & Heq). unfold Buffer_len. simpl. rewrite buffer_map_size by done.
  apply (f_equal length) in Heq. unfold entries_of in Heq. by rewrite !length_fmap in Heq.
Qed.

Lemma represents_lookup count b q h :
  represents count b q → is_Some (bf_map b !! h) ↔ h ∈ q.*1.
Proof using Type.
  intros (l & -> & _ & Heq). simpl. rewrite <- (entries_keys l q Heq).
  rewrite <- not_eq_None_Some, buffer_map_None. destruct (decide (h ∈ l.*1)); tauto.
Qed.

Lemma represents_find count b q f i h x :
  represents count b q → q !! i = Some (h, x) →
  find_elem_from b (Some h) f = Ok (first_key f (drop i q)).
Proof using Type.
  intros Hr Hq. unfold find_elem_from, Buffer_exist.
  rewrite bool_decide_eq_true_2.
  - fold (Buffer_len b). rewrite (represents_size count b q Hr).
    rewrite <- (find_elem_loop_spec count b q f (length q) i Hr) by lia.
    by rewrite list_lookup_fmap, Hq.
  - apply (represents_lookup count b q h Hr). exact (list_elem_of_lookup_2 _ i _
      (eq_trans (list_lookup_fmap fst q i) (f_equal (fmap fst) Hq))).
Qed.

Lemma represents_find_missing count b q f cursor :
  represents count b q → (∀ h, cursor = Some h → h ∉ q.*1) →
  find_elem_from b cursor f = Ok None.
Proof using Type.
  intros Hr Hc. unfold find_elem_from, Buffer_exist. destruct cursor as [h|]; [|done].
  rewrite bool_decide_eq_false_2; [done|]. rewrite (represents_lookup count b q h Hr). by apply Hc.
Qed.

Lemma sorted_lt (ns : list Z) i j n m :
  StronglySorted Z.lt ns → ns !! i = Some n → ns !! j = Some m → (n ≤ m ↔ (i ≤ j)%nat).
Proof using Type.
  intros Hs. revert i j. induction Hs as [|a ns Hs IH Ha]; intros [|i] [|j] Hi Hj; simplify_eq/=.
  - lia.
  - rewrite Forall_forall in Ha. pose proof (Ha m (list_elem_of_lookup_2 _ _ _ Hj)). lia.
  - rewrite Forall_forall in Ha. pose proof (Ha n (list_elem_of_lookup_2 _ _ _ Hi)). lia.
  - rewrite (IH i j Hi Hj). lia.
Qed.

Lemma represents_find_by_key count b q i h x j key y :
  represents count b q → q !! i = Some (h, x) → q !! j = Some (key, y) →
  find_elem_by_key b (Some h) key = if (i <=? j)%nat then Some key else None.
Proof using Type.
  intros (l & -> & (Hnd & Hsort & Hle) & Heq) Hi Hj.
  destruct (entries_lookup l q i Heq h x Hi) as [n Hn].
  destruct (entries_lookup l q j Heq key y Hj) as [m Hm].
  unfold find_elem_by_key. simpl.
  pose proof (buffer_map_lookup l i _ Hnd Hn) as Hl. simpl in Hl. rewrite Hl. simpl.
  pose proof (buffer_map_lookup l j _ Hnd Hm) as Hl'. simpl in Hl'. rewrite Hl'. simpl.
  pose proof (sorted_lt _ i j n m Hsort) as Hs. rewrite !list_lookup_fmap, Hn, Hm in Hs.
  specialize (Hs eq_refl eq_refl). destruct (Z.leb_spec n m), (Nat.leb_spec i j); lia || done.
Qed.

Lemma represents_find_by_key_missing count b q cursor key :
  represents count b q → key ∉ q.*1 → find_elem_by_key b cursor key = None.
Proof using Type.
  intros (l & -> & _ & Heq) Hk. rewrite <- (entries_keys l q Heq) in Hk.
  apply buffer_map_None in Hk. unfold find_elem_by_key. simpl. rewrite Hk.
  destruct cursor as [c|]; [|done]. simpl. by destruct (buffer_map l !! c).
Qed.

(** C32. The linked list in a hash map is a queue with lookup by key.  In a
    buffer that represents a queue no operation panics and no search runs for
    ever: an element with a new key is appended, elements leave in the order in
    which they came, an element taken out by its key and put back is replaced
    in place, a search from a key returns the first match at or after it, and a
    search by key finds exactly the keys at or after the cursor. *)
Theorem buffer_refines_queue count b q :
  represents count b q →
  Buffer_len b = length q ∧ head_cursor b = head q.*1 ∧
  (∀ x h, count < u64_MAX → item_hash x = Ok h → h ∉ q.*1 →
     ∃ b', push_back x b = Ok b' ∧ represents (count + 1) b' (q ++ [(h, x)])) ∧
  match q with
  | [] => pop_front b = Ok (None, b)
  | (_, x) :: q' => ∃ b', pop_front b = Ok (Some x, b') ∧ represents count b' q'
  end ∧
  (∀ i h x, q !! i = Some (h, x) →
     buffer_get b (Some h) = Ok x ∧ get_next b (Some h) = Ok (q.*1 !! S i) ∧
     (∀ y, ∃ b1 b2, buffer_take (Some h) b = Ok (x, b1) ∧ buffer_set (Some h) y b1 = Ok b2 ∧
        represents count b2 (<[i := (h, y)]> q)) ∧
     (∀ f, find_elem_from b (Some h) f = Ok (first_key f (drop i q))) ∧
     (∀ j key y, q !! j = Some (key, y) →
        find_elem_by_key b (Some h) key = if (i <=? j)%nat then Some key else None) ∧
     (∀ key, key ∉ q.*1 → find_elem_by_key b (Some h) key = None)).
Proof using Type.
  intros Hr. split_and!.
  - by eapply represents_size.
  - by eapply represents_head.
  - intros x h. by apply represents_push.
  - pose proof (represents_pop count b q Hr). by destruct q as [|[h x] q].
  - intros i h x Hq. split_and!.
    + by eapply represents_get.
    + by eapply represents_next.
    + intros y. by eapply represents_update.
    + intros f. by eapply represents_find.
    + intros j key y. by eapply represents_find_by_key.
    + intros key. by eapply represents_find_by_key_missing.
Qed.

End buffer.
