(* ===== verification/BufferItem.v ===== *)
(** The items of the execution pipeline's buffer
    (consensus/src/pipeline/buffer_item.rs): blocks that are ordered, then
    executed, then signed by this validator, then committed by a quorum. *)
From S2P Require Import Prelude Laptos Payload Certificates Block Votes BlockBuffer Pipelined.
From S2P Require Import PipelineBuffer.

(** The commit callback travels with an item and is called after persisting. *)
Class PipelineLib : Type := Callback : Type.

Section buffer_item.
Context `{L : Laptos} `{G : !Gcei} `{PL : PipelineLib}.
Context `{!CryptoHash VoteData} `{!CryptoHash LedgerInfo}.

Definition generate_commit_ledger_info (commit_info : BlockInfo)
    (ordered_proof : LedgerInfoWithSignatures) (order_vote_enabled : bool)
    (block_hash : HashValue) (block_number : Z) : LedgerInfo :=
  LedgerInfo_new_with_block_info commit_info
    (if order_vote_enabled then HashValue_zero
     else LedgerInfo_consensus_data_hash (LedgerInfoWithSignatures_ledger_info ordered_proof))
    block_hash block_number.

Definition verify_signatures (unverified_signatures : gmap AccountAddress Signature)
    (validator : ValidatorVerifier) (commit_ledger_info : LedgerInfo) :
    gmap AccountAddress Signature :=
  filter (λ p, is_ok (verifier_verify validator p.1 commit_ledger_info p.2) = true)
    unverified_signatures.

Definition executed_commit_timestamp_usecs (corrected_commit_timestamp_usecs
    block_timestamp_usecs : Z) (use_corrected_commit_timestamp : bool) : Z :=
  if use_corrected_commit_timestamp then corrected_commit_timestamp_usecs
  else block_timestamp_usecs.

(** [check_voting_power] of the signers of a map. *)
Definition has_quorum (validator : ValidatorVerifier) (sigs : gmap AccountAddress Signature) :
    bool :=
  is_ok (ValidatorVerifier_check_voting_power validator (map_to_list sigs).*1).

Definition aggregate_commit_proof (commit_ledger_info : LedgerInfo)
    (verified_signatures : gmap AccountAddress Signature) (validator : ValidatorVerifier) :
    result anyhow LedgerInfoWithSignatures :=
  match ValidatorVerifier_aggregate_signatures validator (map_to_list verified_signatures) with
  | Ok aggregated_sig => Ok (LedgerInfoWithSignatures_new commit_ledger_info aggregated_sig)
  | _ => Panic
  end.

(** [LedgerInfoWithVerifiedSignatures::new]. *)
Definition partial_proof_new (ledger_info : LedgerInfo) (sigs : gmap AccountAddress Signature) :
    LedgerInfoWithVerifiedSignatures :=
  map_fold LedgerInfoWithVerifiedSignatures_add_signature
    (LedgerInfoWithVerifiedSignatures_new ledger_info) sigs.

Record OrderedItem : Type := {
  oi_unverified_signatures : gmap AccountAddress Signature;
  oi_commit_proof : option LedgerInfoWithSignatures;
  oi_callback : Callback;
  oi_ordered_blocks : list PipelinedBlock;
  oi_ordered_proof : LedgerInfoWithSignatures;
}.

Record ExecutedItem : Type := {
  ei_executed_blocks : list PipelinedBlock;
  ei_partial_commit_proof : LedgerInfoWithVerifiedSignatures;
  ei_callback : Callback;
  ei_commit_info : BlockInfo;
  ei_ordered_proof : LedgerInfoWithSignatures;
}.

(** [rb_handle] is the time at which the broadcast of the vote started. *)
Record SignedItem : Type := {
  si_executed_blocks : list PipelinedBlock;
  si_partial_commit_proof : LedgerInfoWithVerifiedSignatures;
  si_callback : Callback;
  si_commit_vote : CommitVote;
  si_rb_handle : option Z;
}.

Record AggregatedItem : Type := {
  ai_executed_blocks : list PipelinedBlock;
  ai_commit_proof : LedgerInfoWithSignatures;
  ai_callback : Callback;
}.

Inductive BufferItem : Type :=
| Ordered (item : OrderedItem)
| Executed (item : ExecutedItem)
| Signed (item : SignedItem)
| Aggregated (item : AggregatedItem).

Definition generate_executed_item_from_ordered (commit_info : BlockInfo)
    (executed_blocks : list PipelinedBlock) (verified_signatures : gmap AccountAddress Signature)
    (callback : Callback) (ordered_proof : LedgerInfoWithSignatures)
    (order_vote_enabled use_corrected_commit_timestamp : bool) : result anyhow BufferItem :=
  match last executed_blocks with
  | None => Panic
  | Some block =>
      let timestamp_usecs :=
        executed_commit_timestamp_usecs (BlockInfo_timestamp_usecs commit_info)
          (block_timestamp_usecs (pb_block block)) use_corrected_commit_timestamp in
      match block_block_number (pb_block block) with
      | None => Panic
      | Some block_number =>
          let new_commit_info :=
            BlockInfo_new_with_epoch_block_info (BlockInfo_epoch commit_info)
              (BlockInfo_round commit_info) (BlockInfo_id commit_info)
              (BlockInfo_executed_state_id commit_info) block_number timestamp_usecs
              (BlockInfo_next_epoch_state commit_info) (BlockInfo_epoch_block_info commit_info) in
          let commit_ledger_info :=
            generate_commit_ledger_info new_commit_info ordered_proof order_vote_enabled
              (StateComputeResult_root_hash (pb_state_compute_result block)) block_number in
          Ok (Executed
            {| ei_executed_blocks := executed_blocks;
               ei_partial_commit_proof := partial_proof_new commit_ledger_info verified_signatures;
               ei_callback := callback; ei_commit_info := new_commit_info;
               ei_ordered_proof := ordered_proof |})
      end
  end.

Definition new_ordered (ordered_blocks : list PipelinedBlock)
    (ordered_proof : LedgerInfoWithSignatures) (callback : Callback) : BufferItem :=
  Ordered {| oi_unverified_signatures := ∅; oi_commit_proof := None; oi_callback := callback;
             oi_ordered_blocks := ordered_blocks; oi_ordered_proof := ordered_proof |}.

(** The commit info of the last executed block: an earlier end of the epoch
    replaces its timestamp, which only a suffix block may have differ. *)
Definition executed_commit_info (block : PipelinedBlock) (epoch_end_timestamp : option Z)
    (epoch_block_info : option (EpochBlockInfo HashValue)) : result anyhow BlockInfo :=
  let commit_info := PipelinedBlock_block_info block in
  commit_info ←
    match epoch_end_timestamp with
    | Some timestamp =>
        if bool_decide (BlockInfo_timestamp_usecs commit_info = timestamp) then Ok commit_info
        else if PipelinedBlock_is_reconfiguration_suffix block
        then Ok (BlockInfo_change_timestamp timestamp commit_info) else Panic
    | None => Ok commit_info
    end;
  Ok (BlockInfo_new_with_epoch_block_info (BlockInfo_epoch commit_info)
        (BlockInfo_round commit_info) (BlockInfo_id commit_info)
        (BlockInfo_executed_state_id commit_info) (BlockInfo_version commit_info)
        (BlockInfo_timestamp_usecs commit_info) (BlockInfo_next_epoch_state commit_info)
        (match epoch_block_info with
         | Some i => Some i
         | None => BlockInfo_epoch_block_info commit_info
         end)).

Definition li_commit_info (l : LedgerInfoWithSignatures) : BlockInfo :=
  LedgerInfo_commit_info (LedgerInfoWithSignatures_ledger_info l).
Definition partial_commit_info (l : LedgerInfoWithVerifiedSignatures) : BlockInfo :=
  LedgerInfo_commit_info (LedgerInfoWithVerifiedSignatures_ledger_info l).

Definition advance_to_executed_or_aggregated (self : BufferItem)
    (executed_blocks : list PipelinedBlock) (validator : ValidatorVerifier)
    (epoch_end_timestamp : option Z) (order_vote_enabled : bool)
    (epoch_block_info : option (EpochBlockInfo HashValue)) : result anyhow BufferItem :=
  match self with
  | Ordered item =>
      if negb (bool_decide (pb_id <$> oi_ordered_blocks item = pb_id <$> executed_blocks)) then Panic
      else
        match last executed_blocks with
        | None => Panic
        | Some block =>
            commit_info ← executed_commit_info block epoch_end_timestamp epoch_block_info;
            match oi_commit_proof item with
            | Some commit_proof =>
                if bool_decide (li_commit_info commit_proof = commit_info) then
                  Ok (Aggregated {| ai_executed_blocks := executed_blocks;
                                    ai_commit_proof := commit_proof;
                                    ai_callback := oi_callback item |})
                else Panic
            | None =>
                match block_block_number (pb_block block) with
                | None => Panic
                | Some block_number =>
                    let commit_ledger_info :=
                      generate_commit_ledger_info commit_info (oi_ordered_proof item)
                        order_vote_enabled
                        (StateComputeResult_root_hash (pb_state_compute_result block))
                        block_number in
                    let verified_signatures :=
                      verify_signatures (oi_unverified_signatures item) validator
                        commit_ledger_info in
                    if has_quorum validator verified_signatures then
                      commit_proof ←
                        aggregate_commit_proof commit_ledger_info verified_signatures validator;
                      Ok (Aggregated {| ai_executed_blocks := executed_blocks;
                                        ai_commit_proof := commit_proof;
                                        ai_callback := oi_callback item |})
                    else
                      generate_executed_item_from_ordered commit_info executed_blocks
                        verified_signatures (oi_callback item) (oi_ordered_proof item)
                        order_vote_enabled
                        (is_consensus_alpha_active_at (block_timestamp_usecs (pb_block block)))
                end
            end
        end
  | _ => Panic
  end.

Definition advance_to_signed (self : BufferItem) (author : AccountAddress) (signature : Signature) :
    result anyhow BufferItem :=
  match self with
  | Executed item =>
      let commit_vote :=
        {| cv_author := author;
           cv_ledger_info :=
             LedgerInfoWithVerifiedSignatures_ledger_info (ei_partial_commit_proof item);
           cv_signature := signature |} in
      Ok (Signed {| si_executed_blocks := ei_executed_blocks item;
                    si_partial_commit_proof := ei_partial_commit_proof item;
                    si_callback := ei_callback item; si_commit_vote := commit_vote;
                    si_rb_handle := None |})
  | _ => Panic
  end.

Definition try_advance_to_aggregated_with_ledger_info (self : BufferItem)
    (commit_proof : LedgerInfoWithSignatures) : result anyhow BufferItem :=
  match self with
  | Signed item =>
      if bool_decide (partial_commit_info (si_partial_commit_proof item) =
                      li_commit_info commit_proof) then
        Ok (Aggregated {| ai_executed_blocks := si_executed_blocks item;
                          ai_commit_proof := commit_proof; ai_callback := si_callback item |})
      else Panic
  | Executed item =>
      if bool_decide (ei_commit_info item = li_commit_info commit_proof) then
        match last (ei_executed_blocks item) with
        | None => Panic
        | Some _ =>
            Ok (Aggregated {| ai_executed_blocks := ei_executed_blocks item;
                              ai_commit_proof := commit_proof; ai_callback := ei_callback item |})
        end
      else Panic
  | Ordered item =>
      if BlockInfo_match_ordered_only (li_commit_info (oi_ordered_proof item))
           (li_commit_info commit_proof) then
        Ok (Ordered {| oi_unverified_signatures := oi_unverified_signatures item;
                       oi_commit_proof := Some commit_proof; oi_callback := oi_callback item;
                       oi_ordered_blocks := oi_ordered_blocks item;
                       oi_ordered_proof := oi_ordered_proof item |})
      else Panic
  | Aggregated _ => Panic
  end.

Definition try_advance_to_aggregated (self : BufferItem) (validator : ValidatorVerifier) :
    result anyhow BufferItem :=
  match self with
  | Signed item =>
      let proof := si_partial_commit_proof item in
      let sigs := LedgerInfoWithVerifiedSignatures_signatures proof in
      if has_quorum validator sigs then
        commit_proof ←
          aggregate_commit_proof (LedgerInfoWithVerifiedSignatures_ledger_info proof) sigs validator;
        match last (si_executed_blocks item) with
        | None => Panic
        | Some _ =>
            Ok (Aggregated {| ai_executed_blocks := si_executed_blocks item;
                              ai_commit_proof := commit_proof; ai_callback := si_callback item |})
        end
      else Ok self
  | Executed item =>
      let proof := ei_partial_commit_proof item in
      let sigs := LedgerInfoWithVerifiedSignatures_signatures proof in
      if has_quorum validator sigs then
        commit_proof ←
          aggregate_commit_proof (LedgerInfoWithVerifiedSignatures_ledger_info proof) sigs validator;
        Ok (Aggregated {| ai_executed_blocks := ei_executed_blocks item;
                          ai_commit_proof := commit_proof; ai_callback := ei_callback item |})
      else Ok self
  | _ => Ok self
  end.

Definition get_blocks (self : BufferItem) : list PipelinedBlock :=
  match self with
  | Ordered item => oi_ordered_blocks item
  | Executed item => ei_executed_blocks item
  | Signed item => si_executed_blocks item
  | Aggregated item => ai_executed_blocks item
  end.

Definition item_block_id (self : BufferItem) : result anyhow HashValue :=
  match last (get_blocks self) with Some b => Ok (pb_id b) | None => Panic end.

#[global] Instance BufferItem_hashable : Hashable BufferItem := item_block_id.

Definition item_commit_info (self : BufferItem) : BlockInfo :=
  match self with
  | Ordered item => li_commit_info (oi_ordered_proof item)
  | Executed item => ei_commit_info item
  | Signed item => partial_commit_info (si_partial_commit_proof item)
  | Aggregated item => li_commit_info (ai_commit_proof item)
  end.

(** The item after the call; an error leaves it as it was. *)
Definition add_signature_if_matched (self : BufferItem) (vote : CommitVote) :
    result anyhow BufferItem :=
  let target_commit_info := LedgerInfo_commit_info (cv_ledger_info vote) in
  let author := cv_author vote in
  let signature := cv_signature vote in
  let inconsistent := Err "Inconsistent commit info." in
  match self with
  | Ordered item =>
      if BlockInfo_match_ordered_only (li_commit_info (oi_ordered_proof item)) target_commit_info
      then
        Ok (Ordered {| oi_unverified_signatures :=
                         <[author := signature]> (oi_unverified_signatures item);
                       oi_commit_proof := oi_commit_proof item; oi_callback := oi_callback item;
                       oi_ordered_blocks := oi_ordered_blocks item;
                       oi_ordered_proof := oi_ordered_proof item |})
      else inconsistent
  | Executed item =>
      if bool_decide (ei_commit_info item = target_commit_info) then
        Ok (Executed {| ei_executed_blocks := ei_executed_blocks item;
                        ei_partial_commit_proof :=
                          LedgerInfoWithVerifiedSignatures_add_signature author signature
                            (ei_partial_commit_proof item);
                        ei_callback := ei_callback item; ei_commit_info := ei_commit_info item;
                        ei_ordered_proof := ei_ordered_proof item |})
      else inconsistent
  | Signed item =>
      if bool_decide (partial_commit_info (si_partial_commit_proof item) = target_commit_info) then
        Ok (Signed {| si_executed_blocks := si_executed_blocks item;
                      si_partial_commit_proof :=
                        LedgerInfoWithVerifiedSignatures_add_signature author signature
                          (si_partial_commit_proof item);
                      si_callback := si_callback item; si_commit_vote := si_commit_vote item;
                      si_rb_handle := si_rb_handle item |})
      else inconsistent
  | Aggregated item =>
      if bool_decide (li_commit_info (ai_commit_proof item) = target_commit_info) then Ok self
      else inconsistent
  end.

Definition is_ordered (self : BufferItem) : bool :=
  match self with Ordered _ => true | _ => false end.
Definition is_executed (self : BufferItem) : bool :=
  match self with Executed _ => true | _ => false end.
Definition is_signed (self : BufferItem) : bool :=
  match self with Signed _ => true | _ => false end.
Definition is_aggregated (self : BufferItem) : bool :=
  match self with Aggregated _ => true | _ => false end.

Definition unwrap_signed (self : BufferItem) : result anyhow SignedItem :=
  match self with Signed item => Ok item | _ => Panic end.
Definition unwrap_executed (self : BufferItem) : result anyhow ExecutedItem :=
  match self with Executed item => Ok item | _ => Panic end.
Definition unwrap_aggregated (self : BufferItem) : result anyhow AggregatedItem :=
  match self with Aggregated item => Ok item | _ => Panic end.

End buffer_item.
