(* ===== verification/BufferManager.v ===== *)
(** The buffer manager of the execution pipeline
    (consensus/src/pipeline/buffer_manager.rs and the messages of
    commit_reliable_broadcast.rs): one task that owns the buffer and reacts to
    ordered blocks, execution and signing responses, commit messages, resets
    and timer ticks.

    Requests to the other phases, broadcasts and replies are appended to a log.
    A panic ends the task that owns the state, so a handler returns either the
    new state or [Panic].  Counting of ongoing tasks, which only delays a reset,
    is left out. *)
From S2P Require Import Prelude Laptos Payload Certificates Block Votes BlockBuffer Pipelined.
From S2P Require Import PipelineBuffer BufferItem.

Section buffer_manager.
Context `{L : Laptos} `{G : !Gcei} `{PL : PipelineLib}.
Context `{!CryptoHash VoteData} `{!CryptoHash LedgerInfo}.

(** ** commit_reliable_broadcast.rs *)

Inductive CommitMessage : Type :=
| CommitMessage_Vote (vote : CommitVote)
| CommitMessage_Decision (decision : LedgerInfoWithSignatures)
| CommitMessage_Ack
| CommitMessage_Nack.

Definition CommitMessage_verify (self : CommitMessage) (verifier : ValidatorVerifier) :
    result anyhow unit :=
  match self with
  | CommitMessage_Vote vote => CommitVote_verify vote verifier
  | CommitMessage_Decision decision => CommitDecision_verify decision verifier
  | CommitMessage_Ack => Err "Unexpected ack in incoming commit message"
  | CommitMessage_Nack => Err "Unexpected NACK in incoming commit message"
  end.

Definition CommitMessage_epoch (self : CommitMessage) : option Z :=
  match self with
  | CommitMessage_Vote vote => Some (LedgerInfo_epoch (cv_ledger_info vote))
  | CommitMessage_Decision decision =>
      Some (LedgerInfo_epoch (LedgerInfoWithSignatures_ledger_info decision))
  | _ => None
  end.

(** The validators whose acknowledgement of a broadcast is awaited. *)
Definition AckState_new (validators : list AccountAddress) : gset AccountAddress :=
  list_to_set validators.
Definition AckState_add (peer : AccountAddress) (ack : CommitMessage) :
    SM (gset AccountAddress) anyhow (option unit) := λ validators,
  match ack with
  | CommitMessage_Vote _ => (validators, Err "unexected Vote reply to broadcast")
  | CommitMessage_Decision _ => (validators, Err "unexected Decision reply to broadcast")
  | CommitMessage_Nack => (validators, Err "unexected Nack reply to broadcast")
  | CommitMessage_Ack =>
      if decide (peer ∈ validators) then
        let validators := validators ∖ {[peer]} in
        (validators, Ok (if decide (validators = ∅) then Some tt else None))
      else (validators, Err "Unknown author")
  end.

(** ** buffer_manager.rs *)

Definition COMMIT_VOTE_BROADCAST_INTERVAL_MS : Z := 1500.
Definition COMMIT_VOTE_REBROADCAST_INTERVAL_MS : Z := 30000.
Definition MAX_CACHED_BLOCK_IDS_PER_AUTHOR_PER_COMMIT_VOTE_ROUND : nat := 2.

Inductive ResetSignal : Type :=
| Stop
| TargetRound (round : Z).

Record OrderedBlocks : Type := {
  ob_ordered_blocks : list PipelinedBlock;
  ob_ordered_proof : LedgerInfoWithSignatures;
  ob_callback : Callback;
}.

Definition OrderedBlocks_latest_round (self : OrderedBlocks) : result anyhow Z :=
  match last (ob_ordered_blocks self) with Some b => Ok (pb_round b) | None => Panic end.

(** What the manager sends to the other tasks. *)
Inductive Output : Type :=
| ExecutionRequest (blocks : list PipelinedBlock)
| ExecutionWaitRequest (block_id : HashValue)
| SigningRequest (ordered_ledger_info : LedgerInfoWithSignatures) (commit_ledger_info : LedgerInfo)
    (delay : option Z)
| PersistingRequest (blocks : list PipelinedBlock) (commit_ledger_info : LedgerInfoWithSignatures)
    (callback : Callback)
| RetrySchedule (delay : Z)
| Broadcast (message : CommitMessage)
| Reply (message : CommitMessage)
| PublishOrdered (blocks : list PipelinedBlock) (ordered_proof : LedgerInfoWithSignatures)
| PublishDecision (commit_proof : LedgerInfoWithSignatures)
| ReleaseInflightBlocks
| AckReset.

(** The cache of votes is keyed by round, block and author; the source hashes
    the author's bytes into the key. *)
Record BufferManager : Type := {
  bm_author : AccountAddress;
  bm_buffer : Buffer (T:=BufferItem);
  bm_execution_root : option HashValue;
  bm_signing_root : option HashValue;
  bm_stop : bool;
  bm_verifier : ValidatorVerifier;
  bm_end_epoch_timestamp : option Z;
  bm_previous_commit_time : Z;
  bm_order_vote_enabled : bool;
  bm_highest_committed_round : Z;
  bm_latest_round : Z;
  bm_observer_enabled : bool;
  bm_consensus_publisher : bool;
  bm_commit_vote_cache : gmap Z (gmap HashValue (gmap AccountAddress CommitVote));
  bm_max_pending_rounds_in_commit_vote_cache : Z;
  bm_pending_commit_proofs : gmap Z LedgerInfoWithSignatures;
  bm_log : list Output;
}.

Definition BufferManager_new (author : AccountAddress) (verifier : ValidatorVerifier)
    (order_vote_enabled : bool) (highest_committed_round : Z)
    (observer_enabled consensus_publisher : bool) (max_pending_rounds now : Z) : BufferManager :=
  {| bm_author := author; bm_buffer := Buffer_new; bm_execution_root := None;
     bm_signing_root := None; bm_stop := false; bm_verifier := verifier;
     bm_end_epoch_timestamp := None; bm_previous_commit_time := now;
     bm_order_vote_enabled := order_vote_enabled;
     bm_highest_committed_round := highest_committed_round;
     bm_latest_round := highest_committed_round; bm_observer_enabled := observer_enabled;
     bm_consensus_publisher := consensus_publisher; bm_commit_vote_cache := ∅;
     bm_max_pending_rounds_in_commit_vote_cache := max_pending_rounds;
     bm_pending_commit_proofs := ∅; bm_log := [] |}.

(** Updates of the fields. *)
Definition with_buffer (buffer : Buffer) (execution_root signing_root : option HashValue)
    (self : BufferManager) : BufferManager :=
  {| bm_author := bm_author self; bm_buffer := buffer; bm_execution_root := execution_root;
     bm_signing_root := signing_root; bm_stop := bm_stop self; bm_verifier := bm_verifier self;
     bm_end_epoch_timestamp := bm_end_epoch_timestamp self;
     bm_previous_commit_time := bm_previous_commit_time self;
     bm_order_vote_enabled := bm_order_vote_enabled self;
     bm_highest_committed_round := bm_highest_committed_round self;
     bm_latest_round := bm_latest_round self; bm_observer_enabled := bm_observer_enabled self;
     bm_consensus_publisher := bm_consensus_publisher self;
     bm_commit_vote_cache := bm_commit_vote_cache self;
     bm_max_pending_rounds_in_commit_vote_cache := bm_max_pending_rounds_in_commit_vote_cache self;
     bm_pending_commit_proofs := bm_pending_commit_proofs self; bm_log := bm_log self |}.
Definition set_buffer (buffer : Buffer) (self : BufferManager) : BufferManager :=
  with_buffer buffer (bm_execution_root self) (bm_signing_root self) self.

Definition with_caches (votes : gmap Z (gmap HashValue (gmap AccountAddress CommitVote)))
    (proofs : gmap Z LedgerInfoWithSignatures) (self : BufferManager) : BufferManager :=
  {| bm_author := bm_author self; bm_buffer := bm_buffer self;
     bm_execution_root := bm_execution_root self; bm_signing_root := bm_signing_root self;
     bm_stop := bm_stop self; bm_verifier := bm_verifier self;
     bm_end_epoch_timestamp := bm_end_epoch_timestamp self;
     bm_previous_commit_time := bm_previous_commit_time self;
     bm_order_vote_enabled := bm_order_vote_enabled self;
     bm_highest_committed_round := bm_highest_committed_round self;
     bm_latest_round := bm_latest_round self; bm_observer_enabled := bm_observer_enabled self;
     bm_consensus_publisher := bm_consensus_publisher self;
     bm_commit_vote_cache := votes;
     bm_max_pending_rounds_in_commit_vote_cache := bm_max_pending_rounds_in_commit_vote_cache self;
     bm_pending_commit_proofs := proofs; bm_log := bm_log self |}.

Definition with_progress (stop : bool) (end_epoch_timestamp : option Z)
    (previous_commit_time highest_committed_round latest_round : Z) (self : BufferManager) :
    BufferManager :=
  {| bm_author := bm_author self; bm_buffer := bm_buffer self;
     bm_execution_root := bm_execution_root self; bm_signing_root := bm_signing_root self;
     bm_stop := stop; bm_verifier := bm_verifier self;
     bm_end_epoch_timestamp := end_epoch_timestamp;
     bm_previous_commit_time := previous_commit_time;
     bm_order_vote_enabled := bm_order_vote_enabled self;
     bm_highest_committed_round := highest_committed_round;
     bm_latest_round := latest_round; bm_observer_enabled := bm_observer_enabled self;
     bm_consensus_publisher := bm_consensus_publisher self;
     bm_commit_vote_cache := bm_commit_vote_cache self;
     bm_max_pending_rounds_in_commit_vote_cache := bm_max_pending_rounds_in_commit_vote_cache self;
     bm_pending_commit_proofs := bm_pending_commit_proofs self; bm_log := bm_log self |}.

Definition send (outputs : list Output) (self : BufferManager) : BufferManager :=
  {| bm_author := bm_author self; bm_buffer := bm_buffer self;
     bm_execution_root := bm_execution_root self; bm_signing_root := bm_signing_root self;
     bm_stop := bm_stop self; bm_verifier := bm_verifier self;
     bm_end_epoch_timestamp := bm_end_epoch_timestamp self;
     bm_previous_commit_time := bm_previous_commit_time self;
     bm_order_vote_enabled := bm_order_vote_enabled self;
     bm_highest_committed_round := bm_highest_committed_round self;
     bm_latest_round := bm_latest_round self; bm_observer_enabled := bm_observer_enabled self;
     bm_consensus_publisher := bm_consensus_publisher self;
     bm_commit_vote_cache := bm_commit_vote_cache self;
     bm_max_pending_rounds_in_commit_vote_cache := bm_max_pending_rounds_in_commit_vote_cache self;
     bm_pending_commit_proofs := bm_pending_commit_proofs self;
     bm_log := bm_log self ++ outputs |}.

Inductive CommitVoteRoundClass : Type :=
| AlreadyCommitted
| OutsideWindow
| InWindow.

Definition classify_commit_vote_round (round highest_committed_round max_cached_round : Z) :
    CommitVoteRoundClass :=
  if round <=? highest_committed_round then AlreadyCommitted
  else if max_cached_round <=? round then OutsideWindow
  else InWindow.

Definition can_cache_commit_vote_for_block
    (round_cache : gmap HashValue (gmap AccountAddress CommitVote)) (block_id : HashValue)
    (author : AccountAddress) : bool :=
  if bool_decide (is_Some (round_cache !! block_id)) then true
  else
    let cached_block_ids_for_author :=
      length (filter (λ kv : HashValue * gmap AccountAddress CommitVote, is_Some (kv.2 !! author))
        (map_to_list round_cache)) in
    (cached_block_ids_for_author <? MAX_CACHED_BLOCK_IDS_PER_AUTHOR_PER_COMMIT_VOTE_ROUND)%nat.

Definition MAX_PENDING_COMMIT_PROOFS : nat := 100.

(** The first key of a [BTreeMap] of rounds. *)
Definition first_round {A} (m : gmap Z A) : option Z := fst <$> head (btree_list Z.le m).

Definition try_add_pending_commit_proof (commit_proof : LedgerInfoWithSignatures)
    (self : BufferManager) : bool * BufferManager :=
  let round := BlockInfo_round (li_commit_info commit_proof) in
  let proofs := bm_pending_commit_proofs self in
  if bm_highest_committed_round self <? round then
    let room :=
      if (MAX_PENDING_COMMIT_PROOFS <=? size proofs)%nat then
        oldest_round ← first_round proofs;
        if round <=? oldest_round then None else Some (delete oldest_round proofs)
      else Some proofs in
    match room with
    | None => (false, self)
    | Some proofs =>
        (true, with_caches (bm_commit_vote_cache self) (<[round := commit_proof]> proofs) self)
    end
  else (false, self).

Definition drain_pending_commit_proof_till (round : Z) (self : BufferManager) :
    result anyhow (option LedgerInfoWithSignatures * BufferManager) :=
  next ← u64_add round 1;
  let remainder := filter (λ p : Z * LedgerInfoWithSignatures, next ≤ p.1) (bm_pending_commit_proofs self) in
  let to_remove := filter (λ p : Z * LedgerInfoWithSignatures, p.1 < next) (bm_pending_commit_proofs self) in
  Ok (snd <$> last (btree_list Z.le to_remove),
      with_caches (bm_commit_vote_cache self) remainder self).

(** The broadcast, if the node is not an observer, and the time it started. *)
Definition do_reliable_broadcast (now : Z) (message : CommitMessage) (self : BufferManager) :
    option Z * BufferManager :=
  if bm_observer_enabled self then (None, self) else (Some now, send [Broadcast message] self).

Definition cache_commit_vote (vote : CommitVote) (self : BufferManager) : bool * BufferManager :=
  let commit_info := LedgerInfo_commit_info (cv_ledger_info vote) in
  let round := BlockInfo_round commit_info in
  let highest_committed_round := bm_highest_committed_round self in
  let max_cached_round :=
    u64_saturating_add highest_committed_round (bm_max_pending_rounds_in_commit_vote_cache self) in
  let cache :=
    filter (λ p : Z * gmap HashValue (gmap AccountAddress CommitVote),
      highest_committed_round < p.1 ∧ p.1 < max_cached_round) (bm_commit_vote_cache self) in
  let self := with_caches cache (bm_pending_commit_proofs self) self in
  match classify_commit_vote_round round highest_committed_round max_cached_round with
  | AlreadyCommitted => (true, self)
  | OutsideWindow => (false, self)
  | InWindow =>
      let block_id := BlockInfo_id commit_info in
      let author := cv_author vote in
      let round_cache := default ∅ (cache !! round) in
      if can_cache_commit_vote_for_block round_cache block_id author then
        let votes := <[author := vote]> (default ∅ (round_cache !! block_id)) in
        (true, with_caches (<[round := <[block_id := votes]> round_cache]> cache)
                 (bm_pending_commit_proofs self) self)
      else (false, self)
  end.

Definition drain_cached_commit_votes (round : Z) (block_id : HashValue) (self : BufferManager) :
    list CommitVote * BufferManager :=
  match bm_commit_vote_cache self !! round with
  | None => ([], self)
  | Some round_cache =>
      let votes := from_option (λ votes, (map_to_list votes).*2) [] (round_cache !! block_id) in
      let round_cache := delete block_id round_cache in
      let cache :=
        if bool_decide (round_cache = ∅) then delete round (bm_commit_vote_cache self)
        else <[round := round_cache]> (bm_commit_vote_cache self) in
      (votes, with_caches cache (bm_pending_commit_proofs self) self)
  end.

(** Votes that do not match are logged and dropped. *)
Definition add_signatures (votes : list CommitVote) (item : BufferItem) : BufferItem :=
  foldl (λ item vote,
    match add_signature_if_matched item vote with Ok item => item | _ => item end) item votes.

Definition process_ordered_blocks (ordered_blocks : OrderedBlocks) (self : BufferManager) :
    result anyhow BufferManager :=
  let blocks := ob_ordered_blocks ordered_blocks in
  let self :=
    if bm_consensus_publisher self
    then send [PublishOrdered blocks (ob_ordered_proof ordered_blocks)] self else self in
  let self := send [ExecutionRequest blocks] self in
  let item := new_ordered blocks (ob_ordered_proof ordered_blocks) (ob_callback ordered_blocks) in
  target_block_id ← item_block_id item;
  let round := BlockInfo_round (item_commit_info item) in
  let '(votes, self) := drain_cached_commit_votes round target_block_id self in
  buffer ← push_back (add_signatures votes item) (bm_buffer self);
  Ok (set_buffer buffer self).

Definition or_head (cursor : option HashValue) (self : BufferManager) : option HashValue :=
  match cursor with Some c => Some c | None => head_cursor (bm_buffer self) end.

Definition advance_execution_root (self : BufferManager) :
    result anyhow (option HashValue * BufferManager) :=
  let cursor := bm_execution_root self in
  root ← find_elem_from (bm_buffer self) (or_head cursor self) is_ordered;
  Ok (if bool_decide (is_Some root ∧ cursor = root) then root else None,
      with_buffer (bm_buffer self) root (bm_signing_root self) self).

Definition advance_signing_root (self : BufferManager) : result anyhow BufferManager :=
  let cursor := bm_signing_root self in
  root ← find_elem_from (bm_buffer self) (or_head cursor self) is_executed;
  let self := with_buffer (bm_buffer self) (bm_execution_root self) root self in
  match root with
  | None => Ok self
  | Some _ =>
      item ← buffer_get (bm_buffer self) root;
      executed_item ← unwrap_executed item;
      let request :=
        SigningRequest (ei_ordered_proof executed_item)
          (LedgerInfoWithVerifiedSignatures_ledger_info (ei_partial_commit_proof executed_item)) in
      Ok (send [request (if bool_decide (cursor = root) then Some 100 else None)] self)
  end.

Definition clear_root (root : option HashValue) (block_id : HashValue) : option HashValue :=
  if bool_decide (root = Some block_id) then None else root.

(** The loop of [advance_head]; it ends in [unreachable!] without the target. *)
Fixpoint advance_head_loop (fuel : nat) (now : Z) (target_block_id : HashValue)
    (blocks_to_persist : list PipelinedBlock) (self : BufferManager) :
    result anyhow BufferManager :=
  match fuel with
  | O => Panic
  | S fuel =>
      '(item, buffer) ← pop_front (bm_buffer self);
      match item with
      | None => Panic
      | Some item =>
          let blocks_to_persist := blocks_to_persist ++ get_blocks item in
          block_id ← item_block_id item;
          let self :=
            with_buffer buffer (clear_root (bm_execution_root self) block_id)
              (clear_root (bm_signing_root self) block_id) self in
          if bool_decide (block_id = target_block_id) then
            aggregated_item ← unwrap_aggregated item;
            let commit_proof := ai_commit_proof aggregated_item in
            let self :=
              if bm_consensus_publisher self then send [PublishDecision commit_proof] self
              else self in
            let self :=
              send [PersistingRequest blocks_to_persist commit_proof (ai_callback aggregated_item)]
                self in
            Ok (with_progress (bm_stop self) (bm_end_epoch_timestamp self) now
                  (bm_highest_committed_round self) (bm_latest_round self) self)
          else advance_head_loop fuel now target_block_id blocks_to_persist self
      end
  end.

Definition advance_head (now : Z) (target_block_id : HashValue) (self : BufferManager) :
    result anyhow BufferManager :=
  advance_head_loop (S (Buffer_len (bm_buffer self))) now target_block_id [] self.

(** Blocks still queued at the receiver are dropped with the buffer. *)
Definition reset (now : Z) (self : BufferManager) : BufferManager :=
  let self := with_buffer Buffer_new None None self in
  let self := with_caches ∅ ∅ self in
  let self :=
    with_progress (bm_stop self) (bm_end_epoch_timestamp self) now
      (bm_highest_committed_round self) (bm_latest_round self) self in
  send [ReleaseInflightBlocks] self.

Definition process_reset_request (now : Z) (signal : ResetSignal) (self : BufferManager) :
    BufferManager :=
  let self :=
    match signal with
    | Stop =>
        with_progress true (bm_end_epoch_timestamp self) (bm_previous_commit_time self)
          (bm_highest_committed_round self) (bm_latest_round self) self
    | TargetRound round =>
        with_progress (bm_stop self) (bm_end_epoch_timestamp self) (bm_previous_commit_time self)
          round round self
    end in
  send [AckReset] (reset now self).

Definition process_execution_schedule_response (block_id : HashValue) (self : BufferManager) :
    BufferManager :=
  send [ExecutionWaitRequest block_id] self.

Fixpoint retry_loop (fuel : nat) (cursor : option HashValue) (self : BufferManager) :
    result anyhow BufferManager :=
  match cursor with
  | None => Ok self
  | Some _ =>
      match fuel with
      | O => Err "loop"
      | S fuel =>
          item ← buffer_get (bm_buffer self) cursor;
          let self := send [ExecutionRequest (get_blocks item)] self in
          next ← get_next (bm_buffer self) cursor;
          retry_loop fuel next self
      end
  end.
Definition retry_schedule_phase (self : BufferManager) : result anyhow BufferManager :=
  retry_loop (Buffer_len (bm_buffer self)) (bm_execution_root self) self.

(** The information about the end of the epoch: what the block buffer [bb] has
    cached, or what the last block itself gives. *)
Definition resolve_epoch_block_info (bb : BlockBuffer) (last_block : PipelinedBlock)
    (self : BufferManager) : option (EpochBlockInfo HashValue) :=
  let block_number := default 0 (block_block_number (pb_block last_block)) in
  match get_epoch_change_block_info block_number (block_epoch (pb_block last_block)) bb with
  | Some epoch_info => Some epoch_info
  | None =>
      let compute_result := pb_state_compute_result last_block in
      if StateComputeResult_has_reconfiguration compute_result then
        let block_info := PipelinedBlock_block_info last_block in
        let timestamp :=
          match bm_end_epoch_timestamp self with
          | Some timestamp =>
              if bool_decide (BlockInfo_timestamp_usecs block_info ≠ timestamp) &&
                 PipelinedBlock_is_reconfiguration_suffix last_block
              then timestamp else BlockInfo_timestamp_usecs block_info
          | None => BlockInfo_timestamp_usecs block_info
          end in
        Some {| ebi_block_id := pb_id last_block; ebi_block_number := block_number;
                ebi_epoch_start_round := pb_round last_block;
                ebi_epoch_start_timestamp_usecs := timestamp;
                ebi_block_hash := StateComputeResult_root_hash compute_result |}
      else None
  end.

(** The timestamp of the first block that ends the epoch. *)
Definition reconfig_timestamp (executed_blocks : list PipelinedBlock) : option Z :=
  block_timestamp_usecs ∘ pb_block <$>
    head (filter (λ b, BlockInfo_has_reconfiguration (PipelinedBlock_block_info b) = true)
      executed_blocks).

Definition set_end_epoch_timestamp (executed_blocks : list PipelinedBlock) (self : BufferManager) :
    BufferManager :=
  let timestamp :=
    match bm_end_epoch_timestamp self with
    | Some t => Some t
    | None => reconfig_timestamp executed_blocks
    end in
  with_progress (bm_stop self) timestamp (bm_previous_commit_time self)
    (bm_highest_committed_round self) (bm_latest_round self) self.

Definition process_execution_response (now : Z) (bb : BlockBuffer) (block_id : HashValue)
    (inner : result anyhow (list PipelinedBlock)) (self : BufferManager) :
    result anyhow BufferManager :=
  match find_elem_by_key (bm_buffer self) (bm_execution_root self) block_id with
  | None => Ok self
  | Some _ as current_cursor =>
      match inner with
      | Err _ => Ok self
      | Panic => Panic
      | Ok executed_blocks =>
          match last executed_blocks with
          | None => Panic
          | Some last_block =>
              current_item ← buffer_get (bm_buffer self) current_cursor;
              current_block_id ← item_block_id current_item;
              if bool_decide (current_block_id ≠ block_id) then Ok self
              else
                let self := set_end_epoch_timestamp executed_blocks self in
                let epoch_block_info := resolve_epoch_block_info bb last_block self in
                '(item, buffer) ← buffer_take current_cursor (bm_buffer self);
                let round := BlockInfo_round (item_commit_info item) in
                new_item ← advance_to_executed_or_aggregated item executed_blocks
                  (bm_verifier self) (bm_end_epoch_timestamp self) (bm_order_vote_enabled self)
                  epoch_block_info;
                '(pending, self) ← drain_pending_commit_proof_till round self;
                new_item ←
                  match pending with
                  | Some commit_proof =>
                      if negb (is_aggregated new_item) &&
                         bool_decide (BlockInfo_id (li_commit_info commit_proof) = block_id)
                      then try_advance_to_aggregated_with_ledger_info new_item commit_proof
                      else Ok new_item
                  | None => Ok new_item
                  end;
                let aggregated := is_aggregated new_item in
                buffer ← buffer_set current_cursor new_item buffer;
                let self := set_buffer buffer self in
                if aggregated then advance_head now block_id self else Ok self
          end
      end
  end.

Definition process_signing_response (now : Z) (signature_result : result anyhow Signature)
    (commit_ledger_info : LedgerInfo) (self : BufferManager) : result anyhow BufferManager :=
  match signature_result with
  | Err _ => Ok self
  | Panic => Panic
  | Ok signature =>
      match find_elem_by_key (bm_buffer self) (bm_signing_root self)
              (BlockInfo_id (LedgerInfo_commit_info commit_ledger_info)) with
      | None => Ok self
      | Some _ as current_cursor =>
          '(item, buffer) ← buffer_take current_cursor (bm_buffer self);
          if is_executed item then
            signed_item ← advance_to_signed item (bm_author self) signature;
            signed ← unwrap_signed signed_item;
            let '(rb_handle, self) :=
              do_reliable_broadcast now (CommitMessage_Vote (si_commit_vote signed)) self in
            let signed_item :=
              Signed {| si_executed_blocks := si_executed_blocks signed;
                        si_partial_commit_proof := si_partial_commit_proof signed;
                        si_callback := si_callback signed; si_commit_vote := si_commit_vote signed;
                        si_rb_handle := rb_handle |} in
            buffer ← buffer_set current_cursor signed_item buffer;
            Ok (set_buffer buffer self)
          else
            buffer ← buffer_set current_cursor item buffer;
            Ok (set_buffer buffer self)
      end
  end.

Definition add_signature_if_matched_from_cache (item : BufferItem) (target_block_id : HashValue)
    (round : Z) (self : BufferManager) : BufferItem * BufferManager :=
  let '(votes, self) := drain_cached_commit_votes round target_block_id self in
  (add_signatures votes item, self).

Definition ack (self : BufferManager) : BufferManager := send [Reply CommitMessage_Ack] self.
Definition reply_nack (self : BufferManager) : BufferManager := send [Reply CommitMessage_Nack] self.

Definition process_commit_vote (vote : CommitVote) (self : BufferManager) :
    result anyhow (option HashValue * BufferManager) :=
  let commit_info := LedgerInfo_commit_info (cv_ledger_info vote) in
  let target_block_id := BlockInfo_id commit_info in
  match find_elem_by_key (bm_buffer self) (head_cursor (bm_buffer self)) target_block_id with
  | Some _ as current_cursor =>
      '(item, buffer) ← buffer_take current_cursor (bm_buffer self);
      let '(item, self) :=
        add_signature_if_matched_from_cache item target_block_id (BlockInfo_round commit_info) self in
      '(new_item, self) ←
        match add_signature_if_matched item vote with
        | Ok item => item ← try_advance_to_aggregated item (bm_verifier self); Ok (item, ack self)
        | Err _ => Ok (item, reply_nack self)
        | Panic => Panic
        end;
      buffer ← buffer_set current_cursor new_item buffer;
      let self := set_buffer buffer self in
      item ← buffer_get (bm_buffer self) current_cursor;
      Ok (if is_aggregated item then Some target_block_id else None, self)
  | None =>
      let '(cached, self) := cache_commit_vote vote self in
      Ok (None, if cached then ack self else reply_nack self)
  end.

Definition process_commit_decision (commit_proof : LedgerInfoWithSignatures)
    (self : BufferManager) : result anyhow (option HashValue * BufferManager) :=
  let target_block_id := BlockInfo_id (li_commit_info commit_proof) in
  match find_elem_by_key (bm_buffer self) (head_cursor (bm_buffer self)) target_block_id with
  | Some _ as cursor =>
      '(item, buffer) ← buffer_take cursor (bm_buffer self);
      new_item ← try_advance_to_aggregated_with_ledger_info item commit_proof;
      let aggregated := is_aggregated new_item in
      buffer ← buffer_set cursor new_item buffer;
      let self := set_buffer buffer self in
      if aggregated then Ok (Some target_block_id, ack self) else Ok (None, reply_nack self)
  | None => Ok (None, reply_nack (try_add_pending_commit_proof commit_proof self).2)
  end.

Definition process_commit_message (commit_msg : CommitMessage) (self : BufferManager) :
    result anyhow (option HashValue * BufferManager) :=
  match commit_msg with
  | CommitMessage_Vote vote => process_commit_vote vote self
  | CommitMessage_Decision commit_proof => process_commit_decision commit_proof self
  | CommitMessage_Ack | CommitMessage_Nack => Ok (None, self)
  end.

Fixpoint rebroadcast_loop (fuel : nat) (now : Z) (cursor : option HashValue)
    (self : BufferManager) : result anyhow BufferManager :=
  match cursor with
  | None => Ok self
  | Some _ =>
      match fuel with
      | O => Err "loop"
      | S fuel =>
          '(item, buffer) ← buffer_take cursor (bm_buffer self);
          match item with
          | Signed signed_item =>
              let re_broadcast :=
                match si_rb_handle signed_item with
                | None => true
                | Some start_time => COMMIT_VOTE_REBROADCAST_INTERVAL_MS <=? now - start_time
                end in
              let '(rb_handle, self) :=
                if re_broadcast then
                  do_reliable_broadcast now (CommitMessage_Vote (si_commit_vote signed_item)) self
                else (si_rb_handle signed_item, self) in
              buffer ← buffer_set cursor
                (Signed {| si_executed_blocks := si_executed_blocks signed_item;
                           si_partial_commit_proof := si_partial_commit_proof signed_item;
                           si_callback := si_callback signed_item;
                           si_commit_vote := si_commit_vote signed_item;
                           si_rb_handle := rb_handle |}) buffer;
              let self := set_buffer buffer self in
              next ← get_next (bm_buffer self) cursor;
              rebroadcast_loop fuel now next self
          | item =>
              buffer ← buffer_set cursor item buffer;
              Ok (set_buffer buffer self)
          end
      end
  end.

Definition rebroadcast_commit_votes_if_needed (now : Z) (self : BufferManager) :
    result anyhow BufferManager :=
  if now - bm_previous_commit_time self <? COMMIT_VOTE_BROADCAST_INTERVAL_MS then Ok self
  else rebroadcast_loop (Buffer_len (bm_buffer self)) now (head_cursor (bm_buffer self)) self.

Definition MAX_BACKLOG : Z := 20.
Definition need_backpressure (self : BufferManager) : result anyhow bool :=
  limit ← u64_add (bm_highest_committed_round self) MAX_BACKLOG;
  Ok (limit <? bm_latest_round self).

(** ** The event loop of [start] *)

Inductive Event : Type :=
| EvOrdered (blocks : OrderedBlocks)
| EvReset (signal : ResetSignal)
| EvScheduleResponse (block_id : HashValue)
| EvExecutionResponse (bb : BlockBuffer) (block_id : HashValue)
    (inner : result anyhow (list PipelinedBlock))
| EvRetry
| EvSigningResponse (signature_result : result anyhow Signature) (commit_ledger_info : LedgerInfo)
| EvPersisted (result : result anyhow Z)
| EvCommitMessage (message : CommitMessage)
| EvTick.

Definition advance_execution_root_if_none (self : BufferManager) : result anyhow BufferManager :=
  match bm_execution_root self with
  | None => '(_, self) ← advance_execution_root self; Ok self
  | Some _ => Ok self
  end.
Definition advance_signing_root_if_none (self : BufferManager) : result anyhow BufferManager :=
  match bm_signing_root self with
  | None => advance_signing_root self
  | Some _ => Ok self
  end.

(** One turn of the loop: the branch of the [select!] for an event.  The guard of
    the branch for ordered blocks is computed on every turn; under backpressure
    the branch is disabled.  Commit messages come from the task that verifies
    them first. *)
Definition handle (now : Z) (event : Event) (self : BufferManager) : result anyhow BufferManager :=
  backpressure ← need_backpressure self;
  match event with
  | EvOrdered blocks =>
      if (backpressure : bool) then Err "the branch is disabled" else
      latest_round ← OrderedBlocks_latest_round blocks;
      let self :=
        with_progress (bm_stop self) (bm_end_epoch_timestamp self) (bm_previous_commit_time self)
          (bm_highest_committed_round self) latest_round self in
      self ← process_ordered_blocks blocks self;
      advance_execution_root_if_none self
  | EvReset signal => Ok (process_reset_request now signal self)
  | EvScheduleResponse block_id => Ok (process_execution_schedule_response block_id self)
  | EvExecutionResponse bb response_block_id inner =>
      self ← process_execution_response now bb response_block_id inner self;
      '(retry, self) ← advance_execution_root self;
      let self :=
        if bool_decide (retry = Some response_block_id) then send [RetrySchedule 100] self
        else self in
      advance_signing_root_if_none self
  | EvRetry => retry_schedule_phase self
  | EvSigningResponse signature_result commit_ledger_info =>
      self ← process_signing_response now signature_result commit_ledger_info self;
      advance_signing_root self
  | EvPersisted (Ok round) =>
      let cache :=
        filter (λ p : Z * gmap HashValue (gmap AccountAddress CommitVote), round < p.1)
          (bm_commit_vote_cache self) in
      let self := with_caches cache (bm_pending_commit_proofs self) self in
      Ok (with_progress (bm_stop self) (bm_end_epoch_timestamp self) (bm_previous_commit_time self)
            round (bm_latest_round self) self)
  | EvPersisted (Err _) => Ok self
  | EvPersisted Panic => Panic
  | EvCommitMessage message =>
      '(aggregated, self) ← process_commit_message message self;
      match aggregated with
      | None => Ok self
      | Some aggregated_block_id =>
          self ← advance_head now aggregated_block_id self;
          self ← advance_execution_root_if_none self;
          advance_signing_root_if_none self
      end
  | EvTick => rebroadcast_commit_votes_if_needed now self
  end.

End buffer_manager.
