(* ===== verification/PipelineSafety.v ===== *)
(** The execution pipeline's buffer manager over any run: blocks are persisted
    in the order in which they were ordered, each once and only after
    execution, with commit proofs that verify if the votes agree on what they
    sign; no event makes it panic.

    The run is a sequence of events that respect what the other tasks provide
    ([event_ok]): ordered blocks come once, execution is deterministic and
    answers in order, commit messages are verified. *)
From S2P Require Import Prelude Laptos Payload Certificates Block Votes BlockBuffer Pipelined.
From S2P Require Import PipelineBuffer BufferItem BufferManager.

Section pipeline.
Context `{L : Laptos} `{G : !Gcei} `{PL : PipelineLib}.
Context `{!CryptoHash VoteData} `{!CryptoHash LedgerInfo} `{LL : !LaptosLaws L}.
(** The validators of the epoch; the commit info and the consensus data hash that
    the network agrees on for a block; whether order votes are enabled; and
    whether every commit vote is for the ledger info that follows from these. *)
Context (v : ValidatorVerifier) (expected : HashValue → BlockInfo).
Context (data_hash : HashValue → HashValue) (order_vote_enabled : bool) (canonical_votes : Prop).
Context `{AL : !AggregationLaws v} (Hexp : ∀ h, BlockInfo_id (expected h) = h).

(** The consensus data hash of the ledger info to commit: zero with order votes,
    that of the certificate that ordered the block without. *)
Definition proof_data_hash (ordered_proof : LedgerInfoWithSignatures) : HashValue :=
  if order_vote_enabled then HashValue_zero
  else LedgerInfo_consensus_data_hash (LedgerInfoWithSignatures_ledger_info ordered_proof).

(** The ledger info to commit is determined by the commit info. *)
Definition canonical (commit_info : BlockInfo) : LedgerInfo :=
  LedgerInfo_new_with_block_info commit_info (data_hash (BlockInfo_id commit_info))
    (BlockInfo_executed_state_id commit_info) (BlockInfo_version commit_info).

(** ** What holds of proofs, votes and items *)

Definition proof_ok (p : LedgerInfoWithSignatures) : Prop :=
  (canonical_votes → LedgerInfoWithSignatures_verify_signatures p v = Ok tt) ∧
  li_commit_info p = expected (BlockInfo_id (li_commit_info p)).

Definition vote_ok (vote : CommitVote) : Prop :=
  CommitVote_verify vote v = Ok tt ∧
  (canonical_votes → cv_ledger_info vote = canonical (LedgerInfo_commit_info (cv_ledger_info vote))).

(** A signature of the validator, on the agreed ledger info if votes agree. *)
Definition signature_ok (h : HashValue) (a : AccountAddress) (s : Signature) : Prop :=
  (∃ message, ValidatorVerifier_verify v a message s = Ok tt) ∧
  (canonical_votes →
     ValidatorVerifier_verify v a (signing_message (canonical (expected h))) s = Ok tt).

Definition partial_ok (h : HashValue) (proof : LedgerInfoWithVerifiedSignatures) : Prop :=
  LedgerInfoWithVerifiedSignatures_ledger_info proof = canonical (expected h) ∧
  ∀ a s, LedgerInfoWithVerifiedSignatures_signatures proof !! a = Some s → signature_ok h a s.

Definition item_ok (h : HashValue) (item : BufferItem) : Prop :=
  item_block_id item = Ok h ∧
  match item with
  | Ordered i =>
      BlockInfo_match_ordered_only (li_commit_info (oi_ordered_proof i)) (expected h) = true ∧
      BlockInfo_round (li_commit_info (oi_ordered_proof i)) < u64_MAX ∧
      proof_data_hash (oi_ordered_proof i) = data_hash h ∧
      ∀ p, oi_commit_proof i = Some p → proof_ok p ∧ li_commit_info p = expected h
  | Executed i => ei_commit_info i = expected h ∧ partial_ok h (ei_partial_commit_proof i)
  | Signed i => partial_ok h (si_partial_commit_proof i)
  | Aggregated i => proof_ok (ai_commit_proof i) ∧ li_commit_info (ai_commit_proof i) = expected h
  end.

Lemma LedgerInfo_commit_info_canonical ci : LedgerInfo_commit_info (canonical ci) = ci.
Proof using LL. apply LedgerInfo_commit_info_new_with. Qed.

Lemma partial_proof_new_spec li sigs :
  LedgerInfoWithVerifiedSignatures_ledger_info (partial_proof_new li sigs) = li ∧
  LedgerInfoWithVerifiedSignatures_signatures (partial_proof_new li sigs) = sigs.
Proof using LL.
  unfold partial_proof_new. apply (map_fold_weak_ind (λ r m,
    LedgerInfoWithVerifiedSignatures_ledger_info r = li ∧
    LedgerInfoWithVerifiedSignatures_signatures r = m)).
  - split; [apply LedgerInfoWithVerifiedSignatures_ledger_info_new|
      apply LedgerInfoWithVerifiedSignatures_signatures_new].
  - intros a s m r _ [Hl Hs].
    rewrite LedgerInfoWithVerifiedSignatures_ledger_info_add,
      LedgerInfoWithVerifiedSignatures_signatures_add, Hl, Hs. done.
Qed.

Lemma partial_ok_add h proof a s :
  partial_ok h proof → signature_ok h a s →
  partial_ok h (LedgerInfoWithVerifiedSignatures_add_signature a s proof).
Proof using LL.
  intros [Hl Hs] Hv. unfold partial_ok.
  rewrite LedgerInfoWithVerifiedSignatures_ledger_info_add,
    LedgerInfoWithVerifiedSignatures_signatures_add. split; [done|].
  intros b t [[<- <-]|[_ ?]]%lookup_insert_Some; [done|]. by apply Hs.
Qed.

(** A vote for the expected commit info carries a signature on it. *)
Lemma vote_ok_signature vote h :
  vote_ok vote → LedgerInfo_commit_info (cv_ledger_info vote) = expected h →
  signature_ok h (cv_author vote) (cv_signature vote).
Proof using Type.
  intros [Hv Hc] He. unfold CommitVote_verify, context, verifier_verify in Hv.
  apply Ok_map_err in Hv. split; [by eexists|]. intros Hcan. rewrite <- He, <- (Hc Hcan). exact Hv.
Qed.

(** Aggregating the signatures of a quorum. *)
Lemma aggregate_commit_proof_ok h sigs :
  (∀ a s, sigs !! a = Some s → signature_ok h a s) →
  has_quorum v sigs = true →
  ∃ p, aggregate_commit_proof (canonical (expected h)) sigs v = Ok p ∧ proof_ok p ∧
    li_commit_info p = expected h.
Proof using AL LL Hexp.
  intros Hs Hq.
  destruct (map_choice sigs (λ a s m, ValidatorVerifier_verify v a m s = Ok tt)
    (signing_message (canonical (expected h)))) as [msg Hmsg].
  { intros a s Ha. by apply (Hs a s). }
  destruct (aggregate_messages sigs msg Hmsg) as (agg & Ha & _).
  unfold aggregate_commit_proof. rewrite Ha. eexists. split; [done|].
  assert (li_commit_info (LedgerInfoWithSignatures_new (canonical (expected h)) agg) = expected h) as Hc.
  { unfold li_commit_info.
    by rewrite LedgerInfoWithSignatures_ledger_info_new, LedgerInfo_commit_info_canonical. }
  split; [|done]. split; [|by rewrite Hc, Hexp]. intros Hcan.
  destruct (aggregate_commit sigs (canonical (expected h))) as (agg' & Ha' & Hv); [|done|congruence].
  intros a s Has. by apply (Hs a s).
Qed.

(** ** The steps of an item *)

(** The same blocks at the same stage. *)
Definition same_stage (x y : BufferItem) : Prop :=
  get_blocks x = get_blocks y ∧ is_ordered x = is_ordered y ∧ is_aggregated x = is_aggregated y.

#[global] Instance same_stage_refl : Reflexive same_stage.
Proof using Type. done. Qed.
#[global] Instance same_stage_trans : Transitive same_stage.
Proof using Type. intros x y z (? & ? & ?) (? & ? & ?). split_and!; congruence. Qed.

Lemma item_block_id_blocks x y : get_blocks x = get_blocks y → item_block_id x = item_block_id y.
Proof using Type. intros Heq. unfold item_block_id. by rewrite Heq. Qed.

Lemma add_signature_ok h item vote :
  item_ok h item → vote_ok vote →
  match add_signature_if_matched item vote with
  | Ok item' => item_ok h item' ∧ same_stage item item'
  | Err _ => True
  | Panic => False
  end.
Proof using LL.
  intros [Hid Hok] Hvote. destruct item as [i|i|i|i]; simpl.
  - destruct (BlockInfo_match_ordered_only _ (LedgerInfo_commit_info _)); [|done].
    split; [split; [exact Hid|exact Hok]|done].
  - case_bool_decide as Hc; [|done]. destruct Hok as [He Hp]. split; [|done]. split; [done|].
    split; [done|]. apply partial_ok_add; [done|]. apply vote_ok_signature; [done|]. congruence.
  - case_bool_decide as Hc; [|done]. split; [|done]. split; [done|].
    apply partial_ok_add; [done|]. apply vote_ok_signature; [done|].
    unfold partial_commit_info in Hc. rewrite (proj1 Hok), LedgerInfo_commit_info_canonical in Hc.
    by rewrite Hc.
  - by case_bool_decide.
Qed.

Lemma add_signatures_ok h item votes :
  item_ok h item → Forall vote_ok votes →
  item_ok h (add_signatures votes item) ∧ same_stage item (add_signatures votes item).
Proof using LL.
  intros Hitem Hv. revert item Hitem. induction Hv as [|vote votes Hvote _ IH]; intros item Hitem.
  { done. }
  pose proof (add_signature_ok h item vote Hitem Hvote) as Hadd. unfold add_signatures. simpl.
  destruct (add_signature_if_matched item vote) as [item'|e|]; [|by apply IH|done].
  destruct Hadd as [Hok Hsame]. destruct (IH item' Hok) as [? ?].
  split; [done|]. by transitivity item'.
Qed.

Lemma try_advance_ok h item :
  item_ok h item →
  ∃ item', try_advance_to_aggregated item v = Ok item' ∧ item_ok h item' ∧
    get_blocks item' = get_blocks item ∧
    (item' = item ∨ is_aggregated item' = true ∧ is_ordered item = false).
Proof using AL LL Hexp.
  intros Hitem.
  assert (∃ item', Ok (E:=anyhow) item = Ok item' ∧ item_ok h item' ∧
    get_blocks item' = get_blocks item ∧
    (item' = item ∨ is_aggregated item' = true ∧ is_ordered item = false)) as Hsame.
  { exists item. split_and!; [done..|by left]. }
  destruct Hitem as [Hid Hok]. destruct item as [i|i|i|i]; simpl; [done| | |done].
  - destruct Hok as [He [Hl Hs]]. rewrite Hl. case_match eqn:Hq; [|done].
    destruct (aggregate_commit_proof_ok h _ Hs Hq) as (p & -> & Hp & Hc). simpl.
    eexists. split; [done|]. split_and!; [split|done|right]; done.
  - destruct Hok as [Hl Hs]. rewrite Hl. case_match eqn:Hq; [|done].
    destruct (aggregate_commit_proof_ok h _ Hs Hq) as (p & -> & Hp & Hc). simpl.
    unfold item_block_id in Hid. simpl in Hid. destruct (last _) eqn:Hlast; [|done].
    eexists. split; [done|]. split_and!; [split|done|right]; [|done..].
    unfold item_block_id. simpl. by rewrite Hlast.
Qed.

Lemma advance_with_ledger_info_ok h item p :
  item_ok h item → is_aggregated item = false → proof_ok p → li_commit_info p = expected h →
  ∃ item', try_advance_to_aggregated_with_ledger_info item p = Ok item' ∧ item_ok h item' ∧
    get_blocks item' = get_blocks item ∧
    (if is_ordered item then is_ordered item' = true else is_aggregated item' = true).
Proof using LL.
  intros [Hid Hok] Hna Hp Hc. destruct item as [i|i|i|i]; simpl; [| | |done].
  - destruct Hok as (Hm & Hr & Hd & _). rewrite Hc, Hm. eexists. split; [done|].
    split_and!; [|done|done]. split; [done|]. split_and!; [done|done|done|].
    simpl. intros q [= <-]. done.
  - destruct Hok as [He _]. rewrite bool_decide_eq_true_2 by congruence.
    unfold item_block_id in Hid. simpl in Hid. destruct (last _) eqn:Hlast; [|done].
    eexists. split; [done|]. split_and!; [|done|done]. split; [|done].
    unfold item_block_id. simpl. by rewrite Hlast.
  - unfold partial_commit_info. rewrite (proj1 Hok), LedgerInfo_commit_info_canonical.
    rewrite bool_decide_eq_true_2 by congruence. eexists. split; [done|]. done.
Qed.

Lemma executed_commit_info_spec block n ts ebi ci :
  block_block_number (pb_block block) = Some n →
  executed_commit_info block ts ebi = Ok ci →
  ∃ t b, ci = BlockInfo_new_with_epoch_block_info (pb_epoch block) (pb_round block) (pb_id block)
    (StateComputeResult_root_hash (pb_state_compute_result block)) n t
    (scr_epoch_state (pb_state_compute_result block)) b.
Proof using LL.
  intros Hn. unfold executed_commit_info, PipelinedBlock_block_info, Block_gen_block_info.
  rewrite Hn. cbn [default from_option]. rewrite <- BlockInfo_new_with_None.
  destruct ts as [ts|]; [case_bool_decide; [|destruct (PipelinedBlock_is_reconfiguration_suffix block)]|];
    simpl; try done;
    rewrite ?BlockInfo_change_timestamp_new_with; intros Hci; injection Hci as <-;
    rewrite BlockInfo_epoch_new_with, BlockInfo_round_new_with, BlockInfo_id_new_with,
      BlockInfo_executed_state_id_new_with, BlockInfo_version_new_with,
      BlockInfo_next_epoch_state_new_with; eauto.
Qed.

Lemma generate_canonical h ordered_proof root_hash n :
  proof_data_hash ordered_proof = data_hash h →
  BlockInfo_executed_state_id (expected h) = root_hash → BlockInfo_version (expected h) = n →
  generate_commit_ledger_info (expected h) ordered_proof order_vote_enabled root_hash n =
  canonical (expected h).
Proof using Hexp.
  intros Hd <- <-. unfold generate_commit_ledger_info, canonical. rewrite Hexp.
  unfold proof_data_hash in Hd. by rewrite Hd.
Qed.

(** The item an execution makes of an ordered one. *)
Lemma generate_executed_item_ok h ci blocks sigs callback op block n :
  last blocks = Some block → pb_id block = h → block_block_number (pb_block block) = Some n →
  ci = expected h → (∃ t b, ci = BlockInfo_new_with_epoch_block_info (pb_epoch block)
    (pb_round block) (pb_id block) (StateComputeResult_root_hash (pb_state_compute_result block)) n t
    (scr_epoch_state (pb_state_compute_result block)) b) →
  is_consensus_alpha_active_at (block_timestamp_usecs (pb_block block)) = true ∨
    BlockInfo_timestamp_usecs ci = block_timestamp_usecs (pb_block block) →
  proof_data_hash op = data_hash h → (∀ a s, sigs !! a = Some s → signature_ok h a s) →
  ∃ item, generate_executed_item_from_ordered ci blocks sigs callback op order_vote_enabled
      (is_consensus_alpha_active_at (block_timestamp_usecs (pb_block block))) = Ok item ∧
    item_ok h item ∧ get_blocks item = blocks ∧ is_ordered item = false ∧
    is_aggregated item = false.
Proof using LL Hexp.
  intros Hlast Hid Hn Hci (t & b & Hshape) Halpha Hdh Hs.
  unfold generate_executed_item_from_ordered. rewrite Hlast, Hn.
  set (ts := executed_commit_timestamp_usecs _ _ _).
  assert (ts = t) as ->.
  { unfold ts, executed_commit_timestamp_usecs.
    rewrite Hshape, BlockInfo_timestamp_usecs_new_with in *.
    case_match; [done|]. destruct Halpha as [|Ht]; [congruence|done]. }
  rewrite Hshape, BlockInfo_epoch_new_with, BlockInfo_round_new_with, BlockInfo_id_new_with,
    BlockInfo_executed_state_id_new_with, BlockInfo_next_epoch_state_new_with,
    BlockInfo_epoch_block_info_new_with, <- Hshape, Hci.
  eexists. split; [done|]. split_and!; [|done..]. split.
  - unfold item_block_id. simpl. by rewrite Hlast, Hid.
  - split; [done|]. cbn [ei_partial_commit_proof]. unfold partial_ok.
    rewrite (generate_canonical h op (StateComputeResult_root_hash (pb_state_compute_result block)) n);
      [|done|by rewrite <- Hci, Hshape, BlockInfo_executed_state_id_new_with|
        by rewrite <- Hci, Hshape, BlockInfo_version_new_with].
    destruct (partial_proof_new_spec (canonical (expected h)) sigs) as [-> ->]. done.
Qed.

(** What the other tasks provide when a block is executed: its result gives the
    agreed commit info, and past the fork or without a corrected timestamp the
    signed ledger info is the one verified before. *)
Definition execution_ok (h : HashValue) (ordered executed : list PipelinedBlock)
    (ts : option Z) (ebi : option (EpochBlockInfo HashValue)) : Prop :=
  pb_id <$> ordered = pb_id <$> executed ∧
  ∃ block, last executed = Some block ∧ is_Some (block_block_number (pb_block block)) ∧
    executed_commit_info block ts ebi = Ok (expected h) ∧
    (is_consensus_alpha_active_at (block_timestamp_usecs (pb_block block)) = true ∨
     BlockInfo_timestamp_usecs (expected h) = block_timestamp_usecs (pb_block block)).

Lemma advance_to_executed_ok h item executed ts ebi :
  item_ok h item → is_ordered item = true → execution_ok h (get_blocks item) executed ts ebi →
  ∃ item', advance_to_executed_or_aggregated item executed v ts order_vote_enabled ebi = Ok item' ∧
    item_ok h item' ∧ get_blocks item' = executed ∧ is_ordered item' = false.
Proof using AL LL Hexp.
  intros [Hid Hok] Hord (Hids & block & Hlast & [n Hn] & Hci & Halpha).
  destruct item as [i|i|i|i]; [|done..]. simpl in *.
  assert (pb_id block = h) as Hh.
  { unfold item_block_id in Hid. simpl in Hid.
    assert (last (pb_id <$> oi_ordered_blocks i) = Some (pb_id block)) as Hl.
    { by rewrite Hids, fmap_last, Hlast. }
    rewrite fmap_last in Hl. destruct (last (oi_ordered_blocks i)); simplify_eq/=. done. }
  rewrite bool_decide_eq_true_2 by done. simpl. rewrite Hlast, Hci. cbn [mbind result_bind].
  destruct (executed_commit_info_spec _ _ _ _ _ Hn Hci) as (t & b & Hshape).
  assert (item_block_id (Aggregated {| ai_executed_blocks := executed;
    ai_commit_proof := oi_ordered_proof i; ai_callback := oi_callback i |}) = Ok h) as Hid'.
  { unfold item_block_id. simpl. by rewrite Hlast, Hh. }
  destruct (oi_commit_proof i) as [p|] eqn:Hp.
  { destruct Hok as (_ & _ & _ & Hproof). destruct (Hproof p eq_refl) as [Hpok Hpc].
    rewrite bool_decide_eq_true_2 by done. eexists. split; [done|]. done. }
  rewrite Hn. destruct Hok as (_ & _ & Hdh & _).
  rewrite (generate_canonical h (oi_ordered_proof i)
    (StateComputeResult_root_hash (pb_state_compute_result block)) n);
    [|done|by rewrite Hshape, BlockInfo_executed_state_id_new_with|
      by rewrite Hshape, BlockInfo_version_new_with].
  set (sigs := verify_signatures _ _ _).
  assert (∀ a s, sigs !! a = Some s → signature_ok h a s) as Hs.
  { intros a s. unfold sigs, verify_signatures. rewrite map_lookup_filter_Some. simpl.
    intros [_ Hv]. unfold verifier_verify in Hv.
    destruct (ValidatorVerifier_verify _ _ _ _) as [[]| |] eqn:Hver; [|done..].
    split; [by eexists|done]. }
  destruct (has_quorum v sigs) eqn:Hq.
  - destruct (aggregate_commit_proof_ok h sigs Hs Hq) as (p & -> & Hpok & Hpc). simpl.
    eexists. split; [done|]. done.
  - destruct (generate_executed_item_ok h (expected h) executed sigs (oi_callback i)
      (oi_ordered_proof i) block n) as (item & -> & Hit & Hbl & Ho & _); eauto.
Qed.

(** ** The invariant of the manager

    [received] are the ids of the blocks ordered since the last reset,
    [executed] the blocks of all successful execution responses, and [q] the
    queue the buffer represents. *)

(** The ids of the blocks handed to the persisting phase since the last reset. *)
Definition persisted_ids (log : list Output) : list HashValue :=
  foldl (λ ids o,
    match o with
    | PersistingRequest blocks _ _ => ids ++ (pb_id <$> blocks)
    | ReleaseInflightBlocks => []
    | _ => ids
    end) [] log.

Definition queue_ids (q : list (HashValue * BufferItem)) : list HashValue :=
  q ≫= λ p, pb_id <$> get_blocks p.2.

(** A request to persist: executed blocks up to the one a verified proof commits. *)
Definition output_ok (executed : list PipelinedBlock) (o : Output) : Prop :=
  match o with
  | PersistingRequest blocks proof _ =>
      (∀ b, b ∈ blocks → b ∈ executed) ∧ proof_ok proof ∧
      ∃ block, last blocks = Some block ∧ li_commit_info proof = expected (pb_id block)
  | _ => True
  end.

Definition entry_ok (executed : list PipelinedBlock) (p : HashValue * BufferItem) : Prop :=
  item_ok p.1 p.2 ∧ (is_ordered p.2 = false → ∀ b, b ∈ get_blocks p.2 → b ∈ executed).

(** The execution root points to an item with no ordered item before it. *)
Definition root_valid (q : list (HashValue * BufferItem)) (root : option HashValue) : Prop :=
  ∀ h, root = Some h →
    ∃ i x, q !! i = Some (h, x) ∧ Forall (λ p, is_ordered p.2 = false) (take i q).

Record manager_inv (received : list HashValue) (executed : list PipelinedBlock)
    (q : list (HashValue * BufferItem)) (self : BufferManager) : Prop := {
  inv_rep : represents (bf_count (bm_buffer self)) (bm_buffer self) q;
  inv_entries : Forall (entry_ok executed) q;
  inv_not_aggregated : Forall (λ p, is_aggregated p.2 = false) q;
  inv_sorted : StronglySorted (λ a b : bool, a = true → b = true) ((λ p, is_ordered p.2) <$> q);
  inv_root : root_valid q (bm_execution_root self);
  inv_config : bm_verifier self = v ∧ bm_order_vote_enabled self = order_vote_enabled;
  inv_backlog : bm_highest_committed_round self + MAX_BACKLOG ≤ u64_MAX;
  inv_votes : ∀ round cache block votes a vote,
    bm_commit_vote_cache self !! round = Some cache → cache !! block = Some votes →
    votes !! a = Some vote → vote_ok vote;
  inv_proofs : ∀ round p, bm_pending_commit_proofs self !! round = Some p → proof_ok p;
  inv_received : received = persisted_ids (bm_log self) ++ queue_ids q;
  inv_log : Forall (output_ok executed) (bm_log self);
}.

(** Between events the execution root is the first ordered item. *)
Definition settled (q : list (HashValue * BufferItem)) (self : BufferManager) : Prop :=
  bm_execution_root self = first_key is_ordered q.

(** Outputs that neither persist nor reset. *)
Definition neutral (o : Output) : bool :=
  match o with PersistingRequest _ _ _ | ReleaseInflightBlocks => false | _ => true end.

Lemma persisted_ids_neutral log outs :
  Forall (λ o, neutral o = true) outs → persisted_ids (log ++ outs) = persisted_ids log.
Proof using Type.
  intros Ho. unfold persisted_ids. rewrite foldl_app. generalize (foldl
    (λ ids o, match o with PersistingRequest blocks _ _ => ids ++ (pb_id <$> blocks)
      | ReleaseInflightBlocks => [] | _ => ids end) [] log) as acc.
  induction Ho as [|o outs Hn _ IH]; intros acc; [done|]. simpl. rewrite IH. by destruct o.
Qed.

Lemma inv_send received executed q self outs :
  Forall (λ o, neutral o = true) outs →
  manager_inv received executed q self → manager_inv received executed q (send outs self).
Proof using Type.
  intros Ho []. split; simpl; [done..| |].
  - by rewrite persisted_ids_neutral.
  - apply Forall_app. split; [done|]. eapply Forall_impl; [exact Ho|]. by intros [].
Qed.

Lemma inv_send1 received executed q self o :
  neutral o = true →
  manager_inv received executed q self → manager_inv received executed q (send [o] self).
Proof using Type. intros. apply inv_send; [|done]. by apply Forall_singleton. Qed.

(** Fields that no part of the invariant mentions. *)
Lemma inv_with_progress received executed q self stop ts time committed latest :
  manager_inv received executed q self → committed + MAX_BACKLOG ≤ u64_MAX →
  manager_inv received executed q (with_progress stop ts time committed latest self).
Proof using Type. intros [] ?. by split. Qed.

Lemma inv_signing_root received executed q self root :
  manager_inv received executed q self →
  manager_inv received executed q
    (with_buffer (bm_buffer self) (bm_execution_root self) root self).
Proof using Type. by intros []. Qed.

Lemma represents_count count b q : represents (T:=BufferItem) count b q → bf_count b = count.
Proof using Type. by intros (l & -> & _). Qed.

Lemma inv_caches received executed q self votes proofs :
  manager_inv received executed q self →
  (∀ round cache block vs a vote, votes !! round = Some cache → cache !! block = Some vs →
     vs !! a = Some vote → vote_ok vote) →
  (∀ round p, proofs !! round = Some p → proof_ok p) →
  manager_inv received executed q (with_caches votes proofs self).
Proof using Type. intros [] Hv Hp. by split. Qed.

(** Replacing an item by one of the same stage. *)
Lemma first_key_update (q : list (HashValue * BufferItem)) i h x y :
  q !! i = Some (h, x) → is_ordered x = is_ordered y →
  first_key is_ordered (<[i := (h, y)]> q) = first_key is_ordered q.
Proof using Type.
  intros Hi Hxy. revert i Hi. induction q as [|[k z] q IH]; intros [|i] Hi; simplify_eq/=.
  - by rewrite Hxy.
  - by rewrite IH.
Qed.

Lemma take_update {A} (q : list A) i j y :
  take j (<[i := y]> q) = <[i := y]> (take j q).
Proof using Type.
  revert i j. induction q as [|z q IH]; intros [|i] [|j]; simpl; [done..|]. by rewrite IH.
Qed.

Lemma root_valid_update (q : list (HashValue * BufferItem)) root i h x y :
  q !! i = Some (h, x) → is_ordered x = is_ordered y → root_valid q root →
  root_valid (<[i := (h, y)]> q) root.
Proof using Type.
  intros Hi Hxy Hr k Hk. destruct (Hr k Hk) as (j & z & Hj & Hbefore).
  exists j, (if decide (i = j) then y else z). rewrite take_update. split.
  - destruct (decide (i = j)) as [<-|Hne].
    + rewrite list_lookup_insert_eq by (by eapply lookup_lt_Some). congruence.
    + by rewrite list_lookup_insert_ne.
  - destruct (decide (i < j)%nat).
    + apply Forall_insert; [done|]. simpl. rewrite <- Hxy. rewrite Forall_lookup in Hbefore.
      apply (Hbefore i (h, x)). by rewrite lookup_take_lt.
    + rewrite list_insert_ge; [done|]. rewrite length_take. lia.
Qed.

Lemma queue_ids_update (q : list (HashValue * BufferItem)) i h x y :
  q !! i = Some (h, x) → pb_id <$> get_blocks x = pb_id <$> get_blocks y →
  queue_ids (<[i := (h, y)]> q) = queue_ids q.
Proof using Type.
  intros Hi Hxy. revert i Hi. induction q as [|[k z] q IH]; intros [|i] Hi; simplify_eq/=.
  - unfold queue_ids. simpl. by rewrite Hxy.
  - unfold queue_ids in *. simpl. by rewrite IH.
Qed.

Lemma inv_update received executed q self i h x y b :
  manager_inv received executed q self → q !! i = Some (h, x) →
  item_ok h y → same_stage x y →
  represents (bf_count (bm_buffer self)) b (<[i := (h, y)]> q) →
  manager_inv received executed (<[i := (h, y)]> q) (set_buffer b self).
Proof using Type.
  intros [] Hi Hy (Hb & Ho & Ha) Hrep. split; simpl; try done.
  - by rewrite (represents_count _ _ _ Hrep).
  - apply Forall_insert; [done|]. split; [done|]. simpl. rewrite <- Ho, <- Hb.
    rewrite Forall_lookup in inv_entries0. by destruct (inv_entries0 i _ Hi) as [_ ?].
  - apply Forall_insert; [done|]. simpl. rewrite <- Ha.
    rewrite Forall_lookup in inv_not_aggregated0. exact (inv_not_aggregated0 i _ Hi).
  - rewrite list_fmap_insert. simpl. rewrite list_insert_id; [done|].
    rewrite list_lookup_fmap, Hi. simpl. by rewrite Ho.
  - by apply (root_valid_update q _ i h x y).
  - rewrite (queue_ids_update q i h x y) by (done || by rewrite Hb). done.
Qed.

(** ** Advancing the roots *)

Lemma first_key_drop (q : list (HashValue * BufferItem)) i :
  Forall (λ p, is_ordered p.2 = false) (take i q) →
  first_key is_ordered (drop i q) = first_key is_ordered q.
Proof using Type.
  revert i. induction q as [|[h x] q IH]; intros [|i] Hf; simpl in *; [done..|].
  apply Forall_cons in Hf as [Hx Hf]. simpl in Hx. rewrite Hx. by apply IH.
Qed.

Lemma first_key_Some {T : Type} (f : T → bool) (q : list (HashValue * T)) h :
  first_key f q = Some h →
  ∃ i x, q !! i = Some (h, x) ∧ f x = true ∧ Forall (λ p, f p.2 = false) (take i q).
Proof using Type.
  induction q as [|[k x] q IH]; simpl; [done|]. destruct (f x) eqn:Hx.
  - intros [= <-]. exists 0%nat, x. split_and!; [done..|constructor].
  - intros (i & y & ? & ? & ?)%IH. exists (S i), y. split_and!; [done..|]. by constructor.
Qed.

Lemma key_at_position (q : list (HashValue * BufferItem)) h :
  h ∈ q.*1 → ∃ i x, q !! i = Some (h, x).
Proof using Type.
  intros ([h' x] & -> & [i Hi]%list_elem_of_lookup)%list_elem_of_fmap. simpl. eauto.
Qed.

Lemma find_elem_any count b q cursor (f : BufferItem → bool) :
  represents count b q →
  ∃ root, find_elem_from b cursor f = Ok root ∧
    ∀ h, root = Some h → ∃ i x, q !! i = Some (h, x) ∧ f x = true.
Proof using Type.
  intros Hr. destruct cursor as [c|].
  2: { exists None. split; [|done]. by eapply represents_find_missing. }
  destruct (decide (c ∈ q.*1)) as [(i & x & Hi)%key_at_position|Hn].
  - eexists. split; [by eapply represents_find|].
    intros h (j & y & Hj & Hy & _)%first_key_Some.
    rewrite lookup_drop in Hj. eauto.
  - exists None. split; [|done]. eapply represents_find_missing; [done|]. by intros h [= <-].
Qed.

Lemma advance_execution_root_ok received executed q self :
  manager_inv received executed q self →
  ∃ retry self', advance_execution_root self = Ok (retry, self') ∧
    manager_inv received executed q self' ∧ settled q self'.
Proof using Type.
  intros Hinv. assert (Hinv' := Hinv). destruct Hinv'.
  assert (find_elem_from (bm_buffer self) (or_head (bm_execution_root self) self) is_ordered =
    Ok (first_key is_ordered q)) as Hfind.
  { unfold or_head. destruct (bm_execution_root self) as [h|] eqn:Hroot.
    - destruct (inv_root0 h eq_refl) as (i & x & Hi & Hbefore).
      rewrite (represents_find _ _ q _ i h x) by done. by rewrite first_key_drop.
    - rewrite (represents_head _ _ _ inv_rep0). destruct q as [|[h x] q'].
      + eapply represents_find_missing; [done|]. done.
      + by erewrite (represents_find _ _ ((h, x) :: q') _ 0 h x). }
  unfold advance_execution_root. rewrite Hfind. eexists _, _. split; [done|]. split; [|done].
  split; simpl; try done.
  intros h (i & x & Hi & _ & Hbefore)%first_key_Some. eauto.
Qed.

Lemma advance_execution_root_if_none_ok received executed q self :
  manager_inv received executed q self → bm_execution_root self = None ∨ settled q self →
  ∃ self', advance_execution_root_if_none self = Ok self' ∧
    manager_inv received executed q self' ∧ settled q self'.
Proof using Type.
  intros Hinv Hroot. unfold advance_execution_root_if_none.
  destruct (bm_execution_root self) eqn:Hr.
  - destruct Hroot as [|Hs]; [done|]. exists self. done.
  - destruct (advance_execution_root_ok _ _ _ _ Hinv) as (retry & self' & -> & ? & ?). simpl. eauto.
Qed.

Lemma advance_signing_root_ok received executed q self :
  manager_inv received executed q self → settled q self →
  ∃ self', advance_signing_root self = Ok self' ∧
    manager_inv received executed q self' ∧ settled q self'.
Proof using Type.
  intros Hinv Hs. unfold advance_signing_root.
  destruct (find_elem_any _ _ q (or_head (bm_signing_root self) self) is_executed
    (inv_rep _ _ _ _ Hinv)) as (root & -> & Hroot). simpl.
  pose proof (inv_signing_root _ _ _ _ root Hinv) as Hinv'.
  destruct root as [h|]; [|by eauto].
  destruct (Hroot h eq_refl) as (i & x & Hi & Hx).
  rewrite (represents_get _ _ q i h x (inv_rep _ _ _ _ Hinv) Hi). simpl.
  destruct x as [|e| |]; [done| |done..]. simpl. eexists. split; [done|]. split; [|done].
  by apply inv_send1.
Qed.

Lemma advance_signing_root_if_none_ok received executed q self :
  manager_inv received executed q self → settled q self →
  ∃ self', advance_signing_root_if_none self = Ok self' ∧
    manager_inv received executed q self' ∧ settled q self'.
Proof using Type.
  intros Hinv Hs. unfold advance_signing_root_if_none. destruct (bm_signing_root self); [eauto|].
  by apply advance_signing_root_ok.
Qed.

(** ** Advancing the head *)

Lemma manager_inv_mono received executed executed' q self :
  (∀ b, b ∈ executed → b ∈ executed') →
  manager_inv received executed q self → manager_inv received executed' q self.
Proof using Type.
  intros Hsub []. split; try done.
  - eapply Forall_impl; [exact inv_entries0|]. intros p [? Hb]. split; [done|]. eauto.
  - eapply Forall_impl; [exact inv_log0|]. intros [] Ho; try done. destruct Ho as (Hb & ?).
    split; [|done]. eauto.
Qed.

(** The state after popping [popped], whose last item is aggregated. *)
Definition head_advanced (now : Z) (b : Buffer) (popped : list (HashValue * BufferItem))
    (acc : list PipelinedBlock) (a : AggregatedItem) (self : BufferManager) : BufferManager :=
  let self :=
    with_buffer b (foldl clear_root (bm_execution_root self) popped.*1)
      (foldl clear_root (bm_signing_root self) popped.*1) self in
  let self :=
    if bm_consensus_publisher self then send [PublishDecision (ai_commit_proof a)] self else self in
  let self :=
    send [PersistingRequest (acc ++ (popped ≫= get_blocks ∘ snd)) (ai_commit_proof a)
            (ai_callback a)] self in
  with_progress (bm_stop self) (bm_end_epoch_timestamp self) now (bm_highest_committed_round self)
    (bm_latest_round self) self.

Lemma advance_head_loop_ok now h a post p : ∀ fuel acc count self,
  represents count (bm_buffer self) (p ++ (h, Aggregated a) :: post) →
  Forall (λ e, item_block_id e.2 = Ok e.1) (p ++ [(h, Aggregated a)]) → (length p < fuel)%nat →
  ∃ b, represents count b post ∧
    advance_head_loop fuel now h acc self =
    Ok (head_advanced now b (p ++ [(h, Aggregated a)]) acc a self).
Proof using Type.
  induction p as [|[k x] p IH]; intros [|fuel] acc count self Hr Hf Hfuel; [simpl in *; lia| |
    simpl in *; lia|].
  - destruct (represents_pop _ _ _ Hr) as (b & Hp & Hr'). exists b. split; [done|].
    simpl. rewrite Hp. simpl. apply Forall_cons in Hf as [Hid _]. simpl in Hid. rewrite Hid. simpl.
    rewrite bool_decide_eq_true_2 by done. unfold head_advanced. simpl.
    by rewrite app_nil_r.
  - destruct (represents_pop _ _ _ Hr) as (b & Hp & Hr').
    apply Forall_cons in Hf as [Hid Hf]. simpl in Hid.
    pose proof (represents_NoDup _ _ _ Hr) as Hnd. rewrite fmap_app, fmap_cons in Hnd.
    apply NoDup_cons in Hnd as [Hk _].
    destruct (IH fuel (acc ++ get_blocks x) count (with_buffer b (clear_root (bm_execution_root self) k)
      (clear_root (bm_signing_root self) k) self)) as (b' & Hr'' & Heq); [done..|simpl in *; lia|].
    exists b'. split; [done|].
    simpl. rewrite Hp. simpl. rewrite Hid. simpl. rewrite bool_decide_eq_false_2.
    + rewrite Heq. unfold head_advanced. simpl. by rewrite (assoc_L (++)).
    + intros ->. apply Hk. rewrite fmap_cons, elem_of_app, elem_of_cons. by auto.
Qed.

Lemma clear_roots (root : option HashValue) keys :
  foldl clear_root root keys = None ∨
  foldl clear_root root keys = root ∧ ∀ k, root = Some k → k ∉ keys.
Proof using Type.
  revert root. induction keys as [|k keys IH]; intros root; simpl.
  { right. split; [done|]. intros k _. apply not_elem_of_nil. }
  unfold clear_root at 2 4. case_bool_decide as Hk.
  - left. destruct (IH None) as [H|[H _]]; exact H.
  - destruct (IH root) as [H|[H Hn]]; [by left|]. right. split; [done|].
    intros k' Hk' [->|Hin]%elem_of_cons; [done|]. by apply (Hn k').
Qed.

Lemma persisted_ids_persist log blocks p c :
  persisted_ids (log ++ [PersistingRequest blocks p c]) = persisted_ids log ++ (pb_id <$> blocks).
Proof using Type. unfold persisted_ids. by rewrite foldl_app. Qed.

Lemma queue_ids_app q1 q2 : queue_ids (q1 ++ q2) = queue_ids q1 ++ queue_ids q2.
Proof using Type. apply bind_app. Qed.

Lemma queue_ids_blocks (q : list (HashValue * BufferItem)) :
  pb_id <$> (q ≫= get_blocks ∘ snd) = queue_ids q.
Proof using Type.
  induction q as [|[h x] q IH]; [done|].
  change (pb_id <$> (get_blocks x ++ (q ≫= get_blocks ∘ snd)) =
    (pb_id <$> get_blocks x) ++ queue_ids q).
  by rewrite fmap_app, IH.
Qed.

Lemma root_valid_drop (q : list (HashValue * BufferItem)) root i :
  root_valid q root → (∀ k, root = Some k → k ∉ (take i q).*1) → root_valid (drop i q) root.
Proof using Type.
  intros Hr Hn k Hk. destruct (Hr k Hk) as (j & x & Hj & Hf). specialize (Hn k Hk).
  assert (i ≤ j)%nat as Hij.
  { destruct (decide (i ≤ j)%nat); [done|]. exfalso. apply Hn.
    apply list_elem_of_fmap. exists (k, x). split; [done|].
    apply (list_elem_of_lookup_2 _ j). rewrite lookup_take_lt by lia. done. }
  exists (j - i)%nat, x. rewrite lookup_drop. replace (i + (j - i))%nat with j by lia.
  split; [done|]. rewrite Forall_lookup in *. intros n y.
  destruct (decide (n < j - i)%nat).
  - rewrite lookup_take_lt, lookup_drop by done. intros Hy. apply (Hf (i + n)%nat).
    rewrite lookup_take_lt by lia. done.
  - by rewrite lookup_take_ge by lia.
Qed.

Lemma last_app_cons {A} (l1 l2 : list A) x : last l2 = Some x → last (l1 ++ l2) = Some x.
Proof using Type. intros H. by rewrite last_app, H. Qed.

Lemma StronglySorted_drop {A} (R : relation A) l i :
  StronglySorted R l → StronglySorted R (drop i l).
Proof using Type.
  intros Hs. rewrite <- (take_drop i l) in Hs. by eapply StronglySorted_app_1_r.
Qed.

Lemma head_advanced_log executed now b popped a block self :
  Forall (output_ok executed) (bm_log self) → Forall (entry_ok executed) popped →
  Forall (λ p, is_ordered p.2 = false) popped → proof_ok (ai_commit_proof a) →
  last (popped ≫= get_blocks ∘ snd) = Some block →
  li_commit_info (ai_commit_proof a) = expected (pb_id block) →
  let self' := head_advanced now b popped [] a self in
  persisted_ids (bm_log self') = persisted_ids (bm_log self) ++ queue_ids popped ∧
  Forall (output_ok executed) (bm_log self').
Proof using Type.
  intros Hlog Hpopped Hexecuted Hp Hlast Hc self'.
  assert (∃ outs, Forall (λ o, neutral o = true) outs ∧ Forall (output_ok executed) outs ∧
    bm_log self' = (bm_log self ++ outs) ++ [PersistingRequest (popped ≫= get_blocks ∘ snd)
      (ai_commit_proof a) (ai_callback a)]) as (outs & Hn & Houts & ->).
  { unfold self', head_advanced. simpl. destruct (bm_consensus_publisher self).
    - exists [PublishDecision (ai_commit_proof a)]. split_and!; by repeat constructor.
    - exists []. split_and!; [constructor..|]. by rewrite app_nil_r. }
  split.
  - by rewrite persisted_ids_persist, persisted_ids_neutral, queue_ids_blocks.
  - apply Forall_app. split; [by apply Forall_app|]. constructor; [|constructor].
    split_and!; [|done|by eauto].
    intros c ([k y] & Hin & Hky)%list_elem_of_bind. rewrite Forall_forall in Hpopped, Hexecuted.
    destruct (Hpopped _ Hky) as [_ Hex]. apply Hex; [|done]. exact (Hexecuted _ Hky).
Qed.

(** Once the item of [h] is aggregated, it is persisted with all before it. *)
Lemma advance_head_ok received executed q self i h x a b now :
  manager_inv received executed q self → q !! i = Some (h, x) →
  Forall (λ p, is_ordered p.2 = false) (take i q) →
  entry_ok executed (h, Aggregated a) →
  pb_id <$> get_blocks x = pb_id <$> ai_executed_blocks a →
  represents (bf_count (bm_buffer self)) b (<[i := (h, Aggregated a)]> q) →
  ∃ self', advance_head now h (set_buffer b self) = Ok self' ∧
    manager_inv received executed (drop (S i) q) self' ∧
    (settled q self → is_ordered x = false →
     bm_execution_root self' = None ∨ settled (drop (S i) q) self').
Proof using Type.
  intros Hinv Hi Hbefore Ha Hids Hrep. assert (Hinv' := Hinv). destruct Hinv'.
  assert (Hlt := lookup_lt_Some _ _ _ Hi).
  assert (<[i := (h, Aggregated a)]> q = take i q ++ (h, Aggregated a) :: drop (S i) q) as Hq.
  { by apply insert_take_drop. }
  set (popped := take i q ++ [(h, Aggregated a)]).
  assert (Forall (entry_ok executed) popped) as Hpopped.
  { apply Forall_app. split; [by apply Forall_take|]. by apply Forall_singleton. }
  rewrite Hq in Hrep.
  destruct (advance_head_loop_ok now h a (drop (S i) q) (take i q) (S (Buffer_len b)) []
    (bf_count (bm_buffer self)) (set_buffer b self) Hrep) as (b' & Hr' & Hloop).
  { eapply Forall_impl; [exact Hpopped|]. by intros ? [[? _] _]. }
  { rewrite (represents_size _ _ _ Hrep), length_app. lia. }
  eexists. split; [exact Hloop|].
  fold popped in Hloop |- *. set (blocks := popped ≫= get_blocks ∘ snd).
  assert (popped.*1 = (take (S i) q).*1) as Hkeys.
  { unfold popped. rewrite (take_S_r _ _ _ Hi), !fmap_app. done. }
  assert (∃ block, last blocks = Some block ∧ pb_id block = h) as (block & Hlast & Hblock).
  { destruct Ha as [[Hid _] _]. unfold item_block_id in Hid. simpl in Hid.
    destruct (last (ai_executed_blocks a)) as [block|] eqn:Hl; [|done].
    exists block. split; [|congruence]. unfold blocks, popped. rewrite bind_app. simpl.
    rewrite app_nil_r. by apply last_app_cons. }
  destruct (head_advanced_log executed now b' popped a block (set_buffer b self))
    as [Hplog Hok]; [done|done| |apply Ha|done|by rewrite Hblock; apply Ha|].
  { apply Forall_app. split; [done|]. by repeat constructor. }
  assert (let self' := head_advanced now b' popped [] a (set_buffer b self) in
    bm_buffer self' = b' ∧ bm_verifier self' = bm_verifier self ∧
    bm_order_vote_enabled self' = bm_order_vote_enabled self ∧
    bm_highest_committed_round self' = bm_highest_committed_round self ∧
    bm_commit_vote_cache self' = bm_commit_vote_cache self ∧
    bm_pending_commit_proofs self' = bm_pending_commit_proofs self ∧
    bm_execution_root self' = foldl clear_root (bm_execution_root self) popped.*1)
    as (Hbuf & Hver & Hov & Hcom & Hvotes & Hproofs & Hroot).
  { unfold head_advanced. simpl. by destruct (bm_consensus_publisher self). }
  split.
  - split; rewrite ?Hbuf, ?Hver, ?Hov, ?Hcom, ?Hvotes, ?Hproofs, ?Hroot, ?Hkeys; try done.
    + by rewrite (represents_count _ _ _ Hr').
    + by apply Forall_drop.
    + by apply Forall_drop.
    + rewrite fmap_drop. by apply StronglySorted_drop.
    + destruct (clear_roots (bm_execution_root self) (take (S i) q).*1) as [->|[-> Hn]]; [done|].
      by apply root_valid_drop.
    + rewrite Hplog. simpl. rewrite <- (assoc_L (++)), <- queue_ids_app.
      unfold popped. rewrite <- (assoc_L (++)). simpl. rewrite <- Hq.
      by rewrite (queue_ids_update q i h x).
  - intros Hs Hx. unfold settled. rewrite Hroot, Hkeys.
    destruct (clear_roots (bm_execution_root self) (take (S i) q).*1) as [->|[-> _]]; [by left|].
    right. rewrite first_key_drop; [done|]. rewrite (take_S_r _ _ _ Hi).
    apply Forall_app. split; [done|]. by repeat constructor.
Qed.

(** ** The caches of votes and proofs *)

Lemma with_caches_id self :
  with_caches (bm_commit_vote_cache self) (bm_pending_commit_proofs self) self = self.
Proof using Type. by destruct self. Qed.

Lemma drain_votes_ok received executed q self round h :
  manager_inv received executed q self →
  ∃ votes cache,
    drain_cached_commit_votes round h self =
      (votes, with_caches cache (bm_pending_commit_proofs self) self) ∧
    Forall vote_ok votes ∧
    manager_inv received executed q (with_caches cache (bm_pending_commit_proofs self) self).
Proof using Type.
  intros Hinv. unfold drain_cached_commit_votes.
  destruct (bm_commit_vote_cache self !! round) as [rc|] eqn:Hrc.
  2: { exists [], (bm_commit_vote_cache self). by rewrite with_caches_id. }
  eexists _, _. split; [done|].
  assert (Hv := inv_votes _ _ _ _ Hinv). split.
  - destruct (rc !! h) as [votes|] eqn:Hh; [|constructor]. apply Forall_forall. simpl.
    intros vote ([a vote'] & -> & Hin%elem_of_map_to_list)%list_elem_of_fmap. simpl. eauto.
  - apply inv_caches; [done| |apply Hinv]. intros r cache block vs a vote Hr Hb Hvs.
    case_bool_decide.
    + rewrite lookup_delete_Some in Hr. destruct Hr as [_ Hr]. eauto.
    + rewrite lookup_insert_Some in Hr. destruct Hr as [[<- <-]|[_ Hr]]; [|eauto].
      rewrite lookup_delete_Some in Hb. destruct Hb as [_ Hb]. eauto.
Qed.

Lemma cache_vote_ok received executed q self vote :
  manager_inv received executed q self → vote_ok vote →
  ∃ cached cache,
    cache_commit_vote vote self =
      (cached, with_caches cache (bm_pending_commit_proofs self) self) ∧
    manager_inv received executed q (with_caches cache (bm_pending_commit_proofs self) self).
Proof using Type.
  intros Hinv Hvote. unfold cache_commit_vote.
  set (cache := filter _ (bm_commit_vote_cache self)).
  assert (Hv := inv_votes _ _ _ _ Hinv).
  assert (∀ r rc, cache !! r = Some rc → bm_commit_vote_cache self !! r = Some rc) as Hsub.
  { intros r rc. unfold cache. rewrite map_lookup_filter_Some. by intros [? _]. }
  assert (manager_inv received executed q (with_caches cache (bm_pending_commit_proofs self) self)).
  { apply inv_caches; [done| |apply Hinv]. eauto. }
  destruct (classify_commit_vote_round _ _ _); [by eauto..|].
  case_match; [|by eauto]. eexists _, _. split; [done|].
  apply inv_caches; [done| |apply Hinv]. intros r rc block vs a vt Hr Hb Hvs.
  rewrite lookup_insert_Some in Hr. destruct Hr as [[_ <-]|[_ Hr]]; [|eauto].
  assert (∀ block vs a vt,
    default ∅ (cache !! BlockInfo_round (LedgerInfo_commit_info (cv_ledger_info vote))) !! block
      = Some vs → vs !! a = Some vt → vote_ok vt) as Hold.
  { intros block' vs' a' vt'. destruct (cache !! _) eqn:Hc; simpl; [eauto|].
    by rewrite lookup_empty. }
  rewrite lookup_insert_Some in Hb. destruct Hb as [[_ <-]|[_ Hb]]; [|eauto].
  rewrite lookup_insert_Some in Hvs. destruct Hvs as [[_ <-]|[_ Hvs]]; [done|].
  destruct (_ !! BlockInfo_id _) eqn:Hd in Hvs; simpl in Hvs; [eauto|].
  by rewrite lookup_empty in Hvs.
Qed.

Lemma try_add_proof_ok received executed q self p :
  manager_inv received executed q self → proof_ok p →
  ∃ added proofs,
    try_add_pending_commit_proof p self =
      (added, with_caches (bm_commit_vote_cache self) proofs self) ∧
    manager_inv received executed q (with_caches (bm_commit_vote_cache self) proofs self).
Proof using Type.
  intros Hinv Hp. unfold try_add_pending_commit_proof.
  assert (Hv := inv_proofs _ _ _ _ Hinv).
  assert (∃ added proofs, (false, self) =
      (added, with_caches (bm_commit_vote_cache self) proofs self) ∧
    manager_inv received executed q (with_caches (bm_commit_vote_cache self) proofs self)) as Hno.
  { exists false, (bm_pending_commit_proofs self). by rewrite with_caches_id. }
  case_match; [|done].
  destruct (if (MAX_PENDING_COMMIT_PROOFS <=? _)%nat then _ else _) as [room|] eqn:Hroom; [|done].
  assert (room ⊆ bm_pending_commit_proofs self) as Hsub.
  { case_match; [|by simplify_eq].
    destruct (first_round (bm_pending_commit_proofs self)); [|done]. simpl in Hroom.
    case_match; simplify_eq. apply delete_subseteq. }
  eexists _, _. split; [done|]. apply inv_caches; [done|apply Hinv|].
  intros r p' [[_ <-]|[_ Hr]]%lookup_insert_Some; [done|].
  eapply Hv, lookup_weaken; [exact Hr|done].
Qed.

Lemma drain_proofs_ok received executed q self round :
  manager_inv received executed q self → round < u64_MAX →
  ∃ pending proofs,
    drain_pending_commit_proof_till round self =
      Ok (pending, with_caches (bm_commit_vote_cache self) proofs self) ∧
    manager_inv received executed q (with_caches (bm_commit_vote_cache self) proofs self) ∧
    ∀ p, pending = Some p → proof_ok p.
Proof using Type.
  intros Hinv Hr. unfold drain_pending_commit_proof_till, u64_add.
  assert (Hv := inv_proofs _ _ _ _ Hinv).
  case_match eqn:Hle; [|lia]. simpl. eexists _, _. split; [done|]. split.
  - apply inv_caches; [done|apply Hinv|]. intros r p. rewrite map_lookup_filter_Some.
    intros [? _]. eauto.
  - intros p Hp. destruct (last _) as [[r p']|] eqn:Hl; simplify_eq/=.
    apply last_Some_elem_of, elem_of_btree_list in Hl. rewrite map_lookup_filter_Some in Hl.
    destruct Hl as [? _]. eauto.
Qed.

(** ** The handlers *)

Lemma first_key_app {T : Type} (f : T → bool) (q1 q2 : list (HashValue * T)) :
  first_key f (q1 ++ q2) =
  match first_key f q1 with Some h => Some h | None => first_key f q2 end.
Proof using Type. induction q1 as [|[h x] q1 IH]; simpl; [done|]. by destruct (f x). Qed.

Lemma root_valid_app q1 q2 root : root_valid q1 root → root_valid (q1 ++ q2) root.
Proof using Type.
  intros Hr h Hh. destruct (Hr h Hh) as (i & x & Hi & Hf). exists i, x.
  assert (Hlt := lookup_lt_Some _ _ _ Hi). rewrite lookup_app_l by done. split; [done|].
  by rewrite take_app_le by lia.
Qed.

Lemma inv_push received executed q self h item b :
  manager_inv received executed q self → item_ok h item → is_ordered item = true →
  represents (bf_count (bm_buffer self) + 1) b (q ++ [(h, item)]) →
  manager_inv (received ++ (pb_id <$> get_blocks item)) executed (q ++ [(h, item)])
    (set_buffer b self).
Proof using Type.
  intros [] Hitem Hord Hr. split; simpl; try done.
  - by rewrite (represents_count _ _ _ Hr).
  - apply Forall_app. split; [done|]. apply Forall_singleton. split; [done|].
    simpl. by rewrite Hord.
  - apply Forall_app. split; [done|]. apply Forall_singleton. by destruct item.
  - rewrite fmap_app. apply StronglySorted_app_2; [|done|by repeat constructor].
    intros x y _ ->%list_elem_of_singleton _. done.
  - by apply root_valid_app.
  - rewrite inv_received0, queue_ids_app, (assoc_L (++)). f_equal. unfold queue_ids. simpl.
    by rewrite app_nil_r.
Qed.

Lemma process_ordered_ok received executed q self blocks b :
  manager_inv received executed q self → settled q self →
  bf_count (bm_buffer self) < u64_MAX →
  last (ob_ordered_blocks blocks) = Some b → pb_id b ∉ q.*1 →
  BlockInfo_match_ordered_only (li_commit_info (ob_ordered_proof blocks)) (expected (pb_id b)) = true →
  BlockInfo_round (li_commit_info (ob_ordered_proof blocks)) < u64_MAX →
  proof_data_hash (ob_ordered_proof blocks) = data_hash (pb_id b) →
  ∃ self' item, process_ordered_blocks blocks self = Ok self' ∧
    manager_inv (received ++ (pb_id <$> ob_ordered_blocks blocks)) executed
      (q ++ [(pb_id b, item)]) self' ∧
    (bm_execution_root self' = None ∨ settled (q ++ [(pb_id b, item)]) self').
Proof using LL.
  intros Hinv Hs Hcount Hlast Hfresh Hmatch Hround Hdh. unfold process_ordered_blocks.
  set (item := new_ordered _ _ _). set (self1 := send [ExecutionRequest _] _).
  assert (manager_inv received executed q self1 ∧ bm_buffer self1 = bm_buffer self ∧
    bm_execution_root self1 = bm_execution_root self) as (Hinv1 & Hb1 & Hr1).
  { unfold self1. split; [|by destruct (bm_consensus_publisher self)].
    apply inv_send1; [done|]. destruct (bm_consensus_publisher self); [by apply inv_send1|done]. }
  clearbody self1. assert (item_ok (pb_id b) item) as Hitem.
  { unfold item. split; [unfold item_block_id; simpl; by rewrite Hlast|].
    simpl. split_and!; done. }
  rewrite (proj1 Hitem). cbn [mbind result_bind].
  destruct (drain_votes_ok _ _ _ _ (BlockInfo_round (item_commit_info item)) (pb_id b) Hinv1)
    as (votes & cache & -> & Hvotes & Hinv2).
  destruct (add_signatures_ok (pb_id b) item votes Hitem Hvotes) as [Hitem' (Hbl & Hord & _)].
  set (item' := add_signatures votes item) in *. cbn [bm_buffer with_caches]. rewrite Hb1.
  assert (item_hash item' = Ok (pb_id b)) as Hhash by exact (proj1 Hitem').
  destruct (represents_push _ _ q item' (pb_id b) (inv_rep _ _ _ _ Hinv) Hcount Hhash Hfresh) as (buf & -> & Hrep). simpl.
  eexists _, item'. split; [done|]. split.
  - change (ob_ordered_blocks blocks) with (get_blocks item). rewrite Hbl.
    apply inv_push; [done..|]. simpl. by rewrite Hb1.
  - unfold settled. simpl. rewrite Hr1, first_key_app. unfold settled in Hs. rewrite Hs.
    destruct (first_key is_ordered q); [by right|by left].
Qed.

Lemma inv_reset received executed q self now :
  manager_inv received executed q self → manager_inv [] executed [] (reset now self).
Proof using Type.
  intros []. split; simpl; try done.
  - apply represents_new.
  - constructor.
  - unfold persisted_ids. by rewrite foldl_app.
  - apply Forall_app. split; [done|]. by repeat constructor.
Qed.

Lemma retry_loop_ok received executed q : ∀ n self,
  manager_inv received executed q self → settled q self →
  ∀ i h x, q !! i = Some (h, x) → (length q - i ≤ n)%nat →
  ∃ self', retry_loop n (Some h) self = Ok self' ∧ manager_inv received executed q self' ∧
    settled q self'.
Proof using Type.
  induction n as [|n IH]; intros self Hinv Hs i h x Hi Hn.
  { apply lookup_lt_Some in Hi. lia. }
  simpl. rewrite (represents_get _ _ q i h x (inv_rep _ _ _ _ Hinv) Hi). simpl.
  rewrite (represents_next _ _ q i h x (inv_rep _ _ _ _ Hinv) Hi), list_lookup_fmap. simpl.
  set (self1 := send [ExecutionRequest (get_blocks x)] self).
  assert (manager_inv received executed q self1) as Hinv1.
  { by apply inv_send1. }
  destruct (q !! S i) as [[h' x']|] eqn:Hi'; simpl.
  - apply (IH self1 Hinv1 Hs (S i) h' x' Hi'). lia.
  - destruct n; eauto.
Qed.

Lemma find_by_key_queued count b q cursor key c :
  represents (T:=BufferItem) count b q → find_elem_by_key b cursor key = Some c →
  c = key ∧ ∃ i x, q !! i = Some (key, x).
Proof using Type.
  intros Hr Hf. split; [by eapply find_elem_by_key_Some|]. apply key_at_position.
  destruct (decide (key ∈ q.*1)); [done|].
  by rewrite (represents_find_by_key_missing count b q) in Hf.
Qed.

(** What is before an executed item has been executed. *)
Lemma sorted_before received executed q self i h x :
  manager_inv received executed q self → q !! i = Some (h, x) → is_ordered x = false →
  Forall (λ p, is_ordered p.2 = false) (take i q).
Proof using Type.
  intros [] Hi Hx. apply Forall_lookup. intros j [k y] Hj.
  assert (j < i)%nat as Hlt. { apply lookup_lt_Some in Hj. rewrite length_take in Hj. lia. }
  rewrite lookup_take_lt in Hj by done. simpl. destruct (is_ordered y) eqn:Hy; [|done].
  assert (is_ordered x = true); [|congruence].
  rewrite <- (take_drop i q) in inv_sorted0. rewrite fmap_app in inv_sorted0.
  eapply (StronglySorted_app_1_elem_of _ _ _ (is_ordered y) _ inv_sorted0); [| |done].
  - apply list_elem_of_fmap. exists (k, y). split; [done|]. apply (list_elem_of_lookup_2 _ j).
    by rewrite lookup_take_lt.
  - apply list_elem_of_fmap. exists (h, x). split; [done|]. apply (list_elem_of_lookup_2 _ 0).
    rewrite lookup_drop. by rewrite Nat.add_0_r.
Qed.

(** The state in which the item of [h] has just become aggregated. *)
Definition aggregated_at (received : list HashValue) (executed : list PipelinedBlock)
    (h : HashValue) (self' : BufferManager) : Prop :=
  ∃ q self i x a b,
    self' = set_buffer b self ∧ manager_inv received executed q self ∧ settled q self ∧
    q !! i = Some (h, x) ∧ is_ordered x = false ∧ item_ok h (Aggregated a) ∧
    get_blocks x = ai_executed_blocks a ∧
    represents (bf_count (bm_buffer self)) b (<[i := (h, Aggregated a)]> q).

Lemma advance_head_aggregated received executed h self now :
  aggregated_at received executed h self →
  ∃ q self', advance_head now h self = Ok self' ∧ manager_inv received executed q self' ∧
    (bm_execution_root self' = None ∨ settled q self').
Proof using Type.
  intros (q & self1 & i & x & a & b & -> & Hinv & Hs & Hi & Hx & Ha & Hb & Hr).
  destruct (advance_head_ok received executed q self1 i h x a b now) as (self' & -> & Hinv' & Hs').
  - done.
  - done.
  - by eapply sorted_before.
  - split; [done|]. simpl. rewrite <- Hb. assert (He := inv_entries _ _ _ _ Hinv).
    rewrite Forall_lookup in He. intros _. by apply (He i (h, x) Hi).
  - by rewrite Hb.
  - done.
  - eauto 6.
Qed.

Lemma entry_item_ok received executed q self i h x :
  manager_inv received executed q self → q !! i = Some (h, x) →
  item_ok h x ∧ is_aggregated x = false.
Proof using Type.
  intros [] Hi. rewrite Forall_lookup in inv_entries0, inv_not_aggregated0. split.
  - apply (inv_entries0 i _ Hi).
  - apply (inv_not_aggregated0 i _ Hi).
Qed.

Lemma settled_update q self i h x y b :
  settled q self → q !! i = Some (h, x) → same_stage x y →
  settled (<[i := (h, y)]> q) (set_buffer b self).
Proof using Type.
  intros Hs Hi (_ & Ho & _). unfold settled. by rewrite (first_key_update q i h x y).
Qed.

(** After a commit message either no item is aggregated, or one item is. *)
Definition message_processed (received : list HashValue) (executed : list PipelinedBlock)
    (aggregated : option HashValue) (self' : BufferManager) : Prop :=
  match aggregated with
  | None => ∃ q, manager_inv received executed q self' ∧ settled q self'
  | Some h => aggregated_at received executed h self'
  end.

(** An item that stays at its stage, or becomes aggregated, is put back. *)
Lemma put_back_ok received executed q self i h x y b :
  manager_inv received executed q self → settled q self → q !! i = Some (h, x) →
  item_ok h y → get_blocks y = get_blocks x →
  (same_stage x y ∨ is_aggregated y = true ∧ is_ordered x = false) →
  represents (bf_count (bm_buffer self)) b (<[i := (h, y)]> q) →
  message_processed received executed (if is_aggregated y then Some h else None)
    (set_buffer b self).
Proof using Type.
  intros Hinv Hs Hi Hy Hb Hstage Hr.
  destruct (entry_item_ok _ _ _ _ _ _ _ Hinv Hi) as [_ Hna].
  destruct (is_aggregated y) eqn:Hagg.
  - destruct y as [| | |a]; [done..|].
    assert (is_ordered x = false) as Hx.
    { destruct Hstage as [(_ & _ & Ha)|[_ ?]]; [|done]. congruence. }
    exists q, self, i, x, a, b. by split_and!.
  - destruct Hstage as [Hsame|[? _]]; [|done]. exists (<[i := (h, y)]> q). split.
    + by eapply inv_update.
    + by eapply settled_update.
Qed.

Lemma put_item_ok received executed q self i h x y b1 :
  manager_inv received executed q self → settled q self → q !! i = Some (h, x) →
  (∀ y, ∃ b, buffer_set (Some h) y b1 = Ok b ∧
     represents (bf_count (bm_buffer self)) b (<[i := (h, y)]> q)) →
  item_ok h y → get_blocks y = get_blocks x →
  (same_stage x y ∨ is_aggregated y = true ∧ is_ordered x = false) →
  ∃ aggregated self',
    (buffer ← buffer_set (Some h) y b1;
     let self := set_buffer buffer self in
     item ← buffer_get (bm_buffer self) (Some h);
     Ok (if is_aggregated item then Some h else None, self)) = Ok (aggregated, self') ∧
    message_processed received executed aggregated self'.
Proof using Type.
  intros Hinv Hs Hi Hset Hy Hb Hstage. destruct (Hset y) as (b2 & -> & Hr).
  cbn [mbind result_bind]. simpl. assert (Hlt := lookup_lt_Some _ _ _ Hi).
  rewrite (represents_get _ _ _ i h y Hr) by (by rewrite list_lookup_insert_eq). simpl.
  eexists _, _. split; [done|]. by eapply put_back_ok.
Qed.

Lemma process_commit_vote_ok received executed q self vote :
  manager_inv received executed q self → settled q self → vote_ok vote →
  ∃ aggregated self', process_commit_vote vote self = Ok (aggregated, self') ∧
    message_processed received executed aggregated self'.
Proof using AL LL Hexp.
  intros Hinv Hs Hvote. unfold process_commit_vote.
  set (ci := LedgerInfo_commit_info (cv_ledger_info vote)).
  destruct (find_elem_by_key _ _ _) as [c|] eqn:Hfind.
  2: { destruct (cache_vote_ok _ _ _ _ vote Hinv Hvote) as (cached & cache & -> & Hinv').
       eexists _, _. split; [done|]. exists q.
       split; [|by destruct cached]. by destruct cached; apply inv_send1. }
  destruct (find_by_key_queued _ _ q _ _ _ (inv_rep _ _ _ _ Hinv) Hfind) as (-> & i & x & Hi).
  destruct (represents_take _ _ q i _ x (inv_rep _ _ _ _ Hinv) Hi) as (b1 & -> & Hset).
  cbn [mbind result_bind]. unfold add_signature_if_matched_from_cache.
  destruct (drain_votes_ok _ _ _ _ (BlockInfo_round ci) (BlockInfo_id ci) Hinv)
    as (votes & cache & -> & Hvotes & Hinv1).
  set (self1 := with_caches cache _ self) in *.
  destruct (entry_item_ok _ _ _ _ _ _ _ Hinv Hi) as [Hx Hna].
  destruct (add_signatures_ok _ x votes Hx Hvotes) as [Hx1 Hsame1].
  set (x1 := add_signatures votes x) in *.
  pose proof (add_signature_ok _ x1 vote Hx1 Hvote) as Hadd.
  destruct (add_signature_if_matched x1 vote) as [x2|e|]; [| |done].
  - destruct Hadd as [Hx2 Hsame2]. destruct (try_advance_ok _ x2 Hx2) as (x3 & Htry & Hx3 & Hb3 & Hst).
    change (bm_verifier self1) with (bm_verifier self).
    rewrite (proj1 (inv_config _ _ _ _ Hinv)), Htry. cbn [mbind result_bind].
    assert (same_stage x x2) as (Hb & Ho & Ha) by (by transitivity x1).
    apply (put_item_ok received executed q (ack self1) i _ x x3); try done.
    + by apply inv_send1.
    + congruence.
    + destruct Hst as [->|[? ?]]; [by left|right]. split; congruence.
  - cbn [mbind result_bind]. apply (put_item_ok received executed q (reply_nack self1) i _ x x1); try done.
    + by apply inv_send1.
    + symmetry. apply Hsame1.
    + by left.
Qed.

Lemma process_commit_decision_ok received executed q self p :
  manager_inv received executed q self → settled q self → proof_ok p →
  ∃ aggregated self', process_commit_decision p self = Ok (aggregated, self') ∧
    message_processed received executed aggregated self'.
Proof using LL.
  intros Hinv Hs Hp. unfold process_commit_decision.
  set (h := BlockInfo_id (li_commit_info p)).
  destruct (find_elem_by_key _ _ _) as [c|] eqn:Hfind.
  2: { destruct (try_add_proof_ok _ _ _ _ p Hinv Hp) as (added & proofs & -> & Hinv').
       eexists _, _. split; [done|]. exists q. split; [|done]. by apply inv_send1. }
  destruct (find_by_key_queued _ _ q _ _ _ (inv_rep _ _ _ _ Hinv) Hfind) as (-> & i & x & Hi).
  destruct (represents_take _ _ q i _ x (inv_rep _ _ _ _ Hinv) Hi) as (b1 & -> & Hset).
  cbn [mbind result_bind].
  destruct (entry_item_ok _ _ _ _ _ _ _ Hinv Hi) as [Hx Hna].
  destruct (advance_with_ledger_info_ok h x p Hx Hna Hp) as (y & -> & Hy & Hb & Hst).
  { apply Hp. }
  cbn [mbind result_bind]. destruct (Hset y) as (b2 & -> & Hr). cbn [mbind result_bind].
  destruct (is_ordered x) eqn:Hx'.
  - assert (is_aggregated y = false) as -> by by destruct y.
    assert (same_stage x y) as Hsame.
    { split_and!; [done|by rewrite Hx', Hst|]. rewrite Hna. by destruct y. }
    eexists _, _. split; [done|]. exists (<[i := (h, y)]> q). split.
    + apply inv_send1; [done|]. by eapply inv_update.
    + by eapply (settled_update q self).
  - rewrite Hst. eexists _, _. split; [done|].
    destruct y as [| | |a]; [done..|]. exists q, (ack self), i, x, a, b2. split_and!; try done.
    by apply inv_send1.
Qed.

Lemma process_commit_message_ok received executed q self message :
  manager_inv received executed q self → settled q self →
  match message with
  | CommitMessage_Vote vote => vote_ok vote
  | CommitMessage_Decision p => proof_ok p
  | _ => True
  end →
  ∃ aggregated self', process_commit_message message self = Ok (aggregated, self') ∧
    message_processed received executed aggregated self'.
Proof using AL LL Hexp.
  intros Hinv Hs Hm. destruct message as [vote|p| |]; simpl.
  - by eapply process_commit_vote_ok.
  - by eapply process_commit_decision_ok.
  - exists None, self. split; [done|]. by exists q.
  - exists None, self. split; [done|]. by exists q.
Qed.

(** Replacing an item by one of the same stage. *)
Lemma replace_item_ok received executed q self i h x y b :
  manager_inv received executed q self → settled q self → q !! i = Some (h, x) →
  item_ok h y → same_stage x y →
  represents (bf_count (bm_buffer self)) b (<[i := (h, y)]> q) →
  manager_inv received executed (<[i := (h, y)]> q) (set_buffer b self) ∧
  settled (<[i := (h, y)]> q) (set_buffer b self).
Proof using Type. intros. split; [by eapply inv_update|by eapply settled_update]. Qed.

Lemma broadcast_ok received executed q self now message handle self' :
  manager_inv received executed q self → settled q self →
  do_reliable_broadcast now message self = (handle, self') →
  manager_inv received executed q self' ∧ settled q self' ∧ bm_buffer self' = bm_buffer self.
Proof using Type.
  intros Hinv Hs. unfold do_reliable_broadcast.
  destruct (bm_observer_enabled self); intros [= <- <-]; [done|].
  split_and!; [|done..]. by apply inv_send1.
Qed.

Lemma process_signing_ok received executed q self now signature li :
  manager_inv received executed q self → settled q self → signature ≠ Panic →
  ∃ q' self', process_signing_response now signature li self = Ok self' ∧
    manager_inv received executed q' self' ∧ settled q' self'.
Proof using Type.
  intros Hinv Hs Hnp. unfold process_signing_response.
  destruct signature as [signature|e|]; [|by eauto|done].
  destruct (find_elem_by_key _ _ _) as [c|] eqn:Hfind; [|by eauto].
  destruct (find_by_key_queued _ _ q _ _ _ (inv_rep _ _ _ _ Hinv) Hfind) as (-> & i & x & Hi).
  destruct (represents_take _ _ q i _ x (inv_rep _ _ _ _ Hinv) Hi) as (b1 & -> & Hset).
  cbn [mbind result_bind].
  destruct (entry_item_ok _ _ _ _ _ _ _ Hinv Hi) as [Hx Hna].
  destruct (is_executed x) eqn:Hex.
  - destruct x as [|e| |]; [done| |done..]. simpl.
    destruct (do_reliable_broadcast _ _ _) as [handle self1] eqn:Hb.
    destruct (broadcast_ok _ _ _ _ _ _ _ _ Hinv Hs Hb) as (Hinv1 & Hs1 & Hb1).
    set (signed := Signed _). destruct (Hset signed) as (b2 & -> & Hr). simpl.
    eexists (<[i := (_, signed)]> q), _. split; [done|].
    apply (replace_item_ok received executed q self1 i _ (Executed e) signed); [done..| |done|].
    + destruct Hx as [Hid [_ Hp]]. by split.
    + by rewrite Hb1.
  - destruct (Hset x) as (b2 & -> & Hr). simpl. eexists _, _. split; [done|].
    by eapply replace_item_ok.
Qed.

Lemma rebroadcast_loop_ok received executed now : ∀ n q self,
  manager_inv received executed q self → settled q self →
  ∀ i h x, q !! i = Some (h, x) → (length q - i ≤ n)%nat →
  ∃ q' self', rebroadcast_loop n now (Some h) self = Ok self' ∧
    manager_inv received executed q' self' ∧ settled q' self'.
Proof using Type.
  induction n as [|n IH]; intros q self Hinv Hs i h x Hi Hn.
  { apply lookup_lt_Some in Hi. lia. }
  assert (Hlt := lookup_lt_Some _ _ _ Hi). simpl.
  destruct (represents_take _ _ q i _ x (inv_rep _ _ _ _ Hinv) Hi) as (b1 & -> & Hset).
  cbn [mbind result_bind].
  destruct (entry_item_ok _ _ _ _ _ _ _ Hinv Hi) as [Hx _].
  destruct (is_signed x) eqn:Hsigned.
  2: { destruct (Hset x) as (b2 & Hb2 & Hr).
       exists (<[i := (h, x)]> q), (set_buffer b2 self). split; [|by eapply replace_item_ok].
       destruct x; [rewrite Hb2; done..|done|rewrite Hb2; done]. }
  destruct x as [| |x|]; [done..| |done].
  set (again := match si_rb_handle x with None => true | Some _ => _ end).
  destruct (if again then do_reliable_broadcast now (CommitMessage_Vote (si_commit_vote x)) self
    else (si_rb_handle x, self)) as [handle self1] eqn:Hb.
  assert (manager_inv received executed q self1 ∧ settled q self1 ∧
    bm_buffer self1 = bm_buffer self) as (Hinv1 & Hs1 & Hb1).
  { destruct again.
    - by eapply broadcast_ok.
    - by injection Hb as <- <-. }
  set (y := Signed _). destruct (Hset y) as (b2 & -> & Hr). cbn [mbind result_bind].
  destruct (replace_item_ok received executed q self1 i h (Signed x) y b2) as [Hinv2 Hs2];
    [done..| |done|by rewrite Hb1|]. { exact Hx. }
  cbn [bm_buffer set_buffer with_buffer].
  rewrite (represents_next _ _ _ i h y Hr), list_lookup_fmap by (by rewrite list_lookup_insert_eq).
  rewrite list_lookup_insert_ne by lia. cbn [mbind result_bind].
  destruct (q !! S i) as [[h' x']|] eqn:Hi'; simpl.
  - apply (IH (<[i := (h, y)]> q) (set_buffer b2 self1) Hinv2 Hs2 (S i) h' x').
    + by rewrite list_lookup_insert_ne by lia.
    + rewrite length_insert. lia.
  - destruct n; eauto.
Qed.

Lemma rebroadcast_ok received executed q self now :
  manager_inv received executed q self → settled q self →
  ∃ q' self', rebroadcast_commit_votes_if_needed now self = Ok self' ∧
    manager_inv received executed q' self' ∧ settled q' self'.
Proof using Type.
  intros Hinv Hs. unfold rebroadcast_commit_votes_if_needed. case_match; [by eauto|].
  rewrite (represents_head _ _ _ (inv_rep _ _ _ _ Hinv)).
  rewrite (represents_size _ _ _ (inv_rep _ _ _ _ Hinv)).
  destruct q as [|[h x] q]; [by eauto|].
  by apply (rebroadcast_loop_ok _ _ _ _ ((h, x) :: q) self Hinv Hs 0 h x).
Qed.

Lemma retry_schedule_ok received executed q self :
  manager_inv received executed q self → settled q self →
  ∃ self', retry_schedule_phase self = Ok self' ∧ manager_inv received executed q self' ∧
    settled q self'.
Proof using Type.
  intros Hinv Hs. unfold retry_schedule_phase.
  rewrite (represents_size _ _ _ (inv_rep _ _ _ _ Hinv)).
  destruct (bm_execution_root self) as [h|] eqn:Hroot.
  - destruct (inv_root _ _ _ _ Hinv h Hroot) as (i & x & Hi & _).
    eapply retry_loop_ok; [done..|lia].
  - destruct (length q); simpl; eauto.
Qed.

(** ** Execution *)

(** The response of the execution phase for the block [h]: the block that is
    next to be executed, with the agreed result. *)
Definition response_ok (bb : BlockBuffer) (h : HashValue) (blocks : list PipelinedBlock)
    (self : BufferManager) : Prop :=
  ∀ c, find_elem_by_key (bm_buffer self) (bm_execution_root self) h = Some c →
    bm_execution_root self = Some h ∧
    ∀ item, buffer_get (bm_buffer self) (Some h) = Ok item →
      ∃ last_block, last blocks = Some last_block ∧
        let self := set_end_epoch_timestamp blocks self in
        execution_ok h (get_blocks item) blocks (bm_end_epoch_timestamp self)
          (resolve_epoch_block_info bb last_block self).

Lemma sorted_insert_false l i :
  StronglySorted (λ a b : bool, a = true → b = true) l → Forall (λ a, a = false) (take i l) →
  StronglySorted (λ a b : bool, a = true → b = true) (<[i := false]> l).
Proof using Type.
  intros Hs. revert i. induction Hs as [|a l Hs IH Ha]; intros [|i] Hf; simpl in *; [constructor..| |].
  - constructor; [done|]. by apply Forall_true.
  - apply Forall_cons in Hf as [-> Hf]. constructor; [by apply IH|]. by apply Forall_true.
Qed.

Lemma inv_executed received executed q self i h x y b :
  manager_inv received executed q self → q !! i = Some (h, x) →
  Forall (λ p, is_ordered p.2 = false) (take i q) → bm_execution_root self = Some h →
  entry_ok executed (h, y) → is_ordered y = false → is_aggregated y = false →
  pb_id <$> get_blocks x = pb_id <$> get_blocks y →
  represents (bf_count (bm_buffer self)) b (<[i := (h, y)]> q) →
  manager_inv received executed (<[i := (h, y)]> q) (set_buffer b self).
Proof using Type.
  intros [] Hi Hbefore Hroot Hy Ho Ha Hids Hr. assert (Hlt := lookup_lt_Some _ _ _ Hi).
  split; simpl; try done.
  - by rewrite (represents_count _ _ _ Hr).
  - by apply Forall_insert.
  - by apply Forall_insert.
  - rewrite list_fmap_insert. simpl. rewrite Ho. apply sorted_insert_false; [done|].
    rewrite <- fmap_take. by apply Forall_fmap.
  - rewrite Hroot. intros ? [= <-]. exists i, y. rewrite list_lookup_insert_eq by done.
    split; [done|]. by rewrite take_insert_ge by lia.
  - by rewrite (queue_ids_update q i h x y).
Qed.

(** A commit proof that came before the execution is used after it. *)
Lemma pending_proof_ok h y (pending : option LedgerInfoWithSignatures) :
  item_ok h y → is_ordered y = false → (∀ p, pending = Some p → proof_ok p) →
  ∃ y', match pending with
        | Some p =>
            if negb (is_aggregated y) && bool_decide (BlockInfo_id (li_commit_info p) = h)
            then try_advance_to_aggregated_with_ledger_info y p else Ok y
        | None => Ok y
        end = Ok y' ∧ item_ok h y' ∧ get_blocks y' = get_blocks y ∧ is_ordered y' = false.
Proof using LL.
  intros Hy Ho Hp. destruct pending as [p|]; [|by eauto].
  destruct (is_aggregated y) eqn:Ha; simpl; [by eauto|].
  case_bool_decide as Hh; [|by eauto].
  assert (li_commit_info p = expected h) as Hc. { rewrite <- Hh. by apply (Hp p). }
  destruct (advance_with_ledger_info_ok h y p Hy Ha (Hp p eq_refl) Hc) as (y' & -> & Hy' & Hb & Hst).
  rewrite Ho in Hst. exists y'. split_and!; try done. by destruct y'.
Qed.

Lemma process_execution_ok received executed q self now bb h blocks :
  manager_inv received executed q self → settled q self → response_ok bb h blocks self →
  ∃ q' self', process_execution_response now bb h (Ok blocks) self = Ok self' ∧
    manager_inv received (executed ++ blocks) q' self'.
Proof using AL LL Hexp.
  intros Hinv Hs Hresp. apply (manager_inv_mono _ _ (executed ++ blocks)) in Hinv.
  2: { intros b Hb. apply elem_of_app. by left. }
  unfold process_execution_response.
  destruct (find_elem_by_key _ _ _) as [c|] eqn:Hfind; [|by eauto].
  destruct (Hresp c Hfind) as [Hroot Hexec]. apply find_elem_by_key_Some in Hfind as ->.
  unfold settled in Hs. rewrite Hroot in Hs. symmetry in Hs.
  destruct (first_key_Some _ _ _ Hs) as (i & x & Hi & Hord & Hbefore).
  destruct (entry_item_ok _ _ _ _ _ _ _ Hinv Hi) as [Hx _].
  assert (Hget := represents_get _ _ q i h x (inv_rep _ _ _ _ Hinv) Hi).
  destruct (Hexec x Hget) as (last_block & Hlast & Hok).
  rewrite Hlast, Hget. cbn [mbind result_bind]. rewrite (proj1 Hx). cbn [mbind result_bind].
  rewrite bool_decide_eq_false_2 by (intros Hn; by apply Hn).
  set (self1 := set_end_epoch_timestamp blocks self) in *.
  assert (manager_inv received (executed ++ blocks) q self1) as Hinv1 by (apply inv_with_progress; [done|by eapply inv_backlog]).
  assert (bm_buffer self1 = bm_buffer self) as Hb1 by done.
  assert (bm_execution_root self1 = Some h) as Hroot1 by done.
  clearbody self1. rewrite Hb1.
  destruct (represents_take _ _ q i _ x (inv_rep _ _ _ _ Hinv) Hi) as (b1 & -> & Hset).
  cbn [mbind result_bind]. destruct (inv_config _ _ _ _ Hinv1) as [-> ->].
  destruct (advance_to_executed_ok h x blocks _ _ Hx Hord Hok) as (y & -> & Hy & Hyb & Hyo).
  cbn [mbind result_bind].
  assert (BlockInfo_round (item_commit_info x) < u64_MAX) as Hround.
  { destruct x as [x| | |]; [|done..]. by destruct Hx as (_ & _ & ? & _ & _). }
  destruct (drain_proofs_ok _ _ _ _ _ Hinv1 Hround) as (pending & proofs & -> & Hinv2 & Hpend).
  cbn [mbind result_bind].
  destruct (pending_proof_ok h y pending Hy Hyo Hpend) as (y' & -> & Hy' & Hyb' & Hyo').
  cbn [mbind result_bind]. rewrite Hyb in Hyb'.
  destruct (Hset y') as (b2 & -> & Hr). cbn [mbind result_bind]. rewrite <- Hb1 in Hr.
  assert (entry_ok (executed ++ blocks) (h, y')) as Hentry.
  { split; [done|]. simpl. rewrite Hyb'. intros _ b Hb. apply elem_of_app. by right. }
  assert (pb_id <$> get_blocks x = pb_id <$> get_blocks y') as Hids.
  { rewrite Hyb'. apply Hok. }
  destruct (is_aggregated y') eqn:Hagg.
  - destruct y' as [| | |a]; [done..|].
    destruct (advance_head_ok _ _ _ _ i h x a b2 now Hinv2 Hi Hbefore Hentry Hids Hr)
      as (self' & -> & Hinv' & _). eauto.
  - eexists _, _. split; [done|]. by apply (inv_executed _ _ q _ i h x).
Qed.

(** ** The event loop *)

(** What the other tasks guarantee of an event: ordered blocks are new, ordered by
    a proof of the agreed block, and taken only without backpressure; rounds
    leave room for the backlog; execution answers for the next block, with the
    agreed result; votes and decisions were verified, decisions are for the
    agreed commit info, and votes are canonical if that is assumed. *)
Definition event_ok (event : Event) (self : BufferManager) : Prop :=
  match event with
  | EvOrdered blocks =>
      ∃ b, last (ob_ordered_blocks blocks) = Some b ∧
        bf_map (bm_buffer self) !! pb_id b = None ∧ bf_count (bm_buffer self) < u64_MAX ∧
        let ordered_info := li_commit_info (ob_ordered_proof blocks) in
        BlockInfo_match_ordered_only ordered_info (expected (pb_id b)) = true ∧
        BlockInfo_round ordered_info < u64_MAX ∧
        proof_data_hash (ob_ordered_proof blocks) = data_hash (pb_id b) ∧
        need_backpressure self = Ok false
  | EvReset (TargetRound round) | EvPersisted (Ok round) => round + MAX_BACKLOG ≤ u64_MAX
  | EvExecutionResponse bb h (Ok blocks) => response_ok bb h blocks self
  | EvExecutionResponse _ _ Panic | EvSigningResponse Panic _ | EvPersisted Panic => False
  | EvCommitMessage message =>
      CommitMessage_verify message v = Ok tt ∧
      match message with
      | CommitMessage_Vote vote =>
          canonical_votes →
          cv_ledger_info vote = canonical (LedgerInfo_commit_info (cv_ledger_info vote))
      | CommitMessage_Decision p =>
          li_commit_info p = expected (BlockInfo_id (li_commit_info p))
      | _ => True
      end
  | _ => True
  end.

(** The ids of the blocks received since the last reset, and the blocks of the
    successful execution responses. *)
Definition received_ids (events : list Event) : list HashValue :=
  foldl (λ ids event,
    match event with
    | EvOrdered blocks => ids ++ (pb_id <$> ob_ordered_blocks blocks)
    | EvReset _ => []
    | _ => ids
    end) [] events.

Definition executed_blocks (events : list Event) : list PipelinedBlock :=
  foldl (λ blocks event,
    match event with
    | EvExecutionResponse _ _ (Ok executed) => blocks ++ executed
    | _ => blocks
    end) [] events.

Inductive pipeline_run (start : BufferManager) : list Event → BufferManager → Prop :=
| RunStart : pipeline_run start [] start
| RunEvent now events event self self' :
    pipeline_run start events self → event_ok event self → handle now event self = Ok self' →
    pipeline_run start (events ++ [event]) self'.

(** The guard that every turn computes. *)
Lemma need_backpressure_ok received executed q self :
  manager_inv received executed q self → ∃ backpressure, need_backpressure self = Ok backpressure.
Proof using Type.
  intros Hinv. unfold need_backpressure, u64_add.
  rewrite (proj2 (Z.leb_le _ _)) by (by eapply inv_backlog). by eexists.
Qed.

Lemma handle_commit_message_ok received executed q self now message :
  manager_inv received executed q self → settled q self →
  event_ok (EvCommitMessage message) self →
  ∃ q' self', handle now (EvCommitMessage message) self = Ok self' ∧
    manager_inv received executed q' self' ∧ settled q' self'.
Proof using AL LL Hexp.
  intros Hinv Hs [Hv Hm]. unfold handle. destruct (need_backpressure_ok _ _ _ _ Hinv) as [? ->].
  cbn [mbind result_bind]. destruct (process_commit_message_ok received executed q self message Hinv Hs)
    as (aggregated & self1 & -> & Hp).
  { destruct message as [vote|p| |]; simpl in *; [done| |done..].
    split; [intros _|done]. unfold CommitDecision_verify, context in Hv.
    destruct (ensure _ _) as [[]| |]; [|done..]. simpl in Hv. by apply Ok_map_err in Hv. }
  simpl. destruct aggregated as [h|]; [|destruct Hp as (q' & ? & ?); by eauto].
  destruct (advance_head_aggregated _ _ _ _ now Hp) as (q' & self2 & -> & Hinv2 & Hs2). simpl.
  destruct (advance_execution_root_if_none_ok _ _ _ _ Hinv2 Hs2) as (self3 & -> & Hinv3 & Hs3).
  simpl. destruct (advance_signing_root_if_none_ok _ _ _ _ Hinv3 Hs3) as (self4 & -> & ? & ?). eauto.
Qed.

Lemma handle_ordered_ok received executed q self now blocks :
  manager_inv received executed q self → settled q self → event_ok (EvOrdered blocks) self →
  ∃ q' self', handle now (EvOrdered blocks) self = Ok self' ∧
    manager_inv (received ++ (pb_id <$> ob_ordered_blocks blocks)) executed q' self' ∧
    settled q' self'.
Proof using LL.
  intros Hinv Hs (b & Hlast & Hfresh & Hcount & Hmatch & Hround & Hdh & Hbp).
  unfold handle. rewrite Hbp. cbn [mbind result_bind].
  unfold OrderedBlocks_latest_round. rewrite Hlast. simpl. set (self1 := with_progress _ _ _ _ _ _).
  assert (manager_inv received executed q self1) as Hinv1
    by (apply inv_with_progress; [done|by eapply inv_backlog]).
  assert (pb_id b ∉ q.*1) as Hnew.
  { intros Hin. apply (represents_lookup _ _ _ _ (inv_rep _ _ _ _ Hinv)) in Hin.
    rewrite Hfresh in Hin. by destruct Hin. }
  destruct (process_ordered_ok received executed q self1 blocks b Hinv1 Hs Hcount Hlast Hnew
    Hmatch Hround Hdh) as (self2 & item & -> & Hinv2 & Hs2). simpl.
  destruct (advance_execution_root_if_none_ok _ _ _ _ Hinv2 Hs2) as (self3 & -> & ? & ?). eauto.
Qed.

Lemma handle_execution_ok received executed q self now bb h inner :
  manager_inv received executed q self → settled q self →
  event_ok (EvExecutionResponse bb h inner) self →
  ∃ q' self', handle now (EvExecutionResponse bb h inner) self = Ok self' ∧
    manager_inv received (match inner with Ok blocks => executed ++ blocks | _ => executed end)
      q' self' ∧ settled q' self'.
Proof using AL LL Hexp.
  intros Hinv Hs Hev. set (executed' := match inner with Ok blocks => _ | _ => _ end).
  unfold handle. destruct (need_backpressure_ok _ _ _ _ Hinv) as [? ->]. cbn [mbind result_bind].
  assert (∃ q' self', process_execution_response now bb h inner self = Ok self' ∧
    manager_inv received executed' q' self') as (q' & self1 & -> & Hinv1).
  { destruct inner as [blocks|e|]; [by eapply process_execution_ok| |done].
    exists q, self. split; [|done]. unfold process_execution_response. by case_match. }
  simpl. destruct (advance_execution_root_ok _ _ _ _ Hinv1) as (retry & self2 & -> & Hinv2 & Hs2).
  simpl. set (self3 := if bool_decide _ then _ else _).
  assert (manager_inv received executed' q' self3 ∧ settled q' self3) as [Hinv3 Hs3].
  { unfold self3. case_bool_decide; [|done]. split; [|done]. by apply inv_send1. }
  destruct (advance_signing_root_if_none_ok _ _ _ _ Hinv3 Hs3) as (self4 & -> & ? & ?). eauto.
Qed.

Lemma handle_ok events q self now event :
  manager_inv (received_ids events) (executed_blocks events) q self → settled q self →
  event_ok event self →
  ∃ q' self', handle now event self = Ok self' ∧
    manager_inv (received_ids (events ++ [event])) (executed_blocks (events ++ [event])) q' self' ∧
    settled q' self'.
Proof using AL LL Hexp.
  intros Hinv Hs Hev. unfold received_ids, executed_blocks. rewrite !foldl_app.
  fold (received_ids events) (executed_blocks events).
  pose proof (need_backpressure_ok _ _ _ _ Hinv) as [bp Hbp].
  destruct event as [blocks|signal|h|bb h inner| |signature li|persisted|message|].
  - by eapply handle_ordered_ok.
  - unfold handle. rewrite Hbp. exists []. eexists. split; [done|]. split; [|done].
    apply inv_send1; [done|]. destruct signal; eapply inv_reset, inv_with_progress; try done.
    by eapply inv_backlog.
  - unfold handle. rewrite Hbp. exists q. eexists. split; [done|]. split; [|done]. by apply inv_send1.
  - by apply (handle_execution_ok _ _ q).
  - unfold handle. rewrite Hbp.
    destruct (retry_schedule_ok _ _ _ _ Hinv Hs) as (self1 & Hr & ? & ?). eauto.
  - assert (signature ≠ Panic) as Hnp by by destruct signature.
    unfold handle. rewrite Hbp. cbn [mbind result_bind].
    destruct (process_signing_ok _ _ _ _ now signature li Hinv Hs Hnp) as (q' & self1 & -> & Hinv1 & Hs1).
    simpl. destruct (advance_signing_root_ok _ _ _ _ Hinv1 Hs1) as (self2 & -> & ? & ?). eauto.
  - unfold handle. rewrite Hbp. destruct persisted as [round|e|]; [|by eauto|done].
    eexists q, _. split; [done|].
    split; [|done]. apply inv_with_progress; [|done]. apply inv_caches; [done| |apply Hinv].
    intros r cache block vs a vote [Hr _]%map_lookup_filter_Some. by eapply inv_votes.
  - by apply (handle_commit_message_ok _ _ q).
  - unfold handle. rewrite Hbp. by apply (rebroadcast_ok _ _ q).
Qed.

Lemma pipeline_run_inv author committed_round observer publisher max_pending now0 events self :
  committed_round + MAX_BACKLOG ≤ u64_MAX →
  pipeline_run
    (BufferManager_new author v order_vote_enabled committed_round observer publisher max_pending now0)
    events self →
  ∃ q, manager_inv (received_ids events) (executed_blocks events) q self ∧ settled q self.
Proof using AL LL Hexp.
  intros Hcom Hrun. induction Hrun as [|now events event self self' _ (q & Hinv & Hs) Hev Hh].
  - exists []. split; [|done]. split; simpl; try done; [apply represents_new|constructor..].
  - destruct (handle_ok events q self now event Hinv Hs Hev) as (q' & self'' & Hh' & ? & ?).
    rewrite Hh in Hh'. injection Hh' as <-. eauto.
Qed.
(** ** A vote that deviates *)

(** The partial commit proof of an item that has been executed. *)
Definition partial_proof (item : BufferItem) : option LedgerInfoWithVerifiedSignatures :=
  match item with
  | Executed i => Some (ei_partial_commit_proof i)
  | Signed i => Some (si_partial_commit_proof i)
  | _ => None
  end.

(** A multi-signature does not verify for a message that all its signers but one
    have signed, where that one has signed another. *)
Definition bad_signature_shows : Prop :=
  ∀ (sigs : gmap AccountAddress Signature) li agg a s,
    ValidatorVerifier_aggregate_signatures v (map_to_list sigs) = Ok agg → sigs !! a = Some s →
    (∃ message, ValidatorVerifier_verify v a message s = Ok tt) →
    ValidatorVerifier_verify v a (signing_message li) s ≠ Ok tt →
    (∀ b s', sigs !! b = Some s' → b ≠ a →
       ValidatorVerifier_verify v b (signing_message li) s' = Ok tt) →
    LedgerInfoWithSignatures_verify_signatures (LedgerInfoWithSignatures_new li agg) v ≠ Ok tt.

(** The vote has the agreed commit info, completes a quorum, and is the only one
    that does not sign the ledger info to commit. *)
Definition deviates (vote : CommitVote) (proof : LedgerInfoWithVerifiedSignatures) : Prop :=
  let sigs := LedgerInfoWithVerifiedSignatures_signatures proof in
  let message := signing_message (LedgerInfoWithVerifiedSignatures_ledger_info proof) in
  ValidatorVerifier_verify v (cv_author vote) message (cv_signature vote) ≠ Ok tt ∧
  (∀ a s, sigs !! a = Some s → a ≠ cv_author vote → ValidatorVerifier_verify v a message s = Ok tt) ∧
  has_quorum v (<[cv_author vote := cv_signature vote]> sigs) = true.

(** The aggregate over a partial proof that such a vote has joined. *)
Lemma deviating_aggregate h vote proof p :
  bad_signature_shows → signature_ok h (cv_author vote) (cv_signature vote) → deviates vote proof →
  aggregate_commit_proof (LedgerInfoWithVerifiedSignatures_ledger_info proof)
    (<[cv_author vote := cv_signature vote]> (LedgerInfoWithVerifiedSignatures_signatures proof)) v =
    Ok p →
  LedgerInfoWithSignatures_verify_signatures p v ≠ Ok tt.
Proof using Type.
  intros Hbad [Hsig _] (Hdev & Hrest & _). unfold aggregate_commit_proof.
  destruct (ValidatorVerifier_aggregate_signatures _ _) as [agg| |] eqn:Hagg; [|done..].
  intros [= <-]. eapply Hbad; [exact Hagg|by rewrite lookup_insert_eq|done|exact Hdev|].
  intros b s' [[<- _]|[_ Hb]]%lookup_insert_Some Hne; [done|]. by apply Hrest.
Qed.

Lemma deviating_item h x proof vote :
  bad_signature_shows → item_ok h x → vote_ok vote → partial_proof x = Some proof →
  LedgerInfo_commit_info (cv_ledger_info vote) = expected h → deviates vote proof →
  ∃ x' a, add_signature_if_matched x vote = Ok x' ∧
    try_advance_to_aggregated x' v = Ok (Aggregated a) ∧
    get_blocks x = ai_executed_blocks a ∧ item_ok h (Aggregated a) ∧
    LedgerInfoWithSignatures_verify_signatures (ai_commit_proof a) v ≠ Ok tt.
Proof using AL LL Hexp.
  intros Hbad Hx Hvote Hproof Hci Hdev. pose proof (add_signature_ok h x vote Hx Hvote) as Hadd.
  assert (∃ x', add_signature_if_matched x vote = Ok x' ∧ partial_proof x' =
    Some (LedgerInfoWithVerifiedSignatures_add_signature (cv_author vote) (cv_signature vote) proof))
    as (x' & Hx' & Hp').
  { destruct Hx as [_ Hok]. destruct x as [i|i|i|i]; simplify_eq/=.
    - destruct Hok as [-> _]. rewrite Hci, bool_decide_eq_true_2 by done. by eexists.
    - unfold partial_commit_info. rewrite (proj1 Hok), LedgerInfo_commit_info_canonical, Hci.
      rewrite bool_decide_eq_true_2 by done. by eexists. }
  rewrite Hx' in Hadd. destruct Hadd as [Hok' (Hb & _)].
  destruct (try_advance_ok h x' Hok') as (x3 & Htry & Hok3 & Hb3 & _).
  exists x'. rewrite Htry.
  pose proof (λ p, deviating_aggregate h vote proof p Hbad (vote_ok_signature vote h Hvote Hci))
    as Hspoil.
  pose proof (proj2 (proj2 Hdev)) as Hq.
  destruct x' as [i|i|i|i]; simplify_eq/=;
    rewrite Hp', LedgerInfoWithVerifiedSignatures_signatures_add,
      LedgerInfoWithVerifiedSignatures_ledger_info_add, Hq in Htry;
    destruct (aggregate_commit_proof _ _ v) as [p| |] eqn:Hagg; try done; simpl in Htry.
  - injection Htry as <-. eexists. split_and!; [done..|exact Hb|done|]. by apply Hspoil.
  - destruct (last _); [|done]. injection Htry as <-.
    eexists. split_and!; [done..|exact Hb|done|]. by apply Hspoil.
Qed.

Lemma advance_head_persists received executed q self i h x a b now :
  manager_inv received executed q self → q !! i = Some (h, x) →
  item_block_id (Aggregated a) = Ok h →
  represents (bf_count (bm_buffer self)) b (<[i := (h, Aggregated a)]> q) →
  ∃ self' blocks, advance_head now h (set_buffer b self) = Ok self' ∧
    PersistingRequest blocks (ai_commit_proof a) (ai_callback a) ∈ bm_log self'.
Proof using Type.
  intros Hinv Hi Ha Hrep. assert (Hlt := lookup_lt_Some _ _ _ Hi).
  rewrite insert_take_drop in Hrep by done.
  destruct (advance_head_loop_ok now h a (drop (S i) q) (take i q) (S (Buffer_len b)) []
    (bf_count (bm_buffer self)) (set_buffer b self) Hrep) as (b' & Hr' & Hloop).
  { apply Forall_app. split; [|by repeat constructor]. apply Forall_take.
    eapply Forall_impl; [by eapply inv_entries|]. by intros ? [[? _] _]. }
  { rewrite (represents_size _ _ _ Hrep), length_app. lia. }
  eexists _, _. split; [exact Hloop|]. unfold head_advanced. simpl.
  apply elem_of_app. right. by apply list_elem_of_singleton.
Qed.

(** The roots only add to the log. *)
Lemma roots_keep_log self self1 self2 o :
  advance_execution_root_if_none self = Ok self1 → advance_signing_root_if_none self1 = Ok self2 →
  o ∈ bm_log self → o ∈ bm_log self2.
Proof using Type.
  intros H1 H2 Ho. assert (o ∈ bm_log self1) as Ho1.
  { unfold advance_execution_root_if_none, advance_execution_root in H1.
    destruct (bm_execution_root self); [by injection H1 as <-|].
    destruct (find_elem_from _ _ _) as [root| |]; [|done..]. by injection H1 as <-. }
  unfold advance_signing_root_if_none, advance_signing_root in H2.
  destruct (bm_signing_root self1); [by injection H2 as <-|].
  destruct (find_elem_from _ _ _) as [[root|]| |]; [|by injection H2 as <-|done..]. simpl in H2.
  destruct (buffer_get _ _) as [item| |]; [|done..]. simpl in H2.
  destruct (unwrap_executed item) as [e| |]; [|done..]. injection H2 as <-. simpl.
  apply elem_of_app. by left.
Qed.

Lemma deviating_vote_persists received executed q self now vote x proof :
  let ci := LedgerInfo_commit_info (cv_ledger_info vote) in
  let h := BlockInfo_id ci in
  bad_signature_shows → manager_inv received executed q self → settled q self → vote_ok vote →
  ci = expected h → bm_commit_vote_cache self !! BlockInfo_round ci = None →
  find_elem_by_key (bm_buffer self) (head_cursor (bm_buffer self)) h = Some h →
  buffer_get (bm_buffer self) (Some h) = Ok x → partial_proof x = Some proof →
  deviates vote proof →
  ∃ self' blocks p callback,
    handle now (EvCommitMessage (CommitMessage_Vote vote)) self = Ok self' ∧
    PersistingRequest blocks p callback ∈ bm_log self' ∧ li_commit_info p = expected h ∧
    LedgerInfoWithSignatures_verify_signatures p v ≠ Ok tt.
Proof using AL LL Hexp.
  intros ci h Hbad Hinv Hs Hvote Hci Hcache Hfind Hget Hproof Hdev.
  destruct (find_by_key_queued _ _ q _ _ _ (inv_rep _ _ _ _ Hinv) Hfind) as (_ & i & x' & Hi).
  rewrite (represents_get _ _ q i h x' (inv_rep _ _ _ _ Hinv) Hi) in Hget. injection Hget as ->.
  destruct (entry_item_ok _ _ _ _ _ _ _ Hinv Hi) as [Hx _].
  destruct (deviating_item h x proof vote Hbad Hx Hvote Hproof Hci Hdev)
    as (x' & a & Hadd & Htry & Hb & Ha & Hverify).
  unfold handle. destruct (need_backpressure_ok _ _ _ _ Hinv) as [? ->]. cbn [mbind result_bind].
  unfold process_commit_message, process_commit_vote. fold ci h. rewrite Hfind.
  destruct (represents_take _ _ q i h x (inv_rep _ _ _ _ Hinv) Hi) as (b1 & -> & Hset).
  cbn [mbind result_bind]. unfold add_signature_if_matched_from_cache, drain_cached_commit_votes.
  rewrite Hcache. unfold add_signatures. cbn [foldl]. rewrite Hadd.
  rewrite (proj1 (inv_config _ _ _ _ Hinv)), Htry. cbn [mbind result_bind].
  destruct (Hset (Aggregated a)) as (b2 & -> & Hr). cbn [mbind result_bind].
  assert (Hlt := lookup_lt_Some _ _ _ Hi).
  change (bm_buffer (set_buffer b2 (ack self))) with b2.
  rewrite (represents_get _ _ _ i h (Aggregated a) Hr) by (by rewrite list_lookup_insert_eq).
  cbn [mbind result_bind is_aggregated].
  assert (manager_inv received executed q (ack self)) as Hinv1 by by apply inv_send1.
  destruct (advance_head_persists received executed q (ack self) i h x a b2 now)
    as (self1 & blocks & Hhead & Hlog); [done|done|apply Ha|done|].
  assert (is_ordered x = false) as Hxo by by destruct x.
  destruct (advance_head_aggregated received executed h (set_buffer b2 (ack self)) now)
    as (q' & self1' & Hhead' & Hinv2 & Hs2).
  { exists q, (ack self), i, x, a, b2. by split_and!. }
  rewrite Hhead in Hhead' |- *. injection Hhead' as <-. cbn [mbind result_bind].
  destruct (advance_execution_root_if_none_ok _ _ _ _ Hinv2 Hs2) as (self3 & H3 & Hinv3 & Hs3).
  destruct (advance_signing_root_if_none_ok _ _ _ _ Hinv3 Hs3) as (self4 & H4 & _).
  rewrite H3. cbn [mbind result_bind]. rewrite H4. exists self4, blocks, (ai_commit_proof a), (ai_callback a).
  split_and!; [done|by eapply roots_keep_log|apply Ha|done].
Qed.
End pipeline.

(** ** The theorems *)

Section pipeline_theorems.
Context `{L : Laptos} `{G : !Gcei} `{PL : PipelineLib}.
Context `{!CryptoHash VoteData} `{!CryptoHash LedgerInfo} `{LL : !LaptosLaws L}.
Context (v : ValidatorVerifier) (expected : HashValue → BlockInfo).
Context (data_hash : HashValue → HashValue) (order_vote_enabled : bool).
Context `{AL : !AggregationLaws v} (Hexp : ∀ h, BlockInfo_id (expected h) = h).
Context (author : AccountAddress) (committed_round : Z) (observer publisher : bool).
Context (max_pending now0 : Z) (Hcommitted : committed_round + MAX_BACKLOG ≤ u64_MAX).

#[local] Abbreviation start_manager :=
  (BufferManager_new author v order_vote_enabled committed_round observer publisher max_pending now0).
(** Votes need not agree on the ledger info they sign, or all do. *)
#[local] Abbreviation any_votes := (pipeline_run v expected data_hash order_vote_enabled False).
#[local] Abbreviation agreeing_votes := (pipeline_run v expected data_hash order_vote_enabled True).


(** C15. The pipeline persists in order and without loss, with order votes or
    without, if execution answers in order and with the agreed results, whatever
    the verified votes of other validators sign: the blocks received since the
    last reset are, in this order, those handed to the persisting phase followed
    by those in the buffer, where the executed items come before the ordered ones
    and the execution root is the first ordered one; and every block handed to
    the persisting phase was returned by the execution phase. *)
Theorem pipeline_persists_in_order events self :
  any_votes start_manager events self →
  ∃ q, represents (bf_count (bm_buffer self)) (bm_buffer self) q ∧
    received_ids events = persisted_ids (bm_log self) ++ queue_ids q ∧
    bm_execution_root self = first_key is_ordered q ∧
    (∀ i j p p', q !! i = Some p → q !! j = Some p' → (i ≤ j)%nat → is_ordered p.2 = true →
       is_ordered p'.2 = true) ∧
    ∀ blocks proof callback b, PersistingRequest blocks proof callback ∈ bm_log self → b ∈ blocks →
      b ∈ executed_blocks events.
Proof using AL LL Hexp Hcommitted.
  intros (q & Hinv & Hs)%(pipeline_run_inv _ _ _ _ _ Hexp); [|done].
  exists q. assert (Hinv' := Hinv). destruct Hinv'. split_and!; [done..| |].
  - intros i j [h x] [h' x'] Hi Hj Hij Hx. simpl in *. destruct (is_ordered x') eqn:Hx'; [done|].
    destruct (decide (i = j)) as [->|Hne]; [congruence|].
    pose proof (sorted_before _ _ _ _ _ _ _ _ _ j h' x' Hinv Hj Hx') as Hb. rewrite Forall_lookup in Hb.
    assert (is_ordered x = false); [|congruence]. apply (Hb i (h, x)).
    by rewrite lookup_take_lt by lia.
  - intros blocks proof callback b Hin Hb. rewrite Forall_forall in inv_log0.
    destruct (inv_log0 _ Hin) as (Hall & _). by apply Hall.
Qed.

(** C14. What the pipeline persists is certified, if besides every verified vote
    is for the ledger info that the ordering and the execution of its block
    determine (a vote that is not spoils the proof, see
    [deviating_vote_spoils_proof]): with order votes or without, the commit proof
    of a request to the persisting phase verifies and carries the commit info the
    network agrees on for the last block of the request, and all its blocks were
    returned by the execution phase. *)
Theorem pipeline_persists_certified events self blocks proof callback :
  agreeing_votes start_manager events self →
  PersistingRequest blocks proof callback ∈ bm_log self →
  (∀ b, b ∈ blocks → b ∈ executed_blocks events) ∧
  LedgerInfoWithSignatures_verify_signatures proof v = Ok tt ∧
  ∃ block, last blocks = Some block ∧ li_commit_info proof = expected (pb_id block).
Proof using AL LL Hexp Hcommitted.
  intros (q & Hinv & _)%(pipeline_run_inv _ _ _ _ _ Hexp) Hin; [|done].
  assert (Hlog := inv_log _ _ _ _ _ _ _ _ _ Hinv).
  rewrite Forall_forall in Hlog. destruct (Hlog _ Hin) as (Hb & [Hp _] & Hl).
  split_and!; [done|by apply Hp|done].
Qed.

(** C38. One validator can make the pipeline persist blocks with an invalid commit
    proof.  In any state the pipeline reaches, with a block that was executed and
    for whose round no vote is cached: a vote that passes the verification of
    commit messages and names the agreed commit info, but whose signature is on
    another ledger info (say, another consensus data hash), is counted like the
    others, since after execution only the commit info is compared; if it
    completes the quorum, the aggregate, which is not verified again, goes to the
    persisting phase and does not verify.  A multi-signature is assumed not to
    verify when exactly one of its signatures is not on the message. *)
Theorem deviating_vote_spoils_proof events self now vote x proof :
  let ci := LedgerInfo_commit_info (cv_ledger_info vote) in
  let h := BlockInfo_id ci in
  bad_signature_shows v → any_votes start_manager events self →
  CommitMessage_verify (CommitMessage_Vote vote) v = Ok tt →
  ci = expected h → bm_commit_vote_cache self !! BlockInfo_round ci = None →
  find_elem_by_key (bm_buffer self) (head_cursor (bm_buffer self)) h = Some h →
  buffer_get (bm_buffer self) (Some h) = Ok x → partial_proof x = Some proof →
  deviates v vote proof →
  ∃ self' blocks p callback,
    handle now (EvCommitMessage (CommitMessage_Vote vote)) self = Ok self' ∧
    PersistingRequest blocks p callback ∈ bm_log self' ∧ li_commit_info p = expected h ∧
    LedgerInfoWithSignatures_verify_signatures p v ≠ Ok tt.
Proof using AL LL Hexp Hcommitted.
  intros ci h Hbad (q & Hinv & Hs)%(pipeline_run_inv _ _ _ _ _ Hexp) Hv Hci Hcache Hfind Hget Hp Hdev;
    [|done].
  by apply (deviating_vote_persists v expected data_hash order_vote_enabled False Hexp
    (received_ids events) (executed_blocks events) q self now vote x proof).
Qed.
End pipeline_theorems.
