(* ===== verification/Expirations.v ===== *)
(** Expiration queues of the quorum store
    (consensus/src/quorum_store/utils.rs): [Timeouts], a queue in order of
    insertion, and [TimeExpirations], a heap in order of expiry. *)
From S2P Require Import Prelude.

(** ** Timeouts *)

Section timeouts.
Context {T : Type}.

Definition Timeouts : Type := list (Z * T).
Definition Timeouts_new : Timeouts := [].

(** [now] is the clock in milliseconds; the sum is a signed one. *)
Definition Timeouts_add (now : Z) (value : T) (timeout : Z) (self : Timeouts) : Timeouts :=
  self ++ [(now + timeout, value)].

(** Entries behind one that is not due yet are not looked at. *)
Fixpoint Timeouts_expire (now : Z) (self : Timeouts) : Timeouts * list T :=
  match self with
  | (expiration_time, h) :: self' =>
      if now >=? expiration_time then
        let '(rest, expired) := Timeouts_expire now self' in (rest, h :: expired)
      else (self, [])
  | [] => ([], [])
  end.
End timeouts.
Arguments Timeouts : clear implicits.

(** ** Expirations *)

Section expirations.
Context {I : Type} `{Countable I}.

(** A [BinaryHeap] of reversed expiry times: the entry that is due first is at
    the head. *)
Definition TimeExpirations : Type := list (Z * I).
Definition TimeExpirations_new : TimeExpirations := [].

Fixpoint add_item (item : I) (expiry_time : Z) (self : TimeExpirations) : TimeExpirations :=
  match self with
  | [] => [(expiry_time, item)]
  | (t, i) :: self' =>
      if expiry_time <=? t then (expiry_time, item) :: self
      else (t, i) :: add_item item expiry_time self'
  end.

Fixpoint expire (certified_time : Z) (self : TimeExpirations) : TimeExpirations * gset I :=
  match self with
  | (t, item) :: self' =>
      if t <=? certified_time then
        let '(rest, ret) := expire certified_time self' in (rest, {[item]} ∪ ret)
      else (self, ∅)
  | [] => ([], ∅)
  end.

Definition expirations_sorted (self : TimeExpirations) : Prop :=
  StronglySorted (λ a b : Z * I, a.1 ≤ b.1) self.

Lemma elem_of_add_item self item t e :
  e ∈ add_item item t self ↔ e = (t, item) ∨ e ∈ self.
Proof using Type.
  induction self as [|[t' i'] self IH]; simpl.
  - rewrite list_elem_of_singleton, elem_of_nil. tauto.
  - destruct (t <=? t'); rewrite !elem_of_cons; [done|]. rewrite IH. tauto.
Qed.

Lemma add_item_sorted self item t :
  expirations_sorted self → expirations_sorted (add_item item t self).
Proof using Type.
  intros Hs. induction Hs as [|[t' i'] self Hs IH Hall]; simpl.
  { repeat constructor. }
  destruct (Z.leb_spec t t').
  - constructor; [by constructor|]. constructor; [simpl; lia|].
    eapply Forall_impl; [exact Hall|]. simpl. lia.
  - constructor; [done|]. apply Forall_forall. intros e [->|He]%elem_of_add_item; simpl; [lia|].
    rewrite Forall_forall in Hall. by apply Hall.
Qed.

(** The heap gives up exactly the items that are due. *)
Lemma expire_spec self time rest ret :
  expirations_sorted self → expire time self = (rest, ret) →
  expirations_sorted rest ∧ (∀ e, e ∈ rest ↔ e ∈ self ∧ time < e.1) ∧
  ∀ i, i ∈ ret ↔ ∃ t, (t, i) ∈ self ∧ t ≤ time.
Proof using Type.
  intros Hs. revert rest ret. induction Hs as [|[t i] self Hs IH Hall]; simpl; intros rest ret.
  { intros [= <- <-]. split_and!; [constructor| |].
    - intros e. rewrite elem_of_nil. tauto.
    - intros i. split; [by intros ?%elem_of_empty|]. by intros (t & ?%elem_of_nil & _). }
  destruct (Z.leb_spec t time) as [Hle|Hlt].
  - destruct (expire time self) as [rest' ret'] eqn:He. intros [= <- <-].
    destruct (IH _ _ eq_refl) as (Hs' & Hrest & Hret). split_and!; [done| |].
    + intros e. rewrite Hrest, elem_of_cons. split; [tauto|]. intros [[->|?] ?]; [simpl in *; lia|done].
    + intros j. rewrite elem_of_union, elem_of_singleton, Hret. setoid_rewrite elem_of_cons. split.
      * intros [->|(t' & ? & ?)]; eauto.
      * intros (t' & [[= -> ->]|?] & ?); eauto.
  - intros [= <- <-]. rewrite Forall_forall in Hall.
    assert (∀ e, e ∈ (t, i) :: self → time < e.1) as Hlater.
    { intros e [->|He]%elem_of_cons; simpl; [lia|]. specialize (Hall e He). simpl in Hall. lia. }
    split_and!; [by constructor; [|apply Forall_forall]| |].
    + intros e. split; [|tauto]. auto.
    + intros j. split; [by intros ?%elem_of_empty|]. intros (t' & Hin & ?).
      specialize (Hlater _ Hin). simpl in Hlater. lia.
Qed.
End expirations.
Arguments TimeExpirations : clear implicits.
