(* ===== verification/BatchStore.v ===== *)
(** The batch store of the quorum store: consensus/src/quorum_store/{types,
    batch_store}.rs.

    Batches of transactions are cached in memory within a quota per author,
    persisted in a database, and signed; a signature promises that the batch
    can be read.  Maps shared between tasks are locked per entry, so that each
    definition below is one critical section; [insert_to_cache] is two. *)
From S2P Require Import Prelude Laptos Payload Expirations.

Section batch_store.
Context `{L : Laptos}.

(** [ExecutorError] of dependencies/aptos-executor-types. *)
Inductive ExecutorError : Type :=
| BlockNotFound (id : HashValue)
| DataNotFound (id : HashValue)
| BadNumTxnsToCommit (first_version to_commit target_version : Z)
| InternalError (error : string)
| SerializationError (error : string)
| EmptyBlocks
| CouldNotGetData.

(** ** types.rs *)

Record BatchKey : Type := { bk_epoch : Z; bk_digest : HashValue }.
#[global] Instance BatchKey_eq_dec : EqDecision BatchKey.
Proof using Type. solve_decision. Defined.
#[global] Instance BatchKey_countable : Countable BatchKey.
Proof using Type.
  refine (inj_countable' (λ k, (bk_epoch k, bk_digest k))
            (λ p, {| bk_epoch := p.1; bk_digest := p.2 |}) _).
  by intros [].
Defined.

Record PersistedValue : Type := {
  pv_info : BatchInfo;
  pv_maybe_payload : option (list SignedTransaction);
}.

Inductive StorageMode : Type := PersistedOnly | MemoryAndPersisted.

Definition payload_storage_mode (self : PersistedValue) : StorageMode :=
  match pv_maybe_payload self with Some _ => MemoryAndPersisted | None => PersistedOnly end.

Definition pv_key (self : PersistedValue) : BatchKey :=
  {| bk_epoch := bi_epoch (pv_info self); bk_digest := bi_digest (pv_info self) |}.

(** ** The quota of an author *)

Record QuotaManager : Type := {
  qm_memory_balance : Z;
  qm_db_balance : Z;
  qm_batch_balance : Z;
  qm_memory_quota : Z;
  qm_db_quota : Z;
  qm_batch_quota : Z;
}.

Definition QuotaManager_new (db_quota memory_quota batch_quota : Z) : result anyhow QuotaManager :=
  if db_quota >=? memory_quota then
    Ok {| qm_memory_balance := memory_quota; qm_db_balance := db_quota;
          qm_batch_balance := batch_quota; qm_memory_quota := memory_quota;
          qm_db_quota := db_quota; qm_batch_quota := batch_quota |}
  else Panic.

Definition with_balances (memory db batch : Z) (self : QuotaManager) : QuotaManager :=
  {| qm_memory_balance := memory; qm_db_balance := db; qm_batch_balance := batch;
     qm_memory_quota := qm_memory_quota self; qm_db_quota := qm_db_quota self;
     qm_batch_quota := qm_batch_quota self |}.

Definition update_quota (num_bytes : Z) : SM QuotaManager anyhow StorageMode := λ self,
  if qm_batch_balance self =? 0 then (self, Err "Batch quota exceeded ")
  else if qm_db_balance self >=? num_bytes then
    let batch := qm_batch_balance self - 1 in
    let db := qm_db_balance self - num_bytes in
    if qm_memory_balance self >=? num_bytes then
      (with_balances (qm_memory_balance self - num_bytes) db batch self, Ok MemoryAndPersisted)
    else (with_balances (qm_memory_balance self) db batch self, Ok PersistedOnly)
  else (self, Err "Storage quota exceeded ").

(** The balance after freeing. *)
Definition assert_quota (balance to_free quota : Z) : result anyhow Z :=
  sum ← u64_add balance to_free;
  if sum <=? quota then Ok sum else Panic.

Definition QuotaManager_free_quota (num_bytes : Z) (storage_mode : StorageMode)
    (self : QuotaManager) : result anyhow QuotaManager :=
  batch ← assert_quota (qm_batch_balance self) 1 (qm_batch_quota self);
  db ← assert_quota (qm_db_balance self) num_bytes (qm_db_quota self);
  memory ←
    match storage_mode with
    | MemoryAndPersisted =>
        assert_quota (qm_memory_balance self) num_bytes (qm_memory_quota self)
    | PersistedOnly => Ok (qm_memory_balance self)
    end;
  Ok (with_balances memory db batch self).

(** ** The database *)

(** [QuorumStoreStorage], of which the store uses two operations. *)
Class QuorumStoreStorage : Type := {
  QuorumStoreDB : Type;
  save_batch : PersistedValue → SM QuorumStoreDB anyhow unit;
  db_get_batch : BatchKey → QuorumStoreDB → result anyhow (option PersistedValue);
}.

(** What is written is read back under its key; other keys are not touched, and
    a failed write changes nothing. *)
Class QuorumStoreStorageLaws (Q : QuorumStoreStorage) : Prop := {
  get_save_batch v db db' :
    save_batch v db = (db', Ok tt) → db_get_batch (pv_key v) db' = Ok (Some v);
  get_save_batch_ne v db db' k :
    save_batch v db = (db', Ok tt) → k ≠ pv_key v → db_get_batch k db' = db_get_batch k db;
  get_save_batch_failed v db db' r k :
    save_batch v db = (db', r) → r ≠ Ok tt → db_get_batch k db' = db_get_batch k db;
}.

Context `{Q : !QuorumStoreStorage} `{!CryptoHash BatchInfo}.

(** A receiver of a oneshot channel is named by a number; what is sent to
    receivers is logged. *)
Record BatchStore : Type := {
  bst_epoch : Z;
  bst_last_certified_time : Z;
  bst_db_cache : gmap HashValue PersistedValue;
  bst_peer_quota : gmap AccountAddress QuotaManager;
  bst_expirations : TimeExpirations HashValue;
  bst_db : QuorumStoreDB;
  bst_memory_quota : Z;
  bst_db_quota : Z;
  bst_batch_quota : Z;
  bst_validator_signer : ValidatorSigner;
  bst_persist_subscribers : gmap BatchKey (list nat);
  bst_sent : list (nat * PersistedValue);
}.

Definition BatchStore_new (epoch last_certified_time : Z) (db : QuorumStoreDB)
    (memory_quota db_quota batch_quota : Z) (validator_signer : ValidatorSigner) : BatchStore :=
  {| bst_epoch := epoch; bst_last_certified_time := last_certified_time; bst_db_cache := ∅;
     bst_peer_quota := ∅; bst_expirations := TimeExpirations_new; bst_db := db;
     bst_memory_quota := memory_quota; bst_db_quota := db_quota; bst_batch_quota := batch_quota;
     bst_validator_signer := validator_signer; bst_persist_subscribers := ∅; bst_sent := [] |}.

(** Updates of the fields. *)
Definition with_cache (cache : gmap HashValue PersistedValue)
    (quota : gmap AccountAddress QuotaManager) (self : BatchStore) : BatchStore :=
  {| bst_epoch := bst_epoch self; bst_last_certified_time := bst_last_certified_time self;
     bst_db_cache := cache; bst_peer_quota := quota; bst_expirations := bst_expirations self;
     bst_db := bst_db self; bst_memory_quota := bst_memory_quota self;
     bst_db_quota := bst_db_quota self; bst_batch_quota := bst_batch_quota self;
     bst_validator_signer := bst_validator_signer self;
     bst_persist_subscribers := bst_persist_subscribers self; bst_sent := bst_sent self |}.
Definition with_expirations (time : Z) (expirations : TimeExpirations HashValue)
    (self : BatchStore) : BatchStore :=
  {| bst_epoch := bst_epoch self; bst_last_certified_time := time;
     bst_db_cache := bst_db_cache self; bst_peer_quota := bst_peer_quota self;
     bst_expirations := expirations; bst_db := bst_db self;
     bst_memory_quota := bst_memory_quota self; bst_db_quota := bst_db_quota self;
     bst_batch_quota := bst_batch_quota self; bst_validator_signer := bst_validator_signer self;
     bst_persist_subscribers := bst_persist_subscribers self; bst_sent := bst_sent self |}.
Definition with_db (db : QuorumStoreDB) (subscribers : gmap BatchKey (list nat))
    (sent : list (nat * PersistedValue)) (self : BatchStore) : BatchStore :=
  {| bst_epoch := bst_epoch self; bst_last_certified_time := bst_last_certified_time self;
     bst_db_cache := bst_db_cache self; bst_peer_quota := bst_peer_quota self;
     bst_expirations := bst_expirations self; bst_db := db;
     bst_memory_quota := bst_memory_quota self; bst_db_quota := bst_db_quota self;
     bst_batch_quota := bst_batch_quota self; bst_validator_signer := bst_validator_signer self;
     bst_persist_subscribers := subscribers; bst_sent := sent |}.

(** ** Caching *)

Definition bst_free_quota (value : PersistedValue) (quota : gmap AccountAddress QuotaManager) :
    result anyhow (gmap AccountAddress QuotaManager) :=
  let author := bi_author (pv_info value) in
  match quota !! author with
  | None => Panic
  | Some quota_manager =>
      quota_manager ← QuotaManager_free_quota (bi_num_bytes (pv_info value))
        (payload_storage_mode value) quota_manager;
      Ok (<[author := quota_manager]> quota)
  end.

(** The first critical section of [insert_to_cache]: the cache entry and the
    quota.  The quota manager of a new author is built before it is known
    whether there is one. *)
Definition insert_entry (value : PersistedValue) : SM BatchStore anyhow bool := λ self,
  let info := pv_info value in
  let digest := bi_digest info in
  let occupied := bst_db_cache self !! digest in
  if (match occupied with
      | Some entry => bi_expiration (pv_info entry) >=? bi_expiration info
      | None => false
      end) then (self, Ok false)
  else
    match QuotaManager_new (bst_db_quota self) (bst_memory_quota self) (bst_batch_quota self) with
    | Ok fresh =>
        let manager := default fresh (bst_peer_quota self !! bi_author info) in
        let '(manager, mode) := update_quota (bi_num_bytes info) manager in
        let quota := <[bi_author info := manager]> (bst_peer_quota self) in
        match mode with
        | Ok mode =>
            let stored :=
              match mode with
              | PersistedOnly => {| pv_info := info; pv_maybe_payload := None |}
              | MemoryAndPersisted => value
              end in
            let cache := <[digest := stored]> (bst_db_cache self) in
            match occupied with
            | Some prev_value =>
                match bst_free_quota prev_value quota with
                | Ok quota => (with_cache cache quota self, Ok true)
                | Err e => (self, Err e)
                | Panic => (with_cache cache quota self, Panic)
                end
            | None => (with_cache cache quota self, Ok true)
            end
        | Err e => (with_cache (bst_db_cache self) quota self, Err e)
        | Panic => (self, Panic)
        end
    | Err e => (self, Err e)
    | Panic => (self, Panic)
    end.

(** The second one. *)
Definition add_expiration (digest : HashValue) (expiration_time : Z) (self : BatchStore) :
    BatchStore :=
  with_expirations (bst_last_certified_time self)
    (add_item digest expiration_time (bst_expirations self)) self.

Definition insert_to_cache (value : PersistedValue) : SM BatchStore anyhow bool :=
  inserted ← insert_entry value;
  if (inserted : bool) then
    _ ← modify (add_expiration (bi_digest (pv_info value)) (bi_expiration (pv_info value)));
    mret true
  else mret false.

Definition save (value : PersistedValue) : SM BatchStore anyhow bool := λ self,
  if bi_expiration (pv_info value) >? bst_last_certified_time self
  then insert_to_cache value self
  else (self, Err "Incorrect expiration in epoch, last committed timestamp").

(** An expired digest: its cache entry is removed unless a batch with the same
    digest extended the expiration. *)
Definition clear_expired (certified_time : Z) (self : BatchStore) (h : HashValue) :
    result anyhow BatchStore :=
  match bst_db_cache self !! h with
  | None => Panic
  | Some entry =>
      if bi_expiration (pv_info entry) <=? certified_time then
        quota ← bst_free_quota entry (bst_peer_quota self);
        Ok (with_db (bst_db self) (delete (pv_key entry) (bst_persist_subscribers self))
              (bst_sent self) (with_cache (delete h (bst_db_cache self)) quota self))
      else Ok self
  end.

Definition clear_expired_payload (certified_time : Z) (self : BatchStore) :
    result anyhow BatchStore :=
  let '(rest, expired_digests) := expire certified_time (bst_expirations self) in
  fold_result (clear_expired certified_time)
    (with_expirations (bst_last_certified_time self) rest self) (elements expired_digests).

(** ** Persisting and reading *)

(** A batch is signed also when it is already cached. *)
Definition persist_inner (persist_request : PersistedValue) :
    SM BatchStore anyhow (option SignedBatchInfo) := λ self,
  match save persist_request self with
  | (self, Ok needs_db) =>
      let sign self :=
        (self, Ok (match SignedBatchInfo_new (pv_info persist_request)
                           (bst_validator_signer self) with Ok s => Some s | _ => None end)) in
      if (needs_db : bool) then
        match save_batch persist_request (bst_db self) with
        | (db, Ok _) => sign (with_db db (bst_persist_subscribers self) (bst_sent self) self)
        | (db, _) =>
            (with_db db (bst_persist_subscribers self) (bst_sent self) self, Panic)
        end
      else sign self
  | (self, Err _) => (self, Ok None)
  | (self, Panic) => (self, Panic)
  end.

Definition save_fetched_batch_to_db (persist_request : PersistedValue) :
    SM BatchStore anyhow unit := λ self,
  let '(db, r) := save_batch persist_request (bst_db self) in
  (with_db db (bst_persist_subscribers self) (bst_sent self) self,
   map_err (λ _, "Could not persist fetched batch to DB"%string) r).

Definition update_certified_timestamp (certified_time : Z) (self : BatchStore) :
    result anyhow BatchStore :=
  let prev_time := bst_last_certified_time self in
  let self := with_expirations (Z.max prev_time certified_time) (bst_expirations self) self in
  if prev_time <=? certified_time then clear_expired_payload certified_time self else Panic.

Definition get_batch_from_db (key : BatchKey) (self : BatchStore) :
    result ExecutorError PersistedValue :=
  match db_get_batch key (bst_db self) with
  | Ok (Some value) => Ok value
  | Ok None => Err CouldNotGetData
  | Err e => Err (InternalError e)
  | Panic => Panic
  end.

Definition get_batch_from_local (key : BatchKey) (self : BatchStore) :
    result ExecutorError PersistedValue :=
  match bst_db_cache self !! bk_digest key with
  | Some value =>
      match payload_storage_mode value with
      | PersistedOnly => get_batch_from_db key self
      | MemoryAndPersisted => Ok value
      end
  | None => get_batch_from_db key self
  end.

Definition notify_subscribers (value : PersistedValue) (self : BatchStore) : BatchStore :=
  match bst_persist_subscribers self !! pv_key value with
  | Some subscribers =>
      with_db (bst_db self) (delete (pv_key value) (bst_persist_subscribers self))
        (bst_sent self ++ ((λ r, (r, value)) <$> subscribers)) self
  | None => self
  end.

(** [receiver] names the new channel. *)
Definition subscribe (key : BatchKey) (receiver : nat) (self : BatchStore) : BatchStore :=
  let subscribers :=
    <[key := default [] (bst_persist_subscribers self !! key) ++ [receiver]]>
      (bst_persist_subscribers self) in
  let self := with_db (bst_db self) subscribers (bst_sent self) self in
  match get_batch_from_local key self with
  | Ok value => notify_subscribers value self
  | _ => self
  end.

Fixpoint persist_all (persist_requests : list PersistedValue) :
    SM BatchStore anyhow (list (PersistedValue * SignedBatchInfo)) :=
  match persist_requests with
  | [] => mret []
  | req :: persist_requests =>
      signed ← persist_inner req;
      rest ← persist_all persist_requests;
      mret (match signed with Some si => (req, si) :: rest | None => rest end)
  end.

(** The requests are stored in parallel, here one after the other. *)
Definition persist (persist_requests : list PersistedValue) :
    SM BatchStore anyhow (list SignedBatchInfo) :=
  res ← persist_all persist_requests;
  _ ← modify (λ self, foldl (λ self r, notify_subscribers r.1 self) self res);
  mret res.*2.

(** [BatchReaderImpl::exists]. *)
Definition reader_exists (key : BatchKey) (self : BatchStore) : option AccountAddress :=
  match get_batch_from_local key self with
  | Ok v => Some (bi_author (pv_info v))
  | _ => None
  end.
End batch_store.
