(* ===== verification/BatchStoreSafety.v ===== *)
(** The batch store over any history of calls: quotas are exact, expirations
    and cache agree, no call panics, and every signed batch stays readable
    unless one of its digest was fetched under another epoch. *)
From S2P Require Import Prelude Laptos Payload Expirations BatchStore.

Section batch_store_safety.
Context `{L : Laptos} `{Q : !QuorumStoreStorage} `{QL : !QuorumStoreStorageLaws Q}.
Context `{!CryptoHash BatchInfo}.
Context (batch_payload_hash : AccountAddress → list SignedTransaction → HashValue).

(** ** What an author uses *)

Definition bytes_of (v : PersistedValue) : Z := bi_num_bytes (pv_info v).
Definition memory_of (v : PersistedValue) : Z :=
  match payload_storage_mode v with MemoryAndPersisted => bytes_of v | PersistedOnly => 0 end.
Definition author_of (v : PersistedValue) : AccountAddress := bi_author (pv_info v).
Definition expiration_of (v : PersistedValue) : Z := bi_expiration (pv_info v).

Definition used (f : PersistedValue → Z) (a : AccountAddress)
    (cache : gmap HashValue PersistedValue) : Z :=
  map_sum (λ _ v, if decide (author_of v = a) then f v else 0) cache.

(** The quota manager of an author that uses so many batches and bytes. *)
Definition manager_for (self : BatchStore) (batches db memory : Z) : QuotaManager :=
  {| qm_memory_balance := bst_memory_quota self - memory; qm_db_balance := bst_db_quota self - db;
     qm_batch_balance := bst_batch_quota self - batches; qm_memory_quota := bst_memory_quota self;
     qm_db_quota := bst_db_quota self; qm_batch_quota := bst_batch_quota self |}.
Definition manager_of (self : BatchStore) (cache : gmap HashValue PersistedValue)
    (a : AccountAddress) : QuotaManager :=
  manager_for self (used (λ _, 1) a cache) (used bytes_of a cache) (used memory_of a cache).

Definition within_quota (self : BatchStore) (cache : gmap HashValue PersistedValue) : Prop :=
  ∀ a, used (λ _, 1) a cache ≤ bst_batch_quota self ∧ used bytes_of a cache ≤ bst_db_quota self ∧
       used memory_of a cache ≤ bst_memory_quota self.

(** A batch as the reader hands it over when it was fetched: verified. *)
Definition fetched_ok (v : PersistedValue) : Prop :=
  0 ≤ bytes_of v ∧
  ∃ txns, pv_maybe_payload v = Some txns ∧
    batch_payload_hash (author_of v) txns = bi_digest (pv_info v).

(** A batch as the coordinator hands it over: of this epoch, verified. *)
Definition request_ok (self : BatchStore) (v : PersistedValue) : Prop :=
  bi_epoch (pv_info v) = bst_epoch self ∧ fetched_ok v.

(** A batch of the digest was fetched with the information of another epoch. *)
Definition foreign (fetched : list BatchInfo) (self : BatchStore) (d : HashValue) : Prop :=
  ∃ info, info ∈ fetched ∧ bi_digest info = d ∧ bi_epoch info ≠ bst_epoch self.

(** A batch that can be read under a key: the transactions have the digest. *)
Definition holds_batch (key : BatchKey) (v : PersistedValue) : Prop :=
  ∃ txns, pv_maybe_payload v = Some txns ∧
    batch_payload_hash (author_of v) txns = bk_digest key.
Definition in_db (key : BatchKey) (db : QuorumStoreDB) : Prop :=
  ∃ v, db_get_batch key db = Ok (Some v) ∧ holds_batch key v.

(** [pending] are the digests whose expiration is being processed. *)
Record cache_inv (pending : list HashValue) (self : BatchStore) : Prop := {
  inv_quota a :
    match bst_peer_quota self !! a with
    | Some q => q = manager_of self (bst_db_cache self) a
    | None => ∀ d v, bst_db_cache self !! d = Some v → author_of v ≠ a
    end;
  inv_within : within_quota self (bst_db_cache self);
  inv_sorted : expirations_sorted (bst_expirations self);
  inv_due t d : (t, d) ∈ bst_expirations self →
    ∃ v, bst_db_cache self !! d = Some v ∧ t ≤ expiration_of v;
  inv_indexed d v : bst_db_cache self !! d = Some v →
    bst_last_certified_time self < expiration_of v ∧
      (expiration_of v, d) ∈ bst_expirations self ∨
    expiration_of v ≤ bst_last_certified_time self ∧ d ∈ pending;
  inv_pending d : d ∈ pending → is_Some (bst_db_cache self !! d);
  inv_value d v : bst_db_cache self !! d = Some v →
    bi_digest (pv_info v) = d ∧ 0 ≤ bytes_of v ∧
    (∀ txns, pv_maybe_payload v = Some txns → batch_payload_hash (author_of v) txns = d);
  inv_config : bst_memory_quota self ≤ bst_db_quota self ≤ u64_MAX ∧
    0 ≤ bst_memory_quota self ∧ 0 ≤ bst_batch_quota self ≤ u64_MAX;
}.

(** Everything cached can be read from the database. *)
Definition available (self : BatchStore) : Prop :=
  ∀ d v, bst_db_cache self !! d = Some v → in_db (pv_key v) (bst_db self).

Lemma used_none f a cache :
  (∀ d v, cache !! d = Some v → author_of v ≠ a) → used f a cache = 0.
Proof using Type.
  intros Hn. unfold used. rewrite (map_sum_ext _ (λ _ _, 0)).
  - clear Hn. induction cache as [|d v m Hd IH] using map_ind; [apply map_sum_empty|].
    rewrite map_sum_insert by done. lia.
  - intros d v Hd. rewrite decide_False; [done|]. by eapply Hn.
Qed.

Lemma used_insert f a cache d v :
  cache !! d = None →
  used f a (<[d := v]> cache) = used f a cache + (if decide (author_of v = a) then f v else 0).
Proof using Type. intros Hd. unfold used. rewrite map_sum_insert by done. lia. Qed.

Lemma used_replace f a cache d v w :
  cache !! d = Some w →
  used f a (<[d := v]> cache) =
  used f a cache - (if decide (author_of w = a) then f w else 0) +
  (if decide (author_of v = a) then f v else 0).
Proof using Type. intros Hd. unfold used. by rewrite (map_sum_replace _ _ d w). Qed.

Lemma used_delete f a cache d w :
  cache !! d = Some w →
  used f a (delete d cache) = used f a cache - (if decide (author_of w = a) then f w else 0).
Proof using Type. intros Hd. unfold used. by rewrite (map_sum_delete _ _ d w). Qed.

Lemma used_nonneg f a cache :
  (∀ d v, cache !! d = Some v → 0 ≤ f v) → 0 ≤ used f a cache.
Proof using Type.
  intros Hf. apply map_sum_nonneg. intros d v Hd. case_decide; [|done]. by eapply Hf.
Qed.

Lemma memory_of_bounds v : 0 ≤ bytes_of v → 0 ≤ memory_of v ≤ bytes_of v.
Proof using Type. unfold memory_of. case_match; lia. Qed.

(** What one entry uses is part of what its author uses. *)
Lemma used_entry pending self d v :
  cache_inv pending self → bst_db_cache self !! d = Some v →
  1 ≤ used (λ _, 1) (author_of v) (bst_db_cache self) ∧
  0 ≤ bytes_of v ≤ used bytes_of (author_of v) (bst_db_cache self) ∧
  memory_of v ≤ used memory_of (author_of v) (bst_db_cache self).
Proof using Type.
  intros [] Hd.
  assert (∀ f, (∀ w, 0 ≤ bytes_of w → 0 ≤ f w) → f v ≤ used f (author_of v) (bst_db_cache self))
    as Hle.
  { intros f Hf. unfold used.
    pose proof (map_sum_lookup_le (λ _ w, if decide (author_of w = author_of v) then f w else 0)
      (bst_db_cache self) d v) as H. simpl in H. rewrite decide_True in H by done.
    apply H; [|done]. intros k w Hw. case_decide; [|done]. by apply Hf, (inv_value0 k). }
  assert (0 ≤ bytes_of v) by by apply (inv_value0 d).
  split_and!; [by apply (Hle (λ _, 1))|done|by apply Hle|]. apply Hle. intros w Hw.
  by apply memory_of_bounds.
Qed.

(** ** Quotas *)

Lemma update_quota_for self b d m num_bytes :
  update_quota num_bytes (manager_for self b d m) =
  if bst_batch_quota self - b =? 0 then (manager_for self b d m, Err "Batch quota exceeded "%string)
  else if bst_db_quota self - d >=? num_bytes then
    if bst_memory_quota self - m >=? num_bytes
    then (manager_for self (b + 1) (d + num_bytes) (m + num_bytes), Ok MemoryAndPersisted)
    else (manager_for self (b + 1) (d + num_bytes) m, Ok PersistedOnly)
  else (manager_for self b d m, Err "Storage quota exceeded "%string).
Proof using Type.
  unfold update_quota, manager_for, with_balances. simpl.
  repeat case_match; try done; do 2 f_equal; lia.
Qed.

Lemma assert_quota_ok balance to_free quota :
  balance + to_free ≤ quota → quota ≤ u64_MAX →
  assert_quota balance to_free quota = Ok (balance + to_free).
Proof using Type.
  intros. unfold assert_quota, u64_add. rewrite (proj2 (Z.leb_le _ u64_MAX)) by lia. simpl.
  by rewrite (proj2 (Z.leb_le _ _)) by lia.
Qed.

Lemma free_quota_for self b d m num_bytes mode :
  1 ≤ b → num_bytes ≤ d → (mode = MemoryAndPersisted → num_bytes ≤ m) →
  bst_batch_quota self ≤ u64_MAX → bst_db_quota self ≤ u64_MAX → bst_memory_quota self ≤ u64_MAX →
  QuotaManager_free_quota num_bytes mode (manager_for self b d m) =
  Ok (manager_for self (b - 1) (d - num_bytes)
        (match mode with MemoryAndPersisted => m - num_bytes | PersistedOnly => m end)).
Proof using Type.
  intros Hb Hd Hm ???. unfold QuotaManager_free_quota, manager_for. simpl.
  rewrite (assert_quota_ok _ 1) by lia. cbn [mbind result_bind].
  rewrite (assert_quota_ok (bst_db_quota self - d)) by lia. cbn [mbind result_bind]. destruct mode.
  - unfold with_balances. simpl. do 2 f_equal; lia.
  - specialize (Hm eq_refl). rewrite assert_quota_ok by lia. cbn [mbind result_bind].
    unfold with_balances. simpl. do 2 f_equal; lia.
Qed.

(** The quota map of a cache: what every author uses, authors without a batch
    may be missing. *)
Definition quota_for (self : BatchStore) (cache : gmap HashValue PersistedValue)
    (quota : gmap AccountAddress QuotaManager) : Prop :=
  ∀ a, match quota !! a with
       | Some q => q = manager_of self cache a
       | None => ∀ d v, cache !! d = Some v → author_of v ≠ a
       end.

Lemma quota_default self cache quota a :
  quota_for self cache quota →
  default (manager_for self 0 0 0) (quota !! a) = manager_of self cache a.
Proof using Type.
  intros Hq. specialize (Hq a). destruct (quota !! a) as [q|]; simpl; [done|].
  unfold manager_of. by rewrite !used_none.
Qed.

(** Freeing the quota of a cached value that leaves the cache. *)
Lemma free_quota_delete pending self d v quota :
  cache_inv pending self → bst_db_cache self !! d = Some v →
  quota = bst_peer_quota self →
  ∃ quota', bst_free_quota v quota = Ok quota' ∧
    quota_for self (delete d (bst_db_cache self)) quota'.
Proof using Type.
  intros Hinv Hd ->. assert (Hquota := inv_quota _ _ Hinv). unfold bst_free_quota.
  fold (author_of v) (bytes_of v). pose proof (used_entry _ _ _ _ Hinv Hd) as (Hb & Hbytes & Hmem).
  pose proof (inv_within _ _ Hinv (author_of v)) as (? & ? & ?). pose proof (inv_config _ _ Hinv).
  destruct (bst_peer_quota self !! author_of v) as [q|] eqn:Hq.
  2: { specialize (Hquota (author_of v)). rewrite Hq in Hquota. by destruct (Hquota d v Hd). }
  specialize (Hquota (author_of v)) as Hqa. rewrite Hq in Hqa. rewrite Hqa.
  unfold manager_of at 1. rewrite free_quota_for; [|lia|lia| |lia..].
  2: { intros Hmode. unfold memory_of in Hmem. by rewrite Hmode in Hmem. }
  cbn [mbind result_bind]. eexists. split; [done|]. intros a.
  destruct (decide (author_of v = a)) as [<-|Hne].
  - rewrite lookup_insert_eq. unfold manager_of.
    rewrite !(used_delete _ _ _ d v Hd), !decide_True by done. f_equal.
    unfold memory_of. destruct (payload_storage_mode v); lia.
  - rewrite lookup_insert_ne by done. specialize (Hquota a).
    destruct (bst_peer_quota self !! a) as [q'|].
    + rewrite Hquota. unfold manager_of.
      rewrite !(used_delete _ _ _ d v Hd), !decide_False by done. by rewrite !Z.sub_0_r.
    + intros d' v' [_ ?]%lookup_delete_Some. by eapply Hquota.
Qed.

(** ** Inserting *)

(** Charging an author for one more value: the manager and what is stored. *)
(** The author's quota takes the batch, in memory and database or in the
    database at least. *)
Definition has_room (self : BatchStore) (v : PersistedValue)
    (cache : gmap HashValue PersistedValue) : Prop :=
  used (λ _, 1) (author_of v) cache + 1 ≤ bst_batch_quota self ∧
  used bytes_of (author_of v) cache + bytes_of v ≤ bst_db_quota self.
Definition memory_full (self : BatchStore) (v : PersistedValue)
    (cache : gmap HashValue PersistedValue) : Prop :=
  bst_memory_quota self < used memory_of (author_of v) cache + bytes_of v.

Lemma charge_author self cache a v :
  within_quota self cache → author_of v = a → 0 ≤ bytes_of v → is_Some (pv_maybe_payload v) →
  match update_quota (bytes_of v) (manager_of self cache a) with
  | (m, Ok mode) =>
      let stored := match mode with
                    | PersistedOnly => {| pv_info := pv_info v; pv_maybe_payload := None |}
                    | MemoryAndPersisted => v
                    end in
      m = manager_for self (used (λ _, 1) a cache + 1) (used bytes_of a cache + bytes_of v)
            (used memory_of a cache + memory_of stored) ∧
      used (λ _, 1) a cache + 1 ≤ bst_batch_quota self ∧
      used bytes_of a cache + bytes_of v ≤ bst_db_quota self ∧
      used memory_of a cache + memory_of stored ≤ bst_memory_quota self ∧
      (memory_full self v cache → pv_maybe_payload stored = None)
  | (m, Err _) => m = manager_of self cache a ∧ ¬ has_room self v cache
  | (_, Panic) => False
  end.
Proof using Type.
  intros Hw Ha Hv [txns Hp]. destruct (Hw a) as (? & ? & ?). unfold manager_of.
  rewrite update_quota_for. unfold has_room, memory_full. rewrite Ha.
  destruct (Z.eqb_spec (bst_batch_quota self - used (λ _, 1) a cache) 0); [split; [done|lia]|].
  destruct (Z.geb_spec (bst_db_quota self - used bytes_of a cache) (bytes_of v));
    [|split; [done|lia]].
  destruct (Z.geb_spec (bst_memory_quota self - used memory_of a cache) (bytes_of v)).
  - assert (memory_of v = bytes_of v) as ->.
    { unfold memory_of, payload_storage_mode. by rewrite Hp. }
    split_and!; [done|lia..|lia].
  - assert (memory_of {| pv_info := pv_info v; pv_maybe_payload := None |} = 0) as Hz by done.
    cbv zeta. rewrite Hz, Z.add_0_r. split_and!; [done|lia..|done].
Qed.

Definition fits (self : BatchStore) (v stored : PersistedValue)
    (cache : gmap HashValue PersistedValue) : Prop :=
  let a := author_of v in
  used (λ _, 1) a cache + 1 ≤ bst_batch_quota self ∧
  used bytes_of a cache + bytes_of v ≤ bst_db_quota self ∧
  used memory_of a cache + memory_of stored ≤ bst_memory_quota self.

(** The quota after a new digest. *)
Lemma quota_for_insert self cache quota v stored d m :
  quota_for self cache quota → within_quota self cache → cache !! d = None →
  pv_info stored = pv_info v → fits self v stored cache →
  m = manager_for self (used (λ _, 1) (author_of v) cache + 1)
        (used bytes_of (author_of v) cache + bytes_of v)
        (used memory_of (author_of v) cache + memory_of stored) →
  quota_for self (<[d := stored]> cache) (<[author_of v := m]> quota) ∧
  within_quota self (<[d := stored]> cache).
Proof using Type.
  intros Hq Hw Hd Hinfo (Hb & Hdb & Hm) ->.
  assert (author_of stored = author_of v) as Ha by (unfold author_of; by rewrite Hinfo).
  assert (bytes_of stored = bytes_of v) as Hbytes by (unfold bytes_of; by rewrite Hinfo).
  split.
  - intros a. destruct (decide (author_of v = a)) as [<-|Hne].
    + rewrite lookup_insert_eq. unfold manager_of.
      rewrite !used_insert, Ha, !decide_True by done. by rewrite Hbytes.
    + rewrite lookup_insert_ne by done. specialize (Hq a). destruct (quota !! a) as [q|].
      * rewrite Hq. unfold manager_of. rewrite !used_insert, Ha, !decide_False by done.
        by rewrite !Z.add_0_r.
      * intros d' v' [[_ <-]|[_ ?]]%lookup_insert_Some; [by rewrite Ha|]. by eapply Hq.
  - intros a. rewrite !used_insert, Ha by done.
    destruct (decide (author_of v = a)) as [<-|Hne]; [rewrite Hbytes; lia|].
    rewrite !Z.add_0_r. apply Hw.
Qed.

(** The quota after a digest whose expiration is extended: the author of the new
    value is charged before the old value is freed. *)
Lemma quota_for_replace pending self v stored d w m :
  cache_inv pending self → bst_db_cache self !! d = Some w → 0 ≤ bytes_of v →
  pv_info stored = pv_info v → fits self v stored (bst_db_cache self) →
  0 ≤ memory_of stored →
  m = manager_for self (used (λ _, 1) (author_of v) (bst_db_cache self) + 1)
        (used bytes_of (author_of v) (bst_db_cache self) + bytes_of v)
        (used memory_of (author_of v) (bst_db_cache self) + memory_of stored) →
  ∃ quota, bst_free_quota w (<[author_of v := m]> (bst_peer_quota self)) = Ok quota ∧
    quota_for self (<[d := stored]> (bst_db_cache self)) quota ∧
    within_quota self (<[d := stored]> (bst_db_cache self)).
Proof using Type.
  intros Hinv Hd Hv Hinfo (Hb & Hdb & Hm) Hms ->. set (cache := bst_db_cache self) in *.
  assert (author_of stored = author_of v) as Ha by (unfold author_of; by rewrite Hinfo).
  assert (bytes_of stored = bytes_of v) as Hbytes by (unfold bytes_of; by rewrite Hinfo).
  pose proof (used_entry _ _ _ _ Hinv Hd) as (Hwb & Hwbytes & Hwmem).
  pose proof (inv_config _ _ Hinv). fold cache in Hwb, Hwbytes, Hwmem.
  assert (Hw := inv_within _ _ Hinv). assert (Hq := inv_quota _ _ Hinv). fold cache in Hq, Hw.
  pose proof (memory_of_bounds w) as Hwm.
  unfold bst_free_quota. fold (author_of w) (bytes_of w).
  set (charged (f : PersistedValue → Z) x a := used f a cache + (if decide (author_of v = a) then x else 0)).
  assert (∃ q, <[author_of v := manager_for self (used (λ _, 1) (author_of v) cache + 1)
      (used bytes_of (author_of v) cache + bytes_of v)
      (used memory_of (author_of v) cache + memory_of stored)]> (bst_peer_quota self)
      !! author_of w = Some q ∧
    q = manager_for self (charged (λ _, 1) 1 (author_of w))
          (charged bytes_of (bytes_of v) (author_of w))
          (charged memory_of (memory_of stored) (author_of w))) as (q & -> & ->).
  { unfold charged. destruct (decide (author_of v = author_of w)) as [Heq|Hne].
    - rewrite Heq, lookup_insert_eq. eauto.
    - rewrite lookup_insert_ne by done. specialize (Hq (author_of w)).
      destruct (bst_peer_quota self !! author_of w) as [q|].
      + rewrite !Z.add_0_r. eauto.
      + by destruct (Hq d w Hd). }
  destruct (Hw (author_of w)) as (? & ? & ?).
  rewrite free_quota_for; [| | | |lia..].
  2-3: unfold charged; case_decide; lia.
  2: { intros Hmode. assert (memory_of w = bytes_of w) by (unfold memory_of; by rewrite Hmode).
       unfold charged. case_decide; lia. }
  cbn [mbind result_bind]. eexists. split; [done|]. split.
  - intros a. destruct (decide (author_of w = a)) as [<-|Hne].
    + rewrite lookup_insert_eq. unfold manager_of.
      rewrite !(used_replace _ _ _ d _ w Hd), Ha, Hbytes. unfold charged.
      rewrite !(decide_True (P:=author_of w = author_of w)) by done. f_equal; [lia..|].
      assert (memory_of w = match payload_storage_mode w with
        | PersistedOnly => 0 | MemoryAndPersisted => bytes_of w end) as -> by done.
      destruct (payload_storage_mode w); lia.
    + rewrite lookup_insert_ne by done. unfold manager_of.
      rewrite !(used_replace _ _ _ d _ w Hd), Ha, Hbytes.
      rewrite !(decide_False (P:=author_of w = a)) by done. rewrite !Z.sub_0_r.
      destruct (decide (author_of v = a)) as [<-|Hne'].
      * by rewrite lookup_insert_eq.
      * rewrite lookup_insert_ne, !Z.add_0_r by done. specialize (Hq a).
        destruct (bst_peer_quota self !! a) as [q|]; [done|].
        intros d' v' [[_ <-]|[_ ?]]%lookup_insert_Some; [by rewrite Ha|]. by eapply Hq.
  - intros a. rewrite !(used_replace _ _ _ d _ w Hd), Ha, Hbytes. destruct (Hw a) as (? & ? & ?).
    destruct (decide (author_of v = a)) as [<-|]; case_decide; lia.
Qed.

Lemma insert_entry_ok pending self v :
  cache_inv pending self → fetched_ok v →
  let d := bi_digest (pv_info v) in
  match insert_entry v self with
  | (self', Ok true) =>
      ∃ stored quota, self' = with_cache (<[d := stored]> (bst_db_cache self)) quota self ∧
        quota_for self (<[d := stored]> (bst_db_cache self)) quota ∧
        within_quota self (<[d := stored]> (bst_db_cache self)) ∧
        pv_info stored = pv_info v ∧
        (pv_maybe_payload stored = pv_maybe_payload v ∨ pv_maybe_payload stored = None) ∧
        (memory_full self v (bst_db_cache self) → pv_maybe_payload stored = None) ∧
        ∀ w, bst_db_cache self !! d = Some w → expiration_of w < expiration_of v
  | (self', Ok false) => self' = self ∧ is_Some (bst_db_cache self !! d)
  | (self', Err _) =>
      ∃ quota, self' = with_cache (bst_db_cache self) quota self ∧
        quota_for self (bst_db_cache self) quota ∧ ¬ has_room self v (bst_db_cache self)
  | (_, Panic) => False
  end.
Proof using Type.
  intros Hinv (Hbytes & txns & Hpay & _) d. unfold insert_entry. fold d.
  fold (expiration_of v) (author_of v) (bytes_of v).
  pose proof (inv_config _ _ Hinv) as Hconf.
  assert (∀ w, bst_db_cache self !! d = Some w →
    match bst_db_cache self !! d with
    | Some entry => expiration_of entry >=? expiration_of v | None => false end = false →
    expiration_of w < expiration_of v) as Hexp.
  { intros w ->. destruct (Z.geb_spec (expiration_of w) (expiration_of v)); [done|lia]. }
  destruct (match bst_db_cache self !! d with Some entry => _ | None => _ end) eqn:Hocc.
  { split; [done|]. by destruct (bst_db_cache self !! d). }
  unfold QuotaManager_new. rewrite (proj2 (Z.geb_le _ _)) by lia.
  pose proof (quota_default self _ _ (author_of v) (inv_quota _ _ Hinv)) as Hdef.
  replace {| qm_memory_balance := bst_memory_quota self |} with (manager_for self 0 0 0)
    by (unfold manager_for; by rewrite !Z.sub_0_r).
  rewrite Hdef.
  pose proof (charge_author self (bst_db_cache self) (author_of v) v (inv_within _ _ Hinv) eq_refl
    Hbytes (ex_intro _ _ Hpay)) as Hcharge.
  destruct (update_quota _ _) as [m [mode|e|]]; [| |done].
  2: { destruct Hcharge as [Hcharge Hroom]. eexists. split; [done|]. split; [|done].
       intros a. rewrite Hcharge.
       destruct (decide (author_of v = a)) as [<-|]; [by rewrite lookup_insert_eq|].
       rewrite lookup_insert_ne by done. apply (inv_quota _ _ Hinv). }
  cbv zeta in Hcharge. set (stored := match mode with PersistedOnly => _ | MemoryAndPersisted => _ end) in *.
  destruct Hcharge as (Hm & Hone & Hdb & Hmemory & Hfull).
  assert (fits self v stored (bst_db_cache self)) as Hfits by done.
  assert (pv_info stored = pv_info v) as Hinfo by by destruct mode.
  assert (pv_maybe_payload stored = pv_maybe_payload v ∨ pv_maybe_payload stored = None) as Hstored
    by (destruct mode; auto).
  assert (0 ≤ memory_of stored) as Hmem.
  { apply memory_of_bounds. unfold bytes_of. by rewrite Hinfo. }
  destruct (bst_db_cache self !! d) as [w|] eqn:Hd.
  - destruct (quota_for_replace pending self v stored d w m Hinv Hd Hbytes Hinfo Hfits Hmem Hm)
      as (quota & -> & Hquota & Hwithin).
    eexists _, quota. split; [done|]. split_and!; try done. intros w' Hw'. by apply Hexp.
  - destruct (quota_for_insert self _ _ v stored d m (inv_quota _ _ Hinv) (inv_within _ _ Hinv) Hd Hinfo
      Hfits Hm) as [Hquota Hwithin].
    eexists _, _. split; [done|]. by split_and!.
Qed.

Lemma save_ok self v :
  cache_inv [] self → fetched_ok v →
  let d := bi_digest (pv_info v) in
  match save v self with
  | (self', Ok true) =>
      cache_inv [] self' ∧ bst_db self' = bst_db self ∧ bst_epoch self' = bst_epoch self ∧
      ∃ stored, bst_db_cache self' = <[d := stored]> (bst_db_cache self) ∧
        pv_info stored = pv_info v ∧
        (pv_maybe_payload stored = pv_maybe_payload v ∨ pv_maybe_payload stored = None) ∧
        (memory_full self v (bst_db_cache self) → pv_maybe_payload stored = None)
  | (self', Ok false) => self' = self ∧ is_Some (bst_db_cache self !! d)
  | (self', Err _) =>
      cache_inv [] self' ∧ bst_db self' = bst_db self ∧ bst_epoch self' = bst_epoch self ∧
      bst_db_cache self' = bst_db_cache self ∧
      (expiration_of v ≤ bst_last_certified_time self ∨ ¬ has_room self v (bst_db_cache self))
  | (_, Panic) => False
  end.
Proof using Type.
  intros Hinv Hreq d. unfold save. fold (expiration_of v).
  destruct (Z.gtb_spec (expiration_of v) (bst_last_certified_time self)) as [Hexp|Hexp];
    [|split_and!; [done..|by left]].
  unfold insert_to_cache. unfold mbind, SM_bind, modify, mret, SM_ret.
  pose proof (insert_entry_ok [] self v Hinv Hreq) as Hins. cbv zeta in Hins. fold d in Hins.
  destruct (insert_entry v self) as [self' [[|]|e|]]; [| | |done].
  - destruct Hins as (stored & quota & -> & Hq & Hw & Hinfo & Hpay & Hfull & Hext). fold d (expiration_of v).
    split_and!; [|done..|by exists stored]. destruct Hreq as (Hbytes & txns & Hp & Hhash).
    assert (expiration_of stored = expiration_of v) as He by (unfold expiration_of; by rewrite Hinfo).
    destruct Hinv. split; simpl; try done.
    + by apply add_item_sorted.
    + intros t d' [[= -> ->]|Hin]%elem_of_add_item.
      { exists stored. rewrite lookup_insert_eq. by rewrite He. }
      destruct (inv_due0 t d' Hin) as (w & Hw' & Ht).
      destruct (decide (d = d')) as [<-|Hne].
      * exists stored. rewrite lookup_insert_eq, He. specialize (Hext w Hw'). split; [done|lia].
      * exists w. by rewrite lookup_insert_ne.
    + intros d' w [[<- <-]|[Hne Hw']]%lookup_insert_Some; left; rewrite elem_of_add_item.
      * rewrite He. split; [lia|by left].
      * destruct (inv_indexed0 d' w Hw') as [[? ?]|[_ ?%elem_of_nil]]; [|done]. eauto.
    + by intros d' ?%elem_of_nil.
    + intros d' w [[<- <-]|[Hne Hw']]%lookup_insert_Some; [|by apply inv_value0].
      unfold bytes_of, author_of. rewrite Hinfo. split_and!; [done|done|].
      intros txns' Htxns. destruct Hpay as [Hpay|Hpay]; [|congruence].
      rewrite Hpay, Hp in Htxns. injection Htxns as <-. exact Hhash.
  - done.
  - destruct Hins as (quota & -> & Hq & Hroom). split_and!; [|done..|by right]. destruct Hinv. by split.
Qed.

(** ** The database *)

Lemma in_db_save key db db' v :
  in_db key db → holds_batch (pv_key v) v → save_batch v db = (db', Ok tt) → in_db key db'.
Proof using QL.
  intros (w & Hw & Hh) Hv Hs. destruct (decide (key = pv_key v)) as [->|Hne].
  - exists v. split; [|done]. by eapply get_save_batch.
  - exists w. split; [|done]. by rewrite (get_save_batch_ne v db db').
Qed.

Lemma fetched_holds v : fetched_ok v → holds_batch (pv_key v) v.
Proof using Type. intros (_ & txns & ? & ?). by exists txns. Qed.

(** What is in the database can be read. *)
Lemma local_from_db self key :
  cache_inv [] self → in_db key (bst_db self) →
  ∃ w, get_batch_from_local key self = Ok w ∧ holds_batch key w.
Proof using Type.
  intros Hinv (w & Hw & Hh). unfold get_batch_from_local, get_batch_from_db.
  destruct (bst_db_cache self !! bk_digest key) as [v|] eqn:Hd; [|exists w; by rewrite Hw].
  unfold payload_storage_mode. destruct (pv_maybe_payload v) as [txns|] eqn:Hp; [|exists w; by rewrite Hw].
  exists v. split; [done|]. exists txns. split; [done|]. by apply (inv_value _ _ Hinv _ v Hd).
Qed.

(** ** Persisting *)

Lemma cache_inv_with_db pending self db subscribers sent :
  cache_inv pending self → cache_inv pending (with_db db subscribers sent self).
Proof using Type. by intros []. Qed.

(** A failed write is the only way to a panic; a signature needs the batch in
    the database, or one of its digest from another epoch in the cache. *)
Lemma persist_inner_ok self v :
  cache_inv [] self → available self → fetched_ok v →
  let d := bi_digest (pv_info v) in
  match persist_inner v self with
  | (self', Ok signed) =>
      cache_inv [] self' ∧ available self' ∧ bst_epoch self' = bst_epoch self ∧
      (∀ key, in_db key (bst_db self) → in_db key (bst_db self')) ∧
      (∀ d' w, bst_db_cache self' !! d' = Some w →
         bst_db_cache self !! d' = Some w ∨ d' = d ∧ pv_info w = pv_info v) ∧
      ∀ si, signed = Some si → sbi_info si = pv_info v ∧
        (in_db (pv_key v) (bst_db self') ∨
         ∃ w, bst_db_cache self !! d = Some w ∧ bi_epoch (pv_info w) ≠ bi_epoch (pv_info v))
  | (_, Err _) => False
  | (_, Panic) => (save_batch v (bst_db self)).2 ≠ Ok tt
  end.
Proof using QL.
  intros Hinv Hav Hreq d. unfold persist_inner.
  assert (∀ signer si, match SignedBatchInfo_new (pv_info v) signer with
    | Ok s => Some s | _ => None end = Some si → sbi_info si = pv_info v) as Hsign.
  { intros signer si. unfold SignedBatchInfo_new. destruct (signer_sign signer (pv_info v)); [|done..].
    simpl. by intros [= <-]. }
  pose proof (save_ok self v Hinv Hreq) as Hsave. cbv zeta in Hsave. fold d in Hsave.
  destruct (save v self) as [self1 [[|]|e|]]; [| | |done].
  - destruct Hsave as (Hinv1 & Hdb & Hepoch & stored & Hcache & Hinfo & _). rewrite Hdb.
    destruct (save_batch v (bst_db self)) as [db [[]|e|]] eqn:Hs; [|done..].
    assert (∀ key, in_db key (bst_db self) → in_db key db) as Hkeep.
    { intros key Hin. eapply in_db_save; [done|by apply fetched_holds|done]. }
    assert (in_db (pv_key v) db) as Hin.
    { exists v. split; [by eapply get_save_batch|by apply fetched_holds]. }
    split_and!; [by apply cache_inv_with_db| |done|done| |].
    + intros d' w. simpl. rewrite Hcache. intros [[<- <-]|[_ Hw]]%lookup_insert_Some.
      * replace (pv_key stored) with (pv_key v) by (unfold pv_key; by rewrite Hinfo). done.
      * by apply Hkeep, (Hav d').
    + intros d' w. simpl. rewrite Hcache. intros [[<- <-]|[_ Hw]]%lookup_insert_Some; auto.
    + intros si Hsi. split; [by eapply Hsign|by left].
  - destruct Hsave as [-> [w Hw]]. split_and!; try done; [by left|].
    intros si Hsi. split; [by eapply Hsign|].
    destruct (decide (bi_epoch (pv_info w) = bi_epoch (pv_info v))) as [He|]; [left|right; by exists w].
    replace (pv_key v) with (pv_key w); [by apply (Hav d)|]. unfold pv_key.
    rewrite He. by destruct (inv_value _ _ Hinv d w Hw) as (-> & _).
  - destruct Hsave as (Hinv1 & Hdb & Hepoch & Hcache & _). rewrite Hdb, Hcache. split_and!; try done.
    + intros d' w. rewrite Hcache, Hdb. apply Hav.
    + by left.
Qed.

(** An entry of another epoch was there before, or comes with the batch [v]. *)
Definition epochs_ok (fetched : list BatchInfo) (self : BatchStore) : Prop :=
  ∀ d v, bst_db_cache self !! d = Some v → bi_epoch (pv_info v) = bst_epoch self ∨ foreign fetched self d.

Lemma request_ok_epoch self self' v :
  bst_epoch self' = bst_epoch self → request_ok self v → request_ok self' v.
Proof using Type. unfold request_ok. by intros ->. Qed.

Lemma foreign_epoch fetched self self' d :
  bst_epoch self' = bst_epoch self → foreign fetched self d → foreign fetched self' d.
Proof using Type. unfold foreign. by intros ->. Qed.

(** The requests of a message, of the store's epoch. *)
Lemma persist_all_ok fetched reqs : ∀ self,
  cache_inv [] self → available self → epochs_ok fetched self → Forall (request_ok self) reqs →
  match persist_all reqs self with
  | (self', Ok res) =>
      cache_inv [] self' ∧ available self' ∧ epochs_ok fetched self' ∧
      bst_epoch self' = bst_epoch self ∧
      (∀ key, in_db key (bst_db self) → in_db key (bst_db self')) ∧
      ∀ req si, (req, si) ∈ res → req ∈ reqs ∧ sbi_info si = pv_info req ∧
        (in_db (pv_key req) (bst_db self') ∨ foreign fetched self' (bi_digest (pv_info req)))
  | (_, Err _) => False
  | (_, Panic) => ∃ req db, req ∈ reqs ∧ (save_batch req db).2 ≠ Ok tt
  end.
Proof using QL.
  induction reqs as [|v reqs IH]; intros self Hinv Hav Hep Hreqs; simpl.
  { split_and!; try done. by intros req si ?%elem_of_nil. }
  apply Forall_cons in Hreqs as [Hv Hreqs]. unfold mbind, SM_bind, mret, SM_ret.
  pose proof (persist_inner_ok self v Hinv Hav (proj2 Hv)) as Hp. cbv zeta in Hp.
  destruct (persist_inner v self) as [self1 [signed|e|]]; [|done|].
  2: { exists v, (bst_db self). split; [apply elem_of_cons; by left|done]. }
  destruct Hp as (Hinv1 & Hav1 & Hepoch & Hkeep & Hcache & Hsigned).
  assert (epochs_ok fetched self1) as Hep1.
  { intros d w. rewrite Hepoch. intros [Hw|[-> ->]]%Hcache; [|left; apply Hv].
    destruct (Hep d w Hw); [by left|right]. by eapply foreign_epoch. }
  assert (Forall (request_ok self1) reqs) as Hreqs1.
  { eapply Forall_impl; [exact Hreqs|]. intros w. by apply request_ok_epoch. }
  specialize (IH self1 Hinv1 Hav1 Hep1 Hreqs1).
  destruct (persist_all reqs self1) as [self2 [res|e|]]; [|done|].
  2: { destruct IH as (req & db & Hin & Hf). exists req, db. split; [|done].
       apply elem_of_cons. by right. }
  destruct IH as (Hinv2 & Hav2 & Hep2 & Hepoch2 & Hkeep2 & Hres).
  split_and!; [done|done|done|congruence|eauto|].
  assert (∀ req si, (req, si) ∈ res → req ∈ v :: reqs ∧ sbi_info si = pv_info req ∧
    (in_db (pv_key req) (bst_db self2) ∨ foreign fetched self2 (bi_digest (pv_info req)))) as Hrest.
  { intros req si Hin. destruct (Hres req si Hin) as (? & ? & ?).
    split_and!; [apply elem_of_cons; by right|done|done]. }
  intros req si Hin. destruct signed as [s|]; [apply elem_of_cons in Hin as [[= -> ->]|Hin]|]; eauto.
  destruct (Hsigned s eq_refl) as [? Hdb]. split_and!; [apply elem_of_cons; by left|done|].
  destruct Hdb as [?|(w & Hw & Hne)]; [left; eauto|right].
  destruct (Hep _ w Hw) as [He|Hf]; [by rewrite (proj1 Hv) in Hne|].
  eapply (foreign_epoch _ self); [congruence|done].
Qed.

(** ** Batches for which there is room are stored and signed *)

(** The fields that storing does not change. *)
Definition same_config (self self' : BatchStore) : Prop :=
  bst_last_certified_time self' = bst_last_certified_time self ∧
  bst_batch_quota self' = bst_batch_quota self ∧ bst_db_quota self' = bst_db_quota self ∧
  bst_validator_signer self' = bst_validator_signer self.

Lemma save_config v self : same_config self (save v self).1.
Proof using Type.
  unfold save. case_match; [|done]. unfold insert_to_cache, mbind, SM_bind, modify, mret, SM_ret.
  assert (same_config self (insert_entry v self).1) as Hc.
  { unfold insert_entry. repeat case_match; done. }
  destruct (insert_entry v self) as [self' [[|]|e|]]; done.
Qed.

(** What an author uses after an insertion. *)
Lemma used_after_insert f a cache d v :
  (∀ d' w, cache !! d' = Some w → 0 ≤ f w) →
  used f a (<[d := v]> cache) ≤ used f a cache + (if decide (author_of v = a) then f v else 0).
Proof using Type.
  intros Hf. destruct (cache !! d) as [w|] eqn:Hd; [|rewrite used_insert by done; lia].
  rewrite (used_replace _ _ _ _ _ w) by done. specialize (Hf d w Hd). case_decide; lia.
Qed.

Lemma persist_inner_room self v :
  cache_inv [] self → fetched_ok v → bst_last_certified_time self < expiration_of v →
  has_room self v (bst_db_cache self) → (∀ db, (save_batch v db).2 = Ok tt) →
  is_ok (SignedBatchInfo_new (pv_info v) (bst_validator_signer self)) = true →
  ∃ self' si, persist_inner v self = (self', Ok (Some si)) ∧ same_config self self' ∧
    ∀ a, let new f := if decide (author_of v = a) then f else 0 in
      used (λ _, 1) a (bst_db_cache self') ≤ used (λ _, 1) a (bst_db_cache self) + new 1 ∧
      used bytes_of a (bst_db_cache self') ≤ used bytes_of a (bst_db_cache self) + new (bytes_of v).
Proof using Type.
  intros Hinv Hv Hexp Hroom Hw Hsign. unfold persist_inner.
  pose proof (save_ok self v Hinv Hv) as Hsave. pose proof (save_config v self) as Hconf.
  destruct (save v self) as [self1 [[|]|e|]]; cbn [fst] in Hconf; [| | |done].
  - destruct Hsave as (_ & _ & _ & stored & Hcache & Hinfo & _).
    specialize (Hw (bst_db self1)). destruct (save_batch v (bst_db self1)) as [db [[]| |]]; [|done..].
    cbn [with_db bst_validator_signer]. destruct Hconf as (? & ? & ? & Hs). rewrite Hs.
    destruct (SignedBatchInfo_new _ _) as [si| |]; [|done..].
    eexists _, si. split; [done|]. split; [done|]. simpl. rewrite Hcache. intros a.
    assert (bytes_of stored = bytes_of v ∧ author_of stored = author_of v) as [<- <-]
      by (unfold bytes_of, author_of; by rewrite Hinfo).
    split; apply used_after_insert; [done|]. intros d w Hd. by apply (inv_value _ _ Hinv d w).
  - destruct Hsave as [-> _]. destruct (SignedBatchInfo_new _ _) as [si| |]; [|done..].
    exists self, si. split_and!; [done..|]. intros a. destruct Hv as [Hb _]. simpl. case_decide; lia.
  - destruct Hsave as (_ & _ & _ & _ & [?|?]); [lia|done].
Qed.

(** Room for all batches of a list by one author. *)
Definition sum_bytes (vs : list PersistedValue) : Z := foldr (λ v n, bytes_of v + n) 0 vs.
Definition all_room (self : BatchStore) (a : AccountAddress) (vs : list PersistedValue) : Prop :=
  used (λ _, 1) a (bst_db_cache self) + Z.of_nat (length vs) ≤ bst_batch_quota self ∧
  used bytes_of a (bst_db_cache self) + sum_bytes vs ≤ bst_db_quota self.

Lemma persist_all_room a vs : ∀ self,
  cache_inv [] self → available self → all_room self a vs →
  Forall (λ v, fetched_ok v ∧ author_of v = a ∧ bst_last_certified_time self < expiration_of v ∧
    (∀ db, (save_batch v db).2 = Ok tt) ∧
    is_ok (SignedBatchInfo_new (pv_info v) (bst_validator_signer self)) = true) vs →
  ∃ self' res, persist_all vs self = (self', Ok res) ∧ res.*1 = vs.
Proof using QL.
  induction vs as [|v vs IH]; intros self Hinv Hav [Hn Hb] Hvs; [by exists self, []|].
  apply Forall_cons in Hvs as [(Hv & Ha & Hexp & Hw & Hs) Hvs]. rewrite length_cons in Hn.
  simpl in Hb. fold (sum_bytes vs) in Hb.
  assert (0 ≤ sum_bytes vs) as Hpos.
  { clear - Hvs. induction Hvs as [|w vs ((Hw & _) & _) _ IH]; simpl; [lia|].
    fold (sum_bytes vs). lia. }
  destruct (persist_inner_room self v) as (self1 & si & Hp & (Ht & Hq1 & Hq2 & Hsg) & Hused);
    [done..|unfold has_room; rewrite Ha; lia|done|done|].
  pose proof (persist_inner_ok self v Hinv Hav Hv) as Hok. rewrite Hp in Hok.
  destruct Hok as (Hinv1 & Hav1 & _).
  destruct (IH self1) as (self2 & res & Hres & Heq); [done|done| | |].
  - destruct (Hused a) as [Hu1 Hu2]. rewrite !decide_True in Hu1, Hu2 by done.
    unfold all_room. rewrite Hq1, Hq2. lia.
  - by rewrite Ht, Hsg.
  - exists self2, ((v, si) :: res). split; [|by rewrite fmap_cons, Heq].
    simpl. unfold mbind, SM_bind, mret, SM_ret. by rewrite Hp, Hres.
Qed.

(** Subscribers are not part of the invariant. *)
Lemma notify_frame value self :
  ∃ subscribers sent, notify_subscribers value self = with_db (bst_db self) subscribers sent self.
Proof using Type.
  unfold notify_subscribers. destruct (bst_persist_subscribers self !! pv_key value); [by eauto|].
  exists (bst_persist_subscribers self), (bst_sent self). by destruct self.
Qed.

Lemma notify_all_frame (res : list (PersistedValue * SignedBatchInfo)) : ∀ self,
  ∃ subscribers sent, foldl (λ self r, notify_subscribers r.1 self) self res =
    with_db (bst_db self) subscribers sent self.
Proof using Type.
  induction res as [|r res IH]; intros self; simpl.
  { exists (bst_persist_subscribers self), (bst_sent self). by destruct self. }
  destruct (notify_frame r.1 self) as (? & ? & ->).
  destruct (IH (with_db (bst_db self) x x0 self)) as (? & ? & ->). by eauto.
Qed.

(** ** Expiring *)

Lemma within_quota_delete pending self d v :
  cache_inv pending self → bst_db_cache self !! d = Some v →
  within_quota self (delete d (bst_db_cache self)).
Proof using Type.
  intros Hinv Hd a. destruct (inv_within _ _ Hinv a) as (? & ? & ?).
  destruct (inv_value _ _ Hinv d v Hd) as (_ & Hb & _). pose proof (memory_of_bounds v Hb).
  rewrite !(used_delete _ _ _ d v Hd). case_decide; lia.
Qed.

Lemma clear_expired_ok self h pending time :
  cache_inv (h :: pending) self → NoDup (h :: pending) → time = bst_last_certified_time self →
  (∀ e, e ∈ bst_expirations self → time < e.1) →
  ∃ self', clear_expired time self h = Ok self' ∧ cache_inv pending self' ∧
    bst_expirations self' = bst_expirations self ∧ bst_last_certified_time self' = time ∧
    bst_epoch self' = bst_epoch self ∧ bst_db self' = bst_db self ∧
    ∀ d, bst_db_cache self' !! d =
      (v ← bst_db_cache self !! d; if bool_decide (d = h ∧ expiration_of v ≤ time) then None else Some v).
Proof using Type.
  intros Hinv [Hh Hnd]%NoDup_cons -> Hexp. unfold clear_expired.
  destruct (inv_pending _ _ Hinv h) as [v Hv]; [apply elem_of_cons; by left|]. rewrite Hv.
  fold (expiration_of v). destruct (Z.leb_spec (expiration_of v) (bst_last_certified_time self)) as [Hle|Hlt].
  - destruct (free_quota_delete _ _ _ _ _ Hinv Hv eq_refl) as (quota & Hfree & Hfor).
    rewrite Hfree. cbn [mbind result_bind]. eexists. split; [done|]. split_and!; try done.
    + constructor; simpl; try by apply Hinv.
      * done.
      * exact (within_quota_delete _ _ _ _ Hinv Hv).
      * intros t d Hin. destruct (inv_due _ _ Hinv t d Hin) as (w & Hw & Ht). exists w.
        split; [|done]. rewrite lookup_delete_ne; [done|]. intros ->.
        specialize (Hexp _ Hin). simpl in Hexp. simplify_eq. lia.
      * intros d w [Hne Hw]%lookup_delete_Some.
        destruct (inv_indexed _ _ Hinv d w Hw) as [?|[? Hd]]; [by left|right]. split; [done|].
        apply elem_of_cons in Hd as [->|]; done.
      * intros d Hd. rewrite lookup_delete_ne by (intros ->; done).
        apply (inv_pending _ _ Hinv). apply elem_of_cons. by right.
      * intros d w [_ Hw]%lookup_delete_Some. by apply (inv_value _ _ Hinv).
    + intros d. simpl. destruct (decide (d = h)) as [->|Hne].
      * rewrite lookup_delete_eq, Hv. simpl. by rewrite bool_decide_true.
      * rewrite lookup_delete_ne by done. destruct (bst_db_cache self !! d); [|done]. simpl.
        by rewrite bool_decide_false by tauto.
  - eexists. split; [done|]. split_and!; try done.
    + destruct Hinv. constructor; try done.
      * intros d w Hw. destruct (inv_indexed0 d w Hw) as [?|[? Hd]]; [by left|].
        apply elem_of_cons in Hd as [->|]; [simplify_eq; lia|by right].
      * intros d Hd. apply inv_pending0. apply elem_of_cons. by right.
    + intros d. destruct (bst_db_cache self !! d) as [w|] eqn:Hw; [|done]. simpl.
      rewrite bool_decide_false; [done|]. intros [-> ?]. simplify_eq. lia.
Qed.

Lemma clear_all_ok time pending : ∀ self,
  cache_inv pending self → NoDup pending → time = bst_last_certified_time self →
  (∀ e, e ∈ bst_expirations self → time < e.1) →
  ∃ self', fold_result (clear_expired time) self pending = Ok self' ∧ cache_inv [] self' ∧
    bst_last_certified_time self' = time ∧ bst_epoch self' = bst_epoch self ∧
    bst_db self' = bst_db self ∧
    ∀ d, bst_db_cache self' !! d =
      (v ← bst_db_cache self !! d; if expiration_of v <=? time then None else Some v).
Proof using Type.
  induction pending as [|h pending IH]; intros self Hinv Hnd -> Hexp; simpl.
  - exists self. split_and!; try done. intros d. destruct (bst_db_cache self !! d) as [v|] eqn:Hd; [|done].
    simpl. destruct (inv_indexed _ _ Hinv d v Hd) as [[? _]|[_ ?%elem_of_nil]]; [|done].
    destruct (Z.leb_spec (expiration_of v) (bst_last_certified_time self)); [lia|done].
  - destruct (clear_expired_ok self h pending _ Hinv Hnd eq_refl Hexp)
      as (self1 & -> & Hinv1 & Hexp1 & Ht1 & He1 & Hdb1 & Hc1).
    cbn [mbind result_bind]. apply NoDup_cons in Hnd as [_ Hnd].
    destruct (IH self1 Hinv1 Hnd) as (self2 & -> & Hinv2 & Ht2 & He2 & Hdb2 & Hc2); [done|by rewrite Hexp1|].
    exists self2. split_and!; try done; [congruence..|]. intros d. rewrite Hc2, Hc1.
    destruct (bst_db_cache self !! d) as [v|]; [|done]. simpl. case_bool_decide as Hd; [|done].
    simpl. destruct (Z.leb_spec (expiration_of v) (bst_last_certified_time self)); [done|lia].
Qed.

(** The timestamp is advanced and exactly the batches that are due leave the
    cache. *)
Lemma update_certified_ok self time :
  cache_inv [] self → bst_last_certified_time self ≤ time →
  ∃ self', update_certified_timestamp time self = Ok self' ∧ cache_inv [] self' ∧
    bst_last_certified_time self' = time ∧ bst_epoch self' = bst_epoch self ∧
    bst_db self' = bst_db self ∧
    ∀ d, bst_db_cache self' !! d =
      (v ← bst_db_cache self !! d; if expiration_of v <=? time then None else Some v).
Proof using Type.
  intros Hinv Ht. unfold update_certified_timestamp, clear_expired_payload. simpl.
  destruct (Z.leb_spec (bst_last_certified_time self) time); [|lia].
  destruct (expire time (bst_expirations self)) as [rest ret] eqn:He.
  destruct (expire_spec _ _ _ _ (inv_sorted _ _ Hinv) He) as (Hs & Hrest & Hret).
  rewrite Z.max_r by lia. apply (clear_all_ok time (elements ret)
    (with_expirations time rest (with_expirations time (bst_expirations self) self))); simpl.
  - destruct Hinv. constructor; simpl; try done.
    + intros t d [? ?]%Hrest. eauto.
    + intros d v Hd. destruct (inv_indexed0 d v Hd) as [[? Hin]|[_ ?%elem_of_nil]]; [|done].
      destruct (decide (time < expiration_of v)) as [Hlt|Hge].
      * left. split; [done|]. by apply Hrest.
      * right. split; [lia|]. apply elem_of_elements, Hret. exists (expiration_of v).
        split; [done|lia].
    + intros d (t & Hin & _)%elem_of_elements%Hret. destruct (inv_due0 t d Hin) as (v & Hv & _).
      by exists v.
  - apply NoDup_elements.
  - done.
  - intros e [_ ?]%Hrest. done.
Qed.

(** ** Histories *)

(** The calls a store serves in an epoch, one after the other, with the
    information of the batches it has stored because they were fetched and of
    those it has signed: [BatchStore::new], [persist] of verified batches of the
    epoch, [update_certified_timestamp] with times that do not decrease,
    [subscribe], and [save_fetched_batch_to_db] and [persist] of batches that
    were fetched, whose epoch and expiration are the responder's choice. *)
Inductive store_history : list BatchInfo → list BatchInfo → BatchStore → Prop :=
| HistoryNew epoch time db memory_quota db_quota batch_quota signer :
    0 ≤ memory_quota ≤ db_quota → db_quota ≤ u64_MAX → 0 ≤ batch_quota ≤ u64_MAX →
    store_history [] [] (BatchStore_new epoch time db memory_quota db_quota batch_quota signer)
| HistoryPersist fetched signed self reqs self' res :
    store_history fetched signed self → Forall (request_ok self) reqs →
    persist reqs self = (self', Ok res) →
    store_history fetched (signed ++ (sbi_info <$> res)) self'
| HistoryCertified fetched signed self time self' :
    store_history fetched signed self → bst_last_certified_time self ≤ time →
    update_certified_timestamp time self = Ok self' →
    store_history fetched signed self'
| HistorySubscribe fetched signed self key receiver :
    store_history fetched signed self → store_history fetched signed (subscribe key receiver self)
| HistoryFetched fetched signed self v self' r :
    store_history fetched signed self → holds_batch (pv_key v) v →
    save_fetched_batch_to_db v self = (self', r) → r ≠ Panic →
    store_history fetched signed self'
| HistoryPersistFetched fetched signed self v self' res :
    store_history fetched signed self → fetched_ok v →
    persist [v] self = (self', Ok res) →
    store_history (pv_info v :: fetched) signed self'.

(** What every history keeps. *)
Definition history_inv (fetched signed : list BatchInfo) (self : BatchStore) : Prop :=
  cache_inv [] self ∧ available self ∧ epochs_ok fetched self ∧
  ∀ info, info ∈ signed → bi_epoch info = bst_epoch self ∧
    (in_db {| bk_epoch := bi_epoch info; bk_digest := bi_digest info |} (bst_db self) ∨
     foreign fetched self (bi_digest info)).

Lemma history_inv_frame fetched signed self subscribers sent :
  history_inv fetched signed self →
  history_inv fetched signed (with_db (bst_db self) subscribers sent self).
Proof using Type. intros (? & ? & ?). by split; [apply cache_inv_with_db|]. Qed.

Lemma history_inv_new epoch time db memory_quota db_quota batch_quota signer :
  0 ≤ memory_quota ≤ db_quota → db_quota ≤ u64_MAX → 0 ≤ batch_quota ≤ u64_MAX →
  history_inv [] [] (BatchStore_new epoch time db memory_quota db_quota batch_quota signer).
Proof using Type.
  intros. split_and!; [|done|done|by intros info ?%elem_of_nil].
  constructor; simpl; try done.
  - intros a. by rewrite lookup_empty.
  - intros a. simpl. rewrite !used_none by done. lia.
  - constructor.
  - by intros t d ?%elem_of_nil.
  - by intros d ?%elem_of_nil.
  - lia.
Qed.

Lemma history_inv_persist fetched signed self reqs self' res :
  history_inv fetched signed self → Forall (request_ok self) reqs →
  persist reqs self = (self', Ok res) →
  history_inv fetched (signed ++ (sbi_info <$> res)) self'.
Proof using QL.
  intros (Hinv & Hav & Hep & Hsigned) Hreqs. unfold persist, mbind, SM_bind, modify, mret, SM_ret.
  pose proof (persist_all_ok fetched reqs self Hinv Hav Hep Hreqs) as Hp.
  destruct (persist_all reqs self) as [self1 [rs|e|]]; [|done..].
  destruct (notify_all_frame rs self1) as (subscribers & sent & ->). intros [= <- <-].
  apply history_inv_frame. destruct Hp as (Hinv1 & Hav1 & Hep1 & Hepoch & Hkeep & Hrs).
  split_and!; [done..|]. intros info [Hin|Hin]%elem_of_app.
  - destruct (Hsigned info Hin) as [? [?|?]]; (split; [congruence|]); [left; by apply Hkeep|right].
    by eapply foreign_epoch.
  - apply list_elem_of_fmap in Hin as (si & -> & Hsi). apply list_elem_of_fmap in Hsi as ([req ?] & -> & Hr).
    destruct (Hrs _ _ Hr) as (Hreq & Heq & Hdb). simpl. rewrite Heq. split; [|done].
    rewrite Forall_forall in Hreqs. destruct (Hreqs _ Hreq) as (-> & _). done.
Qed.

Lemma history_inv_certified fetched signed self time :
  history_inv fetched signed self → bst_last_certified_time self ≤ time →
  ∃ self', update_certified_timestamp time self = Ok self' ∧ history_inv fetched signed self' ∧
    bst_last_certified_time self' = time ∧
    ∀ d, bst_db_cache self' !! d =
      (v ← bst_db_cache self !! d; if expiration_of v <=? time then None else Some v).
Proof using Type.
  intros (Hinv & Hav & Hep & Hsigned) Ht.
  destruct (update_certified_ok self time Hinv Ht) as (self' & -> & Hinv' & Ht' & He & Hdb & Hc).
  exists self'. split; [done|]. split; [|done].
  assert (∀ d v, bst_db_cache self' !! d = Some v → bst_db_cache self !! d = Some v) as Hsub.
  { intros d v. rewrite Hc. intros (w & Hw & Hv)%bind_Some. case_match; by simplify_eq. }
  split_and!; [done| | |].
  - intros d v Hd%Hsub. rewrite Hdb. by apply (Hav d).
  - intros d v Hd%Hsub. rewrite He. destruct (Hep d v Hd); [by left|right]. by eapply foreign_epoch.
  - intros info Hin. rewrite He, Hdb. destruct (Hsigned info Hin) as [? [?|?]]; (split; [done|]);
      [by left|right]. by eapply foreign_epoch.
Qed.

Lemma history_inv_subscribe fetched signed self key receiver :
  history_inv fetched signed self → history_inv fetched signed (subscribe key receiver self).
Proof using Type.
  intros Hinv. unfold subscribe. case_match; [|by apply history_inv_frame..].
  edestruct notify_frame as (subscribers & sent & ->).
  exact (history_inv_frame fetched signed self subscribers sent Hinv).
Qed.

Lemma history_inv_fetched fetched signed self v self' r :
  history_inv fetched signed self → holds_batch (pv_key v) v →
  save_fetched_batch_to_db v self = (self', r) → r ≠ Panic → history_inv fetched signed self'.
Proof using QL.
  intros (Hinv & Hav & Hep & Hsigned) Hv. unfold save_fetched_batch_to_db.
  destruct (save_batch v (bst_db self)) as [db r'] eqn:Hs. intros [= <- <-] Hr.
  assert (∀ key, in_db key (bst_db self) → in_db key db) as Hkeep.
  { intros key Hin. destruct r' as [[]|e|]; [by eapply in_db_save| |done].
    destruct Hin as (w & Hw & Hh). exists w. split; [|done].
    by rewrite (get_save_batch_failed v (bst_db self) db (Err e)). }
  split_and!; [by apply cache_inv_with_db| |done|].
  - intros d w Hw. by apply Hkeep, (Hav d).
  - intros info Hin. destruct (Hsigned info Hin) as [? [?|?]]; (split; [done|]); [left|by right].
    by apply Hkeep.
Qed.

Lemma history_inv_persist_fetched fetched signed self v self' res :
  history_inv fetched signed self → fetched_ok v → persist [v] self = (self', Ok res) →
  history_inv (pv_info v :: fetched) signed self'.
Proof using QL.
  intros (Hinv & Hav & Hep & Hsigned) Hv.
  unfold persist, persist_all, mbind, SM_bind, modify, mret, SM_ret.
  pose proof (persist_inner_ok self v Hinv Hav Hv) as Hp. cbv zeta in Hp.
  destruct (persist_inner v self) as [self1 [rs|e|]]; [|done..].
  edestruct notify_all_frame as (subscribers & sent & ->). intros [= <- <-].
  destruct Hp as (Hinv1 & Hav1 & Hepoch & Hkeep & Hcache & _). apply history_inv_frame.
  assert (∀ d, foreign fetched self d → foreign (pv_info v :: fetched) self1 d) as Hmono.
  { intros d (info & Hin & ? & ?). exists info. rewrite Hepoch. by split; [apply elem_of_cons; right|]. }
  split_and!; [done..| |].
  - intros d w [Hw|[-> ->]]%Hcache.
    + rewrite Hepoch. destruct (Hep d w Hw); [by left|right; by apply Hmono].
    + destruct (decide (bi_epoch (pv_info v) = bst_epoch self1)); [by left|right].
      exists (pv_info v). by split; [apply elem_of_cons; left|].
  - intros info Hin. rewrite Hepoch. destruct (Hsigned info Hin) as [? [?|?]]; (split; [done|]);
      [left; by apply Hkeep|right; by apply Hmono].
Qed.

Lemma store_history_inv fetched signed self :
  store_history fetched signed self → history_inv fetched signed self.
Proof using QL.
  induction 1 as [| |fetched signed self time self' _ IH Ht Hu| | |].
  - by apply history_inv_new.
  - by eapply history_inv_persist.
  - destruct (history_inv_certified fetched signed self time IH Ht) as (s & Hs & Hinv & _).
    rewrite Hu in Hs. by injection Hs as <-.
  - by apply history_inv_subscribe.
  - by eapply history_inv_fetched.
  - by eapply history_inv_persist_fetched.
Qed.

(** C17. A signature promises the batch: every batch the store has signed for its
    author can be read locally, with transactions that have its digest, at any
    later time - when only its metadata is cached, and also after it expired and
    left the cache - unless a batch of the same digest was fetched with the
    information of another epoch. *)
Theorem signed_batch_available fetched signed self info :
  store_history fetched signed self → info ∈ signed →
  let key := {| bk_epoch := bi_epoch info; bk_digest := bi_digest info |} in
  (∃ value, get_batch_from_local key self = Ok value ∧ holds_batch key value) ∨
  foreign fetched self (bi_digest info).
Proof using QL.
  intros (Hinv & _ & _ & Hsigned)%store_history_inv Hin key.
  destruct (Hsigned info Hin) as [_ [Hdb|?]]; [left|by right]. by apply local_from_db.
Qed.

(** C22. The balances of every author are exactly the quotas less what the
    author's cached batches use, and never negative; nothing cached has
    expired. *)
Theorem store_quota_exact fetched signed self :
  store_history fetched signed self →
  (∀ a q, bst_peer_quota self !! a = Some q →
    q = manager_of self (bst_db_cache self) a ∧
    0 ≤ qm_memory_balance q ≤ qm_memory_quota q ∧ 0 ≤ qm_db_balance q ≤ qm_db_quota q ∧
    0 ≤ qm_batch_balance q ≤ qm_batch_quota q) ∧
  ∀ d v, bst_db_cache self !! d = Some v →
    is_Some (bst_peer_quota self !! author_of v) ∧
    bst_last_certified_time self < expiration_of v ∧
    (expiration_of v, d) ∈ bst_expirations self.
Proof using QL.
  intros (Hinv & _ & _)%store_history_inv. split.
  - intros a q Hq. pose proof (inv_quota _ _ Hinv a) as Ha. rewrite Hq in Ha. subst q.
    split; [done|]. destruct (inv_within _ _ Hinv a) as (? & ? & ?). simpl.
    assert (∀ d v, bst_db_cache self !! d = Some v → 0 ≤ bytes_of v) as Hb
      by (intros d v Hd; by apply (inv_value _ _ Hinv d v Hd)).
    assert (0 ≤ used (λ _, 1) a (bst_db_cache self)) by by apply used_nonneg.
    assert (0 ≤ used bytes_of a (bst_db_cache self)) by by apply used_nonneg.
    assert (0 ≤ used memory_of a (bst_db_cache self)).
    { apply used_nonneg. intros d v Hd. by apply memory_of_bounds, (Hb d). }
    lia.
  - intros d v Hd. split.
    + pose proof (inv_quota _ _ Hinv (author_of v)) as Ha.
      destruct (bst_peer_quota self !! author_of v); [done|]. by destruct (Ha d v Hd).
    + by destruct (inv_indexed _ _ Hinv d v Hd) as [?|[_ ?%elem_of_nil]].
Qed.

(** No call panics as long as the database can be written: storing verified
    batches returns, and a certified time that does not decrease is accepted
    and removes exactly the cached batches that are due. *)
Theorem store_calls_return fetched signed self :
  store_history fetched signed self →
  (∀ reqs, Forall (request_ok self) reqs →
    (∀ req db, req ∈ reqs → (save_batch req db).2 = Ok tt) →
    ∃ self' res, persist reqs self = (self', Ok res)) ∧
  ∀ time, bst_last_certified_time self ≤ time →
    ∃ self', update_certified_timestamp time self = Ok self' ∧
      ∀ d, bst_db_cache self' !! d =
        (v ← bst_db_cache self !! d; if expiration_of v <=? time then None else Some v).
Proof using QL.
  intros Hinv%store_history_inv. split.
  - intros reqs Hreqs Hw. destruct Hinv as (Hinv & Hav & Hep & _).
    pose proof (persist_all_ok fetched reqs self Hinv Hav Hep Hreqs) as Hp.
    unfold persist, mbind, SM_bind, modify, mret, SM_ret.
    destruct (persist_all reqs self) as [self1 [rs|e|]]; [by eauto|done|].
    destruct Hp as (req & db & Hin & Hf). by destruct Hf; apply Hw.
  - intros time Ht. destruct (history_inv_certified fetched signed self time Hinv Ht)
      as (self' & Hu & _ & _ & Hc). by exists self'.
Qed.
End batch_store_safety.
