(* ===== verification/Shuffle.v ===== *)
(** The loop both queues of the quorum store pull batches with: iterators, one
    per author, are shuffled and each advanced by one entry until none is left
    ([while !iters.is_empty() { iters.shuffle(..); iters.retain_mut(..) }] in
    consensus/src/quorum_store/utils.rs and proof_manager.rs).  The shuffle is a
    parameter. *)
From S2P Require Import Prelude.

Section shuffle.
Context {E S A : Type}.
Context (shuffle : nat → list (list A) → list (list A)).
(** What is done with the next entry of an iterator; [false] drops the
    iterator. *)
Context (step : S → A → result E (S * bool)).

(** [retain_mut]; what is left of an iterator is a list. *)
Fixpoint retain_round (st : S) (iters : list (list A)) : result E (S * list (list A)) :=
  match iters with
  | [] => Ok (st, [])
  | [] :: iters => retain_round st iters
  | (entry :: iter) :: iters =>
      '(st, keep) ← step st entry;
      '(st, rest) ← retain_round st iters;
      Ok (st, if (keep : bool) then iter :: rest else rest)
  end.

(** [shuffle n] is what the shuffle does in a round.  An exhausted fuel is a
    panic, which [shuffle_loop_ok] excludes. *)
Fixpoint shuffle_loop (fuel : nat) (st : S) (iters : list (list A)) : result E S :=
  match iters, fuel with
  | [], _ => Ok st
  | _, O => Panic
  | _, Datatypes.S fuel =>
      '(st, iters) ← retain_round st (shuffle fuel iters);
      shuffle_loop fuel st iters
  end.

(** Every iterator is advanced once in a round. *)
Definition rounds (iters : list (list A)) : nat :=
  Datatypes.S (foldr (λ iter n, Nat.max (length iter) n) O iters).

Lemma rounds_enough iters : Forall (λ it, (length it < rounds iters)%nat) iters.
Proof using Type.
  unfold rounds. induction iters as [|it iters IH]; constructor; simpl; [lia|].
  eapply Forall_impl; [exact IH|]. simpl. lia.
Qed.

(** An invariant of the state and the entries still to come. *)
Context (I : S → list A → Prop).
Context (Hperm : ∀ st rest rest', rest ≡ₚ rest' → I st rest → I st rest').
Context (Hstep : ∀ st e rest, I st (e :: rest) →
  ∃ st' keep, step st e = Ok (st', keep) ∧ I st' rest ∧
    (keep = false → ∀ dropped rest', rest = dropped ++ rest' → I st' rest')).

Lemma retain_round_ok iters : ∀ st kept,
  I st (kept ++ mjoin iters) →
  ∃ st' iters', retain_round st iters = Ok (st', iters') ∧ I st' (kept ++ mjoin iters') ∧
    ∀ n, Forall (λ it, (length it < Datatypes.S n)%nat) iters →
         Forall (λ it, (length it < n)%nat) iters'.
Proof using Hperm Hstep.
  induction iters as [|[|e it] iters IH]; intros st kept Hst; cbn [retain_round].
  - exists st, []. done.
  - destruct (IH st kept Hst) as (st' & iters' & -> & Hst' & Hlen). exists st', iters'.
    split_and!; [done..|]. intros n [_ Hn]%Forall_cons. by apply Hlen.
  - destruct (Hstep st e (it ++ kept ++ mjoin iters)) as (st1 & keep & -> & Hst1 & Hdrop).
    { eapply Hperm; [|exact Hst]. cbn [mjoin list_join].
      rewrite (app_assoc it), (Permutation_app_comm it), <- app_assoc. simpl.
      by rewrite <- Permutation_middle. }
    cbn [mbind result_bind]. destruct keep.
    + destruct (IH st1 (it ++ kept)) as (st' & iters' & -> & Hst' & Hlen); [by rewrite <- app_assoc|].
      cbn [mbind result_bind]. exists st', (it :: iters'). split_and!; [done|..].
      * eapply Hperm; [|exact Hst']. cbn [mjoin list_join].
        by rewrite (Permutation_app_comm it), <- app_assoc.
      * intros n [Hit Hn]%Forall_cons. constructor; [simpl in Hit; lia|by apply Hlen].
    + destruct (IH st1 kept) as (st' & iters' & -> & Hst' & Hlen).
      { by apply (Hdrop eq_refl it). }
      cbn [mbind result_bind]. exists st', iters'. split_and!; [done..|].
      intros n [_ Hn]%Forall_cons. by apply Hlen.
Qed.

Context (Hshuffle : ∀ n iters, shuffle n iters ≡ₚ iters).

(** The loop ends, with no entry left. *)
Lemma shuffle_loop_ok fuel : ∀ st iters,
  I st (mjoin iters) → Forall (λ it, (length it < fuel)%nat) iters →
  ∃ st', shuffle_loop fuel st iters = Ok st' ∧ I st' [].
Proof using Hperm Hstep Hshuffle.
  induction fuel as [|fuel IH]; intros st iters Hst Hlen.
  { destruct iters as [|it iters]; [by exists st|]. apply Forall_cons in Hlen as [? _]. lia. }
  destruct iters as [|it iters]; [by exists st|]. cbn [shuffle_loop].
  destruct (retain_round_ok (shuffle fuel (it :: iters)) st []) as (st1 & iters1 & -> & Hst1 & Hlen1).
  { eapply Hperm; [|exact Hst]. simpl app. by rewrite Hshuffle. }
  cbn [mbind result_bind]. apply IH; [exact Hst1|]. apply Hlen1. by rewrite Hshuffle.
Qed.
End shuffle.
