(* ===== verification/ProofQueue.v ===== *)
(** The proof queue of the quorum store (consensus/src/quorum_store/utils.rs):
    the proofs of store a validator can propose, ordered per author, with the
    transactions they hold counted without duplicates.

    [Instant]s feed counters only and are left out; the shuffle of the authors
    is a parameter. *)
From S2P Require Import Prelude Laptos Payload Expirations Shuffle.

Section proof_queue.
Context `{L : Laptos}.

(** ** Keys *)

(** [TxnSummaryWithExpiration] of consensus-types/src/common.rs. *)
Record TxnSummaryWithExpiration : Type := {
  ts_sender : AccountAddress;
  ts_sequence_number : Z;
  ts_expiration_timestamp_secs : Z;
  ts_hash : HashValue;
}.
#[global] Instance TxnSummaryWithExpiration_eq_dec : EqDecision TxnSummaryWithExpiration.
Proof using Type. solve_decision. Defined.
#[global] Instance TxnSummaryWithExpiration_countable : Countable TxnSummaryWithExpiration.
Proof using Type.
  refine (inj_countable'
            (λ t, (ts_sender t, ts_sequence_number t, ts_expiration_timestamp_secs t, ts_hash t))
            (λ '(a, n, e, h), {| ts_sender := a; ts_sequence_number := n;
                                 ts_expiration_timestamp_secs := e; ts_hash := h |}) _).
  by intros [].
Defined.

(** [BatchKey] of utils.rs; the one of types.rs is another. *)
Record utils_BatchKey : Type := { ubk_author : AccountAddress; ubk_batch_id : BatchId }.
#[global] Instance utils_BatchKey_eq_dec : EqDecision utils_BatchKey.
Proof using Type. solve_decision. Defined.
#[global] Instance utils_BatchKey_countable : Countable utils_BatchKey.
Proof using Type.
  refine (inj_countable' (λ k, (ubk_author k, ubk_batch_id k))
            (λ p, {| ubk_author := p.1; ubk_batch_id := p.2 |}) _).
  by intros [].
Defined.

Definition BatchKey_from_info (info : BatchInfo) : utils_BatchKey :=
  {| ubk_author := bi_author info; ubk_batch_id := bi_batch_id info |}.

Record BatchSortKey : Type := { bsk_batch_key : utils_BatchKey; bsk_gas_bucket_start : Z }.
#[global] Instance BatchSortKey_eq_dec : EqDecision BatchSortKey.
Proof using Type. solve_decision. Defined.
#[global] Instance BatchSortKey_countable : Countable BatchSortKey.
Proof using Type.
  refine (inj_countable' (λ k, (bsk_batch_key k, bsk_gas_bucket_start k))
            (λ p, {| bsk_batch_key := p.1; bsk_gas_bucket_start := p.2 |}) _).
  by intros [].
Defined.

Definition BatchSortKey_from_info (info : BatchInfo) : BatchSortKey :=
  {| bsk_batch_key := BatchKey_from_info info; bsk_gas_bucket_start := bi_gas_bucket_start info |}.
Definition BatchSortKey_author (self : BatchSortKey) : AccountAddress :=
  ubk_author (bsk_batch_key self).

(** Ascending in the gas bucket, descending in the batch id.  Authors are not
    compared: a map of sort keys holds those of one author. *)
Definition BatchSortKey_cmp (self other : BatchSortKey) : comparison :=
  match bsk_gas_bucket_start self ?= bsk_gas_bucket_start other with
  | Eq => BatchId_cmp (ubk_batch_id (bsk_batch_key other)) (ubk_batch_id (bsk_batch_key self))
  | ordering => ordering
  end.
Definition sort_key_le (a b : BatchSortKey) : Prop := BatchSortKey_cmp a b ≠ Gt.
#[global] Instance sort_key_le_dec : RelDecision sort_key_le.
Proof using Type. intros a b. unfold sort_key_le. apply _. Defined.

(** ** The queue *)

Record ProofQueue : Type := {
  pq_my_peer_id : AccountAddress;
  pq_author_to_batches : gmap AccountAddress (gmap BatchSortKey BatchInfo);
  pq_batch_to_proof : gmap utils_BatchKey (option ProofOfStore);
  pq_txn_summary_num_occurrences : gmap TxnSummaryWithExpiration Z;
  pq_batch_summaries : gmap utils_BatchKey (list TxnSummaryWithExpiration * Z * bool);
  pq_expirations : TimeExpirations BatchSortKey;
  pq_latest_block_timestamp : Z;
  pq_remaining_txns_with_duplicates : Z;
  pq_remaining_proofs : Z;
  pq_remaining_local_txns : Z;
  pq_remaining_local_proofs : Z;
}.

Definition ProofQueue_new (my_peer_id : AccountAddress) : ProofQueue :=
  {| pq_my_peer_id := my_peer_id; pq_author_to_batches := ∅; pq_batch_to_proof := ∅;
     pq_txn_summary_num_occurrences := ∅; pq_batch_summaries := ∅;
     pq_expirations := TimeExpirations_new; pq_latest_block_timestamp := 0;
     pq_remaining_txns_with_duplicates := 0; pq_remaining_proofs := 0;
     pq_remaining_local_txns := 0; pq_remaining_local_proofs := 0 |}.

(** Updates of the fields. *)
Definition with_batches (author_to_batches : gmap AccountAddress (gmap BatchSortKey BatchInfo))
    (batch_to_proof : gmap utils_BatchKey (option ProofOfStore)) (self : ProofQueue) :
    ProofQueue :=
  {| pq_my_peer_id := pq_my_peer_id self; pq_author_to_batches := author_to_batches;
     pq_batch_to_proof := batch_to_proof;
     pq_txn_summary_num_occurrences := pq_txn_summary_num_occurrences self;
     pq_batch_summaries := pq_batch_summaries self; pq_expirations := pq_expirations self;
     pq_latest_block_timestamp := pq_latest_block_timestamp self;
     pq_remaining_txns_with_duplicates := pq_remaining_txns_with_duplicates self;
     pq_remaining_proofs := pq_remaining_proofs self;
     pq_remaining_local_txns := pq_remaining_local_txns self;
     pq_remaining_local_proofs := pq_remaining_local_proofs self |}.
Definition with_summaries (occurrences : gmap TxnSummaryWithExpiration Z)
    (batch_summaries : gmap utils_BatchKey (list TxnSummaryWithExpiration * Z * bool))
    (self : ProofQueue) : ProofQueue :=
  {| pq_my_peer_id := pq_my_peer_id self; pq_author_to_batches := pq_author_to_batches self;
     pq_batch_to_proof := pq_batch_to_proof self; pq_txn_summary_num_occurrences := occurrences;
     pq_batch_summaries := batch_summaries; pq_expirations := pq_expirations self;
     pq_latest_block_timestamp := pq_latest_block_timestamp self;
     pq_remaining_txns_with_duplicates := pq_remaining_txns_with_duplicates self;
     pq_remaining_proofs := pq_remaining_proofs self;
     pq_remaining_local_txns := pq_remaining_local_txns self;
     pq_remaining_local_proofs := pq_remaining_local_proofs self |}.
Definition with_due (expirations : TimeExpirations BatchSortKey) (latest_block_timestamp : Z)
    (self : ProofQueue) : ProofQueue :=
  {| pq_my_peer_id := pq_my_peer_id self; pq_author_to_batches := pq_author_to_batches self;
     pq_batch_to_proof := pq_batch_to_proof self;
     pq_txn_summary_num_occurrences := pq_txn_summary_num_occurrences self;
     pq_batch_summaries := pq_batch_summaries self; pq_expirations := expirations;
     pq_latest_block_timestamp := latest_block_timestamp;
     pq_remaining_txns_with_duplicates := pq_remaining_txns_with_duplicates self;
     pq_remaining_proofs := pq_remaining_proofs self;
     pq_remaining_local_txns := pq_remaining_local_txns self;
     pq_remaining_local_proofs := pq_remaining_local_proofs self |}.
Definition with_remaining (txns proofs local_txns local_proofs : Z) (self : ProofQueue) :
    ProofQueue :=
  {| pq_my_peer_id := pq_my_peer_id self; pq_author_to_batches := pq_author_to_batches self;
     pq_batch_to_proof := pq_batch_to_proof self;
     pq_txn_summary_num_occurrences := pq_txn_summary_num_occurrences self;
     pq_batch_summaries := pq_batch_summaries self; pq_expirations := pq_expirations self;
     pq_latest_block_timestamp := pq_latest_block_timestamp self;
     pq_remaining_txns_with_duplicates := txns; pq_remaining_proofs := proofs;
     pq_remaining_local_txns := local_txns; pq_remaining_local_proofs := local_proofs |}.

Definition inc_remaining (author : AccountAddress) (num_txns : Z) (self : ProofQueue) :
    result anyhow ProofQueue :=
  txns ← u64_add (pq_remaining_txns_with_duplicates self) num_txns;
  proofs ← u64_add (pq_remaining_proofs self) 1;
  if decide (author = pq_my_peer_id self) then
    local_txns ← u64_add (pq_remaining_local_txns self) num_txns;
    local_proofs ← u64_add (pq_remaining_local_proofs self) 1;
    Ok (with_remaining txns proofs local_txns local_proofs self)
  else Ok (with_remaining txns proofs (pq_remaining_local_txns self)
             (pq_remaining_local_proofs self) self).

Definition dec_remaining (author : AccountAddress) (num_txns : Z) (self : ProofQueue) :
    result anyhow ProofQueue :=
  txns ← u64_sub (pq_remaining_txns_with_duplicates self) num_txns;
  proofs ← u64_sub (pq_remaining_proofs self) 1;
  if decide (author = pq_my_peer_id self) then
    local_txns ← u64_sub (pq_remaining_local_txns self) num_txns;
    local_proofs ← u64_sub (pq_remaining_local_proofs self) 1;
    Ok (with_remaining txns proofs local_txns local_proofs self)
  else Ok (with_remaining txns proofs (pq_remaining_local_txns self)
             (pq_remaining_local_proofs self) self).

(** The loops over the summaries of a batch. *)
Definition add_occurrence (occurrences : gmap TxnSummaryWithExpiration Z)
    (txn_summary : TxnSummaryWithExpiration) : result anyhow (gmap TxnSummaryWithExpiration Z) :=
  n ← u64_add (default 0 (occurrences !! txn_summary)) 1;
  Ok (<[txn_summary := n]> occurrences).
Definition remove_occurrence (occurrences : gmap TxnSummaryWithExpiration Z)
    (txn_summary : TxnSummaryWithExpiration) : result anyhow (gmap TxnSummaryWithExpiration Z) :=
  match occurrences !! txn_summary with
  | Some count =>
      count ← u64_sub count 1;
      Ok (if count =? 0 then delete txn_summary occurrences
          else <[txn_summary := count]> occurrences)
  | None => Ok occurrences
  end.

Definition gc_expired_batch_summaries_without_proofs (now : Z) (self : ProofQueue) : ProofQueue :=
  with_summaries (pq_txn_summary_num_occurrences self)
    (filter (λ e, (e.2.2 || (e.2.1.2 >? now)) = true) (pq_batch_summaries self)) self.

(** [sample!]: the collection runs when the last one is long enough ago;
    [Some now] when it does. *)
Definition sample_gc (now : option Z) (self : ProofQueue) : ProofQueue :=
  match now with
  | Some now => gc_expired_batch_summaries_without_proofs now self
  | None => self
  end.

Definition push (now : option Z) (proof : ProofOfStore) (self : ProofQueue) :
    result anyhow ProofQueue :=
  let info := pos_info proof in
  if bi_expiration info <=? pq_latest_block_timestamp self then Ok self
  else
    let batch_key := BatchKey_from_info info in
    match pq_batch_to_proof self !! batch_key with
    | Some _ => Ok self
    | None =>
        let author := bi_author info in
        let batch_sort_key := BatchSortKey_from_info info in
        let queue := default ∅ (pq_author_to_batches self !! author) in
        let self :=
          with_batches
            (<[author := <[batch_sort_key := info]> queue]> (pq_author_to_batches self))
            (<[batch_key := Some proof]> (pq_batch_to_proof self)) self in
        let self :=
          with_due (add_item batch_sort_key (bi_expiration info) (pq_expirations self))
            (pq_latest_block_timestamp self) self in
        self ←
          match pq_batch_summaries self !! batch_key with
          | Some (txn_summaries, expiration, false) =>
              occurrences ← fold_result add_occurrence (pq_txn_summary_num_occurrences self)
                txn_summaries;
              Ok (with_summaries occurrences
                    (<[batch_key := (txn_summaries, expiration, true)]> (pq_batch_summaries self))
                    self)
          | _ => Ok self
          end;
        self ← inc_remaining author (bi_num_txns info) self;
        Ok (sample_gc now self)
    end.

Definition add_batch_summary (self : ProofQueue)
    (summary : BatchInfo * list TxnSummaryWithExpiration) : result anyhow ProofQueue :=
  let '(batch_info, txn_summaries) := summary in
  let batch_sort_key := BatchSortKey_from_info batch_info in
  let batch_key := bsk_batch_key batch_sort_key in
  let proof_exists_in_author_to_batches :=
    match pq_author_to_batches self !! bi_author batch_info with
    | Some batches => bool_decide (is_Some (batches !! batch_sort_key))
    | None => false
    end in
  let proof_exists_in_batch_to_proof :=
    match pq_batch_to_proof self !! batch_key with Some (Some _) => true | _ => false end in
  let batch_summary_not_already_added :=
    match pq_batch_summaries self !! batch_key with Some (_, added) => negb added | None => true end in
  let proof_exists := proof_exists_in_author_to_batches && proof_exists_in_batch_to_proof in
  occurrences ←
    (if proof_exists && batch_summary_not_already_added
     then fold_result add_occurrence (pq_txn_summary_num_occurrences self) txn_summaries
     else Ok (pq_txn_summary_num_occurrences self));
  Ok (with_summaries occurrences
        (if batch_summary_not_already_added
         then <[batch_key := (txn_summaries, bi_expiration batch_info, proof_exists)]>
                (pq_batch_summaries self)
         else pq_batch_summaries self) self).

Definition add_batch_summaries (now : option Z)
    (batch_summaries : list (BatchInfo * list TxnSummaryWithExpiration)) (self : ProofQueue) :
    result anyhow ProofQueue :=
  self ← fold_result add_batch_summary self batch_summaries;
  Ok (sample_gc now self).

(** The summaries of a batch that leaves the queue. *)
Definition remove_batch_summary (batch_key : utils_BatchKey) (self : ProofQueue) :
    result anyhow ProofQueue :=
  occurrences ←
    match pq_batch_summaries self !! batch_key with
    | Some (txn_summaries, _, true) =>
        fold_result remove_occurrence (pq_txn_summary_num_occurrences self) txn_summaries
    | _ => Ok (pq_txn_summary_num_occurrences self)
    end;
  Ok (with_summaries occurrences (delete batch_key (pq_batch_summaries self)) self).

(** One expired sort key. *)
Definition expire_key (block_timestamp : Z) (self : ProofQueue) (key : BatchSortKey) :
    result anyhow ProofQueue :=
  let author := BatchSortKey_author key in
  match pq_author_to_batches self !! author with
  | None => Ok self
  | Some queue =>
      self ←
        match queue !! key with
        | Some batch =>
            match pq_batch_to_proof self !! bsk_batch_key key with
            | None => Panic
            | Some proof =>
                self ←
                  match proof with
                  | Some _ =>
                      _ ← u64_sub block_timestamp (bi_expiration batch);
                      self ← remove_batch_summary (bsk_batch_key key) self;
                      dec_remaining (bi_author batch) (bi_num_txns batch) self
                  | None => Ok self
                  end;
                Ok (with_batches (pq_author_to_batches self)
                      (delete (bsk_batch_key key) (pq_batch_to_proof self)) self)
            end
        | None => Ok self
        end;
      let queue := delete key queue in
      Ok (with_batches
            (if decide (queue = ∅) then delete author (pq_author_to_batches self)
             else <[author := queue]> (pq_author_to_batches self))
            (pq_batch_to_proof self) self)
  end.

Definition handle_updated_block_timestamp (block_timestamp : Z) (self : ProofQueue) :
    result anyhow ProofQueue :=
  if pq_latest_block_timestamp self <=? block_timestamp then
    let '(rest, expired) := expire block_timestamp (pq_expirations self) in
    fold_result (expire_key block_timestamp) (with_due rest block_timestamp self)
      (elements expired)
  else Panic.

Definition mark_committed_batch (self : ProofQueue) (batch : BatchInfo) :
    result anyhow ProofQueue :=
  let batch_key := BatchKey_from_info batch in
  self ←
    match pq_batch_to_proof self !! batch_key with
    | Some (Some _) => dec_remaining (bi_author batch) (bi_num_txns batch) self
    | _ => Ok self
    end;
  remove_batch_summary batch_key
    (with_batches (pq_author_to_batches self)
       (<[batch_key := None]> (pq_batch_to_proof self)) self).

Definition mark_committed (batches : list BatchInfo) (self : ProofQueue) :
    result anyhow ProofQueue :=
  fold_result mark_committed_batch self batches.

(** ** What remains *)

(** The entries of all authors, and whether the proof of one is still to be
    committed. *)
Definition entries_of (batches : gmap AccountAddress (gmap BatchSortKey BatchInfo)) :
    list (BatchSortKey * BatchInfo) :=
  mjoin (btree_list sort_key_le <$> (map_to_list batches).*2).
Definition queued (self : ProofQueue) : list (BatchSortKey * BatchInfo) :=
  entries_of (pq_author_to_batches self).
Definition uncommitted (self : ProofQueue) (batch_key : utils_BatchKey) : bool :=
  match pq_batch_to_proof self !! batch_key with Some (Some _) => true | _ => false end.
Definition has_summary (self : ProofQueue) (batch_key : utils_BatchKey) : bool :=
  bool_decide (is_Some (pq_batch_summaries self !! batch_key)).

Definition txns_without_summary (self : ProofQueue) (batch_sort_key : BatchSortKey) : Z :=
  let batch_key := bsk_batch_key batch_sort_key in
  if has_summary self batch_key then 0
  else match pq_batch_to_proof self !! batch_key with
       | Some (Some proof) => bi_num_txns (pos_info proof)
       | _ => 0
       end.

Definition remaining_txns_without_duplicates (self : ProofQueue) : result anyhow Z :=
  fold_result
    (λ remaining_txns batches,
       n ← u64_sum (txns_without_summary self <$> (btree_list sort_key_le batches).*1);
       u64_add remaining_txns n)
    (Z.of_nat (size (pq_txn_summary_num_occurrences self)))
    (map_to_list (pq_author_to_batches self)).*2.

Definition num_proofs_without_batch_summary (self : ProofQueue) : nat :=
  length (filter (λ e, (negb (has_summary self (bsk_batch_key e.1)) &&
                        uncommitted self (bsk_batch_key e.1)) = true) (queued self)).
Definition num_proofs_with_batch_summary (self : ProofQueue) : nat :=
  length (filter (λ e, (has_summary self (bsk_batch_key e.1) &&
                        uncommitted self (bsk_batch_key e.1)) = true) (queued self)).

Definition remaining_txns_and_proofs (self : ProofQueue) : result anyhow (Z * Z) :=
  txns ← remaining_txns_without_duplicates self;
  Ok (txns, pq_remaining_proofs self).

(** ** Pulling proofs *)

(** The limits of a request. *)
Record PullLimits : Type := {
  pl_max_txns : Z;
  pl_max_txns_after_filtering : Z;
  pl_soft_max_txns_after_filtering : Z;
  pl_max_bytes : Z;
}.

(** The local variables of [pull_proofs]. *)
Record PullState : Type := {
  pull_ret : list ProofOfStore;
  pull_cur_bytes : Z;
  pull_cur_unique_txns : Z;
  pull_cur_all_txns : Z;
  pull_excluded_txns : Z;
  pull_full : bool;
  pull_filtered_txns : gset TxnSummaryWithExpiration;
}.

Definition with_full (st : PullState) : PullState :=
  {| pull_ret := pull_ret st; pull_cur_bytes := pull_cur_bytes st;
     pull_cur_unique_txns := pull_cur_unique_txns st; pull_cur_all_txns := pull_cur_all_txns st;
     pull_excluded_txns := pull_excluded_txns st; pull_full := true;
     pull_filtered_txns := pull_filtered_txns st |}.

(** The summaries that count at the time of the block: [as_secs] of its
    timestamp against their expiration. *)
Definition live (block_timestamp_secs : Z) (t : TxnSummaryWithExpiration) : bool :=
  block_timestamp_secs <? ts_expiration_timestamp_secs t.

(** [filtered_txns.insert(..) && ..] counted over the summaries of a batch. *)
Fixpoint insert_new (block_timestamp_secs : Z) (summaries : list TxnSummaryWithExpiration)
    (filtered : gset TxnSummaryWithExpiration) : gset TxnSummaryWithExpiration * Z :=
  match summaries with
  | [] => (filtered, 0)
  | t :: summaries =>
      let is_new := bool_decide (t ∉ filtered) in
      let '(filtered, n) := insert_new block_timestamp_secs summaries ({[t]} ∪ filtered) in
      (filtered, if is_new && live block_timestamp_secs t then n + 1 else n)
  end.

(** One entry of an iterator; [false] drops the iterator. *)
Definition pull_one (self : ProofQueue) (excluded_batches : gset BatchInfo) (limits : PullLimits)
    (block_timestamp_secs : Z) (st : PullState) (entry : BatchSortKey * BatchInfo) :
    result anyhow (PullState * bool) :=
  let '(sort_key, batch) := entry in
  if decide (batch ∈ excluded_batches) then
    excluded_txns ← u64_add (pull_excluded_txns st) (bi_num_txns batch);
    Ok ({| pull_ret := pull_ret st; pull_cur_bytes := pull_cur_bytes st;
           pull_cur_unique_txns := pull_cur_unique_txns st;
           pull_cur_all_txns := pull_cur_all_txns st; pull_excluded_txns := excluded_txns;
           pull_full := pull_full st; pull_filtered_txns := pull_filtered_txns st |}, true)
  else
    match pq_batch_to_proof self !! bsk_batch_key sort_key with
    | Some (Some proof) =>
        let summaries := pq_batch_summaries self !! bsk_batch_key sort_key in
        unique_txns ← u64_add (pull_cur_unique_txns st)
          (match summaries with
           | Some (txn_summaries, _, _) =>
               Z.of_nat (length (filter (λ t, (t ∉ pull_filtered_txns st) ∧
                                              live block_timestamp_secs t = true) txn_summaries))
           | None => bi_num_txns batch
           end);
        bytes ← u64_add (pull_cur_bytes st) (bi_num_bytes batch);
        if (bytes >? pl_max_bytes limits) || (unique_txns >? pl_max_txns_after_filtering limits)
        then Ok (with_full st, false)
        else
          all_txns ← u64_add (pull_cur_all_txns st) (bi_num_txns batch);
          if all_txns >? pl_max_txns limits then Ok (with_full st, false)
          else
            let '(filtered_txns, new_txns) :=
              match summaries with
              | Some (txn_summaries, _, _) =>
                  insert_new block_timestamp_secs txn_summaries (pull_filtered_txns st)
              | None => (pull_filtered_txns st, bi_num_txns batch)
              end in
            cur_unique_txns ← u64_add (pull_cur_unique_txns st) new_txns;
            let st :=
              {| pull_ret := pull_ret st ++ [proof]; pull_cur_bytes := bytes;
                 pull_cur_unique_txns := cur_unique_txns; pull_cur_all_txns := all_txns;
                 pull_excluded_txns := pull_excluded_txns st; pull_full := pull_full st;
                 pull_filtered_txns := filtered_txns |} in
            if (bytes =? pl_max_bytes limits) || (all_txns =? pl_max_txns limits) ||
               (cur_unique_txns =? pl_max_txns_after_filtering limits) ||
               (cur_unique_txns >=? pl_soft_max_txns_after_filtering limits)
            then Ok (with_full st, false)
            else Ok (st, true)
    | _ => Ok (st, true)
    end.

Definition excluded_summaries (self : ProofQueue) (excluded_batches : gset BatchInfo) :
    gset TxnSummaryWithExpiration :=
  list_to_set (mjoin ((λ batch_info,
    match pq_batch_summaries self !! BatchKey_from_info batch_info with
    | Some (txn_summaries, _, _) => txn_summaries
    | None => []
    end) <$> elements excluded_batches)).

Definition pull_proofs (shuffle : nat → list (list (BatchSortKey * BatchInfo)) →
                                 list (list (BatchSortKey * BatchInfo)))
    (excluded_batches : gset BatchInfo) (limits : PullLimits) (return_non_full : bool)
    (block_timestamp_secs : Z) (self : ProofQueue) :
    result anyhow (list ProofOfStore * Z * bool) :=
  let st :=
    {| pull_ret := []; pull_cur_bytes := 0; pull_cur_unique_txns := 0; pull_cur_all_txns := 0;
       pull_excluded_txns := 0; pull_full := false;
       pull_filtered_txns := excluded_summaries self excluded_batches |} in
  let iters :=
    (λ queue, reverse (btree_list sort_key_le queue)) <$>
      (map_to_list (pq_author_to_batches self)).*2 in
  st ← shuffle_loop shuffle (pull_one self excluded_batches limits block_timestamp_secs)
         (rounds iters) st iters;
  if pull_full st || return_non_full then
    Ok (sort_by (λ p q, bi_gas_bucket_start (pos_info q) <=? bi_gas_bucket_start (pos_info p))
          (pull_ret st), pull_cur_unique_txns st, negb (pull_full st))
  else Ok ([], 0, negb (pull_full st)).
End proof_queue.
