(* ===== verification/ProofQueueSafety.v ===== *)
(** The proof queue over any history of calls: its indices agree, its counters
    are the sums they stand for, and no call underflows. *)
From S2P Require Import Prelude Laptos Payload Expirations ProofQueue.

Section proof_queue_safety.
Context `{L : Laptos}.

(** ** The queues as one map *)

Definition batch_at (batches : gmap AccountAddress (gmap BatchSortKey BatchInfo))
    (k : BatchSortKey) : option BatchInfo :=
  queue ← batches !! BatchSortKey_author k; queue !! k.

Lemma batch_at_insert batches k info k' :
  batch_at (<[BatchSortKey_author k :=
    <[k := info]> (default ∅ (batches !! BatchSortKey_author k))]> batches) k' =
  if decide (k' = k) then Some info else batch_at batches k'.
Proof using Type.
  unfold batch_at. destruct (decide (k' = k)) as [->|Hne].
  { rewrite lookup_insert_eq. simpl. by rewrite lookup_insert_eq. }
  destruct (decide (BatchSortKey_author k = BatchSortKey_author k')) as [Ha|Ha].
  - rewrite <- Ha, lookup_insert_eq. simpl. rewrite lookup_insert_ne by done.
    destruct (batches !! BatchSortKey_author k); [done|]. simpl. by rewrite lookup_empty.
  - by rewrite lookup_insert_ne.
Qed.

Lemma batch_at_delete batches k queue k' :
  batches !! BatchSortKey_author k = Some queue →
  batch_at (if decide (delete k queue = ∅) then delete (BatchSortKey_author k) batches
            else <[BatchSortKey_author k := delete k queue]> batches) k' =
  if decide (k' = k) then None else batch_at batches k'.
Proof using Type.
  intros Hq. unfold batch_at.
  assert (k' ≠ k → BatchSortKey_author k = BatchSortKey_author k' →
    batches !! BatchSortKey_author k' ≫= (λ q, q !! k') = delete k queue !! k') as Hsame.
  { intros Hne <-. rewrite Hq. simpl. by rewrite lookup_delete_ne. }
  destruct (decide (delete k queue = ∅)) as [He|He], (decide (k' = k)) as [->|Hne].
  - by rewrite lookup_delete_eq.
  - destruct (decide (BatchSortKey_author k = BatchSortKey_author k')) as [Ha|Ha].
    + rewrite (Hsame Hne Ha), He, <- Ha, lookup_delete_eq. by rewrite lookup_empty.
    + by rewrite lookup_delete_ne.
  - rewrite lookup_insert_eq. simpl. by rewrite lookup_delete_eq.
  - destruct (decide (BatchSortKey_author k = BatchSortKey_author k')) as [Ha|Ha].
    + rewrite (Hsame Hne Ha), <- Ha, lookup_insert_eq. done.
    + by rewrite lookup_insert_ne.
Qed.

(** ** Occurrences of transactions *)

Definition occurrence_count (occurrences : gmap TxnSummaryWithExpiration Z)
    (t : TxnSummaryWithExpiration) : Z := default 0 (occurrences !! t).
Definition occurrences_positive (occurrences : gmap TxnSummaryWithExpiration Z) : Prop :=
  ∀ t n, occurrences !! t = Some n → 0 < n.

Lemma count_nonneg occ t : occurrences_positive occ → 0 ≤ occurrence_count occ t.
Proof using Type.
  intros Hp. unfold occurrence_count. destruct (occ !! t) as [n|] eqn:Hn; simpl; [|done].
  specialize (Hp t n Hn). lia.
Qed.

Lemma add_occurrences_Ok l : ∀ occ occ',
  occurrences_positive occ → fold_result add_occurrence occ l = Ok occ' →
  occurrences_positive occ' ∧
  ∀ t, occurrence_count occ' t = occurrence_count occ t + occurrences_in t l.
Proof using Type.
  induction l as [|x l IH]; intros occ occ' Hp; simpl.
  { intros [= <-]. split; [done|]. intros. lia. }
  intros (occ1 & Hadd & Hok)%Ok_bind. pose proof (count_nonneg occ x Hp).
  unfold add_occurrence in Hadd. apply Ok_bind in Hadd as (n & [-> _]%u64_add_Ok & [= <-]).
  fold (occurrence_count occ x) in Hok. edestruct IH as [Hp' Hc]; [|exact Hok|].
  { intros t n [[<- <-]|[_ ?]]%lookup_insert_Some; [lia|]. by eapply Hp. }
  split; [done|]. intros t. rewrite Hc. unfold occurrence_count at 1.
  destruct (decide (x = t)) as [->|Hne].
  - rewrite lookup_insert_eq. simpl. lia.
  - rewrite lookup_insert_ne by done. fold (occurrence_count occ t). lia.
Qed.

(** What was counted can be taken back. *)
Lemma remove_occurrences_Ok l : ∀ occ,
  occurrences_positive occ → (∀ t, occurrences_in t l ≤ occurrence_count occ t) →
  ∃ occ', fold_result remove_occurrence occ l = Ok occ' ∧ occurrences_positive occ' ∧
    ∀ t, occurrence_count occ' t = occurrence_count occ t - occurrences_in t l.
Proof using Type.
  induction l as [|x l IH]; intros occ Hp Hle; simpl.
  { exists occ. split_and!; [done..|]. intros. lia. }
  pose proof (Hle x) as Hx. simpl in Hx. rewrite decide_True in Hx by done.
  pose proof (occurrences_in_nonneg x l).
  destruct (occ !! x) as [n|] eqn:Hn; unfold occurrence_count in Hx; rewrite Hn in Hx; simpl in Hx; [|lia].
  set (occ1 := if n - 1 =? 0 then delete x occ else <[x:=n - 1]> occ).
  assert (remove_occurrence occ x = Ok occ1) as ->.
  { unfold remove_occurrence. rewrite Hn. rewrite u64_sub_le by lia. done. }
  cbn [mbind result_bind].
  assert (∀ t, occurrence_count occ1 t = occurrence_count occ t - if decide (x = t) then 1 else 0)
    as Hc1.
  { intros t. unfold occurrence_count, occ1. case_decide as Hd; [subst t|].
    - rewrite Hn. destruct (Z.eqb_spec (n - 1) 0).
      + rewrite lookup_delete_eq. simpl. lia.
      + rewrite lookup_insert_eq. done.
    - destruct (Z.eqb_spec (n - 1) 0); [rewrite lookup_delete_ne by done|rewrite lookup_insert_ne by done]; lia. }
  destruct (IH occ1) as (occ' & -> & Hp' & Hc').
  - unfold occ1. intros t m. destruct (Z.eqb_spec (n - 1) 0).
    + intros [_ ?]%lookup_delete_Some. by eapply Hp.
    + intros [[<- <-]|[_ ?]]%lookup_insert_Some; [lia|by eapply Hp].
  - intros t. rewrite Hc1. specialize (Hle t). simpl in Hle. lia.
  - exists occ'. split_and!; [done..|]. intros t. rewrite Hc', Hc1. lia.
Qed.

(** How often the counted batches hold a transaction. *)
Definition counted_in (t : TxnSummaryWithExpiration) (_ : utils_BatchKey)
    (s : list TxnSummaryWithExpiration * Z * bool) : Z :=
  if s.2 then occurrences_in t s.1.1 else 0.
Definition counted (summaries : gmap utils_BatchKey (list TxnSummaryWithExpiration * Z * bool))
    (t : TxnSummaryWithExpiration) : Z := map_sum (counted_in t) summaries.

Lemma counted_in_nonneg t key s : 0 ≤ counted_in t key s.
Proof using Type. unfold counted_in. destruct (s.2); [apply occurrences_in_nonneg|done]. Qed.

Lemma counted_positive summaries t :
  0 < counted summaries t →
  ∃ key l e, summaries !! key = Some (l, e, true) ∧ t ∈ l.
Proof using Type.
  unfold counted. induction summaries as [|key s m Hm IH] using map_ind; [done|].
  rewrite map_sum_insert by done. intros Hpos. destruct (decide (0 < counted_in t key s)) as [Hs|Hs].
  - destruct s as [[l e] [|]]; unfold counted_in in Hs; simpl in Hs; [|done].
    exists key, l, e. rewrite lookup_insert_eq. split; [done|]. by apply occurrences_in_positive.
  - pose proof (counted_in_nonneg t key s). destruct IH as (key' & l & e & Hk & Ht); [lia|].
    exists key', l, e. split; [|done]. rewrite lookup_insert_ne; [done|]. intros <-. by rewrite Hm in Hk.
Qed.

Lemma counted_holds summaries key l e t :
  summaries !! key = Some (l, e, true) → t ∈ l → 0 < counted summaries t.
Proof using Type.
  intros Hs Ht%occurrences_in_positive. unfold counted.
  pose proof (map_sum_lookup_le (counted_in t) summaries key _
    (λ k s _, counted_in_nonneg t k s) Hs) as Hle. unfold counted_in at 1 in Hle. simpl in Hle. lia.
Qed.

Definition occurrences_for (occurrences : gmap TxnSummaryWithExpiration Z)
    (summaries : gmap utils_BatchKey (list TxnSummaryWithExpiration * Z * bool)) : Prop :=
  occurrences_positive occurrences ∧
  ∀ t, occurrence_count occurrences t = counted summaries t.

Lemma remove_batch_summary_ok key self :
  occurrences_for (pq_txn_summary_num_occurrences self) (pq_batch_summaries self) →
  ∃ occ, remove_batch_summary key self =
      Ok (with_summaries occ (delete key (pq_batch_summaries self)) self) ∧
    occurrences_for occ (delete key (pq_batch_summaries self)).
Proof using Type.
  intros [Hp Hc]. unfold remove_batch_summary.
  destruct (pq_batch_summaries self !! key) as [[[l e] [|]]|] eqn:Hs.
  - destruct (remove_occurrences_Ok l (pq_txn_summary_num_occurrences self) Hp) as (occ & -> & Hp' & Hc').
    { intros t. rewrite Hc. unfold counted.
      apply (map_sum_lookup_le (counted_in t) (pq_batch_summaries self) key (l, e, true)); [|done].
      intros. apply counted_in_nonneg. }
    exists occ. split; [done|]. split; [done|]. intros t. unfold counted.
    rewrite (map_sum_delete _ _ _ _ Hs), Hc', Hc. done.
  - exists (pq_txn_summary_num_occurrences self). split; [done|]. split; [done|]. intros t.
    unfold counted. rewrite (map_sum_delete _ _ _ _ Hs), Hc. unfold counted_in at 2. simpl.
    unfold counted. lia.
  - exists (pq_txn_summary_num_occurrences self). split; [done|]. by rewrite delete_id.
Qed.

(** ** Counters *)

Definition proofs_sum (f : ProofOfStore → Z)
    (proofs : gmap utils_BatchKey (option ProofOfStore)) : Z :=
  map_sum (λ _ o, match o with Some p => f p | None => 0 end) proofs.

Definition txns_of (p : ProofOfStore) : Z := bi_num_txns (pos_info p).
Definition if_local (me : AccountAddress) (f : ProofOfStore → Z) (p : ProofOfStore) : Z :=
  if decide (bi_author (pos_info p) = me) then f p else 0.

Definition counters_for (proofs : gmap utils_BatchKey (option ProofOfStore)) (self : ProofQueue) :
    Prop :=
  pq_remaining_txns_with_duplicates self = proofs_sum txns_of proofs ∧
  pq_remaining_proofs self = proofs_sum (λ _, 1) proofs ∧
  pq_remaining_local_txns self = proofs_sum (if_local (pq_my_peer_id self) txns_of) proofs ∧
  pq_remaining_local_proofs self = proofs_sum (if_local (pq_my_peer_id self) (λ _, 1)) proofs.

Lemma proofs_sum_lookup_le f proofs key p :
  (∀ k q, proofs !! k = Some (Some q) → 0 ≤ f q) → proofs !! key = Some (Some p) →
  f p ≤ proofs_sum f proofs.
Proof using Type.
  intros Hf Hp.
  apply (map_sum_lookup_le (λ _ o, match o with Some p => f p | None => 0 end) _ key (Some p)); [|done].
  intros k [q|] Hk; [by eapply Hf|done].
Qed.

Lemma if_local_mine me f p : bi_author (pos_info p) = me → if_local me f p = f p.
Proof using Type. intros. unfold if_local. by rewrite decide_True. Qed.
Lemma if_local_other me f p : bi_author (pos_info p) ≠ me → if_local me f p = 0.
Proof using Type. intros. unfold if_local. by rewrite decide_False. Qed.

Lemma inc_remaining_ok proofs p self self' :
  counters_for proofs self → inc_remaining (bi_author (pos_info p)) (txns_of p) self = Ok self' →
  ∃ a b c d, self' = with_remaining a b c d self ∧
    ∀ proofs', (∀ f, proofs_sum f proofs' = f p + proofs_sum f proofs) → counters_for proofs' self'.
Proof using Type.
  intros (H1 & H2 & H3 & H4). unfold inc_remaining. intros Hok.
  apply Ok_bind in Hok as (a & [-> _]%u64_add_Ok & Hok).
  apply Ok_bind in Hok as (b & [-> _]%u64_add_Ok & Hok). case_decide as Hme.
  - apply Ok_bind in Hok as (c & [-> _]%u64_add_Ok & Hok).
    apply Ok_bind in Hok as (d & [-> _]%u64_add_Ok & [= <-]). do 4 eexists. split; [done|].
    intros proofs' Hs. unfold counters_for. simpl. rewrite !Hs, !if_local_mine by done. lia.
  - injection Hok as <-. do 4 eexists. split; [done|].
    intros proofs' Hs. unfold counters_for. simpl. rewrite !Hs, !if_local_other by done. lia.
Qed.

Lemma dec_remaining_ok proofs proofs' key p self author num_txns :
  counters_for proofs self → proofs !! key = Some (Some p) →
  (∀ k q, proofs !! k = Some (Some q) → 0 ≤ txns_of q) →
  (∀ f, proofs_sum f proofs' = proofs_sum f proofs - f p) →
  author = bi_author (pos_info p) → num_txns = txns_of p →
  ∃ a b c d, dec_remaining author num_txns self = Ok (with_remaining a b c d self) ∧
    counters_for proofs' (with_remaining a b c d self).
Proof using Type.
  intros (H1 & H2 & H3 & H4) Hkey Hnn Hsum -> ->. unfold dec_remaining.
  set (me := pq_my_peer_id self) in *.
  assert (∀ q, 0 ≤ if_local me (λ _, 1) q) as Hl1 by (intros q; unfold if_local; by case_decide).
  assert (∀ k q, proofs !! k = Some (Some q) → 0 ≤ if_local me txns_of q) as Hl2
    by (intros k q Hq; unfold if_local; case_decide; [by eapply Hnn|done]).
  pose proof (proofs_sum_lookup_le txns_of proofs key p Hnn Hkey).
  pose proof (proofs_sum_lookup_le (λ _, 1) proofs key p (λ _ _ _, Z.le_0_1) Hkey).
  pose proof (proofs_sum_lookup_le (if_local me txns_of) proofs key p Hl2 Hkey).
  pose proof (proofs_sum_lookup_le (if_local me (λ _, 1)) proofs key p (λ _ q _, Hl1 q) Hkey).
  rewrite (u64_sub_le (pq_remaining_txns_with_duplicates self)) by (rewrite H1; done).
  cbn [mbind result_bind].
  rewrite (u64_sub_le (pq_remaining_proofs self)) by (rewrite H2; done).
  cbn [mbind result_bind]. fold me. case_decide as Hme.
  - rewrite if_local_mine in H5, H6 by done.
    rewrite (u64_sub_le (pq_remaining_local_txns self)) by (rewrite H3; done).
    cbn [mbind result_bind].
    rewrite (u64_sub_le (pq_remaining_local_proofs self)) by (rewrite H4; done).
    cbn [mbind result_bind].
    do 4 eexists. split; [done|]. unfold counters_for. simpl. fold me.
    rewrite !Hsum, !if_local_mine by done. lia.
  - do 4 eexists. split; [done|]. unfold counters_for. simpl. fold me.
    rewrite !Hsum, !if_local_other by done. lia.
Qed.

(** The sum when a proof comes, is committed, and goes. *)
Lemma proofs_sum_add f proofs key p :
  proofs !! key = None → proofs_sum f (<[key := Some p]> proofs) = f p + proofs_sum f proofs.
Proof using Type. intros. unfold proofs_sum. by rewrite map_sum_insert. Qed.
Lemma proofs_sum_commit f proofs key p :
  proofs !! key = Some (Some p) →
  proofs_sum f (<[key := None]> proofs) = proofs_sum f proofs - f p.
Proof using Type. intros. unfold proofs_sum. rewrite (map_sum_replace _ _ key (Some p)) by done. lia. Qed.
Lemma proofs_sum_commit_unknown f proofs key :
  proofs !! key = None ∨ proofs !! key = Some None →
  proofs_sum f (<[key := None]> proofs) = proofs_sum f proofs.
Proof using Type.
  unfold proofs_sum. intros [?|?]; [by rewrite map_sum_insert|].
  rewrite (map_sum_replace _ _ key None) by done. lia.
Qed.
Lemma proofs_sum_delete f proofs key o :
  proofs !! key = Some o →
  proofs_sum f (delete key proofs) =
  proofs_sum f proofs - match o with Some p => f p | None => 0 end.
Proof using Type. intros. unfold proofs_sum. by rewrite (map_sum_delete _ _ key o). Qed.

(** ** The invariant *)

(** [pending] are the sort keys whose expiration is being processed. *)
Record queue_inv (pending : list BatchSortKey) (self : ProofQueue) : Prop := {
  qi_author a queue k info :
    pq_author_to_batches self !! a = Some queue → queue !! k = Some info →
    a = BatchSortKey_author k;
  qi_queue k info :
    batch_at (pq_author_to_batches self) k = Some info →
    k = BatchSortKey_from_info info ∧ is_Some (pq_batch_to_proof self !! bsk_batch_key k);
  qi_unique k k' :
    is_Some (batch_at (pq_author_to_batches self) k) →
    is_Some (batch_at (pq_author_to_batches self) k') →
    bsk_batch_key k = bsk_batch_key k' → k = k';
  qi_proof key p :
    pq_batch_to_proof self !! key = Some (Some p) →
    key = BatchKey_from_info (pos_info p) ∧ 0 ≤ txns_of p ∧
    batch_at (pq_author_to_batches self) (BatchSortKey_from_info (pos_info p)) =
      Some (pos_info p);
  qi_sorted : expirations_sorted (pq_expirations self);
  qi_due t k :
    (t, k) ∈ pq_expirations self →
    ∃ info, batch_at (pq_author_to_batches self) k = Some info ∧ t = bi_expiration info;
  qi_indexed k info :
    batch_at (pq_author_to_batches self) k = Some info →
    pq_latest_block_timestamp self < bi_expiration info ∧
      (bi_expiration info, k) ∈ pq_expirations self ∨
    bi_expiration info ≤ pq_latest_block_timestamp self ∧ k ∈ pending;
  qi_pending k :
    k ∈ pending → ∃ info, batch_at (pq_author_to_batches self) k = Some info ∧
      bi_expiration info ≤ pq_latest_block_timestamp self;
  qi_counters : counters_for (pq_batch_to_proof self) self;
  qi_occurrences : occurrences_for (pq_txn_summary_num_occurrences self) (pq_batch_summaries self);
  qi_added key l e :
    pq_batch_summaries self !! key = Some (l, e, true) → uncommitted self key = true;
}.

Lemma queue_inv_new me : queue_inv [] (ProofQueue_new me).
Proof using Type.
  constructor; simpl; try done.
  - intros k k' [i Hi]. unfold batch_at in Hi. by rewrite lookup_empty in Hi.
  - constructor.
  - by intros t k ?%elem_of_nil.
  - by intros k ?%elem_of_nil.
Qed.

Lemma gc_inv now self : queue_inv [] self → queue_inv [] (sample_gc now self).
Proof using Type.
  destruct now as [now|]; [|done]. intros []. constructor; simpl; try done.
  - destruct qi_occurrences0 as [Hp Hc]. split; [done|]. intros t. rewrite Hc. clear.
    unfold counted. induction (pq_batch_summaries self) as [|key s m Hm IH] using map_ind; [done|].
    rewrite map_sum_insert, IH by done. rewrite map_filter_insert. destruct s as [[l e] added]. simpl.
    case_decide as Hd.
    + rewrite map_sum_insert; [done|]. by apply map_lookup_filter_None_2; left.
    + rewrite delete_id by done. destruct added; [by destruct Hd|]. done.
  - intros key l e [? _]%map_lookup_filter_Some. by eapply qi_added0.
Qed.

(** The entry of a new batch. *)
Lemma batches_inv_push self proof :
  let info := pos_info proof in
  let key := BatchKey_from_info info in
  let k := BatchSortKey_from_info info in
  let batches := <[bi_author info := <[k := info]>
        (default ∅ (pq_author_to_batches self !! bi_author info))]> (pq_author_to_batches self) in
  queue_inv [] self → pq_latest_block_timestamp self < bi_expiration info → 0 ≤ txns_of proof →
  pq_batch_to_proof self !! key = None →
  ∀ occ sums a b c d,
  let self' := with_remaining a b c d (with_summaries occ sums (with_due
    (add_item k (bi_expiration info) (pq_expirations self)) (pq_latest_block_timestamp self)
    (with_batches batches (<[key := Some proof]> (pq_batch_to_proof self)) self))) in
  counters_for (<[key := Some proof]> (pq_batch_to_proof self)) self' →
  occurrences_for occ sums →
  (∀ key' l e, sums !! key' = Some (l, e, true) → key' = key ∨ uncommitted self key' = true) →
  queue_inv [] self'.
Proof using Type.
  intros info key k batches Hinv Hexp Hnn Hnone occ sums a b c d self' Hcounters Hocc Hadded.
  assert (∀ k', batch_at batches k' = if decide (k' = k) then Some info
                                      else batch_at (pq_author_to_batches self) k') as Hat
    by (intros k'; apply (batch_at_insert _ k)).
  assert (∀ k', is_Some (batch_at (pq_author_to_batches self) k') → bsk_batch_key k' ≠ key) as Hnew.
  { intros k' [i Hi] Hk'. destruct (qi_queue _ _ Hinv k' i Hi) as [_ [? Hp]]. by rewrite Hk', Hnone in Hp. }
  constructor; simpl.
  - intros a' queue k' i [[<- <-]|[_ Hq]]%lookup_insert_Some; [|by apply (qi_author _ _ Hinv)].
    intros [[<- _]|[_ Hi]]%lookup_insert_Some; [done|].
    destruct (pq_author_to_batches self !! bi_author info) eqn:Ha; [|simpl in Hi; by rewrite lookup_empty in Hi].
    by eapply (qi_author _ _ Hinv).
  - intros k' i. rewrite Hat. case_decide as Hk'.
    + intros [= <-]. subst. split; [done|]. by rewrite lookup_insert_eq.
    + intros Hi. destruct (qi_queue _ _ Hinv k' i Hi) as [? ?]. split; [done|].
      rewrite lookup_insert_is_Some'. by right.
  - intros k1 k2. rewrite !Hat. case_decide; case_decide; subst; [done|..].
    + intros _ Hk2 Heq. destruct (Hnew _ Hk2). done.
    + intros Hk1 _ Heq. destruct (Hnew _ Hk1). done.
    + by apply (qi_unique _ _ Hinv).
  - intros key' p [[<- [= <-]]|[_ Hp]]%lookup_insert_Some.
    + split_and!; [done..|]. rewrite Hat. by rewrite decide_True.
    + destruct (qi_proof _ _ Hinv key' p Hp) as (? & ? & Hb). split_and!; [done..|].
      rewrite Hat. rewrite decide_False; [done|]. intros Heq.
      by destruct (Hnew (BatchSortKey_from_info (pos_info p)) (mk_is_Some _ _ Hb)); rewrite Heq.
  - apply add_item_sorted, Hinv.
  - intros t k'. rewrite elem_of_add_item, Hat. intros [[= -> ->]|Hin].
    + rewrite decide_True by done. by eauto.
    + destruct (qi_due _ _ Hinv t k' Hin) as (i & Hi & ->). exists i.
      rewrite decide_False; [done|]. intros ->. by destruct (Hnew k (mk_is_Some _ _ Hi)).
  - intros k' i. rewrite Hat, elem_of_add_item. case_decide as Hk'.
    + intros [= <-]. subst. left. auto.
    + intros Hi. destruct (qi_indexed _ _ Hinv k' i Hi) as [[? ?]|[_ ?%elem_of_nil]]; [|done].
      left. auto.
  - by intros k' ?%elem_of_nil.
  - done.
  - done.
  - intros key' l e Hl. unfold uncommitted. simpl. destruct (Hadded key' l e Hl) as [->|Hu].
    + by rewrite lookup_insert_eq.
    + rewrite lookup_insert_ne; [done|]. intros <-. unfold uncommitted in Hu. by rewrite Hnone in Hu.
Qed.

(** Counting the summaries of a batch that was not counted. *)
Lemma count_batch occ sums key l e occ' :
  occurrences_for occ sums → fold_result add_occurrence occ l = Ok occ' →
  (∀ t, map_sum (counted_in t) (<[key := (l, e, true)]> sums) =
        counted sums t + occurrences_in t l) →
  occurrences_for occ' (<[key := (l, e, true)]> sums).
Proof using Type.
  intros [Hp Hc] Hf Hs. destruct (add_occurrences_Ok l occ occ' Hp Hf) as [Hp' Hc'].
  split; [done|]. intros t. rewrite Hc', Hc. unfold counted at 2. by rewrite Hs.
Qed.

Lemma counted_replace sums key l e l' e' added t :
  sums !! key = Some (l', e', false) ∨ sums !! key = None →
  map_sum (counted_in t) (<[key := (l, e, added)]> sums) =
  counted sums t + if (added : bool) then occurrences_in t l else 0.
Proof using Type.
  unfold counted. intros [Hk|Hk].
  - rewrite (map_sum_replace _ _ _ _ _ Hk). unfold counted_in at 2 3. simpl. lia.
  - rewrite map_sum_insert by done. unfold counted_in at 1. simpl. lia.
Qed.

Lemma push_inv now proof self self' :
  queue_inv [] self → 0 ≤ txns_of proof → push now proof self = Ok self' → queue_inv [] self'.
Proof using Type.
  intros Hinv Hnn. unfold push. destruct (Z.leb_spec (bi_expiration (pos_info proof))
    (pq_latest_block_timestamp self)) as [|Hexp]; [by intros [= <-]|].
  destruct (pq_batch_to_proof self !! BatchKey_from_info (pos_info proof)) eqn:Hnone;
    [by intros [= <-]|].
  intros (self1 & Hsum & (self2 & Hinc & [= <-])%Ok_bind)%Ok_bind. apply gc_inv.
  simpl in Hsum.
  set (key := BatchKey_from_info (pos_info proof)) in *.
  assert (∃ occ sums, self1 = with_summaries occ sums (with_due
      (add_item (BatchSortKey_from_info (pos_info proof)) (bi_expiration (pos_info proof))
        (pq_expirations self)) (pq_latest_block_timestamp self)
      (with_batches (<[bi_author (pos_info proof) := <[BatchSortKey_from_info (pos_info proof) := pos_info proof]>
        (default ∅ (pq_author_to_batches self !! bi_author (pos_info proof)))]> (pq_author_to_batches self))
        (<[key := Some proof]> (pq_batch_to_proof self)) self)) ∧
      occurrences_for occ sums ∧
      ∀ key' l e, sums !! key' = Some (l, e, true) → key' = key ∨ uncommitted self key' = true)
    as (occ & sums & -> & Hocc & Hadded).
  { destruct (pq_batch_summaries self !! key) as [[[l e] [|]]|] eqn:Hs.
    - injection Hsum as <-. eexists (pq_txn_summary_num_occurrences self), (pq_batch_summaries self).
      split_and!; [by destruct self|apply Hinv|]. intros. right. by eapply (qi_added _ _ Hinv).
    - apply Ok_bind in Hsum as (occ & Hocc & [= <-]).
      eexists occ, (<[key := (l, e, true)]> (pq_batch_summaries self)). split_and!; [done| |].
      + eapply count_batch; [apply Hinv|done|]. intros t. by rewrite (counted_replace _ _ _ _ l e true t); [|left].
      + intros key' l' e' [[<- _]|[_ Hl]]%lookup_insert_Some; [by left|right].
        by eapply (qi_added _ _ Hinv).
    - injection Hsum as <-. eexists (pq_txn_summary_num_occurrences self), (pq_batch_summaries self).
      split_and!; [by destruct self|apply Hinv|]. intros. right. by eapply (qi_added _ _ Hinv). }
  eapply inc_remaining_ok in Hinc as (a & b & c & d & -> & Hcounters); [|apply Hinv].
  apply batches_inv_push; try done. apply Hcounters. intros f. by apply proofs_sum_add.
Qed.

Lemma add_batch_summary_inv self summary self' :
  queue_inv [] self → add_batch_summary self summary = Ok self' → queue_inv [] self'.
Proof using Type.
  intros Hinv. destruct summary as [info l]. unfold add_batch_summary.
  set (k := BatchSortKey_from_info info). change (bsk_batch_key k) with (BatchKey_from_info info).
  set (key := BatchKey_from_info info). intros (occ & Hocc & [= <-])%Ok_bind.
  assert (∀ occ sums, occurrences_for occ sums →
    (∀ key l e, sums !! key = Some (l, e, true) → uncommitted self key = true) →
    queue_inv [] (with_summaries occ sums self)) as Hframe by (intros; by destruct Hinv).
  destruct (match pq_batch_summaries self !! key with
            | Some (_, added) => negb added | None => true end) eqn:Hnot.
  2: { rewrite andb_false_r in Hocc. injection Hocc as <-. apply Hframe; apply Hinv. }
  rewrite andb_true_r in Hocc.
  assert (∃ l' e', pq_batch_summaries self !! key = Some (l', e', false) ∨
                   pq_batch_summaries self !! key = None) as (l' & e' & Hk).
  { destruct (pq_batch_summaries self !! key) as [[[l' e'] [|]]|]; [done|..].
    - exists l', e'. by left.
    - exists [], 0. by right. }
  set (ex := (match pq_author_to_batches self !! bi_author info with
              | Some batches => bool_decide (is_Some (batches !! k)) | None => false end) &&
             match pq_batch_to_proof self !! key with
             | Some (Some _) => true | _ => false end) in *.
  apply Hframe.
  - destruct ex.
    + eapply count_batch; [apply Hinv|done|]. intros t. by rewrite (counted_replace _ _ _ _ l' e' true t).
    + injection Hocc as <-. destruct (qi_occurrences _ _ Hinv) as [Hp Hc]. split; [done|]. intros t.
      unfold counted. rewrite (counted_replace _ _ _ _ l' e' false t Hk), Hc. lia.
  - intros key' l1 e1 [[<- [= _ _ Hex]]|[_ Hl]]%lookup_insert_Some; [|by eapply (qi_added _ _ Hinv)].
    unfold ex in Hex. apply andb_prop in Hex as [_ Hex]. unfold uncommitted. exact Hex.
Qed.

Lemma add_batch_summaries_inv now l self self' :
  queue_inv [] self → add_batch_summaries now l self = Ok self' → queue_inv [] self'.
Proof using Type.
  intros Hinv (self1 & Hf & [= <-])%Ok_bind. apply gc_inv. revert self Hinv Hf.
  induction l as [|s l IH]; simpl; intros self Hinv Hf; [by injection Hf as <-|].
  apply Ok_bind in Hf as (self2 & Hs & Hf). eapply IH; [|done]. by eapply add_batch_summary_inv.
Qed.

(** An expired entry leaves all indices. *)
Lemma batches_inv_expire self k pending info self' :
  queue_inv (k :: pending) self → k ∉ pending →
  batch_at (pq_author_to_batches self) k = Some info →
  (∀ e, e ∈ pq_expirations self → pq_latest_block_timestamp self < e.1) →
  (∀ a q k' i, pq_author_to_batches self' !! a = Some q → q !! k' = Some i →
    a = BatchSortKey_author k') →
  (∀ k', batch_at (pq_author_to_batches self') k' =
    if decide (k' = k) then None else batch_at (pq_author_to_batches self) k') →
  pq_batch_to_proof self' = delete (bsk_batch_key k) (pq_batch_to_proof self) →
  pq_expirations self' = pq_expirations self →
  pq_latest_block_timestamp self' = pq_latest_block_timestamp self →
  counters_for (pq_batch_to_proof self') self' →
  occurrences_for (pq_txn_summary_num_occurrences self') (pq_batch_summaries self') →
  (∀ key l e, pq_batch_summaries self' !! key = Some (l, e, true) →
    key ≠ bsk_batch_key k ∧ uncommitted self key = true) →
  queue_inv pending self'.
Proof using Type.
  intros Hinv Hk Hinfo Hlater Hauthor Hat Hproofs Hexp Htime Hcounters Hocc Hadded.
  assert (∀ k', batch_at (pq_author_to_batches self') k' ≠ None →
    k' ≠ k ∧ batch_at (pq_author_to_batches self') k' = batch_at (pq_author_to_batches self) k')
    as Hold by (intros k'; rewrite Hat; by case_decide).
  assert (bi_expiration info ≤ pq_latest_block_timestamp self) as Hdue.
  { destruct (qi_pending _ _ Hinv k) as (i & ? & ?); [apply elem_of_cons; by left|by simplify_eq]. }
  constructor; rewrite ?Hexp, ?Htime; try done.
  - intros k' i Hi. destruct (Hold k') as [Hne Heq]; [by rewrite Hi|]. rewrite Heq in Hi.
    destruct (qi_queue _ _ Hinv k' i Hi) as [? Hs]. split; [done|]. rewrite Hproofs.
    rewrite lookup_delete_ne; [done|]. intros Hkk. destruct Hne. symmetry.
    by apply (qi_unique _ _ Hinv); [rewrite Hinfo|rewrite Hi|].
  - intros k1 k2 H1 H2. destruct (Hold k1) as [_ Heq1]; [by destruct H1 as [? ->]|].
    destruct (Hold k2) as [_ Heq2]; [by destruct H2 as [? ->]|]. rewrite Heq1 in H1. rewrite Heq2 in H2.
    by apply (qi_unique _ _ Hinv).
  - intros key p. rewrite Hproofs. intros [Hne Hp]%lookup_delete_Some.
    destruct (qi_proof _ _ Hinv key p Hp) as (-> & ? & Hb). split_and!; [done..|].
    rewrite Hat, decide_False; [done|]. intros <-. by destruct Hne.
  - apply Hinv.
  - intros t k' Hin. destruct (qi_due _ _ Hinv t k' Hin) as (i & Hi & ->). exists i.
    rewrite Hat, decide_False; [done|]. intros ->. specialize (Hlater _ Hin). simpl in Hlater.
    simplify_eq. lia.
  - intros k' i Hi. destruct (Hold k') as [Hne Heq]; [by rewrite Hi|]. rewrite Heq in Hi.
    destruct (qi_indexed _ _ Hinv k' i Hi) as [?|[? Hin]]; [by left|right].
    apply elem_of_cons in Hin as [->|]; done.
  - intros k' Hin. rewrite Hat, decide_False by (intros ->; done). apply (qi_pending _ _ Hinv).
    apply elem_of_cons. by right.
  - intros key l e Hl. destruct (Hadded key l e Hl) as [Hne Hu]. unfold uncommitted in *.
    rewrite Hproofs. by rewrite lookup_delete_ne.
Qed.

Lemma queues_author_delete (batches : gmap AccountAddress (gmap BatchSortKey BatchInfo)) k queue :
  (∀ a q k' i, batches !! a = Some q → q !! k' = Some i → a = BatchSortKey_author k') →
  batches !! BatchSortKey_author k = Some queue →
  ∀ a q k' (i : BatchInfo),
    (if decide (delete k queue = ∅) then delete (BatchSortKey_author k) batches
     else <[BatchSortKey_author k := delete k queue]> batches) !! a = Some q →
    q !! k' = Some i → a = BatchSortKey_author k'.
Proof using Type.
  intros Hwf Hq a q k' i. case_decide.
  - intros [_ Ha]%lookup_delete_Some. by apply Hwf.
  - intros [[<- <-]|[_ Ha]]%lookup_insert_Some; [|by apply Hwf].
    intros [_ Hi]%lookup_delete_Some. by eapply Hwf.
Qed.

Lemma expire_key_ok self k pending :
  queue_inv (k :: pending) self → k ∉ pending →
  (∀ e, e ∈ pq_expirations self → pq_latest_block_timestamp self < e.1) →
  ∃ self', expire_key (pq_latest_block_timestamp self) self k = Ok self' ∧
    queue_inv pending self' ∧ pq_expirations self' = pq_expirations self ∧
    pq_latest_block_timestamp self' = pq_latest_block_timestamp self ∧
    (∀ k', batch_at (pq_author_to_batches self') k' =
      if decide (k' = k) then None else batch_at (pq_author_to_batches self) k') ∧
    pq_batch_to_proof self' = delete (bsk_batch_key k) (pq_batch_to_proof self).
Proof using Type.
  intros Hinv Hk Hlater.
  destruct (qi_pending _ _ Hinv k) as (info & Hinfo & Hdue); [apply elem_of_cons; by left|].
  destruct (qi_queue _ _ Hinv k info Hinfo) as [Hki [o Ho]].
  pose proof Hinfo as Hb. unfold batch_at in Hb. apply bind_Some in Hb as (queue & Hq & Hqk).
  pose proof (queues_author_delete _ k queue (qi_author _ _ Hinv) Hq) as Hwf.
  pose proof (λ k', batch_at_delete _ k queue k' Hq) as Hat.
  unfold expire_key. rewrite Hq, Hqk, Ho. destruct o as [p|]; cbn [mbind result_bind].
  - destruct (qi_proof _ _ Hinv _ p Ho) as (Hkey & Hnn & Hp).
    assert (info = pos_info p) as ->.
    { assert (BatchSortKey_from_info (pos_info p) = k) as Heq.
      { apply (qi_unique _ _ Hinv); [by rewrite Hp|by rewrite Hinfo|]. by rewrite Hkey. }
      rewrite Heq in Hp. by simplify_eq. }
    rewrite u64_sub_le by done. cbn [mbind result_bind].
    destruct (remove_batch_summary_ok (bsk_batch_key k) self (qi_occurrences _ _ Hinv)) as (occ & -> & Hocc).
    cbn [mbind result_bind].
    destruct (dec_remaining_ok (pq_batch_to_proof self) (delete (bsk_batch_key k) (pq_batch_to_proof self))
      (bsk_batch_key k) p (with_summaries occ (delete (bsk_batch_key k) (pq_batch_summaries self)) self)
      (bi_author (pos_info p)) (bi_num_txns (pos_info p))) as (a & b & c & d & -> & Hcounters); try done.
    { apply Hinv. } { intros key q Hkq. by apply (qi_proof _ _ Hinv key q). }
    { intros f. by rewrite (proofs_sum_delete f _ _ (Some p)). }
    cbn [mbind result_bind]. eexists. split; [done|]. split_and!; try done.
    eapply batches_inv_expire; try done.
    intros key l e. simpl. intros [? ?]%lookup_delete_Some. split; [done|]. by eapply (qi_added _ _ Hinv).
  - eexists. split; [done|]. split_and!; try done.
    eapply batches_inv_expire; try done; simpl.
    + destruct (qi_counters _ _ Hinv) as (? & ? & ? & ?). unfold counters_for. simpl.
      rewrite !(proofs_sum_delete _ _ _ None) by done. rewrite !Z.sub_0_r. done.
    + apply Hinv.
    + intros key l e Hl. pose proof (qi_added _ _ Hinv key l e Hl) as Hu. split; [|done].
      intros ->. unfold uncommitted in Hu. by rewrite Ho in Hu.
Qed.

Lemma expire_all_ok pending : ∀ self,
  queue_inv pending self → NoDup pending →
  (∀ e, e ∈ pq_expirations self → pq_latest_block_timestamp self < e.1) →
  ∃ self', fold_result (expire_key (pq_latest_block_timestamp self)) self pending = Ok self' ∧
    queue_inv [] self' ∧
    ∀ k, batch_at (pq_author_to_batches self') k =
      (info ← batch_at (pq_author_to_batches self) k;
       if bi_expiration info <=? pq_latest_block_timestamp self then None else Some info).
Proof using Type.
  induction pending as [|k pending IH]; intros self Hinv Hnd Hlater; simpl.
  - exists self. split_and!; [done..|]. intros k.
    destruct (batch_at (pq_author_to_batches self) k) as [info|] eqn:Hi; [|done]. simpl.
    destruct (qi_indexed _ _ Hinv k info Hi) as [[? _]|[_ ?%elem_of_nil]]; [|done].
    destruct (Z.leb_spec (bi_expiration info) (pq_latest_block_timestamp self)); [lia|done].
  - apply NoDup_cons in Hnd as [Hk Hnd].
    destruct (qi_pending _ _ Hinv k) as (info & Hinfo & Hdue); [apply elem_of_cons; by left|].
    destruct (expire_key_ok self k pending Hinv Hk Hlater) as (self1 & -> & Hinv1 & He1 & Ht1 & Hat1 & _).
    cbn [mbind result_bind]. destruct (IH self1 Hinv1 Hnd) as (self2 & Hf & Hinv2 & Hat2);
      [by rewrite He1, Ht1|]. rewrite Ht1 in Hf. rewrite Hf. exists self2. split_and!; [done..|].
    intros k'. rewrite Hat2, Hat1, Ht1. case_decide as Hd; [subst k'|done]. rewrite Hinfo. simpl.
    by destruct (Z.leb_spec (bi_expiration info) (pq_latest_block_timestamp self)); [|lia].
Qed.

Lemma handle_updated_ok self time :
  queue_inv [] self → pq_latest_block_timestamp self ≤ time →
  ∃ self', handle_updated_block_timestamp time self = Ok self' ∧ queue_inv [] self' ∧
    ∀ k, batch_at (pq_author_to_batches self') k =
      (info ← batch_at (pq_author_to_batches self) k;
       if bi_expiration info <=? time then None else Some info).
Proof using Type.
  intros Hinv Ht. unfold handle_updated_block_timestamp.
  destruct (Z.leb_spec (pq_latest_block_timestamp self) time); [|lia].
  destruct (expire time (pq_expirations self)) as [rest ret] eqn:He.
  destruct (expire_spec _ _ _ _ (qi_sorted _ _ Hinv) He) as (Hs & Hrest & Hret).
  apply (expire_all_ok (elements ret) (with_due rest time self)).
  - destruct Hinv. constructor; simpl; try done.
    + intros t k [? ?]%Hrest. eauto.
    + intros k info Hi. destruct (qi_indexed0 k info Hi) as [[? Hin]|[_ ?%elem_of_nil]]; [|done].
      destruct (decide (time < bi_expiration info)) as [Hlt|Hge].
      * left. split; [done|]. by apply Hrest.
      * right. split; [lia|]. apply elem_of_elements, Hret. exists (bi_expiration info).
        split; [done|lia].
    + intros k (t & Hin & Hle)%elem_of_elements%Hret.
      destruct (qi_due0 t k Hin) as (info & Hi & ->). by exists info.
  - apply NoDup_elements.
  - intros e [_ ?]%Hrest. done.
Qed.

(** ** Commits *)

(** The batch is the one the queue has a proof for, if it has one under its key. *)
Definition commit_matches (proofs : gmap utils_BatchKey (option ProofOfStore)) (b : BatchInfo) :
    Prop :=
  ∀ p, proofs !! BatchKey_from_info b = Some (Some p) → txns_of p = bi_num_txns b.

Lemma with_remaining_id self :
  self = with_remaining (pq_remaining_txns_with_duplicates self) (pq_remaining_proofs self)
    (pq_remaining_local_txns self) (pq_remaining_local_proofs self) self.
Proof using Type. by destruct self. Qed.

Lemma mark_committed_batch_ok self b :
  queue_inv [] self → commit_matches (pq_batch_to_proof self) b →
  ∃ self', mark_committed_batch self b = Ok self' ∧ queue_inv [] self' ∧
    pq_batch_to_proof self' = <[BatchKey_from_info b := None]> (pq_batch_to_proof self) ∧
    pq_author_to_batches self' = pq_author_to_batches self ∧
    pq_latest_block_timestamp self' = pq_latest_block_timestamp self.
Proof using Type.
  intros Hinv Hm. unfold mark_committed_batch. set (key := BatchKey_from_info b) in *.
  assert (∃ a' b' c' d',
    match pq_batch_to_proof self !! key with
    | Some (Some _) => dec_remaining (bi_author b) (bi_num_txns b) self
    | _ => Ok self
    end = Ok (with_remaining a' b' c' d' self) ∧
    counters_for (<[key := None]> (pq_batch_to_proof self)) (with_remaining a' b' c' d' self))
    as (a' & b' & c' & d' & -> & Hcounters).
  { assert (pq_batch_to_proof self !! key = None ∨ pq_batch_to_proof self !! key = Some None →
      counters_for (<[key := None]> (pq_batch_to_proof self)) self) as Hun.
    { intros Hk. destruct (qi_counters _ _ Hinv) as (? & ? & ? & ?). unfold counters_for.
      by rewrite !proofs_sum_commit_unknown. }
    destruct (pq_batch_to_proof self !! key) as [[p|]|] eqn:Hk.
    - destruct (qi_proof _ _ Hinv key p Hk) as (Hkey & _ & _). eapply dec_remaining_ok; try done.
      + apply Hinv.
      + intros k q Hq. by apply (qi_proof _ _ Hinv k q).
      + intros f. by rewrite (proofs_sum_commit f _ _ p).
      + unfold key in Hkey. injection Hkey as Hkey _. done.
      + symmetry. by apply Hm.
    - do 4 eexists. split; [by rewrite (with_remaining_id self) at 1|]. by apply Hun; right.
    - do 4 eexists. split; [by rewrite (with_remaining_id self) at 1|]. by apply Hun; left. }
  cbn [mbind result_bind].
  edestruct (remove_batch_summary_ok key) as (occ & -> & Hocc); [apply Hinv|].
  eexists. split; [done|]. split; [|done].
  destruct Hinv. constructor; simpl; try done.
  - intros k info Hi. destruct (qi_queue0 k info Hi). split; [done|].
    rewrite lookup_insert_is_Some'. by right.
  - intros k p [[_ ?]|[_ ?]]%lookup_insert_Some; [done|]. by apply qi_proof0.
  - intros k l e [Hne ?]%lookup_delete_Some. unfold uncommitted. simpl.
    rewrite lookup_insert_ne by done. by eapply qi_added0.
Qed.

Lemma mark_committed_ok bs : ∀ self,
  queue_inv [] self → Forall (commit_matches (pq_batch_to_proof self)) bs →
  ∃ self', mark_committed bs self = Ok self' ∧ queue_inv [] self' ∧
    pq_author_to_batches self' = pq_author_to_batches self ∧
    pq_latest_block_timestamp self' = pq_latest_block_timestamp self ∧
    ∀ key, pq_batch_to_proof self' !! key =
      if decide (key ∈ BatchKey_from_info <$> bs) then Some None
      else pq_batch_to_proof self !! key.
Proof using Type.
  unfold mark_committed. induction bs as [|b bs IH]; intros self Hinv Hm; cbn [fold_result].
  { exists self. split_and!; [done..|]. intros key. rewrite decide_False; [done|]. apply not_elem_of_nil. }
  apply Forall_cons in Hm as [Hb Hbs].
  destruct (mark_committed_batch_ok self b Hinv Hb) as (self1 & -> & Hinv1 & Hp1 & Ha1 & Ht1).
  cbn [mbind result_bind]. destruct (IH self1 Hinv1) as (self2 & -> & Hinv2 & Ha2 & Ht2 & Hp2).
  { eapply Forall_impl; [exact Hbs|]. intros b' Hb' p. rewrite Hp1.
    intros [[_ ?]|[_ ?]]%lookup_insert_Some; [done|by apply Hb']. }
  exists self2. split_and!; [done..|congruence|congruence|]. intros key. rewrite Hp2, Hp1.
  destruct (decide (key ∈ BatchKey_from_info <$> bs)) as [Hin|Hin].
  { rewrite decide_True; [done|]. apply elem_of_cons. by right. }
  destruct (decide (BatchKey_from_info b = key)) as [<-|Hne].
  - rewrite lookup_insert_eq, decide_True; [done|]. apply elem_of_cons. by left.
  - rewrite lookup_insert_ne, decide_False; [done| |done]. intros [->|?]%elem_of_cons; done.
Qed.

(** ** What is queued *)

(** Every entry is in the queue of its author. *)
Definition authors_ok (batches : gmap AccountAddress (gmap BatchSortKey BatchInfo)) : Prop :=
  ∀ a queue k info, batches !! a = Some queue → queue !! k = Some info →
    a = BatchSortKey_author k.

Lemma elem_of_entries batches k info :
  authors_ok batches → (k, info) ∈ entries_of batches ↔ batch_at batches k = Some info.
Proof using Type.
  intros Hwf. unfold entries_of. rewrite list_elem_of_join. setoid_rewrite list_elem_of_fmap. split.
  - intros (l & Hin & queue & -> & Hq). apply list_elem_of_fmap in Hq as ([a q] & -> & Hq).
    apply elem_of_map_to_list in Hq. apply elem_of_btree_list in Hin. simpl in *.
    unfold batch_at. rewrite <- (Hwf a q k info Hq Hin). by rewrite Hq.
  - unfold batch_at. intros (queue & Hq & Hi)%bind_Some.
    exists (btree_list sort_key_le queue). split; [by apply elem_of_btree_list|].
    exists queue. split; [done|]. apply list_elem_of_fmap. exists (BatchSortKey_author k, queue).
    split; [done|]. by apply elem_of_map_to_list.
Qed.

Lemma NoDup_entries_keys batches : authors_ok batches → NoDup (entries_of batches).*1.
Proof using Type.
  intros Hok. unfold entries_of.
  assert (∀ a queue, (a, queue) ∈ map_to_list batches →
    ∀ k, k ∈ (btree_list sort_key_le queue).*1 → a = BatchSortKey_author k) as Hwf.
  { intros a queue Hq%elem_of_map_to_list k Hk. apply list_elem_of_fmap in Hk as ([k' i] & -> & Hi).
    apply elem_of_btree_list in Hi. by eapply Hok. }
  pose proof (NoDup_fst_map_to_list batches) as Hnd. revert Hnd Hwf.
  induction (map_to_list batches) as [|[a queue] l IH]; simpl; intros Hnd Hwf; [constructor|].
  apply NoDup_cons in Hnd as [Ha Hnd]. rewrite fmap_app. apply NoDup_app. split_and!.
  - unfold btree_list. rewrite merge_sort_Permutation. apply NoDup_fst_map_to_list.
  - intros k Hk Hk'. destruct Ha.
    rewrite (Hwf a queue) with (k := k); [|apply elem_of_cons; by left|done].
    apply list_elem_of_fmap in Hk' as (e & -> & (q & Hin & Hq)%list_elem_of_join).
    apply list_elem_of_fmap in Hq as (queue' & -> & Hq).
    apply list_elem_of_fmap in Hq as ([a' q'] & -> & Hq). simpl in Hin.
    apply list_elem_of_fmap. exists (a', q'). split; [|done]. simpl. symmetry.
    apply (Hwf a' q'); [apply elem_of_cons; by right|]. apply list_elem_of_fmap. eauto.
  - apply IH; [done|]. intros a' q' Hq. apply Hwf, elem_of_cons. by right.
Qed.

Lemma elem_of_queued self k info :
  queue_inv [] self →
  (k, info) ∈ queued self ↔ batch_at (pq_author_to_batches self) k = Some info.
Proof using Type. intros Hinv. apply elem_of_entries. exact (qi_author _ _ Hinv). Qed.

Lemma NoDup_queued_keys self : queue_inv [] self → NoDup (queued self).*1.
Proof using Type. intros Hinv. apply NoDup_entries_keys. exact (qi_author _ _ Hinv). Qed.

Lemma NoDup_queued_batches self :
  queue_inv [] self → NoDup ((λ e, bsk_batch_key e.1) <$> queued self).
Proof using Type.
  intros Hinv. pose proof (NoDup_queued_keys self Hinv) as Hnd.
  change (λ e : BatchSortKey * BatchInfo, bsk_batch_key e.1) with (bsk_batch_key ∘ @fst BatchSortKey BatchInfo).
  rewrite list_fmap_compose. apply NoDup_fmap_2_strong; [|done].
  intros k k' Hk Hk'. apply list_elem_of_fmap in Hk as ([? i] & -> & Hk%elem_of_queued), Hk' as ([? i'] & -> & Hk'%elem_of_queued); [|done..].
  by apply (qi_unique _ _ Hinv); eexists.
Qed.

Lemma proofs_sum_size proofs : proofs_sum (λ _, 1) proofs = Z.of_nat (size (omap id proofs)).
Proof using Type.
  unfold proofs_sum. induction proofs as [|key o m Hm IH] using map_ind; [done|].
  rewrite map_sum_insert, omap_insert, IH by done. destruct o as [p|]; simpl.
  - rewrite map_size_insert_None by (rewrite lookup_omap, Hm; done). lia.
  - by rewrite delete_id by (rewrite lookup_omap, Hm; done).
Qed.

(** The queued entries that are not committed are the proofs. *)
Lemma uncommitted_queued self :
  queue_inv [] self →
  Z.of_nat (length (filter (λ e, uncommitted self (bsk_batch_key e.1) = true) (queued self))) =
  pq_remaining_proofs self.
Proof using Type.
  intros Hinv. destruct (qi_counters _ _ Hinv) as (_ & -> & _). rewrite proofs_sum_size. f_equal.
  rewrite <- size_dom. unfold size, set_size. simpl.
  set (l := filter _ (queued self)).
  assert ((λ e, bsk_batch_key e.1) <$> l ≡ₚ elements (dom (omap id (pq_batch_to_proof self)))) as Hperm.
  { apply NoDup_Permutation; [|apply NoDup_elements|].
    - eapply sublist_NoDup; [apply (NoDup_queued_batches self Hinv)|].
      apply fmap_sublist, sublist_filter.
    - intros key. rewrite elem_of_elements, elem_of_dom, lookup_omap. unfold l.
      rewrite list_elem_of_fmap. setoid_rewrite list_elem_of_filter. split.
      + intros ([k i] & -> & Hu & _). unfold uncommitted in Hu. simpl in *.
        by destruct (pq_batch_to_proof self !! bsk_batch_key k) as [[p|]|].
      + intros [p Hp]. destruct (pq_batch_to_proof self !! key) as [[p'|]|] eqn:Hk; [|done..].
        destruct (qi_proof _ _ Hinv key p' Hk) as (-> & _ & Hb).
        exists (BatchSortKey_from_info (pos_info p'), pos_info p'). split; [done|].
        split; [unfold uncommitted; simpl; by rewrite Hk|]. by apply elem_of_queued. }
  rewrite <- Hperm. by rewrite length_fmap.
Qed.

Lemma summaries_partition self :
  (num_proofs_with_batch_summary self + num_proofs_without_batch_summary self)%nat =
  length (filter (λ e, uncommitted self (bsk_batch_key e.1) = true) (queued self)).
Proof using Type.
  unfold num_proofs_with_batch_summary, num_proofs_without_batch_summary.
  induction (queued self) as [|e l IH]; [done|]. rewrite !filter_cons.
  destruct (has_summary self (bsk_batch_key e.1)), (uncommitted self (bsk_batch_key e.1)); simpl; lia.
Qed.

(** ** Histories *)

(** The calls of the proof manager that return, one after the other. *)
Inductive queue_history (me : AccountAddress) : ProofQueue → Prop :=
| QueueNew : queue_history me (ProofQueue_new me)
| QueuePush now proof self self' :
    queue_history me self → 0 ≤ txns_of proof → push now proof self = Ok self' →
    queue_history me self'
| QueueSummaries now summaries self self' :
    queue_history me self → add_batch_summaries now summaries self = Ok self' →
    queue_history me self'
| QueueTimestamp time self self' :
    queue_history me self → pq_latest_block_timestamp self ≤ time →
    handle_updated_block_timestamp time self = Ok self' → queue_history me self'
| QueueCommitted batches self self' :
    queue_history me self → Forall (commit_matches (pq_batch_to_proof self)) batches →
    mark_committed batches self = Ok self' → queue_history me self'.

Lemma queue_history_inv me self : queue_history me self → queue_inv [] self.
Proof using Type.
  induction 1 as [| | |time self self' _ IH Ht Hu|bs self self' _ IH Hm Hc].
  - apply queue_inv_new.
  - by eapply push_inv.
  - by eapply add_batch_summaries_inv.
  - destruct (handle_updated_ok self time IH Ht) as (s & Hs & Hinv & _). rewrite Hu in Hs.
    by injection Hs as <-.
  - destruct (mark_committed_ok bs self IH Hm) as (s & Hs & Hinv & _). rewrite Hc in Hs.
    by injection Hs as <-.
Qed.

(** The counters of the queue are what they stand for: the remaining proofs
    and transactions, all and of this validator, are those of the proofs that
    are neither committed nor expired, which are also the queued entries with
    and without a summary; a transaction is counted once for every proof whose
    summary holds it, and only while there is one. *)
Theorem queue_counters_exact me self :
  queue_history me self →
  counters_for (pq_batch_to_proof self) self ∧
  Z.of_nat (num_proofs_with_batch_summary self + num_proofs_without_batch_summary self) =
    pq_remaining_proofs self ∧
  (∀ t, occurrence_count (pq_txn_summary_num_occurrences self) t =
        counted (pq_batch_summaries self) t) ∧
  ∀ t, is_Some (pq_txn_summary_num_occurrences self !! t) ↔
       ∃ key l e, pq_batch_summaries self !! key = Some (l, e, true) ∧ t ∈ l ∧
         uncommitted self key = true.
Proof using Type.
  intros Hinv%queue_history_inv. destruct (qi_occurrences _ _ Hinv) as [Hp Hc]. split_and!.
  - apply Hinv.
  - rewrite summaries_partition. by apply uncommitted_queued.
  - done.
  - intros t. split.
    + intros [n Hn]. specialize (Hp t n Hn).
      assert (0 < counted (pq_batch_summaries self) t) as Hpos.
      { rewrite <- Hc. unfold occurrence_count. by rewrite Hn. }
      apply counted_positive in Hpos as (key & l & e & Hs & Ht). exists key, l, e. split_and!; [done..|].
      by eapply (qi_added _ _ Hinv).
    + intros (key & l & e & Hs & Ht & _).
      pose proof (counted_holds (pq_batch_summaries self) key l e t Hs Ht) as Hpos.
      rewrite <- Hc in Hpos. unfold occurrence_count in Hpos.
      by destruct (pq_txn_summary_num_occurrences self !! t).
Qed.

(** No call underflows or finds an index inconsistent: a block timestamp
    that does not decrease is accepted, with exactly the due batches leaving
    the queue, and so is the commit of batches that have the sizes of the
    queued proofs, which leaves their keys marked and all others untouched. *)
Theorem queue_calls_return me self :
  queue_history me self →
  (∀ time, pq_latest_block_timestamp self ≤ time →
    ∃ self', handle_updated_block_timestamp time self = Ok self' ∧
      ∀ k, batch_at (pq_author_to_batches self') k =
        (info ← batch_at (pq_author_to_batches self) k;
         if bi_expiration info <=? time then None else Some info)) ∧
  ∀ batches, Forall (commit_matches (pq_batch_to_proof self)) batches →
    ∃ self', mark_committed batches self = Ok self' ∧
      pq_author_to_batches self' = pq_author_to_batches self ∧
      ∀ key, pq_batch_to_proof self' !! key =
        if decide (key ∈ BatchKey_from_info <$> batches) then Some None
        else pq_batch_to_proof self !! key.
Proof using Type.
  intros Hinv%queue_history_inv. split.
  - intros time Ht. destruct (handle_updated_ok self time Hinv Ht) as (s & ? & _ & ?). by exists s.
  - intros bs Hm. destruct (mark_committed_ok bs self Hinv Hm) as (s & ? & _ & ? & _ & ?). by exists s.
Qed.
End proof_queue_safety.
