(* ===== verification/ProofPull.v ===== *)
(** Pulling proofs from the queue for a block: what [pull_proofs] returns,
    whatever the shuffle of the authors does. *)
From S2P Require Import Prelude Laptos Payload Expirations Shuffle ProofQueue ProofQueueSafety.

Section proof_pull.
Context `{L : Laptos}.

#[local] Abbreviation entry := (BatchSortKey * BatchInfo)%type.

Definition key_of (p : ProofOfStore) : utils_BatchKey := BatchKey_from_info (pos_info p).

(** The summaries the queue has of a batch. *)
Definition summaries_of (self : ProofQueue) (key : utils_BatchKey) :
    list TxnSummaryWithExpiration :=
  match pq_batch_summaries self !! key with Some (l, _, _) => l | None => [] end.

Definition sum_over {A} (f : A → Z) (l : list A) : Z := foldr (λ a n, f a + n) 0 l.

Lemma sum_over_app {A} (f : A → Z) l l' : sum_over f (l ++ l') = sum_over f l + sum_over f l'.
Proof using Type. induction l as [|a l IH]; simpl; [done|]. unfold sum_over in *. lia. Qed.
Lemma sum_over_perm {A} (f : A → Z) l l' : l ≡ₚ l' → sum_over f l = sum_over f l'.
Proof using Type. induction 1; simpl in *; lia. Qed.
Lemma sum_over_nonneg {A} (f : A → Z) l : (∀ a, a ∈ l → 0 ≤ f a) → 0 ≤ sum_over f l.
Proof using Type.
  induction l as [|a l IH]; intros Hf; simpl; [done|].
  pose proof (Hf a (list_elem_of_here _ _)). assert (0 ≤ sum_over f l); [|unfold sum_over in *; lia].
  apply IH. intros b Hb. apply Hf. by apply list_elem_of_further.
Qed.

Lemma StronglySorted_weaken {A} (R S : relation A) l :
  (∀ x y, R x y → S x y) → StronglySorted R l → StronglySorted S l.
Proof using Type.
  intros HRS. induction 1 as [|x l _ IH Hx]; constructor; [done|].
  eapply Forall_impl; [exact Hx|]. intros y. apply HRS.
Qed.

(** ** Distinct transactions *)

Definition summary_set (self : ProofQueue) (ret : list ProofOfStore) :
    gset TxnSummaryWithExpiration :=
  list_to_set (mjoin ((λ p, summaries_of self (key_of p)) <$> ret)).

(** The transactions a block gets out of the proofs: the distinct ones of the
    summaries that are live and not in an excluded batch, and all of the batches
    without a summary. *)
Definition unique_txns (self : ProofQueue) (excluded_batches : gset BatchInfo) (secs : Z)
    (ret : list ProofOfStore) : Z :=
  Z.of_nat (size (filter (λ t, live secs t = true)
    (summary_set self ret ∖ excluded_summaries self excluded_batches))) +
  sum_over (λ p, if has_summary self (key_of p) then 0 else txns_of p) ret.

Lemma insert_new_spec secs l : ∀ filtered,
  insert_new secs l filtered =
  (list_to_set l ∪ filtered,
   Z.of_nat (size (filter (λ t, live secs t = true) (list_to_set l ∖ filtered : gset _)))).
Proof using Type.
  induction l as [|t l IH]; intros filtered; cbn [insert_new list_to_set].
  { f_equal; [set_solver|]. rewrite empty_difference_L, filter_empty_L, size_empty.
    1: done. apply _. }
  rewrite IH. f_equal; [set_solver|].
  assert (list_to_set l ∖ ({[t]} ∪ filtered) =@{gset _} (list_to_set l ∖ filtered) ∖ {[t]}) as -> by set_solver.
  case_bool_decide as Ht; simpl.
  - assert (({[t]} ∪ list_to_set l) ∖ filtered =@{gset _} {[t]} ∪ ((list_to_set l ∖ filtered) ∖ {[t]})) as ->.
    { apply set_eq. intros x. destruct (decide (x = t)) as [->|]; set_solver. }
    rewrite filter_union_L by apply _. destruct (live secs t) eqn:Hl.
    + rewrite filter_singleton_True_L by first [done|apply _]. rewrite size_union, size_singleton; [lia|].
      apply disjoint_singleton_l. rewrite elem_of_filter. set_solver.
    + rewrite filter_singleton_False_L by first [congruence|apply _]. by rewrite (left_id_L ∅ (∪)).
  - assert (t ∈ filtered) as Hin by (destruct (decide (t ∈ filtered)); [done|tauto]).
    f_equal. f_equal. f_equal. apply set_eq. intros x. set_solver.
Qed.

Lemma size_list_to_set_le (l : list TxnSummaryWithExpiration) :
  (size (list_to_set l : gset TxnSummaryWithExpiration) ≤ length l)%nat.
Proof using Type.
  induction l as [|t l IH]; cbn [list_to_set length]; [by rewrite size_empty|].
  rewrite size_union_alt, size_singleton.
  assert (size (list_to_set l ∖ {[t]} : gset TxnSummaryWithExpiration) ≤
          size (list_to_set l : gset TxnSummaryWithExpiration))%nat; [|lia].
  apply subseteq_size. set_solver.
Qed.

(** Counting first never undercounts: a batch may hold a transaction twice. *)
Lemma new_txns_le secs l filtered :
  Z.of_nat (size (filter (λ t, live secs t = true) (list_to_set l ∖ filtered : gset _))) ≤
  Z.of_nat (length (filter (λ t, (t ∉ filtered) ∧ live secs t = true) l)).
Proof using Type.
  apply Nat2Z.inj_le. transitivity
    (size (list_to_set (filter (λ t, (t ∉ filtered) ∧ live secs t = true) l) : gset TxnSummaryWithExpiration)).
  - apply subseteq_size. intros t. rewrite elem_of_filter, elem_of_difference, !elem_of_list_to_set.
    rewrite list_elem_of_filter. tauto.
  - apply size_list_to_set_le.
Qed.

(** ** The loop *)

Section pull.
Context (self : ProofQueue) (excluded_batches : gset BatchInfo) (limits : PullLimits) (secs : Z).

Definition entry_bytes (e : entry) : Z := bi_num_bytes e.2.
(** An upper bound of what an entry adds to the transactions counted. *)
Definition entry_txns (e : entry) : Z :=
  bi_num_txns e.2 + Z.of_nat (length (summaries_of self (bsk_batch_key e.1))).

(** Sizes are not negative, and all that is queued can be added up. *)
Definition queue_fits : Prop :=
  (∀ e, e ∈ queued self → 0 ≤ entry_bytes e ∧ 0 ≤ bi_num_txns e.2) ∧
  sum_over entry_bytes (queued self) ≤ u64_MAX ∧ sum_over entry_txns (queued self) ≤ u64_MAX.

Definition bytes_in (p : ProofOfStore) : Z := bi_num_bytes (pos_info p).

(** A proof that may be pulled. *)
Definition pullable (p : ProofOfStore) : Prop :=
  pq_batch_to_proof self !! key_of p = Some (Some p) ∧ pos_info p ∉ excluded_batches.

(** [rest] are the entries the iterators still hold. *)
Record pull_inv (st : PullState) (rest : list entry) : Prop := {
  pi_bytes : pull_cur_bytes st = sum_over bytes_in (pull_ret st) ∧
    pull_cur_bytes st ≤ pl_max_bytes limits;
  pi_all : pull_cur_all_txns st = sum_over txns_of (pull_ret st) ∧
    pull_cur_all_txns st ≤ pl_max_txns limits;
  pi_unique : pull_cur_unique_txns st = unique_txns self excluded_batches secs (pull_ret st) ∧
    pull_cur_unique_txns st ≤ pl_max_txns_after_filtering limits;
  pi_filtered : pull_filtered_txns st =
    summary_set self (pull_ret st) ∪ excluded_summaries self excluded_batches;
  pi_pullable p : p ∈ pull_ret st → pullable p;
  pi_nodup : NoDup ((key_of <$> pull_ret st) ++ ((λ e, bsk_batch_key e.1) <$> rest));
  pi_rest e : e ∈ rest → e ∈ queued self;
  pi_complete : pull_full st = false →
    ∀ p, pullable p → p ∈ pull_ret st ∨
      (BatchSortKey_from_info (pos_info p), pos_info p) ∈ rest;
  pi_fits : pull_cur_bytes st + sum_over entry_bytes rest ≤ u64_MAX ∧
    pull_cur_all_txns st + sum_over entry_txns rest ≤ u64_MAX ∧
    pull_cur_unique_txns st + sum_over entry_txns rest ≤ u64_MAX ∧
    pull_excluded_txns st + sum_over entry_txns rest ≤ u64_MAX;
}.

Lemma pull_inv_perm st rest rest' : rest ≡ₚ rest' → pull_inv st rest → pull_inv st rest'.
Proof using Type.
  intros Hp []. constructor; try done.
  - by rewrite <- Hp.
  - intros e He. apply pi_rest0. by rewrite Hp.
  - intros Hf p Hpp. rewrite <- Hp. by apply pi_complete0.
  - by rewrite !(sum_over_perm _ rest' rest) by done.
Qed.

Context (Hinv : queue_inv [] self) (Hfits : queue_fits).

Lemma entries_nonneg (l : list entry) :
  (∀ e, e ∈ l → e ∈ queued self) → 0 ≤ sum_over entry_bytes l ∧ 0 ≤ sum_over entry_txns l.
Proof using Hfits.
  intros Hl. destruct Hfits as (Hnn & _ & _). split; apply sum_over_nonneg; intros e He%Hl%Hnn; [lia|].
  unfold entry_txns. lia.
Qed.

(** When something did not fit, what is left need not be looked at. *)
Lemma pull_inv_drop st dropped rest :
  pull_full st = true → pull_inv st (dropped ++ rest) → pull_inv st rest.
Proof using Hfits.
  intros Hf []. destruct (entries_nonneg dropped) as [? ?].
  { intros e He. apply pi_rest0, elem_of_app. by left. }
  rewrite !sum_over_app in pi_fits0. constructor; try done.
  - rewrite fmap_app in pi_nodup0. eapply sublist_NoDup; [exact pi_nodup0|].
    apply sublist_app; [done|]. by apply sublist_inserts_l.
  - intros e He. apply pi_rest0, elem_of_app. by right.
  - congruence.
  - lia.
Qed.

Lemma pull_inv_full st rest : pull_inv st rest → pull_inv (with_full st) rest.
Proof using Type. by intros []. Qed.

Lemma summary_set_snoc ret p :
  summary_set self (ret ++ [p]) = list_to_set (summaries_of self (key_of p)) ∪ summary_set self ret.
Proof using Type.
  unfold summary_set. rewrite fmap_app, join_app, list_to_set_app_L. cbn [fmap list_fmap mjoin list_join].
  rewrite app_nil_r. apply (comm_L (∪)).
Qed.

Lemma unique_txns_snoc ret p :
  let excluded := excluded_summaries self excluded_batches in
  unique_txns self excluded_batches secs (ret ++ [p]) =
  unique_txns self excluded_batches secs ret +
  match pq_batch_summaries self !! key_of p with
  | Some (l, _, _) =>
      Z.of_nat (size (filter (λ t, live secs t = true)
        (list_to_set l ∖ (summary_set self ret ∪ excluded) : gset TxnSummaryWithExpiration)))
  | None => txns_of p
  end.
Proof using Type.
  intros excluded. unfold unique_txns. rewrite summary_set_snoc, sum_over_app.
  fold excluded. set (s := summary_set self ret). unfold summaries_of, has_summary.
  destruct (pq_batch_summaries self !! key_of p) as [[[l ?] ?]|] eqn:Hs; cbn [sum_over foldr].
  - rewrite Hs. rewrite bool_decide_true by done.
    assert ((list_to_set l ∪ s) ∖ excluded =@{gset _}
            (s ∖ excluded) ∪ (list_to_set l ∖ (s ∪ excluded))) as ->.
    { apply set_eq. intros x. rewrite elem_of_union, !elem_of_difference, !elem_of_union.
      destruct (decide (x ∈ s)); tauto. }
    rewrite filter_union_L, size_union; [lia| |apply _].
    intros x. rewrite !elem_of_filter, !elem_of_difference, elem_of_union. tauto.
  - rewrite Hs. rewrite bool_decide_false by (by intros []). cbn [list_to_set].
    rewrite (left_id_L ∅ (∪)). lia.
Qed.

(** The proof of a queued entry. *)
Lemma queued_proof k batch p :
  (k, batch) ∈ queued self → pq_batch_to_proof self !! bsk_batch_key k = Some (Some p) →
  batch = pos_info p ∧ k = BatchSortKey_from_info (pos_info p).
Proof using Hinv.
  intros Hin%elem_of_queued Hp; [|exact Hinv].
  destruct (qi_proof _ _ Hinv _ p Hp) as (Hkey & _ & Hat).
  assert (k = BatchSortKey_from_info (pos_info p)) as ->.
  { apply (qi_unique _ _ Hinv); [by eexists|by eexists|]. by rewrite Hkey. }
  split; [|done]. congruence.
Qed.

(** An entry that is not pulled. *)
Lemma pull_inv_skip st e rest :
  pull_inv st (e :: rest) →
  (∀ p, pullable p → e ≠ (BatchSortKey_from_info (pos_info p), pos_info p)) →
  pull_inv st rest.
Proof using Hfits.
  intros [] Hskip. destruct Hfits as (Hnn & _ & _).
  assert (0 ≤ entry_bytes e ∧ 0 ≤ entry_txns e) as [? ?].
  { destruct (Hnn e) as [? ?]; [apply pi_rest0; by left|]. unfold entry_txns. lia. }
  cbn [sum_over foldr] in pi_fits0. fold (sum_over entry_bytes rest) (sum_over entry_txns rest) in pi_fits0.
  constructor; try done.
  - eapply sublist_NoDup; [exact pi_nodup0|]. apply sublist_app; [done|]. by apply sublist_cons.
  - intros e' He'. apply pi_rest0. by right.
  - intros Hf p Hp. destruct (pi_complete0 Hf p Hp) as [?|[Heq|?]%elem_of_cons]; [by left| |by right].
    by destruct (Hskip p Hp).
  - lia.
Qed.

(** An entry that is pulled. *)
Lemma pull_inv_add st p rest new bytes all filtered :
  let e := (BatchSortKey_from_info (pos_info p), pos_info p) in
  pull_inv st (e :: rest) → pullable p →
  bytes = pull_cur_bytes st + bytes_in p → bytes ≤ pl_max_bytes limits →
  all = pull_cur_all_txns st + txns_of p → all ≤ pl_max_txns limits →
  filtered = list_to_set (summaries_of self (key_of p)) ∪ pull_filtered_txns st →
  unique_txns self excluded_batches secs (pull_ret st ++ [p]) = pull_cur_unique_txns st + new →
  pull_cur_unique_txns st + new ≤ pl_max_txns_after_filtering limits → new ≤ entry_txns e →
  pull_inv {| pull_ret := pull_ret st ++ [p]; pull_cur_bytes := bytes;
    pull_cur_unique_txns := pull_cur_unique_txns st + new; pull_cur_all_txns := all;
    pull_excluded_txns := pull_excluded_txns st; pull_full := pull_full st;
    pull_filtered_txns := filtered |} rest.
Proof using Hfits.
  intros e [] Hp -> Hb -> Ha -> Hu Hmax Hnew. destruct Hfits as (Hnn & _ & _).
  destruct (Hnn e) as [? ?]; [apply pi_rest0; by left|].
  assert (entry_bytes e = bytes_in p) as Heb by done.
  assert (entry_txns e = txns_of p + Z.of_nat (length (summaries_of self (key_of p)))) as Het by done.
  cbn [sum_over foldr] in pi_fits0. fold (sum_over entry_bytes rest) (sum_over entry_txns rest) in pi_fits0.
  constructor; simpl.
  - rewrite sum_over_app. cbn [sum_over foldr]. lia.
  - rewrite sum_over_app. cbn [sum_over foldr]. lia.
  - lia.
  - rewrite summary_set_snoc, pi_filtered0. apply (assoc_L (∪)).
  - intros q [Hq|Hq%list_elem_of_singleton]%elem_of_app; [by apply pi_pullable0|by subst].
  - rewrite fmap_app, <- app_assoc. exact pi_nodup0.
  - intros e' He'. apply pi_rest0. by right.
  - intros Hf q Hq. rewrite elem_of_app, list_elem_of_singleton.
    destruct (pi_complete0 Hf q Hq) as [?|[Heq|?]%elem_of_cons]; [by left; left| |by right].
    left. right. destruct Hp as [Hpp _], Hq as [Hqq _]. apply (f_equal snd) in Heq. simpl in Heq.
    unfold key_of in *. rewrite Heq in Hqq. congruence.
  - assert (0 ≤ txns_of p) by done. lia.
Qed.

(** What a proof adds to the distinct transactions, given those seen. *)
Definition new_in (filtered : gset TxnSummaryWithExpiration) (p : ProofOfStore) : Z :=
  match pq_batch_summaries self !! key_of p with
  | Some (l, _, _) => Z.of_nat (size (filter (λ t, live secs t = true)
        (list_to_set l ∖ filtered : gset TxnSummaryWithExpiration)))
  | None => txns_of p
  end.

Lemma new_in_spec filtered p :
  0 ≤ txns_of p →
  new_in filtered p ≤
    match pq_batch_summaries self !! key_of p with
    | Some (l, _, _) => Z.of_nat (length (filter (λ t, (t ∉ filtered) ∧ live secs t = true) l))
    | None => txns_of p
    end ∧
  new_in filtered p ≤ entry_txns (BatchSortKey_from_info (pos_info p), pos_info p) ∧
  match pq_batch_summaries self !! key_of p with
  | Some (l, _, _) => insert_new secs l filtered
  | None => (filtered, bi_num_txns (pos_info p))
  end = (list_to_set (summaries_of self (key_of p)) ∪ filtered, new_in filtered p).
Proof using Type.
  intros Hnn. unfold entry_txns, new_in, summaries_of. simpl. fold (key_of p) (txns_of p).
  destruct (pq_batch_summaries self !! key_of p) as [[[l ?] ?]|] eqn:Hs.
  - pose proof (new_txns_le secs l filtered).
    pose proof (length_filter (λ t, (t ∉ filtered) ∧ live secs t = true) l).
    rewrite insert_new_spec. split_and!; [lia|lia|done].
  - split_and!; [lia|simpl; lia|]. cbn [list_to_set]. by rewrite (left_id_L ∅ (∪)).
Qed.

Lemma pull_one_ok st e rest :
  pull_inv st (e :: rest) →
  ∃ st' keep, pull_one self excluded_batches limits secs st e = Ok (st', keep) ∧
    pull_inv st' rest ∧
    (keep = false → ∀ dropped rest', rest = dropped ++ rest' → pull_inv st' rest').
Proof using Hinv Hfits.
  intros Hst. cut (∃ st' keep, pull_one self excluded_batches limits secs st e = Ok (st', keep) ∧
    pull_inv st' rest ∧ (keep = false → pull_full st' = true)).
  { intros (st' & keep & Hone & Hst' & Hfull). exists st', keep. split_and!; [done..|].
    intros Hk dropped rest' ->. by eapply pull_inv_drop; [apply Hfull|]. }
  destruct e as [k batch]. unfold pull_one.
  assert ((k, batch) ∈ queued self) as Hin by (apply (pi_rest _ _ Hst); by left).
  destruct Hfits as (Hnn & _ & _). destruct (Hnn _ Hin) as [Hnb Hnt]. simpl in Hnt.
  destruct (entries_nonneg rest) as [Hrb Hrt]; [intros e He; apply (pi_rest _ _ Hst); by right|].
  destruct (pi_fits _ _ Hst) as (F1 & F2 & F3 & F4). cbn [sum_over foldr] in F1, F2, F3, F4.
  fold (sum_over entry_bytes rest) in F1. fold (sum_over entry_txns rest) in F2, F3, F4.
  assert (entry_bytes (k, batch) = bi_num_bytes batch) as Heb by done.
  assert (entry_txns (k, batch) = bi_num_txns batch +
    Z.of_nat (length (summaries_of self (bsk_batch_key k)))) as Het by done.
  rewrite Heb in Hnb, F1. rewrite Het in F2, F3, F4. clear Heb Het.
  destruct (decide (batch ∈ excluded_batches)) as [Hex|Hex].
  { rewrite (u64_add_le (pull_excluded_txns st)) by lia. cbn [mbind result_bind]. do 2 eexists. split; [done|]. split; [|done].
    assert (pull_inv st rest) as [].
    { eapply pull_inv_skip; [done|]. intros p [_ Hp] [= _ ->]. done. }
    constructor; simpl; try done. lia. }
  destruct (pq_batch_to_proof self !! bsk_batch_key k) as [[p|]|] eqn:Hp.
  2,3: do 2 eexists; split; [done|]; split; [|done]; eapply pull_inv_skip; [done|];
       intros q [Hq _] [= -> _]; unfold key_of in Hq; simpl in Hp; congruence.
  destruct (queued_proof k batch p Hin Hp) as [-> ->]. simpl in Hp, F2, F3, F4.
  fold (key_of p) in Hp, F2, F3, F4. cbn [bsk_batch_key BatchSortKey_from_info]. fold (key_of p).
  assert (pullable p) as Hpp by (split; done).
  pose proof (unique_txns_snoc (pull_ret st) p) as Hsnoc. cbv zeta in Hsnoc.
  rewrite <- (pi_filtered _ _ Hst), <- (proj1 (pi_unique _ _ Hst)) in Hsnoc.
  rewrite (u64_add_le (pull_cur_unique_txns st)).
  2: { destruct (pq_batch_summaries self !! key_of p) as [[[l ?] ?]|] eqn:Hs; [|lia].
       unfold summaries_of in F3. rewrite Hs in F3.
       pose proof (length_filter (λ t, (t ∉ pull_filtered_txns st) ∧ live secs t = true) l). lia. }
  cbn [mbind result_bind]. rewrite (u64_add_le (pull_cur_bytes st)) by lia. cbn [mbind result_bind].
  assert (pull_inv (with_full st) rest) as Hfull
    
    by exact (pull_inv_drop (with_full st) [_] rest eq_refl (pull_inv_full _ _ Hst)).
  match goal with |- context [if ?b then _ else _] => destruct b eqn:Hlimit end.
  { do 2 eexists. done. }
  rewrite (u64_add_le (pull_cur_all_txns st)) by lia. cbn [mbind result_bind].
  destruct (Z.gtb_spec (pull_cur_all_txns st + bi_num_txns (pos_info p)) (pl_max_txns limits)) as [|Hall];
    [by do 2 eexists|].
  apply orb_false_iff in Hlimit as [Hmb Hmu]. rewrite Z.gtb_ltb in Hmb, Hmu.
  apply Z.ltb_ge in Hmb, Hmu.
  fold (new_in (pull_filtered_txns st) p) in Hsnoc.
  destruct (new_in_spec (pull_filtered_txns st) p) as (Hle & Hn2 & ->); [done|].
  assert (pull_cur_unique_txns st + new_in (pull_filtered_txns st) p ≤
          pl_max_txns_after_filtering limits) as Hn1 by (unfold txns_of in Hle; lia).
  rewrite u64_add_le.
  2: { unfold entry_txns in Hn2. simpl in Hn2. fold (key_of p) in Hn2. lia. }
  cbn [mbind result_bind].
  pose proof (pull_inv_add st p rest (new_in _ p) _ _ _ Hst Hpp eq_refl Hmb eq_refl Hall eq_refl Hsnoc Hn1 Hn2) as Hadd.
  destruct (_ || _); do 2 eexists; (split; [done|]); (split; [|done]); [|exact Hadd].
  exact (pull_inv_full _ _ Hadd).
Qed.
End pull.

Lemma unique_txns_perm self excluded_batches secs ret ret' :
  ret ≡ₚ ret' →
  unique_txns self excluded_batches secs ret = unique_txns self excluded_batches secs ret'.
Proof using Type.
  intros Hp. unfold unique_txns. rewrite (sum_over_perm _ _ _ Hp). f_equal. f_equal. f_equal. f_equal.
  f_equal. unfold summary_set. apply list_to_set_perm_L. by rewrite Hp.
Qed.

Lemma entries_iters batches :
  mjoin ((λ queue, reverse (btree_list sort_key_le queue)) <$> (map_to_list batches).*2) ≡ₚ
  entries_of batches.
Proof using Type.
  unfold entries_of. induction (map_to_list batches).*2 as [|q l IH]; [done|].
  cbn [fmap list_fmap mjoin list_join]. by rewrite reverse_Permutation, IH.
Qed.

(** A request for nothing is answered with nothing. *)
Definition limits_ok (limits : PullLimits) : Prop :=
  0 ≤ pl_max_bytes limits ∧ 0 ≤ pl_max_txns limits ∧ 0 ≤ pl_max_txns_after_filtering limits.

Lemma pull_inv_start self excluded_batches limits secs rest :
  queue_inv [] self → queue_fits self → limits_ok limits → rest ≡ₚ queued self →
  pull_inv self excluded_batches limits secs
    {| pull_ret := []; pull_cur_bytes := 0; pull_cur_unique_txns := 0; pull_cur_all_txns := 0;
       pull_excluded_txns := 0; pull_full := false;
       pull_filtered_txns := excluded_summaries self excluded_batches |} rest.
Proof using Type.
  intros Hinv (Hnn & Hb & Ht) (? & ? & ?) Hp.
  eapply pull_inv_perm; [symmetry; exact Hp|].
  assert (summary_set self [] = ∅) as Hs by done.
  constructor; simpl; try done.
  - unfold unique_txns. rewrite Hs, empty_difference_L, filter_empty_L, size_empty by apply _. done.
  - rewrite Hs. by rewrite (left_id_L ∅ (∪)).
  - by intros p ?%elem_of_nil.
  - by apply NoDup_queued_batches.
  - intros _ p [Hpp _]. right. apply elem_of_queued; [done|].
    by destruct (qi_proof _ _ Hinv _ p Hpp) as (_ & _ & ?).
Qed.

Lemma pull_proofs_ok self excluded_batches limits return_non_full secs shuffle :
  queue_inv [] self → queue_fits self → limits_ok limits →
  (∀ n iters, shuffle n iters ≡ₚ iters) →
  ∃ ret num_unique fully_utilized,
    pull_proofs shuffle excluded_batches limits return_non_full secs self =
      Ok (ret, num_unique, fully_utilized) ∧
    (∀ p, p ∈ ret → pullable self excluded_batches p) ∧ NoDup (key_of <$> ret) ∧
    StronglySorted (λ p q, bi_gas_bucket_start (pos_info q) ≤ bi_gas_bucket_start (pos_info p)) ret ∧
    sum_over bytes_in ret ≤ pl_max_bytes limits ∧ sum_over txns_of ret ≤ pl_max_txns limits ∧
    num_unique = unique_txns self excluded_batches secs ret ∧
    num_unique ≤ pl_max_txns_after_filtering limits ∧
    (fully_utilized = true →
      if return_non_full then ∀ p, pullable self excluded_batches p → p ∈ ret else ret = []).
Proof using Type.
  intros Hinv Hfits Hlim Hshuffle. unfold pull_proofs.
  set (iters := (λ queue, reverse (btree_list sort_key_le queue)) <$> _).
  edestruct (shuffle_loop_ok shuffle (pull_one self excluded_batches limits secs)
    (pull_inv self excluded_batches limits secs) (pull_inv_perm self excluded_batches limits secs)
    (pull_one_ok self excluded_batches limits secs Hinv Hfits) Hshuffle (rounds iters))
    as (st & -> & Hst).
  { apply pull_inv_start; [done..|]. apply entries_iters. }
  { apply rounds_enough. }
  cbn [mbind result_bind]. destruct (pull_full st || return_non_full) eqn:Hf.
  - set (sorted := sort_by _ _). assert (sorted ≡ₚ pull_ret st) as Hperm by apply sort_by_Permutation.
    exists sorted, (pull_cur_unique_txns st), (negb (pull_full st)). destruct Hst. split_and!; try done.
    + intros p. rewrite Hperm. apply pi_pullable0.
    + rewrite Hperm. by rewrite app_nil_r in pi_nodup0.
    + subst sorted. eapply (StronglySorted_weaken (λ p q, (bi_gas_bucket_start (pos_info q) <=?
        bi_gas_bucket_start (pos_info p)) = true)); [intros p q; apply Z.leb_le|].
      apply sort_by_sorted; intros *; rewrite ?Z.leb_gt, ?Z.leb_le; lia.
    + rewrite (sum_over_perm _ _ _ Hperm). lia.
    + rewrite (sum_over_perm _ _ _ Hperm). lia.
    + rewrite (unique_txns_perm _ _ _ _ _ Hperm). lia.
    + lia.
    + intros Hnf%negb_true_iff. rewrite Hnf in Hf. simpl in Hf. subst return_non_full.
      intros p Hp. rewrite Hperm. destruct (pi_complete0 Hnf p Hp) as [?|?%elem_of_nil]; done.
  - apply orb_false_iff in Hf as [Hf ->]. exists [], 0, (negb (pull_full st)).
    destruct Hlim as (? & ? & ?). split_and!; try done.
    + by intros p ?%elem_of_nil.
    + constructor.
    + constructor.
    + unfold unique_txns. replace (summary_set self []) with (∅ : gset TxnSummaryWithExpiration) by done.
      by rewrite empty_difference_L, filter_empty_L, size_empty by apply _.
Qed.
(** What a block gets from the queue, whatever order the authors are visited
    in: only proofs that are neither committed nor expired nor excluded, each
    batch once, in descending order of their gas buckets, within the limits on
    bytes, on transactions and on distinct transactions, the last counted
    exactly; and all there is when the queue is reported to be fully used. *)
Theorem pull_proofs_spec me self excluded_batches limits return_non_full secs shuffle :
  queue_history me self → queue_fits self → limits_ok limits →
  (∀ n iters, shuffle n iters ≡ₚ iters) →
  ∃ ret num_unique fully_utilized,
    pull_proofs shuffle excluded_batches limits return_non_full secs self =
      Ok (ret, num_unique, fully_utilized) ∧
    (∀ p, p ∈ ret → pullable self excluded_batches p) ∧ NoDup (key_of <$> ret) ∧
    StronglySorted (λ p q, bi_gas_bucket_start (pos_info q) ≤ bi_gas_bucket_start (pos_info p)) ret ∧
    sum_over bytes_in ret ≤ pl_max_bytes limits ∧ sum_over txns_of ret ≤ pl_max_txns limits ∧
    num_unique = unique_txns self excluded_batches secs ret ∧
    num_unique ≤ pl_max_txns_after_filtering limits ∧
    (fully_utilized = true →
      if return_non_full then ∀ p, pullable self excluded_batches p → p ∈ ret else ret = []).
Proof using Type. intros Hinv%queue_history_inv. by apply pull_proofs_ok. Qed.
End proof_pull.
