(* ===== verification/ProofManager.v ===== *)
(** The proof manager of the quorum store (consensus/src/quorum_store/
    proof_manager.rs) with the filter of a payload request
    (consensus-types/src/common.rs): it answers the requests of consensus for
    payload out of the proof queue, filled up with batches that have no proof
    yet, and reports back pressure. *)
From S2P Require Import Prelude Laptos Payload Expirations Shuffle BatchStore ProofQueue.

(** The batches of an author in their order; the batch store that a [BatchQueue]
    shares is an argument. *)
Abbreviation BatchQueue := (gmap AccountAddress (gmap BatchSortKey BatchInfo)).

Section proof_manager.
Context `{L : Laptos} `{Q : !QuorumStoreStorage} `{!CryptoHash BatchInfo}.

(** ** PayloadFilter *)

(** [TransactionSummary] of the laptos crate. *)
Record TransactionSummary : Type := {
  sum_sender : AccountAddress;
  sum_sequence_number : Z;
  sum_hash : HashValue;
}.
#[global] Instance TransactionSummary_eq_dec : EqDecision TransactionSummary.
Proof using Type. solve_decision. Defined.
#[global] Instance TransactionSummary_countable : Countable TransactionSummary.
Proof using Type.
  refine (inj_countable' (λ t, (sum_sender t, sum_sequence_number t, sum_hash t))
            (λ '(a, n, h), {| sum_sender := a; sum_sequence_number := n; sum_hash := h |}) _).
  by intros [].
Defined.
Definition TransactionSummary_of (txn : SignedTransaction) : TransactionSummary :=
  {| sum_sender := SignedTransaction_sender txn;
     sum_sequence_number := SignedTransaction_sequence_number txn;
     sum_hash := SignedTransaction_committed_hash txn |}.

Inductive PayloadFilter : Type :=
| FilterDirectMempool (excluded_txns : list TransactionSummary)
| FilterInQuorumStore (excluded_proofs : gset BatchInfo)
| FilterEmpty.

Definition is_direct (self : Payload) : bool :=
  match self with DirectMempool _ => true | _ => false end.

(** The batches of one payload that are excluded, in the order of insertion. *)
Definition excluded_by (payload : Payload) : list BatchInfo :=
  match payload with
  | InQuorumStore proof_with_status => pos_info <$> pwd_proofs proof_with_status
  | InQuorumStoreWithLimit proof_with_status =>
      pos_info <$> pwd_proofs (pwl_proof_with_data proof_with_status)
  | QuorumStoreInlineHybrid inline_batches proof_with_data _ =>
      (pos_info <$> pwd_proofs proof_with_data) ++ inline_batches.*1
  | DirectMempool _ => []
  | OptQuorumStore opt_qs_payload =>
      bp_batch_summary _ (oqs_opt_batches opt_qs_payload) ++
      (pos_info <$> bp_batch_summary _ (oqs_proofs opt_qs_payload))
  end.

Definition direct_summaries (payload : Payload) : list TransactionSummary :=
  match payload with
  | DirectMempool txns => TransactionSummary_of <$> txns
  | _ => []
  end.

Definition PayloadFilter_from (exclude_payloads : list Payload) : PayloadFilter :=
  match exclude_payloads with
  | [] => FilterEmpty
  | _ =>
      if existsb is_direct exclude_payloads
      then FilterDirectMempool (mjoin (direct_summaries <$> exclude_payloads))
      else FilterInQuorumStore (list_to_set (mjoin (excluded_by <$> exclude_payloads)))
  end.

(** ** Batches without a proof *)


Definition add_batches (batches : list BatchInfo) (self : BatchQueue) : BatchQueue :=
  foldl (λ self batch,
    <[bi_author batch := <[BatchSortKey_from_info batch := batch]>
                           (default ∅ (self !! bi_author batch))]> self) self batches.

Definition remove_batch (batch : BatchInfo) (self : BatchQueue) : BatchQueue :=
  match self !! bi_author batch with
  | Some batch_tree => <[bi_author batch := delete (BatchSortKey_from_info batch) batch_tree]> self
  | None => self
  end.

Definition remove_expired_batches (now : Z) (self : BatchQueue) : BatchQueue :=
  (λ batch_tree : gmap BatchSortKey BatchInfo,
     filter (λ e, BatchInfo_is_expired now e.2 = false) batch_tree) <$> self.

Definition BatchQueue_len (self : BatchQueue) : nat :=
  sum_list (size <$> (map_to_list self).*2).

(** The local variables of [pull_batches]. *)
Record InlineState : Type := {
  in_result : list (BatchInfo * list SignedTransaction);
  in_num_txns : Z;
  in_num_bytes : Z;
  in_full : bool;
}.
Definition inline_full (st : InlineState) : InlineState :=
  {| in_result := in_result st; in_num_txns := in_num_txns st; in_num_bytes := in_num_bytes st;
     in_full := true |}.

Definition inline_one (batch_store : BatchStore) (max_txns max_bytes : Z)
    (excluded_batches : list BatchInfo) (st : InlineState) (entry : BatchSortKey * BatchInfo) :
    result anyhow (InlineState * bool) :=
  let batch := entry.2 in
  if in_full st then Ok (st, false)
  else if decide (batch ∈ excluded_batches) then Ok (st, true)
  else
    num_txns ← u64_add (in_num_txns st) (bi_num_txns batch);
    if num_txns <=? max_txns then
      num_bytes ← u64_add (in_num_bytes st) (bi_num_bytes batch);
      if num_bytes <=? max_bytes then
        match get_batch_from_local
                {| bk_epoch := bi_epoch batch; bk_digest := bi_digest batch |} batch_store with
        | Ok persisted_value =>
            match pv_maybe_payload persisted_value with
            | Some txns =>
                Ok ({| in_result := in_result st ++ [(batch, txns)]; in_num_txns := num_txns;
                       in_num_bytes := num_bytes; in_full := false |}, true)
            | None => Ok (st, true)
            end
        | Err _ => Ok (st, true)
        | Panic => Panic
        end
      else Ok (inline_full st, false)
    else Ok (inline_full st, false).

Definition pull_batches (shuffle : nat → list (list (BatchSortKey * BatchInfo)) →
                                  list (list (BatchSortKey * BatchInfo)))
    (batch_store : BatchStore) (max_txns max_bytes : Z) (excluded_batches : list BatchInfo)
    (self : BatchQueue) : result anyhow (list (BatchInfo * list SignedTransaction)) :=
  let iters :=
    (λ queue, reverse (btree_list sort_key_le queue)) <$> (map_to_list self).*2 in
  st ← shuffle_loop shuffle (inline_one batch_store max_txns max_bytes excluded_batches)
         (rounds iters) {| in_result := []; in_num_txns := 0; in_num_bytes := 0; in_full := false |}
         iters;
  Ok (in_result st).

(** ** The manager *)

Record BackPressure : Type := { bp_txn_count : bool; bp_proof_count : bool }.
#[global] Instance BackPressure_eq_dec : EqDecision BackPressure.
Proof using Type. solve_decision. Defined.

Record ProofManager : Type := {
  pm_proofs_for_consensus : ProofQueue;
  pm_batch_queue : BatchQueue;
  pm_back_pressure_total_txn_limit : Z;
  pm_remaining_total_txn_num : Z;
  pm_back_pressure_total_proof_limit : Z;
  pm_remaining_total_proof_num : Z;
  pm_allow_batches_without_pos_in_proposal : bool;
}.

Definition ProofManager_new (my_peer_id : AccountAddress)
    (back_pressure_total_txn_limit back_pressure_total_proof_limit : Z)
    (allow_batches_without_pos_in_proposal : bool) : ProofManager :=
  {| pm_proofs_for_consensus := ProofQueue_new my_peer_id; pm_batch_queue := ∅;
     pm_back_pressure_total_txn_limit := back_pressure_total_txn_limit;
     pm_remaining_total_txn_num := 0;
     pm_back_pressure_total_proof_limit := back_pressure_total_proof_limit;
     pm_remaining_total_proof_num := 0;
     pm_allow_batches_without_pos_in_proposal := allow_batches_without_pos_in_proposal |}.

(** The assignment that ends the three handlers: what remains in [queue]. *)
Definition update_remaining (queue : ProofQueue) (batch_queue : BatchQueue) (self : ProofManager) :
    result anyhow ProofManager :=
  '(txns, proofs) ← remaining_txns_and_proofs queue;
  Ok {| pm_proofs_for_consensus := queue; pm_batch_queue := batch_queue;
        pm_back_pressure_total_txn_limit := pm_back_pressure_total_txn_limit self;
        pm_remaining_total_txn_num := txns;
        pm_back_pressure_total_proof_limit := pm_back_pressure_total_proof_limit self;
        pm_remaining_total_proof_num := proofs;
        pm_allow_batches_without_pos_in_proposal :=
          pm_allow_batches_without_pos_in_proposal self |}.

Definition receive_proofs (proofs : list (option Z * ProofOfStore)) (self : ProofManager) :
    result anyhow ProofManager :=
  '(batch_queue, queue) ←
    fold_result (λ '(batch_queue, queue) '(now, proof),
      queue ← push now proof queue;
      Ok (remove_batch (pos_info proof) batch_queue, queue))
      (pm_batch_queue self, pm_proofs_for_consensus self) proofs;
  update_remaining queue batch_queue self.

Definition receive_batches (now : option Z)
    (batch_summaries : list (BatchInfo * list TxnSummaryWithExpiration)) (self : ProofManager) :
    result anyhow ProofManager :=
  let batch_queue :=
    if pm_allow_batches_without_pos_in_proposal self
    then add_batches batch_summaries.*1 (pm_batch_queue self)
    else pm_batch_queue self in
  queue ← add_batch_summaries now batch_summaries (pm_proofs_for_consensus self);
  update_remaining queue batch_queue self.

Definition handle_commit_notification (now block_timestamp : Z) (batches : list BatchInfo)
    (self : ProofManager) : result anyhow ProofManager :=
  let batch_queue :=
    foldl (λ q batch, remove_batch batch q) (remove_expired_batches now (pm_batch_queue self))
      batches in
  queue ← mark_committed batches (pm_proofs_for_consensus self);
  queue ← handle_updated_block_timestamp block_timestamp queue;
  update_remaining queue batch_queue self.

(** [GetPayloadCommand::GetPayloadRequest] without its callback; of the block
    timestamp the seconds are used. *)
Record GetPayloadRequest : Type := {
  req_limits : PullLimits;
  req_max_inline_txns : Z;
  req_max_inline_bytes : Z;
  req_return_non_full : bool;
  req_filter : PayloadFilter;
  req_block_timestamp_secs : Z;
}.

(** The payload sent to the callback; [cell] is its fresh status cell. *)
Definition handle_proposal_request
    (proof_shuffle batch_shuffle : nat → list (list (BatchSortKey * BatchInfo)) →
                                   list (list (BatchSortKey * BatchInfo)))
    (cell : StatusCell) (batch_store : BatchStore) (msg : GetPayloadRequest) (self : ProofManager) :
    result anyhow Payload :=
  let limits := req_limits msg in
  excluded_batches ←
    match req_filter msg with
    | FilterEmpty => Ok ∅
    | FilterDirectMempool _ => Panic
    | FilterInQuorumStore proofs => Ok proofs
    end;
  '(proof_block, cur_unique_txns, proof_queue_fully_utilized) ←
    pull_proofs proof_shuffle excluded_batches limits (req_return_non_full msg)
      (req_block_timestamp_secs msg) (pm_proofs_for_consensus self);
  cur_all_txns ← proofs_num_txns proof_block;
  cur_bytes ← proofs_num_bytes proof_block;
  inline_block ←
    (if pm_allow_batches_without_pos_in_proposal self && proof_queue_fully_utilized then
       bytes_left ← u64_sub (pl_max_bytes limits) cur_bytes;
       pull_batches batch_shuffle batch_store
         (Z.min (Z.min (u64_saturating_sub (pl_max_txns limits) cur_all_txns)
                       (u64_saturating_sub (pl_max_txns_after_filtering limits) cur_unique_txns))
                (req_max_inline_txns msg))
         (Z.min bytes_left (req_max_inline_bytes msg))
         (elements excluded_batches ++ (pos_info <$> proof_block)) (pm_batch_queue self)
     else Ok []);
  Ok (if decide (proof_block = [] ∧ inline_block = []) then
        Payload_empty cell true (pm_allow_batches_without_pos_in_proposal self)
      else if decide (inline_block = []) then
        InQuorumStore {| pwd_proofs := proof_block; pwd_status := cell |}
      else
        QuorumStoreInlineHybrid inline_block
          {| pwd_proofs := proof_block; pwd_status := cell |} None).

Definition qs_back_pressure (self : ProofManager) : BackPressure :=
  {| bp_txn_count := pm_remaining_total_txn_num self >? pm_back_pressure_total_txn_limit self;
     bp_proof_count :=
       pm_remaining_total_proof_num self >? pm_back_pressure_total_proof_limit self |}.

(** ** The main loop *)

Inductive ProofManagerCommand : Type :=
| ReceiveProofs (proofs : list (option Z * ProofOfStore))
| ReceiveBatches (now : option Z)
    (batches : list (BatchInfo * list TxnSummaryWithExpiration))
| CommitNotification (now block_timestamp : Z) (batches : list BatchInfo).

Definition handle_command (command : ProofManagerCommand) (self : ProofManager) :
    result anyhow ProofManager :=
  match command with
  | ReceiveProofs proofs => receive_proofs proofs self
  | ReceiveBatches now batches => receive_batches now batches self
  | CommitNotification now block_timestamp batches =>
      handle_commit_notification now block_timestamp batches self
  end.

(** One iteration of [start] with a command: the back pressure is sent when it
    changed. *)
Definition command_step (command : ProofManagerCommand) (self : ProofManager)
    (back_pressure : BackPressure) :
    result anyhow (ProofManager * BackPressure * option BackPressure) :=
  self ← handle_command command self;
  let updated_back_pressure := qs_back_pressure self in
  if decide (updated_back_pressure = back_pressure) then Ok (self, back_pressure, None)
  else Ok (self, updated_back_pressure, Some updated_back_pressure).
End proof_manager.
