(* ===== verification/ProofManagerSafety.v ===== *)
(** The proof manager: what a proposal is made of, and that the back pressure
    it reported last is the current one. *)
From S2P Require Import Prelude Laptos Payload Expirations Shuffle BatchStore ProofQueue.
From S2P Require Import ProofQueueSafety ProofPull ProofManager.

Section proof_manager_safety.
Context `{L : Laptos} `{Q : !QuorumStoreStorage} `{!CryptoHash BatchInfo}.

#[local] Abbreviation entry := (BatchSortKey * BatchInfo)%type.

(** ** Batches without a proof *)

Definition batch_queue_ok (queue : BatchQueue) : Prop :=
  ∀ a tree k b, queue !! a = Some tree → tree !! k = Some b →
    a = bi_author b ∧ k = BatchSortKey_from_info b.

Lemma batch_queue_authors queue : batch_queue_ok queue → authors_ok queue.
Proof using Type. intros Hok a tree k b Ha Hk. by destruct (Hok a tree k b Ha Hk) as [-> ->]. Qed.

Lemma add_batches_ok batches : ∀ queue,
  batch_queue_ok queue → batch_queue_ok (add_batches batches queue).
Proof using Type.
  induction batches as [|batch batches IH]; intros queue Hok; [done|]. apply IH. simpl.
  intros a tree k b [[<- <-]|[_ Ha]]%lookup_insert_Some; [|by apply Hok].
  intros [[<- <-]|[_ Hk]]%lookup_insert_Some; [done|].
  destruct (queue !! bi_author batch) as [t|] eqn:Ht; [by eapply Hok|].
  simpl in Hk. by rewrite lookup_empty in Hk.
Qed.

Lemma remove_batch_ok batch queue : batch_queue_ok queue → batch_queue_ok (remove_batch batch queue).
Proof using Type.
  intros Hok. unfold remove_batch. destruct (queue !! bi_author batch) as [t|] eqn:Ht; [|done].
  intros a tree k b [[<- <-]|[_ Ha]]%lookup_insert_Some; [|by apply Hok].
  intros [_ Hk]%lookup_delete_Some. by eapply Hok.
Qed.

Lemma remove_batches_ok batches : ∀ queue,
  batch_queue_ok queue → batch_queue_ok (foldl (λ q batch, remove_batch batch q) queue batches).
Proof using Type.
  induction batches as [|batch batches IH]; intros queue Hok; [done|].
  by apply IH, remove_batch_ok.
Qed.

Lemma remove_expired_ok now queue :
  batch_queue_ok queue → batch_queue_ok (remove_expired_batches now queue).
Proof using Type.
  intros Hok a tree k b. unfold remove_expired_batches.
  intros (t & <- & Ha)%lookup_fmap_Some [Hk _]%map_lookup_filter_Some. by eapply Hok.
Qed.

Section inline.
Context (batch_store : BatchStore) (max_txns max_bytes : Z) (excluded_batches : list BatchInfo).
Context (queue : BatchQueue) (Hok : batch_queue_ok queue).
Context (Hread : ∀ key, get_batch_from_local key batch_store ≠ Panic).

Definition batch_txns (b : BatchInfo) : Z := bi_num_txns b.
Definition batch_bytes (b : BatchInfo) : Z := bi_num_bytes b.

(** Sizes are not negative and can be added up. *)
Definition batches_fit (queue : BatchQueue) : Prop :=
  (∀ e, e ∈ entries_of queue → 0 ≤ batch_txns e.2 ∧ 0 ≤ batch_bytes e.2) ∧
  sum_over (λ e, batch_txns e.2) (entries_of queue) ≤ u64_MAX ∧
  sum_over (λ e, batch_bytes e.2) (entries_of queue) ≤ u64_MAX.
Context (Hfit : batches_fit queue).

(** A batch that may go into the block, with the transactions of the store. *)
Definition inlined (b : BatchInfo) (txns : list SignedTransaction) : Prop :=
  (b ∉ excluded_batches) ∧ batch_at queue (BatchSortKey_from_info b) = Some b ∧
  ∃ v, get_batch_from_local {| bk_epoch := bi_epoch b; bk_digest := bi_digest b |} batch_store = Ok v ∧
    pv_maybe_payload v = Some txns.

Record inline_inv (st : InlineState) (rest : list entry) : Prop := {
  ii_txns : in_num_txns st = sum_over batch_txns (in_result st).*1 ∧ in_num_txns st ≤ max_txns;
  ii_bytes : in_num_bytes st = sum_over batch_bytes (in_result st).*1 ∧
    in_num_bytes st ≤ max_bytes;
  ii_inlined b txns : (b, txns) ∈ in_result st → inlined b txns;
  ii_nodup : NoDup ((in_result st).*1 ++ rest.*2);
  ii_rest e : e ∈ rest → e ∈ entries_of queue;
  ii_fits : in_num_txns st + sum_over (λ e, batch_txns e.2) rest ≤ u64_MAX ∧
    in_num_bytes st + sum_over (λ e, batch_bytes e.2) rest ≤ u64_MAX;
}.

Lemma inline_inv_perm st rest rest' : rest ≡ₚ rest' → inline_inv st rest → inline_inv st rest'.
Proof using Type.
  intros Hp []. constructor; try done.
  - by rewrite <- Hp.
  - intros e He. apply ii_rest0. by rewrite Hp.
  - by rewrite !(sum_over_perm _ rest' rest) by done.
Qed.

Lemma inline_inv_drop st dropped rest : inline_inv st (dropped ++ rest) → inline_inv st rest.
Proof using Hfit.
  intros []. destruct Hfit as (Hnn & _ & _).
  assert (0 ≤ sum_over (λ e : entry, batch_txns e.2) dropped ∧
          0 ≤ sum_over (λ e : entry, batch_bytes e.2) dropped) as [? ?].
  { split; apply sum_over_nonneg; intros e He;
      (destruct (Hnn e); [apply ii_rest0, elem_of_app; by left|done]). }
  rewrite !sum_over_app in ii_fits0. constructor; try done.
  - rewrite fmap_app in ii_nodup0. eapply sublist_NoDup; [exact ii_nodup0|].
    apply sublist_app; [done|]. by apply sublist_inserts_l.
  - intros e He. apply ii_rest0, elem_of_app. by right.
  - lia.
Qed.

(** A batch that is taken. *)
Lemma inline_inv_add st e rest txns :
  inline_inv st (e :: rest) → inlined e.2 txns →
  in_num_txns st + batch_txns e.2 ≤ max_txns → in_num_bytes st + batch_bytes e.2 ≤ max_bytes →
  inline_inv {| in_result := in_result st ++ [(e.2, txns)];
    in_num_txns := in_num_txns st + batch_txns e.2;
    in_num_bytes := in_num_bytes st + batch_bytes e.2; in_full := false |} rest.
Proof using Type.
  intros [] Hin Ht Hb. cbn [sum_over foldr] in ii_fits0.
  fold (sum_over (λ e : entry, batch_txns e.2) rest) (sum_over (λ e : entry, batch_bytes e.2) rest) in ii_fits0.
  constructor; simpl.
  - rewrite fmap_app, sum_over_app. simpl. lia.
  - rewrite fmap_app, sum_over_app. simpl. lia.
  - intros b t [?|Heq%list_elem_of_singleton]%elem_of_app; [by apply ii_inlined0|].
    by injection Heq as -> ->.
  - rewrite fmap_app, <- app_assoc. exact ii_nodup0.
  - intros e' He'. apply ii_rest0. by right.
  - lia.
Qed.

Lemma inline_one_ok st e rest :
  inline_inv st (e :: rest) →
  ∃ st' keep, inline_one batch_store max_txns max_bytes excluded_batches st e = Ok (st', keep) ∧
    inline_inv st' rest ∧
    (keep = false → ∀ dropped rest', rest = dropped ++ rest' → inline_inv st' rest').
Proof using Hok Hread Hfit.
  intros Hst. cut (∃ st' keep,
    inline_one batch_store max_txns max_bytes excluded_batches st e = Ok (st', keep) ∧
    inline_inv st' rest).
  { intros (st' & keep & Hone & Hst'). exists st', keep. split_and!; [done..|].
    intros _ dropped rest' ->. by eapply inline_inv_drop. }
  assert (inline_inv st rest) as Hskip by by apply (inline_inv_drop st [e]).
  assert (inline_inv (inline_full st) rest) as Hfull by by destruct Hskip.
  assert (e ∈ entries_of queue) as Hin by (apply (ii_rest _ _ Hst); by left).
  destruct Hfit as (Hnn & _ & _). destruct (ii_fits _ _ Hskip) as [F1 F2].
  destruct (ii_fits _ _ Hst) as [G1 G2]. cbn [sum_over foldr] in G1, G2.
  fold (sum_over (λ e : entry, batch_txns e.2) rest) in G1.
  fold (sum_over (λ e : entry, batch_bytes e.2) rest) in G2.
  assert (0 ≤ sum_over (λ e : entry, batch_txns e.2) rest ∧
          0 ≤ sum_over (λ e : entry, batch_bytes e.2) rest) as [? ?].
  { split; apply sum_over_nonneg; intros e' He';
      (destruct (Hnn e'); [by apply (ii_rest _ _ Hskip)|done]). }
  unfold inline_one. destruct (in_full st); [by do 2 eexists|].
  destruct (decide (e.2 ∈ excluded_batches)) as [|Hex]; [by do 2 eexists|].
  fold (batch_txns e.2) (batch_bytes e.2).
  rewrite (u64_add_le (in_num_txns st)) by lia. cbn [mbind result_bind].
  destruct (Z.leb_spec (in_num_txns st + batch_txns e.2) max_txns); [|by do 2 eexists].
  rewrite (u64_add_le (in_num_bytes st)) by lia. cbn [mbind result_bind].
  destruct (Z.leb_spec (in_num_bytes st + batch_bytes e.2) max_bytes); [|by do 2 eexists].
  destruct (get_batch_from_local _ batch_store) as [v| |] eqn:Hv; [|by do 2 eexists|by destruct (Hread _ Hv)].
  destruct (pv_maybe_payload v) as [txns|] eqn:Hp; [|by do 2 eexists].
  do 2 eexists. split; [done|]. apply inline_inv_add; [done| |done..].
  split; [done|]. split; [|by exists v]. destruct e as [k b]. simpl.
  apply elem_of_entries in Hin; [|by apply batch_queue_authors].
  pose proof Hin as Hat. unfold batch_at in Hat. apply bind_Some in Hat as (tree & Ha & Hk).
  by destruct (Hok _ _ _ _ Ha Hk) as [_ <-].
Qed.

Lemma pull_batches_ok shuffle :
  (∀ n iters, shuffle n iters ≡ₚ iters) → 0 ≤ max_txns → 0 ≤ max_bytes →
  ∃ res, pull_batches shuffle batch_store max_txns max_bytes excluded_batches queue = Ok res ∧
    (∀ b txns, (b, txns) ∈ res → inlined b txns) ∧ NoDup res.*1 ∧
    sum_over batch_txns res.*1 ≤ max_txns ∧ sum_over batch_bytes res.*1 ≤ max_bytes.
Proof using Hok Hread Hfit.
  intros Hshuffle ? ?. unfold pull_batches.
  set (iters := (λ queue, reverse (btree_list sort_key_le queue)) <$> _).
  edestruct (shuffle_loop_ok shuffle (inline_one batch_store max_txns max_bytes excluded_batches)
    inline_inv inline_inv_perm inline_one_ok Hshuffle (rounds iters)) as (st & -> & Hst).
  { eapply inline_inv_perm; [symmetry; apply entries_iters|]. destruct Hfit as (_ & ? & ?).
    constructor; simpl; try done.
    - by intros b txns ?%elem_of_nil.
    - pose proof (NoDup_entries_keys queue (batch_queue_authors queue Hok)) as Hnd.
      apply (NoDup_fmap_1 BatchSortKey_from_info). rewrite <- list_fmap_compose.
      erewrite list_fmap_ext; [exact Hnd|]. intros i [k b] Hi. simpl.
      apply list_elem_of_lookup_2, elem_of_entries in Hi; [|by apply batch_queue_authors].
      unfold batch_at in Hi. apply bind_Some in Hi as (tree & Ha & Hk).
      by destruct (Hok _ _ _ _ Ha Hk) as [_ <-]. }
  { apply rounds_enough. }
  destruct Hst. exists (in_result st). split_and!; [done..| | |]; [|lia..].
  by rewrite app_nil_r in ii_nodup0.
Qed.
End inline.

(** ** Proposals *)

(** What a payload of proofs and inline batches holds. *)
Definition payload_proofs (p : Payload) : list ProofOfStore :=
  match p with
  | InQuorumStore proofs => pwd_proofs proofs
  | QuorumStoreInlineHybrid _ proofs _ => pwd_proofs proofs
  | _ => []
  end.
Definition payload_inline (p : Payload) : list (BatchInfo * list SignedTransaction) :=
  match p with QuorumStoreInlineHybrid inline _ _ => inline | _ => [] end.

Lemma u64_sum_from_ok {E} l : ∀ acc,
  (∀ x, x ∈ l → 0 ≤ x) → acc + sum_over id l ≤ u64_MAX →
  u64_sum_from (E:=E) acc l = Ok (acc + sum_over id l).
Proof using Type.
  induction l as [|x l IH]; intros acc Hnn Hle; simpl; [f_equal; lia|].
  assert (∀ y, y ∈ l → 0 ≤ y) as Hl by (intros y Hy; apply Hnn; by right).
  pose proof (sum_over_nonneg id l Hl) as Hs. simpl in Hle. fold (sum_over id l) in *.
  rewrite u64_add_le by (unfold id in *; lia). cbn [mbind result_bind].
  rewrite IH by (done || (unfold id in *; lia)). f_equal. unfold id. lia.
Qed.

Lemma u64_sum_over {E A} (f : A → Z) l :
  (∀ x, x ∈ l → 0 ≤ f x) → sum_over f l ≤ u64_MAX →
  u64_sum (E:=E) (f <$> l) = Ok (sum_over f l).
Proof using Type.
  intros Hnn Hle. assert (sum_over id (f <$> l) = sum_over f l) as Heq.
  { clear. induction l as [|x l IH]; [done|].
    change (sum_over id (f <$> x :: l)) with (f x + sum_over id (f <$> l)).
    change (sum_over f (x :: l)) with (f x + sum_over f l). by rewrite IH. }
  unfold u64_sum. rewrite u64_sum_from_ok, Heq; [done| |by rewrite Heq].
  intros y Hy. apply list_elem_of_fmap in Hy as (x & -> & Hx). by apply Hnn.
Qed.

(** The request a proposer makes: its limits, for the payloads of the blocks
    that are not committed yet. *)
Definition request_fits (msg : GetPayloadRequest) : Prop :=
  limits_ok (req_limits msg) ∧ pl_max_bytes (req_limits msg) ≤ u64_MAX ∧
  pl_max_txns (req_limits msg) ≤ u64_MAX ∧
  0 ≤ req_max_inline_txns msg ∧ 0 ≤ req_max_inline_bytes msg.

Definition manager_inv (self : ProofManager) : Prop :=
  queue_inv [] (pm_proofs_for_consensus self) ∧ batch_queue_ok (pm_batch_queue self).
Definition manager_fits (self : ProofManager) : Prop :=
  queue_fits (pm_proofs_for_consensus self) ∧ batches_fit (pm_batch_queue self).

(** ** What a payload holds *)

(** The batches inlined in a payload of the optimistic quorum store, which the
    filter does not see. *)
Definition opt_inline_of (payload : Payload) : list BatchInfo :=
  match payload with
  | OptQuorumStore p => ib_batch_info <$> oqs_inline_batches p
  | _ => []
  end.

(** All batches a payload carries: by a proof, by name, or inlined. *)
Definition batches_of (payload : Payload) : list BatchInfo :=
  match payload with
  | DirectMempool _ => []
  | InQuorumStore p => pos_info <$> pwd_proofs p
  | InQuorumStoreWithLimit p => pos_info <$> pwd_proofs (pwl_proof_with_data p)
  | QuorumStoreInlineHybrid inline p _ => (pos_info <$> pwd_proofs p) ++ inline.*1
  | OptQuorumStore p =>
      (ib_batch_info <$> oqs_inline_batches p) ++ bp_batch_summary _ (oqs_opt_batches p) ++
      (pos_info <$> bp_batch_summary _ (oqs_proofs p))
  end.

Lemma batches_of_excluded payload b :
  b ∈ batches_of payload ↔ b ∈ opt_inline_of payload ∨ b ∈ excluded_by payload.
Proof using Type. destruct payload; simpl; set_solver. Qed.

(** The filter excludes what the payloads hold. *)
Definition excluded_set (payloads : list Payload) : gset BatchInfo :=
  list_to_set (mjoin (excluded_by <$> payloads)).

Lemma elem_of_excluded_set payloads b :
  b ∈ excluded_set payloads ↔ ∃ p, p ∈ payloads ∧ b ∈ excluded_by p.
Proof using Type.
  unfold excluded_set. rewrite elem_of_list_to_set, list_elem_of_join.
  setoid_rewrite list_elem_of_fmap. split.
  - intros (l & Hb & q & -> & Hq). eauto.
  - intros (q & Hq & Hb). eauto.
Qed.

Lemma filter_excludes payloads :
  Forall (λ p, is_direct p = false) payloads →
  match PayloadFilter_from payloads with
  | FilterEmpty => Ok ∅
  | FilterDirectMempool _ => Panic
  | FilterInQuorumStore proofs => Ok proofs
  end = Ok (E:=anyhow) (excluded_set payloads).
Proof using Type.
  intros Hnd. unfold PayloadFilter_from. destruct payloads as [|p ps]; [done|].
  assert (existsb is_direct (p :: ps) = false) as ->; [|done].
  apply not_true_is_false. intros (q & Hq & Hd)%existsb_exists. apply list_elem_of_In in Hq.
  rewrite Forall_forall in Hnd. by rewrite Hnd in Hd.
Qed.

(** The payload made of proofs and inline batches. *)
Lemma proposal_payload cell allow proofs inline :
  let p := if decide (proofs = [] ∧ inline = []) then Payload_empty cell true allow
           else if decide (inline = []) then
             InQuorumStore {| pwd_proofs := proofs; pwd_status := cell |}
           else QuorumStoreInlineHybrid inline {| pwd_proofs := proofs; pwd_status := cell |} None in
  payload_proofs p = proofs ∧ payload_inline p = inline ∧
  batches_of p = (pos_info <$> proofs) ++ inline.*1.
Proof using Type.
  simpl. case_decide as H1; [destruct H1 as [-> ->]; by destruct allow|].
  case_decide as H2; [subst inline|done]. by rewrite app_nil_r.
Qed.

Section proposal.
Context (proof_shuffle batch_shuffle : nat → list (list entry) → list (list entry)).
Context (Hproof_shuffle : ∀ n iters, proof_shuffle n iters ≡ₚ iters).
Context (Hbatch_shuffle : ∀ n iters, batch_shuffle n iters ≡ₚ iters).
Context (batch_store : BatchStore) (Hread : ∀ key, get_batch_from_local key batch_store ≠ Panic).

(** The inline batches of a proposal, if any. *)
Lemma inline_part_ok (queue : BatchQueue) excluded (wanted : bool) max_txns max_bytes cur_bytes max_inline_bytes :
  batch_queue_ok queue → batches_fit queue → 0 ≤ max_txns → cur_bytes ≤ max_bytes →
  0 ≤ max_inline_bytes →
  ∃ inline,
    (if wanted then
       bytes_left ← u64_sub max_bytes cur_bytes;
       pull_batches batch_shuffle batch_store max_txns (Z.min bytes_left max_inline_bytes)
         excluded queue
     else Ok []) = Ok inline ∧ NoDup inline.*1 ∧ (∀ b, b ∈ inline.*1 → b ∉ excluded) ∧
    sum_over batch_txns inline.*1 ≤ max_txns ∧
    sum_over batch_bytes inline.*1 ≤ Z.min (max_bytes - cur_bytes) max_inline_bytes.
Proof using Hbatch_shuffle Hread.
  intros Hok Hfit Hmt Hcur Hib. destruct wanted.
  2: { exists []. split_and!; [done|constructor|by intros b ?%elem_of_nil|done|simpl; lia]. }
  rewrite u64_sub_le by lia. cbn [mbind result_bind].
  destruct (pull_batches_ok batch_store max_txns (Z.min (max_bytes - cur_bytes) max_inline_bytes)
    excluded queue Hok Hread Hfit batch_shuffle) as (res & -> & Hres & ? & ? & ?); [done|done|lia|].
  exists res. split_and!; [done..| |done|done]. intros b Hb.
  apply list_elem_of_fmap in Hb as ([b' txns] & -> & Hb). by destruct (Hres _ _ Hb).
Qed.

Lemma handle_proposal_ok self cell msg payloads :
  let limits := req_limits msg in
  let queue := pm_proofs_for_consensus self in
  manager_inv self → manager_fits self → request_fits msg →
  req_filter msg = PayloadFilter_from payloads → Forall (λ p, is_direct p = false) payloads →
  ∃ p, handle_proposal_request proof_shuffle batch_shuffle cell batch_store msg self = Ok p ∧
    let proofs := payload_proofs p in
    let inline := (payload_inline p).*1 in
    NoDup (batches_of p) ∧
    (∀ b q, b ∈ batches_of p → q ∈ payloads → b ∈ batches_of q → b ∈ opt_inline_of q) ∧
    sum_over txns_of proofs + sum_over batch_txns inline ≤ pl_max_txns limits ∧
    sum_over bytes_in proofs + sum_over batch_bytes inline ≤ pl_max_bytes limits ∧
    unique_txns queue (excluded_set payloads) (req_block_timestamp_secs msg) proofs +
      sum_over batch_txns inline ≤ pl_max_txns_after_filtering limits ∧
    sum_over batch_txns inline ≤ req_max_inline_txns msg ∧
    sum_over batch_bytes inline ≤ req_max_inline_bytes msg.
Proof using Hproof_shuffle Hbatch_shuffle Hread.
  intros limits queue [Hqueue Hbatches] [Hqf Hbf] (Hlim & Hmb & Hmt & Hit & Hib) Hfilter Hnd.
  unfold handle_proposal_request. rewrite Hfilter, filter_excludes by done. cbv zeta.
  fold limits queue. fold limits in Hlim, Hmb, Hmt. cbn [mbind result_bind].
  destruct (pull_proofs_ok queue (excluded_set payloads) limits (req_return_non_full msg)
    (req_block_timestamp_secs msg) proof_shuffle) as
    (ret & unique & fully & -> & Hpull & Hndp & _ & Hbytes & Htxns & Hunique & Hmax & _); [done..|].
  cbn [mbind result_bind].
  assert (∀ p, p ∈ ret → 0 ≤ txns_of p ∧ 0 ≤ bytes_in p) as Hnn.
  { intros p [Hp _]%Hpull. destruct (qi_proof _ _ Hqueue _ p Hp) as (_ & ? & Hat).
    apply elem_of_queued in Hat; [|done]. by destruct (proj1 Hqf _ Hat). }
  unfold proofs_num_txns, proofs_num_bytes. fold txns_of bytes_in.
  rewrite (u64_sum_over txns_of), (u64_sum_over bytes_in); [|by intros; apply Hnn|lia|by intros; apply Hnn|lia].
  cbn [mbind result_bind].
  destruct (inline_part_ok (pm_batch_queue self) (elements (excluded_set payloads) ++ (pos_info <$> ret))
    (pm_allow_batches_without_pos_in_proposal self && fully)
    (Z.min (Z.min (u64_saturating_sub (pl_max_txns limits) (sum_over txns_of ret))
       (u64_saturating_sub (pl_max_txns_after_filtering limits) unique)) (req_max_inline_txns msg))
    (pl_max_bytes limits) (sum_over bytes_in ret) (req_max_inline_bytes msg))
    as (inline & -> & Hndi & Hex & Hsumt & Hsumb); [done|done|unfold u64_saturating_sub; lia|lia..|].
  cbn [mbind result_bind]. eexists. split; [done|].
  destruct (proposal_payload cell (pm_allow_batches_without_pos_in_proposal self) ret inline) as (Hp1 & Hp2 & Hp3).
  cbv zeta in Hp1, Hp2, Hp3. rewrite Hp1, Hp2, Hp3.
  unfold u64_saturating_sub in *. split_and!; [| |lia..].
  - apply NoDup_app. split_and!; [|intros b Hb Hb'|done].
    + apply (NoDup_fmap_1 BatchKey_from_info). by rewrite <- list_fmap_compose.
    + apply (Hex b Hb'), elem_of_app. by right.
  - intros b q Hb Hq [?|Hbq]%batches_of_excluded; [done|exfalso]. assert (b ∈ excluded_set payloads) as Hin by (apply elem_of_excluded_set; eauto).
    apply elem_of_app in Hb as [Hb|Hb].
    + apply list_elem_of_fmap in Hb as (p & -> & [_ ?]%Hpull). done.
    + apply (Hex b Hb), elem_of_app. left. by apply elem_of_elements.
Qed.
End proposal.

(** ** Histories *)

(** Sizes are not negative; commits come with times that do not decrease and
    with the batches the proofs are for. *)
Definition command_ok (command : ProofManagerCommand) (self : ProofManager) : Prop :=
  match command with
  | ReceiveProofs proofs => Forall (λ p, 0 ≤ txns_of p.2) proofs
  | ReceiveBatches _ _ => True
  | CommitNotification _ block_timestamp batches =>
      pq_latest_block_timestamp (pm_proofs_for_consensus self) ≤ block_timestamp ∧
      Forall (commit_matches (pq_batch_to_proof (pm_proofs_for_consensus self))) batches
  end.

(** The commands [start] has handled, with what it sent to the batch generator.
    Requests for payload change nothing. *)
Inductive manager_history (me : AccountAddress) (txn_limit proof_limit : Z) (allow : bool) :
    ProofManager → BackPressure → list BackPressure → Prop :=
| ManagerNew :
    manager_history me txn_limit proof_limit allow
      (ProofManager_new me txn_limit proof_limit allow)
      {| bp_txn_count := false; bp_proof_count := false |} []
| ManagerCommand self back_pressure sent command self' back_pressure' out :
    manager_history me txn_limit proof_limit allow self back_pressure sent →
    command_ok command self →
    command_step command self back_pressure = Ok (self', back_pressure', out) →
    manager_history me txn_limit proof_limit allow self' back_pressure' (sent ++ option_list out).

Lemma receive_proofs_history me proofs : ∀ batch_queue queue batch_queue' queue',
  Forall (λ p, 0 ≤ txns_of p.2) proofs → queue_history me queue → batch_queue_ok batch_queue →
  fold_result (λ '(batch_queue, queue) '(now, proof),
    queue ← push now proof queue;
    Ok (remove_batch (pos_info proof) batch_queue, queue)) (batch_queue, queue) proofs =
    Ok (E:=anyhow) (batch_queue', queue') →
  queue_history me queue' ∧ batch_queue_ok batch_queue'.
Proof using Type.
  induction proofs as [|[now proof] proofs IH]; intros bq q bq' q' Hnn Hq Hb Hf; cbn [fold_result] in Hf.
  { by injection Hf as <- <-. }
  apply Forall_cons in Hnn as [Hp Hnn]. apply Ok_bind in Hf as ([bq1 q1] & Hf1 & Hf).
  apply Ok_bind in Hf1 as (q2 & Hpush & [= <- <-]).
  eapply IH; [done| |by apply remove_batch_ok|exact Hf]. by eapply QueuePush.
Qed.

Definition manager_current (me : AccountAddress) (self : ProofManager) : Prop :=
  queue_history me (pm_proofs_for_consensus self) ∧ batch_queue_ok (pm_batch_queue self) ∧
  remaining_txns_and_proofs (pm_proofs_for_consensus self) =
    Ok (pm_remaining_total_txn_num self, pm_remaining_total_proof_num self).

Lemma update_remaining_current me queue batch_queue self self' :
  queue_history me queue → batch_queue_ok batch_queue →
  update_remaining queue batch_queue self = Ok self' →
  manager_current me self' ∧
  pm_back_pressure_total_txn_limit self' = pm_back_pressure_total_txn_limit self ∧
  pm_back_pressure_total_proof_limit self' = pm_back_pressure_total_proof_limit self.
Proof using Type.
  intros Hq Hb. unfold update_remaining. intros ([txns proofs] & Hr & [= <-])%Ok_bind.
  by split_and!.
Qed.

Lemma handle_command_current me command self self' :
  manager_current me self → command_ok command self → handle_command command self = Ok self' →
  manager_current me self' ∧
  pm_back_pressure_total_txn_limit self' = pm_back_pressure_total_txn_limit self ∧
  pm_back_pressure_total_proof_limit self' = pm_back_pressure_total_proof_limit self.
Proof using Type.
  intros (Hq & Hb & _) Hc. destruct command as [proofs|now batches|now time batches]; simpl.
  - intros ([bq q] & Hf & Hu)%Ok_bind. destruct (receive_proofs_history me proofs _ _ _ _ Hc Hq Hb Hf).
    by eapply update_remaining_current.
  - intros (q & Hadd & Hu)%Ok_bind. eapply update_remaining_current; [| |exact Hu].
    + by eapply QueueSummaries.
    + destruct (pm_allow_batches_without_pos_in_proposal self); [by apply add_batches_ok|done].
  - destruct Hc as [Ht Hm]. intros (q1 & Hmark & (q2 & Htime & Hu)%Ok_bind)%Ok_bind.
    destruct (mark_committed_ok batches (pm_proofs_for_consensus self) (queue_history_inv _ _ Hq) Hm)
      as (q & Hq1 & _ & _ & Hlatest & _). rewrite Hmark in Hq1. injection Hq1 as <-.
    eapply update_remaining_current; [|by apply remove_batches_ok, remove_expired_ok|exact Hu].
    eapply QueueTimestamp; [by eapply QueueCommitted|by rewrite Hlatest|exact Htime].
Qed.

Lemma manager_history_current me txn_limit proof_limit allow self back_pressure sent :
  0 ≤ txn_limit → 0 ≤ proof_limit →
  manager_history me txn_limit proof_limit allow self back_pressure sent →
  manager_current me self ∧ back_pressure = qs_back_pressure self ∧
  pm_back_pressure_total_txn_limit self = txn_limit ∧
  pm_back_pressure_total_proof_limit self = proof_limit ∧
  default {| bp_txn_count := false; bp_proof_count := false |} (last sent) = back_pressure.
Proof using Type.
  intros Ht Hp. induction 1 as [|self bp sent command self' bp' out _ IH Hc Hstep].
  - split; [split_and!; [constructor|done|done]|]. split_and!; [|done..].
    unfold qs_back_pressure. simpl. f_equal; symmetry; rewrite Z.gtb_ltb; by apply Z.ltb_ge.
  - destruct IH as (Hcur & Hbp & Htl & Hpl & Hlast). unfold command_step in Hstep.
    apply Ok_bind in Hstep as (self1 & Hh & Hstep).
    destruct (handle_command_current me command self self1 Hcur Hc Hh) as (Hcur1 & Htl1 & Hpl1).
    case_decide as Hsame; injection Hstep as <- <- <-.
    + rewrite app_nil_r. split_and!; [done|by rewrite Hsame|congruence|congruence|done].
    + change (option_list (Some ?x)) with [x]. rewrite last_snoc. split_and!; [done|done|congruence|congruence|done].
Qed.

(** The generator's view is current: the back pressure sent last - none, as
    long as nothing was sent - is the one of the queue now.  It is raised for
    proofs exactly when more of them than the limit are neither committed nor
    expired. *)
Theorem back_pressure_current me txn_limit proof_limit allow self back_pressure sent :
  0 ≤ txn_limit → 0 ≤ proof_limit →
  manager_history me txn_limit proof_limit allow self back_pressure sent →
  let view := default {| bp_txn_count := false; bp_proof_count := false |} (last sent) in
  let queue := pm_proofs_for_consensus self in
  view = qs_back_pressure self ∧
  (bp_proof_count view = true ↔ proof_limit < proofs_sum (λ _, 1) (pq_batch_to_proof queue)) ∧
  ∃ txns, remaining_txns_without_duplicates queue = Ok txns ∧
    (bp_txn_count view = true ↔ txn_limit < txns).
Proof using Type.
  intros Ht Hp Hh view queue. destruct (manager_history_current _ _ _ _ _ _ _ Ht Hp Hh)
    as ((Hq & _ & Hr) & Hbp & Htl & Hpl & Hlast). fold view in Hlast. rewrite Hlast, Hbp.
  unfold remaining_txns_and_proofs in Hr. apply Ok_bind in Hr as (txns & Htx & [= Hrt Hrp]).
  fold queue in Htx, Hrp, Hq. destruct (qi_counters _ _ (queue_history_inv _ _ Hq)) as (_ & Hc & _).
  unfold qs_back_pressure. simpl. rewrite !Z.gtb_ltb, !Z.ltb_lt, Htl, Hpl. split_and!; [done| |].
  - by rewrite <- Hrp, Hc.
  - exists txns. split; [done|by rewrite Z.ltb_lt, Hrt].
Qed.

(** C19. A proposal holds no batch twice and none that a block before it - one
    whose payload the filter was made from - carries already, except batches
    inlined in a payload of the optimistic quorum store, which the filter omits;
    and the limits of the request on transactions, bytes, distinct transactions
    and inline batches are kept by proofs and inline batches together.  This holds
    over any history of the manager in which a committed batch has as many
    transactions as the proof the queue has under its key, and while sizes can be
    added up. *)
Theorem proposal_within_limits me txn_limit proof_limit allow self back_pressure sent
    proof_shuffle batch_shuffle batch_store cell msg payloads :
  0 ≤ txn_limit → 0 ≤ proof_limit →
  manager_history me txn_limit proof_limit allow self back_pressure sent →
  (∀ n iters, proof_shuffle n iters ≡ₚ iters) → (∀ n iters, batch_shuffle n iters ≡ₚ iters) →
  (∀ key, get_batch_from_local key batch_store ≠ Panic) →
  manager_fits self → request_fits msg →
  req_filter msg = PayloadFilter_from payloads → Forall (λ p, is_direct p = false) payloads →
  ∃ p, handle_proposal_request proof_shuffle batch_shuffle cell batch_store msg self = Ok p ∧
    let limits := req_limits msg in
    let proofs := payload_proofs p in
    let inline := (payload_inline p).*1 in
    NoDup (batches_of p) ∧
    (∀ b q, b ∈ batches_of p → q ∈ payloads → b ∈ batches_of q → b ∈ opt_inline_of q) ∧
    sum_over txns_of proofs + sum_over batch_txns inline ≤ pl_max_txns limits ∧
    sum_over bytes_in proofs + sum_over batch_bytes inline ≤ pl_max_bytes limits ∧
    unique_txns (pm_proofs_for_consensus self) (excluded_set payloads)
      (req_block_timestamp_secs msg) proofs +
      sum_over batch_txns inline ≤ pl_max_txns_after_filtering limits ∧
    sum_over batch_txns inline ≤ req_max_inline_txns msg ∧
    sum_over batch_bytes inline ≤ req_max_inline_bytes msg.
Proof using Type.
  intros Ht Hp Hh Hs1 Hs2 Hread Hfits Hmsg Hfilter Hnd.
  destruct (manager_history_current _ _ _ _ _ _ _ Ht Hp Hh) as ((Hq & Hb & _) & _).
  eapply handle_proposal_ok; try done. split; [by eapply queue_history_inv|done].
Qed.
End proof_manager_safety.
