(* ===== verification/ProofCoordinator.v ===== *)
(** The proof coordinator of the quorum store (consensus/src/quorum_store/
    proof_coordinator.rs): it collects the signatures of the validators on the
    batches of this one and makes proofs of store of them. *)
From S2P Require Import Prelude Laptos Payload Expirations BatchStore.

Section proof_coordinator.
Context `{L : Laptos}.

Inductive SignedBatchInfoError : Type :=
| WrongAuthor
| WrongInfo (ids : Z * Z)
| DuplicatedSignature
| InvalidAuthor
| NotFound
| AlreadyCommitted
| NoTimeStamps
| UnableToAggregate.

(** ** One proof in progress *)

Record IncrementalProofState : Type := {
  ips_info : BatchInfo;
  ips_aggregated_signature : gmap AccountAddress Signature;
  ips_aggregated_voting_power : Z;
  ips_self_voted : bool;
  ips_completed : bool;
}.

Definition IncrementalProofState_new (info : BatchInfo) : IncrementalProofState :=
  {| ips_info := info; ips_aggregated_signature := ∅; ips_aggregated_voting_power := 0;
     ips_self_voted := false; ips_completed := false |}.

Definition ips_add_signature (signed_batch_info : SignedBatchInfo)
    (validator_verifier : ValidatorVerifier) :
    SM IncrementalProofState SignedBatchInfoError unit := λ self,
  if decide (sbi_info signed_batch_info ≠ ips_info self) then
    (self, Err (WrongInfo (batch_id_id (bi_batch_id (sbi_info signed_batch_info)),
                           batch_id_id (bi_batch_id (ips_info self)))))
  else
    let signer := sbi_signer signed_batch_info in
    match ips_aggregated_signature self !! signer with
    | Some _ => (self, Err DuplicatedSignature)
    | None =>
        match ValidatorVerifier_get_voting_power validator_verifier signer with
        | Some voting_power =>
            let signatures :=
              <[signer := sbi_signature signed_batch_info]> (ips_aggregated_signature self) in
            match u128_add (ips_aggregated_voting_power self) voting_power with
            | Ok power =>
                ({| ips_info := ips_info self; ips_aggregated_signature := signatures;
                    ips_aggregated_voting_power := power;
                    ips_self_voted := bool_decide (signer = bi_author (ips_info self)) ||
                                      ips_self_voted self;
                    ips_completed := ips_completed self |}, Ok tt)
            | Err e => (self, Err e)
            | Panic => (self, Panic)
            end
        | None => (self, Err InvalidAuthor)
        end
    end.

(** The keys of a [BTreeMap]; their order does not matter to the verifier. *)
Definition ips_ready (validator_verifier : ValidatorVerifier) (self : IncrementalProofState) :
    result SignedBatchInfoError bool :=
  if ips_aggregated_voting_power self >=? ValidatorVerifier_quorum_voting_power validator_verifier
  then
    match ValidatorVerifier_check_voting_power validator_verifier
            (map_to_list (ips_aggregated_signature self)).*1 with
    | Ok _ => Ok true
    | Err _ => Ok false
    | Panic => Panic
    end
  else Ok false.

Definition ips_take (validator_verifier : ValidatorVerifier) :
    SM IncrementalProofState SignedBatchInfoError ProofOfStore := λ self,
  if ips_completed self then (self, Panic)
  else
    match ValidatorVerifier_aggregate_signatures validator_verifier
            (map_to_list (ips_aggregated_signature self)) with
    | Ok sig =>
        ({| ips_info := ips_info self; ips_aggregated_signature := ips_aggregated_signature self;
            ips_aggregated_voting_power := ips_aggregated_voting_power self;
            ips_self_voted := ips_self_voted self; ips_completed := true |},
         Ok {| pos_info := ips_info self; pos_multi_signature := sig |})
    | Err _ => (self, Err UnableToAggregate)
    | Panic => (self, Panic)
    end.

(** ** The coordinator *)

Record ProofCoordinator : Type := {
  pc_peer_id : AccountAddress;
  pc_proof_timeout_ms : Z;
  pc_batch_info_to_proof : gmap BatchInfo IncrementalProofState;
  pc_batch_info_to_time : gmap BatchInfo Z;
  pc_timeouts : Timeouts BatchInfo;
  pc_proof_cache : gmap BatchInfo AggregateSignature;
}.

Definition ProofCoordinator_new (proof_timeout_ms : Z) (peer_id : AccountAddress)
    (proof_cache : gmap BatchInfo AggregateSignature) : ProofCoordinator :=
  {| pc_peer_id := peer_id; pc_proof_timeout_ms := proof_timeout_ms;
     pc_batch_info_to_proof := ∅; pc_batch_info_to_time := ∅; pc_timeouts := Timeouts_new;
     pc_proof_cache := proof_cache |}.

(** Updates of the fields. *)
Definition with_progress (proofs : gmap BatchInfo IncrementalProofState)
    (times : gmap BatchInfo Z) (timeouts : Timeouts BatchInfo)
    (cache : gmap BatchInfo AggregateSignature) (self : ProofCoordinator) : ProofCoordinator :=
  {| pc_peer_id := pc_peer_id self; pc_proof_timeout_ms := pc_proof_timeout_ms self;
     pc_batch_info_to_proof := proofs; pc_batch_info_to_time := times; pc_timeouts := timeouts;
     pc_proof_cache := cache |}.

(** The clock as it is read while a signature is added: in milliseconds for the
    timeout, in microseconds when a proof is begun and when it is complete. *)
Record Clock : Type := { clock_millis : Z; clock_begun : Z; clock_complete : Z }.

(** [exists] of the batch reader is an argument. *)
Definition init_proof (batch_exists : BatchKey → option AccountAddress) (clock : Clock)
    (signed_batch_info : SignedBatchInfo) : SM ProofCoordinator SignedBatchInfoError unit := λ self,
  let info := sbi_info signed_batch_info in
  if decide (bi_author info ≠ pc_peer_id self) then (self, Err WrongAuthor)
  else
    match batch_exists {| bk_epoch := bi_epoch info; bk_digest := bi_digest info |} with
    | None => (self, Err NotFound)
    | Some batch_author =>
        if decide (batch_author ≠ bi_author info) then (self, Err WrongAuthor)
        else
          (with_progress
             (<[info := IncrementalProofState_new info]> (pc_batch_info_to_proof self))
             (match pc_batch_info_to_time self !! info with
              | Some _ => pc_batch_info_to_time self
              | None => <[info := clock_begun clock]> (pc_batch_info_to_time self)
              end)
             (Timeouts_add (clock_millis clock) info (pc_proof_timeout_ms self) (pc_timeouts self))
             (pc_proof_cache self) self, Ok tt)
    end.

(** The signature of a batch in progress; a completed proof goes to the cache
    and is returned. *)
Definition append_signature (clock : Clock) (validator_verifier : ValidatorVerifier)
    (signed_batch_info : SignedBatchInfo) :
    SM ProofCoordinator SignedBatchInfoError (option ProofOfStore) := λ self,
  let info := sbi_info signed_batch_info in
  let update value self :=
    with_progress (<[info := value]> (pc_batch_info_to_proof self)) (pc_batch_info_to_time self)
      (pc_timeouts self) (pc_proof_cache self) self in
  match pc_batch_info_to_proof self !! info with
  | None => (self, Err NotFound)
  | Some value =>
      match ips_add_signature signed_batch_info validator_verifier value with
      | (value, Ok _) =>
          let self := update value self in
          if ips_completed value then (self, Ok None)
          else
            match ips_ready validator_verifier value with
            | Ok true =>
                match ips_take validator_verifier value with
                | (value, Ok proof) =>
                    let self := update value self in
                    let cache :=
                      <[pos_info proof := pos_multi_signature proof]> (pc_proof_cache self) in
                    let times := delete info (pc_batch_info_to_time self) in
                    let done :=
                      with_progress (pc_batch_info_to_proof self) times (pc_timeouts self) cache
                        self in
                    match pc_batch_info_to_time self !! info with
                    | None => (done, Err NoTimeStamps)
                    | Some time =>
                        match u64_sub (clock_complete clock) time with
                        | Ok _ => (done, Ok (Some proof))
                        | Err e => (done, Err e)
                        | Panic => (done, Panic)
                        end
                    end
                | (value, Err e) => (update value self, Err e)
                | (value, Panic) => (update value self, Panic)
                end
            | Ok false => (self, Ok None)
            | Err e => (self, Err e)
            | Panic => (self, Panic)
            end
      | (value, Err e) => (update value self, Err e)
      | (value, Panic) => (update value self, Panic)
      end
  end.

Definition coordinator_add_signature (batch_exists : BatchKey → option AccountAddress)
    (clock : Clock) (validator_verifier : ValidatorVerifier) (signed_batch_info : SignedBatchInfo) :
    SM ProofCoordinator SignedBatchInfoError (option ProofOfStore) := λ self,
  match pc_batch_info_to_proof self !! sbi_info signed_batch_info with
  | Some _ => append_signature clock validator_verifier signed_batch_info self
  | None =>
      match init_proof batch_exists clock signed_batch_info self with
      | (self, Ok _) => append_signature clock validator_verifier signed_batch_info self
      | (self, Err e) => (self, Err e)
      | (self, Panic) => (self, Panic)
      end
  end.

(** [AppendSignature] in [start]: the proofs that are sent; errors are logged. *)
Fixpoint append_signatures (batch_exists : BatchKey → option AccountAddress)
    (validator_verifier : ValidatorVerifier) (signed_batch_infos : list (Clock * SignedBatchInfo)) :
    SM ProofCoordinator anyhow (list ProofOfStore) := λ self,
  match signed_batch_infos with
  | [] => (self, Ok [])
  | (clock, signed_batch_info) :: signed_batch_infos =>
      match coordinator_add_signature batch_exists clock validator_verifier signed_batch_info self
      with
      | (self, Panic) => (self, Panic)
      | (self, r) =>
          let proofs := match r with Ok (Some proof) => [proof] | _ => [] end in
          match append_signatures batch_exists validator_verifier signed_batch_infos self with
          | (self, Ok rest) => (self, Ok (proofs ++ rest))
          | r => r
          end
      end
  end.

(** One expired timeout of [expire]: the batch id is reported when the proof was
    not complete. *)
Definition expire_proof (acc : ProofCoordinator * list BatchId) (info : BatchInfo) :
    ProofCoordinator * list BatchId :=
  let '(self, batch_ids) := acc in
  match pc_batch_info_to_proof self !! info with
  | Some state =>
      (with_progress (delete info (pc_batch_info_to_proof self))
         (delete info (pc_batch_info_to_time self)) (pc_timeouts self) (pc_proof_cache self) self,
       if ips_completed state then batch_ids else batch_ids ++ [bi_batch_id info])
  | None => (self, batch_ids)
  end.

(** [expire]: the state and the [ProofExpiration] sent to the generator. *)
Definition coordinator_expire (now : Z) (self : ProofCoordinator) :
    ProofCoordinator * list BatchId :=
  let '(rest, expired) := Timeouts_expire now (pc_timeouts self) in
  foldl expire_proof
    (with_progress (pc_batch_info_to_proof self) (pc_batch_info_to_time self) rest
       (pc_proof_cache self) self, []) expired.
End proof_coordinator.
