(* ===== verification/ProofCoordinatorSafety.v ===== *)
(** The proof coordinator: the proofs it sends verify, and a proof is complete
    exactly when the signatures reach a quorum. *)
From S2P Require Import Prelude Laptos Payload Expirations BatchStore ProofCoordinator.

Section coordinator_safety.
Context `{L : Laptos} `{!CryptoHash BatchInfo}.

(** ** Voting power and multi-signatures *)

Definition power_of (v : ValidatorVerifier) (a : AccountAddress) : Z :=
  default 0 (ValidatorVerifier_get_voting_power v a).
Definition signed_power (v : ValidatorVerifier) (sigs : gmap AccountAddress Signature) : Z :=
  map_sum (λ a _, power_of v a) sigs.

(** Documented behaviour of the verifier: powers are summed up and compared with
    the quorum, validators only can have signed, and the aggregate of valid
    signatures of a quorum on one message verifies. *)
Class MultiSignatureLaws (v : ValidatorVerifier) : Prop := {
  ms_power a p : ValidatorVerifier_get_voting_power v a = Some p → 0 ≤ p;
  ms_check (sigs : gmap AccountAddress Signature) :
    (∀ a s, sigs !! a = Some s → is_Some (ValidatorVerifier_get_voting_power v a)) →
    ValidatorVerifier_check_voting_power v (map_to_list sigs).*1 ≠ Panic ∧
    (is_ok (ValidatorVerifier_check_voting_power v (map_to_list sigs).*1) = true ↔
     ValidatorVerifier_quorum_voting_power v ≤ signed_power v sigs) ∧
    signed_power v sigs ≤ u128_MAX;
  ms_known a m s :
    ValidatorVerifier_verify v a m s = Ok tt → is_Some (ValidatorVerifier_get_voting_power v a);
  ms_quorum : 0 < ValidatorVerifier_quorum_voting_power v;
  ms_aggregate (sigs : gmap AccountAddress Signature) m :
    (∀ a s, sigs !! a = Some s → ValidatorVerifier_verify v a m s = Ok tt) →
    is_ok (ValidatorVerifier_check_voting_power v (map_to_list sigs).*1) = true →
    ∃ agg, ValidatorVerifier_aggregate_signatures v (map_to_list sigs) = Ok agg ∧
      ValidatorVerifier_verify_multi_signatures v m agg = Ok tt;
}.

Context (v : ValidatorVerifier) `{ML : !MultiSignatureLaws v}.

Definition valid (info : BatchInfo) (a : AccountAddress) (s : Signature) : Prop :=
  verifier_verify v a info s = Ok tt.

(** ** The invariant *)

Record proof_state_ok (info : BatchInfo) (st : IncrementalProofState) : Prop := {
  ps_info : ips_info st = info;
  ps_valid a s : ips_aggregated_signature st !! a = Some s → valid info a s;
  ps_power : ips_aggregated_voting_power st = signed_power v (ips_aggregated_signature st);
  ps_completed : ips_completed st = true ↔
    ValidatorVerifier_quorum_voting_power v ≤ signed_power v (ips_aggregated_signature st);
}.

Record coordinator_inv (me : AccountAddress) (self : ProofCoordinator) : Prop := {
  ci_me : pc_peer_id self = me;
  ci_state info st : pc_batch_info_to_proof self !! info = Some st →
    bi_author info = me ∧ proof_state_ok info st ∧
    (ips_completed st = false → is_Some (pc_batch_info_to_time self !! info));
  ci_time info : is_Some (pc_batch_info_to_time self !! info) →
    is_Some (pc_batch_info_to_proof self !! info);
  ci_timeouts info : is_Some (pc_batch_info_to_proof self !! info) ↔ info ∈ (pc_timeouts self).*2;
  ci_nodup : NoDup (pc_timeouts self).*2;
}.

Lemma proof_state_new info : proof_state_ok info (IncrementalProofState_new info).
Proof using ML.
  constructor; simpl; try done. split; [done|]. unfold signed_power. rewrite map_sum_empty.
  pose proof ms_quorum. lia.
Qed.

Lemma signed_power_insert sigs a s :
  sigs !! a = None → signed_power v (<[a := s]> sigs) = signed_power v sigs + power_of v a.
Proof using Type. intros Ha. unfold signed_power. rewrite map_sum_insert by done. lia. Qed.

Lemma valid_known info a s : valid info a s → is_Some (ValidatorVerifier_get_voting_power v a).
Proof using ML. apply ms_known. Qed.

(** A new signature, before it is looked at whether the proof is complete. *)
Lemma ips_add_signature_ok info st sbi :
  proof_state_ok info st → sbi_info sbi = info → valid info (sbi_signer sbi) (sbi_signature sbi) →
  ips_aggregated_signature st !! sbi_signer sbi = None →
  ∃ st', ips_add_signature sbi v st = (st', Ok tt) ∧
    ips_info st' = info ∧ ips_completed st' = ips_completed st ∧
    ips_aggregated_signature st' =
      <[sbi_signer sbi := sbi_signature sbi]> (ips_aggregated_signature st) ∧
    ips_aggregated_voting_power st' = signed_power v (ips_aggregated_signature st').
Proof using ML.
  intros [] Hinfo Hvalid Hnew. unfold ips_add_signature.
  rewrite decide_False by (rewrite ps_info0; by intros []). rewrite Hnew.
  destruct (valid_known _ _ _ Hvalid) as [p Hp]. rewrite Hp.
  set (sigs := <[sbi_signer sbi := sbi_signature sbi]> (ips_aggregated_signature st)).
  assert (signed_power v sigs = ips_aggregated_voting_power st + p) as Hsum.
  { unfold sigs. rewrite signed_power_insert, <- ps_power0 by done. unfold power_of. by rewrite Hp. }
  destruct (ms_check sigs) as (_ & _ & Hle).
  { intros a s [[<- <-]|[_ Hs]]%lookup_insert_Some; [by rewrite Hp|]. by eapply valid_known, ps_valid0. }
  unfold u128_add. destruct (Z.leb_spec (ips_aggregated_voting_power st + p) u128_MAX); [|lia].
  eexists. split_and!; done.
Qed.

(** What the coordinator answers to a new signature on a batch in progress. *)
Definition expected_answer (clock : Clock) (self : ProofCoordinator) (st : IncrementalProofState)
    (sbi : SignedBatchInfo) (r : result SignedBatchInfoError (option ProofOfStore)) : Prop :=
  let before := signed_power v (ips_aggregated_signature st) in
  let quorum := ValidatorVerifier_quorum_voting_power v in
  if (before <? quorum) && (quorum <=? before + power_of v (sbi_signer sbi)) then
    ∃ time, pc_batch_info_to_time self !! sbi_info sbi = Some time ∧
      if time <=? clock_complete clock then
        ∃ proof, r = Ok (Some proof) ∧ pos_info proof = sbi_info sbi ∧
          verify_multi_signatures v (pos_info proof) (pos_multi_signature proof) = Ok tt
      else r = Panic
  else r = Ok None.

Lemma coordinator_update me self info st st' times cache :
  coordinator_inv me self → pc_batch_info_to_proof self !! info = Some st →
  proof_state_ok info st' → (ips_completed st' = false → is_Some (times !! info)) →
  (∀ i, i ≠ info → times !! i = pc_batch_info_to_time self !! i) →
  coordinator_inv me (with_progress (<[info := st']> (pc_batch_info_to_proof self)) times
    (pc_timeouts self) cache self).
Proof using Type.
  intros [] Hst Hok Htime Hother. constructor; simpl; try done.
  - intros i s [[<- <-]|[Hne Hs]]%lookup_insert_Some; [by destruct (ci_state0 info st Hst)|].
    rewrite Hother by done. by apply ci_state0.
  - intros i Hi. destruct (decide (info = i)) as [<-|Hne]; [by rewrite lookup_insert_eq|].
    rewrite lookup_insert_ne by done. rewrite Hother in Hi by done. by apply ci_time0.
  - intros i. rewrite <- ci_timeouts0. destruct (decide (info = i)) as [<-|Hne].
    + rewrite lookup_insert_eq, Hst. by split.
    + by rewrite lookup_insert_ne.
Qed.

Lemma append_signature_ok me clock sbi self st :
  coordinator_inv me self → pc_batch_info_to_proof self !! sbi_info sbi = Some st →
  valid (sbi_info sbi) (sbi_signer sbi) (sbi_signature sbi) →
  ips_aggregated_signature st !! sbi_signer sbi = None →
  let '(self', r) := append_signature clock v sbi self in
  coordinator_inv me self' ∧ expected_answer clock self st sbi r.
Proof using ML.
  intros Hinv Hst Hvalid Hnew. destruct (ci_state _ _ Hinv _ st Hst) as (_ & Hok & Htime).
  destruct (ips_add_signature_ok _ st sbi Hok eq_refl Hvalid Hnew)
    as (st1 & Hadd & Hinfo1 & Hcomp1 & Hsigs1 & Hpower1).
  unfold append_signature. rewrite Hst, Hadd.
  assert (signed_power v (ips_aggregated_signature st1) =
    signed_power v (ips_aggregated_signature st) + power_of v (sbi_signer sbi)) as Hsum
    by by rewrite Hsigs1, signed_power_insert.
  assert (∀ a s, ips_aggregated_signature st1 !! a = Some s → valid (sbi_info sbi) a s) as Hvalid1.
  { rewrite Hsigs1. intros a s [[<- <-]|[_ Hs]]%lookup_insert_Some; [done|]. by eapply (ps_valid _ _ Hok). }
  assert (0 ≤ power_of v (sbi_signer sbi)) as Hnn.
  { destruct (valid_known _ _ _ Hvalid) as [p Hp]. unfold power_of. rewrite Hp. by eapply ms_power. }
  destruct (ms_check (ips_aggregated_signature st1)) as (Hnp & Hcheck & _).
  { intros a s Hs. by eapply valid_known, Hvalid1. }
  pose proof (ps_completed _ _ Hok) as Hcomp. unfold expected_answer.
  set (before := signed_power v (ips_aggregated_signature st)) in *.
  set (quorum := ValidatorVerifier_quorum_voting_power v) in *.
  rewrite Hcomp1. destruct (ips_completed st) eqn:Hc.
  { assert (quorum ≤ before) by by apply Hcomp. split.
    - eapply coordinator_update; [done..| |by rewrite Hcomp1|done].
      constructor; [done..|]. rewrite Hcomp1, Hsum. split; [intros _; lia|done].
    - destruct (Z.ltb_spec before quorum); [lia|done]. }
  assert (before < quorum) as Hlt.
  { destruct (Z.lt_ge_cases before quorum) as [|Hge]; [done|]. by apply Hcomp in Hge. }
  assert ((before <? quorum) = true) as -> by by apply Z.ltb_lt.
  unfold ips_ready. rewrite Hpower1, Hsum, Z.geb_leb. fold quorum. simpl.
  destruct (Z.leb_spec quorum (before + power_of v (sbi_signer sbi))) as [Hq|Hq].
  2: { split; [|done]. eapply coordinator_update; [done..| |intros _; by apply Htime|done].
       constructor; [done..|]. rewrite Hcomp1, Hsum. split; [done|lia]. }
  assert (is_ok (ValidatorVerifier_check_voting_power v (map_to_list (ips_aggregated_signature st1)).*1) = true)
    as Hready by (apply Hcheck; by rewrite Hsum).
  destruct (ValidatorVerifier_check_voting_power v _) as [pw|e|] eqn:Hcp; [|done..].
  unfold ips_take. rewrite Hcomp1.
  destruct (ms_aggregate (ips_aggregated_signature st1) (signing_message (sbi_info sbi)))
    as (agg & -> & Hagg); [done|by rewrite Hcp|]. simpl.
  destruct (Htime eq_refl) as [time Ht]. rewrite Ht. unfold u64_sub.
  rewrite (insert_insert_eq (pc_batch_info_to_proof self)).
  assert (∀ cache, coordinator_inv me (with_progress
    (<[sbi_info sbi := {| ips_info := ips_info st1; ips_aggregated_signature := ips_aggregated_signature st1;
        ips_aggregated_voting_power := ips_aggregated_voting_power st1;
        ips_self_voted := ips_self_voted st1; ips_completed := true |}]> (pc_batch_info_to_proof self))
    (delete (sbi_info sbi) (pc_batch_info_to_time self)) (pc_timeouts self) cache self)) as Hinv'.
  { intros cache. eapply coordinator_update; [done..| |done|by intros; apply lookup_delete_ne].
    constructor; simpl; [done..|]. rewrite Hsum. by split. }
  destruct (Z.leb_spec time (clock_complete clock)) as [Hle|Hgt].
  - split; [apply Hinv'|]. exists time. split; [done|].
    destruct (Z.leb_spec time (clock_complete clock)); [|lia]. eexists. split_and!; [done..|].
    simpl. by rewrite Hinfo1.
  - split; [apply Hinv'|]. exists time. split; [done|].
    by destruct (Z.leb_spec time (clock_complete clock)); [lia|].
Qed.

(** A signature that was there already changes nothing. *)
Lemma append_signature_duplicate clock sbi self st s :
  pc_batch_info_to_proof self !! sbi_info sbi = Some st → ips_info st = sbi_info sbi →
  ips_aggregated_signature st !! sbi_signer sbi = Some s →
  append_signature clock v sbi self = (self, Err DuplicatedSignature).
Proof using Type.
  intros Hst Hinfo Hs. unfold append_signature. rewrite Hst. unfold ips_add_signature.
  rewrite decide_False by (rewrite Hinfo; by intros []). rewrite Hs, insert_id by done.
  by destruct self.
Qed.

Lemma init_proof_ok me batch_exists clock sbi self :
  coordinator_inv me self → pc_batch_info_to_proof self !! sbi_info sbi = None →
  let '(self', r) := init_proof batch_exists clock sbi self in
  coordinator_inv me self' ∧
  match r with
  | Ok _ => pc_batch_info_to_proof self' !! sbi_info sbi =
              Some (IncrementalProofState_new (sbi_info sbi)) ∧
            pc_batch_info_to_time self' !! sbi_info sbi = Some (clock_begun clock) ∧
            bi_author (sbi_info sbi) = me ∧
            batch_exists {| bk_epoch := bi_epoch (sbi_info sbi); bk_digest := bi_digest (sbi_info sbi) |} =
              Some me
  | Err _ => self' = self
  | Panic => False
  end.
Proof using ML.
  intros Hinv Hnone. unfold init_proof. set (info := sbi_info sbi) in *.
  destruct (decide (bi_author info ≠ pc_peer_id self)) as [|Hme]; [done|].
  destruct (batch_exists _) as [a|] eqn:Hex; [|done].
  destruct (decide (a ≠ bi_author info)) as [|Ha]; [done|].
  apply dec_stable in Hme, Ha. rewrite (ci_me _ _ Hinv) in Hme.
  assert (pc_batch_info_to_time self !! info = None) as Ht.
  { destruct (pc_batch_info_to_time self !! info) eqn:Ht; [|done].
    destruct (ci_time _ _ Hinv info) as [? Hx]; [by rewrite Ht|]. by rewrite Hnone in Hx. }
  rewrite Ht. split; [|simpl; rewrite !lookup_insert_eq; split_and!; congruence].
  destruct Hinv. constructor; simpl; try done.
  - intros i st [[<- <-]|[Hne Hs]]%lookup_insert_Some.
    + split_and!; [done|apply proof_state_new|]. by rewrite lookup_insert_eq.
    + rewrite lookup_insert_ne by done. by apply ci_state0.
  - intros i Hi. destruct (decide (info = i)) as [<-|Hne]; [by rewrite lookup_insert_eq|].
    rewrite lookup_insert_ne by done. rewrite lookup_insert_ne in Hi by done. by apply ci_time0.
  - intros i. unfold Timeouts_add. rewrite fmap_app, elem_of_app, <- ci_timeouts0. simpl.
    rewrite list_elem_of_singleton. destruct (decide (info = i)) as [<-|Hne].
    + rewrite lookup_insert_eq. split; [by right|done].
    + rewrite lookup_insert_ne by done. split; [by left|]. intros [?| ->]; done.
  - unfold Timeouts_add. rewrite fmap_app. apply NoDup_app. split_and!; [done| |apply NoDup_singleton].
    intros i Hi Heq. simpl in Heq. apply list_elem_of_singleton in Heq. subst i.
    apply ci_timeouts0 in Hi as [? Hx]. by rewrite Hnone in Hx.
Qed.

Lemma coordinator_add_ok me batch_exists clock sbi self :
  coordinator_inv me self → valid (sbi_info sbi) (sbi_signer sbi) (sbi_signature sbi) →
  let '(self', r) := coordinator_add_signature batch_exists clock v sbi self in
  coordinator_inv me self' ∧
  ∀ proof, r = Ok (Some proof) →
    pos_info proof = sbi_info sbi ∧ bi_author (pos_info proof) = me ∧
    verify_multi_signatures v (pos_info proof) (pos_multi_signature proof) = Ok tt.
Proof using ML.
  intros Hinv Hvalid. unfold coordinator_add_signature.
  assert (∀ self1 st, coordinator_inv me self1 →
    pc_batch_info_to_proof self1 !! sbi_info sbi = Some st →
    let '(self', r) := append_signature clock v sbi self1 in
    coordinator_inv me self' ∧ ∀ proof, r = Ok (Some proof) →
      pos_info proof = sbi_info sbi ∧ bi_author (pos_info proof) = me ∧
      verify_multi_signatures v (pos_info proof) (pos_multi_signature proof) = Ok tt) as Happ.
  { intros self1 st Hinv1 Hst. destruct (ci_state _ _ Hinv1 _ st Hst) as (Hme & Hok & _).
    destruct (ips_aggregated_signature st !! sbi_signer sbi) as [s|] eqn:Hs.
    { rewrite (append_signature_duplicate clock sbi self1 st s); [done|done|apply Hok|done]. }
    pose proof (append_signature_ok me clock sbi self1 st Hinv1 Hst Hvalid Hs) as Ha.
    destruct (append_signature clock v sbi self1) as [self' r]. destruct Ha as [? Hr]. split; [done|].
    intros proof ->. unfold expected_answer in Hr. case_match; [|done].
    destruct Hr as (time & _ & Hr). case_match; [|done].
    destruct Hr as (p & [= <-] & Hp & Hv). split_and!; [done|by rewrite Hp|done]. }
  destruct (pc_batch_info_to_proof self !! sbi_info sbi) as [st|] eqn:Hst; [by eapply Happ|].
  pose proof (init_proof_ok me batch_exists clock sbi self Hinv Hst) as Hi.
  destruct (init_proof batch_exists clock sbi self) as [self1 [u|e|]].
  - destruct Hi as (Hinv1 & Hst1 & _). by eapply Happ.
  - destruct Hi as [? _]. by split.
  - by destruct Hi.
Qed.

(** ** Timeouts *)

Lemma Timeouts_expire_split {T} now (l : Timeouts T) :
  ∃ due, l = due ++ (Timeouts_expire now l).1 ∧ due.*2 = (Timeouts_expire now l).2 ∧
    Forall (λ e, e.1 ≤ now) due.
Proof using Type.
  induction l as [|[t x] l IH]; simpl; [by exists []|].
  rewrite Z.geb_leb. destruct (Z.leb_spec t now) as [Hle|]; [|by exists []].
  destruct IH as (due & Hl & Hd & Hall). destruct (Timeouts_expire now l) as [rest ex]. simpl in *.
  exists ((t, x) :: due). simpl. rewrite Hd, Hl at 1. split_and!; [done..|]. by constructor.
Qed.

(** The batches among [infos] whose proof is not complete. *)
Definition unfinished (self : ProofCoordinator) (info : BatchInfo) : bool :=
  match pc_batch_info_to_proof self !! info with
  | Some st => negb (ips_completed st)
  | None => false
  end.
Definition incomplete (self : ProofCoordinator) (infos : list BatchInfo) : list BatchInfo :=
  filter (λ i, unfinished self i = true) infos.

Lemma incomplete_ext self self' infos :
  (∀ i, i ∈ infos → unfinished self i = unfinished self' i) →
  incomplete self infos = incomplete self' infos.
Proof using Type.
  unfold incomplete. induction infos as [|i infos IH]; intros Heq; [done|].
  rewrite !filter_cons, (Heq i), IH; [done| |by left]. intros j Hj. apply Heq. by right.
Qed.

Lemma expire_proofs_spec expired : ∀ self ids,
  NoDup expired → (∀ i, i ∈ expired → is_Some (pc_batch_info_to_proof self !! i)) →
  let '(self', ids') := foldl expire_proof (self, ids) expired in
  (∀ i, pc_batch_info_to_proof self' !! i =
        if decide (i ∈ expired) then None else pc_batch_info_to_proof self !! i) ∧
  (∀ i, pc_batch_info_to_time self' !! i =
        if decide (i ∈ expired) then None else pc_batch_info_to_time self !! i) ∧
  pc_timeouts self' = pc_timeouts self ∧ pc_peer_id self' = pc_peer_id self ∧
  ids' = ids ++ (bi_batch_id <$> incomplete self expired).
Proof using Type.
  induction expired as [|info expired IH]; intros self ids Hnd Hin; cbn [foldl].
  { split_and!; [intros i; by rewrite decide_False by apply not_elem_of_nil..|done|done|].
    by rewrite app_nil_r. }
  apply NoDup_cons in Hnd as [Hnot Hnd].
  destruct (Hin info) as [st Hst]; [by left|].
  unfold expire_proof at 2. rewrite Hst.
  set (self1 := with_progress _ _ _ _ _). set (ids1 := if ips_completed st then _ else _).
  specialize (IH self1 ids1 Hnd). destruct (foldl expire_proof (self1, ids1) expired) as [self' ids'].
  assert (∀ i, i ∈ expired → pc_batch_info_to_proof self1 !! i = pc_batch_info_to_proof self !! i) as Hsame.
  { intros i Hi. unfold self1. simpl. apply lookup_delete_ne. intros <-. done. }
  destruct IH as (Hp & Ht & Hto & Hpeer & Hids).
  { intros i Hi. rewrite Hsame by done. apply Hin. by right. }
  assert (∀ (A : Type) (m : gmap BatchInfo A) i,
    (if decide (i ∈ expired) then None else delete info m !! i) =
    (if decide (i ∈ info :: expired) then None else m !! i)) as Hdel.
  { intros A m i. destruct (decide (i ∈ expired)) as [He|He].
    - rewrite decide_True; [done|]. by right.
    - destruct (decide (info = i)) as [<-|Hne].
      + rewrite lookup_delete_eq, decide_True; [done|]. by left.
      + rewrite lookup_delete_ne, decide_False; [done| |done]. intros [->|]%elem_of_cons; done. }
  split_and!; [intros i; rewrite Hp; apply Hdel|intros i; rewrite Ht; apply Hdel|done|done|].
  rewrite Hids, (incomplete_ext self1 self).
  2: { intros i Hi. unfold unfinished. by rewrite Hsame. }
  assert (unfinished self info = negb (ips_completed st)) as Hu by (unfold unfinished; by rewrite Hst).
  unfold ids1, incomplete. rewrite filter_cons, Hu.
  destruct (ips_completed st); simpl; [done|]. by rewrite <- app_assoc.
Qed.

Lemma coordinator_expire_ok me now self :
  coordinator_inv me self →
  let '(self', ids) := coordinator_expire now self in
  coordinator_inv me self' ∧
  ids = bi_batch_id <$> incomplete self (Timeouts_expire now (pc_timeouts self)).2.
Proof using Type.
  intros Hinv. unfold coordinator_expire.
  destruct (Timeouts_expire_split now (pc_timeouts self)) as (due & Hl & Hd & _).
  destruct (Timeouts_expire now (pc_timeouts self)) as [rest expired]. simpl in *.
  assert (NoDup (expired ++ rest.*2)) as Hnd.
  { rewrite <- Hd, <- fmap_app, <- Hl. apply Hinv. }
  assert (∀ i, is_Some (pc_batch_info_to_proof self !! i) ↔ i ∈ expired ++ rest.*2) as Hdom.
  { intros i. rewrite <- Hd, <- fmap_app, <- Hl. apply Hinv. }
  apply NoDup_app in Hnd as (Hnd1 & Hdisj & Hnd2).
  pose proof (expire_proofs_spec expired (with_progress (pc_batch_info_to_proof self)
    (pc_batch_info_to_time self) rest (pc_proof_cache self) self) []) as Hspec.
  destruct (foldl expire_proof _ expired) as [self' ids].
  destruct Hspec as (Hp & Ht & Hto & Hpeer & Hids); [done| |].
  { intros i Hi. apply Hdom, elem_of_app. by left. }
  simpl in *. split; [|done]. destruct Hinv. constructor.
  - congruence.
  - intros i st. rewrite Hp, Ht. case_decide; [done|]. apply ci_state0.
  - intros i. rewrite Hp, Ht. case_decide; [by intros []|]. apply ci_time0.
  - intros i. rewrite Hp, Hto. case_decide as Hi.
    + split; [by intros []|]. intros Hr. by destruct (Hdisj i Hi).
    + rewrite Hdom, elem_of_app. tauto.
  - by rewrite Hto.
Qed.

(** ** Histories *)

(** Messages of signatures that passed [SignedBatchInfoMsg::verify], and ticks
    of the timer; [sent] are the proofs that were sent. *)
Inductive coordinator_history (me : AccountAddress) : ProofCoordinator → list ProofOfStore → Prop :=
| CoordinatorNew timeout cache : coordinator_history me (ProofCoordinator_new timeout me cache) []
| CoordinatorSignatures self sent batch_exists msgs self' proofs :
    coordinator_history me self sent →
    Forall (λ m, valid (sbi_info m.2) (sbi_signer m.2) (sbi_signature m.2)) msgs →
    append_signatures batch_exists v msgs self = (self', Ok proofs) →
    coordinator_history me self' (sent ++ proofs)
| CoordinatorTick self sent now :
    coordinator_history me self sent → coordinator_history me (coordinator_expire now self).1 sent.

Lemma append_signatures_ok me batch_exists msgs : ∀ self self' proofs,
  coordinator_inv me self →
  Forall (λ m, valid (sbi_info m.2) (sbi_signer m.2) (sbi_signature m.2)) msgs →
  append_signatures batch_exists v msgs self = (self', Ok proofs) →
  coordinator_inv me self' ∧ ∀ p, p ∈ proofs → bi_author (pos_info p) = me ∧
    verify_multi_signatures v (pos_info p) (pos_multi_signature p) = Ok tt.
Proof using ML.
  induction msgs as [|[clock sbi] msgs IH]; intros self self' proofs Hinv Hvalid Hadd; simpl in Hadd.
  { injection Hadd as <- <-. split; [done|]. by intros p ?%elem_of_nil. }
  apply Forall_cons in Hvalid as [Hv Hvalid].
  pose proof (coordinator_add_ok me batch_exists clock sbi self Hinv Hv) as Hone.
  destruct (coordinator_add_signature batch_exists clock v sbi self) as [self1 r].
  destruct Hone as [Hinv1 Hp].
  destruct (append_signatures batch_exists v msgs self1) as [self2 [rest|e|]] eqn:Hrest;
    [|by destruct r..].
  specialize (IH self1 self2 rest Hinv1 Hvalid Hrest) as [Hinv2 Hps].
  assert (self' = self2 ∧ proofs = match r with Ok (Some proof) => [proof] | _ => [] end ++ rest)
    as [-> ->] by (destruct r; by simplify_eq).
  split; [done|]. intros p [Hin|Hin]%elem_of_app; [|by apply Hps].
  destruct r as [[proof|]|e|]; [|by apply elem_of_nil in Hin..].
  apply list_elem_of_singleton in Hin as ->. by destruct (Hp proof eq_refl) as (_ & ? & ?).
Qed.

Lemma coordinator_history_ok me self sent :
  coordinator_history me self sent →
  coordinator_inv me self ∧ ∀ p, p ∈ sent → bi_author (pos_info p) = me ∧
    verify_multi_signatures v (pos_info p) (pos_multi_signature p) = Ok tt.
Proof using ML.
  induction 1 as [timeout cache|self sent ex msgs self' proofs _ [IH Hs] Hv Hadd|self sent now _ [IH Hs]].
  - split; [|by intros p ?%elem_of_nil]. constructor; simpl; try done.
    + by intros i [].
    + intros i. rewrite elem_of_nil. split; [by intros []|done].
    + constructor.
  - destruct (append_signatures_ok me ex msgs self self' proofs IH Hv Hadd) as [? Hp]. split; [done|].
    intros p [?|?]%elem_of_app; [by apply Hs|by apply Hp].
  - pose proof (coordinator_expire_ok me now self IH) as He.
    destruct (coordinator_expire now self) as [self' ids]. by destruct He.
Qed.

(** C20. Every proof of store the coordinator sends is for a batch of this
    validator and passes the verification of the validators that receive it,
    whatever their caches hold. *)
Theorem sent_proofs_verify me self sent p :
  coordinator_history me self sent → p ∈ sent →
  bi_author (pos_info p) = me ∧ ∀ cache, (ProofOfStore_verify v p cache).2 = Ok tt.
Proof using ML.
  intros [_ Hs]%coordinator_history_ok Hp. destruct (Hs p Hp) as [? Hv]. split; [done|].
  intros cache. unfold ProofOfStore_verify. case_bool_decide; [done|]. by rewrite Hv.
Qed.

(** C21. A proof is made by exactly the signature with which the collected voting
    power reaches the quorum: a new valid signature on a batch in progress is
    answered with a verifying proof then, and with none before and after.  If
    the clock stands before the time the proof was begun at, the answer is a
    panic, from the subtraction of the times. *)
Theorem proof_at_quorum me self sent st batch_exists clock sbi :
  coordinator_history me self sent → pc_batch_info_to_proof self !! sbi_info sbi = Some st →
  valid (sbi_info sbi) (sbi_signer sbi) (sbi_signature sbi) →
  ips_aggregated_signature st !! sbi_signer sbi = None →
  expected_answer clock self st sbi
    (coordinator_add_signature batch_exists clock v sbi self).2.
Proof using ML.
  intros [Hinv _]%coordinator_history_ok Hst Hvalid Hnew. unfold coordinator_add_signature.
  rewrite Hst. pose proof (append_signature_ok me clock sbi self st Hinv Hst Hvalid Hnew) as Ha.
  destruct (append_signature clock v sbi self) as [self' r]. by destruct Ha.
Qed.
End coordinator_safety.
