(* ===== verification/Batches.v ===== *)
(** Batches and their messages (consensus/src/quorum_store/types.rs,
    [BatchPayload] of consensus-types/src/common.rs) and the batch coordinator
    that stores and signs what it receives (quorum_store/batch_coordinator.rs). *)
From S2P Require Import Prelude Laptos Payload Expirations BatchStore ProofQueue.

Section batches.
Context `{L : Laptos} `{Q : !QuorumStoreStorage} `{!CryptoHash BatchInfo}.

(** The hash and the serialized size of a [BatchPayload]. *)
Context (batch_payload_hash : AccountAddress → list SignedTransaction → HashValue).
Context (batch_payload_size : AccountAddress → list SignedTransaction → Z).

(** ** Batches *)

Record BatchPayload : Type := {
  bpl_author : AccountAddress;
  bpl_txns : list SignedTransaction;
}.
Definition bpl_hash (self : BatchPayload) : HashValue :=
  batch_payload_hash (bpl_author self) (bpl_txns self).
Definition bpl_num_txns (self : BatchPayload) : Z := Z.of_nat (length (bpl_txns self)).
Definition bpl_num_bytes (self : BatchPayload) : Z :=
  batch_payload_size (bpl_author self) (bpl_txns self).

Record Batch : Type := { batch_info : BatchInfo; batch_payload : BatchPayload }.

Definition Batch_new (batch_id : BatchId) (payload : list SignedTransaction)
    (epoch expiration : Z) (batch_author : AccountAddress) (gas_bucket_start : Z) : Batch :=
  let payload := {| bpl_author := batch_author; bpl_txns := payload |} in
  {| batch_info :=
       {| bi_author := batch_author; bi_batch_id := batch_id; bi_epoch := epoch;
          bi_expiration := expiration; bi_digest := bpl_hash payload;
          bi_num_txns := bpl_num_txns payload; bi_num_bytes := bpl_num_bytes payload;
          bi_gas_bucket_start := gas_bucket_start |};
     batch_payload := payload |}.

Definition Batch_verify (self : Batch) : result anyhow unit :=
  let info := batch_info self in
  let payload := batch_payload self in
  _ ← ensure (bool_decide (bpl_author payload = bi_author info))
        "Payload author doesn't match the info"%string;
  _ ← ensure (bool_decide (bpl_hash payload = bi_digest info))
        "Payload hash doesn't match the digest"%string;
  _ ← ensure (bpl_num_txns payload =? bi_num_txns info)
        "Payload num txns doesn't match batch info"%string;
  _ ← ensure (bpl_num_bytes payload =? bi_num_bytes info)
        "Payload num bytes doesn't match batch info"%string;
  verify_all (λ txn, ensure (SignedTransaction_gas_unit_price txn >=? bi_gas_bucket_start info)
                       "Payload gas unit price doesn't match batch info"%string)
    (bpl_txns payload).

Definition verify_with_digest (requested_digest : HashValue) (self : Batch) : result anyhow unit :=
  _ ← ensure (bool_decide (requested_digest = bi_digest (batch_info self)))
        "Response digest doesn't match the request"%string;
  Batch_verify self.

(** [From<Batch> for PersistedValue] and [TryFrom<PersistedValue> for Batch]. *)
Definition PersistedValue_from (value : Batch) : PersistedValue :=
  {| pv_info := batch_info value; pv_maybe_payload := Some (bpl_txns (batch_payload value)) |}.
Definition Batch_try_from (value : PersistedValue) : result anyhow Batch :=
  match pv_maybe_payload value with
  | Some txns =>
      Ok {| batch_info := pv_info value;
            batch_payload := {| bpl_author := bi_author (pv_info value); bpl_txns := txns |} |}
  | None => Err "Payload not exist"%string
  end.

Definition summary (self : PersistedValue) : list TxnSummaryWithExpiration :=
  match pv_maybe_payload self with
  | Some payload =>
      (λ txn, {| ts_sender := SignedTransaction_sender txn;
                 ts_sequence_number := SignedTransaction_sequence_number txn;
                 ts_expiration_timestamp_secs := SignedTransaction_expiration_timestamp_secs txn;
                 ts_hash := SignedTransaction_committed_hash txn |}) <$> payload
  | None => []
  end.

(** ** Messages *)

Record BatchRequest : Type := {
  breq_epoch : Z;
  breq_source : AccountAddress;
  breq_digest : HashValue;
}.
Definition BatchRequest_verify (peer_id : AccountAddress) (self : BatchRequest) :
    result anyhow unit :=
  if decide (breq_source self = peer_id) then Ok tt else Err "Sender mismatch"%string.

Definition BatchMsg_verify (peer_id : AccountAddress) (max_num_batches : nat)
    (batches : list Batch) : result anyhow unit :=
  _ ← ensure (negb (bool_decide (length batches = O))) "Empty message"%string;
  _ ← ensure (length batches <=? max_num_batches)%nat "Too many batches"%string;
  verify_all (λ batch,
    _ ← ensure (bool_decide (bi_author (batch_info batch) = peer_id))
          "Batch author doesn't match sender"%string;
    Batch_verify batch) batches.

Definition BatchMsg_epoch (batches : list Batch) : result anyhow Z :=
  match batches with
  | [] => Err "Empty message"%string
  | b :: _ =>
      let epoch := bi_epoch (batch_info b) in
      _ ← verify_all (λ batch, ensure (bi_epoch (batch_info batch) =? epoch)
                                 "Epoch mismatch"%string) batches;
      Ok epoch
  end.

(** ** The batch coordinator *)

Record BatchCoordinator : Type := {
  bc_my_peer_id : AccountAddress;
  bc_max_batch_txns : Z;
  bc_max_batch_bytes : Z;
  bc_max_total_txns : Z;
  bc_max_total_bytes : Z;
}.

(** The loop, with the totals so far. *)
Fixpoint ensure_batches (self : BatchCoordinator) (total_txns total_bytes : Z)
    (batches : list Batch) : result anyhow (Z * Z) :=
  match batches with
  | [] => Ok (total_txns, total_bytes)
  | batch :: batches =>
      let info := batch_info batch in
      _ ← ensure (bi_num_txns info <=? bc_max_batch_txns self) "Exceeds batch txn limit"%string;
      _ ← ensure (bi_num_bytes info <=? bc_max_batch_bytes self) "Exceeds batch bytes limit"%string;
      total_txns ← u64_add total_txns (bi_num_txns info);
      total_bytes ← u64_add total_bytes (bi_num_bytes info);
      ensure_batches self total_txns total_bytes batches
  end.

Definition ensure_max_limits (batches : list Batch) (self : BatchCoordinator) :
    result anyhow unit :=
  '(total_txns, total_bytes) ← ensure_batches self 0 0 batches;
  _ ← ensure (total_txns <=? bc_max_total_txns self) "Exceeds total txn limit"%string;
  ensure (total_bytes <=? bc_max_total_bytes self) "Exceeds total bytes limit"%string.

(** What is sent while batches are handled: [RemoteBatch]es to the generator,
    signatures to the author, and [ReceiveBatches] to the proof manager. *)
Record CoordinatorMessages : Type := {
  to_generator : list Batch;
  to_author : option (AccountAddress * list SignedBatchInfo);
  to_proof_manager : option (list (BatchInfo * list TxnSummaryWithExpiration));
}.

Definition persist_and_send_digests (remote : list Batch) (persist_requests : list PersistedValue) :
    SM BatchStore anyhow CoordinatorMessages :=
  match persist_requests with
  | [] => mret {| to_generator := remote; to_author := None; to_proof_manager := None |}
  | req :: _ =>
      signed_batch_infos ← persist persist_requests;
      mret {| to_generator := remote;
              to_author :=
                match signed_batch_infos with
                | [] => None
                | _ => Some (bi_author (pv_info req), signed_batch_infos)
                end;
              to_proof_manager := Some ((λ v, (pv_info v, summary v)) <$> persist_requests) |}
  end.

Definition handle_batches_msg (batches : list Batch) (self : BatchCoordinator) :
    SM BatchStore anyhow CoordinatorMessages := λ store,
  match ensure_max_limits batches self with
  | Ok _ =>
      persist_and_send_digests
        (filter (λ b, bi_author (batch_info b) ≠ bc_my_peer_id self) batches)
        (PersistedValue_from <$> batches) store
  | Err _ => (store, Ok {| to_generator := []; to_author := None; to_proof_manager := None |})
  | Panic => (store, Panic)
  end.
End batches.
