(* ===== verification/BatchMessages.v ===== *)
(** Batch messages from the network to the store: a message that verified is
    stored and signed, and what the signatures promise is kept; a batch survives
    the way through the database. *)
From S2P Require Import Prelude Laptos Payload Expirations BatchStore BatchStoreSafety ProofQueue.
From S2P Require Import Batches.

Section batch_messages.
Context `{L : Laptos} `{Q : !QuorumStoreStorage} `{QL : !QuorumStoreStorageLaws Q}.
Context `{!CryptoHash BatchInfo}.
Context (batch_payload_hash : AccountAddress → list SignedTransaction → HashValue).
Context (batch_payload_size : AccountAddress → list SignedTransaction → Z).

#[local] Abbreviation verify_batch := (Batch_verify batch_payload_hash batch_payload_size).
#[local] Abbreviation verify_msg := (BatchMsg_verify batch_payload_hash batch_payload_size).
#[local] Abbreviation history := (store_history batch_payload_hash).

(** ** Verification *)

Lemma Batch_verify_Ok b :
  verify_batch b = Ok tt →
  bpl_author (batch_payload b) = bi_author (batch_info b) ∧
  batch_payload_hash (bi_author (batch_info b)) (bpl_txns (batch_payload b)) = bi_digest (batch_info b) ∧
  bi_num_txns (batch_info b) = Z.of_nat (length (bpl_txns (batch_payload b))) ∧
  bi_num_bytes (batch_info b) = batch_payload_size (bi_author (batch_info b)) (bpl_txns (batch_payload b)) ∧
  ∀ t, t ∈ bpl_txns (batch_payload b) →
    bi_gas_bucket_start (batch_info b) ≤ SignedTransaction_gas_unit_price t.
Proof using Type.
  unfold Batch_verify. intros Hv. inv_ok. unfold bpl_hash, bpl_num_txns, bpl_num_bytes in *.
  match goal with H : bpl_author _ = _ |- _ => rewrite H in * end.
  split_and!; [done..|]. intros t Hin. rewrite verify_all_Ok in Hv. apply Hv in Hin. inv_ok. lia.
Qed.

Lemma BatchMsg_verify_Ok peer max batches :
  verify_msg peer max batches = Ok tt →
  batches ≠ [] ∧ (length batches ≤ max)%nat ∧
  ∀ b, b ∈ batches → bi_author (batch_info b) = peer ∧ verify_batch b = Ok tt.
Proof using Type.
  unfold BatchMsg_verify. intros (? & Hne & (? & Hmax & Hall)%Ok_bind)%Ok_bind.
  apply Ok_ensure, negb_true_iff, bool_decide_eq_false in Hne.
  apply Ok_ensure, Nat.leb_le in Hmax. split_and!; [by intros ->|done|].
  intros b Hb. rewrite verify_all_Ok in Hall. apply Hall in Hb. by inv_ok.
Qed.

Lemma BatchMsg_epoch_Ok batches epoch :
  BatchMsg_epoch batches = Ok epoch →
  ∀ b, b ∈ batches → bi_epoch (batch_info b) = epoch.
Proof using Type.
  unfold BatchMsg_epoch. destruct batches as [|b0 batches]; [done|].
  intros (? & Hall & [= <-])%Ok_bind b Hb. destruct x. rewrite verify_all_Ok in Hall.
  apply Hall in Hb. by inv_ok.
Qed.

(** A batch goes through the database unchanged: a verified batch is what
    reading back its persisted form gives, and a persisted form with its
    transactions is what persisting the batch read from it gives.  Without the
    transactions nothing is read. *)
Theorem persisted_batch_roundtrip :
  (∀ b, verify_batch b = Ok tt → Batch_try_from (PersistedValue_from b) = Ok b) ∧
  (∀ v b, Batch_try_from v = Ok b → PersistedValue_from b = v) ∧
  ∀ v, pv_maybe_payload v = None → Batch_try_from v = Err "Payload not exist"%string.
Proof using Type.
  split_and!.
  - intros b (Ha & _)%Batch_verify_Ok. destruct b as [info [author txns]]. simpl in *. by subst.
  - intros [info payload] b. unfold Batch_try_from. simpl. destruct payload; [|done]. by intros [= <-].
  - intros v Hv. unfold Batch_try_from. by rewrite Hv.
Qed.

(** ** Limits *)

Definition sum_of (f : BatchInfo → Z) (batches : list Batch) : Z :=
  foldr (λ b n, f (batch_info b) + n) 0 batches.

(** What a validator takes from one message. *)
Definition within_limits (self : BatchCoordinator) (batches : list Batch) : Prop :=
  (∀ b, b ∈ batches → bi_num_txns (batch_info b) ≤ bc_max_batch_txns self ∧
    bi_num_bytes (batch_info b) ≤ bc_max_batch_bytes self) ∧
  sum_of bi_num_txns batches ≤ bc_max_total_txns self ∧
  sum_of bi_num_bytes batches ≤ bc_max_total_bytes self.

Lemma ensure_batches_spec self batches : ∀ txns bytes,
  txns + Z.of_nat (length batches) * bc_max_batch_txns self ≤ u64_MAX →
  bytes + Z.of_nat (length batches) * bc_max_batch_bytes self ≤ u64_MAX →
  0 ≤ bc_max_batch_txns self → 0 ≤ bc_max_batch_bytes self →
  match ensure_batches self txns bytes batches with
  | Ok (txns', bytes') =>
      (∀ b, b ∈ batches → bi_num_txns (batch_info b) ≤ bc_max_batch_txns self ∧
        bi_num_bytes (batch_info b) ≤ bc_max_batch_bytes self) ∧
      txns' = txns + sum_of bi_num_txns batches ∧ bytes' = bytes + sum_of bi_num_bytes batches
  | Err _ => ∃ b, b ∈ batches ∧ (bc_max_batch_txns self < bi_num_txns (batch_info b) ∨
        bc_max_batch_bytes self < bi_num_bytes (batch_info b))
  | Panic => False
  end.
Proof using Type.
  induction batches as [|b batches IH]; intros txns bytes Ht Hb Ht0 Hb0; cbn [ensure_batches].
  { split_and!; [by intros b ?%elem_of_nil|simpl; lia..]. }
  rewrite length_cons in Ht, Hb. unfold ensure.
  destruct (Z.leb_spec (bi_num_txns (batch_info b)) (bc_max_batch_txns self)); cbn [mbind result_bind];
    [|exists b; split; [by left|lia]].
  destruct (Z.leb_spec (bi_num_bytes (batch_info b)) (bc_max_batch_bytes self)); cbn [mbind result_bind];
    [|exists b; split; [by left|lia]].
  rewrite (u64_add_le txns) by lia. cbn [mbind result_bind].
  rewrite (u64_add_le bytes) by lia. cbn [mbind result_bind].
  specialize (IH (txns + bi_num_txns (batch_info b)) (bytes + bi_num_bytes (batch_info b))).
  destruct (ensure_batches self _ _ batches) as [[txns' bytes']|e|]; [| |by apply IH; lia].
  - destruct IH as (Hall & -> & ->); [lia..|]. split_and!; [|simpl; lia..].
    intros b' [->|Hb']%elem_of_cons; [done|by apply Hall].
  - destruct IH as (b' & Hin & ?); [lia..|]. exists b'. split; [by right|done].
Qed.

Lemma ensure_max_limits_spec self batches :
  Z.of_nat (length batches) * bc_max_batch_txns self ≤ u64_MAX →
  Z.of_nat (length batches) * bc_max_batch_bytes self ≤ u64_MAX →
  0 ≤ bc_max_batch_txns self → 0 ≤ bc_max_batch_bytes self →
  match ensure_max_limits batches self with
  | Ok _ => within_limits self batches
  | Err _ => ¬ within_limits self batches
  | Panic => False
  end.
Proof using Type.
  intros Ht Hb Ht0 Hb0. unfold ensure_max_limits.
  pose proof (ensure_batches_spec self batches 0 0 Ht Hb Ht0 Hb0) as He.
  destruct (ensure_batches self 0 0 batches) as [[txns bytes]|e|]; [|intros [Hall _]|done].
  - cbn [mbind result_bind]. destruct He as (Hall & -> & ->). unfold ensure, within_limits.
    destruct (Z.leb_spec (0 + sum_of bi_num_txns batches) (bc_max_total_txns self));
      cbn [mbind result_bind]; [|lia].
    destruct (Z.leb_spec (0 + sum_of bi_num_bytes batches) (bc_max_total_bytes self)); [|lia].
    split_and!; [done|lia..].
  - destruct He as (b & Hin & ?). apply Hall in Hin. lia.
Qed.
(** ** Storing and signing *)

(** The sizes are lengths. *)
Context (batch_payload_size_nonneg : ∀ author txns, 0 ≤ batch_payload_size author txns).

Lemma verified_requests_ok store peer max batches :
  verify_msg peer max batches = Ok tt → BatchMsg_epoch batches = Ok (bst_epoch store) →
  Forall (request_ok batch_payload_hash store) (PersistedValue_from <$> batches).
Proof using batch_payload_size_nonneg.
  intros (_ & _ & Hall)%BatchMsg_verify_Ok Hepoch. apply Forall_forall.
  intros v (b & -> & Hb)%list_elem_of_fmap.
  destruct (Hall b Hb) as (_ & (_ & Hd & _ & Hbytes & _)%Batch_verify_Ok).
  split; [by apply (BatchMsg_epoch_Ok batches)|]. split; [|by eexists].
  unfold bytes_of. simpl. rewrite Hbytes. apply batch_payload_size_nonneg.
Qed.

(** Storing returns when the database can be written, and signs batches it was
    handed. *)
Lemma persist_requests_ok fetched signed store reqs :
  history fetched signed store → Forall (request_ok batch_payload_hash store) reqs →
  (∀ v db, (save_batch v db).2 = Ok tt) →
  ∃ store' sigs, persist reqs store = (store', Ok sigs) ∧
    history fetched (signed ++ (sbi_info <$> sigs)) store' ∧
    ∀ si, si ∈ sigs → ∃ v, v ∈ reqs ∧ sbi_info si = pv_info v.
Proof using QL.
  intros Hh Hreqs Hw. destruct (store_history_inv _ _ _ _ Hh) as (Hinv & Hav & Hep & _).
  assert (∃ store' sigs, persist reqs store = (store', Ok sigs) ∧
    ∀ si, si ∈ sigs → ∃ v, v ∈ reqs ∧ sbi_info si = pv_info v) as (store' & sigs & Hp & Hsigs).
  { pose proof (persist_all_ok _ fetched reqs store Hinv Hav Hep Hreqs) as Hp.
    unfold persist, mbind, SM_bind, modify, mret, SM_ret.
    destruct (persist_all reqs store) as [store1 [rs|e|]]; [|done|].
    - eexists _, _. split; [done|]. intros si ([v ?] & -> & Hin)%list_elem_of_fmap.
      destruct Hp as (_ & _ & _ & _ & _ & Hrs). destruct (Hrs _ _ Hin) as (? & ? & _). by exists v.
    - destruct Hp as (req & db & _ & Hf). by destruct Hf. }
  exists store', sigs. split_and!; [done| |done]. by eapply HistoryPersist.
Qed.

(** Every request is signed if the author's quota takes all of them, none has
    expired, and this validator's key signs. *)
Lemma persist_requests_signed fetched signed store reqs peer store' sigs :
  history fetched signed store → Forall (request_ok batch_payload_hash store) reqs →
  (∀ v db, (save_batch v db).2 = Ok tt) →
  Forall (λ v, author_of v = peer ∧ bst_last_certified_time store < expiration_of v) reqs →
  (∀ info, is_ok (SignedBatchInfo_new info (bst_validator_signer store)) = true) →
  all_room store peer reqs → persist reqs store = (store', Ok sigs) →
  sbi_info <$> sigs = pv_info <$> reqs.
Proof using QL.
  intros Hh Hreqs Hw Hall Hs Hroom. destruct (store_history_inv _ _ _ _ Hh) as (Hinv & Hav & Hep & _).
  destruct (persist_all_room batch_payload_hash peer reqs store Hinv Hav Hroom) as (store1 & res & Hp & Heq).
  { rewrite Forall_forall in Hreqs, Hall. apply Forall_forall. intros v Hv.
    destruct (Hreqs v Hv) as [_ ?]. destruct (Hall v Hv). by split_and!. }
  pose proof (persist_all_ok batch_payload_hash fetched reqs store Hinv Hav Hep Hreqs) as Hok.
  unfold persist, mbind, SM_bind, modify, mret, SM_ret. rewrite Hp in Hok |- *. intros [= _ <-].
  destruct Hok as (_ & _ & _ & _ & _ & Hinfo). rewrite <- Heq, <- !list_fmap_compose.
  apply list_fmap_ext. intros i [req si] Hi. simpl. by apply (Hinfo req), (list_elem_of_lookup_2 _ i).
Qed.

(** C18. A batch message of the store's epoch that verified is handled without a
    panic, as long as the database can be written.  Within the limits it goes to
    the generator, the proof manager and the store; what is sent to the author
    are signatures of batches of the message, and each of these can be read from
    the store with transactions of its digest, unless a batch of the digest was
    fetched with the information of another epoch.  All batches of the message
    are signed, in order, if the author's quota takes them, none has expired and
    this validator's key signs; the store goes on with a history that has them
    signed.  A message beyond a limit changes and sends nothing. *)
Theorem batch_message_handled fetched signed store self peer max batches :
  history fetched signed store →
  verify_msg peer max batches = Ok tt → BatchMsg_epoch batches = Ok (bst_epoch store) →
  (∀ v db, (save_batch v db).2 = Ok tt) →
  0 ≤ bc_max_batch_txns self → 0 ≤ bc_max_batch_bytes self →
  Z.of_nat max * bc_max_batch_txns self ≤ u64_MAX →
  Z.of_nat max * bc_max_batch_bytes self ≤ u64_MAX →
  ∃ store' msgs, handle_batches_msg batches self store = (store', Ok msgs) ∧
    (within_limits self batches →
      to_generator msgs = filter (λ b, bi_author (batch_info b) ≠ bc_my_peer_id self) batches ∧
      to_proof_manager msgs =
        Some ((λ b, (batch_info b, summary (PersistedValue_from b))) <$> batches) ∧
      ∃ sigs, to_author msgs = match sigs with [] => None | _ => Some (peer, sigs) end ∧
        history fetched (signed ++ (sbi_info <$> sigs)) store' ∧
        (∀ si, si ∈ sigs → ∃ b, b ∈ batches ∧ sbi_info si = batch_info b ∧
          let key := {| bk_epoch := bst_epoch store; bk_digest := bi_digest (batch_info b) |} in
          (∃ value, get_batch_from_local key store' = Ok value ∧
            holds_batch batch_payload_hash key value) ∨
          foreign fetched store' (bi_digest (batch_info b))) ∧
        ((∀ b, b ∈ batches → bst_last_certified_time store < bi_expiration (batch_info b)) →
         all_room store peer (PersistedValue_from <$> batches) →
         (∀ info, is_ok (SignedBatchInfo_new info (bst_validator_signer store)) = true) →
         sbi_info <$> sigs = batch_info <$> batches)) ∧
    (¬ within_limits self batches →
      store' = store ∧
      msgs = {| to_generator := []; to_author := None; to_proof_manager := None |}).
Proof using QL batch_payload_size_nonneg.
  intros Hh Hv Hepoch Hw Ht0 Hb0 Ht Hb.
  pose proof (verified_requests_ok store peer max batches Hv Hepoch) as Hreqs.
  apply BatchMsg_verify_Ok in Hv as (Hne & Hlen & Hall).
  pose proof (ensure_max_limits_spec self batches ltac:(nia) ltac:(nia) Ht0 Hb0) as Hl.
  unfold handle_batches_msg. destruct (ensure_max_limits batches self) as [?|e|];
    [|by eexists store, _; split|done].
  destruct batches as [|b batches]; [done|]. unfold persist_and_send_digests. rewrite fmap_cons.
  rewrite <- fmap_cons. unfold mbind, SM_bind, mret, SM_ret.
  destruct (persist_requests_ok fetched signed store _ Hh Hreqs Hw) as (store' & sigs & Hp & Hh' & Hsigs).
  rewrite Hp. eexists store', _. split; [done|]. split; [intros _|done].
  cbn [to_generator to_author to_proof_manager].
  split_and!; [done|by rewrite <- list_fmap_compose|]. exists sigs. split_and!; [|done| |].
  - destruct (Hall b) as [<- _]; [by left|done].
  - intros si Hsi. destruct (Hsigs si Hsi) as (v & (b' & -> & Hb')%list_elem_of_fmap & Heq).
    exists b'. split_and!; [done|done|]. destruct (store_history_inv _ _ _ _ Hh') as (Hinv & _ & _ & Hsg).
    assert (sbi_info si ∈ signed ++ (sbi_info <$> sigs)) as Hin.
    { apply elem_of_app. right. apply list_elem_of_fmap. by exists si. }
    destruct (Hsg _ Hin) as [He Hdb]. rewrite Heq in He, Hdb. simpl in He, Hdb.
    rewrite (BatchMsg_epoch_Ok _ _ Hepoch b' Hb') in *. destruct Hdb; [left|by right].
    by apply local_from_db.
  - intros Hexp Hroom Hs.
    rewrite (persist_requests_signed fetched signed store _ peer store' sigs Hh Hreqs Hw); try done.
    + by rewrite <- list_fmap_compose.
    + apply Forall_forall. intros v (b' & -> & Hb')%list_elem_of_fmap.
      split; [by apply (Hall b')|by apply Hexp].
Qed.
End batch_messages.
