(* ===== verification/QuorumStoreDb.v ===== *)
(** The database of the quorum store (consensus/src/quorum_store/
    quorum_store_db.rs) on top of a schema database, and that it is the storage
    the batch store relies on. *)
From S2P Require Import Prelude Laptos Payload Expirations BatchStore.

Section quorum_store_db.
Context `{L : Laptos}.

(** The schema database: two column families.  [iter] is collected into a
    list, and a [SchemaBatch] with one deletion is written at once. *)
Class SchemaDB : Type := {
  DB : Type;
  db_put_batch : BatchKey → PersistedValue → SM DB anyhow unit;
  db_read_batch : BatchKey → DB → result anyhow (option PersistedValue);
  db_put_batch_id : Z → BatchId → SM DB anyhow unit;
  db_delete_batch_id : Z → SM DB anyhow unit;
  db_iter_batch_ids : DB → result anyhow (list (Z * BatchId));
}.

(** A successful write is seen by later reads, a failed one changes nothing,
    and the families are separate. *)
Class SchemaDBLaws (S : SchemaDB) : Type := {
  batches_in : DB → gmap BatchKey PersistedValue;
  batch_ids_in : DB → gmap Z BatchId;
  read_batch k db r : db_read_batch k db = Ok r → r = batches_in db !! k;
  read_batch_stored k db v : batches_in db !! k = Some v → db_read_batch k db = Ok (Some v);
  read_batch_same k db db' :
    batches_in db !! k = batches_in db' !! k → db_read_batch k db = db_read_batch k db';
  put_batch k v db db' r : db_put_batch k v db = (db', r) →
    batches_in db' = (if is_ok r then <[k := v]> (batches_in db) else batches_in db) ∧
    batch_ids_in db' = batch_ids_in db;
  put_batch_id e i db db' r : db_put_batch_id e i db = (db', r) →
    batch_ids_in db' = (if is_ok r then <[e := i]> (batch_ids_in db) else batch_ids_in db) ∧
    batches_in db' = batches_in db;
  delete_batch_id_in e db db' r : db_delete_batch_id e db = (db', r) →
    batch_ids_in db' = (if is_ok r then delete e (batch_ids_in db) else batch_ids_in db) ∧
    batches_in db' = batches_in db;
  iter_batch_ids db l : db_iter_batch_ids db = Ok l → l ≡ₚ map_to_list (batch_ids_in db);
}.

Context `{S : !SchemaDB}.

Definition qs_save_batch (batch : PersistedValue) : SM DB anyhow unit :=
  db_put_batch {| bk_epoch := bi_epoch (pv_info batch); bk_digest := bi_digest (pv_info batch) |}
    batch.
Definition qs_get_batch (key : BatchKey) (db : DB) : result anyhow (option PersistedValue) :=
  db_read_batch key db.
Definition delete_batch_id (epoch : Z) : SM DB anyhow unit := db_delete_batch_id epoch.
Definition save_batch_id (epoch : Z) (batch_id : BatchId) : SM DB anyhow unit :=
  db_put_batch_id epoch batch_id.
Definition get_all_batch_id_epochs (db : DB) : result anyhow (list Z) :=
  l ← db_iter_batch_ids db; Ok l.*1.

Fixpoint clean_batch_ids (current_epoch : Z) (ret : option BatchId)
    (epoch_batch_id : list (Z * BatchId)) : SM DB anyhow (option BatchId) :=
  match epoch_batch_id with
  | [] => mret ret
  | (epoch, batch_id) :: epoch_batch_id =>
      if current_epoch >=? epoch then
        if epoch <? current_epoch then
          _ ← delete_batch_id epoch;
          clean_batch_ids current_epoch ret epoch_batch_id
        else clean_batch_ids current_epoch (Some batch_id) epoch_batch_id
      else λ db, (db, Panic)
  end.

Definition clean_and_get_batch_id (current_epoch : Z) : SM DB anyhow (option BatchId) := λ db,
  match db_iter_batch_ids db with
  | Ok epoch_batch_id => clean_batch_ids current_epoch None epoch_batch_id db
  | Err e => (db, Err e)
  | Panic => (db, Panic)
  end.

#[export] Instance SchemaStorage : QuorumStoreStorage := {
  QuorumStoreDB := DB;
  save_batch := qs_save_batch;
  db_get_batch := qs_get_batch;
}.

Context `{SL : !SchemaDBLaws S}.

(** The database keeps what the batch store relies on. *)
#[export] Instance SchemaStorageLaws : QuorumStoreStorageLaws SchemaStorage.
Proof using SL.
  split; simpl; unfold qs_save_batch, qs_get_batch.
  - intros v db db' Hp. apply put_batch in Hp as [Hp _]. simpl in Hp. apply read_batch_stored.
    rewrite Hp. unfold pv_key. by rewrite lookup_insert_eq.
  - intros v db db' k Hp Hne. apply put_batch in Hp as [Hp _]. simpl in Hp. apply read_batch_same.
    rewrite Hp. by rewrite lookup_insert_ne by (by intros <-).
  - intros v db db' r k Hp Hr. apply put_batch in Hp as [Hp _]. apply read_batch_same.
    rewrite Hp. destruct r as [[]| |]; done.
Qed.

(** The id of the current epoch is found and kept; those of earlier epochs go. *)
Lemma clean_batch_ids_ok current_epoch l : ∀ ret db,
  (∀ e i, (e, i) ∈ l → e ≤ current_epoch) →
  let '(db', r) := clean_batch_ids current_epoch ret l db in
  batch_ids_in db' !! current_epoch = batch_ids_in db !! current_epoch ∧
  (∀ e i, batch_ids_in db' !! e = Some i → batch_ids_in db !! e = Some i) ∧
  match r with
  | Ok found => found = last (option_list ret ++ (filter (λ p, p.1 = current_epoch) l).*2)
  | Err _ => True
  | Panic => ∃ e db1, (db_delete_batch_id e db1).2 = Panic
  end.
Proof using SL.
  induction l as [|[e i] l IH]; intros ret db Hle; cbn [clean_batch_ids].
  { unfold mret, SM_ret. split_and!; [done..|]. rewrite app_nil_r. by destruct ret. }
  assert (∀ e' i', (e', i') ∈ l → e' ≤ current_epoch) as Hl.
  { intros e' i' Hin. apply (Hle e' i'). by right. }
  assert (e ≤ current_epoch) as He by (apply (Hle e i); by left). rewrite Z.geb_leb.
  destruct (Z.leb_spec e current_epoch); [|lia]. rewrite filter_cons.
  destruct (Z.ltb_spec e current_epoch) as [Hlt|Hge].
  - rewrite decide_False by (simpl; lia). unfold mbind, SM_bind, delete_batch_id.
    destruct (db_delete_batch_id e db) as [db1 r1] eqn:Hd.
    pose proof (delete_batch_id_in e db db1 r1 Hd) as [Hids _].
    assert (batch_ids_in db1 !! current_epoch = batch_ids_in db !! current_epoch) as Hcur.
    { rewrite Hids. destruct (is_ok r1); [|done]. by rewrite lookup_delete_ne by lia. }
    assert (∀ e i, batch_ids_in db1 !! e = Some i → batch_ids_in db !! e = Some i) as Hsub.
    { rewrite Hids. destruct (is_ok r1); [|done]. by intros ? ? [_ ?]%lookup_delete_Some. }
    destruct r1 as [[]|err|]; [|done|split_and!; [done..|]; exists e, db; by rewrite Hd].
    specialize (IH ret db1 Hl). destruct (clean_batch_ids current_epoch ret l db1) as [db' r].
    destruct IH as (? & ? & ?). split_and!; [congruence|auto|done].
  - rewrite decide_True by (simpl; lia). specialize (IH (Some i) db Hl).
    destruct (clean_batch_ids current_epoch (Some i) l db) as [db' r].
    destruct IH as (? & ? & Hr). split_and!; [done..|]. destruct r; [|done..]. rewrite Hr.
    cbn [fmap list_fmap option_list]. destruct ((filter _ l).*2) as [|j js] eqn:Hf.
    + simpl. by rewrite last_snoc.
    + simpl. destruct ret; simpl; by rewrite ?last_cons_cons.
Qed.

Lemma filter_none {A} (l : list A) (P : A → Prop) `{∀ a, Decision (P a)} :
  (∀ a, a ∈ l → ¬ P a) → filter P l = [].
Proof using Type.
  induction l as [|a l IH]; intros Hn; [done|].
  rewrite filter_cons, decide_False, IH; [done| |].
  - intros b Hb. apply Hn. by right.
  - apply Hn. by left.
Qed.

Lemma clean_and_get_batch_id_ok current_epoch db :
  (∀ e i, batch_ids_in db !! e = Some i → e ≤ current_epoch) →
  let '(db', r) := clean_and_get_batch_id current_epoch db in
  batch_ids_in db' !! current_epoch = batch_ids_in db !! current_epoch ∧
  (∀ e i, batch_ids_in db' !! e = Some i → batch_ids_in db !! e = Some i) ∧
  ∀ found, r = Ok found → found = batch_ids_in db !! current_epoch.
Proof using SL.
  intros Hle. unfold clean_and_get_batch_id.
  destruct (db_iter_batch_ids db) as [l|err|] eqn:Hi; [|done..].
  apply iter_batch_ids in Hi.
  pose proof (clean_batch_ids_ok current_epoch l None db) as Hc.
  destruct (clean_batch_ids current_epoch None l db) as [db' r].
  destruct Hc as (H1 & H2 & H3).
  { intros e i. rewrite Hi, elem_of_map_to_list. apply Hle. }
  split_and!; [done..|]. intros found ->. rewrite H3. simpl.
  assert (NoDup l.*1) as Hnd by (rewrite Hi; apply NoDup_fst_map_to_list).
  destruct (batch_ids_in db !! current_epoch) as [i|] eqn:Hd.
  - assert ((current_epoch, i) ∈ l) as (l1 & l2 & ->)%list_elem_of_split
      by (by rewrite Hi, elem_of_map_to_list).
    rewrite fmap_app in Hnd. apply NoDup_app in Hnd as (_ & Hnd1 & [Hnd2 _]%NoDup_cons).
    rewrite filter_app, filter_cons, decide_True by done.
    rewrite (filter_none l1), (filter_none l2); [done| |].
    + intros p Hp Heq. apply Hnd2, list_elem_of_fmap. by exists p.
    + intros p Hp Heq. apply (Hnd1 p.1); [apply list_elem_of_fmap; by exists p|].
      rewrite Heq. by left.
  - rewrite filter_none; [done|]. intros [e i] Hp Heq. simpl in Heq. subst e.
    rewrite Hi, elem_of_map_to_list in Hp. congruence.
Qed.
End quorum_store_db.
