(* ===== verification/BatchGenerator.v ===== *)
(** The batch generator of the quorum store (consensus/src/quorum_store/
    batch_generator.rs): it cuts the transactions pulled from the mempool into
    batches by gas price, and keeps track of those in progress so that they are
    not pulled again.

    The pull itself and the adaptive rate of [start], which is computed in
    floating point, are not modelled: the transactions are an argument. *)
From S2P Require Import Prelude Laptos Payload Expirations BatchStore ProofQueue ProofManager.
From S2P Require Import Batches QuorumStoreDb.

(** [TransactionInProgress] of the laptos crate: the highest gas price of a
    transaction and the number of batches in progress that hold it. *)
Class InProgress : Type := {
  TransactionInProgress : Type;
  TransactionInProgress_new : Z → TransactionInProgress;
  TransactionInProgress_increment : TransactionInProgress → result anyhow TransactionInProgress;
  TransactionInProgress_decrement : TransactionInProgress → result anyhow (TransactionInProgress * Z);
  tip_gas_unit_price : TransactionInProgress → Z;
  tip_set_gas_unit_price : Z → TransactionInProgress → TransactionInProgress;
}.

Section batch_generator.
Context `{L : Laptos} `{S : !SchemaDB} `{P : InProgress}.
Context (batch_payload_hash : AccountAddress → list SignedTransaction → HashValue).
Context (batch_payload_size : AccountAddress → list SignedTransaction → Z).

(** The settings of [QuorumStoreConfig] that are used. *)
Record GeneratorConfig : Type := {
  sender_max_batch_txns : nat;
  sender_max_batch_bytes : Z;
  sender_max_num_batches : Z;
  batch_buckets : list Z;
  batch_expiry_gap_when_init_usecs : Z;
  remote_batch_expiry_gap_when_init_usecs : Z;
}.

Record BatchInProgress : Type := {
  bip_txns : list TransactionSummary;
  bip_expiry_time_usecs : Z;
}.

Record BatchGenerator : Type := {
  bg_epoch : Z;
  bg_my_peer_id : AccountAddress;
  bg_batch_id : BatchId;
  bg_db : DB;
  bg_config : GeneratorConfig;
  bg_batches_in_progress : gmap (AccountAddress * BatchId) BatchInProgress;
  bg_commited_txns_buffer : list (TransactionSummary * TransactionInProgress);
  bg_txns_in_progress_sorted : gmap TransactionSummary TransactionInProgress;
  bg_batch_expirations : TimeExpirations (AccountAddress * BatchId);
  bg_latest_block_timestamp : Z;
}.

(** Updates of the fields. *)
Definition with_ids (batch_id : BatchId) (db : DB) (self : BatchGenerator) : BatchGenerator :=
  {| bg_epoch := bg_epoch self; bg_my_peer_id := bg_my_peer_id self; bg_batch_id := batch_id;
     bg_db := db; bg_config := bg_config self;
     bg_batches_in_progress := bg_batches_in_progress self;
     bg_commited_txns_buffer := bg_commited_txns_buffer self;
     bg_txns_in_progress_sorted := bg_txns_in_progress_sorted self;
     bg_batch_expirations := bg_batch_expirations self;
     bg_latest_block_timestamp := bg_latest_block_timestamp self |}.
Definition with_in_progress (batches : gmap (AccountAddress * BatchId) BatchInProgress)
    (txns : gmap TransactionSummary TransactionInProgress)
    (expirations : TimeExpirations (AccountAddress * BatchId)) (self : BatchGenerator) :
    BatchGenerator :=
  {| bg_epoch := bg_epoch self; bg_my_peer_id := bg_my_peer_id self;
     bg_batch_id := bg_batch_id self; bg_db := bg_db self; bg_config := bg_config self;
     bg_batches_in_progress := batches;
     bg_commited_txns_buffer := bg_commited_txns_buffer self;
     bg_txns_in_progress_sorted := txns; bg_batch_expirations := expirations;
     bg_latest_block_timestamp := bg_latest_block_timestamp self |}.
Definition with_committed (buffer : list (TransactionSummary * TransactionInProgress))
    (latest_block_timestamp : Z) (self : BatchGenerator) : BatchGenerator :=
  {| bg_epoch := bg_epoch self; bg_my_peer_id := bg_my_peer_id self;
     bg_batch_id := bg_batch_id self; bg_db := bg_db self; bg_config := bg_config self;
     bg_batches_in_progress := bg_batches_in_progress self;
     bg_commited_txns_buffer := buffer;
     bg_txns_in_progress_sorted := bg_txns_in_progress_sorted self;
     bg_batch_expirations := bg_batch_expirations self;
     bg_latest_block_timestamp := latest_block_timestamp |}.

(** [new] on the database a previous run may have left; [now] is the clock in
    microseconds. *)
Definition BatchGenerator_new (epoch : Z) (my_peer_id : AccountAddress) (config : GeneratorConfig)
    (now : Z) (db : DB) : DB * result anyhow BatchGenerator :=
  match clean_and_get_batch_id epoch db with
  | (db, Ok saved) =>
      let ids :=
        batch_id ← match saved with
                   | Some id => BatchId_increment id
                   | None => Ok (BatchId_new now)
                   end;
        incremented_batch_id ← BatchId_increment batch_id;
        Ok (batch_id, incremented_batch_id) in
      match ids with
      | Ok (batch_id, incremented_batch_id) =>
          match save_batch_id epoch incremented_batch_id db with
          | (db, Ok _) =>
              (db, Ok {| bg_epoch := epoch; bg_my_peer_id := my_peer_id; bg_batch_id := batch_id;
                         bg_db := db; bg_config := config; bg_batches_in_progress := ∅;
                         bg_commited_txns_buffer := []; bg_txns_in_progress_sorted := ∅;
                         bg_batch_expirations := TimeExpirations_new;
                         bg_latest_block_timestamp := 0 |})
          | (db, _) => (db, Panic)
          end
      | _ => (db, Panic)
      end
  | (db, _) => (db, Panic)
  end.

(** ** Batches in progress *)

(** One transaction of a new batch. *)
Definition insert_txn (txns_in_progress : gmap TransactionSummary TransactionInProgress)
    (txn : SignedTransaction) : result anyhow (gmap TransactionSummary TransactionInProgress) :=
  let summary := TransactionSummary_of txn in
  let gas_unit_price := SignedTransaction_gas_unit_price txn in
  txn_info ← TransactionInProgress_increment
    (default (TransactionInProgress_new gas_unit_price) (txns_in_progress !! summary));
  Ok (<[summary := tip_set_gas_unit_price (Z.max gas_unit_price (tip_gas_unit_price txn_info))
                     txn_info]> txns_in_progress).

(** A batch that is in progress already is left alone, so that its expiry time
    is never the maximum of two. *)
Definition insert_batch (author : AccountAddress) (batch_id : BatchId)
    (txns : list SignedTransaction) (expiry_time_usecs : Z) (self : BatchGenerator) :
    result anyhow BatchGenerator :=
  match bg_batches_in_progress self !! (author, batch_id) with
  | Some _ => Ok self
  | None =>
      in_progress ← fold_result insert_txn (bg_txns_in_progress_sorted self) txns;
      Ok (with_in_progress
            (<[(author, batch_id) :=
                 {| bip_txns := TransactionSummary_of <$> txns;
                    bip_expiry_time_usecs := expiry_time_usecs |}]> (bg_batches_in_progress self))
            in_progress
            (add_item (author, batch_id) expiry_time_usecs (bg_batch_expirations self)) self)
  end.

Definition remove_txn (txns_in_progress : gmap TransactionSummary TransactionInProgress)
    (txn : TransactionSummary) : result anyhow (gmap TransactionSummary TransactionInProgress) :=
  match txns_in_progress !! txn with
  | Some info =>
      '(info, count) ← TransactionInProgress_decrement info;
      Ok (if count =? 0 then delete txn txns_in_progress else <[txn := info]> txns_in_progress)
  | None => Ok txns_in_progress
  end.

Definition remove_batch_in_progress (author : AccountAddress) (batch_id : BatchId)
    (self : BatchGenerator) : result anyhow BatchGenerator :=
  match bg_batches_in_progress self !! (author, batch_id) with
  | Some batch_in_progress =>
      in_progress ← fold_result remove_txn (bg_txns_in_progress_sorted self)
        (bip_txns batch_in_progress);
      Ok (with_in_progress (delete (author, batch_id) (bg_batches_in_progress self)) in_progress
            (bg_batch_expirations self) self)
  | None => Ok self
  end.

(** ** Cutting into batches *)

Definition create_new_batch (txns : list SignedTransaction) (expiry_time bucket_start : Z)
    (self : BatchGenerator) : result anyhow (BatchGenerator * Batch) :=
  let batch_id := bg_batch_id self in
  next ← BatchId_increment batch_id;
  match save_batch_id (bg_epoch self) next (bg_db self) with
  | (db, Ok _) =>
      self ← insert_batch (bg_my_peer_id self) batch_id txns expiry_time (with_ids next db self);
      Ok (self, Batch_new batch_payload_hash batch_payload_size batch_id txns (bg_epoch self)
                  expiry_time (bg_my_peer_id self) bucket_start)
  | _ => Panic
  end.

(** The number of leading transactions that fit into so many bytes. *)
Fixpoint num_fitting (batch_bytes_remaining : Z) (txns : list SignedTransaction) : nat :=
  match txns with
  | [] => O
  | txn :: txns =>
      let txn_bytes := SignedTransaction_txn_bytes_len txn in
      if txn_bytes <=? batch_bytes_remaining
      then Datatypes.S (num_fitting (batch_bytes_remaining - txn_bytes) txns)
      else O
  end.

(** The loop variables of [bucket_into_batches]: the generator, the batches,
    the transactions left and the number of batches still allowed. *)
Definition CutState : Type := BatchGenerator * list Batch * list SignedTransaction * Z.

(** [fuel] bounds the iterations, each of which takes at least one transaction. *)
Fixpoint push_bucket_to_batches (fuel : nat) (num_txns_in_bucket : nat)
    (expiry_time bucket_start : Z) (st : CutState) : result anyhow CutState :=
  let '(self, batches, txns, total_batches_remaining) := st in
  match num_txns_in_bucket, fuel with
  | O, _ => Ok st
  | txns_remaining, Datatypes.S fuel =>
      if total_batches_remaining =? 0 then Ok st
      else
        let num_take_txns :=
          Nat.min (sender_max_batch_txns (bg_config self)) txns_remaining in
        let num_batch_txns :=
          num_fitting (sender_max_batch_bytes (bg_config self)) (take num_take_txns txns) in
        if (0 <? num_batch_txns)%nat then
          '(self, batch) ← create_new_batch (take num_batch_txns txns) expiry_time bucket_start self;
          push_bucket_to_batches fuel (txns_remaining - num_batch_txns) expiry_time bucket_start
            (self, batches ++ [batch], drop num_batch_txns txns,
             u64_saturating_sub total_batches_remaining 1)
        else
          match txns with
          | [] => Panic
          | _ :: txns =>
              push_bucket_to_batches fuel (txns_remaining - 1) expiry_time bucket_start
                (self, batches, txns, total_batches_remaining)
          end
  | _, O => Panic
  end.

(** The number of transactions whose gas price is at least [bucket_start], in a
    list of descending gas prices: the point [binary_search_by_key] finds for
    [u64::MAX - (bucket_start - 1)] and the zero address, which is no sender. *)
Fixpoint num_txns_from (bucket_start : Z) (txns : list SignedTransaction) : nat :=
  match txns with
  | [] => O
  | txn :: txns =>
      if u64_MAX - SignedTransaction_gas_unit_price txn <? u64_MAX - (bucket_start - 1)
      then Datatypes.S (num_txns_from bucket_start txns)
      else O
  end.

Fixpoint push_buckets (expiry_time : Z) (buckets : list Z) (st : CutState) :
    result anyhow (CutState * bool) :=
  match buckets with
  | [] => Ok (st, true)
  | bucket_start :: buckets =>
      let '(self, batches, txns, max_batches_remaining) := st in
      if bool_decide (length txns = O) || (max_batches_remaining =? 0) then Ok (st, false)
      else
        _ ← u64_sub bucket_start 1;
        let num_txns_in_bucket := num_txns_from bucket_start txns in
        if (num_txns_in_bucket =? 0)%nat then push_buckets expiry_time buckets st
        else
          st ← push_bucket_to_batches num_txns_in_bucket num_txns_in_bucket expiry_time
                 bucket_start st;
          push_buckets expiry_time buckets st
  end.

(** Buckets from the highest down, then what is left in the bucket of zero. *)
Definition bucket_into_batches (pulled_txns : list SignedTransaction) (expiry_time : Z)
    (self : BatchGenerator) : result anyhow (BatchGenerator * list Batch) :=
  let pulled_txns :=
    sort_by (λ a b, u64_MAX - SignedTransaction_gas_unit_price a <=?
                    u64_MAX - SignedTransaction_gas_unit_price b) pulled_txns in
  let reverse_buckets_excluding_zero := reverse (drop 1 (batch_buckets (bg_config self))) in
  '(st, more) ← push_buckets expiry_time reverse_buckets_excluding_zero
                  (self, [], pulled_txns, sender_max_num_batches (bg_config self));
  let '(self, batches, txns, max_batches_remaining) := st in
  if (more : bool) && negb (bool_decide (length txns = O)) && (max_batches_remaining >? 0) then
    st ← push_bucket_to_batches (length txns) (length txns) expiry_time 0 st;
    let '(self, batches, _, _) := st in Ok (self, batches)
  else Ok (self, batches).

(** [handle_scheduled_pull] for the transactions the mempool answered with;
    none when the request failed. *)
Definition handle_scheduled_pull (now : Z) (pulled_txns : list SignedTransaction)
    (self : BatchGenerator) : result anyhow (BatchGenerator * list Batch) :=
  match pulled_txns with
  | [] => Ok (self, [])
  | _ =>
      expiry_time ← u64_add now (batch_expiry_gap_when_init_usecs (bg_config self));
      bucket_into_batches pulled_txns expiry_time self
  end.

(** What the mempool is asked to leave out. *)
Definition exclude_transactions (self : BatchGenerator) :
    gmap TransactionSummary TransactionInProgress :=
  foldl (λ excluded e, <[e.1 := e.2]> excluded) (bg_txns_in_progress_sorted self)
    (bg_commited_txns_buffer self).

(** ** Commands *)

Definition handle_remote_batch (now : Z) (author : AccountAddress) (batch_id : BatchId)
    (txns : list SignedTransaction) (self : BatchGenerator) : result anyhow BatchGenerator :=
  expiry_time_usecs ← u64_add now (remote_batch_expiry_gap_when_init_usecs (bg_config self));
  insert_batch author batch_id txns expiry_time_usecs self.

(** One committed batch: its transactions are kept until the next commit. *)
Definition commit_batch (self : BatchGenerator) (batch : BatchInfo) : result anyhow BatchGenerator :=
  let key := (bi_author batch, bi_batch_id batch) in
  let committed :=
    match bg_batches_in_progress self !! key with
    | Some batch_in_progress =>
        omap (λ txn_summary,
                (λ info, (txn_summary, info)) <$> bg_txns_in_progress_sorted self !! txn_summary)
          (bip_txns batch_in_progress)
    | None => []
    end in
  remove_batch_in_progress key.1 key.2
    (with_committed (bg_commited_txns_buffer self ++ committed)
       (bg_latest_block_timestamp self) self).

(** One expired batch. *)
Definition expire_batch (block_timestamp : Z) (self : BatchGenerator)
    (key : AccountAddress * BatchId) : result anyhow BatchGenerator :=
  match bg_batches_in_progress self !! key with
  | Some batch_in_progress =>
      if bip_expiry_time_usecs batch_in_progress >? block_timestamp then
        Ok (with_in_progress (bg_batches_in_progress self) (bg_txns_in_progress_sorted self)
              (add_item key (bip_expiry_time_usecs batch_in_progress) (bg_batch_expirations self))
              self)
      else remove_batch_in_progress key.1 key.2 self
  | None => remove_batch_in_progress key.1 key.2 self
  end.

Definition handle_generator_commit (block_timestamp : Z) (batches : list BatchInfo)
    (self : BatchGenerator) : result anyhow BatchGenerator :=
  if bg_latest_block_timestamp self <=? block_timestamp then
    self ← fold_result commit_batch (with_committed [] block_timestamp self) batches;
    let '(rest, expired) := expire block_timestamp (bg_batch_expirations self) in
    fold_result (expire_batch block_timestamp)
      (with_in_progress (bg_batches_in_progress self) (bg_txns_in_progress_sorted self) rest self)
      (elements expired)
  else Panic.

Definition handle_proof_expiration (batch_ids : list BatchId) (self : BatchGenerator) :
    result anyhow BatchGenerator :=
  fold_result (λ self batch_id, remove_batch_in_progress (bg_my_peer_id self) batch_id self)
    self batch_ids.
End batch_generator.
