(* ===== verification/BatchGeneratorSafety.v ===== *)
(** The batch generator: the batches it cuts keep the limits and verify at the
    other validators, ids are not reused after a crash, and a transaction is
    left out of the next pull exactly while a batch in progress holds it. *)
From S2P Require Import Prelude Laptos Payload Expirations BatchStore ProofQueue ProofManager.
From S2P Require Import Batches QuorumStoreDb BatchGenerator.

(** Documented behaviour of [TransactionInProgress]: a counter of 64 bits that
    starts at zero. *)
Class InProgressLaws (P : InProgress) : Type := {
  tip_count : TransactionInProgress → Z;
  count_new gas : tip_count (TransactionInProgress_new gas) = 0;
  increment_total t :
    tip_count t < u64_MAX → ∃ t', TransactionInProgress_increment t = Ok t';
  count_increment t t' :
    TransactionInProgress_increment t = Ok t' → tip_count t' = tip_count t + 1;
  count_decrement t : 0 < tip_count t →
    ∃ t', TransactionInProgress_decrement t = Ok (t', tip_count t - 1) ∧
      tip_count t' = tip_count t - 1;
  count_set_gas gas t : tip_count (tip_set_gas_unit_price gas t) = tip_count t;
}.

Section batch_generator_safety.
Context `{L : Laptos} `{S : !SchemaDB} `{P : InProgress} `{PL : !InProgressLaws P}.
Context (batch_payload_hash : AccountAddress → list SignedTransaction → HashValue).
Context (batch_payload_size : AccountAddress → list SignedTransaction → Z).

#[local] Abbreviation verify_batch := (Batch_verify batch_payload_hash batch_payload_size).
#[local] Abbreviation create := (create_new_batch batch_payload_hash batch_payload_size).
#[local] Abbreviation push_bucket := (push_bucket_to_batches batch_payload_hash batch_payload_size).
#[local] Abbreviation cut := (bucket_into_batches batch_payload_hash batch_payload_size).

(** ** Verified batches *)

Definition txns_of_batch (b : Batch) : list SignedTransaction := bpl_txns (batch_payload b).
Definition gas_of (txn : SignedTransaction) : Z := SignedTransaction_gas_unit_price txn.
Definition bytes_len (txn : SignedTransaction) : Z := SignedTransaction_txn_bytes_len txn.

(** A batch made of transactions of its bucket verifies. *)
Lemma Batch_new_verifies id txns epoch expiration author bucket :
  Forall (λ txn, bucket ≤ gas_of txn) txns →
  verify_batch (Batch_new batch_payload_hash batch_payload_size id txns epoch expiration author bucket) = Ok tt.
Proof using Type.
  intros Hgas. unfold Batch_verify. simpl. rewrite !bool_decide_true, !Z.eqb_refl by done. simpl.
  apply verify_all_Ok. intros txn Ht. rewrite Forall_forall in Hgas. apply Hgas in Ht. unfold ensure.
  rewrite Z.geb_leb, (proj2 (Z.leb_le _ _)); done.
Qed.

(** ** Counters *)

(** In how many batches a transaction is in progress. *)
Definition count_of (txns : gmap TransactionSummary TransactionInProgress)
    (s : TransactionSummary) : Z :=
  match txns !! s with Some t => tip_count t | None => 0 end.

Lemma insert_txns_total l : ∀ txns,
  (∀ s, count_of txns s + Z.of_nat (length l) ≤ u64_MAX) →
  ∃ txns', fold_result insert_txn txns l = Ok txns' ∧
    ∀ s, count_of txns' s ≤ count_of txns s + Z.of_nat (length l).
Proof using Type.
  induction l as [|txn l IH]; intros txns Hle.
  { exists txns. split; [done|]. intros. simpl. lia. }
  rewrite length_cons in Hle. set (x := TransactionSummary_of txn).
  set (old := default (TransactionInProgress_new (SignedTransaction_gas_unit_price txn)) (txns !! x)).
  assert (tip_count old = count_of txns x) as Hold.
  { unfold old, count_of. destruct (txns !! x); simpl; [done|]. by rewrite count_new. }
  destruct (increment_total old) as [info Hinc]; [specialize (Hle x); lia|].
  pose proof (count_increment _ _ Hinc) as Hinfo.
  cbn [fold_result]. unfold insert_txn at 2. fold x old. rewrite Hinc. cbn [mbind result_bind].
  set (txns1 := <[x := _]> txns).
  assert (∀ s, count_of txns1 s ≤ count_of txns s + 1) as H1.
  { intros s. unfold txns1, count_of at 1. destruct (decide (x = s)) as [<-|Hne].
    - rewrite lookup_insert_eq, count_set_gas. lia.
    - rewrite lookup_insert_ne by done. fold (count_of txns s). lia. }
  destruct (IH txns1) as (txns' & Hf & Hc); [intros s; specialize (H1 s); specialize (Hle s); lia|].
  exists txns'. split; [done|]. intros s. specialize (Hc s). specialize (H1 s).
  rewrite length_cons. lia.
Qed.

(** ** Cutting *)

Definition sum_bytes (txns : list SignedTransaction) : Z := foldr (λ t n, bytes_len t + n) 0 txns.

Lemma num_fitting_spec txns : ∀ limit,
  0 ≤ limit → (∀ t, t ∈ txns → 0 ≤ bytes_len t) →
  (num_fitting limit txns ≤ length txns)%nat ∧
  sum_bytes (take (num_fitting limit txns) txns) ≤ limit ∧
  Forall (λ t, bytes_len t ≤ limit) (take (num_fitting limit txns) txns).
Proof using Type.
  induction txns as [|t txns IH]; intros limit Hl Hnn; simpl; [done|].
  assert (0 ≤ bytes_len t) as Ht by (apply Hnn; by left). unfold bytes_len in Ht.
  destruct (Z.leb_spec (SignedTransaction_txn_bytes_len t) limit) as [Hle|];
    [|split_and!; [simpl; lia..|constructor]].
  destruct (IH (limit - SignedTransaction_txn_bytes_len t)) as (? & ? & Hall); [lia| |].
  { intros t' Ht'. apply Hnn. by right. }
  simpl. unfold bytes_len in *. split_and!; [lia..|]. constructor; [done|].
  eapply Forall_impl; [exact Hall|]. simpl. intros t' ?. lia.
Qed.

Lemma num_fitting_zero limit t txns :
  num_fitting limit (t :: txns) = O → limit < bytes_len t.
Proof using Type. simpl. unfold bytes_len. case_match eqn:Hle; [done|]. intros _. by apply Z.leb_gt. Qed.

Lemma create_Ok txns expiry bucket self self' b :
  create txns expiry bucket self = Ok (self', b) →
  bg_config self' = bg_config self ∧ bg_epoch self' = bg_epoch self ∧
  bg_my_peer_id self' = bg_my_peer_id self ∧
  b = Batch_new batch_payload_hash batch_payload_size (bg_batch_id self) txns (bg_epoch self)
        expiry (bg_my_peer_id self) bucket ∧
  BatchId_increment (bg_batch_id self) = Ok (bg_batch_id self') ∧
  save_batch_id (bg_epoch self) (bg_batch_id self') (bg_db self) = (bg_db self', Ok tt).
Proof using Type.
  unfold create_new_batch. intros (next & Hnext & Hc)%Ok_bind.
  destruct (save_batch_id (bg_epoch self) next (bg_db self)) as [db [[]|e|]] eqn:Hs; [|done..].
  apply Ok_bind in Hc as (self1 & Hins & [= <- <-]). unfold insert_batch in Hins. simpl in Hins.
  destruct (bg_batches_in_progress self !! (bg_my_peer_id self, bg_batch_id self)).
  - injection Hins as <-. simpl. by split_and!.
  - apply Ok_bind in Hins as (inp & _ & [= <-]). simpl. by split_and!.
Qed.

(** A batch is made while the id, the database and the counters allow it. *)
Lemma create_total txns expiry bucket self :
  (∀ epoch id db, (save_batch_id epoch id db).2 = Ok tt) →
  batch_id_id (bg_batch_id self) + 1 ≤ u64_MAX →
  (∀ s, count_of (bg_txns_in_progress_sorted self) s + Z.of_nat (length txns) ≤ u64_MAX) →
  ∃ self' b, create txns expiry bucket self = Ok (self', b) ∧
    batch_id_id (bg_batch_id self') = batch_id_id (bg_batch_id self) + 1 ∧
    ∀ s, count_of (bg_txns_in_progress_sorted self') s ≤
         count_of (bg_txns_in_progress_sorted self) s + Z.of_nat (length txns).
Proof using Type.
  intros Hsave Hid Hc. unfold create_new_batch, BatchId_increment. rewrite u64_add_le by done.
  cbn [mbind result_bind]. set (next := {| batch_id_id := _ |}).
  specialize (Hsave (bg_epoch self) next (bg_db self)).
  destruct (save_batch_id _ _ _) as [db [[]| |]]; [|done..]. unfold insert_batch. simpl.
  destruct (bg_batches_in_progress self !! _).
  - cbn [mbind result_bind]. eexists _, _. split; [done|]. split; [done|]. simpl. intros s. lia.
  - destruct (insert_txns_total txns (bg_txns_in_progress_sorted self) Hc) as (txns' & -> & Hc').
    cbn [mbind result_bind]. by eexists _, _.
Qed.

(** What every batch of one call keeps. *)
Record batch_within (self : BatchGenerator) (expiry : Z) (b : Batch) : Prop := {
  bw_nonempty : txns_of_batch b ≠ [];
  bw_txns : (length (txns_of_batch b) ≤ sender_max_batch_txns (bg_config self))%nat;
  bw_bytes : sum_bytes (txns_of_batch b) ≤ sender_max_batch_bytes (bg_config self);
  bw_verifies : verify_batch b = Ok tt;
  bw_author : bi_author (batch_info b) = bg_my_peer_id self;
  bw_epoch : bi_epoch (batch_info b) = bg_epoch self;
  bw_expiry : bi_expiration (batch_info b) = expiry;
}.

Section cutting.
Context (self0 : BatchGenerator) (expiry : Z) (sorted : list SignedTransaction).
Context (Hbytes : ∀ t, t ∈ sorted → 0 ≤ bytes_len t).
Context (Hmax : 0 ≤ sender_max_batch_bytes (bg_config self0)).
Context (Htxns : (0 < sender_max_batch_txns (bg_config self0))%nat).
Context (Hsave : ∀ epoch id db, (save_batch_id epoch id db).2 = Ok tt).

(** A transaction that goes into a batch at all. *)
Definition fits (t : SignedTransaction) : Prop :=
  bytes_len t ≤ sender_max_batch_bytes (bg_config self0).
#[global] Instance fits_dec t : Decision (fits t).
Proof using Type. unfold fits. apply _. Defined.

Record cut_inv (st : CutState) : Prop := {
  cut_self : let '(self, _, _, _) := st in bg_config self = bg_config self0 ∧
    bg_epoch self = bg_epoch self0 ∧ bg_my_peer_id self = bg_my_peer_id self0;
  cut_batches : let '(_, batches, _, _) := st in Forall (batch_within self0 expiry) batches;
  cut_rest : let '(_, _, txns, _) := st in ∀ t, t ∈ txns → t ∈ sorted;
  cut_order : let '(_, batches, txns, _) := st in
    filter fits sorted = mjoin (txns_of_batch <$> batches) ++ filter fits txns;
  cut_count : let '(_, batches, _, remaining) := st in 0 ≤ remaining ∧
    Z.of_nat (length batches) + remaining = sender_max_num_batches (bg_config self0);
  cut_room : let '(self, _, txns, remaining) := st in
    batch_id_id (bg_batch_id self) + remaining ≤ u64_MAX ∧
    ∀ s, count_of (bg_txns_in_progress_sorted self) s + Z.of_nat (length txns) ≤ u64_MAX;
}.

Lemma cut_inv_skip self batches txn txns remaining :
  cut_inv (self, batches, txn :: txns, remaining) → ¬ fits txn →
  cut_inv (self, batches, txns, remaining).
Proof using Type.
  clear Htxns. intros [H1 H2 H3 H4 H5 [H6 H7]] Hn. constructor; try done.
  - intros t Ht. apply H3. by right.
  - rewrite H4. by rewrite filter_cons_False.
  - split; [done|]. intros s. specialize (H7 s). simpl in H7. lia.
Qed.

Lemma filter_take_drop n txns :
  Forall fits (take n txns) → filter fits txns = take n txns ++ filter fits (drop n txns).
Proof using Type.
  intros Hall. rewrite <- (take_drop n txns) at 1. rewrite filter_app. f_equal.
  induction Hall as [|t l Ht _ IH]; [done|]. by rewrite filter_cons_True, IH.
Qed.

(** One batch of the leading transactions. *)
Lemma cut_inv_batch self batches txns remaining n bucket :
  cut_inv (self, batches, txns, remaining) → remaining ≠ 0 →
  (0 < n ≤ sender_max_batch_txns (bg_config self))%nat → (n ≤ length txns)%nat →
  sum_bytes (take n txns) ≤ sender_max_batch_bytes (bg_config self) →
  Forall fits (take n txns) → Forall (λ txn, bucket ≤ gas_of txn) (take n txns) →
  ∃ self' b, create (take n txns) expiry bucket self = Ok (self', b) ∧
    cut_inv (self', batches ++ [b], drop n txns, u64_saturating_sub remaining 1).
Proof using Hsave.
  clear Htxns. intros [(Hc & He & Hp) H2 H3 H4 [H5 H5'] [H6 H7]] Hr Hn Hlen Hb Hf Hg.
  destruct (create_total (take n txns) expiry bucket self) as (self' & b & Hcr & Hid & Hcount);
    [done|lia|intros s; specialize (H7 s); rewrite length_take; lia|].
  exists self', b. split; [done|]. rewrite length_take in Hcount.
  apply create_Ok in Hcr as (Hc' & He' & Hp' & -> & _). constructor.
  - split_and!; congruence.
  - apply Forall_app. split; [done|]. constructor; [|done]. constructor; simpl; try done.
    + unfold txns_of_batch. simpl. destruct txns; [simpl in *; lia|]. by destruct n; [lia|].
    + unfold txns_of_batch. simpl. rewrite length_take, <- Hc. lia.
    + by rewrite <- Hc.
    + by apply Batch_new_verifies.
  - intros t Ht. apply H3. rewrite <- (take_drop n txns). apply elem_of_app. by right.
  - rewrite H4, (filter_take_drop n) by done. rewrite fmap_app, join_app.
    cbn [fmap list_fmap mjoin list_join]. by rewrite app_nil_r, <- app_assoc.
  - rewrite length_app. simpl. unfold u64_saturating_sub. lia.
  - rewrite Hid. unfold u64_saturating_sub. split; [lia|]. intros s. specialize (Hcount s).
    specialize (H7 s). rewrite length_drop. lia.
Qed.

(** The loop ends: every round takes a transaction.  It takes them all unless no
    more batches are allowed. *)
Lemma push_bucket_ok bucket fuel : ∀ n self batches txns remaining,
  (n ≤ fuel)%nat → (n ≤ length txns)%nat → Forall (λ txn, bucket ≤ gas_of txn) (take n txns) →
  cut_inv (self, batches, txns, remaining) →
  ∃ st, push_bucket fuel n expiry bucket (self, batches, txns, remaining) = Ok st ∧ cut_inv st ∧
    (st.2 = 0 ∨ st.1.2 = drop n txns).
Proof using Hbytes Hmax Htxns Hsave.
  induction fuel as [|fuel IH]; intros n self batches txns remaining Hf Hlen Hgas Hinv.
  { destruct n; [|lia]. eexists. split; [done|]. split; [done|]. by right. }
  destruct n as [|n]; [eexists; split; [done|]; split; [done|]; by right|].
  cbn [push_bucket_to_batches].
  destruct (Z.eqb_spec remaining 0); [eexists; split; [done|]; split; [done|]; by left|].
  set (k := Nat.min (sender_max_batch_txns (bg_config self)) (Datatypes.S n)).
  set (m := num_fitting (sender_max_batch_bytes (bg_config self)) (take k txns)).
  pose proof (cut_self _ Hinv) as (Hc & _ & _).
  assert (∀ t, t ∈ txns → 0 ≤ bytes_len t) as Hnn by (intros t Ht; by apply Hbytes, (cut_rest _ Hinv)).
  destruct (num_fitting_spec (take k txns) (sender_max_batch_bytes (bg_config self)))
    as (Hm & Hsum & Hall);
    [by rewrite Hc|intros t (i & Hi & _)%elem_of_take; by eapply Hnn, list_elem_of_lookup_2|].
  fold m in Hm, Hsum, Hall. rewrite length_take in Hm.
  assert (take m (take k txns) = take m txns) as Htake by (rewrite take_take; f_equal; lia).
  rewrite Htake in Hsum, Hall.
  destruct (Nat.ltb_spec 0 m) as [Hpos|Hzero].
  - destruct (cut_inv_batch self batches txns remaining m bucket) as (self' & b & -> & Hinv');
      [done|done|unfold k in *; lia|lia|done|by rewrite Hc in Hall| |].
    { replace (take m txns) with (take m (take (Datatypes.S n) txns)); [by apply Forall_take|].
      rewrite take_take. f_equal. lia. }
    cbn [mbind result_bind].
    destruct (IH (Datatypes.S n - m)%nat self' (batches ++ [b]) (drop m txns)
      (u64_saturating_sub remaining 1)) as (st & -> & Hst & Hall');
      [lia|rewrite length_drop; lia| |done|].
    { rewrite take_drop_commute. apply Forall_drop.
      by replace (m + (Datatypes.S n - m))%nat with (Datatypes.S n) by lia. }
    exists st. split_and!; [done..|]. destruct Hall' as [?|Hd]; [by left|right]. rewrite Hd, drop_drop.
    f_equal. lia.
  - destruct txns as [|txn txns]; [simpl in Hlen; lia|]. rewrite Nat.sub_succ, Nat.sub_0_r.
    assert (¬ fits txn) as Hnot.
    { assert (m = O) as Hm0 by lia. unfold m in Hm0.
      assert (∃ k', k = Datatypes.S k') as [k' Hk] by (exists (pred k); unfold k; rewrite Hc; lia).
      rewrite Hk in Hm0. apply num_fitting_zero in Hm0. unfold fits. rewrite Hc in Hm0. lia. }
    simpl in Hlen, Hgas. apply Forall_cons in Hgas as [_ Hgas].
    apply (IH n self batches txns remaining); [lia|lia|done|by eapply cut_inv_skip].
Qed.

Lemma num_txns_from_spec bucket txns :
  (num_txns_from bucket txns ≤ length txns)%nat ∧
  Forall (λ txn, bucket ≤ gas_of txn) (take (num_txns_from bucket txns) txns).
Proof using Type.
  clear Htxns. induction txns as [|t txns [IH1 IH2]]; simpl; [by split|].
  destruct (Z.ltb_spec (u64_MAX - SignedTransaction_gas_unit_price t) (u64_MAX - (bucket - 1)));
    simpl; [|split; [lia|constructor]].
  split; [lia|]. constructor; [unfold gas_of; lia|done].
Qed.

(** The buckets are pushed in turn; the loop breaks when nothing is left or no
    more batches are allowed. *)
Lemma push_buckets_ok buckets : ∀ st,
  Forall (λ b, 1 ≤ b) buckets → cut_inv st →
  ∃ st' more, push_buckets batch_payload_hash batch_payload_size expiry buckets st = Ok (st', more) ∧
    cut_inv st' ∧ (more = false → st'.1.2 = [] ∨ st'.2 = 0).
Proof using Hbytes Hmax Htxns Hsave.
  induction buckets as [|bucket buckets IH]; intros st Hb Hinv; [by eexists _, _|].
  apply Forall_cons in Hb as [Hb Hbs]. cbn [push_buckets].
  destruct st as [[[self batches] txns] remaining]. destruct (_ || _) eqn:Hstop.
  { eexists _, _. split; [done|]. split; [done|]. intros _.
    apply orb_true_iff in Hstop as [H0%bool_decide_eq_true|H0%Z.eqb_eq]; [left|by right].
    by apply length_zero_iff_nil in H0. }
  unfold u64_sub. rewrite (proj2 (Z.leb_le 1 bucket)) by done. cbn [mbind result_bind].
  destruct (num_txns_from_spec bucket txns) as [Hlen Hgas].
  destruct (Nat.eqb_spec (num_txns_from bucket txns) 0); [by apply IH|].
  destruct (push_bucket_ok bucket (num_txns_from bucket txns) (num_txns_from bucket txns)
    self batches txns remaining ltac:(lia) Hlen Hgas Hinv) as (st & -> & Hst & _).
  cbn [mbind result_bind]. by apply IH.
Qed.
End cutting.

(** The transactions in the order in which they are cut. *)
Definition by_gas (txns : list SignedTransaction) : list SignedTransaction :=
  sort_by (λ a b, u64_MAX - SignedTransaction_gas_unit_price a <=?
                  u64_MAX - SignedTransaction_gas_unit_price b) txns.

(** C23. Cutting a pull into batches returns, as long as batch ids can be saved
    and neither they nor the counters of transactions in progress overflow, with
    at most as many batches as allowed, each not empty and within the limits on
    transactions and bytes, made by this validator for this epoch and accepted by
    the verification of the others.  Together the batches hold, in the order of
    descending gas prices, a prefix of the pulled transactions that are not larger
    than a batch may be; the others are skipped.  Nothing else is left out unless
    the number of batches is used up. *)
Theorem batches_within_limits self pulled expiry :
  Forall (λ t, 0 ≤ bytes_len t ∧ 0 ≤ gas_of t) pulled →
  Forall (λ b, 1 ≤ b) (drop 1 (batch_buckets (bg_config self))) →
  0 ≤ sender_max_batch_bytes (bg_config self) → 0 ≤ sender_max_num_batches (bg_config self) →
  (0 < sender_max_batch_txns (bg_config self))%nat →
  (∀ epoch id db, (save_batch_id epoch id db).2 = Ok tt) →
  batch_id_id (bg_batch_id self) + sender_max_num_batches (bg_config self) ≤ u64_MAX →
  (∀ s, count_of (bg_txns_in_progress_sorted self) s + Z.of_nat (length pulled) ≤ u64_MAX) →
  ∃ self' batches, cut pulled expiry self = Ok (self', batches) ∧
    Z.of_nat (length batches) ≤ sender_max_num_batches (bg_config self) ∧
    Forall (batch_within self expiry) batches ∧
    mjoin (txns_of_batch <$> batches) `prefix_of` filter (fits self) (by_gas pulled) ∧
    (Z.of_nat (length batches) < sender_max_num_batches (bg_config self) →
     mjoin (txns_of_batch <$> batches) = filter (fits self) (by_gas pulled)).
Proof using Type.
  intros Hpulled Hbuckets Hmax Hnum Htxns Hsave Hid Hcounts.
  assert (by_gas pulled ≡ₚ pulled) as Hperm by apply sort_by_Permutation.
  assert (∀ t, t ∈ by_gas pulled → 0 ≤ bytes_len t ∧ 0 ≤ gas_of t) as Hall.
  { intros t Ht. rewrite Hperm in Ht. rewrite Forall_forall in Hpulled. by apply Hpulled. }
  assert (∀ t, t ∈ by_gas pulled → 0 ≤ bytes_len t) as Hbytes by (intros t Ht; by apply Hall).
  assert (∀ st, cut_inv self expiry (by_gas pulled) st → (st.1.2 = [] ∨ st.2 = 0) →
    let '(_, batches, _, _) := st in
    Z.of_nat (length batches) ≤ sender_max_num_batches (bg_config self) ∧
    Forall (batch_within self expiry) batches ∧
    mjoin (txns_of_batch <$> batches) `prefix_of` filter (fits self) (by_gas pulled) ∧
    (Z.of_nat (length batches) < sender_max_num_batches (bg_config self) →
     mjoin (txns_of_batch <$> batches) = filter (fits self) (by_gas pulled))) as Hdone.
  { intros [[[self' batches] txns] remaining] [_ H2 _ H4 H5 _] Hend. simpl in Hend.
    split_and!; [lia|done|by eexists|]. intros Hlt. rewrite H4.
    destruct Hend as [-> | ->]; [by rewrite app_nil_r|lia]. }
  unfold bucket_into_batches. fold (by_gas pulled).
  destruct (push_buckets_ok self expiry (by_gas pulled) Hbytes Hmax Htxns Hsave
    (reverse (drop 1 (batch_buckets (bg_config self))))
    (self, [], by_gas pulled, sender_max_num_batches (bg_config self))) as (st & more & -> & Hst & Hmore).
  { by apply Forall_reverse. }
  { constructor; try done. split; [done|]. intros s. by rewrite Hperm. }
  cbn [mbind result_bind]. destruct st as [[[self' batches] txns] remaining].
  destruct (more && _ && _) eqn:Hgo.
  - destruct (push_bucket_ok self expiry (by_gas pulled) Hbytes Hmax Htxns Hsave 0 (length txns)
      (length txns) self' batches txns remaining ltac:(lia) ltac:(lia)) as (st & -> & Hst' & Hend).
    { rewrite take_ge by done. apply Forall_forall. intros t Ht. apply Hall.
      by apply (cut_rest _ _ _ _ Hst). }
    { done. }
    cbn [mbind result_bind]. rewrite drop_ge in Hend by done. specialize (Hdone st Hst').
    destruct st as [[[self2 batches2] ?] ?]. eexists _, _. split; [done|]. apply Hdone. tauto.
  - specialize (Hdone _ Hst). eexists _, _. split; [done|]. apply Hdone. simpl in *.
    destruct more; [|by apply Hmore]. simpl in Hgo. pose proof (cut_count _ _ _ _ Hst) as [? _].
    apply andb_false_iff in Hgo as [H0%negb_false_iff%bool_decide_eq_true|H0].
    + left. by apply length_zero_iff_nil.
    + right. destruct (Z.gtb_spec remaining 0); [done|lia].
Qed.
End batch_generator_safety.
