(* ===== verification/BatchIds.v ===== *)
(** Batch ids across restarts of a validator: no id is used twice in an epoch. *)
From S2P Require Import Prelude Laptos Payload Expirations BatchStore ProofQueue ProofManager.
From S2P Require Import Batches QuorumStoreDb BatchGenerator BatchGeneratorSafety.

Section batch_ids.
Context `{L : Laptos} `{S : !SchemaDB} `{SL : !SchemaDBLaws S} `{P : InProgress}.
Context (batch_payload_hash : AccountAddress → list SignedTransaction → HashValue).
Context (batch_payload_size : AccountAddress → list SignedTransaction → Z).

#[local] Abbreviation create := (create_new_batch batch_payload_hash batch_payload_size).

Definition id_lt (a b : BatchId) : Prop := BatchId_cmp a b = Lt.

Lemma id_lt_spec a b :
  id_lt a b ↔ batch_id_nonce a < batch_id_nonce b ∨
    batch_id_nonce a = batch_id_nonce b ∧ batch_id_id a < batch_id_id b.
Proof using Type.
  unfold id_lt, BatchId_cmp. destruct (Z.compare_spec (batch_id_nonce a) (batch_id_nonce b)).
  - rewrite Z.compare_lt_iff. lia.
  - split; [auto|done].
  - split; [done|lia].
Qed.

Lemma increment_lt a b : BatchId_increment a = Ok b → id_lt a b.
Proof using Type.
  unfold BatchId_increment. intros (i & [-> _]%u64_add_Ok & [= <-])%Ok_bind.
  apply id_lt_spec. simpl. lia.
Qed.
Lemma id_lt_trans a b c : id_lt a b → id_lt b c → id_lt a c.
Proof using Type. rewrite !id_lt_spec. lia. Qed.

(** The runs of a validator in an epoch, with the ids of the batches it made.
    A run may end at any point; a run that ends while a batch is being created
    has saved the next id and not made the batch.  Other commands do not touch
    ids and database. *)
Inductive generator_history (epoch : Z) (me : AccountAddress) (config : GeneratorConfig) :
    list BatchId → DB → option BatchGenerator → Prop :=
| GenInitial db :
    batch_ids_in db !! epoch = None → (∀ e i, batch_ids_in db !! e = Some i → e ≤ epoch) →
    generator_history epoch me config [] db None
| GenStart ids db run now db' self :
    generator_history epoch me config ids db run →
    BatchGenerator_new epoch me config now db = (db', Ok self) →
    generator_history epoch me config ids db' (Some self)
| GenStartFailed ids db run now db' r :
    generator_history epoch me config ids db run →
    BatchGenerator_new epoch me config now db = (db', r) → is_ok r = false →
    generator_history epoch me config ids db' None
| GenCreate ids db self txns expiry bucket self' b :
    generator_history epoch me config ids db (Some self) →
    create txns expiry bucket self = Ok (self', b) →
    generator_history epoch me config (ids ++ [bi_batch_id (batch_info b)]) (bg_db self') (Some self')
| GenCreateFailed ids db self next db' r :
    generator_history epoch me config ids db (Some self) →
    BatchId_increment (bg_batch_id self) = Ok next →
    save_batch_id (bg_epoch self) next (bg_db self) = (db', r) →
    generator_history epoch me config ids db' None
| GenOther ids db self self' :
    generator_history epoch me config ids db (Some self) →
    bg_batch_id self' = bg_batch_id self → bg_db self' = bg_db self →
    bg_epoch self' = bg_epoch self →
    generator_history epoch me config ids db (Some self').

Definition id_le (a b : BatchId) : Prop := a = b ∨ id_lt a b.

(** Used ids are below the saved one, and below the next of a run. *)
Record ids_inv (epoch : Z) (ids : list BatchId) (db : DB) (run : option BatchGenerator) : Prop := {
  ii_sorted : StronglySorted id_lt ids;
  ii_saved id : id ∈ ids → ∃ saved, batch_ids_in db !! epoch = Some saved ∧ id_lt id saved;
  ii_epochs e i : batch_ids_in db !! e = Some i → e ≤ epoch;
  ii_run self : run = Some self → bg_epoch self = epoch ∧ bg_db self = db ∧
    (∃ saved, batch_ids_in db !! epoch = Some saved ∧ id_le (bg_batch_id self) saved) ∧
    ∀ id, id ∈ ids → id_lt id (bg_batch_id self);
}.

(** The database after a new run has been started, or has failed to. *)
Lemma generator_new_ids epoch me config now db db' r :
  (∀ e i, batch_ids_in db !! e = Some i → e ≤ epoch) →
  BatchGenerator_new epoch me config now db = (db', r) →
  (∀ e i, batch_ids_in db' !! e = Some i → e ≤ epoch) ∧
  (∀ id saved, batch_ids_in db !! epoch = Some saved → id_lt id saved →
    ∃ saved', batch_ids_in db' !! epoch = Some saved' ∧ id_lt id saved') ∧
  ∀ self, r = Ok self → bg_epoch self = epoch ∧ bg_db self = db' ∧
    (∃ saved', batch_ids_in db' !! epoch = Some saved' ∧ id_lt (bg_batch_id self) saved') ∧
    ∀ saved, batch_ids_in db !! epoch = Some saved → id_lt saved (bg_batch_id self).
Proof using Type.
  intros Hle. unfold BatchGenerator_new.
  pose proof (clean_and_get_batch_id_ok epoch db Hle) as Hc.
  destruct (clean_and_get_batch_id epoch db) as [db1 r1]. destruct Hc as (Hcur & Hsub & Hfound).
  assert (∀ e i, batch_ids_in db1 !! e = Some i → e ≤ epoch) as Hle1 by (intros e i ?%Hsub; by eapply Hle).
  assert ((∀ id saved, batch_ids_in db !! epoch = Some saved → id_lt id saved →
    ∃ saved', batch_ids_in db1 !! epoch = Some saved' ∧ id_lt id saved')) as Hkeep
    by (intros id saved Hs Hlt; exists saved; by rewrite Hcur).
  destruct r1 as [found|e|]; [|by intros [= <- <-]..]. specialize (Hfound found eq_refl). subst found.
  destruct (_ ← match batch_ids_in db !! epoch with _ => _ end; _) as [[id next]|e|] eqn:Hids;
    [|by intros [= <- <-]..].
  apply Ok_bind in Hids as (id' & Hid & (next' & Hnext & [= -> ->])%Ok_bind).
  apply increment_lt in Hnext.
  destruct (save_batch_id epoch next db1) as [db2 r2] eqn:Hs. unfold save_batch_id in Hs.
  apply put_batch_id in Hs as [Hids2 _].
  destruct r2 as [[]|e|]; simpl in Hids2; [|intros [= <- <-]; rewrite Hids2; done..].
  assert (∀ saved, batch_ids_in db !! epoch = Some saved → id_lt saved id) as Hold.
  { intros saved Hsv. rewrite Hsv in Hid. by apply increment_lt. }
  intros [= <- <-]. rewrite Hids2, lookup_insert_eq. split_and!.
  - intros e i [[<- _]|[_ ?]]%lookup_insert_Some; [done|by eapply Hle1].
  - intros i saved Hsv Hlt. exists next. split; [done|].
    eapply id_lt_trans; [exact Hlt|]. eapply id_lt_trans; [by apply Hold|done].
  - intros self [= <-]. simpl. split_and!; [done|done|by exists next|done].
Qed.

Lemma ids_inv_stop epoch ids db run : ids_inv epoch ids db run → ids_inv epoch ids db None.
Proof using Type. by intros []. Qed.

(** Saving the next id, whether or not the batch is made. *)
Lemma ids_inv_save epoch ids db self next db' r :
  ids_inv epoch ids db (Some self) → BatchId_increment (bg_batch_id self) = Ok next →
  save_batch_id (bg_epoch self) next (bg_db self) = (db', r) →
  ids_inv epoch ids db' None ∧
  (is_ok r = true → batch_ids_in db' !! epoch = Some next).
Proof using Type.
  intros [] Hnext%increment_lt Hs. destruct (ii_run0 self eq_refl) as (He & Hdb & Hsv & Hlt).
  unfold save_batch_id in Hs. apply put_batch_id in Hs as [Hids _]. rewrite He, Hdb in Hids.
  split; [|intros Hr; rewrite Hids, Hr; by rewrite lookup_insert_eq].
  destruct (is_ok r); constructor; rewrite ?Hids; try done.
  - intros id Hid. exists next. rewrite lookup_insert_eq. split; [done|].
    eapply id_lt_trans; [by apply Hlt|done].
  - intros e i [[<- _]|[_ ?]]%lookup_insert_Some; [done|by eapply ii_epochs0].
Qed.

Lemma StronglySorted_snoc {A} (R : relation A) l x :
  StronglySorted R l → (∀ y, y ∈ l → R y x) → StronglySorted R (l ++ [x]).
Proof using Type.
  induction 1 as [|y l _ IH Hy]; intros Hx; simpl; [repeat constructor|].
  constructor; [apply IH; intros z Hz; apply Hx; by right|].
  apply Forall_app. split; [done|]. constructor; [apply Hx; by left|done].
Qed.

Lemma generator_history_inv epoch me config ids db run :
  generator_history epoch me config ids db run → ids_inv epoch ids db run.
Proof using Type.
  induction 1 as [db Hn Hle|ids db run now db' self _ [] Hnew|ids db run now db' r _ [] Hnew Hr
    |ids db self txns expiry bucket self' b _ IH Hc|ids db self next db' r _ IH Hnext Hs
    |ids db self self' _ IH H1 H2 H3].
  - constructor; [constructor|by intros id ?%elem_of_nil|done|done].
  - destruct (generator_new_ids epoch me config now db db' _ ii_epochs0 Hnew) as (H1 & H2 & H3).
    destruct (H3 self eq_refl) as (He & Hdb & (sv & Hsv & Hlt) & Hold).
    constructor; [done| |done|].
    + intros id Hid. destruct (ii_saved0 id Hid) as (saved & Hs & Hlt'). by eapply H2.
    + intros s [= <-]. split_and!; [done|done|exists sv; split; [done|by right]|].
      intros id Hid. destruct (ii_saved0 id Hid) as (saved & Hs & Hlt').
      eapply id_lt_trans; [exact Hlt'|by apply Hold].
  - destruct (generator_new_ids epoch me config now db db' _ ii_epochs0 Hnew) as (H1 & H2 & _).
    constructor; [done| |done|done].
    intros id Hid. destruct (ii_saved0 id Hid) as (saved & Hs & Hlt'). by eapply H2.
  - apply create_Ok in Hc as (_ & He & _ & -> & Hnext & Hs). simpl.
    destruct (ids_inv_save epoch ids db self _ _ _ IH Hnext Hs) as [[] Hsaved].
    specialize (Hsaved eq_refl). apply increment_lt in Hnext.
    destruct IH as [_ _ _ IHrun]. destruct (IHrun self eq_refl) as (Heq & Hdb & _ & Hlt).
    constructor; [by apply StronglySorted_snoc| |done|].
    + intros id [Hid|Hid%list_elem_of_singleton]%elem_of_app; [by apply ii_saved0|subst id; by eauto].
    + intros s [= <-]. split_and!; [congruence|done|exists (bg_batch_id self'); split; [done|by left]|].
      intros id [Hid|Hid%list_elem_of_singleton]%elem_of_app; [|by subst id].
      eapply id_lt_trans; [by apply Hlt|done].
  - by destruct (ids_inv_save epoch ids db self next db' r IH Hnext Hs).
  - destruct IH. constructor; [done..|]. intros s [= <-]. rewrite H1, H2, H3. by apply ii_run0.
Qed.

(** C24. No batch id is used twice in an epoch: over all runs of a validator on
    its database, whatever point each of them ended at, the ids of the batches
    it made ascend strictly. *)
Theorem batch_ids_ascend epoch me config ids db run :
  generator_history epoch me config ids db run → StronglySorted id_lt ids ∧ NoDup ids.
Proof using Type.
  intros [Hs _ _ _]%generator_history_inv. split; [done|].
  induction Hs as [|id ids _ IH Hid]; constructor; [|done]. intros Hin.
  rewrite Forall_forall in Hid. specialize (Hid id Hin). apply id_lt_spec in Hid. lia.
Qed.
End batch_ids.
