(* ===== verification/InProgressSafety.v ===== *)
(** The transactions the batch generator has in progress: counted exactly by
    the batches that hold them. *)
From S2P Require Import Prelude Laptos Payload Expirations BatchStore ProofQueue ProofManager.
From S2P Require Import Batches QuorumStoreDb BatchGenerator BatchGeneratorSafety.

Section in_progress.
Context `{L : Laptos} `{S : !SchemaDB} `{P : InProgress} `{PL : !InProgressLaws P}.
Context (batch_payload_hash : AccountAddress → list SignedTransaction → HashValue).
Context (batch_payload_size : AccountAddress → list SignedTransaction → Z).

#[local] Abbreviation in_progress := (gmap TransactionSummary TransactionInProgress).

Definition counts_positive (txns : in_progress) : Prop :=
  ∀ s t, txns !! s = Some t → 0 < tip_count t.

Lemma count_of_nonneg txns s : counts_positive txns → 0 ≤ count_of txns s.
Proof using Type.
  intros Hp. unfold count_of. destruct (txns !! s) as [t|] eqn:Ht; [|done]. specialize (Hp s t Ht). lia.
Qed.

Lemma insert_txns_Ok l : ∀ txns txns',
  counts_positive txns → fold_result insert_txn txns l = Ok txns' →
  counts_positive txns' ∧
  ∀ s, count_of txns' s = count_of txns s + occurrences_in s (TransactionSummary_of <$> l).
Proof using Type.
  induction l as [|txn l IH]; intros txns txns' Hp Hf.
  { injection Hf as <-. split; [done|]. intros. simpl. lia. }
  apply Ok_bind in Hf as (txns1 & Hins & Hf). unfold insert_txn in Hins.
  apply Ok_bind in Hins as (info & Hinc & [= <-]). apply count_increment in Hinc.
  set (x := TransactionSummary_of txn) in *.
  assert (tip_count info = count_of txns x + 1) as Hinfo.
  { rewrite Hinc. unfold count_of. destruct (txns !! x); simpl; [done|]. by rewrite count_new. }
  pose proof (count_of_nonneg txns x Hp). edestruct IH as [Hp' Hc]; [|exact Hf|].
  { intros s t [[<- <-]|[_ ?]]%lookup_insert_Some; [rewrite count_set_gas; lia|by eapply Hp]. }
  split; [done|]. intros s. rewrite Hc. unfold count_of at 1. cbn [fmap list_fmap occurrences_in]. fold x.
  destruct (decide (x = s)) as [<-|Hne].
  - rewrite lookup_insert_eq, count_set_gas. lia.
  - rewrite lookup_insert_ne by done. fold (count_of txns s). lia.
Qed.

Lemma remove_txns_Ok l : ∀ txns,
  counts_positive txns → (∀ s, occurrences_in s l ≤ count_of txns s) →
  ∃ txns', fold_result remove_txn txns l = Ok txns' ∧ counts_positive txns' ∧
    ∀ s, count_of txns' s = count_of txns s - occurrences_in s l.
Proof using Type.
  induction l as [|x l IH]; intros txns Hp Hle.
  { exists txns. split_and!; [done..|]. intros. simpl. lia. }
  pose proof (Hle x) as Hx. simpl in Hx. rewrite decide_True in Hx by done.
  pose proof (occurrences_in_nonneg x l).
  unfold count_of in Hx. destruct (txns !! x) as [t|] eqn:Ht; [|lia].
  destruct (count_decrement t) as (t' & Hdec & Hcount); [lia|].
  set (txns1 := if tip_count t - 1 =? 0 then delete x txns else <[x := t']> txns).
  assert (remove_txn txns x = Ok txns1) as Hrem by (unfold remove_txn; by rewrite Ht, Hdec).
  assert (∀ s, count_of txns1 s = count_of txns s - if decide (x = s) then 1 else 0) as Hc1.
  { intros s. unfold count_of, txns1. case_decide as Hd; [subst s|].
    - rewrite Ht. destruct (Z.eqb_spec (tip_count t - 1) 0).
      + rewrite lookup_delete_eq. lia.
      + rewrite lookup_insert_eq. done.
    - destruct (Z.eqb_spec (tip_count t - 1) 0);
        [rewrite lookup_delete_ne by done|rewrite lookup_insert_ne by done]; lia. }
  destruct (IH txns1) as (txns' & Hf & Hp' & Hc').
  - unfold txns1. intros s u. destruct (Z.eqb_spec (tip_count t - 1) 0).
    + intros [_ ?]%lookup_delete_Some. by eapply Hp.
    + intros [[<- <-]|[_ ?]]%lookup_insert_Some; [lia|by eapply Hp].
  - intros s. rewrite Hc1. specialize (Hle s). simpl in Hle. lia.
  - exists txns'. cbn [fold_result]. rewrite Hrem. cbn [mbind result_bind]. split_and!; [done..|].
    intros s. rewrite Hc', Hc1. simpl. lia.
Qed.

(** ** The invariant *)

Definition held_in (s : TransactionSummary) (_ : AccountAddress * BatchId) (b : BatchInProgress) : Z :=
  occurrences_in s (bip_txns b).
Definition held (batches : gmap (AccountAddress * BatchId) BatchInProgress)
    (s : TransactionSummary) : Z := map_sum (held_in s) batches.

(** [pending] are the batches whose expiration is being processed. *)
Record generator_inv (pending : list (AccountAddress * BatchId)) (self : BatchGenerator) : Prop := {
  gi_positive : counts_positive (bg_txns_in_progress_sorted self);
  gi_count s : count_of (bg_txns_in_progress_sorted self) s = held (bg_batches_in_progress self) s;
  gi_sorted : expirations_sorted (bg_batch_expirations self);
  gi_expires key b : bg_batches_in_progress self !! key = Some b →
    (bip_expiry_time_usecs b, key) ∈ bg_batch_expirations self ∨ key ∈ pending;
}.

Lemma insert_batch_inv author id txns expiry self self' :
  generator_inv [] self → insert_batch author id txns expiry self = Ok self' →
  generator_inv [] self'.
Proof using Type.
  intros []. unfold insert_batch.
  destruct (bg_batches_in_progress self !! (author, id)) eqn:Hn; [by intros [= <-]|].
  intros (txns' & Hf & [= <-])%Ok_bind. destruct (insert_txns_Ok _ _ _ gi_positive0 Hf) as [Hp Hc].
  constructor; simpl.
  - done.
  - intros s. rewrite Hc, gi_count0. unfold held. rewrite map_sum_insert by done. unfold held_in at 2.
    simpl. lia.
  - by apply add_item_sorted.
  - intros key b. rewrite elem_of_add_item.
    intros [[<- <-]|[_ ?]]%lookup_insert_Some; [by left; left|].
    destruct (gi_expires0 key b) as [|?%elem_of_nil]; [done|by left; right|done].
Qed.

Lemma remove_batch_inv pending author id self :
  generator_inv pending self →
  ∃ self', remove_batch_in_progress author id self = Ok self' ∧ generator_inv pending self' ∧
    bg_batches_in_progress self' = delete (author, id) (bg_batches_in_progress self) ∧
    bg_batch_expirations self' = bg_batch_expirations self ∧
    bg_latest_block_timestamp self' = bg_latest_block_timestamp self.
Proof using Type.
  intros []. unfold remove_batch_in_progress.
  destruct (bg_batches_in_progress self !! (author, id)) as [b|] eqn:Hb.
  2: { exists self. split_and!; try done. by rewrite delete_id. }
  destruct (remove_txns_Ok (bip_txns b) _ gi_positive0) as (txns' & -> & Hp & Hc).
  { intros s. rewrite gi_count0. unfold held.
    apply (map_sum_lookup_le (held_in s) _ (author, id) b); [|done]. intros. apply occurrences_in_nonneg. }
  eexists. split; [done|]. split_and!; try done. constructor; simpl; try done.
  - intros s. rewrite Hc, gi_count0. unfold held. by rewrite (map_sum_delete _ _ (author, id) b).
  - intros key b' [_ ?]%lookup_delete_Some. by apply gi_expires0.
Qed.

Lemma commit_batch_inv b self :
  generator_inv [] self →
  ∃ self', commit_batch self b = Ok self' ∧ generator_inv [] self' ∧
    bg_batches_in_progress self' =
      delete (bi_author b, bi_batch_id b) (bg_batches_in_progress self) ∧
    bg_latest_block_timestamp self' = bg_latest_block_timestamp self.
Proof using Type.
  intros Hinv. unfold commit_batch. cbv zeta. cbn [fst snd].
  match goal with |- context [with_committed ?l ?t self] => set (self0 := with_committed l t self) end.
  destruct (remove_batch_inv [] (bi_author b) (bi_batch_id b) self0)
    as (self1 & -> & ? & ? & _ & ?); [by destruct Hinv|]. by exists self1.
Qed.

Lemma commit_batches_inv batches : ∀ self,
  generator_inv [] self →
  ∃ self', fold_result commit_batch self batches = Ok self' ∧ generator_inv [] self' ∧
    bg_batches_in_progress self' ⊆ bg_batches_in_progress self ∧
    (∀ b, b ∈ batches → bg_batches_in_progress self' !! (bi_author b, bi_batch_id b) = None) ∧
    bg_latest_block_timestamp self' = bg_latest_block_timestamp self.
Proof using Type.
  induction batches as [|b batches IH]; intros self Hinv; cbn [fold_result].
  { exists self. split_and!; try done. by intros b ?%elem_of_nil. }
  destruct (commit_batch_inv b self Hinv) as (self1 & -> & Hinv1 & Hb1 & Ht1).
  cbn [mbind result_bind].
  destruct (IH self1 Hinv1) as (self2 & -> & Hinv2 & Hsub & Hgone & Ht2). exists self2.
  split_and!; [done|done| | |congruence].
  - etrans; [exact Hsub|]. rewrite Hb1. apply delete_subseteq.
  - intros b' [->|Hb']%elem_of_cons; [|by apply Hgone].
    eapply lookup_weaken_None; [|exact Hsub]. rewrite Hb1. apply lookup_delete_eq.
Qed.

Lemma expire_batches_inv time pending : ∀ self,
  generator_inv pending self → (∀ e, e ∈ bg_batch_expirations self → time < e.1) →
  ∃ self', fold_result (expire_batch time) self pending = Ok self' ∧ generator_inv [] self' ∧
    bg_batches_in_progress self' ⊆ bg_batches_in_progress self ∧
    (∀ e, e ∈ bg_batch_expirations self' → time < e.1) ∧
    bg_latest_block_timestamp self' = bg_latest_block_timestamp self.
Proof using Type.
  induction pending as [|key pending IH]; intros self Hinv Hlater; cbn [fold_result].
  { by exists self. }
  assert (∃ self1, expire_batch time self key = Ok self1 ∧ generator_inv pending self1 ∧
    bg_batches_in_progress self1 ⊆ bg_batches_in_progress self ∧
    (∀ e, e ∈ bg_batch_expirations self1 → time < e.1) ∧
    bg_latest_block_timestamp self1 = bg_latest_block_timestamp self)
    as (self1 & -> & Hinv1 & Hsub1 & Hlater1 & Ht1).
  { assert (∃ self1, remove_batch_in_progress key.1 key.2 self = Ok self1 ∧
      generator_inv pending self1 ∧ bg_batches_in_progress self1 ⊆ bg_batches_in_progress self ∧
      (∀ e, e ∈ bg_batch_expirations self1 → time < e.1) ∧
      bg_latest_block_timestamp self1 = bg_latest_block_timestamp self) as Hremove.
    { destruct (remove_batch_inv (key :: pending) key.1 key.2 self Hinv) as (self1 & -> & [] & Hb & He & Ht).
      exists self1. rewrite He in *. split_and!; [done| |rewrite Hb; apply delete_subseteq|done|done].
      constructor; try done; [by rewrite He|]. intros k b Hk. rewrite He. pose proof Hk as Hk'.
      rewrite Hb in Hk'. apply lookup_delete_Some in Hk' as [Hne _].
      destruct (gi_expires0 k b Hk) as [?|[->|?]%elem_of_cons]; [by left| |by right].
      by destruct key. }
    unfold expire_batch. destruct (bg_batches_in_progress self !! key) as [b|] eqn:Hb; [|done].
    destruct (Z.gtb_spec (bip_expiry_time_usecs b) time) as [Hgt|]; [|done].
    eexists. split; [done|]. destruct Hinv. split_and!; simpl; try done.
    - constructor; simpl; try done; [by apply add_item_sorted|]. intros k b' Hk.
      rewrite elem_of_add_item. destruct (gi_expires0 k b' Hk) as [?|[->|?]%elem_of_cons]; [by left; right| |by right].
      left. left. congruence.
    - intros e [->|He]%elem_of_add_item; [done|by apply Hlater]. }
  cbn [mbind result_bind].
  destruct (IH self1 Hinv1 Hlater1) as (self2 & -> & Hinv2 & Hsub2 & Hlater2 & Ht2).
  exists self2. split_and!; [done|done|by etrans|done|congruence].
Qed.

(** A commit is handled; committed and expired batches are not in progress any
    more. *)
Lemma generator_commit_ok time batches self :
  generator_inv [] self → bg_latest_block_timestamp self ≤ time →
  ∃ self', handle_generator_commit time batches self = Ok self' ∧ generator_inv [] self' ∧
    (∀ b, b ∈ batches → bg_batches_in_progress self' !! (bi_author b, bi_batch_id b) = None) ∧
    (∀ key b, bg_batches_in_progress self' !! key = Some b → time < bip_expiry_time_usecs b).
Proof using Type.
  intros Hinv Ht. unfold handle_generator_commit.
  destruct (Z.leb_spec (bg_latest_block_timestamp self) time); [|lia].
  destruct (commit_batches_inv batches (with_committed [] time self))
    as (self1 & -> & Hinv1 & _ & Hgone & _); [by destruct Hinv|]. cbn [mbind result_bind].
  destruct (expire time (bg_batch_expirations self1)) as [rest ret] eqn:He.
  destruct (expire_spec _ _ _ _ (gi_sorted _ _ Hinv1) He) as (Hs & Hrest & Hret).
  destruct (expire_batches_inv time (elements ret)
    (with_in_progress (bg_batches_in_progress self1) (bg_txns_in_progress_sorted self1) rest self1))
    as (self2 & -> & Hinv2 & Hsub & Hlater & _).
  - destruct Hinv1. constructor; simpl; try done. intros key b Hk.
    destruct (gi_expires0 key b Hk) as [Hin|?%elem_of_nil]; [|done].
    destruct (decide (time < bip_expiry_time_usecs b)); [left; by apply Hrest|right].
    apply elem_of_elements, Hret. exists (bip_expiry_time_usecs b). split; [done|lia].
  - intros e [_ ?]%Hrest. done.
  - exists self2. split_and!; [done|done| |].
    + intros b Hb. eapply lookup_weaken_None; [by apply Hgone|exact Hsub].
    + intros key b Hk. destruct (gi_expires _ _ Hinv2 key b Hk) as [Hin|?%elem_of_nil]; [|done].
      apply (Hlater _ Hin).
Qed.

Lemma proof_expiration_ok ids : ∀ self,
  generator_inv [] self →
  ∃ self', handle_proof_expiration ids self = Ok self' ∧ generator_inv [] self' ∧
    bg_batches_in_progress self' ⊆ bg_batches_in_progress self ∧
    (∀ id, id ∈ ids → bg_batches_in_progress self' !! (bg_my_peer_id self, id) = None).
Proof using Type.
  unfold handle_proof_expiration. induction ids as [|id ids IH]; intros self Hinv; cbn [fold_result].
  { exists self. split_and!; try done. by intros id ?%elem_of_nil. }
  assert (∀ self', remove_batch_in_progress (bg_my_peer_id self) id self = Ok self' →
    bg_my_peer_id self' = bg_my_peer_id self) as Hme.
  { unfold remove_batch_in_progress. intros self'. destruct (_ !! _); [|by intros [= <-]].
    by intros (? & _ & [= <-])%Ok_bind. }
  destruct (remove_batch_inv [] (bg_my_peer_id self) id self Hinv)
    as (self1 & Hrem & Hinv1 & Hb & _ & _).
  specialize (Hme self1 Hrem). rewrite Hrem. cbn [mbind result_bind].
  destruct (IH self1 Hinv1) as (self2 & -> & Hinv2 & Hsub & Hgone). exists self2.
  split_and!; [done|done| |].
  - etrans; [exact Hsub|]. rewrite Hb. apply delete_subseteq.
  - intros i [->|Hi]%elem_of_cons; [|rewrite <- Hme; by apply Hgone].
    eapply lookup_weaken_None; [|exact Hsub]. rewrite Hb. apply lookup_delete_eq.
Qed.

(** ** Pulls *)

#[local] Abbreviation create := (create_new_batch batch_payload_hash batch_payload_size).
#[local] Abbreviation push_bucket := (push_bucket_to_batches batch_payload_hash batch_payload_size).
#[local] Abbreviation buckets_from := (push_buckets batch_payload_hash batch_payload_size).
#[local] Abbreviation pull := (handle_scheduled_pull batch_payload_hash batch_payload_size).

(** What every creation of a batch keeps, a pull keeps. *)
Section pulls.
Context (I : BatchGenerator → Prop).
Context (I_create : ∀ txns expiry bucket self self' b,
  I self → create txns expiry bucket self = Ok (self', b) → I self').

Definition cut_keeps (st : CutState) : Prop := let '(self, _, _, _) := st in I self.

Lemma push_bucket_keeps expiry bucket fuel : ∀ n st st',
  cut_keeps st → push_bucket fuel n expiry bucket st = Ok st' → cut_keeps st'.
Proof using I_create.
  induction fuel as [|fuel IH]; intros n [[[self batches] txns] remaining] st' HI; simpl.
  { destruct n; [by intros [= <-]|done]. }
  destruct n as [|n]; [by intros [= <-]|]. destruct (remaining =? 0); [by intros [= <-]|].
  destruct (_ <? _)%nat.
  - intros ([self' b] & Hc & Hp)%Ok_bind. eapply IH; [|exact Hp]. by eapply I_create.
  - destruct txns; [done|]. by apply IH.
Qed.

Lemma push_buckets_keeps expiry buckets : ∀ st st' more,
  cut_keeps st → buckets_from expiry buckets st = Ok (st', more) → cut_keeps st'.
Proof using I_create.
  induction buckets as [|bucket buckets IH]; intros st st' more HI; cbn [push_buckets].
  { by intros [= <- <-]. }
  destruct st as [[[self batches] txns] remaining]. destruct (_ || _); [by intros [= <- <-]|].
  intros (? & _ & Hp)%Ok_bind. destruct (_ =? _)%nat; [by eapply IH|].
  apply Ok_bind in Hp as (st1 & H1 & Hp). eapply IH; [|exact Hp]. by eapply push_bucket_keeps.
Qed.

Lemma pull_keeps now txns self self' batches :
  I self → pull now txns self = Ok (self', batches) → I self'.
Proof using I_create.
  intros HI. unfold handle_scheduled_pull. destruct txns as [|t txns]; [by intros [= <- <-]|].
  intros (expiry & _ & Hc)%Ok_bind. unfold bucket_into_batches in Hc.
  apply Ok_bind in Hc as ([st more] & Hb & Hc). apply push_buckets_keeps in Hb; [|done].
  destruct st as [[[self1 batches1] txns1] remaining1].
  destruct (_ && _ && _); [|by injection Hc as <- <-].
  apply Ok_bind in Hc as (st & Hp & Hc). apply push_bucket_keeps in Hp; [|done].
  destruct st as [[[self2 batches2] txns2] remaining2]. by injection Hc as <- <-.
Qed.
End pulls.

Lemma create_inv txns expiry bucket self self' b :
  generator_inv [] self → create txns expiry bucket self = Ok (self', b) → generator_inv [] self'.
Proof using Type.
  intros Hinv. unfold create_new_batch. intros (next & _ & Hc)%Ok_bind.
  destruct (save_batch_id _ _ _) as [db [[]|e|]]; [|done..].
  apply Ok_bind in Hc as (self1 & Hins & [= <- <-]). eapply insert_batch_inv; [|exact Hins].
  by destruct Hinv.
Qed.

(** ** The run *)

(** The commands of the generator: pulls, batches of other validators, commits
    and expired proofs. *)
Inductive generator_run (epoch : Z) (me : AccountAddress) (config : GeneratorConfig) :
    BatchGenerator → Prop :=
| RunNew now db db' self :
    BatchGenerator_new epoch me config now db = (db', Ok self) → generator_run epoch me config self
| RunPull now txns self self' batches :
    generator_run epoch me config self → pull now txns self = Ok (self', batches) →
    generator_run epoch me config self'
| RunRemote now author id txns self self' :
    generator_run epoch me config self → handle_remote_batch now author id txns self = Ok self' →
    generator_run epoch me config self'
| RunCommit time batches self self' :
    generator_run epoch me config self → handle_generator_commit time batches self = Ok self' →
    generator_run epoch me config self'
| RunProofExpired ids self self' :
    generator_run epoch me config self → handle_proof_expiration ids self = Ok self' →
    generator_run epoch me config self'.

Lemma generator_new_inv epoch me config now db db' self :
  BatchGenerator_new epoch me config now db = (db', Ok self) → generator_inv [] self.
Proof using Type.
  unfold BatchGenerator_new. destruct (clean_and_get_batch_id epoch db) as [db1 [saved|e|]]; [|done..].
  destruct (_ ← match saved with _ => _ end; _) as [[id next]|e|]; [|done..].
  destruct (save_batch_id epoch next db1) as [db2 [[]|e|]]; [|done..]. intros [= _ <-].
  constructor; simpl; [by intros s t ?%lookup_empty_Some| |constructor|by intros key b ?%lookup_empty_Some].
  intros s. unfold count_of. by rewrite lookup_empty.
Qed.

Lemma generator_run_inv epoch me config self :
  generator_run epoch me config self → generator_inv [] self.
Proof using Type.
  induction 1 as [now db db' self Hn|now txns self self' batches _ IH Hp|now author id txns self self' _ IH Hr
    |time batches self self' _ IH Hc|ids self self' _ IH He].
  - by eapply generator_new_inv.
  - eapply (pull_keeps (generator_inv [])); [apply create_inv|exact IH|exact Hp].
  - unfold handle_remote_batch in Hr. apply Ok_bind in Hr as (expiry & _ & Hr). by eapply insert_batch_inv.
  - destruct (decide (bg_latest_block_timestamp self ≤ time)) as [Hle|Hgt].
    + destruct (generator_commit_ok time batches self IH Hle) as (? & ? & ? & _). congruence.
    + unfold handle_generator_commit in Hc. by rewrite (proj2 (Z.leb_gt _ _)) in Hc by lia.
  - destruct (proof_expiration_ok ids self IH) as (? & ? & ? & _). congruence.
Qed.

Lemma held_positive batches s :
  0 < held batches s ↔ ∃ key b, batches !! key = Some b ∧ s ∈ bip_txns b.
Proof using Type.
  split.
  - unfold held. induction batches as [|key b batches Hk IH] using map_ind; [by rewrite map_sum_empty|].
    rewrite map_sum_insert by done. intros Hpos.
    destruct (decide (s ∈ bip_txns b)) as [Hs|Hs].
    + exists key, b. by rewrite lookup_insert_eq.
    + rewrite <- occurrences_in_positive in Hs. unfold held_in in Hpos at 1.
      destruct IH as (key' & b' & Hb' & Hs'); [lia|]. exists key', b'. split; [|done].
      rewrite lookup_insert_ne; [done|congruence].
  - intros (key & b & Hb & Hs%occurrences_in_positive). unfold held.
    pose proof (map_sum_lookup_le (held_in s) batches key b
      ltac:(intros; apply occurrences_in_nonneg) Hb). unfold held_in in *. lia.
Qed.

Lemma excluded_is_Some self s :
  is_Some (exclude_transactions self !! s) ↔
  is_Some (bg_txns_in_progress_sorted self !! s) ∨ s ∈ (bg_commited_txns_buffer self).*1.
Proof using Type.
  unfold exclude_transactions. generalize (bg_txns_in_progress_sorted self) as m.
  induction (bg_commited_txns_buffer self) as [|e l IH]; intros m; simpl.
  - rewrite elem_of_nil. tauto.
  - rewrite IH, lookup_insert_is_Some', elem_of_cons. naive_solver.
Qed.

(** A transaction is counted as often as batches in progress hold it, and known
    exactly while one does. *)
Lemma generator_inv_known self s :
  generator_inv [] self →
  is_Some (bg_txns_in_progress_sorted self !! s) ↔
  ∃ key b, bg_batches_in_progress self !! key = Some b ∧ s ∈ bip_txns b.
Proof using Type.
  intros []. rewrite <- held_positive, <- gi_count0. unfold count_of.
  destruct (bg_txns_in_progress_sorted self !! s) as [t|] eqn:Ht; [|by split; [intros []|]].
  split; [|done]. intros _. by eapply gi_positive0.
Qed.

(** Along any run of the generator, the transactions in progress are exactly
    those of the batches in progress, each counted as often as those hold it, and
    all of them are left out of the next pull.  A commit that is not older than
    the last one, and the expiration of own proofs, are handled without a panic:
    after the commit no batch is in progress that it committed or whose expiry
    time it reached; after the expiration none of the expired ones is. *)
Theorem in_progress_exact epoch me config self :
  generator_run epoch me config self →
  (∀ s, count_of (bg_txns_in_progress_sorted self) s = held (bg_batches_in_progress self) s) ∧
  (∀ key b s, bg_batches_in_progress self !! key = Some b → s ∈ bip_txns b →
    is_Some (exclude_transactions self !! s)) ∧
  (∀ s, is_Some (bg_txns_in_progress_sorted self !! s) ↔
    ∃ key b, bg_batches_in_progress self !! key = Some b ∧ s ∈ bip_txns b) ∧
  (∀ time batches, bg_latest_block_timestamp self ≤ time →
    ∃ self', handle_generator_commit time batches self = Ok self' ∧
      (∀ b, b ∈ batches → bg_batches_in_progress self' !! (bi_author b, bi_batch_id b) = None) ∧
      (∀ key b, bg_batches_in_progress self' !! key = Some b → time < bip_expiry_time_usecs b)) ∧
  (∀ ids, ∃ self', handle_proof_expiration ids self = Ok self' ∧
      bg_batches_in_progress self' ⊆ bg_batches_in_progress self ∧
      ∀ id, id ∈ ids → bg_batches_in_progress self' !! (bg_my_peer_id self, id) = None).
Proof using Type.
  intros Hinv%generator_run_inv. split_and!.
  - apply Hinv.
  - intros key b s Hb Hs. apply excluded_is_Some. left. apply generator_inv_known; [done|by exists key, b].
  - intros s. by apply generator_inv_known.
  - intros time batches Hle. destruct (generator_commit_ok time batches self Hinv Hle)
      as (self' & ? & _ & ? & ?). by exists self'.
  - intros ids. destruct (proof_expiration_ok ids self Hinv) as (self' & ? & _ & ? & ?). by exists self'.
Qed.
End in_progress.
