(* ===== verification/TxnOrder.v ===== *)
(** What a transaction shuffler promises to the execution of a block
    (the trait [TransactionShuffler] of consensus/src/transaction_shuffler/mod.rs):
    the transactions of every sender stay in order, which makes the block a
    permutation. *)
From S2P Require Import Prelude Laptos.

Section txn_order.
Context `{L : Laptos}.

Definition from_sender (a : AccountAddress) (txns : list SignedTransaction) :
    list SignedTransaction := filter (λ t, SignedTransaction_sender t = a) txns.
Definition keeps_sender_order (out txns : list SignedTransaction) : Prop :=
  ∀ a, from_sender a out = from_sender a txns.

Lemma from_sender_app a l1 l2 : from_sender a (l1 ++ l2) = from_sender a l1 ++ from_sender a l2.
Proof using Type. apply filter_app. Qed.
Lemma from_sender_cons a t l :
  from_sender a (t :: l) =
  (if decide (SignedTransaction_sender t = a) then [t] else []) ++ from_sender a l.
Proof using Type. unfold from_sender. rewrite filter_cons. by case_decide. Qed.
Lemma elem_of_from_sender a t l :
  t ∈ from_sender a l ↔ t ∈ l ∧ SignedTransaction_sender t = a.
Proof using Type. unfold from_sender. rewrite list_elem_of_filter. tauto. Qed.

(** The first transaction of a sender can be taken out. *)
Lemma from_sender_split t l k :
  from_sender (SignedTransaction_sender t) l = t :: k →
  ∃ l1 l2, l = l1 ++ t :: l2 ∧ from_sender (SignedTransaction_sender t) l1 = [].
Proof using Type.
  induction l as [|u l IH]; [done|]. rewrite from_sender_cons. case_decide as Hd.
  - intros [= -> _]. by exists [], l.
  - intros (l1 & l2 & -> & Hl1)%IH. exists (u :: l1), l2. split; [done|].
    by rewrite from_sender_cons, decide_False.
Qed.

Lemma keeps_sender_order_perm out txns : keeps_sender_order out txns → out ≡ₚ txns.
Proof using Type.
  revert txns. induction out as [|t out IH]; intros txns Hk.
  { destruct txns as [|u txns]; [done|]. specialize (Hk (SignedTransaction_sender u)).
    by rewrite from_sender_cons, decide_True in Hk. }
  pose proof (Hk (SignedTransaction_sender t)) as Ht. rewrite from_sender_cons, decide_True in Ht by done.
  symmetry in Ht. apply from_sender_split in Ht as (l1 & l2 & -> & Hl1).
  rewrite <- Permutation_middle. constructor. apply IH. intros a. specialize (Hk a).
  rewrite from_sender_app, !from_sender_cons in Hk. rewrite from_sender_app.
  destruct (decide (SignedTransaction_sender t = a)) as [<-|]; [|done].
  rewrite Hl1 in Hk |- *. simpl in Hk. by injection Hk.
Qed.

(** What is left of every sender is left of the whole. *)
Lemma from_sender_rest k l1 : ∀ l2,
  (∀ a, from_sender a l1 ++ k a = from_sender a l2) → ∃ rest, ∀ a, from_sender a rest = k a.
Proof using Type.
  induction l1 as [|t l1 IH]; intros l2 Hk.
  { exists l2. intros a. symmetry. apply (Hk a). }
  pose proof (Hk (SignedTransaction_sender t)) as Ht. rewrite from_sender_cons, decide_True in Ht by done.
  symmetry in Ht. apply from_sender_split in Ht as (p & q & -> & Hp).
  apply (IH (p ++ q)). intros a. specialize (Hk a). rewrite from_sender_app, !from_sender_cons in Hk.
  rewrite from_sender_app. destruct (decide (SignedTransaction_sender t = a)) as [<-|]; [|done].
  rewrite Hp in Hk |- *. simpl in Hk. by injection Hk.
Qed.

Lemma left_of_total k l1 l2 :
  (∀ a, from_sender a l1 ++ k a = from_sender a l2) → (length l1 < length l2)%nat ↔ ∃ a, k a ≠ [].
Proof using Type.
  intros Hk. destruct (from_sender_rest k l1 l2 Hk) as [rest Hrest].
  assert (l1 ++ rest ≡ₚ l2) as Hperm.
  { apply keeps_sender_order_perm. intros a. by rewrite from_sender_app, Hrest. }
  apply Permutation_length in Hperm. rewrite length_app in Hperm. split.
  - intros Hlt. destruct rest as [|u rest]; [simpl in *; lia|]. exists (SignedTransaction_sender u).
    rewrite <- Hrest, from_sender_cons, decide_True by done. done.
  - intros [a Ha]. destruct rest; [by rewrite <- Hrest in Ha|simpl in *; lia].
Qed.

(** The trait: [capacity] is the number of transactions a shuffler can count. *)
Class TransactionShuffler (shuffle : list SignedTransaction → result anyhow (list SignedTransaction))
    (capacity : Z) : Prop :=
  shuffles txns : Z.of_nat (length txns) ≤ capacity →
    ∃ out, shuffle txns = Ok out ∧ keeps_sender_order out txns.

(** A prefix of a shuffled block has a prefix of the transactions of every sender. *)
Lemma keeps_sender_order_take n out txns a :
  keeps_sender_order out txns → from_sender a (take n out) `prefix_of` from_sender a txns.
Proof using Type.
  intros Hk. rewrite <- (Hk a). rewrite <- (take_drop n out) at 2. rewrite from_sender_app. by eexists.
Qed.
End txn_order.
