(* ===== verification/Deduper.v ===== *)
(** Filtering and deduplication of the transactions of a block
    (consensus/src/transaction_filter/mod.rs, transaction_deduper.rs,
    txn_hash_and_authenticator_deduper.rs), and that the deduper, which hashes
    only the transactions that may have a duplicate, is the plain filter. *)
From S2P Require Import Prelude Laptos.

Section deduper.
Context `{L : Laptos}.

(** ** The filter *)

(** [Filter] of the laptos crate: whether it has rules, and what they say of a
    transaction in a block. *)
Record Filter : Type := {
  filter_is_empty : bool;
  filter_allows : HashValue → Z → SignedTransaction → bool;
}.

Definition TransactionFilter_filter (self : Filter) (block_id : HashValue) (timestamp : Z)
    (txns : list SignedTransaction) : list SignedTransaction :=
  if filter_is_empty self then txns
  else filter (λ txn, filter_allows self block_id timestamp txn = true) txns.

(** ** The deduper *)

Context {Authenticator : Type} `{Countable Authenticator}.
Context (authenticator : SignedTransaction → Authenticator).

Definition account_key (txn : SignedTransaction) : AccountAddress * Z :=
  (SignedTransaction_sender txn, SignedTransaction_sequence_number txn).
Definition hash_and_authenticator (txn : SignedTransaction) : HashValue * Authenticator :=
  (SignedTransaction_committed_hash txn, authenticator txn).

(** [possible_duplicates[i] = true]. *)
Definition mark (i : nat) (possible_duplicates : list bool) : result anyhow (list bool) :=
  match possible_duplicates !! i with
  | Some _ => Ok (<[i := true]> possible_duplicates)
  | None => Panic
  end.

(** The transactions from index [i] on. *)
Fixpoint mark_duplicates (i : nat) (seen : gmap (AccountAddress * Z) nat)
    (possible_duplicates : list bool) (is_possible_duplicate : bool)
    (transactions : list SignedTransaction) : result anyhow (list bool * bool) :=
  match transactions with
  | [] => Ok (possible_duplicates, is_possible_duplicate)
  | txn :: transactions =>
      match seen !! account_key txn with
      | None =>
          mark_duplicates (S i) (<[account_key txn := i]> seen) possible_duplicates
            is_possible_duplicate transactions
      | Some first_index =>
          possible_duplicates ← mark first_index possible_duplicates;
          possible_duplicates ← mark i possible_duplicates;
          mark_duplicates (S i) seen possible_duplicates true transactions
      end
  end.

Fixpoint filter_duplicates (seen_hashes : gset (HashValue * Authenticator))
    (l : list (option (HashValue * Authenticator) * SignedTransaction)) : list SignedTransaction :=
  match l with
  | [] => []
  | (None, txn) :: l => txn :: filter_duplicates seen_hashes l
  | (Some h, txn) :: l =>
      if decide (h ∈ seen_hashes) then filter_duplicates seen_hashes l
      else txn :: filter_duplicates ({[h]} ∪ seen_hashes) l
  end.

Definition dedup (transactions : list SignedTransaction) :
    result anyhow (list SignedTransaction) :=
  '(possible_duplicates, is_possible_duplicate) ←
    mark_duplicates 0 ∅ (replicate (length transactions) false) false transactions;
  if negb is_possible_duplicate then Ok transactions
  else
    let hash_and_authenticators :=
      zip_with (λ (need_hash : bool) txn,
                  if need_hash then Some (hash_and_authenticator txn) else None)
        possible_duplicates transactions in
    Ok (filter_duplicates ∅ (zip hash_and_authenticators transactions)).

(** [create_transaction_deduper]. *)
Inductive TransactionDeduperType : Type := NoDedup | TxnHashAndAuthenticatorV1.
Definition TransactionDeduper_dedup (deduper_type : TransactionDeduperType)
    (txns : list SignedTransaction) : result anyhow (list SignedTransaction) :=
  match deduper_type with
  | NoDedup => Ok txns
  | TxnHashAndAuthenticatorV1 => dedup txns
  end.

(** ** The specification *)

(** The first transaction of every hash and authenticator. *)
Fixpoint keep_first (seen : gset (HashValue * Authenticator)) (txns : list SignedTransaction) :
    list SignedTransaction :=
  match txns with
  | [] => []
  | txn :: txns =>
      if decide (hash_and_authenticator txn ∈ seen) then keep_first seen txns
      else txn :: keep_first ({[hash_and_authenticator txn]} ∪ seen) txns
  end.

Lemma keep_first_sublist seen txns : keep_first seen txns `sublist_of` txns.
Proof using Type.
  revert seen. induction txns as [|txn txns IH]; intros seen; simpl; [done|].
  case_decide; [by apply sublist_cons|by apply sublist_skip].
Qed.

Lemma keep_first_keys seen txns h :
  h ∈ hash_and_authenticator <$> keep_first seen txns ↔
  h ∈ hash_and_authenticator <$> txns ∧ h ∉ seen.
Proof using Type.
  revert seen. induction txns as [|txn txns IH]; intros seen; simpl; [set_solver|].
  case_decide as Hd; [rewrite IH; set_solver|]. cbn [fmap list_fmap]. rewrite !elem_of_cons, IH.
  destruct (decide (h = hash_and_authenticator txn)) as [->|]; set_solver.
Qed.

Lemma keep_first_NoDup seen txns : NoDup (hash_and_authenticator <$> keep_first seen txns).
Proof using Type.
  revert seen. induction txns as [|txn txns IH]; intros seen; simpl; [constructor|].
  case_decide; [done|]. cbn [fmap list_fmap]. constructor; [|done]. rewrite keep_first_keys. set_solver.
Qed.

(** ** Marking *)

(** Another transaction of the first [n] has the account key of number [j]. *)
Definition shared (txns : list SignedTransaction) (n j : nat) : Prop :=
  (j < n)%nat ∧ ∃ t k u, txns !! j = Some t ∧ (k < n)%nat ∧ k ≠ j ∧ txns !! k = Some u ∧
    account_key t = account_key u.

(** Marks after the first [n] transactions. *)
Record marks (txns : list SignedTransaction) (n : nat) (seen : gmap (AccountAddress * Z) nat)
    (possible : list bool) (flag : bool) : Prop := {
  marks_length : length possible = length txns;
  marks_true j : possible !! j = Some true ↔ shared txns n j;
  marks_flag : flag = false → ∀ j, ¬ shared txns n j;
  marks_seen key i : seen !! key = Some i → (i < n)%nat ∧ account_key <$> txns !! i = Some key;
  marks_known j t : (j < n)%nat → txns !! j = Some t → is_Some (seen !! account_key t);
}.

Lemma shared_S txns n t j :
  txns !! n = Some t →
  shared txns (S n) j ↔ shared txns n j ∨
    ∃ k u, (k < n)%nat ∧ txns !! k = Some u ∧ account_key u = account_key t ∧ (j = n ∨ j = k).
Proof using Type.
  intros Ht. split.
  - intros (Hj & tj & k & u & Htj & Hk & Hne & Hu & Heq).
    destruct (decide (j = n)) as [->|]; [|destruct (decide (k = n)) as [->|]].
    + right. exists k, u. split_and!; [lia|done|congruence|by left].
    + right. exists j, tj. split_and!; [lia|done|congruence|by right].
    + left. split; [lia|]. exists tj, k, u. split_and!; [done|lia|done..].
  - intros [(Hj & tj & k & u & Htj & Hk & Hne & Hu & Heq)|(k & u & Hk & Hu & Heq & Hj)].
    + split; [lia|]. exists tj, k, u. split_and!; [done|lia|done..].
    + destruct Hj as [->| ->].
      * split; [lia|]. exists t, k, u. split_and!; [done|lia|lia|done|done].
      * split; [lia|]. exists u, n, t. split_and!; [done|lia|lia|done|done].
Qed.

Lemma marks_step_new txns n seen possible flag t :
  marks txns n seen possible flag → txns !! n = Some t → seen !! account_key t = None →
  marks txns (S n) (<[account_key t := n]> seen) possible flag.
Proof using Type.
  intros [] Ht Hnew.
  assert (∀ j, shared txns (S n) j ↔ shared txns n j) as Hsh.
  { intros j. rewrite (shared_S txns n t) by done. split; [|by left]. intros [|(k & u & Hk & Hu & Heq & _)]; [done|].
    destruct (marks_known0 k u Hk Hu) as [i Hi]. congruence. }
  constructor; [done|intros j; by rewrite Hsh|intros Hf j; rewrite Hsh; by apply marks_flag0| |].
  - intros key i [[<- <-]|[_ Hi]]%lookup_insert_Some; [rewrite Ht; split; [lia|done]|].
    destruct (marks_seen0 key i Hi). split; [lia|done].
  - intros j u Hj Hu. destruct (decide (account_key t = account_key u)) as [->|Hne];
      [by rewrite lookup_insert_eq|]. rewrite lookup_insert_ne by done.
    apply (marks_known0 j); [|done]. destruct (decide (j = n)) as [->|]; [congruence|lia].
Qed.

Lemma marks_step_old txns n seen possible flag t first :
  marks txns n seen possible flag → txns !! n = Some t → seen !! account_key t = Some first →
  ∃ possible', (possible' ← mark first possible; mark n possible') = Ok possible' ∧
    marks txns (S n) seen possible' true.
Proof using Type.
  clear dependent Authenticator. intros [] Ht Hold. destruct (marks_seen0 _ _ Hold) as [Hf Hfk].
  assert (n < length txns)%nat by by eapply lookup_lt_Some.
  destruct (txns !! first) as [u|] eqn:Hu; [|done]. apply (inj Some) in Hfk.
  assert (is_Some (possible !! first)) as [x Hx] by (apply lookup_lt_is_Some; lia).
  assert (is_Some (<[first := true]> possible !! n)) as [y Hy].
  { apply lookup_lt_is_Some. rewrite length_insert. lia. }
  exists (<[n := true]> (<[first := true]> possible)). unfold mark. rewrite Hx. cbn [mbind result_bind].
  rewrite Hy. split; [done|].
  assert (∀ j, shared txns (S n) j ↔ shared txns n j ∨ j = n ∨ j = first) as Hsh.
  { intros j. rewrite (shared_S txns n t) by done. split.
    - intros [|(k & w & Hk & Hw & Heq & [->| ->])]; [by left|by right; left|].
      destruct (decide (k = first)) as [->|]; [by right; right|]. left. split; [done|].
      exists w, first, u. split_and!; [done..|congruence].
    - intros [|Hj]; [by left|]. right. exists first, u. split_and!; [done..|]. done. }
  constructor; [by rewrite !length_insert| |done| |].
  - intros j. rewrite Hsh. destruct (decide (n = j)) as [<-|];
      [rewrite list_lookup_insert_eq by (rewrite length_insert; lia); naive_solver|].
    rewrite list_lookup_insert_ne by done. destruct (decide (first = j)) as [<-|];
      [rewrite list_lookup_insert_eq by lia; naive_solver|].
    rewrite list_lookup_insert_ne by done. rewrite marks_true0. naive_solver.
  - intros key i Hi. destruct (marks_seen0 key i Hi). split; [lia|done].
  - intros j w Hj Hw. destruct (decide (j = n)) as [->|]; [simplify_eq; by eexists|].
    apply (marks_known0 j); [lia|done].
Qed.

Lemma mark_duplicates_ok txns rest : ∀ pre seen possible flag,
  marks txns (length pre) seen possible flag → txns = pre ++ rest →
  ∃ possible' flag' seen', mark_duplicates (length pre) seen possible flag rest =
      Ok (possible', flag') ∧ marks txns (length txns) seen' possible' flag'.
Proof using Type.
  induction rest as [|t rest IH]; intros pre seen possible flag Hm Heq; cbn [mark_duplicates].
  { rewrite app_nil_r in Heq. subst pre. by exists possible, flag, seen. }
  assert (txns !! length pre = Some t) as Ht by (by rewrite Heq, list_lookup_middle).
  specialize (IH (pre ++ [t])). rewrite length_app, Nat.add_1_r, <- app_assoc in IH.
  destruct (seen !! account_key t) as [first|] eqn:Hs.
  - destruct (marks_step_old _ _ _ _ _ _ _ Hm Ht Hs) as (possible' & Hp & Hm').
    apply Ok_bind in Hp as (p1 & -> & Hp). cbn [mbind result_bind]. rewrite Hp. cbn [mbind result_bind].
    by apply (IH _ _ _ Hm').
  - by apply (IH _ _ _ (marks_step_new _ _ _ _ _ _ Hm Ht Hs)).
Qed.

Lemma marks_start txns : marks txns 0 ∅ (replicate (length txns) false) false.
Proof using Type.
  constructor; [by rewrite length_replicate| | |by intros key i ?%lookup_empty_Some|lia].
  - intros j. split; [|intros [? _]; lia]. by intros [? _]%lookup_replicate.
  - intros _ j [? _]. lia.
Qed.

(** ** Filtering *)

(** A hash determines the account and the sequence number. *)
Definition hashes_ok (txns : list SignedTransaction) : Prop :=
  ∀ t u, t ∈ txns → u ∈ txns → hash_and_authenticator t = hash_and_authenticator u →
    account_key t = account_key u.

Definition with_hash (possible : list bool) (txns : list SignedTransaction) :
    list (option (HashValue * Authenticator) * SignedTransaction) :=
  zip (zip_with (λ (need_hash : bool) txn,
                   if need_hash then Some (hash_and_authenticator txn) else None) possible txns) txns.

(** A transaction whose hash was seen is marked, and so is the one before it. *)
Lemma seen_shared txns pre t rest :
  hashes_ok txns → txns = pre ++ t :: rest →
  hash_and_authenticator t ∈ hash_and_authenticator <$> pre →
  shared txns (length txns) (length pre) ∧
  ∃ k u, (k < length pre)%nat ∧ txns !! k = Some u ∧ shared txns (length txns) k ∧
    hash_and_authenticator u = hash_and_authenticator t.
Proof using Type.
  intros Hok Heq (u & Hu & [k Hk]%list_elem_of_lookup)%list_elem_of_fmap.
  assert (txns !! length pre = Some t) as Ht by (by rewrite Heq, list_lookup_middle).
  assert (k < length pre)%nat by by eapply lookup_lt_Some.
  assert (txns !! k = Some u) as Hku by (rewrite Heq, lookup_app_l by done; done).
  assert (length pre < length txns)%nat by by eapply lookup_lt_Some.
  assert (account_key u = account_key t) as Ha.
  { apply Hok; [by eapply list_elem_of_lookup_2|by eapply list_elem_of_lookup_2|done]. }
  split; [split; [lia|]|exists k, u; split_and!; [done|done|split; [lia|]|done]].
  - exists t, k, u. split_and!; [done|lia|lia|done|done].
  - exists u, (length pre), t. split_and!; [done|lia|lia|done|done].
Qed.

(** What is seen is the same for the transactions with hashes. *)
Lemma filter_duplicates_ok txns rest : ∀ pre possible seen_hashes seen,
  hashes_ok txns → txns = pre ++ rest → length possible = length rest →
  (∀ j, possible !! j = Some true ↔ shared txns (length txns) (length pre + j)) →
  (∀ h, h ∈ seen ↔ h ∈ hash_and_authenticator <$> pre) → seen_hashes ⊆ seen →
  (∀ j t, (j < length pre)%nat → txns !! j = Some t → shared txns (length txns) j →
    hash_and_authenticator t ∈ seen_hashes) →
  filter_duplicates seen_hashes (with_hash possible rest) = keep_first seen rest.
Proof using Type.
  induction rest as [|t rest IH]; intros pre possible seen_hashes seen Hok Heq Hlen Hposs Hseen Hsub Hknown;
    [by destruct possible|].
  destruct possible as [|b possible]; [done|]. unfold with_hash. cbn [zip_with zip filter_duplicates keep_first].
  fold (with_hash possible rest). set (h := hash_and_authenticator t).
  pose proof (seen_shared txns pre t rest Hok Heq) as Hpair. fold h in Hpair. rewrite <- Hseen in Hpair.
  assert (∀ seen' Q, (∀ h', h' ∈ seen' ↔ h' = h ∨ h' ∈ seen) →
    Q ⊆ seen' → seen_hashes ⊆ Q → (shared txns (length txns) (length pre) → h ∈ Q) →
    filter_duplicates Q (with_hash possible rest) = keep_first seen' rest) as Hnext.
  { intros seen' Q HP HQ Hsq Hh. apply (IH (pre ++ [t])); [done| |by injection Hlen| | |done|].
    - by rewrite <- app_assoc.
    - intros j. rewrite length_app. simpl. specialize (Hposs (S j)). simpl in Hposs. rewrite Hposs.
      by replace (length pre + 1 + j)%nat with (length pre + S j)%nat by lia.
    - intros h'. rewrite HP, fmap_app, elem_of_app, <- Hseen. unfold h. set_solver.
    - intros j u Hj Hu Hsh. rewrite length_app in Hj. simpl in Hj.
      destruct (decide (j = length pre)) as [->|]; [|apply Hsq, (Hknown j); [lia|done|done]].
      rewrite Heq, list_lookup_middle in Hu by done. injection Hu as <-. by apply Hh. }
  specialize (Hposs 0%nat). rewrite Nat.add_0_r in Hposs. simpl in Hposs. destruct b.
  - assert (h ∈ seen_hashes ↔ h ∈ seen) as Hiff.
    { split; [apply Hsub|]. intros (_ & k & u & Hk & Hu & Hs & <-)%Hpair. by apply (Hknown k). }
    case_decide as Hd; case_decide as Hd'; try (by exfalso; tauto).
    + apply Hnext; set_solver.
    + f_equal. apply Hnext; set_solver.
  - assert (h ∉ seen) as Hnew by (intros [Hs _]%Hpair; by apply Hposs in Hs).
    rewrite decide_False by done. f_equal. apply Hnext; [set_solver|set_solver|done|].
    intros Hs. by apply Hposs in Hs.
Qed.

Lemma dedup_ok txns : hashes_ok txns → dedup txns = Ok (keep_first ∅ txns).
Proof using Type.
  intros Hok.
  unfold dedup. destruct (mark_duplicates_ok txns txns [] _ _ _ (marks_start txns) eq_refl)
    as (possible & flag & seen & Hm & []). cbn [length] in Hm. rewrite Hm. cbn [mbind result_bind].
  assert (filter_duplicates ∅ (with_hash possible txns) = keep_first ∅ txns) as Hfilter.
  { apply (filter_duplicates_ok txns txns []);
      [exact Hok|reflexivity|assumption|assumption|intros h; simpl; set_solver|reflexivity|].
    intros j t Hj. simpl in Hj. lia. }
  destruct flag; cbn [negb]; [by rewrite <- Hfilter|]. rewrite <- Hfilter. f_equal.
  assert (∀ j, possible !! j ≠ Some true) as Hnone.
  { intros j Hj. apply marks_true0 in Hj. by apply (marks_flag0 eq_refl j). }
  clear -marks_length0 Hnone. revert possible marks_length0 Hnone.
  induction txns as [|t txns IH]; intros [|b possible] Hlen Hnone; try done.
  destruct b; [by destruct (Hnone 0%nat)|]. unfold with_hash. simpl. f_equal. apply IH; [by injection Hlen|].
  intros j. apply (Hnone (S j)).
Qed.

(** The deduper returns, and is the plain filter that keeps the first
    transaction of every hash and authenticator, although it hashes only
    transactions whose sender and sequence number occur twice.  What it keeps is
    in the order of the block, with every hash and authenticator exactly once. *)
Theorem dedup_keeps_first txns :
  hashes_ok txns →
  dedup txns = Ok (keep_first ∅ txns) ∧ keep_first ∅ txns `sublist_of` txns ∧
  NoDup (hash_and_authenticator <$> keep_first ∅ txns) ∧
  ∀ t, t ∈ txns → hash_and_authenticator t ∈ hash_and_authenticator <$> keep_first ∅ txns.
Proof using Type.
  intros Hok. split_and!; [by apply dedup_ok|apply keep_first_sublist|apply keep_first_NoDup|].
  intros t Ht. apply keep_first_keys. split; [|set_solver]. apply list_elem_of_fmap. by exists t.
Qed.
End deduper.
