(* ===== verification/SenderAware.v ===== *)
(** The sender-aware shuffler (consensus/src/transaction_shuffler/
    sender_aware.rs), which spreads the transactions of a sender over the block. *)
From S2P Require Import Prelude Laptos.

Section sender_aware.
Context `{L : Laptos}.

#[local] Abbreviation sender := SignedTransaction_sender.

(** ** Pending transactions *)

Record PendingTransactions : Type := {
  pt_txns_by_senders : gmap AccountAddress (list SignedTransaction);
  pt_ordered_txns : list SignedTransaction;
}.
Definition PendingTransactions_new : PendingTransactions :=
  {| pt_txns_by_senders := ∅; pt_ordered_txns := [] |}.

Definition pt_add_transaction (txn : SignedTransaction) (self : PendingTransactions) :
    PendingTransactions :=
  {| pt_ordered_txns := pt_ordered_txns self ++ [txn];
     pt_txns_by_senders :=
       <[sender txn := default [] (pt_txns_by_senders self !! sender txn) ++ [txn]]>
         (pt_txns_by_senders self) |}.

Definition remove_pending_from_sender (s : AccountAddress) (self : PendingTransactions) :
    PendingTransactions * option SignedTransaction :=
  match pt_txns_by_senders self !! s with
  | Some (txn :: txns) =>
      ({| pt_txns_by_senders := <[s := txns]> (pt_txns_by_senders self);
          pt_ordered_txns := pt_ordered_txns self |}, Some txn)
  | _ => (self, None)
  end.

(** The loop of [remove_first_pending], over the ordered transactions. *)
Fixpoint remove_first (txns_by_senders : gmap AccountAddress (list SignedTransaction))
    (ordered_txns : list SignedTransaction) : PendingTransactions * option SignedTransaction :=
  match ordered_txns with
  | [] => ({| pt_txns_by_senders := txns_by_senders; pt_ordered_txns := [] |}, None)
  | txn :: ordered_txns =>
      match txns_by_senders !! sender txn with
      | Some sender_queue =>
          if decide (Some txn = head sender_queue) then
            remove_pending_from_sender (sender txn)
              {| pt_txns_by_senders := txns_by_senders; pt_ordered_txns := ordered_txns |}
          else remove_first txns_by_senders ordered_txns
      | None => remove_first txns_by_senders ordered_txns
      end
  end.
Definition remove_first_pending (self : PendingTransactions) :
    PendingTransactions * option SignedTransaction :=
  remove_first (pt_txns_by_senders self) (pt_ordered_txns self).

(** ** The window *)

Definition i64_MAX : Z := 2 ^ 63 - 1.
(** [n as i64] of a [usize]. *)
Definition as_i64 (n : Z) : Z := if n <=? i64_MAX then n else n - 2 ^ 64.
Definition i64_neg {E} (n : Z) : result E Z := if - n <=? i64_MAX then Ok (- n) else Panic.
Definition i64_add {E} (a b : Z) : result E Z :=
  if (- 2 ^ 63 <=? a + b) && (a + b <=? i64_MAX) then Ok (a + b) else Panic.

Record SlidingWindowState : Type := {
  sw_start_index : Z;
  sw_senders_in_window : gmap AccountAddress Z;
  sw_txns : list SignedTransaction;
}.

Definition SlidingWindowState_new (window_size : Z) : result anyhow SlidingWindowState :=
  start_index ← i64_neg (as_i64 window_size);
  Ok {| sw_start_index := start_index; sw_senders_in_window := ∅; sw_txns := [] |}.

(** The first sender of the window leaves it. *)
Definition slide (self : SlidingWindowState) : result anyhow (gmap AccountAddress Z) :=
  if sw_start_index self >=? 0 then
    match sw_txns self !! Z.to_nat (sw_start_index self) with
    | Some txn =>
        match sw_senders_in_window self !! sender txn with
        | Some count =>
            count ← u64_sub count 1;
            Ok (<[sender txn := count]> (sw_senders_in_window self))
        | None => Ok (sw_senders_in_window self)
        end
    | None => Panic
    end
  else Ok (sw_senders_in_window self).

Definition sw_add_transaction (txn : SignedTransaction) (self : SlidingWindowState) :
    result anyhow SlidingWindowState :=
  senders_in_window ← slide self;
  count ← u64_add (default 0 (senders_in_window !! sender txn)) 1;
  start_index ← i64_add (sw_start_index self) 1;
  Ok {| sw_start_index := start_index;
        sw_senders_in_window := <[sender txn := count]> senders_in_window;
        sw_txns := sw_txns self ++ [txn] |}.

Definition has_conflict (addr : AccountAddress) (self : SlidingWindowState) : bool :=
  match sw_senders_in_window self !! addr with
  | Some count => negb (count =? 0)
  | None => false
  end.

Definition last_dropped_sender (self : SlidingWindowState) : option AccountAddress :=
  if sw_start_index self >? 0 then
    let prev_start_index := sw_start_index self - 1 in
    last_sender ← sender <$> sw_txns self !! Z.to_nat prev_start_index;
    count ← sw_senders_in_window self !! last_sender;
    if count =? 0 then Some last_sender else None
  else None.

(** ** Shuffling *)

(** The search of the original transactions: those that conflict get pending. *)
Fixpoint scan (sliding_window : SlidingWindowState) (pending_txns : PendingTransactions)
    (orig_txns : list SignedTransaction) :
    PendingTransactions * list SignedTransaction * option SignedTransaction :=
  match orig_txns with
  | [] => (pending_txns, [], None)
  | txn :: orig_txns =>
      if negb (has_conflict (sender txn) sliding_window)
      then (pending_txns, orig_txns, Some txn)
      else scan sliding_window (pt_add_transaction txn pending_txns) orig_txns
  end.

Definition next_to_add (sliding_window : SlidingWindowState) (pending_txns : PendingTransactions)
    (orig_txns : list SignedTransaction) :
    result anyhow (PendingTransactions * list SignedTransaction * SignedTransaction) :=
  let '(pending_txns, dropped) :=
    match last_dropped_sender sliding_window with
    | Some s => remove_pending_from_sender s pending_txns
    | None => (pending_txns, None)
    end in
  match dropped with
  | Some txn => Ok (pending_txns, orig_txns, txn)
  | None =>
      match scan sliding_window pending_txns orig_txns with
      | (pending_txns, orig_txns, Some txn) => Ok (pending_txns, orig_txns, txn)
      | (pending_txns, orig_txns, None) =>
          match remove_first_pending pending_txns with
          | (pending_txns, Some txn) => Ok (pending_txns, orig_txns, txn)
          | (_, None) => Panic
          end
      end
  end.

(** The loop adds a transaction in every iteration, [fuel] bounds them. *)
Fixpoint shuffle_while (fuel : nat) (num_transactions : nat) (sliding_window : SlidingWindowState)
    (pending_txns : PendingTransactions) (orig_txns : list SignedTransaction) :
    result anyhow (list SignedTransaction) :=
  if (length (sw_txns sliding_window) <? num_transactions)%nat then
    match fuel with
    | O => Panic
    | S fuel =>
        '(pending_txns, orig_txns, txn) ← next_to_add sliding_window pending_txns orig_txns;
        sliding_window ← sw_add_transaction txn sliding_window;
        shuffle_while fuel num_transactions sliding_window pending_txns orig_txns
    end
  else Ok (sw_txns sliding_window).

Definition SenderAwareShuffler_shuffle (conflict_window_size : Z) (txns : list SignedTransaction) :
    result anyhow (list SignedTransaction) :=
  if decide (txns = []) then Ok txns
  else if conflict_window_size =? 0 then Ok txns
  else
    sliding_window ← SlidingWindowState_new conflict_window_size;
    shuffle_while (length txns) (length txns) sliding_window PendingTransactions_new txns.
End sender_aware.
