(* ===== verification/SenderAwareSafety.v ===== *)
(** The sender-aware shuffler: it returns, keeps the order of every sender, and
    places a transaction within the window of another one of its sender only when
    every transaction that is left would conflict. *)
From S2P Require Import Prelude Laptos TxnOrder SenderAware.

Section sender_aware_safety.
Context `{L : Laptos}.

#[local] Abbreviation sender := SignedTransaction_sender.

(** ** Pending transactions *)

Definition queue_in (by_senders : gmap AccountAddress (list SignedTransaction))
    (a : AccountAddress) : list SignedTransaction := default [] (by_senders !! a).
Definition queue_of (p : PendingTransactions) (a : AccountAddress) : list SignedTransaction :=
  queue_in (pt_txns_by_senders p) a.

(** The transactions taken out of the queue of a sender are left behind in the
    original order. *)
Definition pending_ok (p : PendingTransactions) : Prop :=
  ∀ a, queue_of p a `suffix_of` from_sender a (pt_ordered_txns p).

Lemma pending_sender p a t : pending_ok p → t ∈ queue_of p a → sender t = a.
Proof using Type.
  intros Hp Ht. destruct (Hp a) as [l Hl].
  eapply proj2, (elem_of_from_sender _ _ (pt_ordered_txns p)). rewrite Hl. apply elem_of_app. by right.
Qed.

Lemma queue_in_insert m a q b : queue_in (<[a := q]> m) b = if decide (a = b) then q else queue_in m b.
Proof using Type.
  unfold queue_in. case_decide as Hd; [subst b; by rewrite lookup_insert_eq|by rewrite lookup_insert_ne].
Qed.

Lemma pt_add_ok p t :
  pending_ok p → pending_ok (pt_add_transaction t p) ∧
  ∀ a, queue_of (pt_add_transaction t p) a = queue_of p a ++ from_sender a [t].
Proof using Type.
  intros Hp.
  assert (∀ a, queue_of (pt_add_transaction t p) a = queue_of p a ++ from_sender a [t]) as Hq.
  { intros a. unfold queue_of, pt_add_transaction. cbn [pt_txns_by_senders].
    rewrite queue_in_insert, from_sender_cons. fold (queue_in (pt_txns_by_senders p) (sender t)).
    case_decide as Hd; [by subst a; rewrite app_nil_r|by rewrite app_nil_r]. }
  split; [|done]. intros a. rewrite Hq. simpl. rewrite from_sender_app. by apply suffix_app.
Qed.

Lemma remove_pending_ok p a :
  pending_ok p →
  match remove_pending_from_sender a p with
  | (p', Some t) => pending_ok p' ∧ queue_of p a = t :: queue_of p' a ∧
      ∀ b, b ≠ a → queue_of p' b = queue_of p b
  | (p', None) => p' = p ∧ queue_of p a = []
  end.
Proof using Type.
  intros Hp. unfold remove_pending_from_sender. destruct (pt_txns_by_senders p !! a) as [[|t q]|] eqn:Hq.
  - split; [done|]. unfold queue_of, queue_in. by rewrite Hq.
  - assert (queue_of p a = t :: q) as Ha by (unfold queue_of, queue_in; by rewrite Hq).
    split_and!.
    + intros b. unfold queue_of. simpl. rewrite queue_in_insert. case_decide as Hd; [subst b|apply Hp].
      etrans; [|apply (Hp a)]. rewrite Ha. by apply suffix_cons_r.
    + rewrite Ha. unfold queue_of at 1. simpl. by rewrite queue_in_insert, decide_True.
    + intros b Hb. unfold queue_of at 1. simpl. by rewrite queue_in_insert, decide_False.
  - split; [done|]. unfold queue_of, queue_in. by rewrite Hq.
Qed.

Lemma suffix_of_cons {A} (q l : list A) t : q `suffix_of` t :: l → q = t :: l ∨ q `suffix_of` l.
Proof using Type.
  intros [[|y k] Hk]; simpl in Hk; [by left|]. injection Hk as _ Hk. right. by exists k.
Qed.

Lemma remove_first_ok by_senders ordered :
  pending_ok {| pt_txns_by_senders := by_senders; pt_ordered_txns := ordered |} →
  match remove_first by_senders ordered with
  | (p', Some t) => pending_ok p' ∧ queue_in by_senders (sender t) = t :: queue_of p' (sender t) ∧
      ∀ b, b ≠ sender t → queue_of p' b = queue_in by_senders b
  | (p', None) => ∀ a, queue_in by_senders a = []
  end.
Proof using Type.
  induction ordered as [|t ordered IH]; intros Hp; cbn [remove_first].
  { intros a. apply suffix_nil_inv. exact (Hp a). }
  assert (Some t ≠ head (queue_in by_senders (sender t)) →
    pending_ok {| pt_txns_by_senders := by_senders; pt_ordered_txns := ordered |}) as Hskip.
  { intros Hne a. specialize (Hp a). unfold queue_of in *. simpl in *. rewrite from_sender_cons in Hp.
    case_decide as Hd; [subst a|done]. apply suffix_of_cons in Hp as [Hp|]; [|done].
    by rewrite Hp in Hne. }
  destruct (by_senders !! sender t) as [q|] eqn:Hq.
  2: { apply IH, Hskip. unfold queue_in. by rewrite Hq. }
  assert (queue_in by_senders (sender t) = q) as Hqt by (unfold queue_in; by rewrite Hq).
  case_decide as Hd; [|apply IH, Hskip; by rewrite Hqt].
  destruct q as [|t' q]; [done|]. injection Hd as <-.
  unfold remove_pending_from_sender. simpl. rewrite Hq. split_and!.
  - intros a. specialize (Hp a). unfold queue_of in *. simpl in *. rewrite queue_in_insert.
    rewrite from_sender_cons in Hp. case_decide as Hd; [subst a|done].
    rewrite Hqt in Hp. apply suffix_of_cons in Hp as [[= ->]|Hp]; [done|].
    by apply suffix_cons_l in Hp.
  - rewrite Hqt. unfold queue_of. simpl. by rewrite queue_in_insert, decide_True.
  - intros b Hb. unfold queue_of. simpl. by rewrite queue_in_insert, decide_False.
Qed.

(** ** The window *)

Section window.
Context (w : nat).

(** The senders of the last [w] transactions. *)
Definition window (txns : list SignedTransaction) : list AccountAddress :=
  sender <$> drop (length txns - w) txns.

Record window_ok (sw : SlidingWindowState) : Prop := {
  wo_start : sw_start_index sw = Z.of_nat (length (sw_txns sw)) - Z.of_nat w;
  wo_count a : default 0 (sw_senders_in_window sw !! a) = occurrences_in a (window (sw_txns sw));
  wo_known t : t ∈ sw_txns sw → is_Some (sw_senders_in_window sw !! sender t);
}.

Lemma has_conflict_spec sw a : window_ok sw → has_conflict a sw = true ↔ a ∈ window (sw_txns sw).
Proof using Type.
  intros []. rewrite <- occurrences_in_positive, <- wo_count0. unfold has_conflict.
  pose proof (occurrences_in_nonneg a (window (sw_txns sw))). rewrite <- wo_count0 in *.
  destruct (sw_senders_in_window sw !! a) as [n|]; simpl in *; [|split; [done|lia]].
  rewrite negb_true_iff, Z.eqb_neq. lia.
Qed.

Lemma last_dropped_spec sw a :
  window_ok sw →
  last_dropped_sender sw = Some a ↔
  ∃ t, (w < length (sw_txns sw))%nat ∧ sw_txns sw !! (length (sw_txns sw) - w - 1)%nat = Some t ∧
    sender t = a ∧ a ∉ window (sw_txns sw).
Proof using Type.
  intros Hw. pose proof Hw as []. unfold last_dropped_sender. rewrite Z.gtb_ltb, wo_start0.
  destruct (Z.ltb_spec 0 (Z.of_nat (length (sw_txns sw)) - Z.of_nat w)) as [Hlt|Hge].
  2: { split; [done|]. intros (t & ? & _). lia. }
  replace (Z.to_nat _) with (length (sw_txns sw) - w - 1)%nat by lia.
  assert (is_Some (sw_txns sw !! (length (sw_txns sw) - w - 1)%nat)) as [t Ht]
    by (apply lookup_lt_is_Some; lia).
  rewrite Ht. cbn [fmap option_fmap option_map mbind option_bind].
  assert (t ∈ sw_txns sw) as Hin by by eapply list_elem_of_lookup_2.
  destruct (wo_known0 t Hin) as [n Hn]. rewrite Hn. cbn [mbind option_bind].
  assert (n = 0 ↔ sender t ∉ window (sw_txns sw)) as Hz.
  { specialize (wo_count0 (sender t)). rewrite Hn in wo_count0. simpl in wo_count0.
    pose proof (occurrences_in_nonneg (sender t) (window (sw_txns sw))).
    rewrite <- occurrences_in_positive. lia. }
  destruct (Z.eqb_spec n 0) as [H0|H0].
  - split; [intros [= <-]; exists t; split_and!; [lia|done|done|by apply Hz]|].
    intros (u & _ & Hu & <- & _). congruence.
  - split; [done|]. intros (u & _ & Hu & <- & Hnot). simplify_eq. by apply Hz in Hnot.
Qed.

Lemma occurrences_in_snoc (a b : AccountAddress) l :
  occurrences_in a (l ++ [b]) = occurrences_in a l + if decide (b = a) then 1 else 0.
Proof using Type. induction l as [|c l IH]; simpl; [lia|]. rewrite IH. lia. Qed.

(** The window after one more transaction. *)
Lemma window_snoc txns t :
  (0 < w)%nat →
  window (txns ++ [t]) =
    (if decide (w ≤ length txns)%nat then drop 1 (window txns) else window txns) ++ [sender t].
Proof using Type.
  intros Hw. unfold window. rewrite length_app. simpl. case_decide.
  - rewrite drop_app_le by lia. rewrite fmap_app. f_equal.
    rewrite <- fmap_drop, drop_drop. f_equal. f_equal. lia.
  - replace (length txns + 1 - w)%nat with 0%nat by lia. replace (length txns - w)%nat with 0%nat by lia.
    by rewrite !drop_0, fmap_app.
Qed.

Lemma window_first txns :
  (0 < w ≤ length txns)%nat →
  ∃ t, txns !! (length txns - w)%nat = Some t ∧ window txns = sender t :: drop 1 (window txns).
Proof using Type.
  intros Hw. assert (is_Some (txns !! (length txns - w)%nat)) as [t Ht] by (apply lookup_lt_is_Some; lia).
  exists t. split; [done|]. unfold window. rewrite (drop_S _ t _ Ht). done.
Qed.

Lemma slide_ok sw :
  window_ok sw → (0 < w)%nat → Z.of_nat (length (sw_txns sw)) < i64_MAX →
  ∃ senders, slide sw = Ok senders ∧
    (∀ a, default 0 (senders !! a) =
      occurrences_in a (if decide (w ≤ length (sw_txns sw))%nat then drop 1 (window (sw_txns sw))
                        else window (sw_txns sw))) ∧
    ∀ t, t ∈ sw_txns sw → is_Some (senders !! sender t).
Proof using Type.
  intros [] Hw Hlen. unfold slide. rewrite Z.geb_leb, wo_start0.
  destruct (Z.leb_spec 0 (Z.of_nat (length (sw_txns sw)) - Z.of_nat w)) as [Hle|Hlt].
  2: { exists (sw_senders_in_window sw). rewrite decide_False by lia. done. }
  rewrite decide_True by lia. destruct (window_first (sw_txns sw)) as (t & Ht & Hfirst); [lia|].
  replace (Z.to_nat _) with (length (sw_txns sw) - w)%nat by lia. rewrite Ht.
  destruct (wo_known0 t) as [n Hn]; [by eapply list_elem_of_lookup_2|]. rewrite Hn.
  assert (∀ a, default 0 (sw_senders_in_window sw !! a) =
    (if decide (sender t = a) then 1 else 0) + occurrences_in a (drop 1 (window (sw_txns sw)))) as Hc.
  { intros a. by rewrite wo_count0, Hfirst at 1. }
  pose proof (Hc (sender t)) as Hct. rewrite Hn, decide_True in Hct by done. simpl in Hct.
  pose proof (occurrences_in_nonneg (sender t) (drop 1 (window (sw_txns sw)))).
  rewrite (u64_sub_le n) by lia. cbn [mbind result_bind]. eexists. split; [done|]. split.
  - intros a. destruct (decide (sender t = a)) as [<-|Hne].
    + rewrite lookup_insert_eq. simpl. lia.
    + rewrite lookup_insert_ne, Hc, decide_False by done. lia.
  - intros u Hu. destruct (decide (sender t = sender u)) as [->|];
      [by rewrite lookup_insert_eq|rewrite lookup_insert_ne by done; by apply wo_known0].
Qed.

Lemma sw_add_ok sw t :
  window_ok sw → (0 < w)%nat → Z.of_nat w ≤ i64_MAX → Z.of_nat (length (sw_txns sw)) < i64_MAX →
  ∃ sw', sw_add_transaction t sw = Ok sw' ∧ window_ok sw' ∧ sw_txns sw' = sw_txns sw ++ [t].
Proof using Type.
  intros Hwo Hw Hwmax Hlen. destruct (slide_ok sw Hwo Hw Hlen) as (senders & Hs & Hc & Hk).
  unfold sw_add_transaction. rewrite Hs. cbn [mbind result_bind].
  assert (default 0 (senders !! sender t) + 1 ≤ u64_MAX) as Hmax.
  { rewrite Hc. etrans; [apply Z.add_le_mono_r, occurrences_in_le_length|].
    assert (length (if decide (w ≤ length (sw_txns sw))%nat then drop 1 (window (sw_txns sw))
      else window (sw_txns sw)) ≤ length (sw_txns sw))%nat.
    { unfold window. clear. case_decide; rewrite ?length_drop, length_fmap, length_drop; lia. }
    unfold i64_MAX, u64_MAX in *. lia. }
  rewrite (u64_add_le (default 0 (senders !! sender t))) by done. cbn [mbind result_bind].
  destruct Hwo. unfold i64_add. rewrite wo_start0.
  destruct (Z.leb_spec (- 2 ^ 63) (Z.of_nat (length (sw_txns sw)) - Z.of_nat w + 1)) as [_|Hn];
    [|unfold i64_MAX in *; lia].
  destruct (Z.leb_spec (Z.of_nat (length (sw_txns sw)) - Z.of_nat w + 1) i64_MAX); [|lia].
  cbn [andb mbind result_bind]. eexists. split; [done|]. split; [|done]. constructor; simpl.
  - rewrite length_app. simpl. lia.
  - intros a. rewrite window_snoc, occurrences_in_snoc by done.
    destruct (decide (sender t = a)) as [<-|Hne].
    + rewrite lookup_insert_eq. simpl. by rewrite Hc.
    + rewrite lookup_insert_ne, Hc by done. lia.
  - intros u [Hu| ->%list_elem_of_singleton]%elem_of_app; [|by rewrite lookup_insert_eq].
    destruct (decide (sender t = sender u)) as [->|]; [by rewrite lookup_insert_eq|].
    rewrite lookup_insert_ne by done. by apply Hk.
Qed.

(** ** The choice of the next transaction *)

(** What is left to add, of one sender. *)
Definition left_of (p : PendingTransactions) (orig : list SignedTransaction) (a : AccountAddress) :
    list SignedTransaction := queue_of p a ++ from_sender a orig.

Definition pending_in (p : PendingTransactions) (senders : list AccountAddress) : Prop :=
  ∀ a, queue_of p a ≠ [] → a ∈ senders.

Lemma scan_ok sw orig : ∀ p,
  window_ok sw → pending_ok p → pending_in p (window (sw_txns sw)) →
  let '(p', orig', found) := scan sw p orig in
  pending_ok p' ∧ pending_in p' (window (sw_txns sw)) ∧
  match found with
  | Some t => (sender t ∉ window (sw_txns sw)) ∧
      ∀ a, from_sender a [t] ++ left_of p' orig' a = left_of p orig a
  | None => orig' = [] ∧ ∀ a, queue_of p' a = left_of p orig a
  end.
Proof using Type.
  induction orig as [|t orig IH]; intros p Hw Hp Hin; cbn [scan].
  { split_and!; [done..|]. intros a. unfold left_of. by rewrite app_nil_r. }
  destruct (has_conflict (sender t) sw) eqn:Hc; cbn [negb].
  - destruct (pt_add_ok p t Hp) as [Hp' Hq]. specialize (IH (pt_add_transaction t p) Hw Hp').
    destruct (scan sw (pt_add_transaction t p) orig) as [[p' orig'] found].
    assert (∀ a, left_of (pt_add_transaction t p) orig a = left_of p (t :: orig) a) as Hleft.
    { intros a. unfold left_of. rewrite Hq, <- app_assoc, <- from_sender_app. done. }
    destruct IH as (? & ? & Hf).
    { intros a Ha. rewrite Hq in Ha. destruct (decide (sender t = a)) as [<-|Hne];
        [by apply has_conflict_spec|]. apply Hin. rewrite from_sender_cons, decide_False in Ha by done.
      by rewrite app_nil_r in Ha. }
    split_and!; [done..|]. destruct found; [destruct Hf as [? Hf]|destruct Hf as [? Hf]];
      (split; [done|]; intros a; by rewrite Hf, Hleft).
  - assert (sender t ∉ window (sw_txns sw)) as Hnot.
    { intros Hx%(has_conflict_spec sw); [congruence|done]. }
    split_and!; [done..|]. intros a. unfold left_of. rewrite !from_sender_cons.
    destruct (decide (sender t = a)) as [<-|]; [|done].
    destruct (queue_of p (sender t)) as [|u q] eqn:Hq; [done|].
    destruct Hnot. apply Hin. by rewrite Hq.
Qed.

(** The transaction that is added next: the first one left of its sender, and one
    that conflicts only when everything left does. *)
Record next_ok (sw : SlidingWindowState) (p : PendingTransactions) (orig : list SignedTransaction)
    (p' : PendingTransactions) (orig' : list SignedTransaction) (t : SignedTransaction) : Prop := {
  next_pending : pending_ok p';
  next_in : pending_in p' (sender t :: window (sw_txns sw));
  next_left a : from_sender a [t] ++ left_of p' orig' a = left_of p orig a;
  next_greedy : sender t ∈ window (sw_txns sw) →
    ∀ a, left_of p orig a ≠ [] → a ∈ window (sw_txns sw);
}.

Lemma next_to_add_ok sw p orig :
  window_ok sw → pending_ok p →
  (∀ a, queue_of p a ≠ [] → a ∈ window (sw_txns sw) ∨ last_dropped_sender sw = Some a) →
  (∃ a, left_of p orig a ≠ []) →
  ∃ p' orig' t, next_to_add sw p orig = Ok (p', orig', t) ∧ next_ok sw p orig p' orig' t.
Proof using Type.
  intros Hw Hp Hin [a0 Hsome]. unfold next_to_add.
  assert ((∃ s p' t, last_dropped_sender sw = Some s ∧ remove_pending_from_sender s p = (p', Some t)) ∨
    (match last_dropped_sender sw with
     | Some s => remove_pending_from_sender s p | None => (p, None) end = (p, None) ∧
     pending_in p (window (sw_txns sw)))) as [(s & p' & t & Hs & Hr)|[-> Hin']].
  { destruct (last_dropped_sender sw) as [s|] eqn:Hs.
    - pose proof (remove_pending_ok p s Hp) as Hr.
      destruct (remove_pending_from_sender s p) as [p' [t|]] eqn:Hrm.
      + left. by exists s, p', t.
      + destruct Hr as [-> Hr]. right. split; [done|]. intros a Ha.
        destruct (Hin a Ha) as [|[= ->]]; [done|]. by rewrite Hr in Ha.
    - right. split; [done|]. intros a Ha. by destruct (Hin a Ha). }
  - rewrite Hs, Hr. exists p', orig, t. split; [done|].
    pose proof (remove_pending_ok p s Hp) as Hrp. rewrite Hr in Hrp. destruct Hrp as (Hp' & Hq & Hother).
    assert (sender t = s) as Hts by (apply (pending_sender p); [done|]; rewrite Hq; by left).
    constructor; [done| | |].
    + intros a Ha. rewrite Hts. destruct (decide (a = s)) as [->|Hne]; [by left|]. right.
      rewrite Hother in Ha by done. destruct (Hin a Ha) as [|Hx]; [done|]. congruence.
    + intros a. unfold left_of. rewrite from_sender_cons, Hts.
      destruct (decide (s = a)) as [<-|]; [by rewrite Hq|by rewrite Hother by congruence].
    + rewrite Hts. apply last_dropped_spec in Hs as (_ & _ & _ & _ & Hs); done.
  - pose proof (scan_ok sw orig p Hw Hp Hin') as Hsc.
    destruct (scan sw p orig) as [[p1 orig1] [t|]]; destruct Hsc as (Hp1 & Hin1 & Hf).
    + exists p1, orig1, t. destruct Hf as [Hnot Hf]. split; [done|].
      constructor; [done| |done|done]. intros a Ha. right. by apply Hin1.
    + destruct Hf as [-> Hf]. unfold remove_first_pending.
      pose proof (remove_first_ok (pt_txns_by_senders p1) (pt_ordered_txns p1)) as Hr.
      destruct (remove_first _ _) as [p2 [t|]]; [|by destruct Hsome; rewrite <- Hf; apply Hr; destruct p1].
      destruct Hr as (Hp2 & Hq & Hother); [by destruct p1|]. fold (queue_of p1 (sender t)) in Hq.
      assert (∀ a, left_of p orig a ≠ [] → a ∈ window (sw_txns sw)) as Hall.
      { intros a Ha. apply Hin1. by rewrite Hf. }
      exists p2, [], t. split; [done|]. constructor; [done| | |done].
      * intros a Ha. destruct (decide (a = sender t)) as [->|Hne]; [by left|]. right. apply Hin1.
        rewrite Hother in Ha by done. done.
      * intros a. rewrite <- Hf. unfold left_of. rewrite from_sender_cons.
        change (from_sender a []) with (@nil SignedTransaction). rewrite !app_nil_r.
        destruct (decide (sender t = a)) as [<-|]; [by rewrite Hq|]. by rewrite Hother by congruence.
Qed.

(** ** The loop *)

Lemma dropped_next sw sw' t a :
  window_ok sw' → (0 < w)%nat → sw_txns sw' = sw_txns sw ++ [t] →
  a ∈ sender t :: window (sw_txns sw) →
  a ∈ window (sw_txns sw') ∨ last_dropped_sender sw' = Some a.
Proof using Type.
  intros Hw' Hw Htxns Ha. rewrite Htxns, (window_snoc _ _ Hw), elem_of_app.
  apply elem_of_cons in Ha as [->|Ha]; [by left; right; left|].
  destruct (decide (w ≤ length (sw_txns sw))%nat) as [Hle|]; [|by left; left].
  destruct (window_first (sw_txns sw)) as (u & Hu & Hfirst); [lia|].
  rewrite Hfirst in Ha. apply elem_of_cons in Ha as [->|Ha]; [|by left; left].
  destruct (decide (sender u ∈ window (sw_txns sw'))) as [Hin|Hnot].
  { left. by rewrite Htxns, (window_snoc _ _ Hw), decide_True, elem_of_app in Hin. }
  right. apply last_dropped_spec; [done|]. exists u. rewrite Htxns, length_app in *. simpl.
  split_and!; [lia| |done|done]. rewrite lookup_app_l by lia.
  by replace (length (sw_txns sw) + 1 - w - 1)%nat with (length (sw_txns sw) - w)%nat by lia.
Qed.

(** The transaction at [i] conflicts only when all from there on do. *)
Definition greedy_at (out : list SignedTransaction) (i : nat) : Prop :=
  ∀ t, out !! i = Some t → sender t ∈ window (take i out) →
    ∀ j u, (i ≤ j)%nat → out !! j = Some u → sender u ∈ window (take i out).

Lemma shuffle_while_ok txns fuel : ∀ sw p orig,
  (0 < w)%nat → Z.of_nat w ≤ i64_MAX → Z.of_nat (length txns) ≤ i64_MAX →
  window_ok sw → pending_ok p →
  (∀ a, queue_of p a ≠ [] → a ∈ window (sw_txns sw) ∨ last_dropped_sender sw = Some a) →
  (∀ a, from_sender a (sw_txns sw) ++ left_of p orig a = from_sender a txns) →
  (length txns ≤ length (sw_txns sw) + fuel)%nat → (length (sw_txns sw) ≤ length txns)%nat →
  ∃ out rest, shuffle_while fuel (length txns) sw p orig = Ok out ∧ out = sw_txns sw ++ rest ∧
    (∀ a, from_sender a rest = left_of p orig a) ∧
    ∀ i, (length (sw_txns sw) ≤ i)%nat → greedy_at out i.
Proof using Type.
  induction fuel as [|fuel IH]; intros sw p orig Hw0 Hwmax Hmax Hw Hp Hin Hleft Hfuel Hlen;
    cbn [shuffle_while]; destruct (Nat.ltb_spec (length (sw_txns sw)) (length txns)) as [Hlt|Hge]; [lia| | |].
  1,3: exists (sw_txns sw), []; split_and!; [done|by rewrite app_nil_r| |
    intros i Hi t Ht; apply lookup_lt_Some in Ht; lia]; intros a;
    destruct (left_of p orig a) as [|u l] eqn:Ha; [done|]; exfalso;
    assert (length (sw_txns sw) < length txns)%nat; [|lia];
    apply (left_of_total _ _ _ Hleft); exists a; by rewrite Ha.
  apply (left_of_total _ _ _ Hleft) in Hlt as Hsome.
  destruct (next_to_add_ok sw p orig Hw Hp Hin Hsome) as (p' & orig' & t & -> & []).
  cbn [mbind result_bind].
  destruct (sw_add_ok sw t Hw Hw0 Hwmax) as (sw' & -> & Hw' & Htxns); [lia|]. cbn [mbind result_bind].
  destruct (IH sw' p' orig') as (out & rest & Ho & Heq & Hrest & Hgreedy); try done.
  - intros a Ha. by apply (dropped_next sw sw' t a Hw' Hw0 Htxns), next_in0.
  - intros a. by rewrite Htxns, from_sender_app, <- app_assoc, next_left0.
  - rewrite Htxns, length_app. simpl. lia.
  - rewrite Htxns, length_app. simpl. lia.
  - exists out, (t :: rest). split_and!; [done|by rewrite Heq, Htxns, <- app_assoc| |].
    + intros a. change (t :: rest) with ([t] ++ rest). rewrite from_sender_app, Hrest. apply next_left0.
    + intros i Hi. destruct (decide (i = length (sw_txns sw))) as [->|];
        [|apply Hgreedy; rewrite Htxns, length_app; simpl; lia].
      rewrite Htxns, <- app_assoc in Heq. change ([t] ++ rest) with (t :: rest) in Heq.
      subst out. intros u Hu. rewrite take_app_length.
      rewrite list_lookup_middle in Hu by done. injection Hu as <-.
      intros Hc j u Hj Hu. apply (next_greedy0 Hc). rewrite lookup_app_r in Hu by done.
      apply list_elem_of_lookup_2 in Hu. rewrite <- next_left0, <- Hrest, <- from_sender_app.
      change ([t] ++ rest) with (t :: rest).
      intros Hnil. apply (not_elem_of_nil u). rewrite <- Hnil. by apply elem_of_from_sender.
Qed.

(** Without two transactions of a sender there are no conflicts. *)
Lemma shuffle_while_unique txns fuel : ∀ sw p orig,
  (0 < w)%nat → Z.of_nat w ≤ i64_MAX → Z.of_nat (length txns) ≤ i64_MAX →
  window_ok sw → (∀ a, queue_of p a = []) → txns = sw_txns sw ++ orig → NoDup (sender <$> txns) →
  (length orig ≤ fuel)%nat →
  shuffle_while fuel (length txns) sw p orig = Ok txns.
Proof using Type.
  induction fuel as [|fuel IH]; intros sw p orig Hw0 Hwmax Hmax Hw Hq Heq Hnd Hfuel; cbn [shuffle_while].
  { destruct orig; [|simpl in Hfuel; lia]. rewrite app_nil_r in Heq. subst txns.
    by rewrite Nat.ltb_irrefl. }
  destruct orig as [|t orig].
  { rewrite app_nil_r in Heq. subst txns. by rewrite Nat.ltb_irrefl. }
  assert (length (sw_txns sw) < length txns)%nat as Hlt by (rewrite Heq, length_app; simpl; lia).
  rewrite (proj2 (Nat.ltb_lt _ _) Hlt).
  assert (next_to_add sw p (t :: orig) = Ok (p, orig, t)) as ->.
  { unfold next_to_add.
    assert (match last_dropped_sender sw with
      Some s => remove_pending_from_sender s p | None => (p, None) end = (p, None)) as ->.
    { destruct (last_dropped_sender sw) as [s|]; [|done]. unfold remove_pending_from_sender.
      specialize (Hq s). unfold queue_of, queue_in in Hq.
      destruct (pt_txns_by_senders p !! s) as [[|]|]; done. }
    cbn [scan]. assert (has_conflict (sender t) sw = false) as ->; [|done].
    apply not_true_iff_false. rewrite has_conflict_spec by done. intros Hc.
    rewrite Heq, fmap_app in Hnd. apply NoDup_app in Hnd as (_ & Hnd & _). apply (Hnd (sender t)).
    - unfold window in Hc. apply list_elem_of_fmap in Hc as (u & -> & Hu). apply list_elem_of_fmap.
      exists u. split; [done|]. 
      eapply elem_of_submseteq; [exact Hu|apply sublist_submseteq, sublist_drop].
    - by left. }
  cbn [mbind result_bind].
  destruct (sw_add_ok sw t Hw Hw0 Hwmax) as (sw' & -> & Hw' & Htxns); [lia|]. cbn [mbind result_bind].
  apply IH; try done; [by rewrite Htxns, <- app_assoc|simpl in Hfuel; lia].
Qed.
End window.

Lemma SenderAwareShuffler_shuffle_ok w txns :
  0 ≤ w ≤ i64_MAX → Z.of_nat (length txns) ≤ i64_MAX →
  ∃ out, SenderAwareShuffler_shuffle w txns = Ok out ∧
    keeps_sender_order out txns ∧
    (0 < w → ∀ i, greedy_at (Z.to_nat w) out i) ∧
    (NoDup (sender <$> txns) → out = txns).
Proof using Type.
  intros Hw Hlen. unfold SenderAwareShuffler_shuffle. case_decide as Hd.
  { subst txns. exists []. split_and!; [done..| |done]. by intros _ i t. }
  destruct (Z.eqb_spec w 0) as [->|Hne]; [exists txns; split_and!; [done..|lia|done]|].
  unfold SlidingWindowState_new, as_i64, i64_neg. rewrite (proj2 (Z.leb_le w i64_MAX)) by lia.
  rewrite (proj2 (Z.leb_le (- w) i64_MAX)) by (unfold i64_MAX; lia). cbn [mbind result_bind].
  set (sw := {| sw_start_index := - w; sw_senders_in_window := ∅; sw_txns := [] |}).
  assert (window_ok (Z.to_nat w) sw) as Hwo.
  { constructor; simpl; [lia|by intros a; rewrite lookup_empty|by intros t ?%elem_of_nil]. }
  assert (∀ a, queue_of PendingTransactions_new a = []) as Hq.
  { intros a. unfold queue_of, queue_in. simpl. by rewrite lookup_empty. }
  destruct (shuffle_while_ok (Z.to_nat w) txns (length txns) sw PendingTransactions_new txns)
    as (out & rest & Ho & -> & Hrest & Hgreedy); try done; try lia.
  - intros a. rewrite Hq. by exists (from_sender a []).
  - simpl. lia.
  - exists rest. rewrite Ho. assert (keeps_sender_order rest txns) as Hk.
    { intros a. rewrite Hrest. unfold left_of. by rewrite Hq. }
    split_and!; [done|done|intros _ i; apply Hgreedy; simpl; lia|].
    intros Hnd. rewrite (shuffle_while_unique (Z.to_nat w)) in Ho; try done; try lia. by injection Ho.
Qed.
#[export] Instance SenderAwareShuffler_shuffles w :
  TransactionShuffler (SenderAwareShuffler_shuffle w) (if decide (0 ≤ w ≤ i64_MAX) then i64_MAX else -1).
Proof using Type.
  intros txns Hlen. case_decide as Hw; [|lia].
  destruct (SenderAwareShuffler_shuffle_ok w txns Hw Hlen) as (out & Hout & Hk & _). eauto.
Qed.

(** The sender-aware shuffler returns a permutation of the block in which the
    transactions of every sender keep their order.  A transaction follows another
    one of its sender within the window only when all transactions from there on
    have their senders in the window, and nothing is moved when no sender occurs
    twice. *)
Theorem sender_aware_shuffle_ok w txns :
  0 ≤ w ≤ i64_MAX → Z.of_nat (length txns) ≤ i64_MAX →
  ∃ out, SenderAwareShuffler_shuffle w txns = Ok out ∧
    keeps_sender_order out txns ∧ out ≡ₚ txns ∧
    (0 < w → ∀ i, greedy_at (Z.to_nat w) out i) ∧
    (NoDup (sender <$> txns) → out = txns).
Proof using Type.
  intros Hw Hlen. destruct (SenderAwareShuffler_shuffle_ok w txns Hw Hlen) as (out & Hout & Hk & Hrest).
  exists out. split_and!; [done|done|by apply keeps_sender_order_perm|apply Hrest..].
Qed.
End sender_aware_safety.
