(* ===== verification/DelayedQueue.v ===== *)
(** The use-case-aware shuffler (consensus/src/transaction_shuffler/
    use_case_aware): a queue of delayed transactions by sender and use case, and
    the iterator that takes the transactions of a block through it. *)
From S2P Require Import Prelude Laptos.

(** ** Maps that are strict about their keys *)

Section strict_map.
Context {K V : Type} `{Countable K}.

Definition strict_insert (key : K) (value : V) (self : gmap K V) : result anyhow (gmap K V) :=
  match self !! key with Some _ => Panic | None => Ok (<[key := value]> self) end.
Definition strict_remove (key : K) (self : gmap K V) : result anyhow (gmap K V) :=
  match self !! key with Some _ => Ok (delete key self) | None => Panic end.
(** [expect_mut], and [expect] of an option. *)
Definition expect {A} (o : option A) : result anyhow A :=
  match o with Some a => Ok a | None => Panic end.
End strict_map.
Definition assert_that (b : bool) : result anyhow unit := if b then Ok tt else Panic.

(** ** Keys *)

Record DelayKey : Type := { dk_try_delay_till : Z; dk_input_idx : Z }.
#[global] Instance DelayKey_eq_dec : EqDecision DelayKey.
Proof. solve_decision. Defined.
#[global] Instance DelayKey_countable : Countable DelayKey.
Proof.
  refine (inj_countable' (λ k, (dk_try_delay_till k, dk_input_idx k))
    (λ p, {| dk_try_delay_till := p.1; dk_input_idx := p.2 |}) _). by intros [].
Defined.

Definition delay_key_le (a b : DelayKey) : Prop :=
  dk_try_delay_till a < dk_try_delay_till b ∨
  dk_try_delay_till a = dk_try_delay_till b ∧ dk_input_idx a ≤ dk_input_idx b.
#[global] Instance delay_key_le_dec : RelDecision delay_key_le.
Proof. unfold delay_key_le. intros a b. apply _. Defined.

Definition first_key_value {V} (self : gmap DelayKey V) : option (DelayKey * V) :=
  head (btree_list delay_key_le self).

Section delayed_queue.
Context `{L : Laptos}.

(** [UseCaseKey] and the trait [UseCaseAwareTransaction] of the laptos crate. *)
Inductive UseCaseKey : Type :=
| Platform
| ContractAddress (address : AccountAddress)
| Others.
#[global] Instance UseCaseKey_eq_dec : EqDecision UseCaseKey.
Proof using Type. solve_decision. Defined.
#[global] Instance UseCaseKey_countable : Countable UseCaseKey.
Proof using Type.
  refine (inj_countable'
    (λ k, match k with Platform => None | ContractAddress a => Some (Some a) | Others => Some None end)
    (λ o, match o with None => Platform | Some (Some a) => ContractAddress a | Some None => Others end) _).
  by intros [].
Defined.

Context (parse_sender : SignedTransaction → AccountAddress).
Context (parse_use_case : SignedTransaction → UseCaseKey).

Record Config : Type := {
  sender_spread_factor : Z;
  platform_use_case_spread_factor : Z;
  user_use_case_spread_factor : Z;
}.
Definition use_case_spread_factor (use_case_key : UseCaseKey) (self : Config) : Z :=
  match use_case_key with
  | Platform => platform_use_case_spread_factor self
  | ContractAddress _ | Others => user_use_case_spread_factor self
  end.

(** ** Accounts *)

Record Account : Type := {
  ac_try_delay_till : Z;
  ac_input_idx : Z;
  ac_txns : list (Z * SignedTransaction);
}.
Definition Account_new_with_txn (try_delay_till input_idx : Z) (txn : SignedTransaction) : Account :=
  {| ac_try_delay_till := try_delay_till; ac_input_idx := input_idx; ac_txns := [(input_idx, txn)] |}.
Definition Account_new_empty (try_delay_till input_idx : Z) : Account :=
  {| ac_try_delay_till := try_delay_till; ac_input_idx := input_idx; ac_txns := [] |}.
Definition ac_is_empty (self : Account) : bool := bool_decide (ac_txns self = []).
Definition ac_delay_key (self : Account) : DelayKey :=
  {| dk_try_delay_till := ac_try_delay_till self; dk_input_idx := ac_input_idx self |}.
Definition expect_use_case_key (self : Account) : result anyhow UseCaseKey :=
  match ac_txns self with (_, txn) :: _ => Ok (parse_use_case txn) | [] => Panic end.

Definition ac_queue_txn (input_idx : Z) (txn : SignedTransaction) (self : Account) :
    result anyhow Account :=
  idx ← match last (ac_txns self) with
        | Some (last_idx, _) => _ ← assert_that (last_idx <? input_idx); Ok (ac_input_idx self)
        | None => Ok input_idx
        end;
  Ok {| ac_try_delay_till := ac_try_delay_till self; ac_input_idx := idx;
        ac_txns := ac_txns self ++ [(input_idx, txn)] |}.

Definition expect_dequeue_txn (self : Account) : result anyhow (Account * SignedTransaction) :=
  match ac_txns self with
  | [] => Panic
  | (_, txn) :: txns =>
      Ok ({| ac_try_delay_till := ac_try_delay_till self;
             ac_input_idx := match txns with (next_idx, _) :: _ => next_idx | [] => ac_input_idx self end;
             ac_txns := txns |}, txn)
  end.

Definition ac_update_try_delay_till (try_delay_till : Z) (self : Account) : Account :=
  {| ac_try_delay_till := try_delay_till; ac_input_idx := ac_input_idx self; ac_txns := ac_txns self |}.

(** ** Use cases *)

Record UseCase : Type := {
  uc_try_delay_till : Z;
  uc_input_idx : Z;
  uc_account_by_delay : gmap DelayKey AccountAddress;
}.
Definition UseCase_new_empty (try_delay_till input_idx : Z) : UseCase :=
  {| uc_try_delay_till := try_delay_till; uc_input_idx := input_idx; uc_account_by_delay := ∅ |}.
Definition UseCase_new_with_account (try_delay_till : Z) (address : AccountAddress)
    (account : Account) : result anyhow UseCase :=
  account_by_delay ← strict_insert (ac_delay_key account) address ∅;
  Ok {| uc_try_delay_till := try_delay_till; uc_input_idx := ac_input_idx account;
        uc_account_by_delay := account_by_delay |}.
Definition uc_is_empty (self : UseCase) : bool := bool_decide (uc_account_by_delay self = ∅).

Definition uc_delay_key (self : UseCase) : DelayKey :=
  {| dk_try_delay_till :=
       Z.max (uc_try_delay_till self)
         (match first_key_value (uc_account_by_delay self) with
          | Some (k, _) => dk_try_delay_till k
          | None => 0
          end);
     dk_input_idx := uc_input_idx self |}.

Definition expect_pop_head_account (self : UseCase) :
    result anyhow (UseCase * DelayKey * AccountAddress) :=
  match first_key_value (uc_account_by_delay self) with
  | None => Panic
  | Some (account_delay_key, address) =>
      let account_by_delay := delete account_delay_key (uc_account_by_delay self) in
      Ok ({| uc_try_delay_till := uc_try_delay_till self;
             uc_input_idx := match first_key_value account_by_delay with
                             | Some (k, _) => dk_input_idx k
                             | None => uc_input_idx self
                             end;
             uc_account_by_delay := account_by_delay |}, account_delay_key, address)
  end.

Definition uc_update_try_delay_till (try_delay_till : Z) (self : UseCase) : UseCase :=
  {| uc_try_delay_till := try_delay_till; uc_input_idx := uc_input_idx self;
     uc_account_by_delay := uc_account_by_delay self |}.

Definition add_account (address : AccountAddress) (account : Account) (self : UseCase) :
    result anyhow UseCase :=
  let account_delay_key := ac_delay_key account in
  account_by_delay ← strict_insert account_delay_key address (uc_account_by_delay self);
  '(_, head_address) ← expect (first_key_value account_by_delay);
  Ok {| uc_try_delay_till := uc_try_delay_till self;
        uc_input_idx := if decide (head_address = address) then dk_input_idx account_delay_key
                        else uc_input_idx self;
        uc_account_by_delay := account_by_delay |}.

(** ** The queue *)

Record DelayedQueue : Type := {
  dq_accounts : gmap AccountAddress Account;
  dq_use_cases : gmap UseCaseKey UseCase;
  dq_use_cases_by_delay : gmap DelayKey UseCaseKey;
  dq_account_placeholders_by_delay : gmap DelayKey AccountAddress;
  dq_use_case_placeholders_by_delay : gmap DelayKey UseCaseKey;
  dq_output_idx : Z;
  dq_config : Config;
}.

Definition DelayedQueue_new (config : Config) : DelayedQueue :=
  {| dq_accounts := ∅; dq_use_cases := ∅; dq_use_cases_by_delay := ∅;
     dq_account_placeholders_by_delay := ∅; dq_use_case_placeholders_by_delay := ∅;
     dq_output_idx := 0; dq_config := config |}.

(** Updates of the fields. *)
Definition dq_with_accounts (accounts : gmap AccountAddress Account)
    (placeholders : gmap DelayKey AccountAddress) (self : DelayedQueue) : DelayedQueue :=
  {| dq_accounts := accounts; dq_use_cases := dq_use_cases self;
     dq_use_cases_by_delay := dq_use_cases_by_delay self;
     dq_account_placeholders_by_delay := placeholders;
     dq_use_case_placeholders_by_delay := dq_use_case_placeholders_by_delay self;
     dq_output_idx := dq_output_idx self; dq_config := dq_config self |}.
Definition dq_with_use_cases (use_cases : gmap UseCaseKey UseCase)
    (by_delay placeholders : gmap DelayKey UseCaseKey) (self : DelayedQueue) : DelayedQueue :=
  {| dq_accounts := dq_accounts self; dq_use_cases := use_cases;
     dq_use_cases_by_delay := by_delay;
     dq_account_placeholders_by_delay := dq_account_placeholders_by_delay self;
     dq_use_case_placeholders_by_delay := placeholders;
     dq_output_idx := dq_output_idx self; dq_config := dq_config self |}.
Definition dq_with_output_idx (output_idx : Z) (self : DelayedQueue) : DelayedQueue :=
  {| dq_accounts := dq_accounts self; dq_use_cases := dq_use_cases self;
     dq_use_cases_by_delay := dq_use_cases_by_delay self;
     dq_account_placeholders_by_delay := dq_account_placeholders_by_delay self;
     dq_use_case_placeholders_by_delay := dq_use_case_placeholders_by_delay self;
     dq_output_idx := output_idx; dq_config := dq_config self |}.

(** A use case is in one of two queues: with accounts that have transactions in
    the main one, without any among the placeholders. *)
Definition queue_use_case (key : UseCaseKey) (use_case : UseCase) (self : DelayedQueue) :
    result anyhow DelayedQueue :=
  if uc_is_empty use_case then
    placeholders ← strict_insert (uc_delay_key use_case) key (dq_use_case_placeholders_by_delay self);
    Ok (dq_with_use_cases (dq_use_cases self) (dq_use_cases_by_delay self) placeholders self)
  else
    by_delay ← strict_insert (uc_delay_key use_case) key (dq_use_cases_by_delay self);
    Ok (dq_with_use_cases (dq_use_cases self) by_delay (dq_use_case_placeholders_by_delay self) self).
Definition unqueue_use_case (use_case : UseCase) (self : DelayedQueue) :
    result anyhow DelayedQueue :=
  if uc_is_empty use_case then
    placeholders ← strict_remove (uc_delay_key use_case) (dq_use_case_placeholders_by_delay self);
    Ok (dq_with_use_cases (dq_use_cases self) (dq_use_cases_by_delay self) placeholders self)
  else
    by_delay ← strict_remove (uc_delay_key use_case) (dq_use_cases_by_delay self);
    Ok (dq_with_use_cases (dq_use_cases self) by_delay (dq_use_case_placeholders_by_delay self) self).
Definition set_use_case (key : UseCaseKey) (use_case : UseCase) (self : DelayedQueue) : DelayedQueue :=
  dq_with_use_cases (<[key := use_case]> (dq_use_cases self)) (dq_use_cases_by_delay self)
    (dq_use_case_placeholders_by_delay self) self.
Definition set_account (address : AccountAddress) (account : Account) (self : DelayedQueue) :
    DelayedQueue :=
  dq_with_accounts (<[address := account]> (dq_accounts self))
    (dq_account_placeholders_by_delay self) self.

(** An account with transactions joins a use case: a tracked one is taken out of
    its queue and put back, another one is ready at [try_delay_till]. *)
Definition join_use_case (key : UseCaseKey) (try_delay_till : Z) (address : AccountAddress)
    (account : Account) (self : DelayedQueue) : result anyhow DelayedQueue :=
  match dq_use_cases self !! key with
  | Some use_case =>
      self ← unqueue_use_case use_case self;
      use_case ← add_account address account use_case;
      by_delay ← strict_insert (uc_delay_key use_case) key (dq_use_cases_by_delay self);
      Ok (set_use_case key use_case
            (dq_with_use_cases (dq_use_cases self) by_delay
               (dq_use_case_placeholders_by_delay self) self))
  | None =>
      use_case ← UseCase_new_with_account try_delay_till address account;
      by_delay ← strict_insert (uc_delay_key use_case) key (dq_use_cases_by_delay self);
      Ok (set_use_case key use_case
            (dq_with_use_cases (dq_use_cases self) by_delay
               (dq_use_case_placeholders_by_delay self) self))
  end.

(** [split_off]: the keys below [key], and the others. *)
Definition split_below {V} (key : DelayKey) (m : gmap DelayKey V) : gmap DelayKey V * gmap DelayKey V :=
  (filter (λ e, ¬ delay_key_le key e.1) m, filter (λ e, delay_key_le key e.1) m).

Definition drain_placeholders (self : DelayedQueue) : result anyhow DelayedQueue :=
  least ← u64_add (dq_output_idx self) 1;
  let least_to_keep := {| dk_try_delay_till := least; dk_input_idx := 0 |} in
  let '(stale_use_cases, remaining_use_cases) :=
    split_below least_to_keep (dq_use_case_placeholders_by_delay self) in
  let '(stale_accounts, remaining_accounts) :=
    split_below least_to_keep (dq_account_placeholders_by_delay self) in
  use_cases ← fold_result (λ m e, strict_remove e.2 m) (dq_use_cases self)
                (btree_list delay_key_le stale_use_cases);
  accounts ← fold_result (λ m e, strict_remove e.2 m) (dq_accounts self)
               (btree_list delay_key_le stale_accounts);
  Ok (dq_with_accounts accounts remaining_accounts
        (dq_with_use_cases use_cases (dq_use_cases_by_delay self) remaining_use_cases self)).

Definition bump_output_idx (output_idx : Z) (self : DelayedQueue) : result anyhow DelayedQueue :=
  _ ← assert_that (output_idx >=? dq_output_idx self);
  if output_idx >? dq_output_idx self
  then drain_placeholders (dq_with_output_idx output_idx self)
  else Ok self.

(** [self.output_idx + 1 + factor]. *)
Definition delay_till (factor : Z) (self : DelayedQueue) : result anyhow Z :=
  next ← u64_add (dq_output_idx self) 1; u64_add next factor.

(** The account goes back to the queues after its first transaction was taken,
    and so does the use case it was in. *)
Definition put_back (use_case_key : UseCaseKey) (use_case : UseCase) (address : AccountAddress)
    (account : Account) (self : DelayedQueue) : result anyhow DelayedQueue :=
  if ac_is_empty account then
    placeholders ← strict_insert (ac_delay_key account) address
                     (dq_account_placeholders_by_delay self);
    queue_use_case use_case_key use_case (dq_with_accounts (dq_accounts self) placeholders self)
  else
    new_use_case_key ← expect_use_case_key account;
    if decide (new_use_case_key = use_case_key) then
      use_case ← add_account address account use_case;
      by_delay ← strict_insert (uc_delay_key use_case) use_case_key (dq_use_cases_by_delay self);
      Ok (set_use_case use_case_key use_case
            (dq_with_use_cases (dq_use_cases self) by_delay
               (dq_use_case_placeholders_by_delay self) self))
    else
      self ← queue_use_case use_case_key use_case self;
      next ← u64_add (dq_output_idx self) 1;
      join_use_case new_use_case_key next address account self.

Definition pop_head (only_if_ready : bool) (self : DelayedQueue) :
    result anyhow (DelayedQueue * option SignedTransaction) :=
  match first_key_value (dq_use_cases_by_delay self) with
  | None => Ok (self, None)
  | Some (use_case_delay_key, use_case_key) =>
      if only_if_ready && (dk_try_delay_till use_case_delay_key >? dq_output_idx self)
      then Ok (self, None)
      else
        let self := dq_with_use_cases (dq_use_cases self)
                      (delete use_case_delay_key (dq_use_cases_by_delay self))
                      (dq_use_case_placeholders_by_delay self) self in
        use_case ← expect (dq_use_cases self !! use_case_key);
        '(use_case, account_delay_key, address) ← expect_pop_head_account use_case;
        _ ← assert_that (dk_try_delay_till account_delay_key <=? dk_try_delay_till use_case_delay_key);
        _ ← assert_that (dk_input_idx account_delay_key =? dk_input_idx use_case_delay_key);
        account ← expect (dq_accounts self !! address);
        '(account, txn) ← expect_dequeue_txn account;
        account_till ← delay_till (sender_spread_factor (dq_config self)) self;
        use_case_till ← delay_till (use_case_spread_factor use_case_key (dq_config self)) self;
        let account := ac_update_try_delay_till account_till account in
        let use_case := uc_update_try_delay_till use_case_till use_case in
        self ← put_back use_case_key use_case address account
                 (set_account address account (set_use_case use_case_key use_case self));
        Ok (self, Some txn)
  end.

Definition dq_queue_txn (input_idx : Z) (address : AccountAddress) (use_case_key : UseCaseKey)
    (txn : SignedTransaction) (self : DelayedQueue) : result anyhow DelayedQueue :=
  match dq_accounts self !! address with
  | Some account =>
      if ac_is_empty account then
        let self := dq_with_accounts (dq_accounts self)
                      (delete (ac_delay_key account) (dq_account_placeholders_by_delay self)) self in
        account ← ac_queue_txn input_idx txn account;
        join_use_case use_case_key (dq_output_idx self) address account
          (set_account address account self)
      else
        account ← ac_queue_txn input_idx txn account;
        Ok (set_account address account self)
  | None =>
      next ← u64_add (dq_output_idx self) 1;
      let account := Account_new_with_txn next input_idx txn in
      use_case ← expect (dq_use_cases self !! use_case_key);
      self ← unqueue_use_case use_case self;
      use_case ← add_account address account use_case;
      accounts ← strict_insert address account (dq_accounts self);
      by_delay ← strict_insert (uc_delay_key use_case) use_case_key (dq_use_cases_by_delay self);
      Ok (set_use_case use_case_key use_case
            (dq_with_accounts accounts (dq_account_placeholders_by_delay self)
               (dq_with_use_cases (dq_use_cases self) by_delay
                  (dq_use_case_placeholders_by_delay self) self)))
  end.

(** The use case of a transaction that is output is delayed. *)
Definition delay_use_case (input_idx use_case_try_delay_till : Z) (use_case_key : UseCaseKey)
    (self : DelayedQueue) : result anyhow DelayedQueue :=
  match dq_use_cases self !! use_case_key with
  | Some use_case =>
      _ ← assert_that (negb (uc_is_empty use_case));
      by_delay ← strict_remove (uc_delay_key use_case) (dq_use_cases_by_delay self);
      let use_case := uc_update_try_delay_till use_case_try_delay_till use_case in
      by_delay ← strict_insert (uc_delay_key use_case) use_case_key by_delay;
      Ok (set_use_case use_case_key use_case
            (dq_with_use_cases (dq_use_cases self) by_delay
               (dq_use_case_placeholders_by_delay self) self))
  | None =>
      let use_case := UseCase_new_empty use_case_try_delay_till input_idx in
      placeholders ← strict_insert (uc_delay_key use_case) use_case_key
                       (dq_use_case_placeholders_by_delay self);
      Ok (set_use_case use_case_key use_case
            (dq_with_use_cases (dq_use_cases self) (dq_use_cases_by_delay self) placeholders self))
  end.

Definition update_delays_for_selected_txn (input_idx : Z) (address : AccountAddress)
    (use_case_key : UseCaseKey) (self : DelayedQueue) : result anyhow DelayedQueue :=
  account_try_delay_till ← delay_till (sender_spread_factor (dq_config self)) self;
  use_case_try_delay_till ← delay_till (use_case_spread_factor use_case_key (dq_config self)) self;
  self ← delay_use_case input_idx use_case_try_delay_till use_case_key self;
  let new_account := Account_new_empty account_try_delay_till input_idx in
  accounts ← strict_insert address new_account (dq_accounts self);
  placeholders ← strict_insert (ac_delay_key new_account) address
                   (dq_account_placeholders_by_delay self);
  Ok (dq_with_accounts accounts placeholders self).

Definition queue_or_return (input_idx : Z) (txn : SignedTransaction) (self : DelayedQueue) :
    result anyhow (DelayedQueue * option SignedTransaction) :=
  let address := parse_sender txn in
  let use_case_key := parse_use_case txn in
  let account_should_delay :=
    match dq_accounts self !! address with
    | Some account => negb (ac_is_empty account) || (ac_try_delay_till account >? dq_output_idx self)
    | None => false
    end in
  let use_case_should_delay :=
    match dq_use_cases self !! use_case_key with
    | Some use_case => uc_try_delay_till use_case >? dq_output_idx self
    | None => false
    end in
  if account_should_delay || use_case_should_delay then
    self ← dq_queue_txn input_idx address use_case_key txn self;
    Ok (self, None)
  else
    self ← update_delays_for_selected_txn input_idx address use_case_key self;
    Ok (self, Some txn).

(** ** The iterator *)

Record ShuffledTransactionIterator : Type := {
  it_input_queue : list SignedTransaction;
  it_delayed_queue : DelayedQueue;
  it_input_idx : Z;
  it_output_idx : Z;
}.
Definition ShuffledTransactionIterator_new (config : Config) : ShuffledTransactionIterator :=
  {| it_input_queue := []; it_delayed_queue := DelayedQueue_new config; it_input_idx := 0;
     it_output_idx := 0 |}.
Definition extended_with (txns : list SignedTransaction) (self : ShuffledTransactionIterator) :
    ShuffledTransactionIterator :=
  {| it_input_queue := it_input_queue self ++ txns; it_delayed_queue := it_delayed_queue self;
     it_input_idx := it_input_idx self; it_output_idx := it_output_idx self |}.

(** The search in the input queue. *)
Fixpoint seek (input_queue : list SignedTransaction) (delayed_queue : DelayedQueue) (input_idx : Z) :
    result anyhow (list SignedTransaction * DelayedQueue * Z * option SignedTransaction) :=
  match input_queue with
  | [] => Ok ([], delayed_queue, input_idx, None)
  | txn :: input_queue =>
      next_idx ← u64_add input_idx 1;
      '(delayed_queue, returned) ← queue_or_return input_idx txn delayed_queue;
      match returned with
      | Some txn => Ok (input_queue, delayed_queue, next_idx, Some txn)
      | None => seek input_queue delayed_queue next_idx
      end
  end.

Definition select_next_txn_inner (self : ShuffledTransactionIterator) :
    result anyhow (ShuffledTransactionIterator * option SignedTransaction) :=
  let with_queue input_queue delayed_queue input_idx :=
    {| it_input_queue := input_queue; it_delayed_queue := delayed_queue;
       it_input_idx := input_idx; it_output_idx := it_output_idx self |} in
  delayed_queue ← bump_output_idx (it_output_idx self) (it_delayed_queue self);
  '(delayed_queue, ready) ← pop_head true delayed_queue;
  match ready with
  | Some txn => Ok (with_queue (it_input_queue self) delayed_queue (it_input_idx self), Some txn)
  | None =>
      '(input_queue, delayed_queue, input_idx, found) ←
        seek (it_input_queue self) delayed_queue (it_input_idx self);
      match found with
      | Some txn => Ok (with_queue input_queue delayed_queue input_idx, Some txn)
      | None =>
          '(delayed_queue, txn) ← pop_head false delayed_queue;
          Ok (with_queue input_queue delayed_queue input_idx, txn)
      end
  end.

Definition select_next_txn (self : ShuffledTransactionIterator) :
    result anyhow (ShuffledTransactionIterator * option SignedTransaction) :=
  '(self, ret) ← select_next_txn_inner self;
  match ret with
  | Some _ =>
      output_idx ← u64_add (it_output_idx self) 1;
      Ok ({| it_input_queue := it_input_queue self; it_delayed_queue := it_delayed_queue self;
             it_input_idx := it_input_idx self; it_output_idx := output_idx |}, ret)
  | None => Ok (self, ret)
  end.

(** [collect]: [fuel] bounds the calls of [next]. *)
Fixpoint collect (fuel : nat) (self : ShuffledTransactionIterator) :
    result anyhow (list SignedTransaction) :=
  match fuel with
  | O => Panic
  | S fuel =>
      '(self, ret) ← select_next_txn self;
      match ret with
      | Some txn => rest ← collect fuel self; Ok (txn :: rest)
      | None => Ok []
      end
  end.

Definition UseCaseAwareShuffler_shuffle (config : Config) (txns : list SignedTransaction) :
    result anyhow (list SignedTransaction) :=
  collect (S (length txns)) (extended_with txns (ShuffledTransactionIterator_new config)).
End delayed_queue.
