(* ===== verification/DelayedQueueSafety.v ===== *)
(** The delayed queue: its nested priority queues agree with the registries, so
    that no assertion of its strict maps fails. *)
From S2P Require Import Prelude Laptos TxnOrder DelayedQueue.

(** ** Keys and maps *)

#[global] Instance delay_key_le_total : Total delay_key_le.
Proof. intros a b. unfold delay_key_le. lia. Qed.
#[global] Instance delay_key_le_trans : Transitive delay_key_le.
Proof. intros a b c. unfold delay_key_le. lia. Qed.

Lemma delay_key_le_antisym a b : delay_key_le a b → delay_key_le b a → a = b.
Proof. unfold delay_key_le. destruct a, b. simpl. intros. f_equal; lia. Qed.

Lemma first_key_value_None {V} (m : gmap DelayKey V) : first_key_value m = None ↔ m = ∅.
Proof.
  unfold first_key_value. split.
  - intros Hh. apply map_size_empty_inv. rewrite <- (length_btree_list delay_key_le).
    by destruct (btree_list delay_key_le m).
  - intros ->. pose proof (length_btree_list delay_key_le (∅ : gmap DelayKey V)) as Hl.
    rewrite map_size_empty in Hl. by destruct (btree_list delay_key_le ∅).
Qed.

Lemma first_key_value_Some {V} (m : gmap DelayKey V) k v :
  first_key_value m = Some (k, v) ↔
  m !! k = Some v ∧ ∀ k' v', m !! k' = Some v' → delay_key_le k k'.
Proof.
  unfold first_key_value. pose proof (btree_list_sorted delay_key_le m) as Hs.
  assert (∀ e, e ∈ btree_list delay_key_le m ↔ m !! e.1 = Some e.2) as Hin.
  { intros [k' v']. apply elem_of_btree_list. }
  destruct (btree_list delay_key_le m) as [|[k0 v0] l]; simpl.
  - split; [done|]. intros [Hk _]. by apply (Hin (k, v)), elem_of_nil in Hk.
  - apply StronglySorted_inv in Hs as [_ Hs]. rewrite Forall_forall in Hs.
    assert (m !! k0 = Some v0) as H0 by (apply (Hin (k0, v0)); by left).
    assert (∀ k' v', m !! k' = Some v' → delay_key_le k0 k') as Hmin.
    { intros k' v' [[= -> ->]|Hk]%(Hin (k', v'))%elem_of_cons; [unfold delay_key_le; lia|].
      apply (Hs _ Hk). }
    split; [by intros [= <- <-]|]. intros [Hk Hk'].
    assert (k = k0) as -> by (apply delay_key_le_antisym; eauto). congruence.
Qed.

Lemma strict_insert_new {K V} `{Countable K} k (v : V) (m : gmap K V) :
  m !! k = None → strict_insert k v m = Ok (<[k := v]> m).
Proof. intros Hk. unfold strict_insert. by rewrite Hk. Qed.
Lemma strict_remove_Ok {V} k (m m' : gmap DelayKey V) : strict_remove k m = Ok m' → m' = delete k m.
Proof. unfold strict_remove. destruct (m !! k); congruence. Qed.

(** A map holds exactly the pairs of a relation. *)
Definition indexes {V} (m : gmap DelayKey V) (R : V → DelayKey → Prop) : Prop :=
  ∀ k v, m !! k = Some v ↔ R v k.

Section indexes.
Context {V : Type} (m : gmap DelayKey V) (R R' : V → DelayKey → Prop).
Context (k0 : DelayKey) (v0 : V).
Hypothesis Hm : indexes m R.

Lemma indexes_ext : (∀ v k, R' v k ↔ R v k) → indexes m R'.
Proof using Hm. intros HR k v. rewrite HR. apply Hm. Qed.

Lemma indexes_insert :
  (∀ v, ¬ R v k0) → (∀ v k, R' v k ↔ R v k ∨ v = v0 ∧ k = k0) →
  strict_insert k0 v0 m = Ok (<[k0 := v0]> m) ∧ indexes (<[k0 := v0]> m) R'.
Proof using Hm.
  intros Hfree HR. assert (m !! k0 = None) as Hk0.
  { destruct (m !! k0) as [v|] eqn:E; [|done]. by apply Hm, Hfree in E. }
  unfold strict_insert. rewrite Hk0. split; [done|]. intros k v. rewrite HR, <- (Hm k v).
  rewrite lookup_insert_Some. destruct (decide (k = k0)) as [->|]; [rewrite Hk0|]; naive_solver.
Qed.

Lemma indexes_delete :
  (∀ k, R v0 k ↔ k = k0) → (∀ v k, R' v k ↔ R v k ∧ v ≠ v0) →
  strict_remove k0 m = Ok (delete k0 m) ∧ indexes (delete k0 m) R'.
Proof using Hm.
  intros Hv0 HR. assert (m !! k0 = Some v0) as Hk0 by (apply Hm; by apply Hv0).
  unfold strict_remove. rewrite Hk0. split; [done|]. intros k v. rewrite HR, <- (Hm k v).
  rewrite lookup_delete_Some. split.
  - intros [Hne Hk]. split; [done|]. intros ->. apply Hm, Hv0 in Hk. congruence.
  - intros [Hk Hne]. split; [|done]. intros <-. congruence.
Qed.
End indexes.

Section delayed_queue_safety.
Context `{L : Laptos}.
Context (parse_sender : SignedTransaction → AccountAddress).
Context (parse_use_case : SignedTransaction → UseCaseKey).
(** The transactions by their input index. *)
Context (input : list SignedTransaction).

Definition is_input (i : Z) (t : SignedTransaction) : Prop :=
  0 ≤ i ∧ input !! Z.to_nat i = Some t.

(** ** The invariant *)

(** An account: its transactions come from the input, in order, before index
    [n], and it is named by the index of its first one or the last it had. *)
Record account_ok (n : Z) (a : AccountAddress) (acc : Account) : Prop := {
  ao_idx : ∃ t, is_input (ac_input_idx acc) t ∧ parse_sender t = a;
  ao_txns i t : (i, t) ∈ ac_txns acc → is_input i t ∧ parse_sender t = a ∧ i < n;
  ao_sorted : StronglySorted (λ x y : Z * SignedTransaction, x.1 < y.1) (ac_txns acc);
  ao_head i t l : ac_txns acc = (i, t) :: l → ac_input_idx acc = i;
}.

(** The first transaction of an account is of this use case. *)
Definition account_in (u : UseCaseKey) (acc : Account) : Prop :=
  ∃ i t l, ac_txns acc = (i, t) :: l ∧ parse_use_case t = u.

(** What the priority queues hold while account [da] and use case [du] are taken
    out of them: the accounts of a use case, the use cases with and without
    accounts, and the accounts without transactions. *)
Definition member (accounts : gmap AccountAddress Account) (da : option AccountAddress)
    (u : UseCaseKey) (a : AccountAddress) (k : DelayKey) : Prop :=
  Some a ≠ da ∧ ∃ acc, accounts !! a = Some acc ∧ account_in u acc ∧ k = ac_delay_key acc.
Definition listed (use_cases : gmap UseCaseKey UseCase) (du : option UseCaseKey)
    (empty : bool) (u : UseCaseKey) (k : DelayKey) : Prop :=
  Some u ≠ du ∧ ∃ uc, use_cases !! u = Some uc ∧ uc_is_empty uc = empty ∧ k = uc_delay_key uc.
Definition resting (accounts : gmap AccountAddress Account) (da : option AccountAddress)
    (a : AccountAddress) (k : DelayKey) : Prop :=
  Some a ≠ da ∧ ∃ acc, accounts !! a = Some acc ∧ ac_txns acc = [] ∧ k = ac_delay_key acc.

Record use_case_ok (accounts : gmap AccountAddress Account) (da : option AccountAddress)
    (u : UseCaseKey) (uc : UseCase) : Prop := {
  uo_idx : ∃ t, is_input (uc_input_idx uc) t ∧ parse_use_case t = u;
  uo_till : 0 ≤ uc_try_delay_till uc;
  uo_members : indexes (uc_account_by_delay uc) (member accounts da u);
  uo_head k a : first_key_value (uc_account_by_delay uc) = Some (k, a) →
    uc_input_idx uc = dk_input_idx k;
}.

Record queue_inv (n : Z) (da : option AccountAddress) (du : option UseCaseKey)
    (q : DelayedQueue) : Prop := {
  qi_account a acc : dq_accounts q !! a = Some acc → account_ok n a acc;
  qi_use_case u uc : dq_use_cases q !! u = Some uc → use_case_ok (dq_accounts q) da u uc;
  qi_tracked u a k : member (dq_accounts q) da u a k → is_Some (dq_use_cases q !! u);
  qi_by_delay : indexes (dq_use_cases_by_delay q) (listed (dq_use_cases q) du false);
  qi_placeholders : indexes (dq_use_case_placeholders_by_delay q) (listed (dq_use_cases q) du true);
  qi_resting : indexes (dq_account_placeholders_by_delay q) (resting (dq_accounts q) da);
  qi_fresh_use_case u uc : Some u ≠ du → dq_use_cases q !! u = Some uc → uc_is_empty uc = true →
    dq_output_idx q < uc_try_delay_till uc;
  qi_fresh_account a acc : Some a ≠ da → dq_accounts q !! a = Some acc → ac_txns acc = [] →
    dq_output_idx q < ac_try_delay_till acc;
}.

(** A key names one account, and one use case. *)
Lemma account_key_unique n a acc a' acc' :
  account_ok n a acc → account_ok n a' acc' → ac_delay_key acc = ac_delay_key acc' → a = a'.
Proof using Type.
  intros [(t & [_ Ht] & <-) _ _ _] [(t' & [_ Ht'] & <-) _ _ _] [= _ Hidx]. congruence.
Qed.
Lemma use_case_key_unique accounts da u uc u' uc' :
  use_case_ok accounts da u uc → use_case_ok accounts da u' uc' →
  uc_delay_key uc = uc_delay_key uc' → u = u'.
Proof using Type.
  intros [(t & [_ Ht] & <-) _ _ _] [(t' & [_ Ht'] & <-) _ _ _] [= _ Hidx]. congruence.
Qed.

(** Taking something out, changing it there, and putting it back. *)
Lemma listed_detach ucs b u u' k :
  listed ucs (Some u) b u' k ↔ listed ucs None b u' k ∧ u' ≠ u.
Proof using Type. unfold listed. naive_solver. Qed.
Lemma listed_attach ucs b u uc u' k :
  ucs !! u = Some uc →
  listed ucs None b u' k ↔
    listed ucs (Some u) b u' k ∨ u' = u ∧ uc_is_empty uc = b ∧ k = uc_delay_key uc.
Proof using Type. intros Hu. unfold listed. destruct (decide (u' = u)) as [->|]; naive_solver. Qed.
Lemma listed_set ucs b u uc u' k :
  listed (<[u := uc]> ucs) (Some u) b u' k ↔ listed ucs (Some u) b u' k.
Proof using Type.
  unfold listed. destruct (decide (u' = u)) as [->|]; [naive_solver|]. by rewrite lookup_insert_ne.
Qed.
Lemma member_detach accs u a a' k :
  member accs (Some a) u a' k ↔ member accs None u a' k ∧ a' ≠ a.
Proof using Type. unfold member. naive_solver. Qed.
Lemma member_attach accs u a acc a' k :
  accs !! a = Some acc →
  member accs None u a' k ↔
    member accs (Some a) u a' k ∨ a' = a ∧ account_in u acc ∧ k = ac_delay_key acc.
Proof using Type. intros Ha. unfold member. destruct (decide (a' = a)) as [->|]; naive_solver. Qed.
Lemma member_set accs u a acc a' k :
  member (<[a := acc]> accs) (Some a) u a' k ↔ member accs (Some a) u a' k.
Proof using Type.
  unfold member. destruct (decide (a' = a)) as [->|]; [naive_solver|]. by rewrite lookup_insert_ne.
Qed.
Lemma resting_detach accs a a' k : resting accs (Some a) a' k ↔ resting accs None a' k ∧ a' ≠ a.
Proof using Type. unfold resting. naive_solver. Qed.
Lemma resting_attach accs a acc a' k :
  accs !! a = Some acc →
  resting accs None a' k ↔
    resting accs (Some a) a' k ∨ a' = a ∧ ac_txns acc = [] ∧ k = ac_delay_key acc.
Proof using Type. intros Ha. unfold resting. destruct (decide (a' = a)) as [->|]; naive_solver. Qed.
Lemma resting_set accs a acc a' k :
  resting (<[a := acc]> accs) (Some a) a' k ↔ resting accs (Some a) a' k.
Proof using Type.
  unfold resting. destruct (decide (a' = a)) as [->|]; [naive_solver|]. by rewrite lookup_insert_ne.
Qed.

(** ** Use cases in and out of their queues *)

Lemma uc_is_empty_spec uc : uc_is_empty uc = true ↔ uc_account_by_delay uc = ∅.
Proof using Type. unfold uc_is_empty. by rewrite bool_decide_eq_true. Qed.

Lemma listed_free n da q u uc b u' :
  queue_inv n da (Some u) q → dq_use_cases q !! u = Some uc →
  ¬ listed (dq_use_cases q) (Some u) b u' (uc_delay_key uc).
Proof using Type.
  intros Hq Hu (Hne & uc' & Hu' & _ & Hk). apply Hne. f_equal.
  eapply (use_case_key_unique (dq_accounts q) da u' uc' u uc); [by eapply qi_use_case..|done].
Qed.

Lemma queue_use_case_ok n da q u uc :
  queue_inv n da (Some u) q → dq_use_cases q !! u = Some uc →
  (uc_is_empty uc = true → dq_output_idx q < uc_try_delay_till uc) →
  ∃ by_delay placeholders, queue_use_case u uc q =
      Ok (dq_with_use_cases (dq_use_cases q) by_delay placeholders q) ∧
    queue_inv n da None (dq_with_use_cases (dq_use_cases q) by_delay placeholders q).
Proof using Type.
  intros Hq Hu Hfresh. pose proof Hq as []. unfold queue_use_case.
  assert (∀ u' uc', Some u' ≠ None → dq_use_cases q !! u' = Some uc' → uc_is_empty uc' = true →
    dq_output_idx q < uc_try_delay_till uc') as Hf'.
  { intros u' uc' _ Hu' He. destruct (decide (u' = u)) as [->|]; [naive_solver|].
    apply (qi_fresh_use_case0 u'); [congruence|done..]. }
  destruct (uc_is_empty uc) eqn:Hempty.
  - destruct (indexes_insert _ _ (listed (dq_use_cases q) None true) (uc_delay_key uc) u qi_placeholders0)
      as [-> Hm]; [intros; by eapply listed_free| |].
    { intros u' k. rewrite listed_attach by done. rewrite Hempty. naive_solver. }
    do 2 eexists. split; [done|]. split; try done; simpl.
    eapply indexes_ext; [done|]. intros. rewrite listed_attach by done. rewrite Hempty. naive_solver.
  - destruct (indexes_insert _ _ (listed (dq_use_cases q) None false) (uc_delay_key uc) u qi_by_delay0)
      as [-> Hm]; [intros; by eapply listed_free| |].
    { intros u' k. rewrite listed_attach by done. rewrite Hempty. naive_solver. }
    do 2 eexists. split; [done|]. split; try done; simpl.
    eapply indexes_ext; [done|]. intros. rewrite listed_attach by done. rewrite Hempty. naive_solver.
Qed.

Lemma unqueue_use_case_ok n da q u uc :
  queue_inv n da None q → dq_use_cases q !! u = Some uc →
  ∃ by_delay placeholders, unqueue_use_case uc q =
      Ok (dq_with_use_cases (dq_use_cases q) by_delay placeholders q) ∧
    queue_inv n da (Some u) (dq_with_use_cases (dq_use_cases q) by_delay placeholders q).
Proof using Type.
  intros Hq Hu. destruct Hq. unfold unqueue_use_case.
  assert (∀ b k, uc_is_empty uc = b → listed (dq_use_cases q) None b u k ↔ k = uc_delay_key uc) as Hl.
  { intros b k Hb. unfold listed. naive_solver. }
  assert (∀ b u' k, uc_is_empty uc ≠ b →
    listed (dq_use_cases q) (Some u) b u' k ↔ listed (dq_use_cases q) None b u' k) as Hl'.
  { intros b u' k Hb. rewrite listed_detach. unfold listed. naive_solver. }
  destruct (uc_is_empty uc) eqn:Hempty.
  - destruct (indexes_delete _ _ (listed (dq_use_cases q) (Some u) true) (uc_delay_key uc) u
      qi_placeholders0) as [-> Hm]; [intros; by apply Hl|intros; apply listed_detach|].
    do 2 eexists. split; [done|]. split; try done; simpl; [|intros; by eapply qi_fresh_use_case0].
    eapply indexes_ext; [done|]. intros. by apply Hl'.
  - destruct (indexes_delete _ _ (listed (dq_use_cases q) (Some u) false) (uc_delay_key uc) u
      qi_by_delay0) as [-> Hm]; [intros; by apply Hl|intros; apply listed_detach|].
    do 2 eexists. split; [done|]. split; try done; simpl; [|intros; by eapply qi_fresh_use_case0].
    eapply indexes_ext; [done|]. intros. by apply Hl'.
Qed.

(** A use case with accounts leaves the main queue. *)
Lemma unlist_use_case n da q u uc :
  queue_inv n da None q → dq_use_cases q !! u = Some uc → uc_is_empty uc = false →
  strict_remove (uc_delay_key uc) (dq_use_cases_by_delay q) =
    Ok (delete (uc_delay_key uc) (dq_use_cases_by_delay q)) ∧
  queue_inv n da (Some u) (dq_with_use_cases (dq_use_cases q)
    (delete (uc_delay_key uc) (dq_use_cases_by_delay q)) (dq_use_case_placeholders_by_delay q) q).
Proof using Type.
  intros Hq Hu Hne. destruct (unqueue_use_case_ok n da q u uc Hq Hu) as (bd & ph & Hun & Hq1).
  unfold unqueue_use_case in Hun. rewrite Hne in Hun. apply Ok_bind in Hun as (bd' & Hbd & Hun).
  pose proof (strict_remove_Ok _ _ _ Hbd) as ->. by injection Hun as <- <-.
Qed.

Lemma set_use_case_ok n da q u uc :
  queue_inv n da (Some u) q → use_case_ok (dq_accounts q) da u uc →
  queue_inv n da (Some u) (set_use_case u uc q).
Proof using Type.
  intros [] Huc. split; simpl; try done.
  - intros u' uc' [[<- <-]|[Hne Hu']]%lookup_insert_Some; [done|by apply qi_use_case0].
  - intros u' a k Hm. rewrite lookup_insert_is_Some'. right. by eapply qi_tracked0.
  - eapply indexes_ext; [done|]. intros. apply listed_set.
  - eapply indexes_ext; [done|]. intros. apply listed_set.
  - intros u' uc' Hne [[<- <-]|[_ Hu']]%lookup_insert_Some; [done|by eapply qi_fresh_use_case0].
Qed.

Lemma untracked_use_case n da q u :
  queue_inv n da None q → dq_use_cases q !! u = None → queue_inv n da (Some u) q.
Proof using Type.
  intros [] Hu. split; try done; [| |intros; by eapply qi_fresh_use_case0];
    (eapply indexes_ext; [done|]); intros u' k; rewrite listed_detach; unfold listed; naive_solver.
Qed.

(** ** Accounts in and out of their queues *)

Lemma use_case_ok_ext accs accs' da da' u uc :
  (∀ a k, member accs' da' u a k ↔ member accs da u a k) →
  use_case_ok accs da u uc → use_case_ok accs' da' u uc.
Proof using Type. intros Hext []. split; try done. by eapply indexes_ext. Qed.

Lemma set_account_ok n du q a acc :
  queue_inv n (Some a) du q → account_ok n a acc → queue_inv n (Some a) du (set_account a acc q).
Proof using Type.
  intros [] Hacc. split; simpl; try done.
  - intros a' acc' [[<- <-]|[Hne Ha']]%lookup_insert_Some; [done|by apply qi_account0].
  - intros u uc Hu. eapply use_case_ok_ext; [|by apply qi_use_case0]. intros. apply member_set.
  - intros u a' k Hm. rewrite member_set in Hm. by eapply qi_tracked0.
  - eapply indexes_ext; [done|]. intros. apply resting_set.
  - intros a' acc' Hne [[<- <-]|[_ Ha']]%lookup_insert_Some; [done|by eapply qi_fresh_account0].
Qed.

Lemma untracked_account n du q a :
  queue_inv n None du q → dq_accounts q !! a = None → queue_inv n (Some a) du q.
Proof using Type.
  intros [] Ha.
  assert (∀ u a' k, member (dq_accounts q) (Some a) u a' k ↔ member (dq_accounts q) None u a' k) as Hm.
  { intros. rewrite member_detach. unfold member. naive_solver. }
  split; try done.
  - intros u uc Hu. eapply use_case_ok_ext; [|by apply qi_use_case0]. intros. apply Hm.
  - intros u a' k Hk. rewrite Hm in Hk. by eapply qi_tracked0.
  - eapply indexes_ext; [done|]. intros a' k. rewrite resting_detach. unfold resting. naive_solver.
  - intros. by eapply qi_fresh_account0.
Qed.

Lemma not_in_use_case u acc (P Q R : Prop) :
  ac_txns acc = [] → (P ∨ Q ∧ account_in u acc ∧ R) ↔ P.
Proof using Type. intros Hempty. split; [|by left]. intros [|(_ & (i & t & l & Hl & _) & _)]; congruence. Qed.

(** An account without transactions goes to the placeholders, and leaves them. *)
Lemma rest_account n du q a acc :
  queue_inv n (Some a) du q → dq_accounts q !! a = Some acc → ac_txns acc = [] →
  dq_output_idx q < ac_try_delay_till acc →
  ∃ placeholders,
    strict_insert (ac_delay_key acc) a (dq_account_placeholders_by_delay q) = Ok placeholders ∧
    queue_inv n None du (dq_with_accounts (dq_accounts q) placeholders q).
Proof using Type.
  intros [] Ha Hempty Hfresh.
  assert (∀ u a' k, member (dq_accounts q) None u a' k ↔ member (dq_accounts q) (Some a) u a' k) as Hm.
  { intros. rewrite (member_attach _ _ a acc) by done. by rewrite not_in_use_case. }
  destruct (indexes_insert _ _ (resting (dq_accounts q) None) (ac_delay_key acc) a qi_resting0)
    as [-> Hr].
  { intros a' (Hne & acc' & Ha' & _ & Hk). apply Hne. f_equal. by eapply account_key_unique; eauto. }
  { intros a' k. rewrite resting_attach by done. naive_solver. }
  eexists. split; [done|]. split; try done; simpl.
  - intros u uc Hu. eapply use_case_ok_ext; [|by apply qi_use_case0]. intros. apply Hm.
  - intros u a' k Hk. rewrite Hm in Hk. by eapply qi_tracked0.
  - intros a' acc' _ Ha' He. destruct (decide (a' = a)) as [->|]; [naive_solver|].
    apply (qi_fresh_account0 a'); [congruence|done..].
Qed.

Lemma wake_account n du q a acc :
  queue_inv n None du q → dq_accounts q !! a = Some acc → ac_txns acc = [] →
  queue_inv n (Some a) du (dq_with_accounts (dq_accounts q)
    (delete (ac_delay_key acc) (dq_account_placeholders_by_delay q)) q).
Proof using Type.
  intros [] Ha Hempty.
  assert (∀ u a' k, member (dq_accounts q) (Some a) u a' k ↔ member (dq_accounts q) None u a' k) as Hm.
  { intros. rewrite (member_attach _ _ a acc) by done. by rewrite not_in_use_case. }
  split; try done; simpl.
  - intros u uc Hu. eapply use_case_ok_ext; [|by apply qi_use_case0]. intros. apply Hm.
  - intros u a' k Hk. rewrite Hm in Hk. by eapply qi_tracked0.
  - eapply indexes_delete; [done| |intros; apply resting_detach]. intros k. unfold resting. naive_solver.
  - intros. by eapply qi_fresh_account0.
Qed.

(** ** Accounts in and out of use cases *)

Lemma account_in_idx n a acc u :
  account_ok n a acc → account_in u acc → ∃ t, is_input (ac_input_idx acc) t ∧ parse_use_case t = u.
Proof using Type.
  intros [] (i & t & l & Hl & Hu). exists t. split; [|done]. rewrite (ao_head0 _ _ _ Hl).
  apply ao_txns0. rewrite Hl. left.
Qed.

Lemma not_empty_after_insert k (a : AccountAddress) m till idx :
  uc_is_empty {| uc_try_delay_till := till; uc_input_idx := idx;
                 uc_account_by_delay := <[k := a]> m |} = false.
Proof using Type. apply bool_decide_eq_false, insert_non_empty. Qed.

Lemma add_account_ok n du q a acc u uc :
  queue_inv n (Some a) du q → dq_accounts q !! a = Some acc → account_in u acc →
  use_case_ok (dq_accounts q) (Some a) u uc →
  ∃ uc', add_account a acc uc = Ok uc' ∧ use_case_ok (dq_accounts q) None u uc' ∧
    uc_is_empty uc' = false.
Proof using Type.
  intros Hq Ha Hin []. pose proof (qi_account _ _ _ _ Hq a acc Ha) as Hacc. unfold add_account.
  destruct (indexes_insert _ _ (member (dq_accounts q) None u) (ac_delay_key acc) a uo_members0)
    as [-> Hm].
  { intros a' (Hne & acc' & Ha' & _ & Hk). apply Hne. f_equal.
    eapply account_key_unique; [by eapply qi_account|done..]. }
  { intros a' k. rewrite member_attach by done. naive_solver. }
  cbn [mbind result_bind].
  destruct (first_key_value (<[ac_delay_key acc := a]> _)) as [[k h]|] eqn:Hfirst.
  2:{ apply first_key_value_None in Hfirst. by apply insert_non_empty in Hfirst. }
  eexists. split; [done|]. split; [|apply not_empty_after_insert].
  pose proof Hfirst as [Hk Hmin]%first_key_value_Some.
  split; simpl; [| |done|].
  - case_decide; [|done]. by eapply account_in_idx.
  - done.
  - intros k' a'. rewrite Hfirst. intros [= <- <-]. case_decide as Hd.
    { subst h. apply Hm in Hk as (_ & acc' & Ha' & _ & ->). by simplify_eq. }
    apply uo_head0 with h. apply first_key_value_Some. rewrite lookup_insert_Some in Hk.
    split; [naive_solver|]. intros k' a' Hk'. apply (Hmin k' a').
    assert (ac_delay_key acc ≠ k') as Hne.
    { intros <-. apply uo_members0 in Hk' as (Hne & acc' & Ha' & _ & Heq). apply Hne. f_equal.
      eapply account_key_unique; [by eapply qi_account|done..]. }
    by rewrite lookup_insert_ne.
Qed.

(** A use case that is not tracked has no account. *)
Lemma UseCase_new_with_account_ok n du q a acc u till :
  queue_inv n (Some a) du q → dq_accounts q !! a = Some acc → account_in u acc → 0 ≤ till →
  dq_use_cases q !! u = None →
  ∃ uc', UseCase_new_with_account till a acc = Ok uc' ∧ use_case_ok (dq_accounts q) None u uc' ∧
    uc_is_empty uc' = false.
Proof using Type.
  intros Hq Ha Hin Htill Hu. pose proof (qi_account _ _ _ _ Hq a acc Ha) as Hacc.
  assert (∀ a' k, ¬ member (dq_accounts q) (Some a) u a' k) as Hnone.
  { intros a' k Hm%(qi_tracked _ _ _ _ Hq). rewrite Hu in Hm. by apply is_Some_None in Hm. }
  assert (indexes ∅ (member (dq_accounts q) (Some a) u)) as H0.
  { intros k a'. rewrite lookup_empty. naive_solver. }
  unfold UseCase_new_with_account.
  destruct (indexes_insert _ _ (member (dq_accounts q) None u) (ac_delay_key acc) a H0) as [-> Hm];
    [naive_solver| |].
  { intros a' k. rewrite member_attach by done. naive_solver. }
  eexists. split; [done|]. split; [|apply not_empty_after_insert].
  split; simpl; [by eapply account_in_idx|done..|].
  intros k a' [Hk _]%first_key_value_Some. apply lookup_insert_Some in Hk as [[<- _]|[_ Hk]]; [done|].
  by rewrite lookup_empty in Hk.
Qed.

(** An account leaves its use case, or comes back. *)
Lemma move_account n da da' q u uc :
  queue_inv n da (Some u) q → use_case_ok (dq_accounts q) da' u uc →
  (∀ a k, resting (dq_accounts q) da' a k ↔ resting (dq_accounts q) da a k) →
  (∀ u' a k, u' ≠ u → member (dq_accounts q) da' u' a k ↔ member (dq_accounts q) da u' a k) →
  (∀ a acc, Some a ≠ da' → dq_accounts q !! a = Some acc → ac_txns acc = [] → Some a ≠ da) →
  queue_inv n da' (Some u) (set_use_case u uc q).
Proof using Type.
  intros [] Huc Hr Hm Hf. split; simpl; try done.
  - intros u' uc' [[<- <-]|[Hne Hu']]%lookup_insert_Some; [done|].
    eapply use_case_ok_ext; [|by apply qi_use_case0]. intros. by apply Hm.
  - intros u' a' k Hk. rewrite lookup_insert_is_Some'. destruct (decide (u = u')); [by left|right].
    rewrite Hm in Hk by done. by eapply qi_tracked0.
  - eapply indexes_ext; [done|]. intros. apply listed_set.
  - eapply indexes_ext; [done|]. intros. apply listed_set.
  - by eapply indexes_ext.
  - intros u' uc' Hne [[<- <-]|[_ Hu']]%lookup_insert_Some; [done|by eapply qi_fresh_use_case0].
  - intros a acc Hne Ha Hempty. eapply qi_fresh_account0; [by eapply Hf|done..].
Qed.

Lemma queued_elsewhere accs a acc u :
  accs !! a = Some acc → account_in u acc →
  (∀ a' k, resting accs None a' k ↔ resting accs (Some a) a' k) ∧
  (∀ u' a' k, u' ≠ u → member accs None u' a' k ↔ member accs (Some a) u' a' k).
Proof using Type.
  clear input parse_sender. intros Ha (i & t & l & Hl & Hu). split.
  - intros a' k. rewrite (resting_attach _ a acc) by done. rewrite Hl. naive_solver.
  - intros u' a' k Hne. rewrite (member_attach _ _ a acc) by done.
    split; [|by left]. intros [|(-> & (i' & t' & l' & Hl' & Hu') & _)]; congruence.
Qed.

Lemma attach_account n q a acc u uc :
  queue_inv n (Some a) (Some u) q → dq_accounts q !! a = Some acc → account_in u acc →
  use_case_ok (dq_accounts q) None u uc → queue_inv n None (Some u) (set_use_case u uc q).
Proof using Type.
  intros Hq Ha Hin Huc. destruct (queued_elsewhere _ a acc u Ha Hin) as [Hr Hm].
  eapply move_account; [done..|]. intros a' acc' _ Ha' Hempty [= ->].
  destruct Hin as (i & t & l & Hl & _). congruence.
Qed.
Lemma detach_account n q a acc u uc :
  queue_inv n None (Some u) q → dq_accounts q !! a = Some acc → account_in u acc →
  use_case_ok (dq_accounts q) (Some a) u uc → queue_inv n (Some a) (Some u) (set_use_case u uc q).
Proof using Type.
  intros Hq Ha Hin Huc. destruct (queued_elsewhere _ a acc u Ha Hin) as [Hr Hm].
  eapply move_account; [done|done| | |done]; intros; symmetry; [apply Hr|by apply Hm].
Qed.

(** The queues hold the same transactions. *)
Definition same_txns (q q' : DelayedQueue) : Prop :=
  dq_accounts q' = dq_accounts q ∧ dq_output_idx q' = dq_output_idx q ∧ dq_config q' = dq_config q.

(** A use case with accounts goes to the main queue. *)
Lemma list_use_case n da q u uc :
  queue_inv n da (Some u) (set_use_case u uc q) → uc_is_empty uc = false →
  ∃ by_delay, strict_insert (uc_delay_key uc) u (dq_use_cases_by_delay q) = Ok by_delay ∧
    queue_inv n da None (set_use_case u uc
      (dq_with_use_cases (dq_use_cases q) by_delay (dq_use_case_placeholders_by_delay q) q)).
Proof using Type.
  intros Hq Hempty.
  destruct (queue_use_case_ok n da (set_use_case u uc q) u uc Hq) as (bd & ph & Heq & Hinv).
  { apply lookup_insert_eq. } { by rewrite Hempty. }
  unfold queue_use_case in Heq. rewrite Hempty in Heq.
  apply Ok_bind in Heq as (bd' & Hbd & Heq). injection Heq as <- <-.
  exists bd'. split; [done|]. exact Hinv.
Qed.

Lemma join_use_case_ok n q a acc u till :
  queue_inv n (Some a) None q → dq_accounts q !! a = Some acc → account_in u acc → 0 ≤ till →
  ∃ q', join_use_case u till a acc q = Ok q' ∧ queue_inv n None None q' ∧ same_txns q q'.
Proof using Type.
  intros Hq Ha Hin Htill. unfold join_use_case. destruct (dq_use_cases q !! u) as [uc|] eqn:Hu.
  - destruct (unqueue_use_case_ok n (Some a) q u uc Hq Hu) as (bd & ph & -> & Hq1).
    cbn [mbind result_bind].
    destruct (add_account_ok _ _ _ a acc u uc Hq1 Ha Hin) as (uc' & -> & Huc' & Hne).
    { by eapply qi_use_case. }
    cbn [mbind result_bind]. eapply attach_account in Hq1; [|done..].
    destruct (list_use_case _ _ _ _ _ Hq1 Hne) as (bd' & -> & Hinv). by eexists.
  - destruct (UseCase_new_with_account_ok n None q a acc u till Hq Ha Hin Htill Hu)
      as (uc' & -> & Huc' & Hne).
    cbn [mbind result_bind]. apply untracked_use_case with (u := u) in Hq; [|done].
    eapply attach_account in Hq; [|done..].
    destruct (list_use_case _ _ _ _ _ Hq Hne) as (bd' & -> & Hinv). by eexists.
Qed.

(** ** Taking the head *)

Lemma take_put_back_ok n q u uc a acc :
  queue_inv n (Some a) (Some u) q → dq_accounts q !! a = Some acc → dq_use_cases q !! u = Some uc →
  dq_output_idx q < ac_try_delay_till acc → dq_output_idx q < uc_try_delay_till uc →
  0 ≤ dq_output_idx q → dq_output_idx q + 1 ≤ u64_MAX →
  ∃ q', put_back parse_use_case u uc a acc q = Ok q' ∧ queue_inv n None None q' ∧ same_txns q q'.
Proof using Type.
  intros Hq Ha Hu Hta Htu Hpos Hnext. unfold put_back, ac_is_empty. case_bool_decide as Hempty.
  - destruct (rest_account _ _ _ _ _ Hq Ha Hempty Hta) as (ph & -> & Hq1). cbn [mbind result_bind].
    destruct (queue_use_case_ok _ _ _ u uc Hq1 Hu) as (bd & ph' & -> & Hq2); [done|]. by eexists.
  - unfold expect_use_case_key. destruct (ac_txns acc) as [|[i t] l] eqn:Hl; [done|].
    assert (account_in (parse_use_case t) acc) as Hin by by do 3 eexists.
    cbn [mbind result_bind]. case_decide as Hsame.
    + destruct (add_account_ok _ _ _ a acc u uc Hq Ha) as (uc' & -> & Huc' & Hne).
      { by rewrite <- Hsame. } { by eapply qi_use_case. }
      cbn [mbind result_bind]. eapply attach_account in Hq; [|done|by rewrite <- Hsame|done].
      destruct (list_use_case _ _ _ _ _ Hq Hne) as (bd' & -> & Hinv). by eexists.
    + destruct (queue_use_case_ok _ _ _ u uc Hq Hu) as (bd & ph & -> & Hq1); [done|].
      cbn [mbind result_bind]. simpl dq_output_idx. rewrite (u64_add_le (dq_output_idx q)) by done.
      cbn [mbind result_bind].
      destruct (join_use_case_ok _ _ a acc (parse_use_case t) (dq_output_idx q + 1) Hq1 Ha Hin)
        as (q' & -> & Hq' & Hs); [lia|by eexists].
Qed.

(** The head account of a use case is its first member. *)
Lemma expect_pop_head_account_ok n du q u uc :
  queue_inv n None du q → dq_use_cases q !! u = Some uc → uc_is_empty uc = false →
  ∃ uc' ak a acc, expect_pop_head_account uc = Ok (uc', ak, a) ∧
    dq_accounts q !! a = Some acc ∧ account_in u acc ∧
    dk_try_delay_till ak ≤ dk_try_delay_till (uc_delay_key uc) ∧
    dk_input_idx ak = dk_input_idx (uc_delay_key uc) ∧
    ∀ till, 0 ≤ till → use_case_ok (dq_accounts q) (Some a) u (uc_update_try_delay_till till uc').
Proof using Type.
  intros Hq Hu Hne. pose proof (qi_use_case _ _ _ _ Hq u uc Hu) as [].
  unfold expect_pop_head_account, uc_delay_key. simpl.
  destruct (first_key_value (uc_account_by_delay uc)) as [[ak a]|] eqn:Hfirst.
  2:{ apply first_key_value_None, uc_is_empty_spec in Hfirst. congruence. }
  pose proof (uo_head0 _ _ eq_refl) as Hidx.
  pose proof Hfirst as [(_ & acc & Ha & Hin & Hak)%uo_members0 Hmin]%first_key_value_Some.
  do 3 eexists. exists acc. split; [done|]. split_and!; try done; [lia|].
  intros till Htill.
  destruct (indexes_delete _ _ (member (dq_accounts q) (Some a) u) ak a uo_members0) as [_ Hm].
  { intros k. unfold member. naive_solver. } { intros. apply member_detach. }
  split; simpl; [|done|done|].
  - destruct (first_key_value (delete ak _)) as [[k' a']|] eqn:Hnext; [|done].
    apply first_key_value_Some in Hnext as [(_ & acc' & Ha' & Hin' & ->)%Hm _].
    eapply account_in_idx; [by eapply qi_account|done].
  - intros k' a' ->. done.
Qed.

Lemma expect_dequeue_txn_ok n a acc u till :
  account_ok n a acc → account_in u acc →
  ∃ i t l acc', ac_txns acc = (i, t) :: l ∧ expect_dequeue_txn acc = Ok (acc', t) ∧
    ac_txns acc' = l ∧ account_ok n a (ac_update_try_delay_till till acc').
Proof using Type.
  intros [] (i & t & l & Hl & _). unfold expect_dequeue_txn. rewrite Hl in *.
  do 4 eexists. split_and!; [done..|].
  apply StronglySorted_inv in ao_sorted0 as [Hs _].
  split; simpl; [|intros; apply ao_txns0; by right|done|].
  - destruct l as [|[i' t'] l']; [done|]. exists t'. apply and_comm.
    destruct (ao_txns0 i' t') as (? & ? & _); [right; left|done].
  - intros i' t' l' ->. done.
Qed.

(** The transactions of an account that wait in the queue. *)
Definition queued (q : DelayedQueue) (a : AccountAddress) : list SignedTransaction :=
  match dq_accounts q !! a with Some acc => (ac_txns acc).*2 | None => [] end.
Definition sent_by (a : AccountAddress) (l : list SignedTransaction) : list SignedTransaction :=
  filter (λ t, parse_sender t = a) l.

Lemma sent_by_one a t : sent_by a [t] = if decide (parse_sender t = a) then [t] else [].
Proof using Type. unfold sent_by. rewrite filter_cons, filter_nil. done. Qed.

Lemma queued_same q q' a : same_txns q q' → queued q' a = queued q a.
Proof using Type. intros (Ha & _). unfold queued. by rewrite Ha. Qed.

Lemma queued_set_account q a acc a' :
  queued (set_account a acc q) a' = if decide (a = a') then (ac_txns acc).*2 else queued q a'.
Proof using Type.
  unfold queued. simpl. case_decide; [subst; by rewrite lookup_insert_eq|by rewrite lookup_insert_ne].
Qed.

(** No index runs over: [m] is the output index. *)
Definition config_fits (m : Z) (c : Config) : Prop :=
  0 ≤ m ∧ ∀ factor,
    factor ∈ [sender_spread_factor c; platform_use_case_spread_factor c;
              user_use_case_spread_factor c] → 0 ≤ factor ∧ m + 1 + factor ≤ u64_MAX.

Lemma delay_till_ok q factor :
  0 ≤ factor → dq_output_idx q + 1 + factor ≤ u64_MAX →
  delay_till factor q = Ok (dq_output_idx q + 1 + factor).
Proof using Type.
  intros H0 Hmax. unfold delay_till. rewrite (u64_add_le (dq_output_idx q)) by lia.
  cbn [mbind result_bind]. by rewrite u64_add_le.
Qed.
Lemma sender_factor_ok m c : config_fits m c →
  0 ≤ sender_spread_factor c ∧ m + 1 + sender_spread_factor c ≤ u64_MAX.
Proof using Type. intros [_ Hc]. apply Hc. left. Qed.
Lemma use_case_factor_ok m c u : config_fits m c →
  0 ≤ use_case_spread_factor u c ∧ m + 1 + use_case_spread_factor u c ≤ u64_MAX.
Proof using Type. intros [_ Hc]. apply Hc. destruct u; set_solver. Qed.

(** Nothing waits when no use case has an account. *)
Lemma nothing_queued n q :
  queue_inv n None None q → dq_use_cases_by_delay q = ∅ → ∀ a, queued q a = [].
Proof using Type.
  intros [] Hby a. unfold queued. destruct (dq_accounts q !! a) as [acc|] eqn:Ha; [|done].
  destruct (ac_txns acc) as [|[i t] l] eqn:Hl; [done|exfalso].
  assert (member (dq_accounts q) None (parse_use_case t) a (ac_delay_key acc)) as Hm.
  { split; [done|]. exists acc. split_and!; [done| |done]. by do 3 eexists. }
  destruct (qi_tracked0 _ _ _ Hm) as [uc Hu]. apply (qi_use_case0 _ _ Hu) in Hm.
  assert (listed (dq_use_cases q) None false (parse_use_case t) (uc_delay_key uc)) as Hl'.
  { split; [done|]. exists uc. split_and!; [done| |done]. apply bool_decide_eq_false.
    intros He. by rewrite He, lookup_empty in Hm. }
  apply qi_by_delay0 in Hl'. by rewrite Hby, lookup_empty in Hl'.
Qed.

Lemma pop_head_ok n b q :
  queue_inv n None None q → config_fits (dq_output_idx q) (dq_config q) →
  ∃ q' ret, pop_head parse_use_case b q = Ok (q', ret) ∧ queue_inv n None None q' ∧
    dq_output_idx q' = dq_output_idx q ∧ dq_config q' = dq_config q ∧
    (∀ a, queued q a = sent_by a (option_list ret) ++ queued q' a) ∧
    (b = false → ret = None → ∀ a, queued q a = []).
Proof using Type.
  intros Hq Hfits. unfold pop_head.
  destruct (first_key_value (dq_use_cases_by_delay q)) as [[k u]|] eqn:Hfirst.
  2:{ exists q, None. split_and!; try done. intros _ _. apply (nothing_queued n); [done|].
      by apply first_key_value_None. }
  destruct (b && _) eqn:Hb.
  { exists q, None. split_and!; try done. intros ->. done. }
  apply first_key_value_Some in Hfirst as [(_ & uc & Hu & Hne & ->)%(qi_by_delay _ _ _ _ Hq) _].
  destruct (unlist_use_case n None q u uc Hq Hu Hne) as [_ Hq1].
  simpl dq_use_cases. rewrite Hu. cbn [expect mbind result_bind].
  destruct (expect_pop_head_account_ok _ _ _ u uc Hq1 Hu Hne)
    as (uc' & ak & a & acc & -> & Ha & Hin & Htill & Hidx & Huc').
  cbn [mbind result_bind]. rewrite (proj2 (Z.leb_le _ _) Htill), (proj2 (Z.eqb_eq _ _) Hidx).
  cbn [assert_that mbind result_bind]. rewrite Ha. cbn [expect mbind result_bind].
  destruct (sender_factor_ok _ _ Hfits) as [Hs0 Hs], (use_case_factor_ok _ _ u Hfits) as [Hu0 Hum].
  destruct Hfits as [Hout0 _].
  destruct (expect_dequeue_txn_ok n a acc u (dq_output_idx q + 1 + sender_spread_factor (dq_config q)))
    as (i & t & l & acc' & Hl & -> & Hl' & Hacc'); [by eapply (qi_account _ _ _ _ Hq1)|done|].
  cbn [mbind result_bind]. rewrite !delay_till_ok by done. cbn [mbind result_bind].
  simpl dq_output_idx. simpl dq_config.
  specialize (Huc' (dq_output_idx q + 1 + use_case_spread_factor u (dq_config q)) ltac:(lia)).
  pose proof (detach_account _ _ _ _ _ _ Hq1 Ha Hin Huc') as Hq2.
  pose proof (set_account_ok _ _ _ _ _ Hq2 Hacc') as Hq3.
  destruct (take_put_back_ok _ _ u _ a _ Hq3 (lookup_insert_eq _ _ _) (lookup_insert_eq _ _ _))
    as (q' & -> & Hq' & Hsame & Hout & Hconf); [simpl; lia..|].
  exists q', (Some t). split_and!; try done. intros a'.
  rewrite (queued_same _ q' a') by done. rewrite queued_set_account. simpl. rewrite Hl', sent_by_one.
  assert (parse_sender t = a) as Hsender.
  { apply (qi_account _ _ _ _ Hq a acc Ha) with i. rewrite Hl. left. }
  rewrite Hsender. case_decide as Hd; [subst a'|done].
  unfold queued. by rewrite (Ha : dq_accounts q !! a = Some acc), Hl.
Qed.
End delayed_queue_safety.
