(* ===== verification/UseCaseAwareSafety.v ===== *)
(** The use-case-aware shuffler returns its input with the transactions of every
    sender in their order. *)
From S2P Require Import Prelude Laptos TxnOrder DelayedQueue DelayedQueueSafety.

(** ** Draining the placeholders *)

Lemma fold_strict_remove {K V} `{Countable K} (l : list (DelayKey * K)) : ∀ (m : gmap K V),
  NoDup l.*2 → (∀ x, x ∈ l.*2 → is_Some (m !! x)) →
  ∃ m', fold_result (λ m e, strict_remove e.2 m) m l = Ok m' ∧
    ∀ x v, m' !! x = Some v ↔ m !! x = Some v ∧ x ∉ l.*2.
Proof.
  induction l as [|[k x] l IH]; intros m Hnd Hin; simpl in *.
  { exists m. split; [done|]. intros. set_solver. }
  apply NoDup_cons in Hnd as [Hx Hnd]. destruct (Hin x) as [v Hv]; [left|].
  assert (strict_remove x m = Ok (delete x m)) as -> by (unfold strict_remove; by rewrite Hv).
  cbn [mbind result_bind].
  destruct (IH (delete x m)) as (m' & -> & Hm'); [done| |].
  { intros y Hy. rewrite lookup_delete_ne by (intros ->; done). apply Hin. by right. }
  exists m'. split; [done|]. intros y w. rewrite Hm', lookup_delete_Some. set_solver.
Qed.

Section drain.
Context {K V : Type} `{Countable K} (key : V → DelayKey) (P : V → Prop) (least : DelayKey).

Lemma drain_ok (m : gmap K V) (ph : gmap DelayKey K) :
  indexes ph (λ x k, ∃ v, m !! x = Some v ∧ P v ∧ k = key v) →
  ∃ m', fold_result (λ m e, strict_remove e.2 m) m
          (btree_list delay_key_le (split_below least ph).1) = Ok m' ∧
    (∀ x v, m' !! x = Some v ↔ m !! x = Some v ∧ (P v → delay_key_le least (key v))) ∧
    indexes (split_below least ph).2 (λ x k, ∃ v, m' !! x = Some v ∧ P v ∧ k = key v).
Proof using Type.
  intros Hph.
  assert (∀ k x, (k, x) ∈ btree_list delay_key_le (split_below least ph).1 ↔
    ∃ v, m !! x = Some v ∧ P v ∧ k = key v ∧ ¬ delay_key_le least k) as Hin.
  { intros k x. rewrite elem_of_btree_list. simpl. rewrite map_lookup_filter_Some, (Hph k x). naive_solver. }
  set (l := btree_list delay_key_le (split_below least ph).1) in *.
  assert (∀ x, x ∈ l.*2 ↔ ∃ v, m !! x = Some v ∧ P v ∧ ¬ delay_key_le least (key v)) as Hl.
  { intros x. rewrite list_elem_of_fmap. split.
    - intros ([k y] & -> & Hk). apply Hin in Hk. naive_solver.
    - intros (v & Hv & HP & Hk). exists (key v, x). split; [done|]. apply Hin. eauto. }
  destruct (fold_strict_remove l m) as (m' & -> & Hm').
  { apply NoDup_fmap_2_strong.
    - intros [k x] [k' y] Hk Hk' Heq. simpl in Heq. subst y. apply Hin in Hk, Hk'. naive_solver.
    - unfold l, btree_list. rewrite merge_sort_Permutation. apply NoDup_map_to_list. }
  { intros x (v & Hv & _)%Hl. eauto. }
  assert (∀ x v, m' !! x = Some v ↔ m !! x = Some v ∧ (P v → delay_key_le least (key v))) as Hm''.
  { intros x v. rewrite Hm', Hl. split.
    - intros [Hv Hn]. split; [done|]. intros HP. destruct (decide (delay_key_le least (key v))); [done|].
      destruct Hn. eauto.
    - intros [Hv Hk]. split; [done|]. intros (v' & Hv' & HP & Hn). naive_solver. }
  exists m'. split_and!; [done..|]. intros k x. simpl. rewrite map_lookup_filter_Some, (Hph k x).
  setoid_rewrite Hm''. naive_solver.
Qed.
End drain.

Section use_case_aware_safety.
Context `{L : Laptos}.
Context (parse_sender : SignedTransaction → AccountAddress).
Context (parse_use_case : SignedTransaction → UseCaseKey).
Context (input : list SignedTransaction).

#[local] Abbreviation queue_inv := (queue_inv parse_sender parse_use_case input).
#[local] Abbreviation use_case_ok := (use_case_ok parse_use_case input).
#[local] Abbreviation account_ok := (account_ok parse_sender input).
#[local] Abbreviation is_input := (is_input input).
#[local] Abbreviation sent_by := (sent_by parse_sender).

Lemma member_drained accs accs' u a k (keep : Account → Prop) :
  (∀ a acc, accs' !! a = Some acc ↔ accs !! a = Some acc ∧ (ac_txns acc = [] → keep acc)) →
  member parse_use_case accs' None u a k ↔ member parse_use_case accs None u a k.
Proof using Type.
  intros Hacc. unfold member. setoid_rewrite Hacc. split; [naive_solver|].
  intros (Hne & acc & Ha & Hin & ->). split; [done|]. exists acc. split_and!; try done.
  destruct Hin as (i & t & l & -> & _). done.
Qed.

Lemma queued_drained q q' (keep : Account → Prop) a :
  (∀ a acc, dq_accounts q' !! a = Some acc ↔
    dq_accounts q !! a = Some acc ∧ (ac_txns acc = [] → keep acc)) →
  queued q' a = queued q a.
Proof using Type.
  intros Hacc. unfold queued. destruct (dq_accounts q !! a) as [acc|] eqn:Ha.
  - destruct (dq_accounts q' !! a) as [acc'|] eqn:Ha'.
    + apply Hacc in Ha' as [Ha' _]. congruence.
    + destruct (ac_txns acc) eqn:Hl; [done|]. rewrite (proj2 (Hacc a acc)) in Ha'; [done|].
      split; [done|congruence].
  - destruct (dq_accounts q' !! a) as [acc'|] eqn:Ha'; [|done]. apply Hacc in Ha' as [Ha' _]. congruence.
Qed.

Lemma use_case_member accs u uc a k :
  use_case_ok accs None u uc → member parse_use_case accs None u a k → uc_is_empty uc = false.
Proof using Type.
  intros [] Hm. apply bool_decide_eq_false. intros He. apply uo_members in Hm.
  by rewrite He, lookup_empty in Hm.
Qed.

Lemma drain_placeholders_ok n q m :
  queue_inv n None None q → 0 ≤ m → m + 1 ≤ u64_MAX →
  ∃ q', drain_placeholders (dq_with_output_idx m q) = Ok q' ∧ queue_inv n None None q' ∧
    dq_output_idx q' = m ∧ dq_config q' = dq_config q ∧ ∀ a, queued q' a = queued q a.
Proof using Type.
  intros Hq Hm Hmax. pose proof Hq as []. unfold drain_placeholders. simpl dq_output_idx.
  rewrite (u64_add_le m) by done. cbn [mbind result_bind].
  set (least := {| dk_try_delay_till := m + 1; dk_input_idx := 0 |}).
  destruct (drain_ok uc_delay_key (λ uc, uc_is_empty uc = true) least (dq_use_cases q)
    (dq_use_case_placeholders_by_delay q)) as (ucs & Hucs & Hucs' & Huph).
  { eapply indexes_ext; [done|]. intros. unfold listed. naive_solver. }
  destruct (drain_ok ac_delay_key (λ acc, ac_txns acc = []) least (dq_accounts q)
    (dq_account_placeholders_by_delay q)) as (accs & Haccs & Haccs' & Haph).
  { eapply indexes_ext; [done|]. intros. unfold resting. naive_solver. }
  simpl in Hucs, Huph, Haccs, Haph |- *. rewrite Hucs. cbn [mbind result_bind].
  rewrite Haccs. cbn [mbind result_bind]. eexists. split; [done|].
  pose proof (λ u a k, member_drained _ _ u a k _ Haccs') as Hmem.
  split_and!; [|done..|intros a; eapply queued_drained; exact Haccs'].
  split; simpl.
  - intros a acc [Ha _]%Haccs'. by apply qi_account.
  - intros u uc [Hu _]%Hucs'. eapply use_case_ok_ext; [|by apply qi_use_case]. intros. apply Hmem.
  - intros u a k Hk. rewrite Hmem in Hk. destruct (qi_tracked _ _ _ Hk) as [uc Hu]. exists uc.
    apply Hucs'. split; [done|]. rewrite (use_case_member _ _ _ _ _ (qi_use_case _ _ Hu) Hk). done.
  - eapply indexes_ext; [done|]. intros u k. split; intros (_ & uc & Hu & He & Hk);
      (split; [done|exists uc; split_and!; [|done..]]); [by apply Hucs' in Hu as [Hu _]|].
    apply Hucs'. split; [done|congruence].
  - eapply indexes_ext; [done|]. intros u k. unfold listed. naive_solver.
  - eapply indexes_ext; [done|]. intros a k. unfold resting. naive_solver.
  - intros u uc _ [Hu Hkeep]%Hucs' He. specialize (Hkeep He).
    apply uc_is_empty_spec in He. unfold delay_key_le, uc_delay_key in Hkeep. simpl in Hkeep.
    rewrite (proj2 (first_key_value_None _) He) in Hkeep. lia.
  - intros a acc _ [Ha Hkeep]%Haccs' He. specialize (Hkeep He).
    unfold delay_key_le in Hkeep. simpl in Hkeep. lia.
Qed.

Lemma bump_output_idx_ok n q m :
  queue_inv n None None q → 0 ≤ dq_output_idx q ≤ m → m + 1 ≤ u64_MAX →
  ∃ q', bump_output_idx m q = Ok q' ∧ queue_inv n None None q' ∧
    dq_output_idx q' = m ∧ dq_config q' = dq_config q ∧ ∀ a, queued q' a = queued q a.
Proof using Type.
  intros Hq Hm Hmax. unfold bump_output_idx.
  assert ((m >=? dq_output_idx q) = true) as -> by (apply Z.geb_le; lia). cbn [assert_that mbind result_bind].
  destruct (m >? dq_output_idx q) eqn:Hgt.
  - apply drain_placeholders_ok; [done|lia..].
  - exists q. split_and!; try done. rewrite Z.gtb_ltb in Hgt. apply Z.ltb_ge in Hgt. lia.
Qed.

(** ** Transactions from the input *)

Lemma account_ok_next n a acc : account_ok n a acc → account_ok (n + 1) a acc.
Proof using Type.
  intros []. split; try done. intros i t Hi. destruct (ao_txns i t Hi) as (? & ? & ?). split_and!; [done..|lia].
Qed.
Lemma queue_inv_next n da du q : queue_inv n da du q → queue_inv (n + 1) da du q.
Proof using Type. intros []. split; try done. intros. by apply account_ok_next, qi_account. Qed.

Lemma ac_queue_txn_ok n a acc t :
  account_ok n a acc → is_input n t → parse_sender t = a →
  ∃ acc', ac_queue_txn n t acc = Ok acc' ∧ account_ok (n + 1) a acc' ∧
    ac_txns acc' = ac_txns acc ++ [(n, t)] ∧ ac_try_delay_till acc' = ac_try_delay_till acc ∧
    (ac_txns acc ≠ [] → ac_input_idx acc' = ac_input_idx acc).
Proof using Type.
  intros Hacc Hin Hs. destruct (account_ok_next _ _ _ Hacc) as [Hidx Htxns Hsorted Hhead].
  assert (∀ e, e ∈ ac_txns acc → e.1 < n) as Hlt.
  { intros [i t'] He. by apply (ao_txns _ _ _ _ _ Hacc) in He as (_ & _ & He). }
  assert (∀ i t', (i, t') ∈ ac_txns acc ++ [(n, t)] → is_input i t' ∧ parse_sender t' = a ∧ i < n + 1)
    as Htxns'.
  { intros i t' [He|He]%elem_of_app; [by apply Htxns|].
    apply list_elem_of_singleton in He as [= -> ->]. split_and!; [done..|lia]. }
  assert (StronglySorted (λ x y : Z * SignedTransaction, x.1 < y.1) (ac_txns acc ++ [(n, t)])) as Hsorted'.
  { apply StronglySorted_app_2; [|done|by repeat constructor].
    intros x y Hx ->%list_elem_of_singleton. by apply Hlt. }
  unfold ac_queue_txn. destruct (last (ac_txns acc)) as [[j tj]|] eqn:Hlast.
  - assert ((j, tj) ∈ ac_txns acc) as Hj.
    { apply last_Some in Hlast as [l ->]. apply elem_of_app. right. left. }
    rewrite (proj2 (Z.ltb_lt j n)) by apply (Hlt _ Hj). cbn [assert_that mbind result_bind].
    eexists. split_and!; [done| |done..]. split; simpl; try done.
    intros i t' l. destruct (ac_txns acc) as [|[i0 t0] l0]; [done|].
    intros [= <- <- _]. by eapply Hhead.
  - apply last_None in Hlast. eexists. split_and!; [done| |done..]. rewrite Hlast in *.
    split; simpl; try done; [by exists t|]. by intros i t' l [= <- _ _].
Qed.

(** A transaction behind others changes no position. *)
Lemma append_account n q a acc acc' t :
  queue_inv (n + 1) None None q → dq_accounts q !! a = Some acc → ac_txns acc ≠ [] →
  account_ok (n + 1) a acc' → ac_txns acc' = ac_txns acc ++ [(n, t)] →
  ac_delay_key acc' = ac_delay_key acc → queue_inv (n + 1) None None (set_account a acc' q).
Proof using Type.
  intros [] Ha Hne Hacc' Htxns Hkey.
  assert (∀ u, account_in parse_use_case u acc' ↔ account_in parse_use_case u acc) as Hin.
  { intros u. unfold account_in. rewrite Htxns. destruct (ac_txns acc) as [|e l]; [done|]. naive_solver. }
  assert (∀ u a' k, member parse_use_case (<[a := acc']> (dq_accounts q)) None u a' k ↔
    member parse_use_case (dq_accounts q) None u a' k) as Hm.
  { intros u a' k. rewrite (member_attach _ _ u a acc') by apply lookup_insert_eq.
    by rewrite member_set, (member_attach _ (dq_accounts q) u a acc), Hin, Hkey by done. }
  split; simpl; try done.
  - intros a' acc'' [[<- <-]|[_ Ha']]%lookup_insert_Some; [done|by apply qi_account].
  - intros u uc Hu. eapply use_case_ok_ext; [|by apply qi_use_case]. intros. apply Hm.
  - intros u a' k Hk. rewrite Hm in Hk. by eapply qi_tracked.
  - eapply indexes_ext; [done|]. intros a' k. rewrite (resting_attach _ a acc') by apply lookup_insert_eq.
    rewrite resting_set, (resting_attach (dq_accounts q) a acc) by done.
    rewrite Htxns. destruct (ac_txns acc); naive_solver.
  - intros a' acc'' _ [[<- <-]|[_ Ha']]%lookup_insert_Some He; [|by eapply qi_fresh_account].
    rewrite Htxns in He. by destruct (ac_txns acc).
Qed.

Lemma account_in_last u acc n t :
  parse_use_case t = u → ac_txns acc = [(n, t)] → account_in parse_use_case u acc.
Proof using Type. intros Hu Hl. by exists n, t, []. Qed.

Lemma queued_append q a acc acc' t n a' :
  queued q a = (ac_txns acc).*2 → ac_txns acc' = ac_txns acc ++ [(n, t)] → parse_sender t = a →
  queued (set_account a acc' q) a' = queued q a' ++ sent_by a' [t].
Proof using Type.
  intros Ha Hl Hs. rewrite queued_set_account, Hl, sent_by_one, Hs. case_decide; [subst a'|by rewrite app_nil_r].
  by rewrite Ha, fmap_app.
Qed.

(** A transaction of an account that is not tracked. *)
Lemma queue_new_account n q a u uc t acc :
  queue_inv n (Some a) None q → dq_accounts q !! a = None → dq_use_cases q !! u = Some uc →
  account_ok n a acc → ac_txns acc = [t] → parse_use_case t.2 = u →
  ∃ q', (q1 ← unqueue_use_case uc q;
         uc' ← add_account a acc uc;
         accounts ← strict_insert a acc (dq_accounts q1);
         by_delay ← strict_insert (uc_delay_key uc') u (dq_use_cases_by_delay q1);
         Ok (set_use_case u uc' (dq_with_accounts accounts (dq_account_placeholders_by_delay q1)
              (dq_with_use_cases (dq_use_cases q1) by_delay
                (dq_use_case_placeholders_by_delay q1) q1)))) = Ok q' ∧
    queue_inv n None None q' ∧ same_txns (set_account a acc q) q'.
Proof using Type.
  intros Hq Ha Hu Hacc Hl Htu.
  assert (account_in parse_use_case u acc) as Hin by (destruct t; by eapply account_in_last).
  destruct (unqueue_use_case_ok _ _ _ _ _ _ u uc Hq Hu) as (bd & ph & -> & Hq1).
  cbn [mbind result_bind]. apply set_account_ok with (acc := acc) in Hq1; [|done].
  pose proof (lookup_insert_eq (dq_accounts q) a acc) as Ha1.
  destruct (add_account_ok _ _ _ _ _ _ a acc u uc Hq1 Ha1 Hin) as (uc' & -> & Huc' & Hne).
  { by eapply qi_use_case. }
  cbn [mbind result_bind]. pose proof (attach_account _ _ _ _ _ _ _ _ _ Hq1 Ha1 Hin Huc') as Hq2.
  destruct (list_use_case _ _ _ _ _ _ _ _ Hq2 Hne) as (bd' & Hbd' & Hinv).
  simpl dq_accounts. rewrite (strict_insert_new a) by done. cbn [mbind result_bind].
  simpl in Hbd'. simpl dq_use_cases_by_delay. rewrite Hbd'. cbn [mbind result_bind].
  eexists. split; [done|]. split; [exact Hinv|done].
Qed.

Lemma dq_queue_txn_ok n q t :
  queue_inv n None None q → is_input n t → 0 ≤ dq_output_idx q → dq_output_idx q + 1 ≤ u64_MAX →
  (dq_accounts q !! parse_sender t = None → is_Some (dq_use_cases q !! parse_use_case t)) →
  ∃ q', dq_queue_txn n (parse_sender t) (parse_use_case t) t q = Ok q' ∧
    queue_inv (n + 1) None None q' ∧ dq_output_idx q' = dq_output_idx q ∧
    dq_config q' = dq_config q ∧ ∀ a, queued q' a = queued q a ++ sent_by a [t].
Proof using Type.
  intros Hq Hin H0 Hmax Huse. unfold dq_queue_txn. pose proof (queue_inv_next _ _ _ _ Hq) as Hq1.
  destruct (dq_accounts q !! parse_sender t) as [acc|] eqn:Ha.
  - assert (queued q (parse_sender t) = (ac_txns acc).*2) as Hqa by (unfold queued; by rewrite Ha).
    destruct (ac_queue_txn_ok n _ acc t (qi_account _ _ _ _ _ _ _ Hq _ _ Ha) Hin eq_refl)
      as (acc' & Hqueue & Hacc' & Htxns & Htill & Hidx).
    unfold ac_is_empty. case_bool_decide as Hempty; rewrite Hqueue; cbn [mbind result_bind].
    + pose proof (set_account_ok _ _ _ _ _ _ _ _ (wake_account _ _ _ _ _ _ _ _ Hq1 Ha Hempty) Hacc') as Hq2.
      rewrite Hempty in Htxns. simpl dq_output_idx.
      destruct (join_use_case_ok _ _ _ _ _ _ acc' (parse_use_case t) (dq_output_idx q) Hq2)
        as (q' & -> & Hq' & Hsame & Hout & Hconf); [apply lookup_insert_eq| |done|].
      { by eapply account_in_last. }
      exists q'. split_and!; try done. intros a. rewrite (queued_same _ q') by done.
      refine (queued_append (dq_with_accounts _ _ q) _ acc acc' t n a _ _ eq_refl); [done|].
      by rewrite Htxns, Hempty.
    + eexists. split_and!; [done| |done..|].
      * eapply append_account; try done. unfold ac_delay_key. by rewrite Htill, Hidx.
      * intros a. by eapply queued_append.
  - rewrite (u64_add_le (dq_output_idx q)) by done. cbn [mbind result_bind].
    destruct Huse as [uc Hu]; [done|]. rewrite Hu. cbn [expect mbind result_bind].
    set (acc := Account_new_with_txn _ n t).
    assert (account_ok (n + 1) (parse_sender t) acc) as Hacc.
    { split; simpl; [by exists t| |by repeat constructor|by intros i t' l [= <- _ _]].
      intros i t' [= -> ->]%list_elem_of_singleton. split_and!; [done..|lia]. }
    destruct (queue_new_account (n + 1) q (parse_sender t) (parse_use_case t) uc (n, t) acc)
      as (q' & -> & Hq' & Hsame & Hout & Hconf); [by apply untracked_account|done..|].
    exists q'. split_and!; try done. intros a. rewrite (queued_same _ q') by done.
    eapply (queued_append _ _ (Account_new_empty 0 0)); [|done..]. unfold queued. by rewrite Ha.
Qed.

Lemma delay_use_case_ok n q t till :
  queue_inv n None None q → is_input n t → 0 ≤ dq_output_idx q < till →
  (∀ uc, dq_use_cases q !! parse_use_case t = Some uc → uc_try_delay_till uc ≤ dq_output_idx q) →
  ∃ q', delay_use_case n till (parse_use_case t) q = Ok q' ∧ queue_inv n None None q' ∧ same_txns q q'.
Proof using Type.
  intros Hq Hin Htill Hready. unfold delay_use_case.
  destruct (dq_use_cases q !! parse_use_case t) as [uc|] eqn:Hu.
  - destruct (uc_is_empty uc) eqn:Hne.
    { pose proof (qi_fresh_use_case _ _ _ _ _ _ _ Hq _ uc ltac:(done) Hu Hne).
      specialize (Hready uc eq_refl). lia. }
    cbn [negb assert_that mbind result_bind].
    destruct (unlist_use_case _ _ _ _ _ _ _ uc Hq Hu Hne) as [-> Hq1]. cbn [mbind result_bind].
    assert (use_case_ok (dq_accounts q) None (parse_use_case t) (uc_update_try_delay_till till uc)) as Huc.
    { destruct (qi_use_case _ _ _ _ _ _ _ Hq _ _ Hu). split; try done. simpl. lia. }
    eapply set_use_case_ok in Hq1; [|exact Huc].
    destruct (list_use_case _ _ _ _ _ _ _ _ Hq1 Hne) as (bd & Hbd & Hinv). simpl in Hbd.
    rewrite Hbd. by eexists.
  - assert (use_case_ok (dq_accounts q) None (parse_use_case t) (UseCase_new_empty till n)) as Huc.
    { split; simpl; [by exists t|lia| |].
      - intros k a. rewrite lookup_empty. split; [done|].
        intros [x Hx]%(qi_tracked _ _ _ _ _ _ _ Hq). congruence.
      - intros k a [Hk _]%first_key_value_Some. by rewrite lookup_empty in Hk. }
    apply untracked_use_case with (u := parse_use_case t) in Hq; [|done].
    eapply set_use_case_ok in Hq; [|exact Huc].
    destruct (queue_use_case_ok _ _ _ _ _ _ _ _ Hq (lookup_insert_eq _ _ _)) as (bd & ph & Heq & Hinv);
      [simpl; lia|].
    apply Ok_bind in Heq as (ph' & Hph & Heq). injection Heq as <- <-. simpl in Hph. rewrite Hph.
    by eexists.
Qed.

Lemma update_delays_ok n q t :
  queue_inv n None None q → is_input n t → config_fits (dq_output_idx q) (dq_config q) →
  dq_accounts q !! parse_sender t = None →
  (∀ uc, dq_use_cases q !! parse_use_case t = Some uc → uc_try_delay_till uc ≤ dq_output_idx q) →
  ∃ q', update_delays_for_selected_txn n (parse_sender t) (parse_use_case t) q = Ok q' ∧
    queue_inv (n + 1) None None q' ∧ dq_output_idx q' = dq_output_idx q ∧
    dq_config q' = dq_config q ∧ ∀ a, queued q' a = queued q a.
Proof using Type.
  intros Hq Hin Hfits Ha Hready. unfold update_delays_for_selected_txn.
  destruct (sender_factor_ok _ _ Hfits) as [Hs0 Hs].
  destruct (use_case_factor_ok _ _ (parse_use_case t) Hfits) as [Hu0 Hum], Hfits as [Hout0 _].
  rewrite !delay_till_ok by done. cbn [mbind result_bind].
  destruct (delay_use_case_ok n q t
    (dq_output_idx q + 1 + use_case_spread_factor (parse_use_case t) (dq_config q)) Hq Hin)
    as (q1 & Hdelay & Hq1 & Hacc & Hout & Hconf); [lia|done|].
  rewrite Hdelay. cbn [mbind result_bind].
  set (acc := Account_new_empty _ n). rewrite <- Hacc in Ha.
  assert (account_ok (n + 1) (parse_sender t) acc) as Hok.
  { split; simpl; [by exists t|by intros i t' ?%elem_of_nil|constructor|done]. }
  pose proof (queue_inv_next _ _ _ _ Hq1) as Hq2. eapply untracked_account in Hq2; [|exact Ha].
  eapply set_account_ok in Hq2; [|exact Hok].
  destruct (rest_account _ _ _ _ _ _ _ acc Hq2 (lookup_insert_eq _ _ _)) as (ph & Hph & Hinv);
    [done|simpl; lia|].
  rewrite (strict_insert_new (parse_sender t)) by done. cbn [mbind result_bind]. simpl in Hph.
  rewrite Hph.
  eexists. split_and!; [done|exact Hinv|done..|]. intros a.
  change (queued (set_account (parse_sender t) acc q1) a = queued q a). rewrite queued_set_account.
  case_decide; [subst a; unfold queued; by rewrite <- Hacc, Ha|]. unfold queued. by rewrite Hacc.
Qed.

Lemma queue_or_return_ok n q t :
  queue_inv n None None q → is_input n t → config_fits (dq_output_idx q) (dq_config q) →
  ∃ q' ret, queue_or_return parse_sender parse_use_case n t q = Ok (q', ret) ∧
    queue_inv (n + 1) None None q' ∧ dq_output_idx q' = dq_output_idx q ∧ dq_config q' = dq_config q ∧
    ∀ a, queued q a ++ sent_by a [t] = sent_by a (option_list ret) ++ queued q' a.
Proof using Type.
  intros Hq Hin Hfits. unfold queue_or_return.
  destruct (_ || _) eqn:Hdelay.
  - pose proof Hfits as [Hout0 _]. destruct (sender_factor_ok _ _ Hfits) as [Hs0 Hs].
    destruct (dq_queue_txn_ok n q t Hq Hin) as (q' & -> & Hq' & Hout & Hconf & Hqueued); [done|lia| |].
    { intros Ha. rewrite Ha in Hdelay. simpl in Hdelay.
      by destruct (dq_use_cases q !! parse_use_case t). }
    exists q', None. split_and!; try done. intros a. by rewrite Hqueued.
  - apply orb_false_iff in Hdelay as [Hacc Huc].
    assert (dq_accounts q !! parse_sender t = None) as Ha.
    { destruct (dq_accounts q !! parse_sender t) as [acc|] eqn:Ha; [|done].
      apply orb_false_iff in Hacc as [Hempty Htill]. apply negb_false_iff, bool_decide_eq_true in Hempty.
      pose proof (qi_fresh_account _ _ _ _ _ _ _ Hq _ acc ltac:(done) Ha Hempty).
      rewrite Z.gtb_ltb in Htill. apply Z.ltb_ge in Htill. lia. }
    destruct (update_delays_ok n q t Hq Hin Hfits Ha) as (q' & -> & Hq' & Hout & Hconf & Hqueued).
    { intros uc Hu. rewrite Hu in Huc. rewrite Z.gtb_ltb in Huc. apply Z.ltb_ge in Huc. lia. }
    exists q', (Some t). split_and!; try done. intros a. rewrite Hqueued. simpl.
    rewrite sent_by_one. case_decide; [subst a|by rewrite app_nil_r]. unfold queued. by rewrite Ha.
Qed.

(** ** The iterator *)

Hypothesis parse_sender_sender : ∀ t, parse_sender t = SignedTransaction_sender t.
Context (config : Config).
Hypothesis config_fits_input : config_fits (Z.of_nat (length input)) config.

Lemma sent_by_from_sender a l : sent_by a l = from_sender a l.
Proof using parse_sender_sender.
  clear config_fits_input. unfold DelayedQueueSafety.sent_by, from_sender. apply list_filter_iff.
  intros t. by rewrite parse_sender_sender.
Qed.
Lemma sent_by_app a l1 l2 : sent_by a (l1 ++ l2) = sent_by a l1 ++ sent_by a l2.
Proof using Type. clear parse_sender_sender config_fits_input. apply filter_app. Qed.

Lemma sent_length k out :
  (∀ a, sent_by a out ++ k a = sent_by a input) → (length out ≤ length input)%nat.
Proof using parse_sender_sender.
  clear config_fits_input. intros Hk.
  assert (∀ a, from_sender a out ++ k a = from_sender a input) as Hk'.
  { intros a. by rewrite <- !sent_by_from_sender. }
  destruct (from_sender_rest k out input Hk') as [rest Hrest].
  assert (out ++ rest ≡ₚ input) as <-; [|rewrite length_app; lia].
  apply keeps_sender_order_perm. intros a. by rewrite from_sender_app, Hrest.
Qed.

Lemma config_fits_le m : 0 ≤ m ≤ Z.of_nat (length input) → config_fits m config.
Proof using config_fits_input.
  intros Hm. destruct config_fits_input as [_ Hf]. split; [lia|].
  intros f Hin. destruct (Hf f Hin). lia.
Qed.
Lemma input_fits : Z.of_nat (length input) + 1 ≤ u64_MAX.
Proof using config_fits_input. destruct (sender_factor_ok _ _ config_fits_input). lia. Qed.

(** What was output, what waits, and what comes are the input. *)
Record iter_inv (it : ShuffledTransactionIterator) (out : list SignedTransaction) : Prop := {
  ii_queue : queue_inv (it_input_idx it) None None (it_delayed_queue it);
  ii_config : dq_config (it_delayed_queue it) = config;
  ii_output : 0 ≤ dq_output_idx (it_delayed_queue it) ≤ it_output_idx it;
  ii_length : it_output_idx it = Z.of_nat (length out);
  ii_pos : 0 ≤ it_input_idx it;
  ii_input : it_input_queue it = drop (Z.to_nat (it_input_idx it)) input;
  ii_content a : sent_by a out ++ queued (it_delayed_queue it) a ++ sent_by a (it_input_queue it) =
    sent_by a input;
}.

Lemma seek_ok rest : ∀ q n,
  queue_inv n None None q → 0 ≤ n → rest = drop (Z.to_nat n) input →
  dq_config q = config → 0 ≤ dq_output_idx q ≤ Z.of_nat (length input) →
  ∃ rest' q' n' ret, seek parse_sender parse_use_case rest q n = Ok (rest', q', n', ret) ∧
    queue_inv n' None None q' ∧ 0 ≤ n' ∧ rest' = drop (Z.to_nat n') input ∧
    dq_config q' = config ∧ dq_output_idx q' = dq_output_idx q ∧
    (∀ a, queued q a ++ sent_by a rest =
          sent_by a (option_list ret) ++ queued q' a ++ sent_by a rest') ∧
    (ret = None → rest' = []).
Proof using config_fits_input.
  clear parse_sender_sender. induction rest as [|t rest IH]; intros q n Hq Hn Hrest Hconf Hout; simpl.
  { exists [], q, n, None. split_and!; try done. }
  assert (is_input n t) as Hin.
  { split; [done|]. rewrite <- (Nat.add_0_r (Z.to_nat n)), <- lookup_drop. by rewrite <- Hrest. }
  assert (rest = drop (Z.to_nat (n + 1)) input) as Hrest'.
  { rewrite Z2Nat.inj_add, <- drop_drop, <- Hrest by lia. done. }
  pose proof (lookup_lt_Some _ _ _ (proj2 Hin)) as Hlt. pose proof input_fits as Hfits.
  rewrite (u64_add_le n) by lia. cbn [mbind result_bind].
  destruct (queue_or_return_ok n q t Hq Hin) as (q1 & ret & -> & Hq1 & Hout1 & Hconf1 & Hcontent).
  { rewrite Hconf. by apply config_fits_le. }
  cbn [mbind result_bind]. destruct ret as [t'|].
  - exists rest, q1, (n + 1), (Some t'). split_and!; try done; [lia|congruence|].
    intros a. change (t :: rest) with ([t] ++ rest). by rewrite sent_by_app, app_assoc, Hcontent, <- app_assoc.
  - destruct (IH q1 (n + 1)) as (rest' & q' & n' & ret & -> & Hq' & Hn' & Hr' & Hc' & Ho' & Hcont & Hnone);
      [done|lia|done|congruence|lia|].
    exists rest', q', n', ret. split_and!; try done; [congruence|].
    intros a. rewrite <- Hcont. change (t :: rest) with ([t] ++ rest).
    rewrite sent_by_app, app_assoc, Hcontent. done.
Qed.

(** The transaction that comes next, if any, is taken from the same places. *)
Lemma select_next_txn_inner_ok it out :
  iter_inv it out →
  ∃ q rest n ret,
    select_next_txn_inner parse_sender parse_use_case it =
      Ok ({| it_input_queue := rest; it_delayed_queue := q; it_input_idx := n;
             it_output_idx := it_output_idx it |}, ret) ∧
    queue_inv n None None q ∧ dq_config q = config ∧ dq_output_idx q = it_output_idx it ∧ 0 ≤ n ∧
    rest = drop (Z.to_nat n) input ∧
    (∀ a, queued (it_delayed_queue it) a ++ sent_by a (it_input_queue it) =
          sent_by a (option_list ret) ++ queued q a ++ sent_by a rest) ∧
    (ret = None → rest = [] ∧ ∀ a, queued q a = []).
Proof using parse_sender_sender config_fits_input.
  intros []. pose proof (sent_length _ _ ii_content0) as Hlen. pose proof input_fits as Hfits.
  unfold select_next_txn_inner.
  destruct (bump_output_idx_ok _ _ (it_output_idx it) ii_queue0)
    as (q1 & -> & Hq1 & Ho1 & Hc1 & Hcont1); [lia..|]. cbn [mbind result_bind].
  assert (config_fits (it_output_idx it) config) as Hf by (apply config_fits_le; lia).
  destruct (pop_head_ok _ _ _ _ true q1 Hq1) as (q2 & ret & -> & Hq2 & Ho2 & Hc2 & Hcont2 & _);
    [congruence|]. cbn [mbind result_bind].
  destruct ret as [t|].
  { exists q2, (it_input_queue it), (it_input_idx it), (Some t). split_and!; try done; [congruence..|].
    intros a. by rewrite <- Hcont1, Hcont2, <- app_assoc. }
  destruct (seek_ok (it_input_queue it) q2 (it_input_idx it) Hq2)
    as (rest & q3 & n & ret & -> & Hq3 & Hn & Hrest & Hc3 & Ho3 & Hcont3 & Hnone);
    [done|done|congruence|lia|]. cbn [mbind result_bind].
  destruct ret as [t|].
  { exists q3, rest, n, (Some t). split_and!; try done; [congruence|].
    intros a. by rewrite <- Hcont1, Hcont2, <- Hcont3. }
  destruct (pop_head_ok _ _ _ _ false q3 Hq3) as (q4 & ret & -> & Hq4 & Ho4 & Hc4 & Hcont4 & Hempty).
  { rewrite Hc3, Ho3, Ho2, Ho1. done. }
  cbn [mbind result_bind]. exists q4, rest, n, ret. split_and!; try done; [congruence..| |].
  - intros a. rewrite <- Hcont1, Hcont2. simpl. rewrite Hcont3. simpl. by rewrite Hcont4, <- app_assoc.
  - intros ->. split; [by apply Hnone|]. intros a. specialize (Hempty eq_refl eq_refl a).
    by rewrite Hcont4 in Hempty.
Qed.

Lemma select_next_txn_ok it out :
  iter_inv it out →
  ∃ it' ret, select_next_txn parse_sender parse_use_case it = Ok (it', ret) ∧
    match ret with
    | Some t => iter_inv it' (out ++ [t])
    | None => ∀ a, sent_by a out = sent_by a input
    end.
Proof using parse_sender_sender config_fits_input.
  intros Hit. destruct (select_next_txn_inner_ok it out Hit)
    as (q & rest & n & ret & Hsel & Hq & Hc & Ho & Hn & Hrest & Hcont & Hnone).
  destruct Hit. unfold select_next_txn. rewrite Hsel. cbn [mbind result_bind it_output_idx].
  pose proof (sent_length _ _ ii_content0) as Hlen. pose proof input_fits as Hfits.
  destruct ret as [t|].
  - rewrite (u64_add_le (it_output_idx it)) by lia. cbn [mbind result_bind]. do 2 eexists. split; [done|].
    split; simpl; try done; [lia|rewrite length_app; simpl; lia|].
    intros a. rewrite <- ii_content0, Hcont, sent_by_app, <- app_assoc. done.
  - destruct Hnone as [-> Hempty]; [done|]. do 2 eexists. split; [done|].
    intros a. rewrite <- ii_content0, Hcont, Hempty. simpl. by rewrite app_nil_r.
Qed.

Lemma collect_ok fuel : ∀ it out,
  iter_inv it out → (length input - length out < fuel)%nat →
  ∃ res, collect parse_sender parse_use_case fuel it = Ok res ∧
    ∀ a, sent_by a (out ++ res) = sent_by a input.
Proof using parse_sender_sender config_fits_input.
  induction fuel as [|fuel IH]; intros it out Hit Hfuel; [lia|]. simpl.
  destruct (select_next_txn_ok it out Hit) as (it' & [t|] & -> & Hret); cbn [mbind result_bind].
  - destruct (IH it' (out ++ [t]) Hret) as (res & -> & Hres).
    { pose proof (sent_length _ _ (ii_content _ _ Hret)) as Hlen. rewrite length_app in *. simpl in *. lia. }
    exists (t :: res). split; [done|]. intros a. specialize (Hres a). by rewrite <- app_assoc in Hres.
  - exists []. split; [done|]. intros a. by rewrite app_nil_r.
Qed.

Lemma iter_inv_start :
  iter_inv (extended_with input (ShuffledTransactionIterator_new config)) [].
Proof using Type.
  clear. split; try done. simpl. split; simpl; try done.
  - intros u a k (_ & acc & Ha & _). done.
  - intros k u. rewrite lookup_empty. split; [done|]. intros (_ & uc & Hu & _). done.
  - intros k u. rewrite lookup_empty. split; [done|]. intros (_ & uc & Hu & _). done.
  - intros k a. rewrite lookup_empty. split; [done|]. intros (_ & acc & Ha & _). done.
Qed.
End use_case_aware_safety.

Section use_case_aware.
Context `{L : Laptos}.
Context (parse_sender : SignedTransaction → AccountAddress).
Context (parse_use_case : SignedTransaction → UseCaseKey).
Hypothesis parse_sender_sender : ∀ t, parse_sender t = SignedTransaction_sender t.

(** The indices of the block and the delays of the configuration can be counted. *)
Definition block_fits (config : Config) (txns : list SignedTransaction) : Prop :=
  config_fits (Z.of_nat (length txns)) config.

Lemma UseCaseAwareShuffler_shuffle_ok config txns :
  block_fits config txns →
  ∃ out, UseCaseAwareShuffler_shuffle parse_sender parse_use_case config txns = Ok out ∧
    keeps_sender_order out txns.
Proof using parse_sender_sender.
  intros Hfits. unfold UseCaseAwareShuffler_shuffle.
  destruct (collect_ok parse_sender parse_use_case txns parse_sender_sender config Hfits
    (S (length txns)) _ [] (iter_inv_start _ _ _ _)) as (out & -> & Hout); [simpl; lia|].
  exists out. split; [done|]. intros a. specialize (Hout a).
  by rewrite !(sent_by_from_sender _ parse_sender_sender) in Hout.
Qed.

#[export] Instance UseCaseAwareShuffler_shuffles config capacity :
  config_fits capacity config →
  TransactionShuffler (UseCaseAwareShuffler_shuffle parse_sender parse_use_case config) capacity.
Proof using parse_sender_sender.
  intros [_ Hf] txns Hlen. apply UseCaseAwareShuffler_shuffle_ok. split; [lia|].
  intros f Hin. destruct (Hf f Hin). lia.
Qed.

(** C31. The use-case-aware shuffler ([UseCaseAwareShuffler::shuffle], with the
    delayed queue and its iterator) returns for every input that the index type
    can count: no assertion of its strict maps, of the head entries or of the
    output index fails, whichever senders and use cases the transactions have.
    Its output has every transaction of the input once, those of each sender in
    their order. *)
Theorem use_case_aware_shuffle_ok config txns :
  block_fits config txns →
  ∃ out, UseCaseAwareShuffler_shuffle parse_sender parse_use_case config txns = Ok out ∧
    keeps_sender_order out txns ∧ out ≡ₚ txns.
Proof using parse_sender_sender.
  intros Hfits. destruct (UseCaseAwareShuffler_shuffle_ok config txns Hfits) as (out & Hout & Hk).
  exists out. split_and!; [done..|by apply keeps_sender_order_perm].
Qed.
End use_case_aware.
