(* ===== verification/BlockPreparer.v ===== *)
(** From a block to the transactions that are executed
    (consensus/src/block_preparer.rs and transaction_shuffler/mod.rs): the
    payload manager's transactions are filtered, deduplicated, shuffled and cut. *)
From S2P Require Import Prelude Laptos Payload Block BatchStore.
From S2P Require Import TxnOrder Deduper SenderAware SenderAwareSafety DelayedQueue DelayedQueueSafety UseCaseAwareSafety.

Section block_preparer.
Context `{L : Laptos}.
Context (parse_sender : SignedTransaction → AccountAddress).
Context (parse_use_case : SignedTransaction → UseCaseKey).
Context {Authenticator : Type} `{Countable Authenticator}.
Context (authenticator : SignedTransaction → Authenticator).

(** ** The shuffler of a configuration *)

Inductive TransactionShufflerType : Type :=
| NoShuffling
| DeprecatedSenderAwareV1 (conflict_window_size : Z)
| SenderAwareV2 (conflict_window_size : Z)
| DeprecatedFairness
| UseCaseAware (sender_spread_factor platform_use_case_spread_factor user_use_case_spread_factor : Z).

Definition NoOpShuffler_shuffle (txns : list SignedTransaction) :
    result anyhow (list SignedTransaction) := Ok txns.

Definition create_transaction_shuffler (shuffler_type : TransactionShufflerType) :
    result anyhow (list SignedTransaction → result anyhow (list SignedTransaction)) :=
  match shuffler_type with
  | NoShuffling | DeprecatedSenderAwareV1 _ => Ok NoOpShuffler_shuffle
  | SenderAwareV2 conflict_window_size => Ok (SenderAwareShuffler_shuffle conflict_window_size)
  | DeprecatedFairness => Panic
  | UseCaseAware sender platform user =>
      Ok (UseCaseAwareShuffler_shuffle parse_sender parse_use_case
            {| sender_spread_factor := sender; platform_use_case_spread_factor := platform;
               user_use_case_spread_factor := user |})
  end.

(** ** The preparer *)

(** A blocking task: its panic is one of the caller. *)
Definition spawn_blocking {A} (r : result anyhow A) : result ExecutorError A :=
  match r with Ok a => Ok a | _ => Panic end.

(** The task of [prepare_block]. *)
Definition order_transactions (txn_filter : Filter) (txn_deduper : TransactionDeduperType)
    (txn_shuffler : list SignedTransaction → result anyhow (list SignedTransaction))
    (block : Block) (txns : list SignedTransaction) (max_txns_from_block_to_execute : option Z) :
    result anyhow (list SignedTransaction) :=
  let filtered_txns :=
    TransactionFilter_filter txn_filter (block_id block) (block_timestamp_usecs block) txns in
  deduped_txns ← TransactionDeduper_dedup authenticator txn_deduper filtered_txns;
  shuffled_txns ← txn_shuffler deduped_txns;
  Ok (match max_txns_from_block_to_execute with
      | Some max => take (Z.to_nat max) shuffled_txns
      | None => shuffled_txns
      end).

(** [State] is the one of the payload manager. *)
Definition prepare_block {State}
    (get_transactions : Block → SM State ExecutorError (list SignedTransaction * option Z))
    (txn_filter : Filter) (txn_deduper : TransactionDeduperType)
    (txn_shuffler : list SignedTransaction → result anyhow (list SignedTransaction))
    (block : Block) : SM State ExecutorError (list SignedTransaction) :=
  '(txns, max_txns_from_block_to_execute) ← get_transactions block;
  lift (λ _, spawn_blocking (order_transactions txn_filter txn_deduper txn_shuffler block txns
                               max_txns_from_block_to_execute)).

(** ** What it promises *)

#[export] Instance NoOpShuffler_shuffles capacity : TransactionShuffler NoOpShuffler_shuffle capacity.
Proof using Type. intros txns _. by exists txns. Qed.

(** The sizes a shuffler is configured for. *)
Definition shuffler_capacity (shuffler_type : TransactionShufflerType) (capacity : Z) : Prop :=
  match shuffler_type with
  | NoShuffling | DeprecatedSenderAwareV1 _ => True
  | SenderAwareV2 w => 0 ≤ w ≤ i64_MAX ∧ capacity ≤ i64_MAX
  | DeprecatedFairness => False
  | UseCaseAware sender platform user =>
      config_fits capacity {| sender_spread_factor := sender; platform_use_case_spread_factor := platform;
                              user_use_case_spread_factor := user |}
  end.

Hypothesis parse_sender_sender : ∀ t, parse_sender t = SignedTransaction_sender t.

Lemma create_transaction_shuffler_ok ty capacity :
  shuffler_capacity ty capacity →
  ∃ shuffle, create_transaction_shuffler ty = Ok shuffle ∧ TransactionShuffler shuffle capacity.
Proof using parse_sender_sender.
  destruct ty as [| | w | | s p u]; simpl; intros Hcap; [..|done|].
  1,2: eexists; split; [done|apply _].
  - eexists. split; [done|]. intros txns Hlen. apply SenderAwareShuffler_shuffles.
    rewrite decide_True by apply Hcap. lia.
  - eexists. split; [done|]. by apply UseCaseAwareShuffler_shuffles.
Qed.

(** The transactions that may be executed. *)
Definition allowed (txn_filter : Filter) (block : Block) (txn : SignedTransaction) : Prop :=
  filter_is_empty txn_filter = true ∨
  filter_allows txn_filter (block_id block) (block_timestamp_usecs block) txn = true.
#[export] Instance allowed_dec txn_filter block txn : Decision (allowed txn_filter block txn).
Proof using Type. unfold allowed. apply _. Defined.

Lemma TransactionFilter_filter_spec txn_filter block txns :
  TransactionFilter_filter txn_filter (block_id block) (block_timestamp_usecs block) txns =
  filter (allowed txn_filter block) txns.
Proof using Type.
  clear dependent parse_use_case Authenticator parse_sender.
  unfold TransactionFilter_filter. destruct (filter_is_empty txn_filter) eqn:He.
  - induction txns as [|t txns IH]; [done|]. rewrite filter_cons_True by (by left). by f_equal.
  - apply list_filter_iff. intros t. unfold allowed. rewrite He. naive_solver.
Qed.

Lemma hashes_ok_filter P `{∀ x, Decision (P x)} txns :
  hashes_ok authenticator txns → hashes_ok authenticator (filter P txns).
Proof using Type. intros Hok t u [_ Ht]%list_elem_of_filter [_ Hu]%list_elem_of_filter. by apply Hok. Qed.

(** What a deduper keeps of the allowed transactions. *)
Definition kept_by (txn_deduper : TransactionDeduperType) (txns : list SignedTransaction) :
    list SignedTransaction :=
  match txn_deduper with
  | NoDedup => txns
  | TxnHashAndAuthenticatorV1 => keep_first authenticator ∅ txns
  end.

Lemma kept_by_sublist txn_deduper txns : kept_by txn_deduper txns `sublist_of` txns.
Proof using Type. destruct txn_deduper; [done|apply keep_first_sublist]. Qed.

Lemma TransactionDeduper_dedup_ok txn_deduper txns :
  (txn_deduper = TxnHashAndAuthenticatorV1 → hashes_ok authenticator txns) →
  TransactionDeduper_dedup authenticator txn_deduper txns = Ok (kept_by txn_deduper txns).
Proof using Type. destruct txn_deduper; [done|]. intros Hok. by apply dedup_ok, Hok. Qed.

(** C30. A prepared block.  With any of the supported shufflers and dedupers the
    preparer returns, without panicking, transactions of the block that the
    filter allows; they are as many as the limit of the block admits, and those
    of every sender are the first ones the block has from it, in its order.  With
    the deduper by hash and authenticator - and if transactions of one hash and
    authenticator have one sender and sequence number - no two of them have the
    same hash and authenticator; without deduplication nothing is dropped for
    being a duplicate.  An error of the payload manager is returned as it is. *)
Theorem prepared_block_ok {State} get_transactions txn_filter txn_deduper ty capacity block
    (s s' : State) (r : result ExecutorError (list SignedTransaction * option Z)) :
  get_transactions block s = (s', r) →
  (∀ txns max, r = Ok (txns, max) →
    (txn_deduper = TxnHashAndAuthenticatorV1 → hashes_ok authenticator txns) ∧
    Z.of_nat (length txns) ≤ capacity) →
  shuffler_capacity ty capacity →
  ∃ shuffle, create_transaction_shuffler ty = Ok shuffle ∧
    let prepared := prepare_block get_transactions txn_filter txn_deduper shuffle block s in
    match r with
    | Ok (txns, max) =>
        let kept := kept_by txn_deduper (filter (allowed txn_filter block) txns) in
        ∃ out, prepared = (s', Ok out) ∧
          (∀ a, from_sender a out `prefix_of` from_sender a kept) ∧
          (txn_deduper = TxnHashAndAuthenticatorV1 →
           NoDup (hash_and_authenticator authenticator <$> out)) ∧
          (∀ t, t ∈ out → t ∈ txns ∧ allowed txn_filter block t) ∧
          length out = match max with
                       | Some m => Nat.min (Z.to_nat m) (length kept)
                       | None => length kept
                       end
    | Err e => prepared = (s', Err e)
    | Panic => prepared = (s', Panic)
    end.
Proof using parse_sender_sender.
  intros Hget Hr Hcap. destruct (create_transaction_shuffler_ok ty capacity Hcap) as (shuffle & Hsh & Hlaw).
  exists shuffle. split; [done|]. unfold prepare_block, mbind, SM_bind. rewrite Hget.
  destruct r as [[txns max]|e|]; [|done..]. destruct (Hr txns max eq_refl) as [Hok Hlen].
  unfold lift, order_transactions. rewrite TransactionFilter_filter_spec. cbv zeta.
  set (good := filter (allowed txn_filter block) txns).
  rewrite TransactionDeduper_dedup_ok by (intros Hd; by apply hashes_ok_filter, Hok).
  cbn [mbind result_bind]. set (kept := kept_by txn_deduper good).
  assert (kept `sublist_of` txns) as Hsub by (etrans; [apply kept_by_sublist|apply sublist_filter]).
  destruct (Hlaw kept) as (full & -> & Hk).
  { apply sublist_length in Hsub. lia. }
  cbn [mbind result_bind spawn_blocking].
  assert (full ≡ₚ kept) as Hperm by by apply keeps_sender_order_perm.
  assert (txn_deduper = TxnHashAndAuthenticatorV1 →
    NoDup (hash_and_authenticator authenticator <$> full)) as Hnd.
  { intros Hd. rewrite Hperm. unfold kept. rewrite Hd. apply keep_first_NoDup. }
  assert (∀ t, t ∈ full → t ∈ txns ∧ allowed txn_filter block t) as Hin.
  { intros t Ht. rewrite Hperm in Ht.
    eapply elem_of_submseteq in Ht; [|apply sublist_submseteq, kept_by_sublist].
    apply list_elem_of_filter in Ht. tauto. }
  destruct max as [m|]; eexists; (split; [done|]); split_and!.
  - intros a. by apply keeps_sender_order_take.
  - intros Hd. rewrite fmap_take. eapply sublist_NoDup; [by apply Hnd|apply sublist_take].
  - intros t Ht. apply Hin. eapply elem_of_submseteq; [done|apply sublist_submseteq, sublist_take].
  - by rewrite length_take, Hperm.
  - intros a. by rewrite (Hk a).
  - done.
  - done.
  - by rewrite Hperm.
Qed.
End block_preparer.
