(* ===== verification/BatchReader.v ===== *)
(** Reading batches (consensus/src/quorum_store/{batch_requester, batch_store}.rs
    and [NetworkSender::request_batch] of consensus/src/network.rs): a batch that
    the store does not have is requested from the validators that signed it, a
    few at a time, until one answers, the batch arrives on another way, or the
    retries are used up. *)
From S2P Require Import Prelude Laptos Payload Certificates Expirations BatchStore BatchStoreSafety ProofQueue.
From S2P Require Import Batches BatchMessages.

Section batch_reader.
Context `{L : Laptos} `{Q : !QuorumStoreStorage} `{!CryptoHash BatchInfo}.
Context (batch_payload_hash : AccountAddress → list SignedTransaction → HashValue).
Context (batch_payload_size : AccountAddress → list SignedTransaction → Z).
(** [NetworkId] of the laptos crate and its constant [Validator]. *)
Context {NetworkId : Type} `{EqDecision NetworkId} (ValidatorNetwork : NetworkId).

(** ** The answers of the network *)

Inductive BatchResponse : Type :=
| ResponseBatch (batch : Batch)
| NotFound (ledger_info : LedgerInfoWithSignatures).

(** The messages a request can be answered with. *)
Inductive ResponseMsg : Type :=
| BatchResponseMsg (batch : Batch)
| BatchResponseV2 (maybe_batch : BatchResponse)
| OtherMsg.

(** [NetworkSender::request_batch]; [rpc] is what the peer answered. *)
Definition network_request_batch (request_digest : HashValue) (rpc : result anyhow ResponseMsg) :
    result anyhow BatchResponse :=
  response ← rpc;
  match response with
  | BatchResponseMsg batch =>
      _ ← verify_with_digest batch_payload_hash batch_payload_size request_digest batch;
      Ok (ResponseBatch batch)
  | BatchResponseV2 maybe_batch =>
      _ ← match maybe_batch with
          | ResponseBatch batch =>
              verify_with_digest batch_payload_hash batch_payload_size request_digest batch
          | NotFound _ => Ok tt
          end;
      Ok maybe_batch
  | OtherMsg => Err "Invalid batch response"%string
  end.

(** ** The peers to ask *)

Record BatchRequesterState : Type := {
  brs_signers : list AccountAddress;
  brs_next_index : Z;
  brs_num_retries : Z;
  brs_retry_limit : Z;
}.
Definition BatchRequesterState_new (signers : list AccountAddress) (retry_limit : Z) :
    BatchRequesterState :=
  {| brs_signers := signers; brs_next_index := 0; brs_num_retries := 0;
     brs_retry_limit := retry_limit |}.

(** [iter().cycle().skip(start).take(n)]. *)
Definition cycle_from {A} (start n : nat) (l : list A) : list A :=
  omap (λ j, l !! ((start + j) mod length l)%nat) (seq 0 n).

(** [random] is the draw of the first request. *)
Definition next_request_peers (random num_peers : Z) (self : BatchRequesterState) :
    result anyhow (BatchRequesterState * option (list AccountAddress)) :=
  let len := Z.of_nat (length (brs_signers self)) in
  next_index ← if brs_num_retries self =? 0
               then (if len =? 0 then Panic else Ok (random mod len))
               else Ok (brs_next_index self);
  let with_index next_index num_retries :=
    {| brs_signers := brs_signers self; brs_next_index := next_index;
       brs_num_retries := num_retries; brs_retry_limit := brs_retry_limit self |} in
  if brs_num_retries self <? brs_retry_limit self then
    num_retries ← u64_add (brs_num_retries self) 1;
    if len <=? num_peers then Ok (with_index next_index num_retries, Some (brs_signers self))
    else
      let ret := cycle_from (Z.to_nat next_index) (Z.to_nat num_peers) (brs_signers self) in
      sum ← u64_add next_index num_peers;
      Ok (with_index (sum mod len) num_retries, Some ret)
  else Ok (with_index next_index (brs_num_retries self), None).

(** ** The request loop *)

Record BatchRequester : Type := {
  br_my_network_id : NetworkId;
  br_my_peer_id : AccountAddress;
  br_request_num_peers : Z;
  br_retry_limit : Z;
  br_validator_verifier : ValidatorVerifier;
}.

(** What the loop waits for: the retry interval, the answer of a peer, and the
    batch from the subscription to the store.  A subscription that the store
    dropped completes with an error; the loop goes on to poll it, and a tokio
    receiver panics when it is polled after completion. *)
Inductive RequesterEvent : Type :=
| Tick (random : Z)
| Response (rpc : result anyhow ResponseMsg)
| Persisted (value : PersistedValue)
| SubscriberClosed
| SubscriberRepolled.

(** A request that waits, with the number of peers that have not answered, or
    the value sent to the receiver and the batch to store. *)
Inductive RequestOutcome : Type :=
| Waiting (state : BatchRequesterState) (futures : nat)
| Served (answer : result ExecutorError (list SignedTransaction))
    (fetched : option (BatchInfo * list SignedTransaction)).

Definition serve_request (maybe_payload : option (list SignedTransaction)) :
    result ExecutorError (list SignedTransaction) :=
  match maybe_payload with Some payload => Ok payload | None => Err CouldNotGetData end.

(** A verified ledger info of the epoch beyond the expiration. *)
Definition batch_expired (self : BatchRequester) (key : BatchKey) (expiration : Z)
    (ledger_info : LedgerInfoWithSignatures) : bool :=
  let commit_info := LedgerInfo_commit_info (LedgerInfoWithSignatures_ledger_info ledger_info) in
  (BlockInfo_epoch commit_info =? bk_epoch key) &&
  (BlockInfo_timestamp_usecs commit_info >? expiration) &&
  is_ok (LedgerInfoWithSignatures_verify_signatures ledger_info (br_validator_verifier self)).

Definition request_step (self : BatchRequester) (key : BatchKey) (expiration : Z)
    (event : RequesterEvent) (state : BatchRequesterState) (futures : nat) :
    result anyhow RequestOutcome :=
  match event with
  | Tick random =>
      '(state, peers) ← next_request_peers random (br_request_num_peers self) state;
      match peers with
      | Some request_peers => Ok (Waiting state (futures + length request_peers))
      | None =>
          if bool_decide (futures = O) then Ok (Served (serve_request None) None)
          else Ok (Waiting state futures)
      end
  | Response rpc =>
      match futures with
      | O => Ok (Waiting state futures)
      | S futures =>
          match network_request_batch (bk_digest key) rpc with
          | Ok (ResponseBatch batch) =>
              let payload := bpl_txns (batch_payload batch) in
              Ok (Served (serve_request (Some payload)) (Some (batch_info batch, payload)))
          | Ok (NotFound ledger_info) =>
              if batch_expired self key expiration ledger_info
              then Ok (Served (serve_request None) None)
              else Ok (Waiting state futures)
          | Err _ => Ok (Waiting state futures)
          | Panic => Panic
          end
      end
  | Persisted value => Ok (Served (serve_request (pv_maybe_payload value)) None)
  | SubscriberClosed => Ok (Waiting state futures)
  | SubscriberRepolled => Panic
  end.

Fixpoint request_loop (self : BatchRequester) (key : BatchKey) (expiration : Z)
    (events : list RequesterEvent) (state : BatchRequesterState) (futures : nat) :
    result anyhow RequestOutcome :=
  match events with
  | [] => Ok (Waiting state futures)
  | event :: events =>
      outcome ← request_step self key expiration event state futures;
      match outcome with
      | Waiting state futures => request_loop self key expiration events state futures
      | Served answer fetched => Ok (Served answer fetched)
      end
  end.

Definition request_peers (self : BatchRequester) (signers : list AccountAddress)
    (get_available_peers : result anyhow (list (NetworkId * AccountAddress))) :
    list AccountAddress :=
  if decide (br_my_network_id self = ValidatorNetwork)
  then filter (λ peer, peer ≠ br_my_peer_id self) signers
  else match get_available_peers with
       | Ok peers => (filter (λ peer, peer.1 = br_my_network_id self) peers).*2
       | _ => []
       end.

(** [None] when there is nobody to ask: the sender is dropped. *)
Definition request_batch (self : BatchRequester) (key : BatchKey) (expiration : Z)
    (signers : list AccountAddress)
    (get_available_peers : result anyhow (list (NetworkId * AccountAddress)))
    (events : list RequesterEvent) : result anyhow (option RequestOutcome) :=
  match request_peers self signers get_available_peers with
  | [] => Ok None
  | available_peers =>
      outcome ← request_loop self key expiration events
                  (BatchRequesterState_new available_peers (br_retry_limit self)) 0;
      Ok (Some outcome)
  end.

(** ** The batch reader *)

(** What the caller's receiver gets: a value, or nothing because the sender was
    dropped; [Pending] while the request waits. *)
Inductive Answer : Type :=
| Sent (value : result ExecutorError (list SignedTransaction))
| Dropped
| Pending.

Definition store_fetched (batch_info : BatchInfo) (payload : list SignedTransaction) :
    SM BatchStore anyhow unit := λ self,
  let value := {| pv_info := batch_info; pv_maybe_payload := Some payload |} in
  match save_fetched_batch_to_db value self with
  | (self, Panic) => (self, Panic)
  | (self, _) => (_ ← persist [value]; mret tt) self
  end.

(** The task of [BatchReaderImpl::get_batch]; [receiver] names the subscription. *)
Definition get_batch (requester : BatchRequester) (key : BatchKey) (expiration : Z)
    (signers : list AccountAddress)
    (get_available_peers : result anyhow (list (NetworkId * AccountAddress)))
    (receiver : nat) (events : list RequesterEvent) : SM BatchStore anyhow Answer := λ self,
  match get_batch_from_local key self with
  | Ok value =>
      match pv_maybe_payload value with
      | Some payload => (self, Ok (Sent (Ok payload)))
      | None => (self, Panic)
      end
  | _ =>
      let self := subscribe key receiver self in
      match request_batch requester key expiration signers get_available_peers events with
      | Ok None => (self, Ok Dropped)
      | Ok (Some (Waiting _ _)) => (self, Ok Pending)
      | Ok (Some (Served answer (Some (batch_info, payload)))) =>
          (_ ← store_fetched batch_info payload; mret (Sent answer)) self
      | Ok (Some (Served answer None)) => (self, Ok (Sent answer))
      | Err e => (self, Err e)
      | Panic => (self, Panic)
      end
  end.
End batch_reader.
