(* ===== verification/BatchReaderSafety.v ===== *)
(** What the batch reader answers: transactions of the digest asked for, whatever
    the peers respond, and after a bounded number of requests that reach every
    signer. *)
From S2P Require Import Prelude Laptos Payload Expirations BatchStore BatchStoreSafety ProofQueue.
From S2P Require Import Batches BatchMessages BatchReader.

Section batch_reader_safety.
Context `{L : Laptos} `{Q : !QuorumStoreStorage} `{QL : !QuorumStoreStorageLaws Q}.
Context `{!CryptoHash BatchInfo}.
Context (batch_payload_hash : AccountAddress → list SignedTransaction → HashValue).
Context (batch_payload_size : AccountAddress → list SignedTransaction → Z).
Context {NetworkId : Type} `{EqDecision NetworkId} (ValidatorNetwork : NetworkId).

#[local] Abbreviation holds_batch := (holds_batch batch_payload_hash).

(** ** Authentic stores *)

(** A value with transactions of its digest, if it has transactions. *)
Definition authentic_value (digest : HashValue) (v : PersistedValue) : Prop :=
  bi_digest (pv_info v) = digest ∧
  ∀ txns, pv_maybe_payload v = Some txns → batch_payload_hash (author_of v) txns = digest.

Definition authentic_db (db : QuorumStoreDB) : Prop :=
  ∀ key v, db_get_batch key db = Ok (Some v) → holds_batch key v.
Definition authentic (self : BatchStore) : Prop :=
  (∀ d v, bst_db_cache self !! d = Some v → authentic_value d v) ∧ authentic_db (bst_db self).

Lemma holds_batch_authentic key v :
  holds_batch key v → bi_digest (pv_info v) = bk_digest key → authentic_value (bk_digest key) v.
Proof using Type. intros (txns & Hp & Hh) Hd. split; [done|]. intros txns' Hp'. congruence. Qed.

Lemma authentic_db_save v db db' r :
  authentic_db db → holds_batch (pv_key v) v → save_batch v db = (db', r) → authentic_db db'.
Proof using QL.
  intros Hdb Hv Hs key w Hw. destruct (decide (r = Ok tt)) as [->|Hr].
  - destruct (decide (key = pv_key v)) as [->|Hne].
    + rewrite (get_save_batch v db db' Hs) in Hw. by injection Hw as <-.
    + rewrite (get_save_batch_ne v db db') in Hw by done. by apply Hdb.
  - rewrite (get_save_batch_failed v db db' r) in Hw by done. by apply Hdb.
Qed.

(** An insertion changes at most the entry of the digest. *)
Lemma insert_entry_frame v self self' r :
  insert_entry v self = (self', r) →
  bst_db self' = bst_db self ∧
  (bst_db_cache self' = bst_db_cache self ∨
   ∃ stored, bst_db_cache self' = <[bi_digest (pv_info v) := stored]> (bst_db_cache self) ∧
     pv_info stored = pv_info v ∧
     (pv_maybe_payload stored = None ∨ pv_maybe_payload stored = pv_maybe_payload v)).
Proof using Type.
  unfold insert_entry. intros Hi. repeat case_match; simplify_eq; simpl; (split; [done|]);
    (by left) || (right; eexists; split_and!; [done|done|by eauto]).
Qed.

Lemma authentic_insert v self self' r :
  authentic self → holds_batch (pv_key v) v → insert_entry v self = (self', r) → authentic self'.
Proof using Type.
  intros [Hc Hdb] Hv (Hdb' & [Hc'|(stored & Hc' & Hinfo & Hpay)])%insert_entry_frame.
  - split; [by rewrite Hc'|by rewrite Hdb'].
  - split; [|by rewrite Hdb']. intros d w. rewrite Hc', lookup_insert_Some.
    intros [[<- <-]|[_ Hw]]; [|by apply Hc].
    destruct Hv as (txns & Hp & Hh). split; [by rewrite Hinfo|]. intros txns' Ht.
    unfold author_of. rewrite Hinfo. destruct Hpay as [Hn|Hn]; [congruence|].
    rewrite Hn, Hp in Ht. by injection Ht as <-.
Qed.

(** The parts of the state that do not matter. *)
Lemma authentic_frame self self' :
  bst_db_cache self' = bst_db_cache self → bst_db self' = bst_db self →
  authentic self → authentic self'.
Proof using Type. intros Hc Hdb [H1 H2]. split; [by rewrite Hc|by rewrite Hdb]. Qed.

Lemma authentic_persist_inner v self self' r :
  authentic self → holds_batch (pv_key v) v → persist_inner v self = (self', r) → authentic self'.
Proof using QL.
  intros Hauth Hv. unfold persist_inner, save, insert_to_cache, mbind, SM_bind, modify, mret, SM_ret.
  destruct (_ >? _); [|by intros [= <- _]].
  destruct (insert_entry v self) as [self1 [[|]|e|]] eqn:Hi; simpl;
    pose proof (authentic_insert _ _ _ _ Hauth Hv Hi) as Hauth1.
  - destruct (save_batch v (bst_db self1)) as [db r'] eqn:Hs.
    assert (authentic_db db) as Hdb by (eapply authentic_db_save; [apply Hauth1|done..]).
    destruct r' as [[]|e|]; intros [= <- _]; split; simpl; done || apply Hauth1.
  - by intros [= <- _].
  - by intros [= <- _].
  - by intros [= <- _].
Qed.

Lemma authentic_persist_all reqs : ∀ self self' r,
  authentic self → Forall (λ v, holds_batch (pv_key v) v) reqs →
  persist_all reqs self = (self', r) → authentic self'.
Proof using QL.
  induction reqs as [|v reqs IH]; intros self self' r Hauth Hv; simpl; [by intros [= <- _]|].
  apply Forall_cons in Hv as [Hv Hreqs]. unfold mbind, SM_bind, mret, SM_ret.
  destruct (persist_inner v self) as [self1 [signed|e|]] eqn:Hp;
    pose proof (authentic_persist_inner _ _ _ _ Hauth Hv Hp) as Hauth1; [|by intros [= <- _]..].
  destruct (persist_all reqs self1) as [self2 [res|e|]] eqn:Hp2; intros [= <- _];
    by eapply IH.
Qed.

Lemma authentic_persist reqs self self' r :
  authentic self → Forall (λ v, holds_batch (pv_key v) v) reqs →
  persist reqs self = (self', r) → authentic self'.
Proof using QL.
  intros Hauth Hreqs. unfold persist, mbind, SM_bind, modify, mret, SM_ret.
  destruct (persist_all reqs self) as [self1 [rs|e|]] eqn:Hp;
    pose proof (authentic_persist_all _ _ _ _ Hauth Hreqs Hp) as Hauth1; [|by intros [= <- _]..].
  destruct (notify_all_frame rs self1) as (subscribers & sent & ->). intros [= <- _].
  by eapply authentic_frame; [..|exact Hauth1].
Qed.

Lemma authentic_subscribe key receiver self : authentic self → authentic (subscribe key receiver self).
Proof using Type.
  intros Hauth. unfold subscribe. case_match; [|by eapply authentic_frame; [..|exact Hauth]..].
  edestruct notify_frame as (subscribers & sent & ->). by eapply authentic_frame; [..|exact Hauth].
Qed.

Lemma authentic_clear time h self self' :
  authentic self → clear_expired time self h = Ok self' → authentic self'.
Proof using Type.
  intros [Hc Hdb]. unfold clear_expired. destruct (bst_db_cache self !! h) as [v|]; [|done].
  case_match; [|intros [= <-]; by split]. intros (quota & _ & [= <-])%Ok_bind. split; simpl; [|done].
  intros d w [_ Hw]%lookup_delete_Some. by apply Hc.
Qed.

Lemma authentic_certified time self self' :
  authentic self → update_certified_timestamp time self = Ok self' → authentic self'.
Proof using Type.
  intros Hauth. unfold update_certified_timestamp. case_match; [|done]. unfold clear_expired_payload.
  destruct (expire _ _) as [rest expired]. generalize (elements expired). intros l.
  match goal with |- fold_result _ ?s _ = _ → _ => assert (authentic s) as Hs by (by destruct Hauth) end.
  revert Hs. match goal with |- authentic ?s → _ => generalize s end.
  induction l as [|h l IH]; intros s Hs; simpl; [by intros [= <-]|].
  intros (s1 & Hs1 & Hl)%Ok_bind. eapply IH; [|done]. by eapply authentic_clear.
Qed.

Lemma local_authentic key self v :
  authentic self → get_batch_from_local key self = Ok v → holds_batch key v.
Proof using Type.
  intros [Hc Hdb]. unfold get_batch_from_local.
  assert (∀ w, get_batch_from_db key self = Ok w → holds_batch key w) as Hfrom.
  { intros w. unfold get_batch_from_db. destruct (db_get_batch key (bst_db self)) as [[w'|]|e|] eqn:Hg;
      [|done..]. intros [= <-]. by apply Hdb. }
  destruct (bst_db_cache self !! bk_digest key) as [w|] eqn:Hw; [|apply Hfrom].
  unfold payload_storage_mode. destruct (pv_maybe_payload w) as [txns|] eqn:Hp; [|apply Hfrom].
  intros [= <-]. exists txns. split; [done|]. by apply (Hc _ _ Hw).
Qed.

(** ** Answers *)

#[local] Abbreviation network_answer := (network_request_batch batch_payload_hash batch_payload_size).
#[local] Abbreviation wait_loop := (request_loop (NetworkId := NetworkId) batch_payload_hash batch_payload_size).
#[local] Abbreviation wait_step := (request_step (NetworkId := NetworkId) batch_payload_hash batch_payload_size).
#[local] Abbreviation read_batch :=
  (get_batch batch_payload_hash batch_payload_size ValidatorNetwork).

Lemma response_authentic digest rpc b :
  network_answer digest rpc = Ok (ResponseBatch b) →
  bi_digest (batch_info b) = digest ∧
  batch_payload_hash (bi_author (batch_info b)) (bpl_txns (batch_payload b)) = digest.
Proof using Type.
  assert (∀ b, verify_with_digest batch_payload_hash batch_payload_size digest b = Ok tt →
    bi_digest (batch_info b) = digest ∧
    batch_payload_hash (bi_author (batch_info b)) (bpl_txns (batch_payload b)) = digest) as Hv.
  { intros b'. unfold verify_with_digest.
    intros (? & ->%Ok_ensure%bool_decide_eq_true & Hb)%Ok_bind.
    by apply Batch_verify_Ok in Hb as (_ & Hb & _). }
  unfold BatchReader.network_request_batch. intros (msg & _ & Hmsg)%Ok_bind.
  destruct msg as [b'|[b'|li]|]; [| | |done].
  - apply Ok_bind in Hmsg as ([] & Hb & [= <-]). by apply Hv.
  - apply Ok_bind in Hmsg as ([] & Hb & [= <-]). by apply Hv.
  - by apply Ok_bind in Hmsg as (? & _ & [=]).
Qed.

(** The subscription sends batches of its key. *)
Definition event_ok (key : BatchKey) (e : RequesterEvent) : Prop :=
  match e with Persisted v => holds_batch key v | _ => True end.

(** What a request sends, and what it hands to the store. *)
Definition outcome_ok (key : BatchKey) (o : RequestOutcome) : Prop :=
  match o with
  | Waiting _ _ => True
  | Served answer fetched =>
      (∀ txns, answer = Ok txns → ∃ author, batch_payload_hash author txns = bk_digest key) ∧
      (∀ info payload, fetched = Some (info, payload) →
        bi_digest info = bk_digest key ∧ batch_payload_hash (bi_author info) payload = bk_digest key)
  end.

Lemma request_step_authentic self key expiration e state futures o :
  event_ok key e → wait_step self key expiration e state futures = Ok o → outcome_ok key o.
Proof using Type.
  intros He. destruct e as [random|rpc|v| |]; simpl.
  - intros ([st [peers|]] & _ & Ho)%Ok_bind; [by injection Ho as <-|].
    case_bool_decide; by injection Ho as <-.
  - destruct futures as [|futures]; [by intros [= <-]|].
    destruct (network_answer (bk_digest key) rpc) as [[b|li]|e|] eqn:Hr; [| |by intros [= <-]|done].
    + intros [= <-]. apply response_authentic in Hr as [Hd Hh]. split.
      * intros txns [= <-]. by eexists.
      * by intros info payload [= <- <-].
    + case_match; by intros [= <-].
  - intros [= <-]. destruct He as (txns & Hp & Hh). rewrite Hp. split; [|done].
    intros txns' [= <-]. by eexists.
  - by intros [= <-].
  - done.
Qed.

Lemma request_loop_authentic self key expiration events : ∀ state futures o,
  Forall (event_ok key) events →
  wait_loop self key expiration events state futures = Ok o → outcome_ok key o.
Proof using Type.
  induction events as [|e events IH]; intros state futures o Hev; simpl; [by intros [= <-]|].
  apply Forall_cons in Hev as [He Hev]. intros (o1 & Ho1 & Ho)%Ok_bind.
  apply request_step_authentic in Ho1; [|done].
  destruct o1 as [st f|answer fetched]; [by eapply IH|]. by injection Ho as <-.
Qed.

Lemma request_batch_authentic self key expiration signers peers events o :
  Forall (event_ok key) events →
  request_batch batch_payload_hash batch_payload_size ValidatorNetwork self key expiration signers
    peers events = Ok (Some o) → outcome_ok key o.
Proof using Type.
  intros Hev. unfold request_batch. destruct (request_peers _ _ _); [done|].
  intros (o' & Ho' & [= <-])%Ok_bind. by eapply request_loop_authentic.
Qed.

Lemma authentic_store_fetched info payload self self' r :
  authentic self → batch_payload_hash (bi_author info) payload = bi_digest info →
  store_fetched info payload self = (self', r) → authentic self'.
Proof using QL.
  intros Hauth Hh. unfold store_fetched. set (v := {| pv_info := info; pv_maybe_payload := Some payload |}).
  assert (holds_batch (pv_key v) v) as Hv by (by exists payload).
  destruct (save_fetched_batch_to_db v self) as [self1 r1] eqn:Hs.
  assert (authentic self1) as Hauth1.
  { unfold save_fetched_batch_to_db in Hs. destruct (save_batch v (bst_db self)) as [db r'] eqn:Hs'.
    injection Hs as <- _. split; [apply Hauth|]. simpl. eapply authentic_db_save; [apply Hauth|done..]. }
  unfold mbind, SM_bind, mret, SM_ret. destruct (persist [v] self1) as [self2 r2] eqn:Hp.
  apply authentic_persist in Hp; [|done|by constructor].
  destruct r1 as [[]|e|], r2 as [[]|e2|]; by intros [= <- _].
Qed.

Lemma get_batch_authentic requester key expiration signers peers receiver events self self' r :
  authentic self → Forall (event_ok key) events →
  read_batch requester key expiration signers peers receiver events self = (self', r) →
  authentic self' ∧
  ∀ txns, r = Ok (Sent (Ok txns)) → ∃ author, batch_payload_hash author txns = bk_digest key.
Proof using QL.
  intros Hauth Hev. unfold BatchReader.get_batch.
  destruct (get_batch_from_local key self) as [v|e|] eqn:Hlocal.
  { destruct (local_authentic _ _ _ Hauth Hlocal) as (txns & -> & Hh). intros [= <- <-].
    split; [done|]. intros txns' [= <-]. by eexists. }
  all: pose proof (authentic_subscribe key receiver self Hauth) as Hauth1.
  all: destruct (request_batch _ _ _ _ _ _ _ _ _) as [[[st f|answer [[info payload]|]]|]|e'|] eqn:Hreq;
    try (intros [= <- <-]; split; [done|]; try done).
  all: apply request_batch_authentic in Hreq as [Ha Hf]; [|done].
  all: try (intros txns [= ->]; by apply Ha).
  all: destruct (Hf info payload eq_refl) as [Hd Hh].
  all: unfold mbind, SM_bind, mret, SM_ret.
  all: destruct (store_fetched info payload _) as [self2 r2] eqn:Hs.
  all: apply authentic_store_fetched in Hs; [|done|congruence].
  all: destruct r2 as [[]|e2|]; intros [= <- <-]; (split; [done|]); [|done..].
  all: intros txns [= ->]; by apply Ha.
Qed.

(** ** The requests *)

(** Whom the first requests ask. *)
Fixpoint asked_peers (num_peers : Z) (randoms : list Z) (state : BatchRequesterState) :
    result anyhow (list AccountAddress) :=
  match randoms with
  | [] => Ok []
  | random :: randoms =>
      '(state, peers) ← next_request_peers random num_peers state;
      rest ← asked_peers num_peers randoms state;
      Ok (default [] peers ++ rest)
  end.

Lemma elem_of_cycle_from {A} (l : list A) start n j x :
  (j < n)%nat → l !! ((start + j) mod length l)%nat = Some x → x ∈ cycle_from start n l.
Proof using Type.
  clear. intros Hj Hx. apply list_elem_of_omap. exists j. split; [|done]. apply elem_of_seq. lia.
Qed.

(** The state after some requests asks where it stopped. *)
Definition asking_at (signers : list AccountAddress) (limit i : nat) (done : nat)
    (state : BatchRequesterState) : Prop :=
  brs_signers state = signers ∧ brs_retry_limit state = Z.of_nat limit ∧
  brs_num_retries state = Z.of_nat done ∧ (done = O ∨ brs_next_index state = Z.of_nat i).

Section asking.
Context (signers : list AccountAddress) (limit n : nat).
Hypothesis Hne : signers ≠ [].
Hypothesis Hlimit : Z.of_nat limit ≤ u64_MAX.
Hypothesis Hlen : 2 * Z.of_nat (length signers) ≤ u64_MAX.

Lemma next_request_ok i done state random :
  asking_at signers limit i done state → (i < length signers)%nat → (done < limit)%nat →
  ∃ start i' state' peers, (done ≠ O → start = i) ∧
    next_request_peers random (Z.of_nat n) state = Ok (state', Some peers) ∧
    asking_at signers limit i' (S done) state' ∧ (i' < length signers)%nat ∧
    (if decide (length signers ≤ n)%nat then peers = signers
     else i' = ((start + n) mod length signers)%nat ∧ peers = cycle_from start n signers).
Proof using Hne Hlimit Hlen.
  intros (Hs & Hlim & Hnum & Hidx) Hi Hdone.
  set (start := if decide (done = O) then Z.to_nat (random mod Z.of_nat (length signers)) else i).
  assert (start < length signers)%nat as Hstart.
  { unfold start. case_decide; [|done]. pose proof (Z.mod_pos_bound random (Z.of_nat (length signers))). lia. }
  assert (done ≠ O → start = i) as Hsi by (intros Hd; unfold start; by rewrite decide_False).
  unfold next_request_peers. rewrite Hs, Hlim, Hnum.
  assert ((if Z.of_nat done =? 0
           then if Z.of_nat (length signers) =? 0 then Panic else Ok (random mod Z.of_nat (length signers))
           else Ok (brs_next_index state)) = Ok (E:=anyhow) (Z.of_nat start)) as ->.
  { unfold start. case_decide as Hd.
    - subst done. simpl. rewrite (proj2 (Z.eqb_neq _ 0)) by lia.
      rewrite Z2Nat.id; [done|]. apply Z.mod_pos_bound. lia.
    - rewrite (proj2 (Z.eqb_neq _ 0)) by lia. destruct Hidx as [|Hidx]; [done|]. by rewrite Hidx. }
  cbn [mbind result_bind]. rewrite (proj2 (Z.ltb_lt _ _)) by lia.
  rewrite (u64_add_le (Z.of_nat done)) by lia. cbn [mbind result_bind]. exists start.
  destruct (Z.leb_spec (Z.of_nat (length signers)) (Z.of_nat n)) as [Hle|Hgt].
  - exists start. do 2 eexists. split_and!; [done|done| |done|by rewrite decide_True by lia].
    split_and!; simpl; try done; [lia|by right].
  - rewrite (u64_add_le (Z.of_nat start)) by lia. cbn [mbind result_bind]. rewrite !Nat2Z.id.
    exists ((start + n) mod length signers)%nat. do 2 eexists.
    split_and!; [done|done| |apply Nat.mod_upper_bound; lia|by rewrite decide_False by lia].
    split_and!; simpl; try done; [lia|right]. by rewrite Nat2Z.inj_mod, Nat2Z.inj_add.
Qed.

(** Each request goes on where the one before stopped. *)
Lemma asked_from randoms : ∀ i done state,
  asking_at signers limit i done state → (i < length signers)%nat →
  (0 < done)%nat → (done + length randoms ≤ limit)%nat →
  ∃ asked, asked_peers (Z.of_nat n) randoms state = Ok asked ∧
    ∀ m x, (n < length signers)%nat → (m < length randoms * n)%nat →
      signers !! ((i + m) mod length signers)%nat = Some x → x ∈ asked.
Proof using Hne Hlimit Hlen.
  induction randoms as [|random randoms IH]; intros i done state Hst Hi Hpos Hdone; simpl in *.
  { exists []. split; [done|lia]. }
  destruct (next_request_ok i done state random Hst Hi) as
    (start & i' & state' & peers & Hstart & -> & Hst' & Hi' & Hcase); [lia|].
  rewrite Hstart in * by lia.
  cbn [mbind result_bind]. destruct (IH _ _ state' Hst' Hi') as (asked & -> & Hasked); [lia..|].
  eexists. split; [done|]. intros m x Hn Hm Hx. simpl. apply elem_of_app.
  rewrite decide_False in Hcase by lia. destruct Hcase as [-> ->].
  destruct (decide (m < n)%nat) as [Hlt|Hge].
  - left. by eapply elem_of_cycle_from.
  - right. apply (Hasked (m - n)%nat); [done|lia|]. rewrite Nat.Div0.add_mod_idemp_l.
    by replace (i + n + (m - n))%nat with (i + m)%nat by lia.
Qed.

Lemma asked_all randoms :
  length randoms = limit → (0 < limit)%nat → (length signers ≤ n * limit)%nat →
  ∃ asked, asked_peers (Z.of_nat n) randoms (BatchRequesterState_new signers (Z.of_nat limit)) = Ok asked ∧
    ∀ x, x ∈ signers → x ∈ asked.
Proof using Hne Hlimit Hlen.
  intros Hr Hpos Hcover. assert (0 < length signers)%nat as Hl by (destruct signers; [done|simpl; lia]).
  destruct randoms as [|random randoms]; [simpl in Hr; lia|]. simpl in Hr.
  destruct (next_request_ok 0 0 (BatchRequesterState_new signers (Z.of_nat limit)) random) as
    (start & i' & state' & peers & _ & Hnext & Hst' & Hi' & Hcase); [|done|done|].
  { split_and!; try done. by left. }
  destruct (asked_from randoms i' 1 state' Hst' Hi') as (asked & Hasked & Hin); [lia..|].
  simpl. rewrite Hnext. cbn [mbind result_bind]. rewrite Hasked. cbn [mbind result_bind].
  eexists. split; [done|]. intros x Hx. simpl. apply elem_of_app.
  case_decide as Hn; [left; by subst peers|]. destruct Hcase as [-> ->].
  apply list_elem_of_lookup in Hx as [p Hp]. pose proof (lookup_lt_Some _ _ _ Hp) as Hplt.
  set (m := ((p + (length signers - start mod length signers)) mod length signers)%nat).
  assert (signers !! ((start + m) mod length signers)%nat = Some x) as Hm.
  { unfold m. rewrite Nat.Div0.add_mod_idemp_r.
    pose proof (Nat.mod_upper_bound start (length signers)).
    replace (start + (p + (length signers - start mod length signers)))%nat
      with (p + (start / length signers + 1) * length signers)%nat
      by (pose proof (Nat.div_mod_eq start (length signers)); nia).
    by rewrite Nat.Div0.mod_add, Nat.mod_small. }
  assert (m < length signers)%nat as Hmlt by (apply Nat.mod_upper_bound; lia).
  destruct (decide (m < n)%nat) as [Hlt|Hge].
  - left. by eapply elem_of_cycle_from.
  - right. apply (Hin (m - n)%nat); [lia|nia|]. rewrite Nat.Div0.add_mod_idemp_l.
    by replace (start + n + (m - n))%nat with (start + m)%nat by lia.
Qed.

Lemma verify_all_no_panic {A} (f : A → result anyhow unit) l :
  (∀ x, f x ≠ Panic) → verify_all f l ≠ Panic.
Proof using Type. clear. intros Hf. induction l as [|x l IH]; simpl; [done|]. by apply bind_no_panic. Qed.

Lemma network_request_no_panic digest rpc : rpc ≠ Panic → network_answer digest rpc ≠ Panic.
Proof using Type.
  clear Hne Hlimit Hlen. intros Hrpc.
  assert (∀ b, verify_with_digest batch_payload_hash batch_payload_size digest b ≠ Panic) as Hv.
  { intros b. unfold verify_with_digest, Batch_verify. no_panic. apply verify_all_no_panic.
    intros t. apply ensure_no_panic. }
  unfold BatchReader.network_request_batch. apply bind_no_panic; [done|].
  intros [b|[b|li]|] _; [by apply bind_no_panic..|done].
Qed.

(** The loop counts its requests and never fails by itself. *)
Definition is_tick (e : RequesterEvent) : Prop := if e is Tick _ then True else False.
#[export] Instance is_tick_dec e : Decision (is_tick e).
Proof using Type. destruct e; apply _. Defined.
Definition ticks (events : list RequesterEvent) : nat := length (filter is_tick events).
(** Requests to peers return, and the store keeps the subscription. *)
Definition rpc_returns (e : RequesterEvent) : Prop :=
  e ≠ Response Panic ∧ e ≠ SubscriberRepolled.

Definition loop_inv (done : nat) (state : BatchRequesterState) : Prop :=
  ∃ i, asking_at signers limit i done state ∧ (i < length signers)%nat ∧ (done ≤ limit)%nat.

Lemma next_request_none done state random :
  loop_inv done state → done = limit → (0 < limit)%nat →
  next_request_peers random (Z.of_nat n) state = Ok (state, None).
Proof using Type.
  intros (i & (Hs & Hlim & Hnum & Hidx) & Hi & Hdone) -> Hpos. unfold next_request_peers.
  rewrite Hs, Hlim, Hnum, (proj2 (Z.eqb_neq _ 0)) by lia. cbn [mbind result_bind].
  rewrite Z.ltb_irrefl. destruct state. simpl in *. by subst.
Qed.

Lemma request_step_returns self key expiration e state futures done :
  br_request_num_peers self = Z.of_nat n → (0 < limit)%nat → rpc_returns e → loop_inv done state →
  ∃ o, wait_step self key expiration e state futures = Ok o ∧
    match o with
    | Waiting state' futures' =>
        loop_inv (if decide (is_tick e) then Nat.min limit (S done) else done) state'
    | Served _ _ => True
    end.
Proof using Hne Hlimit Hlen.
  intros Hnum Hpos He Hinv. destruct e as [random|rpc|v| |]; simpl.
  - rewrite Hnum. destruct Hinv as (i & Hst & Hi & Hdone). destruct (decide (done = limit)) as [->|Hlt].
    + rewrite (next_request_none limit state random); [|by exists i|done|done]. cbn [mbind result_bind].
      case_bool_decide; eexists; (split; [done|]); [done|]. exists i. split_and!; [|done|lia].
      by rewrite Nat.min_l by lia.
    + destruct (next_request_ok i done state random Hst Hi) as
        (start & i' & state' & peers & _ & -> & Hst' & Hi' & _); [lia|]. cbn [mbind result_bind].
      eexists. split; [done|]. exists i'. rewrite Nat.min_r by lia. split_and!; [done|done|lia].
  - destruct futures as [|futures]; [by eexists|].
    assert (network_answer (bk_digest key) rpc ≠ Panic) as Hnp.
    { apply network_request_no_panic. intros ->. by destruct He. }
    destruct (network_answer (bk_digest key) rpc) as [[b|li]|e|]; [by eexists| |by eexists|done].
    case_match; by eexists.
  - by eexists.
  - by eexists.
  - by destruct He as [_ []].
Qed.

Lemma request_loop_returns self key expiration events : ∀ state futures done,
  br_request_num_peers self = Z.of_nat n → (0 < limit)%nat → Forall rpc_returns events →
  loop_inv done state →
  ∃ o, wait_loop self key expiration events state futures = Ok o ∧
    match o with
    | Waiting state' _ => loop_inv (Nat.min limit (done + ticks events)) state'
    | Served _ _ => True
    end.
Proof using Hne Hlimit Hlen.
  induction events as [|e events IH]; intros state futures done Hnum Hpos Hev Hinv; simpl.
  { eexists. split; [done|]. unfold ticks. simpl. rewrite Nat.add_0_r.
    rewrite Nat.min_r; [done|]. destruct Hinv as (? & _ & _ & ?). done. }
  apply Forall_cons in Hev as [He Hev].
  destruct (request_step_returns self key expiration e state futures done Hnum Hpos He Hinv)
    as ([state' futures'|answer fetched] & -> & Ho); cbn [mbind result_bind]; [|by eexists].
  destruct (IH state' futures' _ Hnum Hpos Hev Ho) as (o & -> & Hstate). exists o. split; [done|].
  destruct o as [st f|]; [|done]. unfold ticks in *. rewrite filter_cons. case_decide; simpl.
  - replace (Nat.min limit (done + S (length (filter is_tick events))))%nat with
      (Nat.min limit (Nat.min limit (S done) + length (filter is_tick events)))%nat by lia. done.
  - done.
Qed.
End asking.

Lemma request_loop_app self key expiration events e : ∀ state futures state' futures',
  wait_loop self key expiration events state futures = Ok (Waiting state' futures') →
  wait_loop self key expiration (events ++ [e]) state futures =
  (o ← wait_step self key expiration e state' futures'; Ok o).
Proof using Type.
  induction events as [|e' events IH]; intros state futures state' futures'; simpl.
  - intros [= -> ->]. destruct (wait_step _ _ _ _ _ _) as [[]|e'|]; done.
  - intros (o & -> & Ho)%Ok_bind. cbn [mbind result_bind]. destruct o as [st f|]; [|done]. by apply IH.
Qed.

(** C29. A request ends.  With at least one peer to ask, and unless the store drops
    the subscription, the request for a batch never panics, whatever the peers
    answer; once the retries are used up and
    every peer asked has answered, the next tick tells the caller that the batch
    is not available; and when the retries suffice for it, every available
    signer has been asked by then, whichever peer the first draw selects. *)
Theorem batch_request_ends self key expiration signers peers events limit n :
  let available := request_peers ValidatorNetwork self signers peers in
  available ≠ [] → br_request_num_peers self = Z.of_nat n → br_retry_limit self = Z.of_nat limit →
  (0 < limit)%nat → Z.of_nat limit ≤ u64_MAX → 2 * Z.of_nat (length available) ≤ u64_MAX →
  Forall rpc_returns events →
  let request := request_batch batch_payload_hash batch_payload_size ValidatorNetwork self key
                   expiration signers peers in
  (∃ o, request events = Ok (Some o)) ∧
  (∀ state random, request events = Ok (Some (Waiting state 0)) → (limit ≤ ticks events)%nat →
    request (events ++ [Tick random]) = Ok (Some (Served (Err CouldNotGetData) None))) ∧
  (∀ randoms, length randoms = limit → (length available ≤ n * limit)%nat →
    ∃ asked, asked_peers (Z.of_nat n) randoms
        (BatchRequesterState_new available (Z.of_nat limit)) = Ok asked ∧
      ∀ x, x ∈ available → x ∈ asked).
Proof using Type.
  intros available Hne Hnum Hlim Hpos Hmax Hlen Hev request.
  assert (loop_inv available limit 0 (BatchRequesterState_new available (Z.of_nat limit))) as Hinv.
  { exists O. split_and!; [split_and!; [done..|by left]| |lia]. destruct available; [done|simpl; lia]. }
  assert (∀ evs, request evs = (o ← wait_loop self key expiration evs
    (BatchRequesterState_new available (Z.of_nat limit)) 0; Ok (Some o))) as Hreq.
  { intros evs. unfold request, request_batch. fold available. rewrite Hlim.
    destruct available; done. }
  destruct (request_loop_returns available limit n Hne Hmax Hlen self key expiration events _ 0 _
    Hnum Hpos Hev Hinv) as (o & Ho & Hstate). split_and!.
  - exists o. by rewrite Hreq, Ho.
  - intros state random. rewrite !Hreq, Ho. intros [= ->] Hticks.
    rewrite (request_loop_app _ _ _ _ _ _ _ _ _ Ho). simpl. rewrite Hnum.
    rewrite (next_request_none available limit n limit state random); [done| |done|done].
    replace limit with (Nat.min limit (0 + ticks events)) at 2 by lia. done.
  - intros randoms Hr Hcover. by apply asked_all.
Qed.

(** The calls a store and its readers make, with whatever the network answers:
    verified batches are persisted, certified times come, batches are read. *)
Inductive reader_history : BatchStore → Prop :=
| ReaderNew epoch time db memory_quota db_quota batch_quota signer :
    authentic_db db →
    reader_history (BatchStore_new epoch time db memory_quota db_quota batch_quota signer)
| ReaderPersist self reqs self' r :
    reader_history self → Forall (λ v, holds_batch (pv_key v) v) reqs →
    persist reqs self = (self', r) → reader_history self'
| ReaderCertified self time self' :
    reader_history self → update_certified_timestamp time self = Ok self' → reader_history self'
| ReaderRead requester key expiration signers peers receiver events self self' r :
    reader_history self → Forall (event_ok key) events →
    read_batch requester key expiration signers peers receiver events self = (self', r) →
    reader_history self'.

Lemma reader_history_authentic self : reader_history self → authentic self.
Proof using QL.
  induction 1.
  - by split.
  - by eapply authentic_persist.
  - by eapply authentic_certified.
  - by eapply get_batch_authentic.
Qed.

(** C28. Batches read are the batches asked for.  Over any history of a store and
    its readers, whatever the peers that are asked respond, the transactions
    sent to the caller of [read_batch] have the digest of the key, and what is
    fetched this way leaves the store so that every later local read, under any
    key, gives transactions of its digest. *)
Theorem batch_answers_authentic requester key expiration signers peers receiver events self self' r :
  reader_history self → Forall (event_ok key) events →
  read_batch requester key expiration signers peers receiver events self = (self', r) →
  (∀ txns, r = Ok (Sent (Ok txns)) → ∃ author, batch_payload_hash author txns = bk_digest key) ∧
  (∀ key' v, get_batch_from_local key' self' = Ok v → holds_batch key' v).
Proof using QL.
  intros Hauth%reader_history_authentic Hev Hget.
  destruct (get_batch_authentic _ _ _ _ _ _ _ _ _ _ Hauth Hev Hget) as [Hauth' Hr].
  split; [done|]. intros key' v. by apply local_authentic.
Qed.

(** ** Forged information *)

Lemma missing_after_save key v db :
  db_get_batch key db = Ok None → key ≠ pv_key v → (save_batch v db).2 = Ok tt →
  db_get_batch key (save_batch v db).1 = Ok None.
Proof using QL.
  intros Hnone Hne Hs. destruct (save_batch v db) as [db' r] eqn:Hv. simpl in *. subst r.
  by rewrite (get_save_batch_ne v db db').
Qed.

(** A batch that comes too large for the memory quota is stored without its
    transactions. *)
Lemma store_fetched_metadata fetched signed self forged key :
  let info := batch_info forged in
  let v := PersistedValue_from forged in
  store_history batch_payload_hash fetched signed self → fetched_ok batch_payload_hash v →
  bst_db_cache self !! bi_digest info = None → bst_last_certified_time self < bi_expiration info →
  has_room self v (bst_db_cache self) → memory_full self v (bst_db_cache self) →
  (∀ v db, (save_batch v db).2 = Ok tt) →
  key ≠ pv_key v → db_get_batch key (bst_db self) = Ok None →
  ∃ self' stored, store_fetched info (bpl_txns (batch_payload forged)) self = (self', Ok tt) ∧
    same_config self self' ∧ bst_db_cache self' !! bi_digest info = Some stored ∧
    pv_info stored = info ∧ pv_maybe_payload stored = None ∧
    db_get_batch key (bst_db self') = Ok None.
Proof using QL.
  intros info v Hh Hv Hnone Hexp Hroom Hfull Hw Hne Hdb.
  destruct (store_history_inv _ _ _ _ Hh) as (Hinv & _). unfold store_fetched.
  change {| pv_info := info; pv_maybe_payload := _ |} with v. unfold save_fetched_batch_to_db.
  pose proof (missing_after_save key v (bst_db self) Hdb Hne (Hw _ _)) as Hdb1.
  pose proof (Hw v (bst_db self)) as Hok. destruct (save_batch v (bst_db self)) as [db1 r1].
  simpl in Hok, Hdb1. subst r1. cbn [map_err]. set (self0 := with_db db1 _ _ self).
  assert (cache_inv batch_payload_hash [] self0) as Hinv0 by by apply cache_inv_with_db.
  unfold persist, persist_all, persist_inner, mbind, SM_bind, modify, mret, SM_ret.
  pose proof (save_ok batch_payload_hash self0 v Hinv0 Hv) as Hsave.
  pose proof (save_config v self0) as Hconf. cbv zeta in Hsave.
  destruct (save v self0) as [self1 [[|]|e|]]; [| | |done].
  2: { destruct Hsave as [_ [w Hw']].
       change (bst_db_cache self !! bi_digest info = Some w) in Hw'. congruence. }
  2: { destruct Hsave as (_ & _ & _ & _ & [Hle|?]); [|done].
       change (bi_expiration info ≤ bst_last_certified_time self) in Hle. lia. }
  destruct Hsave as (_ & Hdbs & _ & stored & Hcache & Hinfo & _ & Hpay). rewrite Hdbs.
  change (bst_db self0) with db1. pose proof (missing_after_save key v db1 Hdb1 Hne (Hw _ _)) as Hdb2.
  pose proof (Hw v db1) as Hok2. destruct (save_batch v db1) as [db2 r2]. simpl in Hok2, Hdb2. subst r2.
  cbv beta iota zeta. edestruct notify_all_frame as (subscribers & sent & ->).
  eexists _, stored. split; [done|]. split_and!; [by apply Hconf..| | | |].
  - simpl. rewrite Hcache. by rewrite lookup_insert_eq.
  - done.
  - by apply Hpay.
  - done.
Qed.

(** A digest that is cached with a later expiration is signed without a write. *)
Lemma cached_digest_signed self req stored :
  bst_db_cache self !! bi_digest (pv_info req) = Some stored →
  bst_last_certified_time self < bi_expiration (pv_info req) ≤ bi_expiration (pv_info stored) →
  is_ok (SignedBatchInfo_new (pv_info req) (bst_validator_signer self)) = true →
  ∃ subscribers sent si,
    persist [req] self = (with_db (bst_db self) subscribers sent self, Ok [si]) ∧
    sbi_info si = pv_info req.
Proof using Type.
  intros Hd [Hexp Hle] Hs.
  assert (persist_inner req self = (self, Ok (match SignedBatchInfo_new (pv_info req)
    (bst_validator_signer self) with Ok s => Some s | _ => None end))) as Hp.
  { unfold persist_inner, save, insert_to_cache, insert_entry, mbind, SM_bind, mret, SM_ret.
    rewrite Hd. destruct (Z.gtb_spec (bi_expiration (pv_info req)) (bst_last_certified_time self)); [|lia].
    destruct (Z.geb_spec (bi_expiration (pv_info stored)) (bi_expiration (pv_info req))); [done|lia]. }
  unfold persist, persist_all, mbind, SM_bind, modify, mret, SM_ret. rewrite Hp.
  unfold SignedBatchInfo_new in *. destruct (signer_sign _ _) as [sg| |]; [|done..]. simpl.
  destruct (notify_frame req self) as (subscribers & sent & ->). by eexists _, _, _.
Qed.

(** C37. A responder can make a validator sign a batch that it cannot give.  The
    answer to a request is checked against the digest only: the epoch and the
    expiration that come with it are stored.  Over any history of the store, when
    a batch it does not have is fetched with the information of another epoch and
    an expiration at least as late, and the author's memory quota is used up, then
    the batch itself counts as cached when it arrives: it is signed and not
    written, and the store cannot give it, before it has expired. *)
Theorem forged_batch_signed_unavailable fetched signed self forged req :
  store_history batch_payload_hash fetched signed self →
  verify_with_digest batch_payload_hash batch_payload_size (bi_digest (pv_info req)) forged = Ok tt →
  bi_epoch (batch_info forged) ≠ bst_epoch self → 0 ≤ bi_num_bytes (batch_info forged) →
  request_ok batch_payload_hash self req →
  bst_db_cache self !! bi_digest (pv_info req) = None →
  db_get_batch (pv_key req) (bst_db self) = Ok None →
  bst_last_certified_time self < bi_expiration (pv_info req) ≤ bi_expiration (batch_info forged) →
  has_room self (PersistedValue_from forged) (bst_db_cache self) →
  memory_full self (PersistedValue_from forged) (bst_db_cache self) →
  (∀ v db, (save_batch v db).2 = Ok tt) →
  is_ok (SignedBatchInfo_new (pv_info req) (bst_validator_signer self)) = true →
  ∃ self1 self2 si,
    store_fetched (batch_info forged) (bpl_txns (batch_payload forged)) self = (self1, Ok tt) ∧
    persist [req] self1 = (self2, Ok [si]) ∧ sbi_info si = pv_info req ∧
    bst_last_certified_time self2 < bi_expiration (pv_info req) ∧
    get_batch_from_local (pv_key req) self2 = Err CouldNotGetData.
Proof using QL.
  intros Hh Hv Hepoch Hbytes Hreq Hnone Hdb Hexp Hroom Hfull Hw Hs.
  unfold verify_with_digest in Hv. inv_ok.
  assert (bi_digest (batch_info forged) = bi_digest (pv_info req)) as Hd by done.
  destruct (Batch_verify_Ok _ _ forged Hv) as (_ & Hhash & _).
  destruct (store_fetched_metadata fetched signed self forged (pv_key req))
    as (self1 & stored & Hf & (Ht & _ & _ & Hsg) & Hc & Hi & Hp & Hmiss); try done.
  - split; [done|]. by eexists.
  - by rewrite Hd.
  - lia.
  - intros [= He _]. simpl in He. rewrite (proj1 Hreq) in He. by apply Hepoch.
  - rewrite Hd in Hc.
    destruct (cached_digest_signed self1 req stored Hc) as (subscribers & sent & si & Hper & Hsi).
    + by rewrite Ht, Hi.
    + by rewrite Hsg.
    + eexists self1, _, si. split_and!; [done..|simpl; lia|].
      unfold get_batch_from_local, get_batch_from_db, payload_storage_mode. simpl.
      by rewrite Hc, Hp, Hmiss.
Qed.
End batch_reader_safety.
