(* ===== verification/ObserverMessages.v ===== *)
(** The messages of the consensus observer: consensus/src/consensus_observer/
    {error, network_message}.rs.

    A validator publishes to its observers the ordered blocks, the commit
    decisions and the transactions of the blocks; the observer verifies each of
    them before it is used. *)
From S2P Require Import Prelude Laptos Payload Certificates Block Votes BlockBuffer Pipelined.

Inductive ObserverError : Type :=
| InvalidMessageError (msg : string)
| NetworkError (msg : string)
| RpcError (msg : string)
| SubscriptionDisconnected (msg : string)
| SubscriptionProgressStopped (msg : string)
| SubscriptionSuboptimal (msg : string)
| SubscriptionTimeout (msg : string)
| UnexpectedError (msg : string).

Section observer_messages.
Context `{L : Laptos} `{G : !Gcei} `{!CryptoHash VoteData} `{!CryptoHash BatchInfo}.
(** [BatchPayload::new(author, txns).hash()]. *)
Context (batch_payload_hash : AccountAddress → list SignedTransaction → HashValue).
(** [EpochState::verify] of the laptos crate: the epoch and the signatures. *)
Context (EpochState_verify : EpochState → LedgerInfoWithSignatures → result anyhow unit).

Definition invalid {A} (msg : string) : result ObserverError A := Err (InvalidMessageError msg).
Definition proof_commit_info (proof : LedgerInfoWithSignatures) : BlockInfo :=
  LedgerInfo_commit_info (LedgerInfoWithSignatures_ledger_info proof).

(** ** Ordered blocks *)

Record OrderedBlock : Type := {
  ob_blocks : list PipelinedBlock;
  ob_ordered_proof : LedgerInfoWithSignatures;
}.

(** [expect] on the first and the last block. *)
Definition first_block (self : OrderedBlock) : result ObserverError PipelinedBlock :=
  match head (ob_blocks self) with Some b => Ok b | None => Panic end.
Definition last_block (self : OrderedBlock) : result ObserverError PipelinedBlock :=
  match last (ob_blocks self) with Some b => Ok b | None => Panic end.
Definition proof_block_info (self : OrderedBlock) : BlockInfo :=
  proof_commit_info (ob_ordered_proof self).

(** The loop of [verify_ordered_blocks], over the reversed blocks. *)
Fixpoint verify_chained (expected_parent_id : option HashValue) (rev_blocks : list PipelinedBlock) :
    result ObserverError unit :=
  match rev_blocks with
  | [] => Ok tt
  | block :: rev_blocks =>
      _ ← match expected_parent_id with
          | Some expected =>
              if bool_decide (pb_id block ≠ expected)
              then invalid "Block parent ID does not match the expected parent ID!"
              else Ok tt
          | None => Ok tt
          end;
      verify_chained (Some (pb_parent_id block)) rev_blocks
  end.

Definition verify_ordered_blocks (self : OrderedBlock) : result ObserverError unit :=
  if bool_decide (ob_blocks self = []) then invalid "Received empty ordered block!"
  else
    last ← last_block self;
    if bool_decide (pb_id last ≠ BlockInfo_id (proof_block_info self))
    then invalid "Last ordered block ID does not match the ordered proof ID!"
    else verify_chained None (reverse (ob_blocks self)).

Definition verify_ordered_proof (epoch_state : EpochState) (self : OrderedBlock) :
    result ObserverError unit :=
  map_err (λ _, InvalidMessageError "Failed to verify ordered proof ledger info")
    (EpochState_verify epoch_state (ob_ordered_proof self)).

(** ** Commit decisions *)

Record ObserverCommitDecision : Type := { ocd_commit_proof : LedgerInfoWithSignatures }.
Definition ocd_epoch (self : ObserverCommitDecision) : Z :=
  LedgerInfo_epoch (LedgerInfoWithSignatures_ledger_info (ocd_commit_proof self)).
Definition ocd_round (self : ObserverCommitDecision) : Z :=
  LedgerInfo_round (LedgerInfoWithSignatures_ledger_info (ocd_commit_proof self)).

Definition verify_commit_proof (epoch_state : EpochState) (self : ObserverCommitDecision) :
    result ObserverError unit :=
  map_err (λ _, InvalidMessageError "Failed to verify commit proof ledger info")
    (EpochState_verify epoch_state (ocd_commit_proof self)).

(** ** Payloads *)

Record PayloadWithProof : Type := {
  pwp_transactions : list SignedTransaction;
  pwp_proofs : list ProofOfStore;
}.
Record PayloadWithProofAndLimit : Type := {
  pwpl_payload_with_proof : PayloadWithProof;
  pwpl_transaction_limit : option Z;
}.
Inductive BlockTransactionPayload : Type :=
| TxnsInQuorumStore (payload : PayloadWithProof)
| TxnsInQuorumStoreWithLimit (payload : PayloadWithProofAndLimit)
| TxnsQuorumStoreInlineHybrid (payload : PayloadWithProofAndLimit) (inline_batches : list BatchInfo)
| TxnsOptQuorumStore (payload : PayloadWithProofAndLimit) (batch_infos : list BatchInfo).

Definition with_proof_and_limit (transactions : list SignedTransaction)
    (proofs : list ProofOfStore) (limit : option Z) : PayloadWithProofAndLimit :=
  {| pwpl_payload_with_proof := {| pwp_transactions := transactions; pwp_proofs := proofs |};
     pwpl_transaction_limit := limit |}.
Definition new_in_quorum_store (transactions : list SignedTransaction)
    (proofs : list ProofOfStore) : BlockTransactionPayload :=
  TxnsInQuorumStore {| pwp_transactions := transactions; pwp_proofs := proofs |}.
Definition new_in_quorum_store_with_limit (transactions : list SignedTransaction)
    (proofs : list ProofOfStore) (limit : option Z) : BlockTransactionPayload :=
  TxnsInQuorumStoreWithLimit (with_proof_and_limit transactions proofs limit).
Definition new_quorum_store_inline_hybrid (transactions : list SignedTransaction)
    (proofs : list ProofOfStore) (limit : option Z) (inline_batches : list BatchInfo) :
    BlockTransactionPayload :=
  TxnsQuorumStoreInlineHybrid (with_proof_and_limit transactions proofs limit) inline_batches.
Definition new_opt_quorum_store (transactions : list SignedTransaction)
    (proofs : list ProofOfStore) (limit : option Z) (batch_infos : list BatchInfo) :
    BlockTransactionPayload :=
  TxnsOptQuorumStore (with_proof_and_limit transactions proofs limit) batch_infos.

Definition txns_inline_batches (self : BlockTransactionPayload) : list BatchInfo :=
  match self with TxnsQuorumStoreInlineHybrid _ inline_batches => inline_batches | _ => [] end.
Definition txns_limit (self : BlockTransactionPayload) : option Z :=
  match self with
  | TxnsInQuorumStore _ => None
  | TxnsInQuorumStoreWithLimit payload => pwpl_transaction_limit payload
  | TxnsQuorumStoreInlineHybrid payload _ => pwpl_transaction_limit payload
  | TxnsOptQuorumStore payload _ => pwpl_transaction_limit payload
  end.
Definition txns_with_proof (self : BlockTransactionPayload) : PayloadWithProof :=
  match self with
  | TxnsInQuorumStore payload => payload
  | TxnsInQuorumStoreWithLimit payload => pwpl_payload_with_proof payload
  | TxnsQuorumStoreInlineHybrid payload _ => pwpl_payload_with_proof payload
  | TxnsOptQuorumStore payload _ => pwpl_payload_with_proof payload
  end.
Definition txns_payload_proofs (self : BlockTransactionPayload) : list ProofOfStore :=
  pwp_proofs (txns_with_proof self).
Definition txns_transactions (self : BlockTransactionPayload) : list SignedTransaction :=
  pwp_transactions (txns_with_proof self).

Definition verify_batches (expected_proofs : list ProofOfStore) (self : BlockTransactionPayload) :
    result ObserverError unit :=
  if bool_decide ((pos_info <$> expected_proofs) ≠ (pos_info <$> txns_payload_proofs self))
  then invalid "Transaction payload failed batch verification!" else Ok tt.

Definition verify_inline_batches
    (expected_inline_batches : list (BatchInfo * list SignedTransaction))
    (self : BlockTransactionPayload) : result ObserverError unit :=
  match self with
  | TxnsQuorumStoreInlineHybrid _ inline_batches =>
      if bool_decide (expected_inline_batches.*1 ≠ inline_batches)
      then invalid "Transaction payload failed inline batch verification!" else Ok tt
  | _ => invalid "Transaction payload does not contain inline batches!"
  end.

Definition verify_opt_batches (expected_opt_batches : list BatchInfo)
    (self : BlockTransactionPayload) : result ObserverError unit :=
  match self with
  | TxnsOptQuorumStore _ opt_batches =>
      if bool_decide (expected_opt_batches ≠ opt_batches)
      then invalid "Transaction payload failed optimistic batch verification!" else Ok tt
  | _ => invalid "Transaction payload is not an OptQS Payload"
  end.

Definition verify_transaction_limit (expected_transaction_limit : option Z)
    (self : BlockTransactionPayload) : result ObserverError unit :=
  limit ← match self with
          | TxnsInQuorumStoreWithLimit payload => Ok (pwpl_transaction_limit payload)
          | TxnsQuorumStoreInlineHybrid payload _ => Ok (pwpl_transaction_limit payload)
          | _ => invalid "Transaction payload does not contain a limit!"
          end;
  if bool_decide (expected_transaction_limit ≠ limit)
  then invalid "Transaction payload failed limit verification!" else Ok tt.

Definition verify_against_ordered_payload (ordered_block_payload : Payload)
    (self : BlockTransactionPayload) : result ObserverError unit :=
  match ordered_block_payload with
  | DirectMempool _ =>
      invalid "Direct mempool payloads are not supported for consensus observer!"
  | InQuorumStore proof_with_data => verify_batches (pwd_proofs proof_with_data) self
  | InQuorumStoreWithLimit proof_with_data =>
      _ ← verify_batches (pwd_proofs (pwl_proof_with_data proof_with_data)) self;
      verify_transaction_limit (pwl_max_txns_to_execute proof_with_data) self
  | QuorumStoreInlineHybrid inline_batches proof_with_data max_txns_to_execute =>
      _ ← verify_batches (pwd_proofs proof_with_data) self;
      _ ← verify_inline_batches inline_batches self;
      verify_transaction_limit max_txns_to_execute self
  | OptQuorumStore opt_qs_payload =>
      _ ← verify_batches (bp_batch_summary _ (oqs_proofs opt_qs_payload)) self;
      _ ← verify_opt_batches (bp_batch_summary _ (oqs_opt_batches opt_qs_payload)) self;
      verify_transaction_limit (max_txns_to_execute opt_qs_payload) self
  end.

(** ** Block payloads *)

Record BlockPayload : Type := {
  bpm_block : BlockInfo;
  bpm_transaction_payload : BlockTransactionPayload;
}.

(** The next [num_txns] transactions of the iterator. *)
Fixpoint next_transactions (transactions_iter : list SignedTransaction) (num_txns : Z) :
    result ObserverError (list SignedTransaction * list SignedTransaction) :=
  if num_txns <=? 0 then Ok ([], transactions_iter)
  else
    match transactions_iter with
    | [] => invalid "Failed to extract transaction during batch reconstruction!"
    | transaction :: transactions_iter =>
        '(batch_transactions, rest) ← next_transactions transactions_iter (num_txns - 1);
        Ok (transaction :: batch_transactions, rest)
    end.

(** The iterator after the batch. *)
Definition reconstruct_and_verify_batch (transactions_iter : list SignedTransaction)
    (expected_batch_info : BatchInfo) : result ObserverError (list SignedTransaction) :=
  '(batch_transactions, rest) ←
    next_transactions transactions_iter (bi_num_txns expected_batch_info);
  if bool_decide (batch_payload_hash (bi_author expected_batch_info) batch_transactions ≠
                  bi_digest expected_batch_info)
  then invalid "The reconstructed batch digest does not match the expected digest!"
  else Ok rest.

Definition verify_payload_digests (self : BlockPayload) : result ObserverError unit :=
  let payload := bpm_transaction_payload self in
  transactions_iter ← fold_result reconstruct_and_verify_batch (txns_transactions payload)
                        (pos_info <$> txns_payload_proofs payload);
  remaining_transactions ← fold_result reconstruct_and_verify_batch transactions_iter
                             (txns_inline_batches payload);
  if bool_decide (remaining_transactions ≠ [])
  then invalid "Failed to verify payload transactions!" else Ok tt.

(** The proof cache is a new one. *)
Definition verify_payload_signatures (epoch_state : EpochState) (self : BlockPayload) :
    result ObserverError unit :=
  map_err (λ _, InvalidMessageError "Failed to verify the proof of store for batch")
    (verify_proofs (EpochState_verifier epoch_state)
       (txns_payload_proofs (bpm_transaction_payload self)) ∅).2.
End observer_messages.
