(* ===== verification/ObserverPayloads.v ===== *)
(** What the verification of the observer's messages establishes: chained
    blocks, and transactions that are those of the batches of the block; and
    where it is too lax or too strict. *)
From S2P Require Import Prelude Laptos Payload Certificates Block Votes BlockBuffer Pipelined.
From S2P Require Import ObserverMessages.

Section observer_payloads.
Context `{L : Laptos} `{G : !Gcei} `{!CryptoHash VoteData} `{!CryptoHash BatchInfo}.
Context (batch_payload_hash : AccountAddress → list SignedTransaction → HashValue).

#[local] Abbreviation reconstruct := (reconstruct_and_verify_batch batch_payload_hash).
#[local] Abbreviation verify_digests := (verify_payload_digests batch_payload_hash).

(** ** Chains *)

(** Each block is the parent of the next one. *)
Definition blocks_chained (blocks : list PipelinedBlock) : Prop :=
  ∀ i a b, blocks !! i = Some a → blocks !! S i = Some b → pb_parent_id b = pb_id a.

Lemma blocks_chained_snoc blocks b :
  blocks_chained (blocks ++ [b]) ↔
  blocks_chained blocks ∧ ∀ a, last blocks = Some a → pb_parent_id b = pb_id a.
Proof using Type.
  split.
  - intros Hc. split.
    + intros i x y Hx Hy. eapply Hc; apply lookup_app_l_Some; done.
    + intros a Ha. rewrite last_lookup in Ha. destruct blocks as [|c blocks]; [done|].
      eapply (Hc (length blocks)); [by apply lookup_app_l_Some|].
      rewrite lookup_app_r by (simpl; lia). simpl. by rewrite Nat.sub_diag.
  - intros [Hc Hl] i x y Hx Hy. apply lookup_app_Some in Hy as [Hy|[Hlen Hy]].
    + eapply Hc; [|done]. apply lookup_lt_Some in Hy. by rewrite lookup_app_l in Hx by lia.
    + apply list_lookup_singleton_Some in Hy as [Hi ->]. apply Hl.
      rewrite lookup_app_l in Hx by lia. rewrite last_lookup. by replace (pred (length blocks)) with i by lia.
Qed.

Lemma verify_chained_Ok blocks : ∀ expected,
  verify_chained expected (reverse blocks) = Ok tt ↔
  blocks_chained blocks ∧ ∀ id b, expected = Some id → last blocks = Some b → pb_id b = id.
Proof using Type.
  induction blocks as [|b blocks IH] using rev_ind; intros expected.
  { split; [|done]. intros _. split; [|done]. intros i x y Hx. by rewrite lookup_nil in Hx. }
  rewrite reverse_snoc, blocks_chained_snoc, last_snoc. cbn [verify_chained].
  assert ((match expected with
           | Some id => if bool_decide (pb_id b ≠ id)
               then invalid "Block parent ID does not match the expected parent ID!" else Ok tt
           | None => Ok tt
           end = Ok tt) ↔ ∀ id b', expected = Some id → Some b = Some b' → pb_id b' = id) as Hid.
  { destruct expected as [id|]; [|by split]. case_bool_decide as Hb; split; try done.
    - intros He. exfalso. by apply Hb, (He id b).
    - intros _ id' b' [= <-] [= <-]. done. }
  split.
  - intros ([] & Hm & Hr)%Ok_bind. apply IH in Hr as [Hc Hl]. split; [split; [done|]|by apply Hid].
    intros a Ha. symmetry. by eapply Hl.
  - intros [[Hc Hl] He%Hid]. rewrite He. cbn [mbind result_bind]. apply IH. split; [done|].
    intros id a [= <-] Ha. symmetry. by apply Hl.
Qed.

(** The blocks verify exactly when they are a chain that ends in the block of
    the proof. *)
Lemma verify_ordered_blocks_Ok ob :
  verify_ordered_blocks ob = Ok tt ↔
  blocks_chained (ob_blocks ob) ∧
  ∃ b, last (ob_blocks ob) = Some b ∧ pb_id b = BlockInfo_id (proof_block_info ob).
Proof using Type.
  unfold verify_ordered_blocks, last_block. case_bool_decide as Hne.
  { rewrite Hne. split; [done|]. by intros (_ & b & Hb & _). }
  destruct (last (ob_blocks ob)) as [b|] eqn:Hl; [|by apply last_None in Hl].
  cbn [mbind result_bind]. case_bool_decide as Hid.
  - split; [done|]. by intros (_ & b' & [= <-] & ?).
  - rewrite verify_chained_Ok. split.
    + intros [Hc _]. split; [done|]. by exists b.
    + intros [Hc _]. by split.
Qed.

Lemma verify_ordered_blocks_no_panic ob : verify_ordered_blocks ob ≠ Panic.
Proof using Type.
  unfold verify_ordered_blocks, last_block. case_bool_decide as Hne; [done|].
  destruct (last (ob_blocks ob)) as [b|] eqn:Hl; [|by apply last_None in Hl].
  cbn [mbind result_bind]. case_bool_decide; [done|].
  generalize (@None HashValue). induction (reverse (ob_blocks ob)) as [|x l IH]; intros e; [done|].
  simpl. destruct e; [case_bool_decide; [done|]|]; apply IH.
Qed.

(** ** Batches *)

(** The transactions of a batch. *)
Definition batch_txns (info : BatchInfo) (txns : list SignedTransaction) : Prop :=
  batch_payload_hash (bi_author info) txns = bi_digest info ∧
  Z.of_nat (length txns) = Z.max 0 (bi_num_txns info).

Lemma next_transactions_Ok iter : ∀ n txns rest,
  next_transactions iter n = Ok (txns, rest) ↔
  iter = txns ++ rest ∧ Z.of_nat (length txns) = Z.max 0 n.
Proof using Type.
  induction iter as [|t iter IH]; intros n txns rest; simpl; destruct (Z.leb_spec n 0).
  - split; [intros [= <- <-]; split; [done|simpl; lia]|].
    intros [[-> ->]%eq_sym%app_nil _]. done.
  - split; [done|]. intros [[-> ->]%eq_sym%app_nil Hl]. simpl in Hl. lia.
  - split; [intros [= <- <-]; split; [done|simpl; lia]|].
    intros [Heq Hl]. destruct txns; [|simpl in Hl; lia]. simpl in Heq. by subst.
  - split.
    + intros ([b r] & (-> & Hl)%IH & [= <- <-])%Ok_bind. split; [done|]. simpl. lia.
    + intros [Heq Hl]. destruct txns as [|t' txns]; [simpl in Hl; lia|].
      injection Heq as <- ->. rewrite (proj2 (IH (n - 1) txns rest)); [done|].
      split; [done|]. simpl in Hl. lia.
Qed.

Lemma reconstruct_Ok iter info rest :
  reconstruct iter info = Ok rest ↔ ∃ txns, iter = txns ++ rest ∧ batch_txns info txns.
Proof using Type.
  unfold reconstruct_and_verify_batch. split.
  - intros ([txns rest'] & [-> Hl]%next_transactions_Ok & Hr)%Ok_bind.
    case_bool_decide as Hd; [done|]. injection Hr as <-. by exists txns.
  - intros (txns & -> & Hd & Hl). rewrite (proj2 (next_transactions_Ok _ _ txns rest)) by done.
    cbn [mbind result_bind]. by rewrite bool_decide_false by (intros Hd'; by apply Hd').
Qed.

Lemma reconstruct_all_Ok infos : ∀ iter rest,
  fold_result reconstruct iter infos = Ok rest ↔
  ∃ txnss, iter = concat txnss ++ rest ∧ Forall2 batch_txns infos txnss.
Proof using Type.
  induction infos as [|info infos IH]; intros iter rest; simpl.
  - split; [intros [= ->]; by exists []|]. by intros (txnss & -> & ->%Forall2_nil_inv_l).
  - split.
    + intros (iter' & (txns & -> & Ht)%reconstruct_Ok & (txnss & -> & Hall)%IH)%Ok_bind.
      exists (txns :: txnss). split; [simpl; by rewrite <- app_assoc|by constructor].
    + intros (txnss & -> & Hall). apply Forall2_cons_inv_l in Hall as (txns & rest' & Ht & Hall & ->).
      simpl. rewrite <- app_assoc. rewrite (proj2 (reconstruct_Ok _ info (concat rest' ++ rest))).
      * cbn [mbind result_bind]. apply IH. by exists rest'.
      * by exists txns.
Qed.

(** The digests verify exactly when the transactions are those of the batches
    with a proof, followed by those of the inline batches. *)
Lemma verify_digests_Ok p :
  verify_digests p = Ok tt ↔
  ∃ proven inlined,
    txns_transactions (bpm_transaction_payload p) = concat proven ++ concat inlined ∧
    Forall2 batch_txns (pos_info <$> txns_payload_proofs (bpm_transaction_payload p)) proven ∧
    Forall2 batch_txns (txns_inline_batches (bpm_transaction_payload p)) inlined.
Proof using Type.
  unfold verify_payload_digests. split.
  - intros (iter & (proven & Ht & Hp)%reconstruct_all_Ok & Hr)%Ok_bind.
    apply Ok_bind in Hr as (rest & (inlined & -> & Hi)%reconstruct_all_Ok & Hr).
    case_bool_decide as Hnil; [done|]. subst rest.
    exists proven, inlined. rewrite Ht, app_nil_r. done.
  - intros (proven & inlined & Ht & Hp & Hi).
    rewrite (proj2 (reconstruct_all_Ok _ _ (concat inlined))) by by exists proven.
    cbn [mbind result_bind].
    rewrite (proj2 (reconstruct_all_Ok _ _ [])) by (exists inlined; by rewrite app_nil_r).
    done.
Qed.

(** ** Accepted payloads *)

(** A payload that is of the kind of the block. *)
Definition same_kind (ordered : Payload) (p : BlockTransactionPayload) : Prop :=
  match ordered, p with
  | InQuorumStore _, TxnsInQuorumStore _ => True
  | InQuorumStoreWithLimit _, TxnsInQuorumStoreWithLimit _ => True
  | QuorumStoreInlineHybrid _ _ _, _ => True
  | _, _ => False
  end.

(** The batches of a payload, in the order of execution, and its limit. *)
Definition ordered_batches (ordered : Payload) : list BatchInfo :=
  match ordered with
  | InQuorumStore p => pos_info <$> pwd_proofs p
  | InQuorumStoreWithLimit p => pos_info <$> pwd_proofs (pwl_proof_with_data p)
  | QuorumStoreInlineHybrid inline p _ => (pos_info <$> pwd_proofs p) ++ inline.*1
  | _ => []
  end.
Definition ordered_limit (ordered : Payload) : option Z :=
  match ordered with
  | InQuorumStoreWithLimit p => pwl_max_txns_to_execute p
  | QuorumStoreInlineHybrid _ _ limit => limit
  | _ => None
  end.

Lemma verify_batches_Ok expected p :
  verify_batches expected p = Ok tt ↔ pos_info <$> txns_payload_proofs p = pos_info <$> expected.
Proof using Type. unfold verify_batches. case_bool_decide; split; congruence || done. Qed.

Lemma verify_limit_Ok limit p :
  verify_transaction_limit limit p = Ok tt → txns_limit p = limit.
Proof using Type.
  unfold verify_transaction_limit. intros (l & Hl & Hv)%Ok_bind. case_bool_decide; [done|].
  destruct p; simplify_eq/=; done.
Qed.

Lemma accepted_batches ordered p :
  verify_against_ordered_payload ordered p = Ok tt → same_kind ordered p →
  (pos_info <$> txns_payload_proofs p) ++ txns_inline_batches p = ordered_batches ordered ∧
  txns_limit p = ordered_limit ordered.
Proof using Type.
  destruct ordered as [|pwd|pwl|inline pwd limit|opt]; simpl; try done.
  - destruct p; try done. intros Hb%verify_batches_Ok _. by rewrite app_nil_r.
  - destruct p; try done. intros ([] & Hb%verify_batches_Ok & Hl%verify_limit_Ok)%Ok_bind _.
    by rewrite app_nil_r.
  - intros ([] & Hb%verify_batches_Ok & Hr)%Ok_bind _.
    apply Ok_bind in Hr as ([] & Hi & Hl%verify_limit_Ok). split; [|done]. rewrite Hb. f_equal.
    destruct p; try done. unfold verify_inline_batches in Hi. by case_bool_decide.
Qed.

(** Transactions are determined by the digest, given the author. *)
Definition collision_free : Prop :=
  ∀ author txns txns', batch_payload_hash author txns = batch_payload_hash author txns' → txns = txns'.

Lemma batch_txns_unique infos txnss : ∀ txnss',
  collision_free → Forall2 batch_txns infos txnss → Forall2 batch_txns infos txnss' →
  txnss = txnss'.
Proof using Type.
  intros txnss' Hcf H. revert txnss'. induction H as [|info txns infos txnss [Hd _] _ IH]; intros txnss'.
  - by intros ->%Forall2_nil_inv_l.
  - intros (txns' & rest & [Hd' _] & Hall & ->)%Forall2_cons_inv_l. f_equal; [|by apply IH].
    apply (Hcf (bi_author info)). congruence.
Qed.

(** C27. An accepted payload is that of the block.  A payload of the block's kind
    that passes the verification against the ordered block and the
    verification of the digests has exactly the transactions of the block's
    batches, in order, and the block's limit, for hashes without collisions. *)
Theorem accepted_payload_exact ordered p txnss :
  collision_free → same_kind ordered (bpm_transaction_payload p) →
  verify_against_ordered_payload ordered (bpm_transaction_payload p) = Ok tt →
  verify_digests p = Ok tt →
  Forall2 batch_txns (ordered_batches ordered) txnss →
  txns_transactions (bpm_transaction_payload p) = concat txnss ∧
  txns_limit (bpm_transaction_payload p) = ordered_limit ordered.
Proof using Type.
  intros Hcf Hk Ha (proven & inlined & Ht & Hp & Hi)%verify_digests_Ok Hall.
  destruct (accepted_batches _ _ Ha Hk) as [Hb Hl]. split; [|done]. rewrite Ht, <- concat_app. f_equal.
  eapply batch_txns_unique; [done| |done]. rewrite <- Hb. by apply Forall2_app.
Qed.

(** ** Where the verification is lax *)

(** The payload with a batch that the block does not have. *)
Definition add_batch (extra : BatchInfo) (txns : list SignedTransaction)
    (p : BlockPayload) : BlockPayload :=
  let payload := bpm_transaction_payload p in
  {| bpm_block := bpm_block p;
     bpm_transaction_payload := new_quorum_store_inline_hybrid (txns_transactions payload ++ txns)
       (txns_payload_proofs payload) (txns_limit payload) [extra] |}.

(** C35. Transactions can be added to a block.  For a block whose batches all have
    proofs, the payload is not required to be of the block's kind: whatever a
    publisher appends as an inline batch with its own digest passes the
    verification against the block, of the digests and of the signatures, and is
    returned for execution after the transactions of the block. *)
Theorem extra_transactions_accepted ordered p extra txns epoch_state :
  (∃ q, ordered = InQuorumStore q) ∨ (∃ q, ordered = InQuorumStoreWithLimit q) →
  same_kind ordered (bpm_transaction_payload p) →
  verify_against_ordered_payload ordered (bpm_transaction_payload p) = Ok tt →
  verify_digests p = Ok tt → verify_payload_signatures epoch_state p = Ok tt →
  batch_txns extra txns →
  let p' := add_batch extra txns p in
  verify_against_ordered_payload ordered (bpm_transaction_payload p') = Ok tt ∧
  verify_digests p' = Ok tt ∧ verify_payload_signatures epoch_state p' = Ok tt ∧
  txns_transactions (bpm_transaction_payload p') =
  txns_transactions (bpm_transaction_payload p) ++ txns.
Proof using Type.
  intros Hord Hk Ha (proven & inlined & Ht & Hp & Hi)%verify_digests_Ok Hs Hx p'. split_and!; [| |done|done].
  - destruct Hord as [[q ->]|[q ->]]; simpl in *.
    + apply verify_batches_Ok. by apply verify_batches_Ok in Ha.
    + apply Ok_bind in Ha as ([] & Hb%verify_batches_Ok & Hl%verify_limit_Ok).
      rewrite (proj2 (verify_batches_Ok _ _)) by done. cbn [mbind result_bind].
      unfold verify_transaction_limit. simpl. rewrite Hl. by rewrite bool_decide_false by (by intros []).
  - assert (txns_inline_batches (bpm_transaction_payload p) = []) as Hnil.
    { destruct Hord as [[q ->]|[q ->]], (bpm_transaction_payload p); done. }
    rewrite Hnil in Hi. apply Forall2_nil_inv_l in Hi as ->. rewrite app_nil_r in Ht.
    apply verify_digests_Ok. exists proven, [txns]. simpl. rewrite Ht, app_nil_r.
    split_and!; [done|done|].
    apply Forall2_cons. split; [done|by apply Forall2_nil].
Qed.

(** Optimistic payloads never reach an observer: no payload at all passes the
    verification against a block with an [OptQuorumStore] payload, because the
    check of the limit knows no optimistic payloads; neither does any pass
    against a block with transactions of the mempool. *)
Theorem opt_payload_rejected ordered p :
  (∃ o, ordered = OptQuorumStore o) ∨ (∃ txns, ordered = DirectMempool txns) →
  ∃ msg, verify_against_ordered_payload ordered p = Err (InvalidMessageError msg).
Proof using Type.
  intros [[o ->]|[txns ->]]; simpl; [|by eexists].
  unfold verify_batches. case_bool_decide; cbn [mbind result_bind]; [by eexists|].
  destruct p; simpl; try by eexists.
  case_bool_decide; cbn [mbind result_bind]; by eexists.
Qed.
End observer_payloads.
