(* ===== verification/ObserverStores.v ===== *)
(** The stores of the consensus observer: consensus/src/consensus_observer/
    {payload_store, ordered_blocks, pending_blocks}.rs.

    Payloads, ordered blocks and blocks that wait for payloads, each indexed by
    epoch and round.  Every operation is one critical section of its lock; those
    that take the lock several times are called from one task only. *)
From S2P Require Import Prelude Laptos Payload Certificates Block Votes BlockBuffer Pipelined.
From S2P Require Import ObserverMessages.

(** ** Epochs and rounds *)

Abbreviation EpochRound := (Z * Z)%type.
Definition epoch_round_le (a b : EpochRound) : Prop :=
  a.1 < b.1 ∨ a.1 = b.1 ∧ a.2 ≤ b.2.
#[global] Instance epoch_round_le_dec : RelDecision epoch_round_le.
Proof. intros a b. unfold epoch_round_le. apply _. Defined.

(** [split_off]: the entries below the key and those from it on. *)
Definition entries_below {A} (key : EpochRound) (m : gmap EpochRound A) : gmap EpochRound A :=
  filter (λ e, ¬ epoch_round_le key e.1) m.
Definition entries_from {A} (key : EpochRound) (m : gmap EpochRound A) : gmap EpochRound A :=
  filter (λ e, epoch_round_le key e.1) m.
Definition last_key_value {A} (m : gmap EpochRound A) : option (EpochRound * A) :=
  last (btree_list epoch_round_le m).

Section observer_stores.
Context `{L : Laptos} `{G : !Gcei} `{!CryptoHash VoteData} `{!CryptoHash BatchInfo}.

(** ** payload_store.rs *)

Inductive BlockPayloadStatus : Type :=
| AvailableAndVerified (block_payload : BlockPayload)
| AvailableAndUnverified (block_payload : BlockPayload).

Record BlockPayloadStore : Type := {
  bps_max_num_pending_blocks : Z;
  bps_block_payloads : gmap EpochRound BlockPayloadStatus;
}.
Definition BlockPayloadStore_new (max_num_pending_blocks : Z) : BlockPayloadStore :=
  {| bps_max_num_pending_blocks := max_num_pending_blocks; bps_block_payloads := ∅ |}.
Definition with_payloads (payloads : gmap EpochRound BlockPayloadStatus)
    (self : BlockPayloadStore) : BlockPayloadStore :=
  {| bps_max_num_pending_blocks := bps_max_num_pending_blocks self;
     bps_block_payloads := payloads |}.

Definition pb_key (block : PipelinedBlock) : EpochRound := (pb_epoch block, pb_round block).

Definition payload_verified (payloads : gmap EpochRound BlockPayloadStatus)
    (block : PipelinedBlock) : bool :=
  match payloads !! pb_key block with
  | Some (AvailableAndVerified _) => true
  | _ => false
  end.
Definition bps_all_payloads_exist (blocks : list PipelinedBlock) (self : BlockPayloadStore) : bool :=
  forallb (payload_verified (bps_block_payloads self)) blocks.

Definition clear_all_payloads (self : BlockPayloadStore) : BlockPayloadStore :=
  with_payloads ∅ self.

Definition bpm_key (block_payload : BlockPayload) : EpochRound :=
  (BlockInfo_epoch (bpm_block block_payload), BlockInfo_round (bpm_block block_payload)).

Definition insert_block_payload (block_payload : BlockPayload) (verified_payload_signatures : bool)
    (self : BlockPayloadStore) : BlockPayloadStore :=
  if Z.of_nat (size (bps_block_payloads self)) >=? bps_max_num_pending_blocks self then self
  else
    let payload_status :=
      if verified_payload_signatures then AvailableAndVerified block_payload
      else AvailableAndUnverified block_payload in
    with_payloads (<[bpm_key block_payload := payload_status]> (bps_block_payloads self)) self.

Definition remove_blocks_for_epoch_round (epoch round : Z) (self : BlockPayloadStore) :
    BlockPayloadStore :=
  let split_off_round := u64_saturating_add round 1 in
  with_payloads (entries_from (epoch, split_off_round) (bps_block_payloads self)) self.

Definition bps_remove_committed_blocks (committed_blocks : list PipelinedBlock)
    (self : BlockPayloadStore) : BlockPayloadStore :=
  let '(highest_epoch, highest_round) := from_option pb_key (0, 0) (last committed_blocks) in
  remove_blocks_for_epoch_round highest_epoch highest_round self.

(** One block of [verify_payloads_against_ordered_block]. *)
Definition verify_payload_of_block (payloads : gmap EpochRound BlockPayloadStatus)
    (ordered_block : PipelinedBlock) : result ObserverError unit :=
  match payloads !! pb_key ordered_block with
  | Some (AvailableAndVerified stored_payload) =>
      match block_payload (pb_block ordered_block) with
      | Some payload =>
          verify_against_ordered_payload payload (bpm_transaction_payload stored_payload)
      | None => invalid "Payload verification failed! Missing block payload"
      end
  | Some (AvailableAndUnverified _) =>
      invalid "Payload verification failed! Block payload is unverified."
  | None => invalid "Payload verification failed! Missing block payload"
  end.

Definition verify_payloads_against_ordered_block (ordered_block : OrderedBlock)
    (self : BlockPayloadStore) : result ObserverError unit :=
  fold_result (λ _, verify_payload_of_block (bps_block_payloads self)) tt (ob_blocks ordered_block).

(** The loop of [verify_payload_signatures] of the store: the payloads that are
    left and those that were verified. *)
Fixpoint verify_signatures_loop (epoch_state : EpochState) (keys : list EpochRound)
    (payloads : gmap EpochRound BlockPayloadStatus) (to_update : list BlockPayload) :
    result ObserverError (gmap EpochRound BlockPayloadStatus * list BlockPayload) :=
  match keys with
  | [] => Ok (payloads, to_update)
  | key :: keys =>
      if key.1 >? EpochState_epoch epoch_state then Ok (payloads, to_update)
      else if key.1 =? EpochState_epoch epoch_state then
        match payloads !! key with
        | Some (AvailableAndUnverified block_payload) =>
            match verify_payload_signatures epoch_state block_payload with
            | Ok _ =>
                verify_signatures_loop epoch_state keys payloads (to_update ++ [block_payload])
            | Err _ => verify_signatures_loop epoch_state keys (delete key payloads) to_update
            | Panic => Panic
            end
        | _ => verify_signatures_loop epoch_state keys payloads to_update
        end
      else verify_signatures_loop epoch_state keys payloads to_update
  end.

Definition bps_verify_payload_signatures (epoch_state : EpochState) (self : BlockPayloadStore) :
    result ObserverError (BlockPayloadStore * list Z) :=
  let keys := (btree_list epoch_round_le (bps_block_payloads self)).*1 in
  '(payloads, to_update) ←
    verify_signatures_loop epoch_state keys (bps_block_payloads self) [];
  let rounds := (λ p, BlockInfo_round (bpm_block p)) <$> to_update in
  Ok (foldl (λ self p, insert_block_payload p true self) (with_payloads payloads self) to_update,
      rounds).

(** ** ordered_blocks.rs *)

Record OrderedBlockStore : Type := {
  obs_max_num_pending_blocks : Z;
  obs_ordered_blocks : gmap EpochRound (OrderedBlock * option ObserverCommitDecision);
}.
Definition OrderedBlockStore_new (max_num_pending_blocks : Z) : OrderedBlockStore :=
  {| obs_max_num_pending_blocks := max_num_pending_blocks; obs_ordered_blocks := ∅ |}.
Definition with_ordered (blocks : gmap EpochRound (OrderedBlock * option ObserverCommitDecision))
    (self : OrderedBlockStore) : OrderedBlockStore :=
  {| obs_max_num_pending_blocks := obs_max_num_pending_blocks self; obs_ordered_blocks := blocks |}.

Definition clear_all_ordered_blocks (self : OrderedBlockStore) : OrderedBlockStore :=
  with_ordered ∅ self.
Definition get_all_ordered_blocks (self : OrderedBlockStore) :
    list (EpochRound * (OrderedBlock * option ObserverCommitDecision)) :=
  btree_list epoch_round_le (obs_ordered_blocks self).

Definition get_last_ordered_block (self : OrderedBlockStore) :
    result ObserverError (option BlockInfo) :=
  match last_key_value (obs_ordered_blocks self) with
  | Some (_, (ordered_block, _)) =>
      block ← last_block ordered_block; Ok (Some (PipelinedBlock_block_info block))
  | None => Ok None
  end.

Definition get_ordered_block (epoch round : Z) (self : OrderedBlockStore) : option OrderedBlock :=
  fst <$> obs_ordered_blocks self !! (epoch, round).

Definition insert_ordered_block (ordered_block : OrderedBlock) (self : OrderedBlockStore) :
    result ObserverError OrderedBlockStore :=
  if Z.of_nat (size (obs_ordered_blocks self)) >=? obs_max_num_pending_blocks self then Ok self
  else
    block ← last_block ordered_block;
    Ok (with_ordered (<[pb_key block := (ordered_block, None)]> (obs_ordered_blocks self)) self).

Definition remove_blocks_for_commit (commit_ledger_info : LedgerInfoWithSignatures)
    (self : OrderedBlockStore) : OrderedBlockStore :=
  let split_off_epoch :=
    LedgerInfo_epoch (LedgerInfoWithSignatures_ledger_info commit_ledger_info) in
  let split_off_round :=
    u64_saturating_add (BlockInfo_round (proof_commit_info commit_ledger_info)) 1 in
  with_ordered (entries_from (split_off_epoch, split_off_round) (obs_ordered_blocks self)) self.

Definition update_commit_decision (commit_decision : ObserverCommitDecision)
    (self : OrderedBlockStore) : OrderedBlockStore :=
  let key := (ocd_epoch commit_decision, ocd_round commit_decision) in
  match obs_ordered_blocks self !! key with
  | Some (ordered_block, _) =>
      with_ordered (<[key := (ordered_block, Some commit_decision)]> (obs_ordered_blocks self)) self
  | None => self
  end.

(** ** pending_blocks.rs *)

Record PendingBlockStore : Type := {
  pbs_max_num_pending_blocks : Z;
  pbs_blocks_without_payloads : gmap EpochRound OrderedBlock;
}.
Definition PendingBlockStore_new (max_num_pending_blocks : Z) : PendingBlockStore :=
  {| pbs_max_num_pending_blocks := max_num_pending_blocks; pbs_blocks_without_payloads := ∅ |}.
Definition with_pending (blocks : gmap EpochRound OrderedBlock) (self : PendingBlockStore) :
    PendingBlockStore :=
  {| pbs_max_num_pending_blocks := pbs_max_num_pending_blocks self;
     pbs_blocks_without_payloads := blocks |}.

Definition clear_missing_blocks (self : PendingBlockStore) : PendingBlockStore :=
  with_pending ∅ self.

(** The oldest blocks are removed. *)
Definition garbage_collect_pending_blocks (self : PendingBlockStore) : PendingBlockStore :=
  let blocks := pbs_blocks_without_payloads self in
  let num_blocks_to_remove :=
    u64_saturating_sub (Z.of_nat (size blocks)) (pbs_max_num_pending_blocks self) in
  let removed := take (Z.to_nat num_blocks_to_remove) (btree_list epoch_round_le blocks) in
  with_pending (foldl (λ m e, delete e.1 m) blocks removed) self.

Definition insert_pending_block (ordered_block : OrderedBlock) (self : PendingBlockStore) :
    result ObserverError PendingBlockStore :=
  block ← first_block ordered_block;
  let blocks := pbs_blocks_without_payloads self in
  let blocks :=
    match blocks !! pb_key block with
    | Some _ => blocks
    | None => <[pb_key block := ordered_block]> blocks
    end in
  Ok (garbage_collect_pending_blocks (with_pending blocks self)).

Definition remove_ready_block (received_payload_epoch received_payload_round : Z)
    (block_payload_store : BlockPayloadStore) (self : PendingBlockStore) :
    result ObserverError (PendingBlockStore * option OrderedBlock) :=
  let split := (received_payload_epoch, u64_saturating_add received_payload_round 1) in
  let blocks_at_higher_rounds := entries_from split (pbs_blocks_without_payloads self) in
  match last_key_value (entries_below split (pbs_blocks_without_payloads self)) with
  | Some (epoch_and_round, ordered_block) =>
      if bps_all_payloads_exist (ob_blocks ordered_block) block_payload_store
      then Ok (with_pending blocks_at_higher_rounds self, Some ordered_block)
      else
        block ← last_block ordered_block;
        let blocks :=
          if pb_round block >? received_payload_round
          then <[epoch_and_round := ordered_block]> blocks_at_higher_rounds
          else blocks_at_higher_rounds in
        Ok (with_pending blocks self, None)
  | None => Ok (with_pending blocks_at_higher_rounds self, None)
  end.
End observer_stores.
