(* ===== verification/ObserverStoresSafety.v ===== *)
(** The stores of the observer: what they hold is what was verified, they stay
    within the configured size, and no operation panics on what is stored. *)
From S2P Require Import Prelude Laptos Payload Certificates Block Votes BlockBuffer Pipelined.
From S2P Require Import ObserverMessages ObserverPayloads ObserverStores.

(** ** Ordered maps *)

Lemma entries_from_subseteq {A} (key : EpochRound) (m : gmap EpochRound A) : entries_from key m ⊆ m.
Proof. apply map_filter_subseteq. Qed.
Lemma entries_below_subseteq {A} (key : EpochRound) (m : gmap EpochRound A) : entries_below key m ⊆ m.
Proof. apply map_filter_subseteq. Qed.

Lemma last_key_value_Some {A} (m : gmap EpochRound A) k a :
  last_key_value m = Some (k, a) → m !! k = Some a.
Proof. intros Hl%last_Some_elem_of. by apply elem_of_btree_list in Hl. Qed.

#[global] Instance epoch_round_le_total : Total epoch_round_le.
Proof. intros a b. unfold epoch_round_le. lia. Qed.
#[global] Instance epoch_round_le_trans : Transitive epoch_round_le.
Proof. intros a b c. unfold epoch_round_le. lia. Qed.

Lemma last_key_value_max {A} (m : gmap EpochRound A) k a k' a' :
  last_key_value m = Some (k, a) → m !! k' = Some a' → epoch_round_le k' k.
Proof.
  unfold last_key_value. intros Hl Hk'%(elem_of_btree_list epoch_round_le).
  pose proof (btree_list_sorted epoch_round_le m) as Hs. revert Hl Hk' Hs.
  induction (btree_list epoch_round_le m) as [|x l IH]; [done|]. intros Hl Hin Hs.
  apply StronglySorted_inv in Hs as [Hs Hle]. destruct l as [|y l].
  - apply list_elem_of_singleton in Hin as <-. injection Hl as <- _. unfold epoch_round_le. lia.
  - rewrite last_cons_cons in Hl. apply elem_of_cons in Hin as [<-|Hin]; [|by apply IH].
    rewrite Forall_forall in Hle. apply (Hle (k, a)). by apply last_Some_elem_of.
Qed.

Lemma size_insert_same {K A} `{Countable K} (m : gmap K A) k a b :
  m !! k = Some b → size (<[k := a]> m) = size m.
Proof. intros Hk. by rewrite map_size_insert, Hk. Qed.

Lemma foldl_delete {K A} `{Countable K} (l : list (K * A)) : ∀ m : gmap K A,
  foldl (λ m e, delete e.1 m) m l ⊆ m ∧
  (NoDup l.*1 → (∀ e, e ∈ l → is_Some (m !! e.1)) →
   size (foldl (λ m e, delete e.1 m) m l) = (size m - length l)%nat).
Proof.
  induction l as [|e l IH]; intros m; simpl.
  { split; [done|]. intros _ _. lia. }
  destruct (IH (delete e.1 m)) as [Hsub Hsize]. split.
  { etrans; [done|]. apply delete_subseteq. }
  intros [Hn Hnd]%NoDup_cons Hin. rewrite Hsize; [|done|].
  - destruct (Hin e) as [a Ha]; [by left|]. rewrite map_size_delete, Ha. simpl. lia.
  - intros e' He'. rewrite lookup_delete_ne; [apply Hin; by right|].
    intros Heq. apply Hn. rewrite Heq. by apply list_elem_of_fmap_2.
Qed.

Section observer_stores_safety.
Context `{L : Laptos} `{G : !Gcei} `{!CryptoHash VoteData} `{!CryptoHash BatchInfo}.
Context `{!CryptoHash BlockData}.
Context (batch_payload_hash : AccountAddress → list SignedTransaction → HashValue).
Context (max : Z) (max_nonneg : 0 ≤ max).
(** The verification of signatures returns. *)
Context (multi_no_panic : ∀ v m s, ValidatorVerifier_verify_multi_signatures v m s ≠ Panic).

#[local] Abbreviation verify_digests := (verify_payload_digests batch_payload_hash).

(** ** The verification of a payload returns *)

Lemma next_transactions_no_panic iter : ∀ n, next_transactions iter n ≠ Panic.
Proof using Type.
  induction iter as [|t iter IH]; intros n; simpl; destruct (n <=? 0); try done.
  specialize (IH (n - 1)). destruct (next_transactions iter (n - 1)) as [[]|e|]; done.
Qed.

Lemma reconstruct_no_panic iter info :
  reconstruct_and_verify_batch batch_payload_hash iter info ≠ Panic.
Proof using Type.
  unfold reconstruct_and_verify_batch.
  pose proof (next_transactions_no_panic iter (bi_num_txns info)) as Hn.
  destruct (next_transactions iter _) as [[txns rest]|e|]; cbn [mbind result_bind]; [|done|done].
  by case_bool_decide.
Qed.

Lemma reconstruct_all_no_panic infos : ∀ iter,
  fold_result (reconstruct_and_verify_batch batch_payload_hash) iter infos ≠ Panic.
Proof using Type.
  induction infos as [|info infos IH]; intros iter; simpl; [done|].
  pose proof (reconstruct_no_panic iter info) as Hn.
  destruct (reconstruct_and_verify_batch _ iter info); [apply IH|done|done].
Qed.

Lemma verify_digests_no_panic p : verify_digests p ≠ Panic.
Proof using Type.
  unfold verify_payload_digests.
  pose proof (reconstruct_all_no_panic (pos_info <$> txns_payload_proofs (bpm_transaction_payload p))
    (txns_transactions (bpm_transaction_payload p))).
  destruct (fold_result _ _ (pos_info <$> _)) as [iter|e|]; cbn [mbind result_bind]; [|done|done].
  pose proof (reconstruct_all_no_panic (txns_inline_batches (bpm_transaction_payload p)) iter).
  destruct (fold_result _ iter _) as [rest|e|]; cbn [mbind result_bind]; [|done|done].
  by case_bool_decide.
Qed.

Lemma verify_signatures_no_panic es p : verify_payload_signatures es p ≠ Panic.
Proof using multi_no_panic.
  unfold verify_payload_signatures. generalize (∅ : gmap BatchInfo AggregateSignature).
  induction (txns_payload_proofs (bpm_transaction_payload p)) as [|q proofs IH]; intros cache; [done|].
  simpl. unfold mbind, SM_bind. unfold ProofOfStore_verify at 1.
  case_bool_decide; [apply IH|].
  pose proof (multi_no_panic (EpochState_verifier es) (signing_message (pos_info q)) (pos_multi_signature q)).
  unfold verify_multi_signatures. destruct (ValidatorVerifier_verify_multi_signatures _ _ _) as [[]|e|];
    [apply IH|done|done].
Qed.

(** ** Payloads *)

(** The epoch states that the observer has had, and the payloads it received. *)
Context (known : EpochState → Prop) (received : BlockPayload → Prop).

Definition payload_of_status (st : BlockPayloadStatus) : BlockPayload :=
  match st with AvailableAndVerified p | AvailableAndUnverified p => p end.

(** The proofs are signed by the validators of the payload's epoch. *)
Definition payload_signed (p : BlockPayload) : Prop :=
  ∃ es, known es ∧ EpochState_epoch es = (bpm_key p).1 ∧ verify_payload_signatures es p = Ok tt.

Definition status_ok (key : EpochRound) (st : BlockPayloadStatus) : Prop :=
  bpm_key (payload_of_status st) = key ∧ received (payload_of_status st) ∧
  verify_digests (payload_of_status st) = Ok tt ∧
  match st with AvailableAndVerified p => payload_signed p | AvailableAndUnverified _ => True end.

Record payloads_ok (self : BlockPayloadStore) : Prop := {
  po_max : bps_max_num_pending_blocks self = max;
  po_size : Z.of_nat (size (bps_block_payloads self)) ≤ max;
  po_status key st : bps_block_payloads self !! key = Some st → status_ok key st;
}.

Lemma payloads_ok_subseteq self m :
  payloads_ok self → m ⊆ bps_block_payloads self → payloads_ok (with_payloads m self).
Proof using Type.
  intros [Hm Hs Hst] Hsub. split; simpl; [done| |].
  - pose proof (map_subseteq_size _ _ Hsub). lia.
  - intros key st Hk. by eapply Hst, lookup_weaken.
Qed.

Lemma payloads_ok_insert p (verified : bool) self :
  payloads_ok self → received p → verify_digests p = Ok tt → (verified = true → payload_signed p) →
  payloads_ok (insert_block_payload p verified self).
Proof using Type.
  intros [Hm Hs Hst] Hrec Hd Hv. unfold insert_block_payload. rewrite Hm, Z.geb_leb.
  destruct (Z.leb_spec max (Z.of_nat (size (bps_block_payloads self)))); [done|].
  split; simpl; [done| |].
  - rewrite map_size_insert. case_match; simpl; lia.
  - intros key st. rewrite lookup_insert_Some. intros [[<- <-]|[_ Hk]]; [|by apply Hst].
    destruct verified; split_and!; try done. by apply Hv.
Qed.

(** A payload that can be marked as verified. *)
Definition payload_good (p : BlockPayload) : Prop :=
  received p ∧ verify_digests p = Ok tt ∧ payload_signed p.

Lemma verify_signatures_loop_ok es keys : ∀ m upd,
  known es → (∀ key st, m !! key = Some st → status_ok key st) →
  Forall payload_good upd →
  ∃ m' upd', verify_signatures_loop es keys m upd = Ok (m', upd') ∧ m' ⊆ m ∧
    Forall payload_good upd'.
Proof using multi_no_panic.
  induction keys as [|key keys IH]; intros m upd Hes Hm Hupd; simpl; [by exists m, upd|].
  destruct (key.1 >? EpochState_epoch es); [by exists m, upd|].
  destruct (Z.eqb_spec key.1 (EpochState_epoch es)) as [He|_]; [|by apply IH].
  destruct (m !! key) as [[p|p]|] eqn:Hk; [by apply IH| |by apply IH].
  destruct (Hm _ _ Hk) as (Hkey & Hrec & Hd & _). simpl in Hkey, Hrec, Hd.
  pose proof (verify_signatures_no_panic es p).
  destruct (verify_payload_signatures es p) as [[]|e|] eqn:Hv; [| |done].
  - apply IH; [done..|]. apply Forall_app. split; [done|]. apply Forall_singleton. split_and!; [done..|].
    exists es. by rewrite Hkey.
  - destruct (IH (delete key m) upd) as (m' & upd' & -> & Hsub & Hu); [done| |done|].
    + intros k st [_ Hk']%lookup_delete_Some. by apply Hm.
    + exists m', upd'. split_and!; [done| |done]. etrans; [done|apply delete_subseteq].
Qed.

Lemma payloads_ok_insert_all upd : ∀ self,
  payloads_ok self → Forall payload_good upd →
  payloads_ok (foldl (λ self p, insert_block_payload p true self) self upd).
Proof using Type.
  induction upd as [|p upd IH]; intros self Hok Hu; [done|].
  apply Forall_cons in Hu as [(Hrec & Hd & Hs) Hu]. apply IH; [|done]. by apply payloads_ok_insert.
Qed.

Lemma bps_verify_ok es self :
  known es → payloads_ok self →
  ∃ self' rounds, bps_verify_payload_signatures es self = Ok (self', rounds) ∧ payloads_ok self'.
Proof using multi_no_panic.
  intros Hes Hok. unfold bps_verify_payload_signatures.
  destruct (verify_signatures_loop_ok es (btree_list epoch_round_le (bps_block_payloads self)).*1
    (bps_block_payloads self) []) as (m & upd & -> & Hsub & Hupd); [done|apply Hok|done|].
  cbn [mbind result_bind]. eexists _, _. split; [done|]. apply payloads_ok_insert_all; [|done].
  by apply payloads_ok_subseteq.
Qed.

Lemma remove_committed_ok blocks self :
  payloads_ok self → payloads_ok (bps_remove_committed_blocks blocks self).
Proof using Type.
  intros Hok. unfold bps_remove_committed_blocks. case_match.
  apply payloads_ok_subseteq, entries_from_subseteq. done.
Qed.

(** A payload that was received for a block: it is for the block's epoch and
    round, has transactions of its batches, signed proofs, and agrees with the
    block. *)
Definition payload_of_block (b : PipelinedBlock) : Prop :=
  ∃ payload p, received p ∧ block_payload (pb_block b) = Some payload ∧ bpm_key p = pb_key b ∧
    verify_against_ordered_payload payload (bpm_transaction_payload p) = Ok tt ∧
    verify_digests p = Ok tt ∧ payload_signed p.

Lemma verify_against_no_panic payload p : verify_against_ordered_payload payload p ≠ Panic.
Proof using Type.
  destruct payload; simpl;
    unfold verify_batches, verify_inline_batches, verify_opt_batches, verify_transaction_limit;
    destruct p; no_panic.
Qed.

Lemma verify_payload_of_block_ok b self :
  payloads_ok self →
  match verify_payload_of_block (bps_block_payloads self) b with
  | Ok _ => payload_of_block b
  | Err _ => True
  | Panic => False
  end.
Proof using Type.
  intros Hok. unfold verify_payload_of_block.
  destruct (bps_block_payloads self !! pb_key b) as [[p|p]|] eqn:Hp; [|done|done].
  destruct (block_payload (pb_block b)) as [payload|] eqn:Hb; [|done].
  pose proof (verify_against_no_panic payload (bpm_transaction_payload p)) as Hnp.
  destruct (verify_against_ordered_payload _ _) as [[]|e|] eqn:Hv; [|done|done].
  destruct (po_status _ Hok _ _ Hp) as (Hk & Hrec & Hd & Hs). by exists payload, p.
Qed.

Lemma verify_payloads_ok ob self :
  payloads_ok self →
  match verify_payloads_against_ordered_block ob self with
  | Ok _ => ∀ b, b ∈ ob_blocks ob → payload_of_block b
  | Err _ => True
  | Panic => False
  end.
Proof using Type.
  intros Hok. unfold verify_payloads_against_ordered_block.
  induction (ob_blocks ob) as [|b blocks IH]; simpl; [by intros b ?%elem_of_nil|].
  pose proof (verify_payload_of_block_ok b self Hok) as Hb.
  destruct (verify_payload_of_block _ b) as [[]|e|]; cbn [mbind result_bind]; [|done|done].
  destruct (fold_result _ tt blocks) as [[]|e|]; [|done|done].
  intros b' [->|Hb']%elem_of_cons; [done|by apply IH].
Qed.

(** ** Ordered blocks *)

Section ordered.
(** What was checked of a block, and of a commit decision. *)
Context (ordered_ok : OrderedBlock → Prop) (decision_ok : ObserverCommitDecision → Prop).
Hypothesis ordered_nonempty : ∀ ob, ordered_ok ob → ob_blocks ob ≠ [].

Record ordered_store_ok (self : OrderedBlockStore) : Prop := {
  oo_max : obs_max_num_pending_blocks self = max;
  oo_size : Z.of_nat (size (obs_ordered_blocks self)) ≤ max;
  oo_entry key e : obs_ordered_blocks self !! key = Some e →
    ordered_ok e.1 ∧ ∀ d, e.2 = Some d → decision_ok d;
  oo_key key e : obs_ordered_blocks self !! key = Some e →
    ∃ b, last (ob_blocks e.1) = Some b ∧ pb_key b = key;
}.

Lemma last_block_ok ob : ob_blocks ob ≠ [] → ∃ b, last_block ob = Ok b ∧ last (ob_blocks ob) = Some b.
Proof using Type.
  intros Hne. unfold last_block. destruct (last (ob_blocks ob)) as [b|] eqn:Hl; [by exists b|].
  by apply last_None in Hl.
Qed.
Lemma first_block_ok ob : ob_blocks ob ≠ [] → ∃ b, first_block ob = Ok b.
Proof using Type. unfold first_block. destruct (ob_blocks ob); [done|]. intros _. by eexists. Qed.

Lemma ordered_store_subseteq self m :
  ordered_store_ok self → m ⊆ obs_ordered_blocks self → ordered_store_ok (with_ordered m self).
Proof using Type.
  intros [Hm Hs He Hl] Hsub. split; simpl; [done| | |].
  - pose proof (map_subseteq_size _ _ Hsub). lia.
  - intros key e Hk. by eapply He, lookup_weaken.
  - intros key e Hk. by eapply Hl, lookup_weaken.
Qed.

Lemma insert_ordered_ok ob self :
  ordered_store_ok self → ordered_ok ob →
  ∃ self', insert_ordered_block ob self = Ok self' ∧ ordered_store_ok self' ∧
    ∀ key e, obs_ordered_blocks self' !! key = Some e →
      obs_ordered_blocks self !! key = Some e ∨ e = (ob, None).
Proof using ordered_nonempty.
  intros Hok Hob. unfold insert_ordered_block. rewrite (oo_max _ Hok), Z.geb_leb.
  destruct (Z.leb_spec max (Z.of_nat (size (obs_ordered_blocks self)))).
  { exists self. split_and!; [done..|]. intros. by left. }
  destruct (last_block_ok ob) as (b & -> & Hb); [by apply ordered_nonempty|].
  cbn [mbind result_bind]. eexists. split; [done|]. destruct Hok as [Hm Hs He Hl].
  split; [split; simpl; [done| | |]|].
  - rewrite map_size_insert. case_match; simpl; lia.
  - intros key e. rewrite lookup_insert_Some. intros [[<- <-]|[_ Hk]]; [done|by eapply He].
  - intros key e. rewrite lookup_insert_Some. intros [[<- <-]|[_ Hk]]; [by exists b|by eapply Hl].
  - intros key e. simpl. rewrite lookup_insert_Some. intros [[_ <-]|[_ Hk]]; [by right|by left].
Qed.

(** An entry is replaced by one with the same last block. *)
Lemma replace_entry_ok key ob ob' d self :
  ordered_store_ok self → obs_ordered_blocks self !! key = Some (ob, d) → ordered_ok ob' →
  pb_key <$> last (ob_blocks ob') = pb_key <$> last (ob_blocks ob) →
  ordered_store_ok (with_ordered (<[key := (ob', d)]> (obs_ordered_blocks self)) self).
Proof using Type.
  intros [Hm Hs He Hl] Hk Hob Hkey. split; simpl; [done| | |].
  - by rewrite (size_insert_same _ _ _ _ Hk).
  - intros k e. rewrite lookup_insert_Some. intros [[<- <-]|[_ Hk']]; [|by eapply He].
    split; [done|apply (He _ _ Hk)].
  - intros k e. rewrite lookup_insert_Some. intros [[<- <-]|[_ Hk']]; [|by eapply Hl].
    destruct (Hl _ _ Hk) as (b & Hb & <-). simpl in *. rewrite Hb in Hkey.
    apply fmap_Some_1 in Hkey as (b' & Hb' & ->). by exists b'.
Qed.

Lemma update_decision_ok cd self :
  ordered_store_ok self → decision_ok cd → ordered_store_ok (update_commit_decision cd self).
Proof using Type.
  intros [Hm Hs He Hl] Hcd. unfold update_commit_decision.
  destruct (obs_ordered_blocks self !! _) as [[ob d]|] eqn:Hk; [|by split].
  split; simpl; [done| | |].
  - by rewrite (size_insert_same _ _ _ _ Hk).
  - intros key e. rewrite lookup_insert_Some. intros [[<- <-]|[_ Hk']]; [|by eapply He].
    split; [apply (He _ _ Hk)|]. by intros d' [= <-].
  - intros key e. rewrite lookup_insert_Some. intros [[<- <-]|[_ Hk']]; [|by eapply Hl].
    apply (Hl _ _ Hk).
Qed.

Lemma update_decision_blocks cd self key e :
  obs_ordered_blocks (update_commit_decision cd self) !! key = Some e →
  ∃ d, obs_ordered_blocks self !! key = Some (e.1, d).
Proof using Type.
  unfold update_commit_decision.
  destruct (obs_ordered_blocks self !! (ocd_epoch cd, _)) as [[ob d]|] eqn:Hk; simpl;
    [rewrite lookup_insert_Some; intros [[<- <-]|[_ Hk']]; [by exists d|]|intros Hk'];
    destruct e as [ob' d']; by exists d'.
Qed.

Lemma get_last_ordered_ok self :
  ordered_store_ok self → ∃ o, get_last_ordered_block self = Ok o.
Proof using ordered_nonempty.
  intros Hok. unfold get_last_ordered_block.
  destruct (last_key_value _) as [[k [ob d]]|] eqn:Hl; [|by eexists].
  apply last_key_value_Some, (oo_entry _ Hok) in Hl as [Hob _].
  destruct (last_block_ok ob) as (b & -> & _); [by apply ordered_nonempty|]. by eexists.
Qed.
End ordered.

(** ** Blocks that wait for payloads *)

(** A block as it was received. *)
Definition decoded (b : PipelinedBlock) : Prop :=
  pb_insertion_time b = None ∧ pb_id b = hash (block_block_data (pb_block b)).
Definition pending_block_ok (ob : OrderedBlock) : Prop :=
  verify_ordered_blocks ob = Ok tt ∧ Forall decoded (ob_blocks ob).

Record pending_ok (self : PendingBlockStore) : Prop := {
  ko_max : pbs_max_num_pending_blocks self = max;
  ko_size : Z.of_nat (size (pbs_blocks_without_payloads self)) ≤ max;
  ko_entry key ob : pbs_blocks_without_payloads self !! key = Some ob → pending_block_ok ob;
}.

Lemma verified_nonempty ob : verify_ordered_blocks ob = Ok tt → ob_blocks ob ≠ [].
Proof using Type. intros (_ & b & Hb & _)%verify_ordered_blocks_Ok Hnil. by rewrite Hnil in Hb. Qed.

Lemma garbage_collect_ok self :
  pbs_max_num_pending_blocks self = max →
  (∀ key ob, pbs_blocks_without_payloads self !! key = Some ob → pending_block_ok ob) →
  pending_ok (garbage_collect_pending_blocks self).
Proof using max_nonneg.
  intros Hm He. unfold garbage_collect_pending_blocks. rewrite Hm.
  set (blocks := pbs_blocks_without_payloads self) in *.
  set (removed := take _ _). destruct (foldl_delete removed blocks) as [Hsub Hsize].
  split; simpl; [done| |].
  - rewrite Hsize.
    + unfold removed. rewrite length_take, length_btree_list. unfold u64_saturating_sub. lia.
    + unfold removed. rewrite fmap_take. apply (sublist_NoDup _ (btree_list epoch_round_le blocks).*1).
      * unfold btree_list. rewrite merge_sort_Permutation. apply NoDup_fst_map_to_list.
      * apply sublist_take.
    + intros [k ob] Hin. simpl. exists ob. apply (elem_of_btree_list epoch_round_le).
      apply elem_of_take in Hin as (i & Hi & _). by apply list_elem_of_lookup_2 in Hi.
  - intros key ob Hk. by eapply He, lookup_weaken.
Qed.

Lemma insert_pending_ok ob self :
  pending_ok self → pending_block_ok ob →
  ∃ self', insert_pending_block ob self = Ok self' ∧ pending_ok self'.
Proof using max_nonneg.
  intros [Hm Hs He] Hob. unfold insert_pending_block.
  destruct (first_block_ok ob) as [b ->]; [by apply verified_nonempty, Hob|].
  cbn [mbind result_bind]. eexists. split; [done|]. apply garbage_collect_ok; [done|].
  intros key ob'. simpl. destruct (pbs_blocks_without_payloads self !! pb_key b); [apply He|].
  rewrite lookup_insert_Some. intros [[_ <-]|[_ Hk]]; [done|by eapply He].
Qed.

Lemma pending_subseteq self m :
  pending_ok self → m ⊆ pbs_blocks_without_payloads self → pending_ok (with_pending m self).
Proof using Type.
  intros [Hm Hs He] Hsub. split; simpl; [done| |].
  - pose proof (map_subseteq_size _ _ Hsub). lia.
  - intros key e Hk. by eapply He, lookup_weaken.
Qed.

Lemma remove_ready_ok epoch round payloads self :
  pending_ok self →
  ∃ self' ready, remove_ready_block epoch round payloads self = Ok (self', ready) ∧
    pending_ok self' ∧ ∀ ob, ready = Some ob → pending_block_ok ob.
Proof using Type.
  intros Hok. unfold remove_ready_block. set (split := (epoch, _)).
  pose proof (entries_from_subseteq split (pbs_blocks_without_payloads self)) as Hsub.
  destruct (last_key_value _) as [[k ob]|] eqn:Hl.
  2: { eexists _, _. split_and!; [done|by apply pending_subseteq|done]. }
  apply last_key_value_Some in Hl.
  apply (lookup_weaken _ (pbs_blocks_without_payloads self)) in Hl; [|apply entries_below_subseteq].
  pose proof (ko_entry _ Hok _ _ Hl) as Hv.
  destruct (bps_all_payloads_exist _ _).
  { eexists _, _. split_and!; [done|by apply pending_subseteq|by intros ? [= <-]]. }
  destruct (last_block_ok ob) as (b & -> & _); [by apply verified_nonempty, Hv|].
  cbn [mbind result_bind]. eexists _, _. split_and!; [done| |done].
  apply pending_subseteq; [done|]. case_match; [|done]. by apply insert_subseteq_l.
Qed.
End observer_stores_safety.

(** Later epochs and messages do not invalidate what was verified. *)
Section known_mono.
Context `{L : Laptos} `{G : !Gcei} `{!CryptoHash VoteData} `{!CryptoHash BatchInfo}.
Context (batch_payload_hash : AccountAddress → list SignedTransaction → HashValue) (max : Z).
Context (known known' : EpochState → Prop) (Hknown : ∀ es, known es → known' es).
Context (received received' : BlockPayload → Prop) (Hreceived : ∀ p, received p → received' p).

Lemma payload_signed_mono p : payload_signed known p → payload_signed known' p.
Proof using Hknown. intros (es & Hk & Hs). exists es. split; [by apply Hknown|done]. Qed.
Lemma payloads_ok_mono self :
  payloads_ok batch_payload_hash max known received self →
  payloads_ok batch_payload_hash max known' received' self.
Proof using Hknown Hreceived.
  intros [Hm Hs Hst]. split; [done..|]. intros key st (Hk & Hr & Hd & Hv)%Hst.
  split_and!; [done|by apply Hreceived|done|]. destruct st; [by apply payload_signed_mono|done].
Qed.
Lemma payload_of_block_mono b :
  payload_of_block batch_payload_hash known received b →
  payload_of_block batch_payload_hash known' received' b.
Proof using Hknown Hreceived.
  intros (payload & p & Hr & Hb & Hk & Hv & Hd & Hs). exists payload, p.
  split_and!; [by apply Hreceived|done..|by apply payload_signed_mono].
Qed.
End known_mono.

(** ** A full store *)

Section full_store.
Context `{L : Laptos} `{G : !Gcei} `{!CryptoHash VoteData} `{!CryptoHash BatchInfo}.

(** When every payload verifies, the loop changes nothing and collects those of
    the epoch. *)
Lemma verify_signatures_loop_all es m keys : ∀ upd,
  StronglySorted epoch_round_le keys →
  (∀ key p, m !! key = Some (AvailableAndUnverified p) → key.1 = EpochState_epoch es →
    verify_payload_signatures es p = Ok tt) →
  ∃ upd', verify_signatures_loop es keys m upd = Ok (m, upd') ∧ (∀ p, p ∈ upd → p ∈ upd') ∧
    ∀ key p, key ∈ keys → m !! key = Some (AvailableAndUnverified p) →
      key.1 = EpochState_epoch es → p ∈ upd'.
Proof using Type.
  induction keys as [|key keys IH]; intros upd Hs Hv; simpl.
  { exists upd. split_and!; [done..|]. by intros key p ?%elem_of_nil. }
  apply StronglySorted_inv in Hs as [Hs Hle]. rewrite Forall_forall in Hle.
  rewrite Z.gtb_ltb. destruct (Z.ltb_spec (EpochState_epoch es) key.1) as [Hgt|_].
  { exists upd. split_and!; [done..|]. intros k p [->|Hk]%elem_of_cons _ He; [lia|].
    apply Hle in Hk. unfold epoch_round_le in Hk. lia. }
  destruct (Z.eqb_spec key.1 (EpochState_epoch es)) as [He|Hne].
  2: { destruct (IH upd Hs Hv) as (upd' & -> & Hin & Hall). exists upd'. split_and!; [done..|].
       intros k p [->|Hk]%elem_of_cons; [done|by apply Hall]. }
  destruct (m !! key) as [[p|p]|] eqn:Hm.
  2: { rewrite (Hv _ _ Hm He). destruct (IH (upd ++ [p]) Hs Hv) as (upd' & -> & Hin & Hall).
       exists upd'. split_and!; [done| |].
       - intros p' Hp'. apply Hin, elem_of_app. by left.
       - intros k p' [->|Hk]%elem_of_cons Hk'; [|by eapply Hall].
         intros _. apply Hin, elem_of_app. right. rewrite Hm in Hk'. injection Hk' as ->. by left. }
  all: destruct (IH upd Hs Hv) as (upd' & -> & Hin & Hall); exists upd'; split_and!; [done..|].
  all: intros k p' [->|Hk]%elem_of_cons Hk'; [congruence|by eapply Hall].
Qed.

(** A full store never marks a payload as verified.  When the payloads that
    waited for their epoch reach the maximum, all of them verify and their
    rounds are reported as verified, but the store drops every update: it is the
    same as before, with the payloads unverified. *)
Theorem full_store_unverified es self :
  bps_max_num_pending_blocks self ≤ Z.of_nat (size (bps_block_payloads self)) →
  (∀ key p, bps_block_payloads self !! key = Some (AvailableAndUnverified p) →
    key.1 = EpochState_epoch es → verify_payload_signatures es p = Ok tt) →
  ∃ rounds, bps_verify_payload_signatures es self = Ok (self, rounds) ∧
    ∀ key p, bps_block_payloads self !! key = Some (AvailableAndUnverified p) →
      key.1 = EpochState_epoch es → BlockInfo_round (bpm_block p) ∈ rounds.
Proof using Type.
  intros Hfull Hv. unfold bps_verify_payload_signatures.
  destruct (verify_signatures_loop_all es (bps_block_payloads self)
    (btree_list epoch_round_le (bps_block_payloads self)).*1 []) as (upd & -> & _ & Hall); [|done|].
  { apply (StronglySorted_fmap fst (on_fst epoch_round_le)); [done|]. apply btree_list_sorted; apply _. }
  cbn [mbind result_bind]. eexists. split.
  - f_equal. f_equal. replace (with_payloads _ self) with self by by destruct self.
    clear Hall. induction upd as [|p upd IH]; simpl; [done|]. rewrite <- IH at 2. f_equal.
    unfold insert_block_payload. by rewrite Z.geb_leb, (proj2 (Z.leb_le _ _)).
  - intros key p Hk He. apply (list_elem_of_fmap_2 (λ p, BlockInfo_round (bpm_block p))).
    apply (Hall key); [|done|done]. apply (list_elem_of_fmap_2' _ _ (key, AvailableAndUnverified p)); [|done].
    by apply elem_of_btree_list.
Qed.
End full_store.
