(* ===== verification/Observer.v ===== *)
(** The consensus observer: consensus/src/consensus_observer/{subscription,
    publisher, observer}.rs.

    An observer subscribes to one peer, verifies the ordered blocks, payloads and
    commit decisions it publishes, and hands the blocks to its execution
    pipeline; when it is behind it syncs the state.  The calls to the execution
    client and the unsubscriptions are logged; the client's errors are only
    reported by the code.  What the task selects from is an [ObserverEvent]. *)
From S2P Require Import Prelude Laptos Payload Certificates Block Votes BlockBuffer Pipelined.
From S2P Require Import Expirations BatchStore ObserverMessages ObserverStores.

(** ** Messages *)

Inductive ConsensusObserverRequest : Type := Subscribe | Unsubscribe.
Inductive ConsensusObserverResponse : Type := SubscribeAck | UnsubscribeAck.

(** ** subscription.rs *)

Section subscription.
(** [PeerNetworkId] of the laptos crate, and the order of [OrderedFloat]. *)
Context {PeerNetworkId : Type} `{Countable PeerNetworkId}.
Context {Latency : Type} (latency_leb : Latency → Latency → bool) (MAX_PING_LATENCY_SECS : Latency).
Context (MAX_DISTANCE_FROM_VALIDATORS : Z).

(** Instants are in nanoseconds. *)
Record ConsensusObserverSubscription : Type := {
  cos_max_subscription_timeout_ms : Z;
  cos_peer_network_id : PeerNetworkId;
  cos_last_message_receive_time : Z;
  cos_last_peer_optimality_check : Z;
  cos_highest_synced_version_and_time : Z * Z;
}.
Definition ConsensusObserverSubscription_new (max_subscription_timeout_ms : Z)
    (peer_network_id : PeerNetworkId) (time_now : Z) : ConsensusObserverSubscription :=
  {| cos_max_subscription_timeout_ms := max_subscription_timeout_ms;
     cos_peer_network_id := peer_network_id; cos_last_message_receive_time := time_now;
     cos_last_peer_optimality_check := time_now;
     cos_highest_synced_version_and_time := (0, time_now) |}.

Definition check_subscription_timeout (time_now : Z) (self : ConsensusObserverSubscription) :
    result ObserverError unit :=
  let duration_since_last_message := Z.max 0 (time_now - cos_last_message_receive_time self) in
  if duration_since_last_message >? cos_max_subscription_timeout_ms self * 1000000
  then Err (SubscriptionTimeout "Subscription to peer has timed out!") else Ok tt.

(** The checks of progress and of optimality are commented out in the code. *)
Definition check_syncing_progress (self : ConsensusObserverSubscription) :
    result ObserverError unit := Ok tt.
Definition check_subscription_peer_optimality (self : ConsensusObserverSubscription) :
    result ObserverError unit := Ok tt.

Definition verify_message_sender (peer_network_id : PeerNetworkId) (time_now : Z)
    (self : ConsensusObserverSubscription) : result ObserverError ConsensusObserverSubscription :=
  if decide (cos_peer_network_id self = peer_network_id) then
    Ok {| cos_max_subscription_timeout_ms := cos_max_subscription_timeout_ms self;
          cos_peer_network_id := cos_peer_network_id self;
          cos_last_message_receive_time := time_now;
          cos_last_peer_optimality_check := cos_last_peer_optimality_check self;
          cos_highest_synced_version_and_time := cos_highest_synced_version_and_time self |}
  else Err (UnexpectedError "Received message from unexpected peer!").

Record PeerMetadata : Type := { pm_distance : option Z; pm_latency : option Latency }.

Definition peers_by_distance (peers_and_metadata : list (PeerNetworkId * PeerMetadata)) :
    gmap Z (list (PeerNetworkId * Latency)) :=
  foldl (λ m p,
    let distance := default MAX_DISTANCE_FROM_VALIDATORS (pm_distance p.2) in
    let latency := default MAX_PING_LATENCY_SECS (pm_latency p.2) in
    <[distance := default [] (m !! distance) ++ [(p.1, latency)]]> m) ∅ peers_and_metadata.

(** The peers come in the iteration order of the map. *)
Definition sort_peers_by_distance_and_latency
    (peers_and_metadata : list (PeerNetworkId * PeerMetadata)) : list PeerNetworkId :=
  concat ((λ e, (sort_by (λ x y, latency_leb x.2 y.2) e.2).*1) <$>
            btree_list Z.le (peers_by_distance peers_and_metadata)).
End subscription.
Arguments ConsensusObserverSubscription : clear implicits.
Arguments PeerMetadata : clear implicits.

Section observer.
Context `{L : Laptos} `{G : !Gcei} `{!CryptoHash VoteData} `{!CryptoHash BatchInfo}.
Context `{!CryptoHash BlockData}.
Context (batch_payload_hash : AccountAddress → list SignedTransaction → HashValue).
Context (EpochState_verify : EpochState → LedgerInfoWithSignatures → result anyhow unit).
Context {PeerNetworkId : Type} `{Countable PeerNetworkId}.
Context {Latency : Type} (latency_leb : Latency → Latency → bool) (MAX_PING_LATENCY_SECS : Latency).
Context (MAX_DISTANCE_FROM_VALIDATORS : Z).

#[local] Abbreviation Subscription := (ConsensusObserverSubscription PeerNetworkId).

Inductive ConsensusObserverDirectSend : Type :=
| OrderedBlockMsg (ordered_block : OrderedBlock)
| CommitDecisionMsg (commit_decision : ObserverCommitDecision)
| BlockPayloadMsg (block_payload : BlockPayload).

(** ** publisher.rs *)

(** The subscribers, and the messages put into the outbound channel. *)
Record ConsensusPublisher : Type := {
  cp_active_subscribers : gset PeerNetworkId;
  cp_outbound_messages : list (PeerNetworkId * ConsensusObserverDirectSend);
}.
Definition ConsensusPublisher_new : ConsensusPublisher :=
  {| cp_active_subscribers := ∅; cp_outbound_messages := [] |}.
Definition with_subscribers (subscribers : gset PeerNetworkId) (self : ConsensusPublisher) :
    ConsensusPublisher :=
  {| cp_active_subscribers := subscribers; cp_outbound_messages := cp_outbound_messages self |}.

Definition garbage_collect_subscriptions (connected_peers : option (list PeerNetworkId))
    (self : ConsensusPublisher) : ConsensusPublisher :=
  match connected_peers with
  | Some connected_peers =>
      let disconnected_subscribers := cp_active_subscribers self ∖ list_to_set connected_peers in
      with_subscribers (cp_active_subscribers self ∖ disconnected_subscribers) self
  | None => self
  end.

Definition handle_subscription_request (peer_network_id : PeerNetworkId)
    (request : ConsensusObserverRequest) (self : ConsensusPublisher) :
    ConsensusPublisher * ConsensusObserverResponse :=
  match request with
  | Subscribe =>
      (with_subscribers ({[peer_network_id]} ∪ cp_active_subscribers self) self, SubscribeAck)
  | Unsubscribe =>
      (with_subscribers (cp_active_subscribers self ∖ {[peer_network_id]}) self, UnsubscribeAck)
  end.

Definition publish_message (message : ConsensusObserverDirectSend) (self : ConsensusPublisher) :
    ConsensusPublisher :=
  {| cp_active_subscribers := cp_active_subscribers self;
     cp_outbound_messages := cp_outbound_messages self ++
       ((λ peer, (peer, message)) <$> elements (cp_active_subscribers self)) |}.

(** ** observer.rs *)

Inductive ExecutionCall : Type :=
| FinalizeOrder (ordered_block : OrderedBlock)
| SendCommitDecision (commit_decision : ObserverCommitDecision)
| SyncTo (commit_decision : ObserverCommitDecision)
| ResetTo (root : LedgerInfoWithSignatures)
| EndEpoch
| StartEpoch (epoch_state : EpochState) (quorum_store_enabled : bool).

(** The handle of a state sync tells whether it changes the epoch. *)
Record ConsensusObserver : Type := {
  co_epoch_state : option EpochState;
  co_quorum_store_enabled : bool;
  co_root : LedgerInfoWithSignatures;
  co_block_payload_store : BlockPayloadStore;
  co_ordered_block_store : OrderedBlockStore;
  co_pending_block_store : PendingBlockStore;
  co_sync_handle : option bool;
  co_consensus_publisher : option ConsensusPublisher;
  co_active_observer_subscription : option Subscription;
  co_max_subscription_timeout_ms : Z;
  co_calls : list ExecutionCall;
  co_unsubscribed : list PeerNetworkId;
}.

Definition ConsensusObserver_new (max_num_pending_blocks max_subscription_timeout_ms : Z)
    (consensus_publisher : option ConsensusPublisher) (root : LedgerInfoWithSignatures) :
    ConsensusObserver :=
  {| co_epoch_state := None; co_quorum_store_enabled := false; co_root := root;
     co_block_payload_store := BlockPayloadStore_new max_num_pending_blocks;
     co_ordered_block_store := OrderedBlockStore_new max_num_pending_blocks;
     co_pending_block_store := PendingBlockStore_new max_num_pending_blocks;
     co_sync_handle := None; co_consensus_publisher := consensus_publisher;
     co_active_observer_subscription := None;
     co_max_subscription_timeout_ms := max_subscription_timeout_ms;
     co_calls := []; co_unsubscribed := [] |}.

(** Updates of the fields. *)
Definition co_set_stores (payloads : BlockPayloadStore) (ordered : OrderedBlockStore)
    (pending : PendingBlockStore) (self : ConsensusObserver) : ConsensusObserver :=
  {| co_epoch_state := co_epoch_state self;
     co_quorum_store_enabled := co_quorum_store_enabled self; co_root := co_root self;
     co_block_payload_store := payloads; co_ordered_block_store := ordered;
     co_pending_block_store := pending; co_sync_handle := co_sync_handle self;
     co_consensus_publisher := co_consensus_publisher self;
     co_active_observer_subscription := co_active_observer_subscription self;
     co_max_subscription_timeout_ms := co_max_subscription_timeout_ms self;
     co_calls := co_calls self; co_unsubscribed := co_unsubscribed self |}.
Definition co_set_payloads (payloads : BlockPayloadStore) (self : ConsensusObserver) :
    ConsensusObserver :=
  co_set_stores payloads (co_ordered_block_store self) (co_pending_block_store self) self.
Definition co_set_ordered (ordered : OrderedBlockStore) (self : ConsensusObserver) :
    ConsensusObserver :=
  co_set_stores (co_block_payload_store self) ordered (co_pending_block_store self) self.
Definition co_set_pending (pending : PendingBlockStore) (self : ConsensusObserver) :
    ConsensusObserver :=
  co_set_stores (co_block_payload_store self) (co_ordered_block_store self) pending self.
Definition co_set_epoch (epoch_state : EpochState) (quorum_store_enabled : bool)
    (self : ConsensusObserver) : ConsensusObserver :=
  {| co_epoch_state := Some epoch_state;
     co_quorum_store_enabled := quorum_store_enabled; co_root := co_root self;
     co_block_payload_store := co_block_payload_store self;
     co_ordered_block_store := co_ordered_block_store self;
     co_pending_block_store := co_pending_block_store self; co_sync_handle := co_sync_handle self;
     co_consensus_publisher := co_consensus_publisher self;
     co_active_observer_subscription := co_active_observer_subscription self;
     co_max_subscription_timeout_ms := co_max_subscription_timeout_ms self;
     co_calls := co_calls self; co_unsubscribed := co_unsubscribed self |}.
Definition co_set_sync (root : LedgerInfoWithSignatures) (sync_handle : option bool)
    (self : ConsensusObserver) : ConsensusObserver :=
  {| co_epoch_state := co_epoch_state self;
     co_quorum_store_enabled := co_quorum_store_enabled self; co_root := root;
     co_block_payload_store := co_block_payload_store self;
     co_ordered_block_store := co_ordered_block_store self;
     co_pending_block_store := co_pending_block_store self; co_sync_handle := sync_handle;
     co_consensus_publisher := co_consensus_publisher self;
     co_active_observer_subscription := co_active_observer_subscription self;
     co_max_subscription_timeout_ms := co_max_subscription_timeout_ms self;
     co_calls := co_calls self; co_unsubscribed := co_unsubscribed self |}.
Definition co_set_peers (publisher : option ConsensusPublisher) (subscription : option Subscription)
    (unsubscribed : list PeerNetworkId) (self : ConsensusObserver) : ConsensusObserver :=
  {| co_epoch_state := co_epoch_state self;
     co_quorum_store_enabled := co_quorum_store_enabled self; co_root := co_root self;
     co_block_payload_store := co_block_payload_store self;
     co_ordered_block_store := co_ordered_block_store self;
     co_pending_block_store := co_pending_block_store self; co_sync_handle := co_sync_handle self;
     co_consensus_publisher := publisher; co_active_observer_subscription := subscription;
     co_max_subscription_timeout_ms := co_max_subscription_timeout_ms self;
     co_calls := co_calls self; co_unsubscribed := unsubscribed |}.
Definition execution_call (call : ExecutionCall) (self : ConsensusObserver) : ConsensusObserver :=
  {| co_epoch_state := co_epoch_state self;
     co_quorum_store_enabled := co_quorum_store_enabled self; co_root := co_root self;
     co_block_payload_store := co_block_payload_store self;
     co_ordered_block_store := co_ordered_block_store self;
     co_pending_block_store := co_pending_block_store self; co_sync_handle := co_sync_handle self;
     co_consensus_publisher := co_consensus_publisher self;
     co_active_observer_subscription := co_active_observer_subscription self;
     co_max_subscription_timeout_ms := co_max_subscription_timeout_ms self;
     co_calls := co_calls self ++ [call]; co_unsubscribed := co_unsubscribed self |}.

Definition all_payloads_exist (blocks : list PipelinedBlock) (self : ConsensusObserver) : bool :=
  if negb (co_quorum_store_enabled self) then true
  else bps_all_payloads_exist blocks (co_block_payload_store self).

(** [expect] on the epoch state. *)
Definition get_epoch_state (self : ConsensusObserver) : result ObserverError EpochState :=
  match co_epoch_state self with Some epoch_state => Ok epoch_state | None => Panic end.

Definition get_last_block (self : ConsensusObserver) : result ObserverError BlockInfo :=
  last_ordered ← get_last_ordered_block (co_ordered_block_store self);
  Ok (default (proof_commit_info (co_root self)) last_ordered).

Definition in_state_sync_epoch_change (self : ConsensusObserver) : bool :=
  bool_decide (co_sync_handle self = Some true).
Definition in_state_sync_mode (self : ConsensusObserver) : bool :=
  match co_sync_handle self with Some _ => true | None => false end.

(** [finalize_order] of pipeline/execution_client.rs: the blocks get their
    insertion time, which must not have been set, and are sent to the pipeline;
    its channel is there from the start of an epoch on. *)
Definition set_insertion_time (time_now : Z) (block : PipelinedBlock) :
    result ObserverError PipelinedBlock :=
  match PipelinedBlock_set_insertion_time time_now block with
  | (block, Ok _) => Ok block
  | (_, _) => Panic
  end.
Fixpoint set_insertion_times (time_now : Z) (blocks : list PipelinedBlock) :
    result ObserverError (list PipelinedBlock) :=
  match blocks with
  | [] => Ok []
  | block :: blocks =>
      block ← set_insertion_time time_now block;
      blocks ← set_insertion_times time_now blocks;
      Ok (block :: blocks)
  end.

(** The result has the blocks as they are after the call: they are shared with
    the other holders of the ordered block. *)
Definition finalize_ordered_block (time_now : Z) (ordered_block : OrderedBlock)
    (self : ConsensusObserver) : result ObserverError (OrderedBlock * ConsensusObserver) :=
  if bool_decide (ob_blocks ordered_block = []) then Panic
  else
    blocks ← set_insertion_times time_now (ob_blocks ordered_block);
    let ordered_block :=
      {| ob_blocks := blocks; ob_ordered_proof := ob_ordered_proof ordered_block |} in
    Ok (ordered_block, execution_call (FinalizeOrder ordered_block) self).
Definition forward_commit_decision (commit_decision : ObserverCommitDecision) :
    ConsensusObserver → ConsensusObserver :=
  execution_call (SendCommitDecision commit_decision).
Definition unsubscribe_from_peer (peer : PeerNetworkId) (self : ConsensusObserver) :
    ConsensusObserver :=
  co_set_peers (co_consensus_publisher self) (co_active_observer_subscription self)
    (co_unsubscribed self ++ [peer]) self.

Definition clear_pending_block_state (self : ConsensusObserver) : ConsensusObserver :=
  execution_call (ResetTo (co_root self))
    (co_set_stores (clear_all_payloads (co_block_payload_store self))
       (clear_all_ordered_blocks (co_ordered_block_store self))
       (clear_missing_blocks (co_pending_block_store self)) self).

(** The closure of [create_commit_callback], called by the execution pipeline. *)
Definition observer_commit_callback (blocks : list PipelinedBlock) (ledger_info : LedgerInfoWithSignatures)
    (self : ConsensusObserver) : ConsensusObserver :=
  let self := co_set_payloads (bps_remove_committed_blocks blocks (co_block_payload_store self)) self in
  let self :=
    co_set_ordered (remove_blocks_for_commit ledger_info (co_ordered_block_store self)) self in
  let commit := proof_commit_info ledger_info in
  let root := proof_commit_info (co_root self) in
  if negb (BlockInfo_epoch commit =? BlockInfo_epoch root) then self
  else if BlockInfo_round commit >? BlockInfo_round root
  then co_set_sync ledger_info (co_sync_handle self) self
  else self.

(** A message that fails its verification is ignored. *)
Definition or_ignore {A} (r : result ObserverError A) (self : ConsensusObserver)
    (k : A → result ObserverError ConsensusObserver) : result ObserverError ConsensusObserver :=
  match r with Ok a => k a | Err _ => Ok self | Panic => Panic end.

(** The store keeps a clone of the ordered block, which has the same shared
    blocks: when they are finalized, the entry that was inserted has the blocks
    as they are after that. *)
Definition process_ordered_block (time_now : Z) (ordered_block : OrderedBlock)
    (self : ConsensusObserver) : result ObserverError ConsensusObserver :=
  epoch_state ← get_epoch_state self;
  if BlockInfo_epoch (proof_block_info ordered_block) =? EpochState_epoch epoch_state then
    or_ignore (verify_ordered_proof EpochState_verify epoch_state ordered_block) self (λ _,
    or_ignore (verify_payloads_against_ordered_block ordered_block (co_block_payload_store self)) self (λ _,
      last ← get_last_block self;
      first ← first_block ordered_block;
      if bool_decide (BlockInfo_id last = pb_parent_id first) then
        ordered ← insert_ordered_block ordered_block (co_ordered_block_store self);
        if negb (in_state_sync_mode self) then
          '(finalized, self) ← finalize_ordered_block time_now ordered_block self;
          ordered ← insert_ordered_block finalized (co_ordered_block_store self);
          Ok (co_set_ordered ordered self)
        else Ok (co_set_ordered ordered self)
      else Ok self))
  else Ok self.

Definition process_ordered_block_message (time_now : Z) (ordered_block : OrderedBlock)
    (self : ConsensusObserver) : result ObserverError ConsensusObserver :=
  or_ignore (verify_ordered_blocks ordered_block) self (λ _,
    if all_payloads_exist (ob_blocks ordered_block) self
    then process_ordered_block time_now ordered_block self
    else
      pending ← insert_pending_block ordered_block (co_pending_block_store self);
      Ok (co_set_pending pending self)).

Definition order_ready_pending_block (time_now block_epoch block_round : Z)
    (self : ConsensusObserver) : result ObserverError ConsensusObserver :=
  '(pending, ready) ← remove_ready_block block_epoch block_round (co_block_payload_store self)
                        (co_pending_block_store self);
  let self := co_set_pending pending self in
  match ready with
  | Some ordered_block => process_ordered_block time_now ordered_block self
  | None => Ok self
  end.

Definition process_block_payload_message (time_now : Z) (block_payload : BlockPayload)
    (self : ConsensusObserver) : result ObserverError ConsensusObserver :=
  let block_epoch := BlockInfo_epoch (bpm_block block_payload) in
  let block_round := BlockInfo_round (bpm_block block_payload) in
  or_ignore (verify_payload_digests batch_payload_hash block_payload) self (λ _,
    epoch_state ← get_epoch_state self;
    let insert verified self :=
      co_set_payloads (insert_block_payload block_payload verified (co_block_payload_store self)) self in
    if block_epoch =? EpochState_epoch epoch_state then
      or_ignore (verify_payload_signatures epoch_state block_payload) self (λ _,
        order_ready_pending_block time_now block_epoch block_round (insert true self))
    else Ok (insert false self)).

(** The flag tells whether the decision was processed. *)
Definition process_commit_decision_for_pending_block (commit_decision : ObserverCommitDecision)
    (self : ConsensusObserver) : ConsensusObserver * bool :=
  match get_ordered_block (ocd_epoch commit_decision) (ocd_round commit_decision)
          (co_ordered_block_store self) with
  | Some pending_block =>
      if all_payloads_exist (ob_blocks pending_block) self then
        let self :=
          co_set_ordered (update_commit_decision commit_decision (co_ordered_block_store self)) self in
        if negb (in_state_sync_mode self) then (forward_commit_decision commit_decision self, true)
        else (self, true)
      else (self, false)
  | None => (self, false)
  end.

(** The part of [process_commit_decision_message] after the verification. *)
Definition sync_to_future_commit (commit_decision : ObserverCommitDecision)
    (self : ConsensusObserver) : result ObserverError ConsensusObserver :=
  let commit_decision_epoch := ocd_epoch commit_decision in
  let commit_decision_round := ocd_round commit_decision in
  last ← get_last_block self;
  let epoch_changed := commit_decision_epoch >? BlockInfo_epoch last in
  if epoch_changed || (commit_decision_round >? BlockInfo_round last) then
    if in_state_sync_epoch_change self then Ok self
    else
      let payloads := remove_blocks_for_epoch_round commit_decision_epoch commit_decision_round
                        (co_block_payload_store self) in
      let ordered := remove_blocks_for_commit (ocd_commit_proof commit_decision)
                       (co_ordered_block_store self) in
      let self := co_set_stores payloads ordered (co_pending_block_store self) self in
      Ok (co_set_sync (ocd_commit_proof commit_decision) (Some epoch_changed)
            (execution_call (SyncTo commit_decision) self))
  else Ok self.

Definition process_commit_decision_message (commit_decision : ObserverCommitDecision)
    (self : ConsensusObserver) : result ObserverError ConsensusObserver :=
  epoch_state ← get_epoch_state self;
  if ocd_epoch commit_decision =? EpochState_epoch epoch_state then
    or_ignore (verify_commit_proof EpochState_verify epoch_state commit_decision) self (λ _,
      let '(self, processed) := process_commit_decision_for_pending_block commit_decision self in
      if processed then Ok self else sync_to_future_commit commit_decision self)
  else sync_to_future_commit commit_decision self.

Definition process_direct_send_message (time_now : Z) (peer_network_id : PeerNetworkId)
    (message : ConsensusObserverDirectSend) (self : ConsensusObserver) :
    result ObserverError ConsensusObserver :=
  match co_active_observer_subscription self with
  | Some active_subscription =>
      match verify_message_sender peer_network_id time_now active_subscription with
      | Ok active_subscription =>
          let self := co_set_peers (co_consensus_publisher self) (Some active_subscription)
                        (co_unsubscribed self) self in
          match message with
          | OrderedBlockMsg ordered_block => process_ordered_block_message time_now ordered_block self
          | CommitDecisionMsg commit_decision => process_commit_decision_message commit_decision self
          | BlockPayloadMsg block_payload => process_block_payload_message time_now block_payload self
          end
      | _ => Ok (unsubscribe_from_peer peer_network_id self)
      end
  | None => Ok (unsubscribe_from_peer peer_network_id self)
  end.

(** The response, when there is a sender for it and a publisher. *)
Definition process_request_message (peer_network_id : PeerNetworkId)
    (request : ConsensusObserverRequest) (response_sender : bool) (self : ConsensusObserver) :
    ConsensusObserver * option ConsensusObserverResponse :=
  match response_sender, co_consensus_publisher self with
  | true, Some consensus_publisher =>
      let '(consensus_publisher, response) :=
        handle_subscription_request peer_network_id request consensus_publisher in
      (co_set_peers (Some consensus_publisher) (co_active_observer_subscription self)
         (co_unsubscribed self) self, Some response)
  | _, _ => (self, None)
  end.

(** [reconfig] is the next reconfiguration notification: the epoch state and
    whether the quorum store is enabled in its configuration. *)
Definition wait_for_epoch_start (reconfig : option (EpochState * bool)) (self : ConsensusObserver) :
    result ObserverError ConsensusObserver :=
  match reconfig with
  | Some (epoch_state, quorum_store_enabled) =>
      Ok (execution_call (StartEpoch epoch_state quorum_store_enabled)
            (co_set_epoch epoch_state quorum_store_enabled self))
  | None => Panic
  end.

Definition check_root_epoch_and_round (root : LedgerInfoWithSignatures) (epoch round : Z) : bool :=
  (BlockInfo_epoch (proof_commit_info root) =? epoch) &&
  (BlockInfo_round (proof_commit_info root) =? round).

(** The last loop of [process_sync_notification]: over a snapshot of the store,
    whose blocks are those of the store. *)
Definition finalize_entry (time_now : Z) (self : ConsensusObserver)
    (e : EpochRound * (OrderedBlock * option ObserverCommitDecision)) :
    result ObserverError ConsensusObserver :=
  let '(key, (ordered_block, commit_decision)) := e in
  '(finalized, self) ← finalize_ordered_block time_now ordered_block self;
  let blocks := obs_ordered_blocks (co_ordered_block_store self) in
  let self := co_set_ordered (with_ordered (<[key := (finalized, commit_decision)]> blocks)
                (co_ordered_block_store self)) self in
  Ok (from_option (λ decision, forward_commit_decision decision self) self commit_decision).
Definition finalize_all (time_now : Z) (self : ConsensusObserver) :
    result ObserverError ConsensusObserver :=
  fold_result (finalize_entry time_now) self (get_all_ordered_blocks (co_ordered_block_store self)).

Definition process_sync_notification (time_now epoch round : Z)
    (reconfig : option (EpochState * bool)) (self : ConsensusObserver) :
    result ObserverError ConsensusObserver :=
  if negb (check_root_epoch_and_round (co_root self) epoch round) then Ok self
  else
    current_epoch_state ← get_epoch_state self;
    self ←
      if epoch >? EpochState_epoch current_epoch_state then
        self ← wait_for_epoch_start reconfig (execution_call EndEpoch self);
        new_epoch_state ← get_epoch_state self;
        '(payloads, verified_payload_rounds) ←
          bps_verify_payload_signatures new_epoch_state (co_block_payload_store self);
        fold_result (λ self payload_round,
            order_ready_pending_block time_now (EpochState_epoch new_epoch_state) payload_round self)
          (co_set_payloads payloads self) verified_payload_rounds
      else Ok self;
    finalize_all time_now (co_set_sync (co_root self) None self).

(** [connected] are the connected peers, when they can be read. *)
Definition check_active_subscription (time_now : Z)
    (connected : option (list (PeerNetworkId * PeerMetadata Latency))) (self : ConsensusObserver) :
    ConsensusObserver * result ObserverError unit :=
  match co_active_observer_subscription self with
  | Some active_subscription =>
      let taken := co_set_peers (co_consensus_publisher self) None (co_unsubscribed self) self in
      let peer_still_connected :=
        from_option (λ peers, bool_decide (cos_peer_network_id active_subscription ∈ peers.*1))
          false connected in
      if negb peer_still_connected
      then (taken, Err (SubscriptionDisconnected "The peer is no longer connected!"))
      else
        match (_ ← check_subscription_timeout time_now active_subscription;
               _ ← check_syncing_progress active_subscription;
               match connected with
               | Some _ => check_subscription_peer_optimality active_subscription
               | None => Ok tt
               end) with
        | Ok _ => (self, Ok tt)
        | e => (taken, e)
        end
  | None => (self, Ok tt)
  end.

Definition sort_peers_for_subscription (previous_subscription_peer : option PeerNetworkId)
    (connected : option (list (PeerNetworkId * PeerMetadata Latency))) (self : ConsensusObserver) :
    option (list PeerNetworkId) :=
  (λ peers,
    let subscribers := from_option cp_active_subscribers ∅ (co_consensus_publisher self) in
    sort_peers_by_distance_and_latency latency_leb MAX_PING_LATENCY_SECS
      MAX_DISTANCE_FROM_VALIDATORS
      (filter (λ p, Some p.1 ≠ previous_subscription_peer ∧ p.1 ∉ subscribers) peers)) <$> connected.

(** [rpc] is what each peer responds to a subscription request. *)
Fixpoint subscribe_to_first (time_now : Z)
    (rpc : PeerNetworkId → result ObserverError ConsensusObserverResponse)
    (sorted_peers : list PeerNetworkId) (self : ConsensusObserver) : ConsensusObserver :=
  match sorted_peers with
  | [] => self
  | selected_peer :: sorted_peers =>
      match rpc selected_peer with
      | Ok SubscribeAck =>
          let subscription := ConsensusObserverSubscription_new
            (co_max_subscription_timeout_ms self) selected_peer time_now in
          co_set_peers (co_consensus_publisher self) (Some subscription) (co_unsubscribed self) self
      | _ => subscribe_to_first time_now rpc sorted_peers self
      end
  end.

Definition create_new_observer_subscription (time_now : Z)
    (connected : option (list (PeerNetworkId * PeerMetadata Latency)))
    (rpc : PeerNetworkId → result ObserverError ConsensusObserverResponse)
    (previous_subscription_peer : option PeerNetworkId) (self : ConsensusObserver) :
    ConsensusObserver :=
  match sort_peers_for_subscription previous_subscription_peer connected self with
  | Some sorted_peers => subscribe_to_first time_now rpc sorted_peers self
  | None => self
  end.

(** The first part of [check_progress]. *)
Definition terminate_unhealthy_subscription (time_now : Z)
    (connected : option (list (PeerNetworkId * PeerMetadata Latency))) (self : ConsensusObserver) :
    ConsensusObserver :=
  match co_active_observer_subscription self with
  | Some active_subscription =>
      match check_active_subscription time_now connected self with
      | (self, Ok _) => self
      | (self, _) => unsubscribe_from_peer (cos_peer_network_id active_subscription) self
      end
  | None => self
  end.

Definition check_progress (time_now : Z)
    (connected : option (list (PeerNetworkId * PeerMetadata Latency)))
    (rpc : PeerNetworkId → result ObserverError ConsensusObserverResponse)
    (self : ConsensusObserver) : ConsensusObserver :=
  if in_state_sync_mode self then self
  else
    let active_subscription_peer :=
      cos_peer_network_id <$> co_active_observer_subscription self in
    let self := terminate_unhealthy_subscription time_now connected self in
    match co_active_observer_subscription self with
    | Some _ => self
    | None =>
        let self := create_new_observer_subscription time_now connected rpc
                      active_subscription_peer self in
        match co_active_observer_subscription self with
        | Some _ => clear_pending_block_state self
        | None => self
        end
    end.

(** ** The loop of [start] *)

(** What the task selects from, and the callback of the execution pipeline. *)
Inductive ObserverEvent : Type :=
| DirectSend (time_now : Z) (peer : PeerNetworkId) (message : ConsensusObserverDirectSend)
| Request (peer : PeerNetworkId) (request : ConsensusObserverRequest) (response_sender : bool)
| SyncNotification (time_now epoch round : Z) (reconfig : option (EpochState * bool))
| ProgressCheck (time_now : Z) (connected : option (list (PeerNetworkId * PeerMetadata Latency)))
    (rpc : PeerNetworkId → result ObserverError ConsensusObserverResponse)
| CommitCallback (blocks : list PipelinedBlock) (ledger_info : LedgerInfoWithSignatures).

(** A message as the network delivers it: the blocks are deserialized. *)
Definition received_ordered_block (ordered_block : OrderedBlock) : OrderedBlock :=
  {| ob_blocks := (λ b, PipelinedBlock_deserialize (PipelinedBlock_serialize b)) <$>
                    ob_blocks ordered_block;
     ob_ordered_proof := ob_ordered_proof ordered_block |}.
Definition received_message (message : ConsensusObserverDirectSend) : ConsensusObserverDirectSend :=
  match message with
  | OrderedBlockMsg ordered_block => OrderedBlockMsg (received_ordered_block ordered_block)
  | _ => message
  end.

Definition observer_step (event : ObserverEvent) (self : ConsensusObserver) :
    result ObserverError ConsensusObserver :=
  match event with
  | DirectSend time_now peer message =>
      process_direct_send_message time_now peer (received_message message) self
  | Request peer request response_sender =>
      Ok (process_request_message peer request response_sender self).1
  | SyncNotification time_now epoch round reconfig =>
      process_sync_notification time_now epoch round reconfig self
  | ProgressCheck time_now connected rpc => Ok (check_progress time_now connected rpc self)
  | CommitCallback blocks ledger_info => Ok (observer_commit_callback blocks ledger_info self)
  end.

(** The observer starts when the first epoch does. *)
Definition observer_start (reconfig : option (EpochState * bool)) (events : list ObserverEvent)
    (self : ConsensusObserver) : result ObserverError ConsensusObserver :=
  self ← wait_for_epoch_start reconfig self;
  fold_result (λ self event, observer_step event self) self events.

(** ** The payload manager of an observer *)

(** [get_transactions_for_observer] of consensus/src/payload_manager.rs, and the
    publisher after the message for downstream observers. *)
Definition get_transactions_for_observer (block : Block)
    (block_payloads : gmap EpochRound BlockPayloadStatus)
    (consensus_publisher : option ConsensusPublisher) :
    option ConsensusPublisher * result ExecutorError (list SignedTransaction * option Z) :=
  match block_payloads !! (block_epoch block, block_round block) with
  | Some (AvailableAndVerified block_payload) =>
      let transaction_payload := bpm_transaction_payload block_payload in
      let message := BlockPayloadMsg
        {| bpm_block := Block_gen_block_info block HashValue_zero 0 None;
           bpm_transaction_payload := transaction_payload |} in
      (publish_message message <$> consensus_publisher,
       Ok (txns_transactions transaction_payload, txns_limit transaction_payload))
  | Some (AvailableAndUnverified _) =>
      (consensus_publisher, Err (InternalError "Payload data for block is unverified!"))
  | None => (consensus_publisher, Err (InternalError "Missing payload data for block!"))
  end.
End observer.
