(* ===== verification/ObserverSafety.v ===== *)
(** The consensus observer hands to execution only what it verified and keeps its
    stores within their size; it panics only when a state sync ends, and then
    only on a block that was finalized before or without a reconfiguration; and
    the orders of messages that mislead it. *)
From S2P Require Import Prelude Laptos Payload Certificates Block Votes BlockBuffer Pipelined.
From S2P Require Import Expirations BatchStore ObserverMessages ObserverPayloads ObserverStores.
From S2P Require Import ObserverStoresSafety Observer.

Lemma subseteq_snoc {A} (l : list A) x : l ⊆ l ++ [x].
Proof. intros y Hy. apply elem_of_app. by left. Qed.

(** ** Insertion times *)

Section insertion_times.
Context `{L : Laptos} `{G : !Gcei} `{!CryptoHash VoteData} `{!CryptoHash BatchInfo}.

(** A block that was not handed to execution, and one that was. *)
Definition fresh (ob : OrderedBlock) : Prop :=
  Forall (λ b, pb_insertion_time b = None) (ob_blocks ob).
Definition finalized (ob : OrderedBlock) : Prop :=
  Forall (λ b, is_Some (pb_insertion_time b)) (ob_blocks ob).
#[global] Instance fresh_dec ob : Decision (fresh ob).
Proof. apply _. Defined.

(** The same blocks but for the insertion times. *)
Definition same_blocks (ob ob' : OrderedBlock) : Prop :=
  pb_block <$> ob_blocks ob' = pb_block <$> ob_blocks ob ∧
  ob_ordered_proof ob' = ob_ordered_proof ob.

Lemma set_insertion_times_fresh now blocks :
  Forall (λ b, pb_insertion_time b = None) blocks →
  ∃ blocks', set_insertion_times now blocks = Ok blocks' ∧ pb_block <$> blocks' = pb_block <$> blocks ∧
    Forall (λ b, is_Some (pb_insertion_time b)) blocks'.
Proof using Type.
  induction 1 as [|b blocks Hb _ (blocks' & IH & Hsame & Hset)]; simpl; [by eexists|].
  unfold set_insertion_time, PipelinedBlock_set_insertion_time. rewrite Hb, IH.
  cbn [mbind result_bind]. eexists. split; [done|]. simpl. split; [by f_equal|].
  apply Forall_cons. by split; [eexists|].
Qed.

Lemma set_insertion_times_Panic now blocks :
  ¬ Forall (λ b, pb_insertion_time b = None) blocks → set_insertion_times now blocks = Panic.
Proof using Type.
  induction blocks as [|b blocks IH]; intros Hn; [by destruct Hn|]. simpl.
  unfold set_insertion_time, PipelinedBlock_set_insertion_time.
  destruct (pb_insertion_time b) eqn:Hb; [done|]. cbn [mbind result_bind].
  rewrite IH; [done|]. intros Hf. apply Hn. by apply Forall_cons.
Qed.

Context {PeerNetworkId : Type} `{Countable PeerNetworkId}.

Lemma finalize_fresh now ob (self : ConsensusObserver (PeerNetworkId:=PeerNetworkId)) :
  ob_blocks ob ≠ [] → fresh ob →
  ∃ ob', finalize_ordered_block now ob self = Ok (ob', execution_call (FinalizeOrder ob') self) ∧
    same_blocks ob ob' ∧ finalized ob'.
Proof using Type.
  intros Hne Hf. unfold finalize_ordered_block. rewrite bool_decide_false by done.
  destruct (set_insertion_times_fresh now _ Hf) as (blocks' & -> & Hsame & Hset).
  cbn [mbind result_bind]. by eexists.
Qed.
Lemma finalize_Panic now ob (self : ConsensusObserver (PeerNetworkId:=PeerNetworkId)) :
  ¬ fresh ob → finalize_ordered_block now ob self = Panic.
Proof using Type.
  intros Hf. unfold finalize_ordered_block. case_bool_decide; [done|].
  by rewrite set_insertion_times_Panic.
Qed.

Lemma finalized_not_fresh ob : ob_blocks ob ≠ [] → finalized ob → ¬ fresh ob.
Proof using Type.
  unfold finalized, fresh. destruct (ob_blocks ob) as [|b blocks]; [done|].
  intros _ [[t Ht] _]%Forall_cons [Hn _]%Forall_cons. congruence.
Qed.

(** What was checked of the blocks does not depend on the insertion times. *)
Lemma same_blocks_lookup ob ob' i b' :
  same_blocks ob ob' → ob_blocks ob' !! i = Some b' →
  ∃ b, ob_blocks ob !! i = Some b ∧ pb_block b' = pb_block b.
Proof using Type.
  intros [Hs _] Hb'. assert ((pb_block <$> ob_blocks ob') !! i = Some (pb_block b')) as Hl
    by by rewrite list_lookup_fmap, Hb'.
  rewrite Hs, list_lookup_fmap in Hl. apply fmap_Some_1 in Hl as (b & Hb & Heq). by exists b.
Qed.
Lemma same_blocks_last ob ob' :
  same_blocks ob ob' → pb_block <$> last (ob_blocks ob') = pb_block <$> last (ob_blocks ob).
Proof using Type. intros [Hs _]. by rewrite <- !fmap_last, Hs. Qed.
Lemma same_blocks_verify ob ob' :
  same_blocks ob ob' → verify_ordered_blocks ob = Ok tt → verify_ordered_blocks ob' = Ok tt.
Proof using Type.
  intros Hs. rewrite !verify_ordered_blocks_Ok. intros [Hc (b & Hb & Hid)]. split.
  - intros i x y Hx Hy. destruct (same_blocks_lookup _ _ _ _ Hs Hx) as (x0 & Hx0 & Hex).
    destruct (same_blocks_lookup _ _ _ _ Hs Hy) as (y0 & Hy0 & Hey).
    unfold pb_parent_id, pb_id. rewrite Hex, Hey. by apply (Hc i).
  - pose proof (same_blocks_last _ _ Hs) as Hl. rewrite Hb in Hl.
    apply fmap_Some_1 in Hl as (b' & Hb' & Heq). exists b'. split; [done|].
    unfold proof_block_info in *. destruct Hs as [_ ->]. rewrite <- Hid. unfold pb_id. by rewrite Heq.
Qed.
End insertion_times.

Section observer_safety.
Context `{L : Laptos} `{LL : !LaptosLaws L} `{G : !Gcei} `{!CryptoHash VoteData} `{!CryptoHash BatchInfo}.
Context `{!CryptoHash BlockData}.
Context (batch_payload_hash : AccountAddress → list SignedTransaction → HashValue).
Context (EpochState_verify : EpochState → LedgerInfoWithSignatures → result anyhow unit).
Context {PeerNetworkId : Type} `{Countable PeerNetworkId}.
Context {Latency : Type} (latency_leb : Latency → Latency → bool) (MAX_PING_LATENCY_SECS : Latency).
Context (MAX_DISTANCE_FROM_VALIDATORS : Z).
Context (max : Z) (max_nonneg : 0 ≤ max).
(** The verification of signatures returns. *)
Context (multi_no_panic : ∀ v m s, ValidatorVerifier_verify_multi_signatures v m s ≠ Panic).
Context (epoch_verify_no_panic : ∀ es li, EpochState_verify es li ≠ Panic).

#[local] Abbreviation Observer_state := (ConsensusObserver (PeerNetworkId:=PeerNetworkId)).
#[local] Abbreviation Event := (ObserverEvent (PeerNetworkId:=PeerNetworkId) (Latency:=Latency)).
#[local] Abbreviation verify_digests := (verify_payload_digests batch_payload_hash).
#[local] Abbreviation step := (observer_step batch_payload_hash EpochState_verify latency_leb
  MAX_PING_LATENCY_SECS MAX_DISTANCE_FROM_VALIDATORS).
#[local] Abbreviation order_block := (process_ordered_block EpochState_verify).

(** ** What is verified *)

(** The epochs that the observer has started. *)
Definition started (calls : list ExecutionCall) (es : EpochState) : Prop :=
  ∃ quorum_store_enabled, StartEpoch es quorum_store_enabled ∈ calls.

(** A commit decision is orderly when its epoch is not before the last block's;
    a notification, when a state sync is going on and a reconfiguration follows
    if the epoch changes. *)
Definition event_orderly (e : Event) (self : Observer_state) : Prop :=
  match e with
  | DirectSend _ _ (CommitDecisionMsg cd) =>
      ocd_round cd ≤ u64_MAX ∧
      ∀ info, get_last_block self = Ok info → BlockInfo_epoch info ≤ ocd_epoch cd
  | SyncNotification _ _ _ reconfig => in_state_sync_mode self = true ∧ is_Some reconfig
  | _ => True
  end.

Section invariant.
(** The payloads that were received, and whether all events are orderly. *)
Context (received : BlockPayload → Prop) (orderly : Prop).

#[local] Abbreviation payloads_ok calls :=
  (payloads_ok batch_payload_hash max (started calls) received).
#[local] Abbreviation payload_of_block calls :=
  (payload_of_block batch_payload_hash (started calls) received).

(** A chain of blocks that ends in the block of a proof which verified in its
    epoch, and a verified payload for each block. *)
Definition ordered_ok (calls : list ExecutionCall) (ob : OrderedBlock) : Prop :=
  verify_ordered_blocks ob = Ok tt ∧
  (∃ es, started calls es ∧ EpochState_epoch es = BlockInfo_epoch (proof_block_info ob) ∧
    EpochState_verify es (ob_ordered_proof ob) = Ok tt) ∧
  ∀ b, b ∈ ob_blocks ob → pb_id b = hash (block_block_data (pb_block b)) ∧ payload_of_block calls b.
Definition decision_ok (calls : list ExecutionCall) (cd : ObserverCommitDecision) : Prop :=
  ∃ es, started calls es ∧ EpochState_epoch es = ocd_epoch cd ∧
    EpochState_verify es (ocd_commit_proof cd) = Ok tt.
Definition call_ok (calls : list ExecutionCall) (call : ExecutionCall) : Prop :=
  match call with
  | FinalizeOrder ob => ordered_ok calls ob
  | SendCommitDecision cd => decision_ok calls cd
  | _ => True
  end.

#[local] Abbreviation store_ok calls := (ordered_store_ok max (ordered_ok calls) (decision_ok calls)).
#[local] Abbreviation stored self := (obs_ordered_blocks (co_ordered_block_store self)).

Record observer_base (self : Observer_state) : Prop := {
  oi_epoch : ∃ es, co_epoch_state self = Some es ∧ started (co_calls self) es;
  oi_payloads : payloads_ok (co_calls self) (co_block_payload_store self);
  oi_ordered : store_ok (co_calls self) (co_ordered_block_store self);
  oi_pending : pending_ok max (co_pending_block_store self);
  oi_calls : Forall (call_ok (co_calls self)) (co_calls self);
}.
(** Outside of a state sync every stored block was handed to execution; during
    one none was, if the events are orderly. *)
Definition mode_ok (sync_handle : option bool)
    (blocks : gmap EpochRound (OrderedBlock * option ObserverCommitDecision)) : Prop :=
  match sync_handle with
  | None => ∀ key e, blocks !! key = Some e → finalized e.1
  | Some _ => orderly → ∀ key e, blocks !! key = Some e → fresh e.1
  end.
Definition observer_inv (self : Observer_state) : Prop :=
  observer_base self ∧ mode_ok (co_sync_handle self) (stored self).

Lemma ordered_ok_nonempty calls ob : ordered_ok calls ob → ob_blocks ob ≠ [].
Proof using Type. intros [Hv _]. by apply verified_nonempty. Qed.
Lemma ordered_ok_same calls ob ob' : same_blocks ob ob' → ordered_ok calls ob → ordered_ok calls ob'.
Proof using Type.
  intros Hs (Hv & Hes & Hp). split_and!.
  - by eapply same_blocks_verify.
  - unfold proof_block_info. by destruct Hs as [_ ->].
  - intros b' [i Hb']%list_elem_of_lookup. destruct (same_blocks_lookup _ _ _ _ Hs Hb') as (b & Hb & Heq).
    destruct (Hp b) as [Hid (payload & p & Hpay)]; [by eapply list_elem_of_lookup_2|].
    unfold pb_id. rewrite Heq. split; [done|]. exists payload, p.
    unfold pb_key, pb_epoch, pb_round. by rewrite Heq.
Qed.

(** More calls do not invalidate what was verified. *)
Lemma started_mono calls calls' es : calls ⊆ calls' → started calls es → started calls' es.
Proof using Type. intros Hsub [q Hq]. exists q. by apply Hsub. Qed.
Lemma ordered_ok_mono calls calls' ob : calls ⊆ calls' → ordered_ok calls ob → ordered_ok calls' ob.
Proof using Type.
  intros Hsub (Hv & (es & Hs & He) & Hp). split_and!; [done| |].
  - exists es. split; [by eapply started_mono|done].
  - intros b [Hid Hb]%Hp. split; [done|]. eapply payload_of_block_mono; [|done|done].
    intros es'. by apply started_mono.
Qed.
Lemma decision_ok_mono calls calls' cd : calls ⊆ calls' → decision_ok calls cd → decision_ok calls' cd.
Proof using Type. intros Hsub (es & Hs & He). exists es. split; [by eapply started_mono|done]. Qed.
Lemma call_ok_mono calls calls' c : calls ⊆ calls' → call_ok calls c → call_ok calls' c.
Proof using Type. intros ?. destruct c; simpl; eauto using ordered_ok_mono, decision_ok_mono. Qed.
Lemma store_ok_mono calls calls' st : calls ⊆ calls' → store_ok calls st → store_ok calls' st.
Proof using Type.
  intros Hsub [Hm Hs He Hl]. split; [done..| |done]. intros key e [Ho Hd]%He.
  split; [by eapply ordered_ok_mono|]. intros d Hd'. eapply decision_ok_mono; [done|by apply Hd].
Qed.

Lemma mode_ok_subseteq sync m m' : m' ⊆ m → mode_ok sync m → mode_ok sync m'.
Proof using Type.
  intros Hsub. destruct sync; simpl.
  - intros Hm Ho key e Hk. by eapply Hm, lookup_weaken.
  - intros Hm key e Hk. by eapply Hm, lookup_weaken.
Qed.

(** ** Updates *)

Lemma base_call call self :
  observer_base self → call_ok (co_calls self) call → observer_base (execution_call call self).
Proof using Type.
  intros [He Hp Ho Hk Hc] Hcall.
  assert (co_calls self ⊆ co_calls self ++ [call]) as Hsub by apply subseteq_snoc. split; simpl; try done.
  - destruct He as (es & ? & ?). exists es. split; [done|by eapply started_mono].
  - eapply payloads_ok_mono; [|done|done]. intros es. by apply started_mono.
  - by eapply store_ok_mono.
  - apply Forall_app. split.
    + eapply Forall_impl; [exact Hc|]. intros c. by apply call_ok_mono.
    + apply Forall_singleton. by eapply call_ok_mono.
Qed.
Lemma base_ordered ordered self :
  observer_base self → store_ok (co_calls self) ordered → observer_base (co_set_ordered ordered self).
Proof using Type. intros []. by split. Qed.
Lemma base_sync root sync self : observer_base self → observer_base (co_set_sync root sync self).
Proof using Type. intros []. by split. Qed.
Lemma inv_call call self :
  observer_inv self → call_ok (co_calls self) call → observer_inv (execution_call call self).
Proof using Type. intros [Hi Hm] Hcall. split; [by apply base_call|done]. Qed.
Lemma inv_stores payloads ordered pending self :
  observer_inv self → payloads_ok (co_calls self) payloads → store_ok (co_calls self) ordered →
  obs_ordered_blocks ordered ⊆ stored self → pending_ok max pending →
  observer_inv (co_set_stores payloads ordered pending self).
Proof using Type. intros [[] Hm] ????. split; [by split|]. by eapply mode_ok_subseteq. Qed.
Lemma inv_payloads payloads self :
  observer_inv self → payloads_ok (co_calls self) payloads → observer_inv (co_set_payloads payloads self).
Proof using Type. intros [[] Hm] ?. by split; [split|]. Qed.
Lemma inv_pending pending self :
  observer_inv self → pending_ok max pending → observer_inv (co_set_pending pending self).
Proof using Type. intros [[] Hm] ?. by split; [split|]. Qed.
Lemma inv_root root self : observer_inv self → observer_inv (co_set_sync root (co_sync_handle self) self).
Proof using Type. intros [[] Hm]. by split; [split|]. Qed.
Lemma inv_peers publisher subscription unsubscribed self :
  observer_inv self → observer_inv (co_set_peers publisher subscription unsubscribed self).
Proof using Type. intros [[] Hm]. by split; [split|]. Qed.
Lemma inv_start es q self : observer_inv self → observer_inv (execution_call (StartEpoch es q) (co_set_epoch es q self)).
Proof using Type.
  intros [[He Hp Ho Hk Hc] Hm]. split; [split|]; simpl; try done.
  - exists es. split; [done|]. exists q. apply elem_of_app. right. by left.
  - eapply payloads_ok_mono; [|done|done]. intros es'. apply started_mono, subseteq_snoc.
  - eapply store_ok_mono; [|done]. apply subseteq_snoc.
  - apply Forall_app. split; [|by apply Forall_singleton].
    eapply Forall_impl; [exact Hc|]. intros c. apply call_ok_mono, subseteq_snoc.
Qed.

(** A handler returns and keeps the invariant. *)
Definition keeps (r : result ObserverError Observer_state) : Prop :=
  ∃ self', r = Ok self' ∧ observer_inv self'.
Lemma keeps_Ok self : observer_inv self → keeps (Ok self).
Proof using Type. intros ?. by exists self. Qed.
Lemma keeps_or_ignore {A} (r : result ObserverError A) self k :
  observer_inv self → r ≠ Panic → (∀ a, r = Ok a → keeps (k a)) → keeps (or_ignore r self k).
Proof using Type. intros Hi Hr Hk. destruct r; [by apply Hk|by apply keeps_Ok|done]. Qed.

Lemma get_last_block_ok self : observer_inv self → ∃ info, get_last_block self = Ok info.
Proof using Type.
  intros [Hi _]. unfold get_last_block.
  destruct (get_last_ordered_ok max _ _ (ordered_ok_nonempty _) _ (oi_ordered _ Hi)) as [o ->]. by eexists.
Qed.

(** ** Ordered blocks *)

(** The block is stored and, outside of a state sync, handed to execution. *)
Lemma order_and_finalize_ok now ob self :
  observer_inv self → ordered_ok (co_calls self) ob → fresh ob →
  keeps (ordered ← insert_ordered_block ob (co_ordered_block_store self);
         if negb (in_state_sync_mode self) then
           '(finalized, self) ← finalize_ordered_block now ob self;
           ordered ← insert_ordered_block finalized (co_ordered_block_store self);
           Ok (co_set_ordered ordered self)
         else Ok (co_set_ordered ordered self)).
Proof using Type.
  intros [Hi Hm] Hok Hf.
  destruct (insert_ordered_ok max _ _ (ordered_ok_nonempty _) ob _ (oi_ordered _ Hi) Hok) as (st & -> & Hst & Hin).
  cbn [mbind result_bind]. unfold in_state_sync_mode.
  unfold mode_ok in Hm. destruct (co_sync_handle self) as [sync|] eqn:Hsync; simpl.
  { apply keeps_Ok. split; [by apply base_ordered|]. unfold mode_ok. simpl. rewrite Hsync.
    intros Ho key e [Hk| ->]%Hin; [by eapply Hm|done]. }
  destruct (finalize_fresh now ob self) as (ob' & -> & Hs & Hfin); [by eapply ordered_ok_nonempty|done|].
  cbn [mbind result_bind]. set (self' := execution_call _ self).
  assert (observer_base self') as Hi' by by apply base_call; [|eapply ordered_ok_same].
  assert (ordered_ok (co_calls self') ob') as Hok'.
  { eapply ordered_ok_mono; [apply subseteq_snoc|by eapply ordered_ok_same]. }
  destruct (insert_ordered_ok max _ _ (ordered_ok_nonempty _) ob' _ (oi_ordered _ Hi') Hok') as (st' & -> & Hst' & Hin').
  apply keeps_Ok. split; [by apply base_ordered|]. unfold mode_ok. simpl. rewrite Hsync.
  intros key e [Hk| ->]%Hin'; [by eapply Hm|done].
Qed.

Lemma process_ordered_block_ok now ob self :
  observer_inv self → pending_block_ok ob → keeps (order_block now ob self).
Proof using epoch_verify_no_panic.
  intros Hi [Hv Hdec]. destruct (oi_epoch _ (proj1 Hi)) as (es & He & Hst). unfold Observer.process_ordered_block.
  unfold get_epoch_state. rewrite He. cbn [mbind result_bind].
  destruct (Z.eqb_spec (BlockInfo_epoch (proof_block_info ob)) (EpochState_epoch es)) as [Hep|];
    [|by apply keeps_Ok].
  unfold verify_ordered_proof. pose proof (epoch_verify_no_panic es (ob_ordered_proof ob)) as Hnp.
  destruct (EpochState_verify es (ob_ordered_proof ob)) as [[]|e|] eqn:Hproof; [|by apply keeps_Ok|done].
  pose proof (verify_payloads_ok _ max _ _ ob _ (oi_payloads _ (proj1 Hi))) as Hpay. simpl.
  destruct (verify_payloads_against_ordered_block _ _) as [[]|e|]; [|by apply keeps_Ok|done]. simpl.
  destruct (get_last_block_ok self Hi) as [info ->]. cbn [mbind result_bind].
  destruct (first_block_ok ob) as [b ->]; [by apply verified_nonempty|]. cbn [mbind result_bind].
  case_bool_decide; [|by apply keeps_Ok]. rewrite Forall_forall in Hdec.
  apply order_and_finalize_ok; [done| |].
  - split_and!; [done|by exists es|]. intros b' Hb'. split; [by apply Hdec|by apply Hpay].
  - apply Forall_forall. intros b' Hb'. by apply Hdec.
Qed.

Lemma process_ordered_block_message_ok now ob self :
  observer_inv self → Forall decoded (ob_blocks ob) →
  keeps (process_ordered_block_message EpochState_verify now ob self).
Proof using max_nonneg epoch_verify_no_panic.
  intros Hi Hdec. unfold process_ordered_block_message.
  apply keeps_or_ignore; [done|apply verify_ordered_blocks_no_panic|]. intros [] Hv.
  case_match; [by apply process_ordered_block_ok|].
  destruct (insert_pending_ok max max_nonneg ob _ (oi_pending _ (proj1 Hi)) (conj Hv Hdec)) as (st & -> & Hst).
  apply keeps_Ok. by apply inv_pending.
Qed.

Lemma order_ready_ok now epoch round self :
  observer_inv self → keeps (order_ready_pending_block EpochState_verify now epoch round self).
Proof using epoch_verify_no_panic.
  intros Hi. unfold order_ready_pending_block.
  destruct (remove_ready_ok max epoch round (co_block_payload_store self) _ (oi_pending _ (proj1 Hi)))
    as (st & ready & -> & Hst & Hr). cbn [mbind result_bind].
  destruct ready as [ob|]; [|by apply keeps_Ok, inv_pending].
  apply process_ordered_block_ok; [by apply inv_pending|by apply Hr].
Qed.

(** ** Payloads *)

Lemma process_block_payload_message_ok now p self :
  observer_inv self → received p →
  keeps (process_block_payload_message batch_payload_hash EpochState_verify now p self).
Proof using epoch_verify_no_panic multi_no_panic.
  intros Hi Hrec. unfold process_block_payload_message.
  apply keeps_or_ignore; [done|apply verify_digests_no_panic|]. intros [] Hd.
  destruct (oi_epoch _ (proj1 Hi)) as (es & He & Hst). unfold get_epoch_state. rewrite He. cbn [mbind result_bind].
  destruct (Z.eqb_spec (BlockInfo_epoch (bpm_block p)) (EpochState_epoch es)) as [Hep|].
  - apply keeps_or_ignore; [done|by apply verify_signatures_no_panic|]. intros [] Hs.
    apply order_ready_ok, inv_payloads; [done|].
    apply payloads_ok_insert; [apply Hi|done..|]. intros _. by exists es.
  - apply keeps_Ok, inv_payloads; [done|]. by apply payloads_ok_insert; [apply Hi|..].
Qed.

(** ** Commit decisions *)

(** The last block is the highest one. *)
Lemma get_last_block_max self info key e :
  observer_base self → get_last_block self = Ok info → stored self !! key = Some e →
  epoch_round_le key (BlockInfo_epoch info, BlockInfo_round info).
Proof using LL.
  intros Hi Hinfo Hk. unfold get_last_block, get_last_ordered_block in Hinfo.
  destruct (last_key_value (stored self)) as [[k [ob d]]|] eqn:Hl.
  - pose proof (last_key_value_max _ _ _ _ _ Hl Hk) as Hle.
    apply last_key_value_Some, (oo_key _ _ _ _ (oi_ordered _ Hi)) in Hl as (b & Hb & <-).
    unfold last_block in Hinfo. simpl in Hb. rewrite Hb in Hinfo. injection Hinfo as <-.
    unfold PipelinedBlock_block_info, Block_gen_block_info. by autorewrite with liquent.
  - apply last_None in Hl. apply (elem_of_btree_list epoch_round_le) in Hk. rewrite Hl in Hk.
    by apply elem_of_nil in Hk.
Qed.

(** A commit after the last block leaves no ordered block. *)
Lemma sync_clears_blocks self info cd key e :
  observer_base self → get_last_block self = Ok info → BlockInfo_epoch info ≤ ocd_epoch cd →
  (ocd_epoch cd >? BlockInfo_epoch info) || (ocd_round cd >? BlockInfo_round info) = true →
  ocd_round cd ≤ u64_MAX →
  obs_ordered_blocks (remove_blocks_for_commit (ocd_commit_proof cd) (co_ordered_block_store self)) !! key ≠ Some e.
Proof using LL.
  intros Hi Hinfo Hep Hnew Hmax. simpl. intros [Hk Hle]%map_lookup_filter_Some. simpl in Hle.
  pose proof (get_last_block_max _ _ _ _ Hi Hinfo Hk) as Hlast. revert Hle Hlast.
  change (LedgerInfo_epoch (LedgerInfoWithSignatures_ledger_info (ocd_commit_proof cd))) with (ocd_epoch cd).
  assert (BlockInfo_round (proof_commit_info (ocd_commit_proof cd)) = ocd_round cd) as ->.
  { unfold ocd_round, proof_commit_info. by rewrite LedgerInfo_round_commit_info. }
  apply orb_true_iff in Hnew. rewrite !Z.gtb_lt in Hnew.
  unfold epoch_round_le, u64_saturating_add. simpl. lia.
Qed.

Lemma sync_to_future_commit_ok cd self :
  observer_inv self →
  (orderly → ocd_round cd ≤ u64_MAX ∧
    ∀ info, get_last_block self = Ok info → BlockInfo_epoch info ≤ ocd_epoch cd) →
  keeps (sync_to_future_commit cd self).
Proof using LL.
  intros Hinv Hord. unfold sync_to_future_commit. destruct (get_last_block_ok self Hinv) as [info Hinfo].
  rewrite Hinfo. cbn [mbind result_bind]. destruct (_ || _) eqn:Hnew; [|by apply keeps_Ok].
  case_match; [by apply keeps_Ok|]. apply keeps_Ok. set (self' := execution_call _ _).
  assert (observer_inv self') as [Hi' _].
  { apply inv_call; [|done]. apply inv_stores; [done| | | |apply Hinv].
    - apply payloads_ok_subseteq; [apply Hinv|apply entries_from_subseteq].
    - apply ordered_store_subseteq; [apply Hinv|apply entries_from_subseteq].
    - apply entries_from_subseteq. }
  split; [by apply base_sync|]. intros Ho key e Hk. exfalso. destruct (Hord Ho) as [Hmax Hle].
  by eapply (sync_clears_blocks self info cd key e (proj1 Hinv) Hinfo (Hle _ Hinfo) Hnew).
Qed.

Lemma process_commit_decision_message_ok cd self :
  observer_inv self →
  (orderly → ocd_round cd ≤ u64_MAX ∧
    ∀ info, get_last_block self = Ok info → BlockInfo_epoch info ≤ ocd_epoch cd) →
  keeps (process_commit_decision_message EpochState_verify cd self).
Proof using LL epoch_verify_no_panic.
  intros Hi Hord. destruct (oi_epoch _ (proj1 Hi)) as (es & He & Hst). unfold process_commit_decision_message.
  unfold get_epoch_state. rewrite He. cbn [mbind result_bind].
  destruct (Z.eqb_spec (ocd_epoch cd) (EpochState_epoch es)) as [Hep|]; [|by apply sync_to_future_commit_ok].
  unfold verify_commit_proof. pose proof (epoch_verify_no_panic es (ocd_commit_proof cd)) as Hnp.
  destruct (EpochState_verify es (ocd_commit_proof cd)) as [[]|e|] eqn:Hproof; [|by apply keeps_Ok|done].
  simpl. assert (decision_ok (co_calls self) cd) as Hok by by exists es.
  unfold process_commit_decision_for_pending_block.
  destruct (get_ordered_block _ _ _) as [ob|]; [|by apply sync_to_future_commit_ok].
  destruct (all_payloads_exist _ _); [|by apply sync_to_future_commit_ok].
  assert (observer_inv (co_set_ordered (update_commit_decision cd (co_ordered_block_store self)) self)) as Hi'.
  { destruct Hi as [Hi Hm]. split; [apply base_ordered; [done|]; by apply update_decision_ok; [apply Hi|]|].
    unfold mode_ok in *. simpl. destruct (co_sync_handle self).
    - intros Ho key e [d Hk]%update_decision_blocks. by apply (Hm Ho _ _ Hk).
    - intros key e [d Hk]%update_decision_blocks. by apply (Hm _ _ Hk). }
  destruct (negb (in_state_sync_mode _)); apply keeps_Ok; [by apply inv_call|done].
Qed.

Lemma commit_callback_ok blocks li self : observer_inv self → observer_inv (observer_commit_callback blocks li self).
Proof using Type.
  intros Hi. unfold observer_commit_callback.
  set (self' := co_set_ordered _ _). assert (observer_inv self') as Hi'.
  { apply inv_stores; [by apply inv_payloads; [|apply remove_committed_ok, Hi]|by apply remove_committed_ok, Hi| | |apply Hi].
    - apply ordered_store_subseteq; [apply Hi|apply entries_from_subseteq].
    - apply entries_from_subseteq. }
  case_match; [done|]. case_match; [by apply inv_root|done].
Qed.

(** ** The end of a state sync *)

(** One entry: it is finalized if its blocks are fresh, and only then. *)
Lemma finalize_entry_ok now key ob d self :
  observer_base self → stored self !! key = Some (ob, d) →
  if decide (fresh ob) then
    ∃ self' ob', finalize_entry now self (key, (ob, d)) = Ok self' ∧ observer_base self' ∧
      co_sync_handle self' = co_sync_handle self ∧
      stored self' = <[key := (ob', d)]> (stored self) ∧ finalized ob'
  else finalize_entry now self (key, (ob, d)) = Panic.
Proof using Type.
  intros Hi Hk. destruct (oo_entry _ _ _ _ (oi_ordered _ Hi) _ _ Hk) as [Hok Hd]. simpl in Hok, Hd.
  unfold finalize_entry. case_decide as Hf; [|by rewrite finalize_Panic].
  destruct (finalize_fresh now ob self) as (ob' & -> & Hs & Hfin); [by eapply ordered_ok_nonempty|done|].
  cbn [mbind result_bind]. set (self1 := execution_call _ self).
  assert (observer_base self1) as Hi1 by by apply base_call; [|eapply ordered_ok_same].
  set (self2 := co_set_ordered _ self1). assert (observer_base self2) as Hi2.
  { apply base_ordered; [done|]. eapply replace_entry_ok; [apply Hi1|done| |].
    - eapply ordered_ok_mono; [apply subseteq_snoc|by eapply ordered_ok_same].
    - apply same_blocks_last in Hs. unfold pb_key, pb_epoch, pb_round.
      destruct (last (ob_blocks ob')), (last (ob_blocks ob)); simplify_eq/=; congruence. }
  destruct d as [cd|]; simpl; eexists _, ob'; split_and!; try done.
  apply base_call; [done|]. simpl. eapply decision_ok_mono; [apply subseteq_snoc|by apply Hd].
Qed.

Lemma finalize_entries_ok now l : ∀ self,
  observer_base self → NoDup l.*1 → (∀ key e, (key, e) ∈ l → stored self !! key = Some e) →
  match fold_result (finalize_entry now) self l with
  | Ok self' =>
      observer_base self' ∧ co_sync_handle self' = co_sync_handle self ∧
      ∀ key e, stored self' !! key = Some e →
        finalized e.1 ∨ (key ∉ l.*1) ∧ stored self !! key = Some e
  | Err _ => False
  | Panic => ∃ key e, (key, e) ∈ l ∧ ¬ fresh e.1
  end.
Proof using Type.
  induction l as [|[k [ob d]] l IH]; intros self Hi Hnd Hl.
  { simpl. split_and!; [done..|]. intros key e Hk. right. split; [apply not_elem_of_nil|done]. }
  apply NoDup_cons in Hnd as [Hnk Hnd]. simpl in Hnk.
  pose proof (finalize_entry_ok now k ob d self Hi (Hl k (ob, d) (list_elem_of_here _ _))) as He.
  cbn [fold_result]. case_decide as Hf.
  2: { rewrite He. simpl. exists k, (ob, d). split; [by left|done]. }
  destruct He as (self1 & ob' & -> & Hi1 & Hsync & Hst & Hfin). cbn [mbind result_bind].
  assert (∀ key e, (key, e) ∈ l → stored self1 !! key = Some e) as Hl1.
  { intros key e Hin. rewrite Hst, lookup_insert_ne; [apply Hl; by right|]. intros <-.
    apply Hnk. by apply (list_elem_of_fmap_2' fst _ (k, e)). }
  specialize (IH self1 Hi1 Hnd Hl1). destruct (fold_result _ _ l) as [self'|e|]; [|done|].
  - destruct IH as (Hi' & Hs' & Hall). split_and!; [done|congruence|].
    intros key e Hk. destruct (Hall _ _ Hk) as [?|[Hn Hk']]; [by left|].
    rewrite Hst, lookup_insert_Some in Hk'. destruct Hk' as [[<- <-]|[Hne Hk']]; [by left|].
    right. split; [|done]. simpl. rewrite not_elem_of_cons. by split.
  - destruct IH as (key & e & Hin & Hn). exists key, e. split; [by right|done].
Qed.

Lemma finalize_all_ok now self :
  observer_base self → co_sync_handle self = None →
  match finalize_all now self with
  | Ok self' => observer_inv self'
  | Err _ => False
  | Panic => ∃ key e, stored self !! key = Some e ∧ ¬ fresh e.1
  end.
Proof using Type.
  intros Hi Hsync. unfold finalize_all, get_all_ordered_blocks.
  assert (NoDup (btree_list epoch_round_le (stored self)).*1) as Hnd.
  { unfold btree_list. rewrite merge_sort_Permutation. apply NoDup_fst_map_to_list. }
  pose proof (finalize_entries_ok now _ self Hi Hnd (λ key e, proj1 (elem_of_btree_list _ _ _ _))) as Hl.
  destruct (fold_result _ _ _) as [self'|e|]; [|done|].
  - destruct Hl as (Hi' & Hs & Hall). split; [done|]. unfold mode_ok. rewrite Hs, Hsync.
    intros key e Hk. destruct (Hall _ _ Hk) as [?|[Hn Hk']]; [done|]. destruct Hn.
    apply (list_elem_of_fmap_2' fst _ (key, e)); [by apply elem_of_btree_list|done].
  - destruct Hl as (key & e & Hin & Hn). exists key, e. split; [by apply elem_of_btree_list in Hin|done].
Qed.

Lemma order_all_ready_ok now epoch rounds : ∀ self,
  observer_inv self →
  keeps (fold_result (λ self round, order_ready_pending_block EpochState_verify now epoch round self) self rounds).
Proof using epoch_verify_no_panic.
  induction rounds as [|r rounds IH]; intros self Hi; simpl; [by apply keeps_Ok|].
  destruct (order_ready_ok now epoch r self Hi) as (self' & -> & Hi'). by apply IH.
Qed.

(** A finalized block in the store stops the loop. *)
Lemma finalize_entries_Panic now key e l : ∀ self,
  observer_base self → (key, e) ∈ l → NoDup l.*1 →
  (∀ k x, (k, x) ∈ l → stored self !! k = Some x) → ¬ fresh e.1 →
  fold_result (finalize_entry now) self l = Panic.
Proof using Type.
  induction l as [|[k [ob d]] l IH]; intros self Hi Hin Hnd Hl Hn; [by apply elem_of_nil in Hin|].
  apply NoDup_cons in Hnd as [Hnk Hnd]. simpl in Hnk.
  pose proof (finalize_entry_ok now k ob d self Hi (Hl k (ob, d) (list_elem_of_here _ _))) as He.
  cbn [fold_result]. case_decide as Hf; [|by rewrite He].
  destruct He as (self1 & ob' & -> & Hi1 & _ & Hst & _). cbn [mbind result_bind].
  apply elem_of_cons in Hin as [[= -> ->]|Hin]; [done|]. apply IH; [done..| |done].
  intros k' x Hk'. rewrite Hst, lookup_insert_ne; [apply Hl; by right|]. intros <-.
  apply Hnk. by apply (list_elem_of_fmap_2' fst _ (k, x)).
Qed.
Lemma finalize_all_Panic now self key e :
  observer_base self → stored self !! key = Some e → ¬ fresh e.1 → finalize_all now self = Panic.
Proof using Type.
  intros Hi Hk Hn. apply (finalize_entries_Panic now key e); [done| | | |done].
  - by apply elem_of_btree_list.
  - unfold get_all_ordered_blocks, btree_list. rewrite merge_sort_Permutation. apply NoDup_fst_map_to_list.
  - intros k x. apply elem_of_btree_list.
Qed.

(** Ordering a block changes neither the payloads nor the state sync. *)
Lemma process_ordered_block_frame now ob (self self' : Observer_state) :
  order_block now ob self = Ok self' →
  co_block_payload_store self' = co_block_payload_store self ∧ co_sync_handle self' = co_sync_handle self.
Proof using Type.
  unfold Observer.process_ordered_block. intros (es & _ & Hp)%Ok_bind.
  case_match; [|by injection Hp as <-]. unfold or_ignore in Hp.
  case_match; [|by injection Hp as <-|done]. case_match; [|by injection Hp as <-|done].
  apply Ok_bind in Hp as (info & _ & (b & _ & Hp)%Ok_bind).
  case_bool_decide; [|by injection Hp as <-].
  apply Ok_bind in Hp as (st & _ & Hp). case_match; [|by injection Hp as <-].
  apply Ok_bind in Hp as ([ob' self1] & Hf & (st' & _ & [= <-])%Ok_bind).
  unfold finalize_ordered_block in Hf. case_bool_decide; [done|].
  by apply Ok_bind in Hf as (blocks & _ & [= _ <-]).
Qed.
Lemma order_ready_frame now epoch round (self self' : Observer_state) :
  order_ready_pending_block EpochState_verify now epoch round self = Ok self' →
  co_block_payload_store self' = co_block_payload_store self ∧ co_sync_handle self' = co_sync_handle self.
Proof using Type.
  unfold order_ready_pending_block. intros ([st [ob|]] & _ & Hr)%Ok_bind.
  - by apply process_ordered_block_frame in Hr.
  - by injection Hr as <-.
Qed.
Lemma order_all_ready_frame now epoch rounds : ∀ self self' : Observer_state,
  fold_result (λ self round, order_ready_pending_block EpochState_verify now epoch round self) self rounds = Ok self' →
  co_sync_handle self' = co_sync_handle self.
Proof using Type.
  induction rounds as [|r rounds IH]; intros self self'; simpl; [by intros [= <-]|].
  intros (self1 & H1%order_ready_frame & H2%IH)%Ok_bind. destruct H1 as [_ H1]. congruence.
Qed.

(** A notification of the end of a state sync panics only without the
    reconfiguration it needs, or when a block was finalized before. *)
Definition sync_panics (e : Event) (self : Observer_state) : Prop :=
  ∃ now epoch round reconfig es, e = SyncNotification now epoch round reconfig ∧
    check_root_epoch_and_round (co_root self) epoch round = true ∧ co_epoch_state self = Some es ∧
    (EpochState_epoch es < epoch ∧ reconfig = None ∨ in_state_sync_mode self = false ∨ ¬ orderly).

Lemma process_sync_notification_ok now epoch round reconfig self :
  observer_inv self →
  match process_sync_notification EpochState_verify now epoch round reconfig self with
  | Ok self' => observer_inv self'
  | Err _ => False
  | Panic => sync_panics (SyncNotification now epoch round reconfig) self
  end.
Proof using epoch_verify_no_panic multi_no_panic.
  intros Hi. unfold process_sync_notification.
  destruct (check_root_epoch_and_round _ _ _) eqn:Hroot; [simpl|done].
  destruct (oi_epoch _ (proj1 Hi)) as (es & He & _).
  assert (get_epoch_state self = Ok es) as -> by (unfold get_epoch_state; by rewrite He).
  cbn [mbind result_bind].
  (* the blocks that are ordered before the loop *)
  assert (∀ self', observer_inv self' → co_sync_handle self' = co_sync_handle self →
    match finalize_all now (co_set_sync (co_root self') None self') with
    | Ok self' => observer_inv self' | Err _ => False
    | Panic => sync_panics (SyncNotification now epoch round reconfig) self
    end) as Hfin.
  { intros self' [Hi' Hm] Hs.
    pose proof (finalize_all_ok now _ (base_sync (co_root self') None _ Hi') eq_refl) as Hf.
    destruct (finalize_all _ _); [done..|]. exists now, epoch, round, reconfig, es. split_and!; [done..|].
    right. destruct Hf as (key & e & Hk & Hn). unfold mode_ok in Hm. rewrite Hs in Hm.
    unfold in_state_sync_mode. destruct (co_sync_handle self); [right|by left].
    intros Ho. by apply Hn, (Hm Ho key). }
  rewrite Z.gtb_ltb. destruct (Z.ltb_spec (EpochState_epoch es) epoch) as [Hlt|]; [|by apply Hfin].
  destruct reconfig as [[es' q]|]; simpl.
  2: { exists now, epoch, round, None, es. split_and!; [done..|]. by left. }
  set (self1 := execution_call (StartEpoch _ _) _).
  assert (observer_inv self1) as Hi1 by by apply inv_start, inv_call.
  destruct (bps_verify_ok batch_payload_hash max multi_no_panic (started (co_calls self1)) received es'
    (co_block_payload_store self1)) as (st & rounds & Hst & Hok);
    [exists q; apply elem_of_app; right; by left|apply Hi1|].
  change (co_block_payload_store self1) with (co_block_payload_store self) in Hst. rewrite Hst.
  cbn [mbind result_bind].
  destruct (order_all_ready_ok now (EpochState_epoch es') rounds (co_set_payloads st self1)) as (self2 & Hrun & Hi2).
  { by apply inv_payloads. }
  rewrite Hrun. apply order_all_ready_frame in Hrun. by apply Hfin.
Qed.

(** ** The loop *)

Lemma subscribe_to_first_ok now rpc peers self :
  observer_inv self → observer_inv (subscribe_to_first now rpc peers self).
Proof using Type.
  intros Hi. induction peers as [|p peers IH]; simpl; [done|]. case_match; try done.
  case_match; [by apply inv_peers|done].
Qed.

Lemma clear_pending_ok self : observer_inv self → observer_inv (clear_pending_block_state self).
Proof using Type.
  intros Hi. apply inv_call; [|done]. apply inv_stores; [done| | | |].
  - apply payloads_ok_subseteq; [apply Hi|apply map_empty_subseteq].
  - apply ordered_store_subseteq; [apply Hi|apply map_empty_subseteq].
  - apply map_empty_subseteq.
  - apply pending_subseteq; [apply Hi|apply map_empty_subseteq].
Qed.

Lemma check_active_ok now connected self :
  observer_inv self → observer_inv (check_active_subscription (Latency:=Latency) now connected self).1.
Proof using Type.
  intros Hi. unfold check_active_subscription. case_match; [|done].
  case_match; [by apply inv_peers|]. case_match; [done|by apply inv_peers..].
Qed.

Lemma create_subscription_ok now connected rpc previous self :
  observer_inv self →
  observer_inv (create_new_observer_subscription latency_leb MAX_PING_LATENCY_SECS
    MAX_DISTANCE_FROM_VALIDATORS now connected rpc previous self).
Proof using Type.
  intros Hi. unfold create_new_observer_subscription. case_match; [|done]. by apply subscribe_to_first_ok.
Qed.

Lemma check_progress_ok now connected rpc self :
  observer_inv self →
  observer_inv (check_progress latency_leb MAX_PING_LATENCY_SECS MAX_DISTANCE_FROM_VALIDATORS
    now connected rpc self).
Proof using Type.
  intros Hi. unfold check_progress. case_match; [done|].
  assert (observer_inv (terminate_unhealthy_subscription now connected self)) as Hi'.
  { unfold terminate_unhealthy_subscription. case_match; [|done].
    pose proof (check_active_ok now connected self Hi).
    destruct (check_active_subscription _ _ _) as [s []]; [done|by apply inv_peers..]. }
  generalize dependent (terminate_unhealthy_subscription now connected self). intros self' Hi'.
  case_match; [done|]. case_match; [apply clear_pending_ok|]; by apply create_subscription_ok.
Qed.

Lemma received_decoded ob : Forall decoded (ob_blocks (received_ordered_block ob)).
Proof using Type.
  apply Forall_fmap, Forall_forall. intros b _. unfold decoded. simpl.
  by destruct (pb_randomness b).
Qed.

Definition event_received (e : Event) : Prop :=
  match e with DirectSend _ _ (BlockPayloadMsg p) => received p | _ => True end.

Definition step_ok (e : Event) (self : Observer_state) (r : result ObserverError Observer_state) : Prop :=
  match r with
  | Ok self' => observer_inv self'
  | Err _ => False
  | Panic => sync_panics e self
  end.
Lemma keeps_step_ok e self r : keeps r → step_ok e self r.
Proof using Type. by intros (self' & -> & Hi). Qed.

Lemma observer_step_ok e self :
  observer_inv self → event_received e → (orderly → event_orderly e self) → step_ok e self (step e self).
Proof using LL max_nonneg multi_no_panic epoch_verify_no_panic.
  intros Hi Hrec Hord.
  destruct e as [now peer msg|peer request sender|now epoch round reconfig|now connected rpc|blocks li]; simpl.
  - apply keeps_step_ok. unfold process_direct_send_message. case_match; [|by apply keeps_Ok, inv_peers].
    case_match; [|by apply keeps_Ok, inv_peers..]. set (self' := co_set_peers _ _ _ _).
    assert (observer_inv self') as Hi' by by apply inv_peers. destruct msg; simpl.
    + apply process_ordered_block_message_ok; [done|apply received_decoded].
    + by apply process_commit_decision_message_ok.
    + by apply process_block_payload_message_ok.
  - unfold process_request_message. case_match; [|done]. case_match; [|done].
    case_match. by apply inv_peers.
  - by apply process_sync_notification_ok.
  - by apply check_progress_ok.
  - by apply commit_callback_ok.
Qed.
End invariant.

Section runs.
Context (es0 : EpochState) (quorum_store0 : bool) (timeout : Z) (root : LedgerInfoWithSignatures).
Context (publisher : option (ConsensusPublisher (PeerNetworkId:=PeerNetworkId))).

(** The observer after a sequence of events. *)
Definition observer_run (events : list ObserverEvent) : result ObserverError Observer_state :=
  observer_start batch_payload_hash EpochState_verify latency_leb MAX_PING_LATENCY_SECS
    MAX_DISTANCE_FROM_VALIDATORS (Some (es0, quorum_store0)) events
    (ConsensusObserver_new max timeout publisher root).

Definition observer_initial : Observer_state :=
  execution_call (StartEpoch es0 quorum_store0)
    (co_set_epoch es0 quorum_store0 (ConsensusObserver_new max timeout publisher root)).

Lemma observer_initial_inv received orderly : observer_inv received orderly observer_initial.
Proof using max_nonneg.
  split; [split; simpl|done].
  - exists es0. split; [done|]. exists quorum_store0. by left.
  - split; simpl; [done|by rewrite map_size_empty|done].
  - split; simpl; [done|by rewrite map_size_empty|done..].
  - split; simpl; [done|by rewrite map_size_empty|done].
  - by apply Forall_singleton.
Qed.

Lemma observer_run_eq events :
  observer_run events = fold_result (λ self event, step event self) observer_initial events.
Proof using Type. done. Qed.

Lemma run_from_inv received events : ∀ self0 self : Observer_state,
  observer_inv received False self0 → Forall (event_received received) events →
  fold_result (λ self event, step event self) self0 events = Ok self → observer_inv received False self.
Proof using LL max_nonneg multi_no_panic epoch_verify_no_panic.
  induction events as [|e events IH]; intros self0 self Hi Hev; simpl; [by intros [= <-]|].
  apply Forall_cons in Hev as [He Hev]. intros (self1 & H1 & H2)%Ok_bind.
  pose proof (observer_step_ok received False e self0 Hi He (False_ind _)) as Hs.
  rewrite H1 in Hs. by eapply IH.
Qed.

(** The payloads among the messages of a sequence of events. *)
Definition payload_received (events : list Event) (p : BlockPayload) : Prop :=
  ∃ now peer, DirectSend now peer (BlockPayloadMsg p) ∈ events.

Lemma observer_run_inv events self :
  observer_run events = Ok self → observer_inv (payload_received events) False self.
Proof using LL max_nonneg multi_no_panic epoch_verify_no_panic.
  rewrite observer_run_eq. apply run_from_inv; [apply observer_initial_inv|].
  apply Forall_forall. intros [now peer []|???|????|???|??] He; try done. by exists now, peer.
Qed.

Lemma observer_run_any events self :
  observer_run events = Ok self → observer_inv (λ _, True) False self.
Proof using LL max_nonneg multi_no_panic epoch_verify_no_panic.
  rewrite observer_run_eq. apply run_from_inv; [apply observer_initial_inv|].
  apply Forall_forall. by intros [?? []|???|????|???|??].
Qed.

(** C25. An observer executes only verified blocks.  Over any sequence of messages
    of any peers, state syncs and commits that it survives (see
    [observer_bounded] for when it panics), every ordered block handed to the
    execution pipeline is a chain of blocks, each with the hash of its data as
    identifier, that ends in the block of its proof; the proof verified for the
    epoch it names, an epoch the observer started; and for each of its blocks a
    payload was received that agrees with the payload in the block, has
    transactions with the digests of its batches, and proofs signed in its epoch.
    Every commit decision forwarded verified likewise. *)
Theorem observer_finalizes_verified events self :
  observer_run events = Ok self →
  (∀ ob, FinalizeOrder ob ∈ co_calls self →
    blocks_chained (ob_blocks ob) ∧
    (∃ b, last (ob_blocks ob) = Some b ∧ pb_id b = BlockInfo_id (proof_block_info ob)) ∧
    (∃ es, started (co_calls self) es ∧ EpochState_epoch es = BlockInfo_epoch (proof_block_info ob) ∧
      EpochState_verify es (ob_ordered_proof ob) = Ok tt) ∧
    ∀ b, b ∈ ob_blocks ob →
      pb_id b = hash (block_block_data (pb_block b)) ∧
      payload_of_block batch_payload_hash (started (co_calls self)) (payload_received events) b) ∧
  ∀ cd, SendCommitDecision cd ∈ co_calls self → decision_ok (co_calls self) cd.
Proof using LL max_nonneg multi_no_panic epoch_verify_no_panic.
  intros [Hi _]%observer_run_inv. pose proof (oi_calls _ _ Hi) as Hc. rewrite Forall_forall in Hc. split.
  - intros ob (Hv & Hes & Hp)%Hc. apply verify_ordered_blocks_Ok in Hv as [Hch Hl]. done.
  - intros cd Hcd%Hc. done.
Qed.

(** A notification that the observer does not survive: for the root, and the
    reconfiguration of a later epoch is missing, no state sync is going on, or
    the store has a block that was handed to execution before. *)
Definition refinalizes (e : Event) (self : Observer_state) : Prop :=
  ∃ now epoch round reconfig es, e = SyncNotification now epoch round reconfig ∧
    check_root_epoch_and_round (co_root self) epoch round = true ∧ co_epoch_state self = Some es ∧
    (EpochState_epoch es < epoch ∧ reconfig = None ∨ in_state_sync_mode self = false ∨
     ∃ key e, obs_ordered_blocks (co_ordered_block_store self) !! key = Some e ∧ ¬ fresh e.1).

Lemma observer_step_cases received e self :
  observer_base received self → mode_ok False (co_sync_handle self) (obs_ordered_blocks (co_ordered_block_store self)) →
  event_received received e →
  (∃ self', step e self = Ok self') ∨ step e self = Panic ∧ refinalizes e self.
Proof using LL max_nonneg multi_no_panic epoch_verify_no_panic.
  intros Hi Hm He. set (m := obs_ordered_blocks (co_ordered_block_store self)) in *.
  set (all := map_Forall (λ _, λ e : OrderedBlock * option ObserverCommitDecision, fresh e.1) m).
  assert (step e self ≠ Panic → ∃ self', step e self = Ok self') as Hret.
  { intros Hn. pose proof (observer_step_ok received False e self (conj Hi Hm) He (False_ind _)) as Hs.
    destruct (step e self); [by eexists|done|done]. }
  destruct e as [now peer msg|peer request sender|now epoch round reconfig|now connected rpc|blocks li].
  3: { simpl. assert (observer_inv received all self) as Hi'.
       { split; [done|]. unfold mode_ok in *. fold m. destruct (co_sync_handle self); [|done].
         intros Ha key e Hk. by apply (Ha key). }
       pose proof (process_sync_notification_ok received all now epoch round reconfig self Hi') as Hs.
       destruct (process_sync_notification _ _ _ _ _ _); [by left; eexists|done|].
       right. split; [done|]. destruct Hs as (n & ep & r & rc & es & Heq & Hroot & Hes & Hcase).
       injection Heq as <- <- <- <-. exists now, epoch, round, reconfig, es. split_and!; [done..|].
       destruct Hcase as [?|[?|Hn]]; [by left|by right; left|]. right. right.
       apply map_not_Forall in Hn as (key & e & Hk & Hn); [|apply _]. by exists key, e. }
  all: left; apply Hret; intros Hp;
    pose proof (observer_step_ok received False _ self (conj Hi Hm) He (False_ind _)) as Hs;
    rewrite Hp in Hs; by destruct Hs as (?&?&?&?&?&?&_).
Qed.

(** C26. The memory of an observer is bounded, and no message makes it panic:
    whatever a peer publishes, the payloads, the ordered blocks and the blocks
    that wait for payloads are each at most as many as configured.  In every
    state it can reach every event is handled, except for a notification of the
    end of a state sync for its root when the reconfiguration of a new epoch is
    missing, no state sync is going on, or it still stores a block that was
    handed to execution before the state sync. *)
Theorem observer_bounded events self :
  observer_run events = Ok self →
  Z.of_nat (size (bps_block_payloads (co_block_payload_store self))) ≤ max ∧
  Z.of_nat (size (obs_ordered_blocks (co_ordered_block_store self))) ≤ max ∧
  Z.of_nat (size (pbs_blocks_without_payloads (co_pending_block_store self))) ≤ max ∧
  ∀ e, (∃ self', step e self = Ok self') ∨ step e self = Panic ∧ refinalizes e self.
Proof using LL max_nonneg multi_no_panic epoch_verify_no_panic.
  intros Hrun. destruct (observer_run_inv _ _ Hrun) as [Hi _].
  split_and!; [apply Hi|eapply oo_size, Hi|apply Hi|]. intros e.
  destruct (observer_run_any _ _ Hrun). apply (observer_step_cases (λ _, True)); [done..|].
  by destruct e as [?? []|???|????|???|??].
Qed.

(** A sequence of events each of which is orderly when it arrives. *)
Fixpoint orderly_run (events : list Event) (self : Observer_state) : Prop :=
  match events with
  | [] => True
  | e :: events =>
      event_orderly e self ∧ ∀ self', step e self = Ok self' → orderly_run events self'
  end.

Lemma orderly_returns events : ∀ self,
  observer_inv (λ _, True) True self → orderly_run events self →
  ∃ self', fold_result (λ self event, step event self) self events = Ok self'.
Proof using LL max_nonneg multi_no_panic epoch_verify_no_panic.
  induction events as [|e events IH]; intros self Hi; simpl; [by eexists|]. intros [He Hev].
  assert (event_received (λ _, True) e) as Hrec by by destruct e as [?? []|???|????|???|??].
  pose proof (observer_step_ok (λ _, True) True e self Hi Hrec (λ _, He)) as Hs.
  destruct (step e self) as [self'|err|]; [|done|]; simpl.
  - by apply IH; [|apply Hev].
  - exfalso. destruct Hs as (now & ep & r & rc & es & -> & _ & _ & Hcase). destruct He as [Hsync [x ->]].
    destruct Hcase as [[_ ?]|[?|Hn]]; [done|congruence|by apply Hn].
Qed.

(** An observer that is told about the present survives everything else.  If
    no commit decision is for an epoch before that of its last block, and the
    end of a state sync is notified only while one is going on, with the
    reconfiguration of the new epoch, then no sequence of events makes it panic,
    whatever the peers send in whatever order. *)
Theorem observer_survives events :
  orderly_run events observer_initial → ∃ self, observer_run events = Ok self.
Proof using LL max_nonneg multi_no_panic epoch_verify_no_panic.
  rewrite observer_run_eq. apply orderly_returns, observer_initial_inv.
Qed.

(** ** Commit decisions of other epochs *)

Lemma foreign_commit_syncs (self : Observer_state) es sub cd info now :
  co_active_observer_subscription self = Some sub → co_epoch_state self = Some es →
  ocd_epoch cd ≠ EpochState_epoch es → get_last_block self = Ok info →
  BlockInfo_epoch info < ocd_epoch cd ∨ BlockInfo_round info < ocd_round cd →
  co_sync_handle self ≠ Some true →
  ∃ self', step (DirectSend now (cos_peer_network_id sub) (CommitDecisionMsg cd)) self = Ok self' ∧
    co_epoch_state self' = Some es ∧
    co_root self' = ocd_commit_proof cd ∧ co_calls self' = co_calls self ++ [SyncTo cd] ∧
    co_sync_handle self' = Some (ocd_epoch cd >? BlockInfo_epoch info) ∧
    co_ordered_block_store self' = remove_blocks_for_commit (ocd_commit_proof cd) (co_ordered_block_store self).
Proof using Type.
  intros Hsub He Hne Hlast Hnew Hsync. simpl. unfold process_direct_send_message.
  rewrite Hsub. unfold verify_message_sender. rewrite decide_True by done.
  unfold process_commit_decision_message, get_epoch_state. simpl. rewrite He. cbn [mbind result_bind].
  rewrite (proj2 (Z.eqb_neq _ _)) by done. unfold sync_to_future_commit.
  change (get_last_block (co_set_peers _ _ _ _)) with (get_last_block self). rewrite Hlast.
  cbn [mbind result_bind]. unfold in_state_sync_epoch_change. simpl.
  rewrite (bool_decide_false (co_sync_handle self = Some true)) by done.
  assert ((ocd_epoch cd >? BlockInfo_epoch info) || (ocd_round cd >? BlockInfo_round info) = true) as ->.
  { apply orb_true_iff. rewrite !Z.gtb_lt. lia. }
  eexists. by split_and!.
Qed.

(** ** How an observer can be misled *)

(** A payload without batches. *)
Definition blank_payload (info : BlockInfo) : BlockPayload :=
  {| bpm_block := info; bpm_transaction_payload := new_in_quorum_store [] [] |}.

(** C34. A verified block can be emptied before it is executed.  A payload is
    compared with the ordered block only when the block is ordered; a later
    payload for the same round replaces it.  When the peer sends one without
    batches for a block that the observer has already handed to execution, the
    payload manager returns no transactions for the block. *)
Theorem payload_replaced events self es sub ob b info now publisher' :
  observer_run events = Ok self →
  co_active_observer_subscription self = Some sub → co_epoch_state self = Some es →
  FinalizeOrder ob ∈ co_calls self → b ∈ ob_blocks ob →
  pb_epoch b = EpochState_epoch es → BlockInfo_epoch info = pb_epoch b → BlockInfo_round info = pb_round b →
  Z.of_nat (size (bps_block_payloads (co_block_payload_store self))) < max →
  ∃ self', step (DirectSend now (cos_peer_network_id sub) (BlockPayloadMsg (blank_payload info))) self = Ok self' ∧
    (get_transactions_for_observer (PeerNetworkId:=PeerNetworkId) (pb_block b)
       (bps_block_payloads (co_block_payload_store self')) publisher').2 = Ok ([], None).
Proof using LL max_nonneg multi_no_panic epoch_verify_no_panic.
  intros Hrun Hsub He _ _ Hep Hinfo Hround Hsize.
  set (e := DirectSend now (cos_peer_network_id sub) (BlockPayloadMsg (blank_payload info))).
  pose proof (observer_run_any _ _ Hrun) as Hi.
  destruct (observer_step_cases (λ _, True) e self) as [[self' Hstep]|[_ (?&?&?&?&?&?&_)]];
    [apply Hi|apply Hi|done| |done].
  exists self'. split; [done|]. simpl in Hstep. unfold process_direct_send_message in Hstep.
  rewrite Hsub in Hstep. unfold verify_message_sender in Hstep. rewrite decide_True in Hstep by done.
  simpl in Hstep. unfold process_block_payload_message, get_epoch_state, verify_payload_digests in Hstep.
  simpl in Hstep. rewrite He in Hstep. cbn [mbind result_bind] in Hstep.
  rewrite (proj2 (Z.eqb_eq (BlockInfo_epoch info) (EpochState_epoch es))) in Hstep by congruence.
  apply order_ready_frame in Hstep as [Hstep _]. unfold get_transactions_for_observer.
  rewrite Hstep. simpl. unfold insert_block_payload.
  rewrite (po_max _ _ _ _ _ (oi_payloads _ _ (proj1 Hi))), Z.geb_leb, (proj2 (Z.leb_gt _ _)) by done. simpl.
  unfold pb_epoch, pb_round in *. unfold bpm_key. simpl. rewrite Hinfo, Hround. by rewrite lookup_insert_eq.
Qed.

(** C40. A commit decision of an old epoch crashes the observer.  Outside of a state
    sync, with an ordered block in its store, an unsigned decision for an epoch
    before that block's and the observer's, with a round after its last block,
    starts a state sync but leaves the block, which was already handed to
    execution; when that state sync is over, finalizing the block again violates
    the assertion on its insertion time. *)
Theorem stale_decision_panics events self es sub cd info key e now :
  observer_run events = Ok self →
  co_active_observer_subscription self = Some sub → co_epoch_state self = Some es →
  co_sync_handle self = None → obs_ordered_blocks (co_ordered_block_store self) !! key = Some e →
  ocd_epoch cd < key.1 → ocd_epoch cd < EpochState_epoch es →
  get_last_block self = Ok info → BlockInfo_round info < ocd_round cd →
  ∃ self', step (DirectSend now (cos_peer_network_id sub) (CommitDecisionMsg cd)) self = Ok self' ∧
    ∀ later reconfig, step (SyncNotification later (ocd_epoch cd) (ocd_round cd) reconfig) self' = Panic.
Proof using LL max_nonneg multi_no_panic epoch_verify_no_panic.
  intros Hrun Hsub He Hsync Hk Hkey Hep Hlast Hround.
  destruct (observer_run_any _ _ Hrun) as [Hi Hm]. unfold mode_ok in Hm. rewrite Hsync in Hm.
  destruct (foreign_commit_syncs self es sub cd info now) as (self' & Hs & He' & Hr & Hc & Hsy & Hst);
    [done|done|lia|done|by right|by rewrite Hsync|].
  exists self'. split; [done|]. intros later reconfig. simpl. unfold process_sync_notification.
  assert (check_root_epoch_and_round (co_root self') (ocd_epoch cd) (ocd_round cd) = true) as ->.
  { rewrite Hr. unfold check_root_epoch_and_round, proof_commit_info, ocd_epoch, ocd_round.
    by rewrite LedgerInfo_epoch_commit_info, LedgerInfo_round_commit_info, !Z.eqb_refl. }
  unfold get_epoch_state. rewrite He'. cbn [mbind result_bind negb].
  rewrite Z.gtb_ltb, (proj2 (Z.ltb_ge _ _)) by lia. cbn [mbind result_bind].
  pose proof (observer_step_ok (λ _, True) False (DirectSend now (cos_peer_network_id sub) (CommitDecisionMsg cd))
    self) as Hok. rewrite Hs in Hok. destruct Hok as [Hi' _]; [|done|done|].
  { split; [done|]. unfold mode_ok. by rewrite Hsync. }
  apply (finalize_all_Panic (λ _, True) later _ key e); [by apply base_sync| |].
  - simpl. rewrite Hst. simpl. apply map_lookup_filter_Some. split; [done|].
    simpl. left. exact Hkey.
  - apply finalized_not_fresh; [|by eapply Hm].
    eapply ordered_ok_nonempty. by apply (oo_entry _ _ _ _ (oi_ordered _ _ Hi) _ _ Hk).
Qed.
End runs.

(** C36. Commit decisions of other epochs are not verified.  One whose epoch is not
    the observer's, with a later epoch than the last block or just a larger
    round, replaces the root and starts a state sync without any check of its
    signatures, unless a sync to a new epoch is going on; also when its epoch is
    an earlier one, so that the root goes back. *)
Theorem foreign_commit_unverified (self : Observer_state) es sub cd info now :
  co_active_observer_subscription self = Some sub → co_epoch_state self = Some es →
  ocd_epoch cd ≠ EpochState_epoch es → get_last_block self = Ok info →
  BlockInfo_epoch info < ocd_epoch cd ∨ BlockInfo_round info < ocd_round cd →
  co_sync_handle self ≠ Some true →
  ∃ self', step (DirectSend now (cos_peer_network_id sub) (CommitDecisionMsg cd)) self = Ok self' ∧
    co_root self' = ocd_commit_proof cd ∧ co_calls self' = co_calls self ++ [SyncTo cd] ∧
    in_state_sync_mode self' = true.
Proof using Type.
  intros Hsub He Hne Hlast Hnew Hsync.
  destruct (foreign_commit_syncs self es sub cd info now Hsub He Hne Hlast Hnew Hsync) as (self' & ? & _ & ? & ? & Hs & _).
  exists self'. split_and!; [done..|]. unfold in_state_sync_mode. by rewrite Hs.
Qed.
End observer_safety.
