(* ===== verification/Scenario.v ===== *)
(** A concrete network: the symbolic instance of the external interface
    extended with hashes of the consensus types and an in-memory secure
    storage, and four validators of equal power, three of them honest, that
    vote for and order two blocks.  The witnesses of the theorems with
    hypotheses are evaluated here. *)
From stdpp Require Import functions.
From S2P Require Import Prelude.
From S2P Require Import Laptos.
From S2P Require Import Toy.
From S2P Require Import Payload.
From S2P Require Import Certificates.
From S2P Require Import Block.
From S2P Require Import Votes.
From S2P Require Import SafetyRules.
From S2P Require Import NodeSafety.
From S2P Require Import Agreement.

(** ** Hashes *)

Definition enc_vote_data (vd : VoteData) : list Z :=
  2 :: len (enc_info (vd_proposed vd)) ++ enc_info (vd_parent vd).
Definition enc_block_data (b : BlockData) : list Z :=
  [3; bd_epoch b; bd_round b; bd_timestamp_usecs b] ++
  enc_vote_data (qc_vote_data (bd_quorum_cert b)).

#[export] Instance VoteData_CryptoHash : CryptoHash VoteData :=
  { hash := enc_vote_data; signing_message := enc_vote_data }.
#[export] Instance BlockData_CryptoHash : CryptoHash BlockData :=
  { hash := enc_block_data; signing_message := enc_block_data }.
Definition enc_timeout (t : TimeoutSigningRepr) : list Z :=
  [4; tsr_epoch t; tsr_round t; tsr_hqc_round t].
#[export] Instance TimeoutSigningRepr_CryptoHash : CryptoHash TimeoutSigningRepr :=
  { hash := enc_timeout; signing_message := enc_timeout }.
Definition enc_batch (b : BatchInfo) : list Z :=
  [5; bi_author b; batch_id_id (bi_batch_id b); bi_epoch b; bi_expiration b].
#[export] Instance BatchInfo_CryptoHash : CryptoHash BatchInfo :=
  { hash := enc_batch; signing_message := enc_batch }.

Lemma vote_data_hash_inj : Inj (=) (=) (hash (T:=VoteData)).
Proof.
  intros [p1 q1] [p2 q2] H. apply (f_equal (drop 1)) in H.
  apply len_app_inj in H as [Hp%enc_info_inj Hq%enc_info_inj]. simpl in Hp, Hq. congruence.
Qed.

Lemma vote_data_hash_nonzero (vd : VoteData) : hash vd ≠ HashValue_zero.
Proof. done. Qed.

(** ** An in-memory storage *)

Record store : Type := {
  st_safety_data : option SafetyData;
  st_waypoint : Z;
  st_author : Z;
  st_key : Z;
}.

#[export] Instance ToyStorage : SecureStorage := {
  Storage := store;
  storage_get_safety_data s := ok_or (st_safety_data s) (KeyNotSet "safety_data");
  storage_get_safety_data_result _ := Err (OtherStorageError "expected a Result");
  storage_set_safety_data d s :=
    ({| st_safety_data := Some d; st_waypoint := st_waypoint s; st_author := st_author s;
        st_key := st_key s |}, Ok tt);
  storage_get_waypoint s := Ok (st_waypoint s);
  storage_set_waypoint w s :=
    ({| st_safety_data := st_safety_data s; st_waypoint := w; st_author := st_author s;
        st_key := st_key s |}, Ok tt);
  storage_get_author s := Ok (st_author s);
  storage_set_author a s :=
    ({| st_safety_data := st_safety_data s; st_waypoint := st_waypoint s; st_author := a;
        st_key := st_key s |}, Ok tt);
  storage_get_default_sk s := Ok (st_key s);
  storage_get_explicit_sk _ _ := Err (KeyNotSet "explicit");
  storage_set_default_sk k s :=
    ({| st_safety_data := st_safety_data s; st_waypoint := st_waypoint s;
        st_author := st_author s; st_key := k |}, Ok tt);
}.

#[export] Instance ToyStorageLaws : StorageLaws ToyStorage.
Proof.
  split; simpl; try done.
  - by intros d s s' u [= <- <-].
  - intros d s s' u [= <- <-]. by eexists.
Qed.

(** ** Four validators *)

Definition validators : list (Z * Z) := [(1, 1); (2, 1); (3, 1); (4, 1)].
Definition vset : ValidatorVerifier := validators.
Definition V (e : Z) : ValidatorVerifier := vset.
Definition honest (a : AccountAddress) : Prop := a ∈ [1; 2; 3].
#[export] Instance honest_dec a : Decision (honest a).
Proof. unfold honest. apply _. Defined.

Lemma quorums_intersect e Q1 Q2 :
  quorum (V e) Q1 → quorum (V e) Q2 → ∃ a, a ∈ Q1 ∧ a ∈ Q2 ∧ honest a.
Proof.
  assert (∀ Q, quorum (V e) Q → 3 ≤ power validators Q) as Hq.
  { intros Q [_ HQ]. revert HQ. simpl. unfold check_voting_power, V.
    case_match; [|done]. case_match eqn:Hp; [|done]. by apply Z.leb_le in Hp. }
  intros H1%Hq H2%Hq. unfold power, validators in H1, H2. cbn [foldr fst snd] in H1, H2.
  unfold honest. repeat case_bool_decide; 
    first [lia | exists 1; split_and!; [done|done|set_solver]
      | exists 2; split_and!; [done|done|set_solver] | exists 3; split_and!; [done|done|set_solver]].
Qed.

#[export] Instance vset_laws : AggregationLaws vset.
Proof.
  apply ToyAggregationLaws.
  - apply (bool_decide_unpack _). vm_compute. exact I.
  - repeat constructor; discriminate.
  - split; [reflexivity|discriminate].
  - discriminate.
Qed.

(** ** A run of the network *)

(** The epoch-ending ledger info that starts epoch 1. *)
Definition start_li : LedgerInfo := LI (BI 0 0 [] [9] 0 0 (Some (1, validators))) [].
Definition epoch_proof : EpochChangeProof := (start_li, []).
Definition epoch_1 : EpochState := (1, validators).

Definition unwrap {E A} (d : A) (r : result E A) : A := match r with Ok a => a | _ => d end.

Definition empty_store : store :=
  {| st_safety_data := None; st_waypoint := 0; st_author := 0; st_key := 0 |}.
Definition node0 (a : AccountAddress) : SafetyRules :=
  SafetyRules_new
    (unwrap (PersistentSafetyStorage_new empty_store true)
       (PersistentSafetyStorage_initialize empty_store a a 0 true)).

Definition genesis_info : BlockInfo := BI 1 0 [9] [9] 0 0 None.
Definition genesis_qc : QuorumCert :=
  unwrap {| qc_vote_data := VoteData_dummy; qc_signed_ledger_info := epoch_proof |}
    (QuorumCert_certificate_for_genesis_from_ledger_info start_li [9]).

Definition make_block (round : Z) (qc : QuorumCert) : Block :=
  unwrap (Block_new_nil round qc [])
    (Block_new_proposal (DirectMempool []) round (100 * round) qc (ValidatorSigner_new 1 1) []).
Definition make_vp (b : Block) : VoteProposal :=
  {| vp_block := b; vp_next_epoch_state := None; vp_decoupled_execution := true |}.

(** The certificate the three honest validators make by voting. *)
Definition make_qc (b : Block) : QuorumCert :=
  let vd := VoteProposal_vote_data_ordering_only (make_vp b) in
  let li :=
    unwrap start_li
      (construct_ledger_info_2chain b (hash vd)) in
  {| qc_vote_data := vd;
     qc_signed_ledger_info := (li, (λ a, (a, enc_ledger_info li)) <$> [1; 2; 3]) |}.
Definition make_ovp (b : Block) (qc : QuorumCert) : OrderVoteProposal :=
  {| ovp_block := b; ovp_block_info := qc_certified_block qc; ovp_quorum_cert := qc |}.

Definition b1 : Block := make_block 1 genesis_qc.
Definition qc1 : QuorumCert := make_qc b1.
Definition b2 : Block := make_block 2 qc1.
Definition qc2 : QuorumCert := make_qc b2.

Definition each (input : SafetyRulesInput) : list (AccountAddress * Op) :=
  (λ a, (a, Request 1000 input)) <$> [1; 2; 3].
Definition schedule : list (AccountAddress * Op) :=
  each (Initialize epoch_proof) ++
  each (ConstructAndSignVoteTwoChain (make_vp b1) None) ++
  each (ConstructAndSignOrderVote (make_ovp b1 qc1)) ++
  each (ConstructAndSignVoteTwoChain (make_vp b2) None) ++
  each (ConstructAndSignOrderVote (make_ovp b2 qc2)).

Definition sys_serve (st : System) (x : AccountAddress * Op) : System :=
  let '(a, op) := x in
  let '(s', ev) := serve op (sys_nodes st a) in
  {| sys_nodes := <[a := s']> (sys_nodes st);
     sys_log := (pair a <$> option_list ev) ++ sys_log st |}.
Definition sys_run (l : list (AccountAddress * Op)) (st : System) : System :=
  fold_left sys_serve l st.

Definition start : System := {| sys_nodes := node0; sys_log := [] |}.
Definition final : System := sys_run schedule start.

(** The requests of a schedule are acceptable when they are made. *)
Fixpoint acceptable (st : System) (l : list (AccountAddress * Op)) : Prop :=
  match l with
  | [] => True
  | (a, op) :: l =>
      (honest a ∧ op_wf op ∧ op_ok V honest (sys_log st) (sys_nodes st a) op) ∧
      acceptable (sys_serve st (a, op)) l
  end.

Lemma acceptable_steps st l : acceptable st l → rtc (step V honest) st (sys_run l st).
Proof.
  revert st. induction l as [|[a op] l IH]; intros st; simpl; [by intros; apply rtc_refl|].
  intros [(Ha & Hwf & Hok) Hl]. eapply rtc_l; [|by apply IH].
  destruct (serve op (sys_nodes st a)) as [s' ev] eqn:Hs. by econstructor.
Qed.

(** Who signed a ledger info, decided on the log. *)
Definition signed_by (log : list (AccountAddress * Event)) (li : LedgerInfo) (a : AccountAddress) :
    bool :=
  existsb (λ p, bool_decide (p.1 = a ∧ event_ledger_info p.2 = Some li)) log.

Lemma backed_check log e li :
  forallb (signed_by log li) [1; 2; 3] = true → backed V honest log e li.
Proof.
  intros H. exists [1; 2; 3]. split; [split; [apply (bool_decide_unpack _); vm_compute; exact I|done]|].
  intros a Ha _. rewrite forallb_forall in H.
  specialize (H a). rewrite <- list_elem_of_In in H. specialize (H Ha).
  apply existsb_exists in H as ([b ev] & Hin & Hb). apply bool_decide_eq_true in Hb as [<- He].
  exists ev. split; [by apply list_elem_of_In|done].
Qed.

Lemma unforged_check log li :
  (∀ e, LedgerInfoWithSignatures_verify_signatures li (V e) = Ok tt →
        forallb (signed_by log (LedgerInfoWithSignatures_ledger_info li)) [1; 2; 3] = true) →
  li_unforged V honest log li.
Proof. intros H e He. by eapply backed_check, H. Qed.

Ltac accept :=
  split; [split_and!; [set_solver|vm_compute; done|]|];
  [first
    [ intros w es (l & [= <-] & [= <-]); reflexivity
    | split; [|done]; apply unforged_check; intros e He;
      first [vm_compute in He; discriminate | vm_compute; reflexivity]
    | apply unforged_check; intros e _; vm_compute; reflexivity ]|].

Lemma schedule_acceptable : acceptable start schedule.
Proof. unfold schedule, each. cbn [app fmap list_fmap acceptable]. do 15 accept. done. Qed.

Lemma node0_fresh a : fresh (node0 a).
Proof.
  unfold fresh. split; [split; [done|]|split; [done|]]; simpl; by intros d [= <-].
Qed.

Lemma final_reachable : reachable V honest final.
Proof.
  exists start. split; [split; [intros a _; apply node0_fresh|done]|].
  apply acceptable_steps, schedule_acceptable.
Qed.

(** ** Witnesses: agreement and the safety of one validator *)

Definition order_li (qc : QuorumCert) : LedgerInfo :=
  LedgerInfo_new (qc_certified_block qc) HashValue_zero.

Lemma agreement_witness :
  ∃ c1 c2, same_block c1 (qc_certified_block qc1) ∧ same_block c2 (qc_certified_block qc2) ∧
    (extends V honest (sys_log final) c1 c2 ∨ extends V honest (sys_log final) c2 c1).
Proof.
  apply (agreement V honest vote_data_hash_inj vote_data_hash_nonzero quorums_intersect
           final (order_li qc1) (order_li qc2)).
  - apply final_reachable.
  - apply backed_check. vm_compute. reflexivity.
  - apply backed_check. vm_compute. reflexivity.
  - reflexivity.
  - vm_compute. reflexivity.
  - vm_compute. reflexivity.
Defined.

(** The ledger info of the votes on the second block commits the first, as the
    order votes do. *)
Lemma committed_block_unique_witness :
  BlockInfo_id (LedgerInfo_commit_info (qc_ledger_info qc2)) = block_id b1.
Proof.
  apply (committed_block_unique V honest vote_data_hash_inj vote_data_hash_nonzero
           quorums_intersect final (qc_ledger_info qc2) (order_li qc1)).
  - apply final_reachable.
  - apply backed_check. vm_compute. reflexivity.
  - apply backed_check. vm_compute. reflexivity.
  - vm_compute. reflexivity.
  - vm_compute. reflexivity.
  - vm_compute. reflexivity.
Defined.

Definition timeout_at (round : Z) (qc : QuorumCert) : TwoChainTimeout :=
  {| timeout_epoch := 1; timeout_round := round; timeout_quorum_cert := qc |}.

(** A run in which the validator votes, restarts, is asked to vote for another
    block of the same round, and times out. *)
Definition ops1 : list Op :=
  [Request 1000 (Initialize epoch_proof);
   Request 1000 (ConstructAndSignVoteTwoChain (make_vp b1) None);
   Restart;
   Request 1000 (Initialize epoch_proof);
   Request 1000 (ConstructAndSignVoteTwoChain (make_vp (Block_new_nil 1 genesis_qc [])) None);
   Request 1000 (ConstructAndSignOrderVote (make_ovp b1 qc1));
   Request 1000 (SignTimeoutWithQC (timeout_at 2 qc1) None)].

Lemma validator_never_equivocates_witness :
  length (run ops1 (node0 1) []).2 = 4%nat ∧ compatible_log (run ops1 (node0 1) []).2.
Proof.
  split; [vm_compute; reflexivity|].
  apply (validator_never_equivocates ops1 (node0 1) (run ops1 (node0 1) []).1).
  - apply node0_fresh.
  - repeat (apply Forall_cons; split; [vm_compute; done|]). apply Forall_nil. done.
  - apply surjective_pairing.
Defined.

Lemma safety_data_monotone_witness :
  ∃ d', view (run ops1 (node0 1) []).1 = Ok d' ∧ advance (SafetyData_new 1 0 0 0 None 0) d'.
Proof.
  apply (safety_data_monotone ops1 (node0 1) _ [] (run ops1 (node0 1) []).2).
  - apply (node0_fresh 1).
  - reflexivity.
  - apply surjective_pairing.
Defined.

Definition uncached0 : SafetyRules :=
  SafetyRules_new (PersistentSafetyStorage_new empty_store false).

Lemma uncached_safety_data_unreadable_witness :
  ∃ msg,
    get_safety_data (set_safety_data (SafetyData_new 1 0 0 0 None 0) uncached0).1 =
      ((set_safety_data (SafetyData_new 1 0 0 0 None 0) uncached0).1,
       Err (SecureStorageUnexpectedError msg)) ∧
    ∀ now vp tc v,
      (guarded_construct_and_sign_vote_two_chain now vp tc
        (set_safety_data (SafetyData_new 1 0 0 0 None 0) uncached0).1).2 ≠ Ok v.
Proof.
  apply (uncached_safety_data_unreadable (SafetyData_new 1 0 0 0 None 0) uncached0).
  - reflexivity.
  - reflexivity.
Defined.
