(* ===== verification/MessageExamples.v ===== *)
(** Witnesses of the theorems about payloads, certificates, blocks and
    messages, evaluated in the network of [Scenario]. *)
From S2P Require Import Prelude.
From S2P Require Import Laptos.
From S2P Require Import Toy.
From S2P Require Import Payload.
From S2P Require Import Certificates.
From S2P Require Import Block.
From S2P Require Import Votes.
From S2P Require Import SafetyRules.
From S2P Require Import NodeSafety.
From S2P Require Import Agreement.
From S2P Require Import Scenario.

(** ** Payloads *)

Definition payload_hash (author : AccountAddress) (txns : list SignedTransaction) : HashValue :=
  author :: txns.
Definition batch1 : BatchInfo :=
  {| bi_author := 2; bi_batch_id := BatchId_new 7; bi_epoch := 1; bi_expiration := 5000;
     bi_digest := [2; 11; 12]; bi_num_txns := 2; bi_num_bytes := 16; bi_gas_bucket_start := 0 |}.
Definition proof1 : ProofOfStore :=
  {| pos_info := batch1;
     pos_multi_signature := (λ a, (a, enc_batch batch1)) <$> [1; 2; 3] |}.
Definition hybrid : Payload :=
  QuorumStoreInlineHybrid [(batch1, [11; 12])]
    {| pwd_proofs := [proof1; proof1]; pwd_status := 1%positive |} None.

Lemma Payload_verify_sound_witness :
  Forall (proof_valid vset) [proof1; proof1] ∧
  cache_sound vset (Payload_verify payload_hash hybrid vset true ∅).1.
Proof.
  destruct (Payload_verify_sound payload_hash hybrid vset true ∅
    (Payload_verify payload_hash hybrid vset true ∅).1) as (H & _ & _ & _ & Hc).
  - intros i s H. rewrite lookup_empty in H. discriminate H.
  - apply eq_fst_pair. vm_compute. reflexivity.
  - split; [exact H|exact Hc].
Defined.

(** ** Certificates and blocks *)

(** Two vset time out of round 2, one of them without the certificate of
    round 1. *)
Definition partial_tc : TwoChainTimeoutWithPartialSignatures :=
  let t1 := timeout_at 2 genesis_qc in
  let t2 := timeout_at 2 qc1 in
  TwoChainTimeoutWithPartialSignatures_add
    (TwoChainTimeoutWithPartialSignatures_add
       (TwoChainTimeoutWithPartialSignatures_add
          (TwoChainTimeoutWithPartialSignatures_new t1) 1 t1
          (1, enc_timeout (TwoChainTimeout_signing_format t1)))
       2 t2 (2, enc_timeout (TwoChainTimeout_signing_format t2)))
    3 t1 (3, enc_timeout (TwoChainTimeout_signing_format t1)).
Definition tc2 : TwoChainTimeoutCertificate :=
  unwrap (TwoChainTimeoutCertificate_new (timeout_at 2 genesis_qc))
    (TwoChainTimeoutWithPartialSignatures_aggregate_signatures partial_tc vset).

Lemma Block_verify_well_formed_no_panic_witness :
  Block_verify_well_formed 1000 (make_block u64_MAX qc1) ≠ Panic.
Proof.
  apply (Block_verify_well_formed_no_panic 1000 (make_block u64_MAX qc1)).
  vm_compute. split; discriminate.
Defined.

Lemma Block_new_nil_accepted_witness :
  Block_validate_signature (Block_new_nil 3 qc1 [(2, 4); (3, 1)]) vset = Ok tt ∧
  Block_verify_well_formed 5 (Block_new_nil 3 qc1 [(2, 4); (3, 1)]) = Ok tt.
Proof.
  apply (Block_new_nil_accepted 5 3 qc1 vset [(2, 4); (3, 1)]).
  - vm_compute. reflexivity.
  - reflexivity.
  - vm_compute. split; [discriminate|reflexivity].
  - reflexivity.
  - repeat constructor.
  - repeat constructor; vm_compute; discriminate.
Defined.

Definition genesis_block : Block :=
  unwrap b1 (Block_make_genesis_block_from_ledger_info start_li).

Lemma genesis_block_certified_witness :
  block_is_genesis_block genesis_block = true ∧ block_round genesis_block = 0 ∧
  block_epoch genesis_block = 1.
Proof.
  destruct (genesis_block_certified start_li genesis_block
    (unwrap qc1 (QuorumCert_certificate_for_genesis_from_ledger_info start_li
      (block_id genesis_block))) vset) as (H1 & H2 & H3 & _).
  - vm_compute. reflexivity.
  - vm_compute. reflexivity.
  - split; [exact H1|]. split; [exact H2|exact H3].
Defined.

Definition request2 : BlockRetrievalRequest :=
  {| brr_block_id := block_id b2; brr_num_blocks := 2; brr_target_block_id := None;
     brr_epoch := Some 1 |}.
Definition response2 : BlockRetrievalResponse :=
  {| brs_status := Succeeded; brs_blocks := [(b2, Some 2, None); (b1, Some 1, None)];
     brs_ledger_infos := []; brs_quorum_certs := [] |}.

Lemma BlockRetrievalResponse_verify_sound_witness :
  parent_chain (block_id b2) [b2; b1] ∧
  Forall (λ b, Block_validate_signature b vset = Ok tt ∧
               Block_verify_well_formed 1000 b = Ok tt) [b2; b1].
Proof.
  destruct (BlockRetrievalResponse_verify_sound 1000 response2 request2 vset)
    as (H1 & H2 & _); [vm_compute; reflexivity|]. split; [exact H1|exact H2].
Defined.

(** ** Messages *)

Definition sync1 : SyncInfo :=
  SyncInfo_new qc1 (qc_into_wrapped_ledger_info genesis_qc) (Some tc2).
Definition b3 : Block := make_block 3 qc1.
Definition proposal3 : ProposalMsg := {| pm_proposal := b3; pm_sync_info := sync1 |}.

Lemma ProposalMsg_verify_sound_witness :
  block_round b3 = Z.max (qc_round qc1) (tc_round tc2) + 1.
Proof.
  destruct (ProposalMsg_verify_sound payload_hash 1000 proposal3 vset false ∅
    (ProposalMsg_verify payload_hash 1000 proposal3 vset false ∅).1)
    as (_ & _ & H & _); [apply eq_fst_pair; vm_compute; reflexivity|]. exact H.
Defined.

Lemma SyncInfo_verify_sound_witness :
  SyncInfo_highest_commit_round sync1 ≤ SyncInfo_highest_ordered_round sync1 ≤
    SyncInfo_highest_certified_round sync1.
Proof.
  destruct (SyncInfo_verify_sound sync1 vset) as (H & _); [vm_compute; reflexivity|].
  exact H.
Defined.
