(* ===== verification/VoteExamples.v ===== *)
(** Witnesses of the theorems about vote aggregation, evaluated in the network
    of [Scenario]: a round in which two validators vote for a proposal and one
    for a NIL block before all of them time out. *)
From S2P Require Import Prelude.
From S2P Require Import Laptos.
From S2P Require Import Toy.
From S2P Require Import Payload.
From S2P Require Import Certificates.
From S2P Require Import Block.
From S2P Require Import Votes.
From S2P Require Import SafetyRules.
From S2P Require Import PendingVotes.
From S2P Require Import Scenario.

Lemma toy_li_hash_inj : Inj (=) (=) (hash (T:=LedgerInfo)).
Proof. intros l1 l2. apply enc_ledger_info_inj. Qed.

(** The vote of a validator for a block. *)
Definition make_vote (a : AccountAddress) (b : Block) : Vote :=
  let qc := make_qc b in
  Vote_new_with_signature (qc_vote_data qc) a (qc_ledger_info qc)
    (a, enc_ledger_info (qc_ledger_info qc)).
Definition with_timeout (qc : QuorumCert) (vote : Vote) : Vote :=
  let t := Vote_generate_2chain_timeout vote qc in
  Vote_add_2chain_timeout vote t
    (vote_author vote, enc_timeout (TwoChainTimeout_signing_format t)).

Definition nil2 : Block := Block_new_nil 2 qc1 [].
Definition round2_votes : list Vote :=
  [make_vote 1 b2; make_vote 2 b2; with_timeout genesis_qc (make_vote 1 b2);
   with_timeout qc1 (make_vote 3 nil2)].
Definition round2_vote : Vote := with_timeout genesis_qc (make_vote 2 b2).

Ltac round_votes :=
  repeat (apply Forall_cons; split; [|]);
  [(split; [vm_compute; reflexivity|]; split; [reflexivity|]; split; [reflexivity|];
    vm_compute; discriminate)..|apply Forall_nil; exact I].

Lemma collected_certificates_verify_witness :
  ∃ rr, (PendingVotes_insert_vote round2_vote vset
           (insert_votes vset round2_votes PendingVotes_new)).2 = Ok rr ∧
    reception_ok vset 1 2 round2_vote rr.
Proof.
  apply (collected_certificates_verify vset toy_li_hash_inj 1 2 round2_votes round2_vote
    (PendingVotes_insert_vote round2_vote vset
           (insert_votes vset round2_votes PendingVotes_new)).1).
  - unfold round2_votes. round_votes.
  - split; [vm_compute; reflexivity|]. split; [reflexivity|]. split; [reflexivity|].
    vm_compute. discriminate.
  - apply surjective_pairing.
Defined.

(** That insertion completes a timeout certificate. *)
Example round2_times_out :
  match (PendingVotes_insert_vote round2_vote vset
           (insert_votes vset round2_votes PendingVotes_new)).2 with
  | Ok (New2ChainTimeoutCertificate tc) => tc_highest_hqc_round tc = 1
  | _ => False
  end.
Proof. vm_compute. reflexivity. Qed.

Lemma quorum_of_votes_certifies_witness :
  ∃ self' qc,
    PendingVotes_insert_vote (make_vote 3 b2) vset
      (insert_votes vset [make_vote 1 b2; make_vote 4 nil2; make_vote 2 b2] PendingVotes_new) =
      (self', Ok (NewQuorumCertificate qc)) ∧
    QuorumCert_verify qc vset = Ok tt ∧ qc_vote_data qc = qc_vote_data qc2.
Proof.
  apply (quorum_of_votes_certifies vset toy_li_hash_inj 1 2
    [make_vote 1 b2; make_vote 4 nil2; make_vote 2 b2] (make_vote 3 b2) [1; 2; 3]).
  - round_votes.
  - intros w Hw. repeat (apply elem_of_cons in Hw as [->|Hw]; [vm_compute; discriminate|]).
    by apply elem_of_nil in Hw.
  - apply (bool_decide_unpack _). vm_compute. exact I.
  - intros a Ha. split.
    + exists (make_vote a b2). split; [|reflexivity]. apply list_elem_of_In.
      repeat (apply elem_of_cons in Ha as [->|Ha]; [simpl; tauto|]). by apply elem_of_nil in Ha.
    + intros w Hw Hwa. repeat (apply elem_of_cons in Hw as [->|Hw]; [|]); try reflexivity.
      * simpl in Hwa. subst a. apply list_elem_of_In in Ha. simpl in Ha. lia.
      * by apply elem_of_nil in Hw.
  - vm_compute. reflexivity.
Defined.

Lemma votes_counted_once_witness :
  PendingVotes_insert_vote (make_vote 1 nil2) vset
    (insert_votes vset round2_votes PendingVotes_new) =
  (insert_votes vset round2_votes PendingVotes_new, Ok EquivocateVote).
Proof.
  destruct (votes_counted_once vset toy_li_hash_inj 1 2 round2_votes) as [_ H].
  { unfold round2_votes. round_votes. }
  apply (H (make_vote 1 b2)).
  - apply list_elem_of_In. simpl. tauto.
  - reflexivity.
  - intros w Hw Hwa. unfold round2_votes in Hw.
    repeat (apply elem_of_cons in Hw as [->|Hw]; [first [discriminate Hwa|vm_compute; discriminate]|]).
    by apply elem_of_nil in Hw.
Defined.

Definition make_order_vote (a : AccountAddress) (qc : QuorumCert) : OrderVote :=
  {| ov_author := a; ov_ledger_info := order_li qc;
     ov_signature := (a, enc_ledger_info (order_li qc)) |}.
Definition order_ops : list OrderVoteOp :=
  [InsertOrderVote (make_order_vote 2 qc2); InsertOrderVote (make_order_vote 1 qc2);
   GarbageCollect 1; InsertOrderVote (make_order_vote 1 qc1)].

Lemma order_votes_aggregate_witness :
  ∃ rr, (insert_order_vote (make_order_vote 3 qc2) vset
           (foldr (order_vote_step vset) PendingOrderVotes_new order_ops)).2 = Ok rr ∧
    order_reception_ok vset (make_order_vote 3 qc2)
      (insert_order_vote (make_order_vote 3 qc2) vset
        (foldr (order_vote_step vset) PendingOrderVotes_new order_ops)).1 rr.
Proof.
  apply (order_votes_aggregate vset toy_li_hash_inj order_ops (make_order_vote 3 qc2)).
  - intros o Ho. unfold order_ops in Ho.
    repeat (apply elem_of_cons in Ho as [Ho|Ho];
      [first [discriminate Ho|injection Ho as ->; vm_compute; reflexivity]|]).
    by apply elem_of_nil in Ho.
  - vm_compute. reflexivity.
  - apply surjective_pairing.
Defined.
