(* ===== verification/RoundExamples.v ===== *)
(** Witnesses of the theorems about the pacemaker: a run in the network of
    [Scenario] that enters round 2 with a certificate of round 1, collects votes
    and times out. *)
From S2P Require Import Prelude Laptos Toy Payload Certificates Block Votes SafetyRules PendingVotes.
From S2P Require Import RoundState Scenario MessageExamples VoteExamples.

(** A round lasts a second, and a second more for every round without a new
    ordered block, up to ten. *)
#[global] Instance toy_interval : RoundTimeInterval :=
  {| get_round_duration i := NANOS_PER_SEC * (1 + Z.min (Z.max i 0) 9) |}.
Definition longest_round : Z := 10 * NANOS_PER_SEC.

Lemma toy_interval_bound i : 0 ≤ get_round_duration i ≤ longest_round.
Proof.
  change (get_round_duration i) with (NANOS_PER_SEC * (1 + Z.min (Z.max i 0) 9)).
  unfold longest_round, NANOS_PER_SEC. lia.
Qed.

Definition start_time : TimeService :=
  {| ts_now := 1700000000 * NANOS_PER_SEC; ts_next := 0; ts_tasks := ∅; ts_channel := [] |}.
Definition sync_genesis : SyncInfo :=
  SyncInfo_new genesis_qc (qc_into_wrapped_ledger_info genesis_qc) None.
Definition sync_round1 : SyncInfo :=
  SyncInfo_new qc1 (qc_into_wrapped_ledger_info genesis_qc) None.
Definition round_ops : list RoundStateOp :=
  [Certificates sync_genesis; Elapse (10 * NANOS_PER_SEC); Fire 0; Certificates sync_round1;
   DeliverTimeout; InsertVote (make_vote 1 b2); RecordVote (make_vote 1 b2);
   InsertVote (make_vote 2 b2); Elapse NANOS_PER_SEC].

Lemma round_ops_in_range : Forall (op_in_range vset 1) round_ops.
Proof.
  repeat (apply Forall_cons; split; [|]); [..|apply Forall_nil; exact I].
  all: first [exact I | (split; [vm_compute; reflexivity|]; split; [reflexivity|];
    split; [reflexivity|]; vm_compute; discriminate)
    | (unfold op_in_range, sync_info_in_range; split_and!; vm_compute; (reflexivity || discriminate))
    | (vm_compute; discriminate)].
Qed.

Definition round_run : RoundState * result anyhow (list Output) :=
  run vset round_ops (RoundState_new start_time true).

Definition round_outputs : list Output :=
  match round_run.2 with Ok os => os | _ => [] end.

Lemma round_run_ends : round_run = (round_run.1, Ok round_outputs).
Proof. apply eq_fst_pair. vm_compute. reflexivity. Qed.

(** The run enters rounds 1 and 2. *)
Example round_run_rounds : new_rounds round_outputs = [1; 2].
Proof. vm_compute. reflexivity. Qed.

Lemma rounds_follow_certificates_witness :
  ∃ self os, run vset round_ops (RoundState_new start_time true) = (self, Ok os) ∧
    StronglySorted Z.lt (new_rounds os) ∧
    rs_current_round self = default 0 (last (new_rounds os)) ∧
    rs_current_round self = foldl Z.max 0 (next_round_of <$> round_ops).
Proof.
  apply (rounds_follow_certificates vset toy_li_hash_inj longest_round toy_interval_bound 1).
  - split_and!; [reflexivity|reflexivity|vm_compute; discriminate].
  - apply round_ops_in_range.
  - vm_compute. discriminate.
Defined.

Lemma round_votes_collected_witness :
  ∃ self' res, RoundState_insert_vote (make_vote 3 b2) vset round_run.1 = (self', Ok res) ∧
    vote_received vset 1 (make_vote 3 b2) round_run.1 self' res.
Proof.
  apply (round_votes_collected vset toy_li_hash_inj longest_round toy_interval_bound 1 round_ops
    start_time round_run.1 round_outputs).
  - split_and!; [reflexivity|reflexivity|vm_compute; discriminate].
  - apply round_ops_in_range.
  - vm_compute. discriminate.
  - apply round_run_ends.
  - split; [vm_compute; reflexivity|]. split; [reflexivity|]. split; [reflexivity|].
    vm_compute. discriminate.
Defined.

Lemma current_round_times_out_witness :
  ∃ t h n self' os', 0 ≤ t ≤ 2 * longest_round ∧
    run vset (Elapse t :: Fire h :: replicate n DeliverTimeout) round_run.1 = (self', Ok os') ∧
    TimedOut (rs_current_round round_run.1) ∈ os'.
Proof.
  apply (current_round_times_out vset toy_li_hash_inj longest_round toy_interval_bound 1 round_ops
    start_time round_run.1 round_outputs).
  - split_and!; [reflexivity|reflexivity|vm_compute; discriminate].
  - apply round_ops_in_range.
  - vm_compute. discriminate.
  - apply round_run_ends.
  - vm_compute. discriminate.
Defined.
