(* ===== verification/BufferExamples.v ===== *)
(** Witnesses of the theorems about the block buffer: an epoch of three blocks
    whose second one starts the next epoch, handed back and forth between
    consensus and execution. *)
From S2P Require Import Prelude Laptos Toy BlockBuffer BufferSafety.

(** An event is the start of an epoch, given by its number and validators, or
    something else. *)
Record toy_block := ToyBlock {
  tb_id : list Z; tb_number : Z; tb_epoch : Z; tb_usecs : Z; tb_txns : list Z;
}.
#[global] Instance ToyGcei : Gcei :=
  {| ExternalBlock := toy_block; eb_block_id := tb_id : _ → HashValue; eb_block_number := tb_number;
     eb_epoch := tb_epoch; eb_usecs := tb_usecs; eb_txns_len b := Z.of_nat (length (tb_txns b));
     VerifiedTxnWithAccountSeqNum := Z; TxnStatuses := option (list bool); TxnStatuses_eq_dec := _;
     TxnStatuses_None := None;
     LiquentEvent := option (Z * list Z); LiquentEvent_eq_dec := _;
     LiquentEvent_new_epoch e := e : option (Z * Bytes);
     validator_set_from_bytes b :=
       match (b : list Z) with
       | [] => Err "Failed to deserialize into config"%string
       | b => Ok ((λ a, (a, 1)) <$> b : ValidatorVerifier)
       end;
     EpochState_new e vs := (e, vs) : EpochState; BlockEndInfo := unit;
     BlockEndInfo_eq_dec := _; Randomness := list Z; Randomness_eq_dec := _ |}.
#[global] Instance ToyGceiLaws : GceiLaws ToyGcei.
Proof. split. done. Qed.

Definition id32 (n : Z) : @HashValue ToyLaptos := [n].

(** Guarded calls, checked by evaluation. *)
Definition orderly_b (self : BlockBuffer) (op : BufferOp) : bool :=
  match op with
  | SetOrdered _ block _ =>
      (0 <=? eb_block_number block) && (eb_block_number block <? u64_MAX) &&
      match bb_blocks self !! BlockKey_new (eb_epoch block) (eb_block_number block + 1) with
      | Some (Ordered _ _ _) => false
      | _ => true
      end
  | _ => true
  end.
Definition within_epoch_b (self : BlockBuffer) (op : BufferOp) : bool :=
  match op with
  | SetComputeRes _ _ _ _ _ events =>
      match find_new_epoch events with None => true | Some _ => false end
  | InitEpoch _ | ConsumeEpochChange | ReleaseInflight => false
  | _ => true
  end.

Lemma orderly_check self op : orderly_b self op = true → orderly self op.
Proof.
  destruct op; try done. simpl. intros H. bool_to_prop. split; [done|]. intros b p r Hb. by rewrite Hb in *.
Qed.
Lemma within_epoch_check self op : within_epoch_b self op = true → within_epoch self op.
Proof. destruct op; try done. simpl. by destruct (find_new_epoch events). Qed.

(** A run of calls, the oldest first. *)
Fixpoint calls_from (h : list (BufferOp * BufferOutput)) (ops : list BufferOp) (self : BlockBuffer) :
    list (BufferOp * BufferOutput) * BlockBuffer :=
  match ops with
  | [] => (h, self)
  | op :: ops => calls_from ((op, (buffer_step op self).2) :: h) ops (buffer_step op self).1
  end.
Definition calls : list BufferOp → BlockBuffer → list (BufferOp * BufferOutput) * BlockBuffer :=
  calls_from [].
Fixpoint checked (check : BlockBuffer → BufferOp → bool) (ops : list BufferOp) (self : BlockBuffer) :
    bool :=
  match ops with
  | [] => true
  | op :: ops => check self op && checked check ops (buffer_step op self).1
  end.

Lemma calls_reach guard check ops start :
  (∀ self op, check self op = true → guard self op) → checked check ops start = true →
  reaches guard start (calls ops start).1 (calls ops start).2.
Proof.
  intros Hcheck. unfold calls.
  assert (∀ h self, reaches guard start h self → checked check ops self = true →
    reaches guard start (calls_from h ops self).1 (calls_from h ops self).2) as H.
  { induction ops as [|op ops IH]; intros h self Hr Hc; [done|]. simpl in *.
    apply andb_true_iff in Hc as [Hg Hc]. apply IH; [|done].
    constructor; [done|by apply Hcheck]. }
  apply H. constructor.
Qed.

Definition start : BlockBuffer :=
  (BlockBufferManager_init 0 {[0 := (0, id32 0)]} 1 BlockBufferManager_new).1.
Definition tb1 := ToyBlock [11] 1 1 100 [1; 2].
Definition tb2 := ToyBlock [12] 2 1 200 [3].
Definition tb3 := ToyBlock [13] 3 1 300 [].
Definition ref (b : toy_block) : BlockHashRef :=
  {| bhr_block_id := tb_id b : HashValue; bhr_num := tb_number b; bhr_hash := None;
     bhr_persist_notifier := None |}.
Definition new_epoch : LiquentEvent := Some (2, [1; 2; 3; 4]).

(** Three blocks are ordered, the first one is executed and committed, and the
    second one starts a new epoch. *)
Definition ops1 : list BufferOp :=
  [SetOrdered (id32 0) tb1 1; SetOrdered (id32 0) tb2 2;
   SetOrdered (id32 12) tb3 3;
   GetOrdered false 1 None 1; SetComputeRes (id32 11) (id32 101) 1 1 None [];
   GetExecuted false (id32 11) 1 1; SetCommit [ref tb1] 1; GetCommitted false 1 None 1].
Definition change : BufferOp :=
  SetComputeRes (id32 12) (id32 102) 2 1 None [None; new_epoch].
Definition ops2 : list BufferOp :=
  [GetExecuted false (id32 12) 2 1; GetExecuted false (id32 13) 3 1;
   SetCommit [ref tb2; ref tb3] 1].
Definition run1 := calls ops1 start.
Definition run2 := calls (ops1 ++ change :: ops2) start.

Lemma start_blocks key state :
  bb_blocks start !! key = Some state → key = BlockKey_new 0 0 ∧ state = Historical (id32 0).
Proof.
  change (bb_blocks start)
    with ({[BlockKey_new 0 0 := Historical (id32 0)]} : gmap BlockKey BlockState).
  by intros [<- <-]%lookup_singleton_Some.
Qed.
Lemma start_no_results : no_results start.
Proof. split; [|reflexivity]. by intros key state [_ ->]%start_blocks. Qed.
Lemma start_recovered : recovered start.
Proof.
  intros key state [-> ->]%start_blocks. split; [|by eexists]. vm_compute.
  split; [discriminate|reflexivity].
Qed.

(** The second block stays in the buffer from the first run to the end of the
    second one. *)
Fixpoint present (key : BlockKey) (ops : list BufferOp) (self : BlockBuffer) : bool :=
  match ops with
  | [] => true
  | op :: ops =>
      let self' := (buffer_step op self).1 in
      match bb_blocks self' !! key with Some _ => present key ops self' | None => false end
  end.
Lemma present_stays key ops : ∀ h self,
  present key ops self = true → rtc (stays key) self (calls_from h ops self).2.
Proof.
  induction ops as [|op ops IH]; intros h self; simpl; [done|]. intros Hp.
  destruct (bb_blocks (buffer_step op self).1 !! key) as [x|] eqn:Hx; [|done].
  eapply rtc_l; [|by apply IH]. exists op. split; [done|]. by rewrite Hx.
Qed.
Definition stage (key : BlockKey) (self : BlockBuffer) : BlockState :=
  default (Historical (id32 0)) (bb_blocks self !! key).
Definition later := calls_from [] (change :: ops2) run1.2.
Lemma blocks_follow_lifecycle_witness :
  let key := BlockKey_new 1 2 in
  lifecycle change run1.2 key (bb_blocks run1.2 !! key) (bb_blocks (buffer_step change run1.2).1 !! key) ∧
  advanced (stage key run1.2) (stage key later.2).
Proof.
  destruct (blocks_follow_lifecycle change run1.2 later.2 (BlockKey_new 1 2)) as [Hl Ha].
  split; [exact Hl|]. apply Ha.
  - apply present_stays. vm_compute. reflexivity.
  - vm_compute. reflexivity.
  - vm_compute. reflexivity.
Defined.

(** The result of the first block, and the dummy result of the third. *)
Definition dummy3 : StateComputeResult :=
  StateComputeResult_new_dummy_with_epoch_state
    (EpochState_new 2 ((λ a, (a, 1)) <$> [1; 2; 3; 4] : @ValidatorVerifier ToyLaptos)).
Lemma executed_results_authentic_witness :
  delivered run2.1 (BlockKey_new 1 3) (id32 13) dummy3 ∨
  (∃ n es, n < 3 ∧ announced run2.1 n es ∧
     dummy3 = StateComputeResult_new_dummy_with_epoch_state es) ∨
  (dummy3 = StateComputeResult_new_dummy ∧ 1 < bb_current_epoch run2.2 ∧
     bb_blocks run2.2 !! BlockKey_new 1 3 = None).
Proof.
  apply (executed_results_authentic start run2.2 (get_executed_res false (id32 13) 3 1 run2.2).1 run2.1 false).
  - apply start_no_results.
  - apply (calls_reach any_call (λ _ _, true)); [done|vm_compute; reflexivity].
  - apply eq_fst_pair. vm_cast_no_check (eq_refl (Done (Ok dummy3) : poll StateComputeResult)).
Defined.

Lemma execution_gets_chain_witness :
  let out := (get_ordered_blocks false 2 None 1 run1.2).2 in
  run1.2 = run1.2 ∧
  match out with
  | Pending => ∀ b p r, bb_blocks run1.2 !! BlockKey_new 1 2 ≠ Some (Ordered b p r)
  | Done (Ok l) =>
      l ≠ [] ∧ 1 = bb_current_epoch run1.2 ∧
      (∀ i b p, l !! i = Some (b, p) → eb_epoch b = 1 ∧ eb_block_number b = 2 + Z.of_nat i) ∧
      (∀ i b p b' p', l !! i = Some (b, p) → l !! S i = Some (b', p') → p' = eb_block_id b)
  | Done (Err _) => false = true ∨ bb_epoch_change_ready run1.2 = true ∨ 1 ≠ bb_current_epoch run1.2
  | Done Panic => False
  end.
Proof.
  apply (execution_gets_chain start run1.2 run1.2 run1.1 false 2 1 None).
  - apply start_recovered.
  - apply (calls_reach orderly orderly_b); [exact orderly_check|vm_compute; reflexivity].
  - vm_compute. reflexivity.
  - rewrite <- (get_ordered_blocks_reads false 2 None 1 run1.2) at 2. apply surjective_pairing.
Defined.
Example execution_gets_two :
  match (get_ordered_blocks false 2 None 1 run1.2).2 with
  | Done (Ok l) => l = [(tb2, id32 11); (tb3, id32 12)] | _ => False end.
Proof. vm_compute. reflexivity. Qed.

Lemma committed_blocks_handed_once_witness :
  match (get_committed_blocks false 2 None 1 run2.2).2 with
  | Pending => is_suffix_block 2 run2.2 = true ∨
               is_committed (bb_blocks run2.2 !! BlockKey_new 1 2) = false
  | Done (Ok refs) =>
      refs ≠ [] ∧ committed_refs 1 2 run2.2 refs ∧
      NoDup (notifiers refs ++ handed run2.1) ∧
      ∀ key c, c ∈ notifiers refs → ¬ holds (get_committed_blocks false 2 None 1 run2.2).1 key c
  | Done (Err _) => false = true
  | Done Panic => False
  end.
Proof.
  apply (committed_blocks_handed_once start run2.2 (get_committed_blocks false 2 None 1 run2.2).1 run2.1
    false 2 1 None).
  - apply start_recovered.
  - apply (calls_reach orderly orderly_b); [exact orderly_check|vm_compute; reflexivity].
  - vm_compute. reflexivity.
  - apply surjective_pairing.
Defined.
(** Only the second block is handed over, with its notifier. *)
Example second_block_committed :
  match (get_committed_blocks false 2 None 1 run2.2).2 with
  | Done (Ok refs) => bhr_num <$> refs = [2] ∧ notifiers refs = [0%nat] | _ => False end.
Proof. vm_compute. split; reflexivity. Qed.

Definition changed : BlockBuffer :=
  (set_compute_res (id32 12) (id32 102) 2 1 None [None; new_epoch] run1.2).1.
Definition before_release : BlockBuffer := (calls ops2 changed).2.
Definition ops3 : list BufferOp := [GetOrdered true 3 None 1; SetOrdered (id32 12) tb3 4].
Definition released : BlockBuffer := (calls ops3 (release_inflight_blocks before_release)).2.

Lemma epoch_change_protocol_witness :
  let '(final, (e, m)) := consume_epoch_change released in
  (∀ k b p r, 2 < k → bb_blocks changed !! BlockKey_new 1 k ≠ Some (Ordered b p r)) ∧
  bb_current_epoch before_release = bb_current_epoch run1.2 ∧
  (∀ key state, bb_blocks released !! key = Some state → bk_block_number key ≤ 2) ∧
  (e, m) = (2, 2) ∧ bb_current_epoch final = 2 ∧
  bb_epoch_change_ready final = false ∧ release_inflight_blocks final = final.
Proof.
  destruct (consume_epoch_change released) as [final [e m]] eqn:Hc.
  apply (epoch_change_protocol run1.2 changed before_release released final (calls ops2 changed).1
    (calls ops3 (release_inflight_blocks before_release)).1 (id32 12) (id32 102)
    2 1 2 m e None [None; new_epoch] [1; 2; 3; 4]).
  - discriminate.
  - reflexivity.
  - assert ((set_compute_res (id32 12) (id32 102) 2 1 None [None; new_epoch] run1.2).2 =
      Done (Ok tt)) as Hset by (vm_compute; reflexivity).
    exact (eq_fst_pair _ _ Hset).
  - apply (calls_reach within_epoch within_epoch_b); [exact within_epoch_check|vm_compute; reflexivity].
  - apply (calls_reach within_epoch within_epoch_b); [exact within_epoch_check|vm_compute; reflexivity].
  - exact Hc.
Defined.

Definition txn_buffer : BlockBuffer :=
  push_txns [4] 50 (push_txns [2; 3] 40 (push_txns [1] 30 start)).
Lemma pop_txns_fifo_witness :
  ∃ self' txns k, pop_txns 5 80 txn_buffer = (self', Ok txns) ∧
    txns ++ buffered self' = buffered txn_buffer ∧
    bb_txns self' = drop k (bb_txns txn_buffer) ∧ (k = 0%nat ∨ Z.of_nat k ≤ 5) ∧
    (k = 1%nat ∨ total_gas (take k (bb_txns txn_buffer)) ≤ 80) ∧
    (bb_txns txn_buffer ≠ [] → 0 < 5 → (0 < k)%nat).
Proof.
  apply (pop_txns_fifo 5 80 txn_buffer); [lia|].
  repeat (apply Forall_cons; split; [vm_compute; split; discriminate|]). apply Forall_nil. exact I.
Defined.

(** A fourth block, ordered after the change. *)
Definition tb4 := ToyBlock [14] 4 1 400 [].
Definition late : BlockBuffer := (set_ordered_blocks (id32 13) tb4 4 changed).1.
Lemma suffix_request_renames_block_witness :
  ∃ self' res, get_executed_res false (id32 99) 4 1 late = (self', Done (Ok res)) ∧
    BlockState_get_block_id <$> bb_blocks self' !! BlockKey_new 1 4 = Some (id32 99).
Proof.
  apply (suffix_request_renames_block late tb4 (id32 13) (id32 99) 4 4 1).
  - vm_compute. reflexivity.
  - vm_compute. reflexivity.
  - vm_cast_no_check (eq_refl (Some (Ordered tb4 (id32 13) 4) : option BlockState)).
Defined.
