(* ===== verification/TreeExamples.v ===== *)
(** Witnesses of the theorems about the block tree, the pending blocks, the
    recovery and the block store: a chain of three blocks with a fork, of which
    the first one is committed. *)
From S2P Require Import Prelude Laptos Toy Payload Certificates Block Votes BlockBuffer.
From S2P Require Import Pipelined BlockTree TreeSafety PendingBlocks BufferExamples.

(** ** A tree *)

(** The id of a block ends with its round. *)
Definition tree_round (id : @HashValue ToyLaptos) : Z :=
  match (id : list Z) with [n] => n mod 10 | _ => -1 end.
Definition info_of (id : Z) : @BlockInfo ToyLaptos := BI 1 (id mod 10) [id] [7] 0 (id * 100) None.
(** The certificate of block [id] that commits block [committed]. *)
Definition cert (id committed : Z) : QuorumCert :=
  {| qc_vote_data := {| vd_proposed := info_of id; vd_parent := info_of committed |};
     qc_signed_ledger_info := (LI (info_of committed) [], []) |}.
Definition chain_block (id : Z) (qc : QuorumCert) : Block :=
  {| block_id := id32 id;
     block_block_data :=
       {| bd_epoch := 1; bd_round := id mod 10; bd_timestamp_usecs := id * 100;
          bd_quorum_cert := qc; bd_block_type := Proposal (DirectMempool []) 1 [] |};
     block_signature := None; block_block_number := if id =? 0 then Some 0 else None |}.
Definition pblock (id : Z) (qc : QuorumCert) : PipelinedBlock :=
  PipelinedBlock_new_ordered (chain_block id qc).

Definition root_qc : QuorumCert := {|
  qc_vote_data := {| vd_proposed := BI 1 0 [] [7] 0 0 None; vd_parent := BI 1 0 [] [7] 0 0 None |};
  qc_signed_ledger_info := (LI (BI 1 0 [] [7] 0 0 None) [], []) |}.
Definition p0 := pblock 0 root_qc.
Definition p1 := pblock 1 (cert 0 0).
Definition p2 := pblock 2 (cert 1 0).
Definition fork2 := pblock 12 (cert 1 0).
Definition p3 := pblock 3 (cert 2 1).

Definition tree0 : BlockTree :=
  match BlockTree_new p0 (cert 0 0) (qc_into_wrapped_ledger_info (cert 0 0))
          (qc_into_wrapped_ledger_info (cert 0 0)) 1 None with
  | Ok t => t
  | _ => {| bt_id_to_block := ∅; bt_ordered_root_id := id32 0; bt_commit_root_id := id32 0;
            bt_highest_certified_block_id := id32 0; bt_head_block_id := id32 0;
            bt_safe_block_id := id32 0; bt_finalized_block_id := id32 0;
            bt_highest_quorum_cert := cert 0 0; bt_highest_2chain_timeout_cert := None;
            bt_highest_ordered_cert := qc_into_wrapped_ledger_info (cert 0 0);
            bt_highest_commit_cert := qc_into_wrapped_ledger_info (cert 0 0);
            bt_id_to_quorum_cert := ∅; bt_pruned_block_ids := [];
            bt_max_pruned_blocks_in_mem := 0 |}
  end.

(** ** Obligations of callers, checked by evaluation *)

Fixpoint reaches_b (fuel : nat) (m : gmap (@HashValue ToyLaptos) LinkableBlock)
    (a x : @HashValue ToyLaptos) : bool :=
  bool_decide (a = x) ||
  match fuel, m !! a with
  | S fuel, Some lb => existsb (λ c, reaches_b fuel m c x) (elements (lb_children lb))
  | _, _ => false
  end.

Lemma reaches_check fuel m a x : reaches_b fuel m a x = true → subtree m a x.
Proof.
  revert a. induction fuel as [|fuel IH]; intros a; cbn [reaches_b]; intros [H|H]%orb_true_iff;
    try (apply bool_decide_eq_true in H as ->; apply rtc_refl); [done|].
  destruct (m !! a) as [lb|] eqn:Ha; [|done]. apply existsb_exists in H as (c&Hc&H).
  apply list_elem_of_In, elem_of_elements in Hc. eapply rtc_l; [by exists lb|by apply IH].
Qed.

Definition op_check (t : BlockTree) (op : tree_op) : bool :=
  let m := bt_id_to_block t in
  match op with
  | OpInsertBlock b =>
      (pb_round b =? tree_round (pb_id b)) &&
      (tree_round (pb_parent_id b) <? tree_round (pb_id b)) &&
      match BlockTree_get_block (pb_id b) t with None => true | Some _ => false end
  | OpInsertQuorumCert qc =>
      reaches_b 9 m (bt_commit_root_id t) (BlockInfo_id (qc_certified_block qc))
  | OpUpdateOrderedRoot id => reaches_b 9 m (bt_commit_root_id t) id
  | OpCommit _ _ _ | OpRecover _ _ => false
  | _ => true
  end.

Lemma op_check_ok t op : op_check t op = true → tree_op_ok tree_round t op.
Proof.
  destruct op as [b|qc|w|tc|id|bs w d|bs w]; try done.
  - unfold op_check. intros H. bool_to_prop. destruct (BlockTree_get_block (pb_id b) t) eqn:Hb; [done|].
    split; [split; [congruence|done]|]. congruence.
  - unfold op_check. intros H%reaches_check. by intros _ _.
  - unfold op_check. by intros H%reaches_check.
Qed.

Definition tree_run (ops : list tree_op) (t : BlockTree) : BlockTree :=
  fold_left (λ t op, (tree_call op t).1) ops t.
Fixpoint ops_check (ops : list tree_op) (t : BlockTree) : bool :=
  match ops with
  | [] => true
  | op :: ops => op_check t op && ops_check ops (tree_call op t).1
  end.

Lemma tree_run_history ops t :
  tree_history tree_round t → ops_check ops t = true → tree_history tree_round (tree_run ops t).
Proof.
  revert t. induction ops as [|op ops IH]; intros t Ht Hc; simpl in *; [done|].
  apply andb_true_iff in Hc as [Hop Hc]. apply IH; [|done].
  constructor; [done|by apply op_check_ok].
Qed.

Definition tree_ops : list tree_op :=
  [OpInsertBlock p1; OpInsertQuorumCert (cert 1 0); OpInsertBlock p2; OpInsertBlock fork2;
   OpInsertQuorumCert (cert 2 1); OpInsertBlock p3; OpUpdateOrderedRoot (id32 2)].
Definition tree1 : BlockTree := tree_run tree_ops tree0.

Lemma tree1_history : tree_history tree_round tree1.
Proof.
  apply tree_run_history.
  - apply (TreeNew tree_round p0 (cert 0 0) (qc_into_wrapped_ledger_info (cert 0 0))
      (qc_into_wrapped_ledger_info (cert 0 0)) 1 None); [reflexivity|split; reflexivity|reflexivity| |];
      vm_compute; discriminate.
  - vm_compute. reflexivity.
Qed.

Definition decision1 : @LedgerInfoWithSignatures ToyLaptos := (LI (info_of 1) [], []).
Lemma commits1 :
  commits tree_round tree1 (qc_into_wrapped_ledger_info (cert 2 1)) decision1 (id32 1).
Proof.
  split; [apply (reaches_check 9); vm_compute; reflexivity
         |apply (reaches_check 9); vm_compute; reflexivity| | |]; vm_compute; reflexivity.
Qed.

Lemma block_tree_invariant_witness :
  tree_inv tree_round tree1 ∧
  tree_inv tree_round
    (tree_call (OpCommit [p1] (qc_into_wrapped_ledger_info (cert 2 1)) decision1) tree1).1 ∧
  (tree_call (OpCommit [p1] (qc_into_wrapped_ledger_info (cert 2 1)) decision1) tree1).2 ≠ Panic.
Proof.
  apply (block_tree_invariant tree_round tree1); [apply tree1_history|].
  exists p1. split; [reflexivity|]. right. split; [reflexivity|]. split; [apply commits1|].
  apply (reaches_check 9). vm_compute. reflexivity.
Defined.

Lemma commit_prunes_exactly_witness :
  ∃ t' newly removed kept,
    commit_callback [p1] (qc_into_wrapped_ledger_info (cert 2 1)) decision1 tree1 = (t', Ok tt) ∧
    bt_commit_root_id t' = pb_id p1 ∧
    (∀ x, live t' x ↔ subtree (bt_id_to_block tree1) (pb_id p1) x) ∧
    NoDup newly ∧
    (∀ x, x ∈ newly ↔ live tree1 x ∧ ¬ subtree (bt_id_to_block tree1) (pb_id p1) x) ∧
    bt_pruned_block_ids tree1 ++ newly = removed ++ kept ∧
    length removed =
      (length (bt_pruned_block_ids tree1 ++ newly) - bt_max_pruned_blocks_in_mem tree1)%nat ∧
    bt_pruned_block_ids t' = kept ∧
    (∀ x, bt_id_to_block t' !! x =
       if decide (x ∈ removed) then None else bt_id_to_block tree1 !! x).
Proof.
  apply (commit_prunes_exactly tree_round tree1);
    [apply tree1_history|reflexivity|reflexivity|vm_compute; reflexivity|apply commits1].
Defined.

Lemma path_from_root_exact_witness :
  ∃ answer, path_from_root_to_block (id32 3) (id32 0) (pb_round p0) tree1 = Ok answer ∧
    ∀ path, answer = Some path ↔ parent_path tree1 (id32 0) (id32 3) path.
Proof.
  apply (path_from_root_exact tree_round tree1 (id32 0) p0 (id32 3)); [apply tree1_history|].
  vm_cast_no_check (eq_refl (Some p0 : option PipelinedBlock)).
Defined.

(** ** Pending blocks *)

Definition pend_ops : list pending_op :=
  [PendRequest (id32 2) 7; PendBlock (chain_block 1 (cert 0 0)); PendBlock (chain_block 2 (cert 1 0));
   PendRequest (id32 3) 8; PendGc 1].
Lemma pending_requests_served_witness :
  (∀ tx b, (tx, b) ∈ (pending_calls pend_ops PendingBlocks_new []).2 →
     (block_id b, tx) ∈ requested pend_ops) ∧
  (∀ id tx, pending_request (pending_calls pend_ops PendingBlocks_new []).1 = Some (id, tx) →
     (id, tx) ∈ requested pend_ops ∧
     blocks_by_hash (pending_calls pend_ops PendingBlocks_new []).1 !! id = None).
Proof.
  apply (pending_requests_served pend_ops).
  by destruct (pending_calls pend_ops PendingBlocks_new []).
Defined.

Lemma pending_round_collision_leaks_witness :
  blocks_by_hash (pending_calls (PendBlock (chain_block 2 (cert 1 0)) ::
    PendBlock (chain_block 12 (cert 1 0)) :: [PendGc 5; PendGc 100]) PendingBlocks_new []).1
    !! block_id (chain_block 2 (cert 1 0)) = Some (chain_block 2 (cert 1 0)).
Proof.
  apply (pending_round_collision_leaks (chain_block 2 (cert 1 0)) (chain_block 12 (cert 1 0))).
  - reflexivity.
  - discriminate.
  - intros b Hb. simpl in Hb. rewrite map_to_list_empty in Hb. by apply elem_of_nil in Hb.
  - intros b Hb. repeat (apply elem_of_cons in Hb as [Hb|Hb]; [discriminate Hb|]).
    by apply elem_of_nil in Hb.
Defined.
