(* ===== verification/StoreExamples.v ===== *)
(** Witnesses of the theorems about recovery and the block store, on the tree of
    [TreeExamples]. *)
From S2P Require Import Prelude Laptos Toy Payload Certificates Block Votes BlockBuffer.
From S2P Require Import Pipelined BlockTree TreeSafety PendingBlocks Recovery BlockStore.
From S2P Require Import StoreSafety Scenario BufferExamples TreeExamples.

(** A database that keeps the blocks it is given. *)
#[global] Instance ToyLiveness : LivenessStorage :=
  {| Storage := list Block;
     save_tree blocks _ _ st := ((st ++ blocks)%list, Ok tt);
     save_highest_2chain_timeout_cert _ st := (st, Ok tt);
     db_get_block _ _ _ := None; db_get_randomness _ _ := None; Randomness_new _ _ b := b |}.

Definition store_of (t : BlockTree) : BlockStore :=
  {| bs_inner := t; bs_storage := ([] : Storage); bs_time := 0; bs_vote_back_pressure_limit := 10;
     bs_is_validator := true; bs_pending_blocks := PendingBlocks_new; bs_enable_randomness := true;
     bs_require_block_randomness := true; bs_batch_commit_size := 0; bs_execute_tx := true;
     bs_sent := [] |}.

(** The tree before anything is ordered, and without its last block. *)
Definition tree2 : BlockTree := tree_run (take 6 tree_ops) tree0.
Definition tree3 : BlockTree := tree_run (take 5 tree_ops) tree0.
Lemma tree_ops_inv n : tree_inv tree_round (tree_run (take n tree_ops) tree0).
Proof.
  apply tree_history_inv, tree_run_history.
  - apply (TreeNew tree_round p0 (cert 0 0) (qc_into_wrapped_ledger_info (cert 0 0))
      (qc_into_wrapped_ledger_info (cert 0 0)) 1 None); [reflexivity|split; reflexivity|reflexivity| |];
      vm_compute; discriminate.
  - do 8 (destruct n as [|n]; [vm_compute; reflexivity|]). vm_compute. reflexivity.
Qed.



Lemma store_walks_exact_witness :
  let self := store_of tree2 in
  ∃ l, lineage (bs_inner self) (bt_ordered_root_id (bs_inner self)) l ∧
    get_recent_block_execution_times 3 self =
      Ok (take (Nat.max 1 3) (omap pb_execution_summary l)).
Proof.
  destruct (store_walks_exact tree_round (store_of tree2) 3 decision1 (tree_ops_inv 6)) as (_&H&_).
  exact H.
Defined.

Lemma inserted_block_persisted_witness :
  (BlockStore_insert_block (pb_block p3) false (store_of tree3)).2 ≠ Panic ∧
  tree_inv tree_round
    (bs_inner (BlockStore_insert_block (pb_block p3) false (store_of tree3)).1).
Proof.
  destruct (inserted_block_persisted tree_round (pb_block p3) (store_of tree3)
    (BlockStore_insert_block (pb_block p3) false (store_of tree3)).1
    (BlockStore_insert_block (pb_block p3) false (store_of tree3)).2) as (H1&H2&_).
  - apply (tree_ops_inv 5).
  - split; reflexivity.
  - vm_cast_no_check (eq_refl (None : option PipelinedBlock)).
  - discriminate.
  - by destruct (BlockStore_insert_block (pb_block p3) false (store_of tree3)).
  - split; [exact H1|exact H2].
Defined.

(** ** Recovery *)

Definition no_ledger : LedgerRecoveryData := {| lrd_storage_ledger := decision1 |}.
Definition recovery0 : result anyhow RecoveryData :=
  RecoveryData_new None no_ledger 0 [pb_block p1; pb_block p0] [cert 1 0; cert 0 0] None false true.
Lemma recovered_root_accepted_witness :
  match recovery0 with
  | Ok rd => root_certified (rd_root rd) ∧ ∃ t, build_root (rd_root rd) 1 None = Ok t
  | _ => False
  end.
Proof.
  destruct recovery0 as [rd| |] eqn:Hrd; [|discriminate Hrd..].
  destruct (recovered_root_accepted None no_ledger 0 [pb_block p1; pb_block p0]
    [cert 1 0; cert 0 0] None false true rd 1 Hrd eq_refl) as (H1&(t&Ht)&_).
  split; [exact H1|]. injection Hrd as <-. exists t. exact Ht.
Defined.

(** The block to restart from has number 1; its certificate commits block 0. *)
Definition numbered1 : Block := Block_set_block_number (pb_block p1) 1.
Definition recovery1 : result anyhow RecoveryData :=
  RecoveryData_new None no_ledger 1 [numbered1; pb_block p0] [cert 1 0; cert 0 0] None true true.
Lemma order_vote_recovery_panics_witness :
  match recovery1 with
  | Ok rd => build_root (rd_root rd) 1 (rd_highest_2chain_timeout_certificate rd) = Panic
  | _ => False
  end.
Proof.
  destruct recovery1 as [rd| |] eqn:Hrd; [|discriminate Hrd..].
  apply (order_vote_recovery_panics None no_ledger 1 [numbered1; pb_block p0]
    [cert 1 0; cert 0 0] None rd 1 Hrd).
  injection Hrd as <-. discriminate.
Defined.
