(* ===== verification/ElectionExamples.v ===== *)
(** Witnesses of the theorems about proposer elections: three validators, one
    of which failed its proposals, elected over ledger infos of one epoch. *)
From S2P Require Import Prelude Laptos Toy Certificates Block Elections Reputation LeaderAgreement.
From S2P Require Import Scenario.

(** Hashes are lists of bytes, hashed to themselves; ratios are integers. *)
#[global] Instance ToyElectionLib : ElectionLib :=
  {| HashValue_to_vec h := (h : list Z); HashValue_sha3_256_of state := state : HashValue;
     AccountAddress_leb := Z.leb; F64 := Z; f64_one := 1; f64_from_u64 z := z;
     f64_sum l := foldr Z.add 0 l; f64_div := Z.div; f64_ge a b := b <=? a |}.

(** Events are (epoch, round, proposer); the configuration is the list of
    performances itself. *)
#[global] Instance ToyReputationLib : ReputationLib :=
  {| NewBlockEvent := Z * Z * Z; NewBlockEvent_epoch e := e.1.1; NewBlockEvent_round e := e.1.2;
     NewBlockEvent_proposer e := e.2 : AccountAddress; NewBlockEvent_failed_proposer_indices _ := [];
     NewBlockEvent_previous_block_votes_bitvec _ := [true; true; true] : list bool;
     EventData := Z * Z * Z; NewBlockEvent_from_bytes e := Ok e;
     BitVec_required_buckets n := Z.to_nat ((n + 7) / 8); BitVec_num_buckets _ := 1%nat;
     BitVec_is_set _ _ := true;
     ConfigBytes := list (Z * Z); ValidatorPerformances_from_bytes b := Ok b;
     PERFORMANCE_MAX := u32_MAX;
     CHAIN_HEALTH_WINDOW_SIZES := [10; 30; 100; 300]%nat |}.

#[global] Instance ToyHashBytes : HashBytes.
Proof. split. done. Qed.

Lemma choose_index_by_weight_witness :
  Forall (λ w, 0 ≤ w) [2; 0; 3] ∧ choose_index [2; 0; 3] [4] = Ok 2%nat.
Proof.
  assert (Forall (λ w, 0 ≤ w) [2; 0; 3]) as Hw by (repeat constructor; lia).
  split; [exact Hw|]. destruct (choose_index_by_weight [2; 0; 3] [4] Hw) as [Heq _].
  rewrite Heq. vm_compute. reflexivity.
Defined.

(** Three validators; the second failed all its proposals. *)
Definition performances : list (Z * Z) := [(10, 0); (0, 4); (5, 0)].
Definition performances_at (n : Z) : list (Z * Z) := performances.
Definition heuristic0 : ProposerAndVoterHeuristic :=
  ProposerAndVoterHeuristic_new 1 100 10 1 10 3 30 false.
Definition candidates0 : list AccountAddress := [1; 2; 3].
Definition proposers0 : gmap Z (list AccountAddress) := {[1 := candidates0]}.
Definition leader0 : LeaderReputation :=
  {| lr_epoch := 1; lr_epoch_to_proposers := proposers0; lr_voting_powers := [1; 1; 1];
     lr_backend := AptosDBBackend_new 30 10; lr_reputation_anchor_backend := false;
     lr_heuristic := heuristic0; lr_exclude_round := 2; lr_use_root_hash := true;
     lr_window_for_chain_health := 100 |}.

(** The commit of a round of the first epoch. *)
Definition commit_at (round : Z) : result anyhow (Z * LedgerInfoWithSignatures) :=
  Ok (round, (LI (BI 1 round [round] [round] round (10 * round) None) [], [])).
Definition world_at (rounds : list Z) : World :=
  {| w_ledger_infos := Ok (commit_at <$> rounds);
     w_config_storage := Some (λ _, Some performances);
     w_latest_block_events _ := Ok []; w_latest_ledger_info_version := Ok 0;
     w_accumulator_root_hash _ := Err "no accumulator" |}.

Lemma world_at_valid rounds :
  Forall (λ r, 0 ≤ r ≤ 100) rounds → anchors_u64 (world_at rounds).
Proof.
  intros Hr. intros e r a. unfold get_anchor, get_reputation_anchor. simpl.
  rewrite <- fmap_reverse. apply Forall_reverse in Hr. revert Hr.
  generalize (reverse rounds) as l. intros l Hr.
  induction Hr as [|x l Hx _ IH]; [done|]. simpl. repeat case_match; try done; try exact IH.
  intros [= <-]. unfold is_u64, u64_MAX. simpl. lia.
Qed.

Definition anchor3 : CommittedBlockAnchor :=
  {| cba_block_number := 3; cba_timestamp_usecs := 30; cba_block_hash := [3] |}.

Lemma anchor_of_common_prefix_witness :
  get_anchor (world_at [1; 2; 3]) 1 3 = Ok (Some anchor3) ∧
  get_anchor (world_at [1; 2; 3]) 1 3 = get_anchor (world_at [1; 2; 3; 4; 5]) 1 3.
Proof.
  split; [vm_compute; reflexivity|].
  apply (anchor_of_common_prefix _ _ (commit_at <$> [1; 2; 3]) [] (commit_at <$> [4; 5]) 1 3);
    [unfold u64_MAX; lia|reflexivity|reflexivity|constructor|].
  assert (∀ r, 3 < r → beyond 1 3 (commit_at r)) as Hb.
  { intros r Hr. exists r, (LI (BI 1 r [r] [r] r (10 * r) None) [], []).
    split; [reflexivity|]. cbn. split_and!; [lia|discriminate|lia]. }
  constructor; [apply Hb; lia|constructor; [apply Hb; lia|constructor]].
Defined.

(** The weights are positive, whatever is read. *)
Lemma stakes_positive performances :
  0 < sum_Z (spec_stakes (spec_weights heuristic0 candidates0 performances) [1; 1; 1]) ≤ u128_MAX.
Proof.
  assert (∀ p, 1 ≤ spec_weight heuristic0 p ≤ 100) as Hw.
  { intros p. unfold spec_weight. repeat case_match; simpl; lia. }
  unfold spec_weights, u128_MAX. destruct performances as [validators| |]; [|simpl; lia..].
  case_match eqn:Hl; [|simpl; lia]. apply Nat.eqb_eq in Hl.
  destruct validators as [|p1 [|p2 [|p3 [|]]]]; try done. simpl.
  pose proof (Hw p1). pose proof (Hw p2). pose proof (Hw p3). lia.
Qed.

(** A world in which the configuration storage is not there. *)
Definition world_without_storage (rounds : list Z) : World :=
  {| w_ledger_infos := Ok (commit_at <$> rounds); w_config_storage := None;
     w_latest_block_events _ := Ok []; w_latest_ledger_info_version := Ok 0;
     w_accumulator_root_hash _ := Err "no accumulator" |}.

(** Asked for rounds 4 and 5 at different heights, once without storage, then for
    round 5. *)
Lemma leader_determined_by_anchor_witness :
  ∃ performances leader i s,
    (performances = Ok (performances_at 3) ∨
     (∃ w' e, w' ∈ [world_at [1; 2; 3; 4]; world_without_storage [1; 2]; world_at [1; 2]] ∧
        fetch_performances w' (Number 3) = Err e) ∧ ∃ e, performances = Err e) ∧
    let weights := spec_weights heuristic0 candidates0 performances in
    spec_leader leader0 candidates0 weights [3] 5 = Some leader ∧
    (get_or_compute_entry (world_at [1; 2; 3; 4]) 5
       (run_queries [(world_without_storage [1; 2], 4); (world_at [1; 2], 5)]
         (CachedProposerElection_new 1 (with_reputation_anchor_backend leader0) 10))).2
      = Ok (leader, f64_one) ∧
    candidates0 !! i = Some leader ∧ spec_stakes weights [1; 1; 1] !! i = Some s ∧ 0 < s.
Proof.
  apply (leader_determined_by_anchor performances_at heuristic0 1 proposers0 [1; 1; 1]
    (AptosDBBackend_new 30 10) 2 true 100 leader0 candidates0 10
    [(world_without_storage [1; 2], 4); (world_at [1; 2], 5)] (world_at [1; 2; 3; 4]) 5 anchor3).
  - intros n. unfold performances_at, performances, performance_ok.
    repeat constructor; vm_compute; discriminate.
  - intros w' n Hin.
    change (w' ∈ [world_at [1; 2; 3; 4]; world_without_storage [1; 2]; world_at [1; 2]]) in Hin.
    rewrite !elem_of_cons in Hin. destruct Hin as [->|[->|[->|[]%not_elem_of_nil]]].
    + left. reflexivity.
    + right. eexists. reflexivity.
    + left. reflexivity.
  - constructor; [apply world_at_valid; repeat constructor; lia|].
    constructor; [apply (world_at_valid [1; 2]); repeat constructor; lia|].
    constructor; [apply world_at_valid; repeat constructor; lia|constructor].
  - reflexivity.
  - vm_compute; discriminate.
  - vm_compute; discriminate.
  - vm_compute; discriminate.
  - repeat constructor; lia.
  - vm_compute. lia.
  - apply list_elem_of_In. vm_compute. auto.
  - vm_compute. reflexivity.
  - vm_compute. reflexivity.
  - vm_compute. reflexivity.
  - vm_compute. reflexivity.
  - exact stakes_positive.
Defined.
