(* ===== verification/PipelineExamples.v ===== *)
(** Witnesses of the theorems about the execution pipeline: one of four
    validators pushes three blocks through its buffer, with votes that come
    before and after the execution, and one vote that spoils the commit proof.
    Order votes are disabled, as in the node. *)
From S2P Require Import Prelude Laptos Toy Payload Certificates Block Votes BlockBuffer Pipelined.
From S2P Require Import PipelineBuffer BufferItem BufferManager PipelineSafety.
From S2P Require Import Scenario BufferExamples TreeExamples.

#[global] Instance ToyPipeline : PipelineLib := unit.

(** ** Obligations of the other tasks, checked by evaluation *)

(** The root hash of a block is its round plus 50. *)
Definition agreed (h : @HashValue ToyLaptos) : @BlockInfo ToyLaptos :=
  let n := tree_round h in BI 1 n h [50 + n] n (n * 100) None.
(** The consensus data hash of the certificate that orders a block. *)
Definition ordering_hash (h : @HashValue ToyLaptos) : @HashValue ToyLaptos := [70 + tree_round h].
Lemma agreed_id h : BlockInfo_id (agreed h) = h.
Proof. reflexivity. Qed.

Definition execution_check (h : @HashValue ToyLaptos) (ordered executed : list PipelinedBlock)
    (ts : option Z) (ebi : option (EpochBlockInfo HashValue)) : bool :=
  bool_decide (pb_id <$> ordered = pb_id <$> executed) &&
  match last executed with
  | None => false
  | Some block =>
      bool_decide (is_Some (block_block_number (pb_block block))) &&
      match executed_commit_info block ts ebi with
      | Ok info => bool_decide (info = agreed h)
      | _ => false
      end &&
      bool_decide (BlockInfo_timestamp_usecs (agreed h) = block_timestamp_usecs (pb_block block))
  end.

Definition response_check (bb : BlockBuffer) (h : @HashValue ToyLaptos)
    (blocks : list PipelinedBlock) (self : BufferManager) : bool :=
  match find_elem_by_key (bm_buffer self) (bm_execution_root self) h with
  | None => true
  | Some _ =>
      bool_decide (bm_execution_root self = Some h) &&
      match buffer_get (bm_buffer self) (Some h), last blocks with
      | Ok item, Some last_block =>
          let self := set_end_epoch_timestamp blocks self in
          execution_check h (get_blocks item) blocks (bm_end_epoch_timestamp self)
            (resolve_epoch_block_info bb last_block self)
      | _, _ => false
      end
  end.

Definition event_check (event : Event) (self : BufferManager) : bool :=
  match event with
  | EvOrdered blocks =>
      match last (ob_ordered_blocks blocks) with
      | None => false
      | Some b =>
          let info := li_commit_info (ob_ordered_proof blocks) in
          match bf_map (bm_buffer self) !! pb_id b with None => true | Some _ => false end &&
          (bf_count (bm_buffer self) <? u64_MAX) &&
          BlockInfo_match_ordered_only info (agreed (pb_id b)) && (BlockInfo_round info <? u64_MAX) &&
          bool_decide (proof_data_hash false (ob_ordered_proof blocks) = ordering_hash (pb_id b)) &&
          match need_backpressure self with Ok backpressure => negb backpressure | _ => false end
      end
  | EvReset (TargetRound round) | EvPersisted (Ok round) => round + MAX_BACKLOG <=? u64_MAX
  | EvExecutionResponse bb h (Ok blocks) => response_check bb h blocks self
  | EvExecutionResponse _ _ Panic | EvSigningResponse Panic _ | EvPersisted Panic => false
  | EvCommitMessage message =>
      is_ok (CommitMessage_verify message vset) &&
      match message with
      | CommitMessage_Vote vote =>
          bool_decide (cv_ledger_info vote =
            canonical ordering_hash (LedgerInfo_commit_info (cv_ledger_info vote)))
      | CommitMessage_Decision p =>
          bool_decide (li_commit_info p = agreed (BlockInfo_id (li_commit_info p)))
      | _ => true
      end
  | _ => true
  end.

Lemma response_check_ok bb h blocks self :
  response_check bb h blocks self = true → response_ok agreed bb h blocks self.
Proof.
  unfold response_check, response_ok. intros H c Hc. rewrite Hc in H.
  apply andb_true_iff in H as [Hroot%bool_decide_eq_true H]. split; [done|].
  intros item Hitem. rewrite Hitem in H. destruct (last blocks) as [b|] eqn:Hb; [|done].
  exists b. split; [done|]. unfold execution_check in H. rewrite Hb in H.
  apply andb_true_iff in H as [Hids%bool_decide_eq_true H]. split; [done|]. exists b.
  apply andb_true_iff in H as [[Hn%bool_decide_eq_true Hi]%andb_true_iff Ht%bool_decide_eq_true].
  split_and!; [done..| |by right].
  destruct (executed_commit_info _ _ _) as [info| |]; [|done..].
  apply bool_decide_eq_true in Hi as ->. done.
Qed.

Lemma event_check_ok canonical_votes event self :
  event_check event self = true → event_ok vset agreed ordering_hash false canonical_votes event self.
Proof.
  destruct event as [blocks|[|round]| |bb h [| |]| |[| |]|[round| |]|message|];
    cbn [event_check event_ok]; try done.
  - destruct (last _) as [b|]; [|done]. intros H. apply andb_true_iff in H as [H Hbp].
    apply andb_true_iff in H as [H Hd%bool_decide_eq_true].
    apply andb_true_iff in H as [[[Hf Hc%Z.ltb_lt]%andb_true_iff Hm]%andb_true_iff Hr%Z.ltb_lt].
    exists b. split_and!; [done| |done..|].
    + by destruct (bf_map _ !! pb_id b).
    + destruct (need_backpressure self) as [[]| |]; done.
  - apply Z.leb_le.
  - apply response_check_ok.
  - apply Z.leb_le.
  - intros [Hv Hm]%andb_true_iff. split; [by destruct (CommitMessage_verify message vset) as [[]| |]|].
    destruct message; simpl in *; try done; by apply bool_decide_eq_true in Hm.
Qed.

(** A run of guarded events, one millisecond apart. *)
Fixpoint play (now : Z) (events : list Event) (self : BufferManager) : option BufferManager :=
  match events with
  | [] => Some self
  | event :: events =>
      if event_check event self then
        match handle now event self with Ok self => play (now + 1) events self | _ => None end
      else None
  end.

Lemma play_run canonical_votes start events : ∀ before now self self',
  pipeline_run vset agreed ordering_hash false canonical_votes start before self →
  play now events self = Some self' →
  pipeline_run vset agreed ordering_hash false canonical_votes start (before ++ events) self'.
Proof.
  induction events as [|event events IH]; intros before now self self' Hrun; simpl.
  { intros [= <-]. by rewrite app_nil_r. }
  destruct (event_check event self) eqn:Hc; [|done].
  destruct (handle now event self) as [self1| |] eqn:Hh; [|done..].
  rewrite (cons_middle event before events), (assoc_L (++)). apply IH.
  eapply RunEvent; [done|by apply event_check_ok|done].
Qed.

(** ** A run *)

Definition numbered (n : Z) (b : Block) : Block :=
  {| block_id := block_id b; block_block_data := block_block_data b;
     block_signature := block_signature b; block_block_number := Some n |}.
Definition e1 := PipelinedBlock_new (numbered 1 (pb_block p1)) []
  (StateComputeResult_with_root_hash (id32 51)).
Definition e2 := PipelinedBlock_new (numbered 2 (pb_block p2)) []
  (StateComputeResult_with_root_hash (id32 52)).
Definition e3 := PipelinedBlock_new (numbered 3 (pb_block p3)) []
  (StateComputeResult_with_root_hash (id32 53)).

Definition ordered (blocks : list PipelinedBlock) (id : Z) : Event :=
  EvOrdered {| ob_ordered_blocks := blocks; ob_ordered_proof := (LI (info_of id) (ordering_hash (id32 id)), []);
               ob_callback := tt |}.
Definition commit_li (id : Z) : LedgerInfo := canonical ordering_hash (agreed (id32 id)).
Definition vote_of (a : Z) (li : LedgerInfo) : CommitVote :=
  {| cv_author := a : AccountAddress; cv_ledger_info := li;
     cv_signature := (a, enc_ledger_info li) : Signature |}.
Definition vote (a id : Z) : Event := EvCommitMessage (CommitMessage_Vote (vote_of a (commit_li id))).
Definition decision (id : Z) : LedgerInfoWithSignatures :=
  (commit_li id, (λ a, (a, enc_ledger_info (commit_li id))) <$> [2; 3; 4]).
Definition executed (blocks : list PipelinedBlock) (id : Z) : Event :=
  EvExecutionResponse BlockBufferManager_new (id32 id) (Ok blocks).
Definition signed (id : Z) : Event :=
  EvSigningResponse (Ok ((1, enc_ledger_info (commit_li id)) : Signature)) (commit_li id).

Definition author1 : @AccountAddress ToyLaptos := 1.
Definition manager0 : BufferManager := BufferManager_new author1 vset false 0 false true 10 0.

(** Two batches; the votes for the first one come after its execution, those
    for the second one before. *)
Definition events1 : list Event :=
  [vote 4 2; ordered [e1; e2] 2; EvScheduleResponse (id32 2); ordered [e3] 3; EvRetry; vote 2 3;
   executed [e1; e2] 2; signed 2; EvTick; vote 2 2].
Definition events2 : list Event :=
  events1 ++ [vote 3 2; EvPersisted (Ok 2); EvTick; vote 3 3; vote 4 3; executed [e3] 3].
Definition manager2 : BufferManager := default manager0 (play 2000 events2 manager0).

Definition plays (events : list Event) : bool :=
  match play 2000 events manager0 with Some _ => true | None => false end.
Lemma plays_run canonical_votes events :
  plays events = true →
  pipeline_run vset agreed ordering_hash false canonical_votes manager0 events (default manager0 (play 2000 events manager0)).
Proof.
  unfold plays. destruct (play 2000 events manager0) as [self|] eqn:Hp; [|done]. intros _.
  apply (play_run canonical_votes manager0 events [] 2000 manager0 self); [constructor|done].
Qed.

Lemma room0 : 0 + MAX_BACKLOG ≤ u64_MAX.
Proof. vm_compute. discriminate. Qed.


Lemma persisted2 :
  bool_decide (persisted_ids (bm_log manager2) = pb_id <$> [e1; e2; e3]) = true.
Proof. vm_compute. reflexivity. Qed.

Lemma pipeline_persists_in_order_witness :
  persisted_ids (bm_log manager2) = pb_id <$> [e1; e2; e3] ∧
  ∃ q, represents (bf_count (bm_buffer manager2)) (bm_buffer manager2) q ∧
    received_ids events2 = persisted_ids (bm_log manager2) ++ queue_ids q ∧
    bm_execution_root manager2 = first_key is_ordered q ∧
    (∀ i j p p', q !! i = Some p → q !! j = Some p' → (i ≤ j)%nat → is_ordered p.2 = true →
       is_ordered p'.2 = true) ∧
    ∀ blocks proof callback b, PersistingRequest blocks proof callback ∈ bm_log manager2 →
      b ∈ blocks → b ∈ executed_blocks events2.
Proof.
  split; [exact (proj1 (bool_decide_eq_true _) persisted2)|].
  apply (pipeline_persists_in_order vset agreed ordering_hash false agreed_id author1 0 false true 10 0 room0
    events2 manager2).
  apply (plays_run False events2). vm_compute. reflexivity.
Defined.

Definition last_persisted (log : list Output) : option (list PipelinedBlock * LedgerInfoWithSignatures) :=
  foldl (λ acc o, match o with PersistingRequest b p _ => Some (b, p) | _ => acc end) None log.
Lemma last_persisted_in log b p :
  last_persisted log = Some (b, p) → PersistingRequest b p tt ∈ log.
Proof.
  unfold last_persisted. induction log as [|o log IH] using rev_ind; [done|].
  rewrite foldl_app, elem_of_app. simpl. destruct o as [| | |b' p' []| | | | | | |];
    intros H; try (left; by apply IH). right. injection H as <- <-. by apply list_elem_of_singleton.
Qed.

Definition request2 : list PipelinedBlock * LedgerInfoWithSignatures :=
  default ([], decision 2) (last_persisted (bm_log manager2)).
Lemma request2_in : PersistingRequest request2.1 request2.2 tt ∈ bm_log manager2.
Proof.
  apply last_persisted_in. unfold request2.
  assert (bool_decide (is_Some (last_persisted (bm_log manager2))) = true) as H
    by (vm_compute; reflexivity).
  apply bool_decide_eq_true in H as [[b p] ->]. done.
Qed.

Lemma pipeline_persists_certified_witness :
  (∀ b, b ∈ request2.1 → b ∈ executed_blocks events2) ∧
  LedgerInfoWithSignatures_verify_signatures request2.2 vset = Ok tt ∧
  ∃ block, last request2.1 = Some block ∧ li_commit_info request2.2 = agreed (pb_id block).
Proof.
  apply (pipeline_persists_certified vset agreed ordering_hash false agreed_id author1 0 false true 10 0 room0
    events2 manager2 request2.1 request2.2 tt); [|exact request2_in].
  apply (plays_run True events2). vm_compute. reflexivity.
Defined.

(** ** A spoiled commit proof *)

(** The agreed commit info of block 2 under another consensus data hash. *)
Definition other_li : LedgerInfo := LI (agreed (id32 2)) (id32 99).
Definition spoiling_vote : CommitVote := vote_of 4 other_li.
Definition before_events : list Event :=
  [ordered [e1; e2] 2; executed [e1; e2] 2; vote 2 2; vote 3 2].
Definition before : BufferManager := default manager0 (play 2000 before_events manager0).

(** The item of block 2, and its proof with two signatures. *)
Definition item2 : BufferItem :=
  unwrap (Aggregated {| ai_executed_blocks := []; ai_commit_proof := decision 2; ai_callback := tt |})
    (buffer_get (bm_buffer before) (Some (id32 2))).
Definition proof2 : LedgerInfoWithVerifiedSignatures :=
  default (LedgerInfoWithVerifiedSignatures_new other_li) (partial_proof item2).

Lemma item2_get : buffer_get (bm_buffer before) (Some (id32 2)) = Ok item2.
Proof.
  unfold item2. assert (is_ok (buffer_get (bm_buffer before) (Some (id32 2))) = true) as H
    by (vm_compute; reflexivity).
  by destruct (buffer_get (bm_buffer before) (Some (id32 2))).
Qed.
Lemma proof2_get : partial_proof item2 = Some proof2.
Proof.
  unfold proof2. assert (bool_decide (is_Some (partial_proof item2)) = true) as H
    by (vm_compute; reflexivity).
  apply bool_decide_eq_true in H as [p ->]. done.
Qed.

(** In the model of the library an aggregate is the list of its signatures. *)
Lemma toy_bad_signature_shows : bad_signature_shows vset.
Proof.
  intros sigs li agg a s Hagg Ha [m Hm] Hbad _ Hv. simpl in *. apply Hbad. clear Hbad.
  case_bool_decide as Hin; [|done]. destruct Hin as [Hin ->].
  rewrite bool_decide_eq_true_2; [done|]. split; [done|]. f_equal.
  unfold check_agg in Hv. case_bool_decide as Heq; [|done]. clear Hv.
  unfold aggregate in Hagg. rewrite list_to_map_to_list in Hagg.
  destruct (forallb _ _); [|done]. injection Hagg as <-.
  assert ((a, m) ∈ in_order vset sigs) as Hel by (apply list_elem_of_omap; eauto).
  apply (list_elem_of_fmap_2 snd) in Hel. rewrite Heq in Hel. by apply elem_of_replicate_inv in Hel.
Qed.

Lemma spoiling_vote_deviates : deviates vset spoiling_vote proof2.
Proof.
  assert (proof2 = (commit_li 2, {[2 := (2, enc_ledger_info (commit_li 2));
    3 := (3, enc_ledger_info (commit_li 2))]})) as ->.
  { apply (bool_decide_unpack _). vm_compute. exact I. }
  split_and!.
  - vm_compute. discriminate.
  - intros a s Ha Hne. cbn [LedgerInfoWithVerifiedSignatures_signatures ToyLaptos snd] in Ha.
    apply lookup_insert_Some in Ha as [[<- <-]|[_ Ha]]; [vm_compute; reflexivity|].
    apply lookup_singleton_Some in Ha as [<- <-]. vm_compute. reflexivity.
  - vm_compute. reflexivity.
Qed.

Lemma deviating_vote_spoils_proof_witness :
  CommitMessage_verify (CommitMessage_Vote spoiling_vote) vset = Ok tt ∧
  ∃ self' blocks p callback,
    handle 2004 (EvCommitMessage (CommitMessage_Vote spoiling_vote)) before = Ok self' ∧
    PersistingRequest blocks p callback ∈ bm_log self' ∧ li_commit_info p = agreed (id32 2) ∧
    LedgerInfoWithSignatures_verify_signatures p vset ≠ Ok tt.
Proof.
  split; [vm_compute; reflexivity|].
  apply (deviating_vote_spoils_proof vset agreed ordering_hash false agreed_id author1 0 false true 10 0
    room0 before_events before 2004 spoiling_vote item2 proof2).
  - exact toy_bad_signature_shows.
  - apply (plays_run False before_events). vm_compute. reflexivity.
  - vm_compute. reflexivity.
  - reflexivity.
  - vm_compute. reflexivity.
  - vm_compute. reflexivity.
  - exact item2_get.
  - exact proof2_get.
  - exact spoiling_vote_deviates.
Defined.

(** ** A buffer *)

#[local] Instance Z_hashable : Hashable Z := λ n, Ok (id32 n).
Definition queue3 : list (HashValue * Z) := (λ n, (id32 n, n)) <$> [1; 2; 3].
Definition buffer3 : Buffer :=
  unwrap Buffer_new (b ← push_back 1 Buffer_new; b ← push_back 2 b; push_back 3 b).
Lemma buffer3_represents : represents 3 buffer3 queue3.
Proof.
  destruct (represents_push 0 Buffer_new [] 1 (id32 1)) as (b1 & H1 & R1);
    [apply represents_new|done|done|by apply not_elem_of_nil|].
  destruct (represents_push 1 b1 _ 2 (id32 2) R1) as (b2 & H2 & R2);
    [done|done|apply (bool_decide_unpack _); vm_compute; exact I|].
  destruct (represents_push 2 b2 _ 3 (id32 3) R2) as (b3 & H3 & R3);
    [done|done|apply (bool_decide_unpack _); vm_compute; exact I|].
  unfold buffer3. rewrite H1. cbn [mbind result_bind]. rewrite H2. cbn [mbind result_bind].
  rewrite H3. exact R3.
Qed.

Lemma buffer_refines_queue_witness :
  Buffer_len buffer3 = 3%nat ∧
  (∃ b', pop_front buffer3 = Ok (Some 1, b') ∧ represents 3 b' (drop 1 queue3)) ∧
  find_elem_from buffer3 (Some (id32 1)) (λ n, 1 <? n) = Ok (Some (id32 2)) ∧
  find_elem_by_key buffer3 (Some (id32 2)) (id32 1) = None.
Proof.
  destruct (buffer_refines_queue 3 buffer3 queue3 buffer3_represents)
    as (Hlen & _ & _ & Hpop & Hat).
  split_and!; [exact Hlen|exact Hpop| |].
  - apply (Hat 0%nat (id32 1) 1 eq_refl).
  - destruct (Hat 1%nat (id32 2) 2 eq_refl) as (_ & _ & _ & _ & Hfind & _).
    exact (Hfind 0%nat (id32 1) 1 eq_refl).
Defined.
