(* ===== verification/QuorumStoreExamples.v ===== *)
(** The quorum store of a concrete network: an in-memory database, batches made
    by the generator, stored, signed, proven and pulled.  The witnesses of the
    theorems on the quorum store are evaluated here, and the two orders of calls
    that make it panic. *)
From S2P Require Import Prelude Laptos Toy Payload Certificates Block Votes SafetyRules NodeSafety Agreement.
From S2P Require Import Expirations BatchStore BatchStoreSafety Shuffle ProofQueue ProofQueueSafety.
From S2P Require Import ProofPull ProofManager ProofManagerSafety ProofCoordinator.
From S2P Require Import ProofCoordinatorSafety Batches BatchMessages QuorumStoreDb BatchGenerator.
From S2P Require Import BatchGeneratorSafety BatchIds InProgressSafety Scenario.

(** ** An in-memory database *)

Record mem_db : Type := {
  md_batches : gmap BatchKey PersistedValue;
  md_ids : gmap Z BatchId;
}.

#[export] Instance ToySchemaDB : SchemaDB := {
  DB := mem_db;
  db_put_batch k v db := ({| md_batches := <[k := v]> (md_batches db); md_ids := md_ids db |}, Ok tt);
  db_read_batch k db := Ok (md_batches db !! k);
  db_put_batch_id e i db :=
    ({| md_batches := md_batches db; md_ids := <[e := i]> (md_ids db) |}, Ok tt);
  db_delete_batch_id e db :=
    ({| md_batches := md_batches db; md_ids := delete e (md_ids db) |}, Ok tt);
  db_iter_batch_ids db := Ok (map_to_list (md_ids db));
}.

Definition empty_db : DB := {| md_batches := ∅; md_ids := ∅ |}.

#[export] Instance ToySchemaDBLaws : SchemaDBLaws ToySchemaDB.
Proof.
  refine {| batches_in := md_batches : @DB _ ToySchemaDB → _;
            batch_ids_in := md_ids : @DB _ ToySchemaDB → _ |}; simpl.
  - by intros k db r [= <-].
  - by intros k db v ->.
  - by intros k db db' ->.
  - by intros k v db db' r [= <- <-].
  - by intros e i db db' r [= <- <-].
  - by intros e db db' r [= <- <-].
  - by intros db l [= <-].
Defined.

#[export] Instance ToyInProgress : InProgress := {
  TransactionInProgress := Z * Z;
  TransactionInProgress_new gas := (gas, 0);
  TransactionInProgress_increment t := Ok (t.1, t.2 + 1);
  TransactionInProgress_decrement t := Ok ((t.1, t.2 - 1), t.2 - 1);
  tip_gas_unit_price := fst;
  tip_set_gas_unit_price gas t := (gas, t.2);
}.

#[export] Instance ToyInProgressLaws : InProgressLaws ToyInProgress.
Proof.
  refine {| tip_count := snd : @TransactionInProgress ToyInProgress → Z |}; simpl.
  - done.
  - intros t _. by eexists.
  - by intros t t' [= <-].
  - intros t _. by eexists.
  - done.
Defined.

(** Calls are evaluated only as far as to see that they return. *)
Lemma returns {E A} (d : A) (r : result E A) : is_ok r = true → r = Ok (unwrap d r).
Proof. by destruct r. Qed.
Lemma returns_with {S E A} (d : A) (r : S * result E A) :
  is_ok r.2 = true → r = (r.1, Ok (unwrap d r.2)).
Proof. by destruct r as [? []]. Qed.

(** ** Batches *)

(** The hash and the size of a payload. *)
Definition toy_hash (author : AccountAddress) (txns : list SignedTransaction) : HashValue :=
  8 :: author :: txns.
Definition toy_size (author : AccountAddress) (txns : list SignedTransaction) : Z := 4 * Z.of_nat (length txns).

Definition toy_config : GeneratorConfig :=
  {| sender_max_batch_txns := 2; sender_max_batch_bytes := 20; sender_max_num_batches := 4;
     batch_buckets := [0; 3; 6]; batch_expiry_gap_when_init_usecs := 60;
     remote_batch_expiry_gap_when_init_usecs := 30 |}.

Definition no_generator : BatchGenerator :=
  {| bg_epoch := 0; bg_my_peer_id := 0; bg_batch_id := BatchId_new 0; bg_db := empty_db;
     bg_config := toy_config; bg_batches_in_progress := ∅; bg_commited_txns_buffer := [];
     bg_txns_in_progress_sorted := ∅; bg_batch_expirations := []; bg_latest_block_timestamp := 0 |}.
Definition start : DB * result anyhow BatchGenerator :=
  BatchGenerator_new 1 1 toy_config 100 empty_db.
Definition generator0 : BatchGenerator := unwrap no_generator start.2.
Definition pulled : list SignedTransaction := [1; 7; 4; 9; 2].
Definition generator1 : BatchGenerator * list Batch :=
  unwrap (generator0, []) (handle_scheduled_pull toy_hash toy_size 100 pulled generator0).

Lemma generator1_run : generator_run toy_hash toy_size 1 1 toy_config generator1.1.
Proof.
  eapply (RunPull toy_hash toy_size 1 1 toy_config 100 pulled generator0 generator1.1 generator1.2).
  - apply (RunNew toy_hash toy_size 1 1 toy_config 100 empty_db start.1).
    apply (returns_with no_generator). vm_compute. reflexivity.
  - rewrite <- surjective_pairing. unfold generator1. apply returns. vm_compute. reflexivity.
Qed.

Lemma in_progress_exact_witness :
  let self := generator1.1 in
  bg_batches_in_progress self ≠ ∅ ∧
  (∀ s, count_of (bg_txns_in_progress_sorted self) s = held (bg_batches_in_progress self) s) ∧
  ∃ self', handle_generator_commit 200 (batch_info <$> generator1.2) self = Ok self' ∧
    ∀ key b, bg_batches_in_progress self' !! key = Some b → 200 < bip_expiry_time_usecs b.
Proof.
  cbv zeta. split; [by apply (bool_decide_unpack _); vm_compute|].
  destruct (in_progress_exact toy_hash toy_size 1 1 toy_config generator1.1)
    as (Hcount & _ & _ & Hcommit & _).
  - apply generator1_run.
  - split; [exact Hcount|].
    destruct (Hcommit 200 (batch_info <$> generator1.2)) as (self' & ? & _ & ?).
    + apply (bool_decide_unpack _). vm_compute. exact I.
    + exists self'. by split.
Defined.

Lemma batches_within_limits_witness :
  ∃ self' batches, bucket_into_batches toy_hash toy_size pulled 160 generator0 = Ok (self', batches) ∧
    length batches = 3%nat ∧ Forall (batch_within toy_hash toy_size generator0 160) batches ∧
    mjoin (txns_of_batch <$> batches) = filter (fits generator0) (by_gas pulled).
Proof.
  destruct (batches_within_limits toy_hash toy_size generator0 pulled 160)
    as (self' & batches & Hcut & _ & Hall & _ & Hrest).
  - by apply (bool_decide_unpack _); vm_compute.
  - by apply (bool_decide_unpack _); vm_compute.
  - by vm_compute.
  - by vm_compute.
  - vm_compute. lia.
  - reflexivity.
  - by vm_compute.
  - intros s. change (count_of (bg_txns_in_progress_sorted generator0) s) with (count_of ∅ s).
    unfold count_of. rewrite lookup_empty. vm_compute. discriminate.
  - assert (length batches = 3%nat) as Hlen.
    { change batches with (unwrap (self', []) (Ok (E:=anyhow) (self', batches))).2.
      rewrite <- Hcut. vm_compute. reflexivity. }
    exists self', batches. split; [exact Hcut|]. split; [exact Hlen|]. split; [exact Hall|].
    apply Hrest. rewrite Hlen. vm_compute. reflexivity.
Defined.

(** A run that makes a batch, then a second run on the database it left. *)
Definition created : BatchGenerator * Batch :=
  unwrap (generator0, Batch_new toy_hash toy_size (BatchId_new 0) [] 0 0 0 0)
    (create_new_batch toy_hash toy_size [7; 9] 160 6 generator0).
Definition restart : DB * result anyhow BatchGenerator :=
  BatchGenerator_new 1 1 toy_config 50 (bg_db created.1).
Definition restarted : BatchGenerator := unwrap no_generator restart.2.
Definition created_again : BatchGenerator * Batch :=
  unwrap (restarted, created.2) (create_new_batch toy_hash toy_size [4] 110 3 restarted).

Lemma created_returns : create_new_batch toy_hash toy_size [7; 9] 160 6 generator0 = Ok (created.1, created.2).
Proof. rewrite <- surjective_pairing. unfold created. apply returns. vm_compute. reflexivity. Qed.
Lemma created_again_returns :
  create_new_batch toy_hash toy_size [4] 110 3 restarted = Ok (created_again.1, created_again.2).
Proof. rewrite <- surjective_pairing. unfold created_again. apply returns. vm_compute. reflexivity. Qed.

Lemma batch_ids_ascend_witness :
  let ids := [bi_batch_id (batch_info created.2); bi_batch_id (batch_info created_again.2)] in
  StronglySorted id_lt ids ∧ NoDup ids.
Proof.
  apply (batch_ids_ascend toy_hash toy_size 1 1 toy_config _ (bg_db created_again.1)
    (Some created_again.1)).
  apply (GenCreate toy_hash toy_size 1 1 toy_config [bi_batch_id (batch_info created.2)]
    restart.1 restarted [4] 110 3); [|apply created_again_returns].
  apply (GenStart _ _ _ _ _ _ (bg_db created.1) (Some created.1) 50).
  - apply (GenCreate toy_hash toy_size 1 1 toy_config [] start.1 generator0 [7; 9] 160 6);
      [|apply created_returns].
    apply (GenStart _ _ _ _ _ _ empty_db None 100).
    + apply GenInitial; [reflexivity|]. intros e i H. discriminate H.
    + apply (returns_with no_generator). vm_compute. reflexivity.
  - apply (returns_with no_generator). vm_compute. reflexivity.
Defined.

(** ** Storing and signing *)

Definition peer1 : AccountAddress := 1.
Definition store0 : BatchStore := BatchStore_new 1 0 empty_db 10 100 5 (2, 2).
Definition message : list Batch := generator1.2.
Definition coordinator : BatchCoordinator :=
  {| bc_my_peer_id := 2; bc_max_batch_txns := 2; bc_max_batch_bytes := 20;
     bc_max_total_txns := 6; bc_max_total_bytes := 40 |}.

Lemma store0_history : store_history toy_hash [] [] store0.
Proof. apply HistoryNew; vm_compute; intuition discriminate. Qed.

Lemma toy_size_nonneg author txns : 0 ≤ toy_size author txns.
Proof. unfold toy_size. lia. Qed.
Lemma message_requests : Forall (request_ok toy_hash store0) (PersistedValue_from <$> message).
Proof.
  apply (verified_requests_ok toy_hash toy_size toy_size_nonneg store0 1 4 message);
    vm_compute; reflexivity.
Qed.

Definition stored : BatchStore * result anyhow (list SignedBatchInfo) :=
  persist (PersistedValue_from <$> message) store0.
Definition store1 : BatchStore := stored.1.
Definition signed1 : list SignedBatchInfo := unwrap [] stored.2.

Lemma stored_returns : persist (PersistedValue_from <$> message) store0 = (store1, Ok signed1).
Proof. unfold store1, signed1, stored. apply returns_with. vm_compute. reflexivity. Qed.

Lemma store1_history : store_history toy_hash [] (sbi_info <$> signed1) store1.
Proof.
  apply (HistoryPersist toy_hash [] [] store0 (PersistedValue_from <$> message) store1 signed1).
  - apply store0_history.
  - apply message_requests.
  - apply stored_returns.
Qed.

Definition is_none {A} (o : option A) : bool := if o is None then true else false.
Definition bi_of (i : nat) : BatchInfo :=
  nth i (sbi_info <$> signed1) (batch_info created.2).
Lemma signed1_nth : bi_of 0 ∈ sbi_info <$> signed1.
Proof.
  assert (length (sbi_info <$> signed1) = 3%nat) as Hlen by (vm_compute; reflexivity).
  unfold bi_of. destruct (sbi_info <$> signed1) as [|info l]; [discriminate Hlen|].
  apply list_elem_of_here.
Qed.

Lemma batch_message_handled_witness :
  ∃ store' msgs sigs, handle_batches_msg message coordinator store0 = (store', Ok msgs) ∧
    to_author msgs = Some (1, sigs) ∧ sbi_info <$> sigs = batch_info <$> message ∧
    ∀ si, si ∈ sigs → ∃ b, b ∈ message ∧ sbi_info si = batch_info b.
Proof.
  destruct (batch_message_handled toy_hash toy_size toy_size_nonneg [] [] store0 coordinator
    1 4 message) as (store' & msgs & Hh & Hin & _).
  - apply store0_history.
  - vm_compute. reflexivity.
  - vm_compute. reflexivity.
  - reflexivity.
  - vm_compute. discriminate.
  - vm_compute. discriminate.
  - vm_compute. discriminate.
  - vm_compute. discriminate.
  - assert (within_limits coordinator message) as Hl.
    { split; [|split; vm_compute; discriminate]. apply Forall_forall.
      apply (bool_decide_unpack _). vm_compute. exact I. }
    destruct (Hin Hl) as (_ & _ & sigs & Ha & _ & Hsigs & Hall). exists store', msgs, sigs.
    assert (sbi_info <$> sigs = batch_info <$> message) as Heq.
    { apply Hall.
      - apply Forall_forall. apply (bool_decide_unpack _). vm_compute. exact I.
      - split; vm_compute; discriminate.
      - reflexivity. }
    split; [exact Hh|]. split; [|split; [exact Heq|]].
    + rewrite Ha. destruct sigs; [|reflexivity]. apply (f_equal length) in Heq.
      rewrite !length_fmap in Heq. vm_compute in Heq. discriminate Heq.
    + intros si Hsi. destruct (Hsigs si Hsi) as (b & Hb & He & _). exists b. split; assumption.
Defined.

Lemma persisted_batch_roundtrip_witness :
  Batch_try_from (PersistedValue_from created.2) = Ok created.2.
Proof. apply (persisted_batch_roundtrip toy_hash toy_size). vm_compute. reflexivity. Defined.

Lemma signed_batch_available_witness :
  ∃ info, info ∈ sbi_info <$> signed1 ∧
  ∃ value, get_batch_from_local {| bk_epoch := bi_epoch info; bk_digest := bi_digest info |} store1 = Ok value ∧
    holds_batch toy_hash {| bk_epoch := bi_epoch info; bk_digest := bi_digest info |} value.
Proof.
  exists (bi_of 0). split; [apply signed1_nth|].
  destruct (signed_batch_available toy_hash [] (sbi_info <$> signed1) store1 (bi_of 0))
    as [Hread|(info & Hin & _)].
  - apply store1_history.
  - apply signed1_nth.
  - exact Hread.
  - apply elem_of_nil in Hin. destruct Hin.
Defined.

Lemma store_quota_exact_witness :
  ∃ q, bst_peer_quota store1 !! peer1 = Some q ∧
    q = manager_of store1 (bst_db_cache store1) peer1 ∧ 0 ≤ qm_db_balance q ≤ qm_db_quota q.
Proof.
  destruct (store_quota_exact toy_hash [] (sbi_info <$> signed1) store1 store1_history) as [Hq _].
  destruct (bst_peer_quota store1 !! peer1) as [q|] eqn:Hl.
  - exists q. destruct (Hq peer1 q Hl) as (H1 & _ & H2 & _). split; [reflexivity|]. split; assumption.
  - exfalso. apply (f_equal is_none) in Hl. vm_compute in Hl. discriminate Hl.
Defined.

Lemma store_calls_return_witness :
  ∃ self', update_certified_timestamp 160 store1 = Ok self' ∧
    ∀ d, bst_db_cache self' !! d =
      (v ← bst_db_cache store1 !! d; if expiration_of v <=? 160 then None else Some v).
Proof.
  destruct (store_calls_return toy_hash [] (sbi_info <$> signed1) store1 store1_history) as [_ H].
  apply H. vm_compute. discriminate.
Defined.

(** ** Multi-signatures *)

Lemma power_cons (v : list (Z * Z)) a Q :
  NoDup v.*1 → a ∉ Q →
  power v (a :: Q) = default 0 ((list_to_map v : gmap Z Z) !! a) + power v Q.
Proof.
  intros Hnd Ha. induction v as [|[b p] v IH]; [done|]. rewrite fmap_cons in Hnd.
  apply NoDup_cons in Hnd as [Hb Hnd]. specialize (IH Hnd). simpl.
  destruct (decide (a = b)) as [<-|Hne].
  - rewrite lookup_insert_eq. rewrite bool_decide_true by by left. rewrite bool_decide_false by done.
    rewrite not_elem_of_list_to_map_1 in IH by done. simpl in *. lia.
  - rewrite lookup_insert_ne by done.
    assert (bool_decide (b ∈ a :: Q) = bool_decide (b ∈ Q)) as ->.
    { apply bool_decide_ext. rewrite elem_of_cons. split; [by intros [->|]|by right]. }
    case_bool_decide; lia.
Qed.

Lemma power_nil v : power v [] = 0.
Proof. by induction v. Qed.

Lemma signed_power_power (v : list (Z * Z)) (sigs : gmap Z (Z * list Z)) :
  NoDup v.*1 → Forall (λ p, 0 ≤ p.2) v →
  signed_power (L:=ToyLaptos) v sigs = power v (map_to_list sigs).*1.
Proof.
  intros Hnd Hpos. unfold signed_power.
  induction sigs as [|a s sigs Ha IH] using map_ind.
  - rewrite map_sum_empty, map_to_list_empty. by rewrite power_nil.
  - rewrite map_sum_insert by done. rewrite IH.
    rewrite (power_perm v Hpos (map_to_list (<[a:=s]> sigs)).*1 (a :: (map_to_list sigs).*1))
      by (apply (fmap_Permutation fst _ ((a, s) :: map_to_list sigs)), map_to_list_insert, Ha).
    rewrite power_cons; [done|done|].
    intros ([b s'] & Hb & Hs%elem_of_map_to_list)%list_elem_of_fmap. simpl in Hb. congruence.
Qed.

Lemma power_total v Q : Forall (λ p, 0 ≤ p.2) v → power v Q ≤ foldr (λ p acc, p.2 + acc) 0 v.
Proof.
  induction 1 as [|[a p] v Hp _ IH]; [done|]. simpl in *. case_bool_decide; lia.
Qed.

Lemma ToyMultiSignatureLaws (v : list (Z * Z)) :
  NoDup v.*1 → Forall (λ p, 0 ≤ p.2) v → 0 < quorum_power v →
  foldr (λ p acc, p.2 + acc) 0 v ≤ u128_MAX →
  MultiSignatureLaws (L:=ToyLaptos) v.
Proof.
  intros Hnd Hpos Hq Ht.
  assert (∀ a, is_Some ((list_to_map v : gmap Z Z) !! a) ↔ a ∈ v.*1) as Hk.
  { intros a. split.
    - intros [p Hp%elem_of_list_to_map_2]. apply list_elem_of_fmap. by exists (a, p).
    - intros ([b p] & -> & Hp)%list_elem_of_fmap. exists p. by apply elem_of_list_to_map. }
  split; simpl.
  - intros a p Hp%elem_of_list_to_map_2. rewrite Forall_forall in Hpos. by apply (Hpos (a, p)).
  - intros sigs Hs. rewrite (signed_power_power v sigs Hnd Hpos). split_and!.
    + unfold check_voting_power. by repeat case_match.
    + rewrite is_ok_check. split; [tauto|]. intros ?. split; [|done].
      intros a ([b s] & -> & Hin%elem_of_map_to_list)%list_elem_of_fmap. by eapply Hk, Hs.
    + pose proof (power_total v (map_to_list sigs).*1 Hpos). lia.
  - intros a m s. case_bool_decide as Hb; [|done]. intros _. apply Hk, Hb.
  - done.
  - intros sigs m Hs Hc.
    assert (∀ a s, sigs !! a = Some s → a ∈ v.*1 ∧ s = (a, m)) as Hs'.
    { intros a s Ha%Hs. by case_bool_decide. }
    assert (∀ a, is_Some (sigs !! a) → a ∈ v.*1) as Hk' by (intros a [s Ha]; by eapply Hs').
    rewrite list_to_map_to_list, aggregate_known by done. eexists. split; [done|].
    by apply check_agg_one.
Qed.

#[export] Instance vset_multi_laws : MultiSignatureLaws vset.
Proof.
  apply ToyMultiSignatureLaws.
  - apply (bool_decide_unpack _). vm_compute. exact I.
  - repeat constructor; discriminate.
  - reflexivity.
  - discriminate.
Qed.

(** ** Proofs of store *)

(** The signature of a validator on a batch, at a time. *)
Definition signature_of (a : AccountAddress) (info : BatchInfo) : SignedBatchInfo :=
  {| sbi_info := info; sbi_signer := a; sbi_signature := (a, signing_message info) |}.
Definition at_time (t : Z) : Clock := {| clock_millis := t; clock_begun := t; clock_complete := t |}.
Definition everything (key : BatchKey) : option AccountAddress := Some peer1.
Definition batch0 : BatchInfo := bi_of 0.

Lemma signature_valid a : a ∈ [1; 2; 3] → valid vset batch0 a (sbi_signature (signature_of a batch0)).
Proof.
  unfold valid, verifier_verify. simpl. intros Ha. rewrite bool_decide_true; [reflexivity|].
  split; [|reflexivity]. rewrite !elem_of_cons, elem_of_nil in Ha. set_solver.
Qed.

(** Two signatures, then the third, which makes the proof. *)
Definition two_signatures : list (Clock * SignedBatchInfo) :=
  (λ a, (at_time 100, signature_of a batch0)) <$> [1; 2].
Definition third_signature : list (Clock * SignedBatchInfo) :=
  [(at_time 120, signature_of 3 batch0)].
Definition coordinator0 : ProofCoordinator := ProofCoordinator_new 50 peer1 ∅.
Definition added : ProofCoordinator * result anyhow (list ProofOfStore) :=
  append_signatures everything vset two_signatures coordinator0.
Definition completed : ProofCoordinator * result anyhow (list ProofOfStore) :=
  append_signatures everything vset third_signature added.1.
Definition proof0 : ProofOfStore :=
  nth 0 (unwrap [] completed.2) {| pos_info := batch0; pos_multi_signature := [] |}.

Lemma added_history : coordinator_history vset peer1 added.1 [].
Proof.
  apply (CoordinatorSignatures vset peer1 coordinator0 [] everything two_signatures added.1 []).
  - apply CoordinatorNew.
  - repeat constructor; apply signature_valid; set_solver.
  - unfold added. destruct (append_signatures _ _ _ _) as [c r] eqn:Hr.
    assert (r = Ok []) as ->; [|reflexivity].
    change r with (c, r).2. rewrite <- Hr. vm_compute. reflexivity.
Qed.

Lemma completed_history : coordinator_history vset peer1 completed.1 (unwrap [] completed.2).
Proof.
  assert (append_signatures everything vset third_signature added.1 =
    (completed.1, Ok (unwrap [] completed.2))) as Hc.
  { unfold completed. apply returns_with. vm_compute. reflexivity. }
  revert Hc. generalize (unwrap [] completed.2) as proofs. intros proofs Hc.
  apply (CoordinatorSignatures vset peer1 added.1 [] everything third_signature completed.1 proofs).
  - apply added_history.
  - repeat constructor; apply signature_valid; set_solver.
  - exact Hc.
Qed.

Lemma sent_proofs_verify_witness :
  bi_author (pos_info proof0) = peer1 ∧
  ∀ cache, (ProofOfStore_verify vset proof0 cache).2 = Ok tt.
Proof.
  apply (sent_proofs_verify vset peer1 completed.1 (unwrap [] completed.2) proof0).
  - apply completed_history.
  - assert (length (unwrap [] completed.2) = 1%nat) as Hlen by (vm_compute; reflexivity).
    unfold proof0. destruct (unwrap [] completed.2); [discriminate Hlen|]. apply list_elem_of_here.
Defined.

Definition not_third (st : IncrementalProofState) : bool :=
  is_none (ips_aggregated_signature st !! sbi_signer (signature_of 3 batch0)).

Lemma proof_at_quorum_witness :
  ∃ st, pc_batch_info_to_proof added.1 !! batch0 = Some st ∧
    expected_answer vset (at_time 120) added.1 st (signature_of 3 batch0)
      (coordinator_add_signature everything (at_time 120) vset (signature_of 3 batch0) added.1).2.
Proof.
  destruct (pc_batch_info_to_proof added.1 !! batch0) as [st|] eqn:Hst.
  - exists st. split; [reflexivity|].
    apply (proof_at_quorum vset peer1 added.1 [] st everything (at_time 120) (signature_of 3 batch0)).
    + apply added_history.
    + exact Hst.
    + apply signature_valid, (bool_decide_unpack _). exact I.
    + apply (f_equal (fmap not_third)) in Hst. cbn [fmap option_fmap option_map] in Hst.
      unfold not_third in Hst at 2.
      destruct (ips_aggregated_signature st !! sbi_signer (signature_of 3 batch0)); [|reflexivity].
      vm_compute in Hst. discriminate Hst.
  - exfalso. apply (f_equal is_none) in Hst. vm_compute in Hst. discriminate Hst.
Defined.
