(* ===== verification/ProposalExamples.v ===== *)
(** Proofs of store in the queue of a concrete validator, pulled into a
    proposal, and the two orders of calls that make the quorum store panic. *)
From S2P Require Import Prelude Laptos Toy Payload Certificates Block Votes SafetyRules NodeSafety Agreement.
From S2P Require Import Expirations BatchStore BatchStoreSafety Shuffle ProofQueue ProofQueueSafety.
From S2P Require Import ProofPull ProofManager ProofManagerSafety ProofCoordinator.
From S2P Require Import ProofCoordinatorSafety Batches BatchMessages QuorumStoreDb BatchGenerator.
From S2P Require Import BatchGeneratorSafety BatchIds InProgressSafety Scenario QuorumStoreExamples.

(** ** The queue *)

Definition proof_of (info : BatchInfo) : ProofOfStore :=
  {| pos_info := info; pos_multi_signature := [] |}.
Definition queue0 : ProofQueue := ProofQueue_new peer1.
Definition queue1 : ProofQueue := unwrap queue0 (push None (proof_of (bi_of 0)) queue0).
Definition queue2 : ProofQueue := unwrap queue1 (push None (proof_of (bi_of 1)) queue1).
Definition queue3 : ProofQueue :=
  unwrap queue2 (add_batch_summaries None
    [(bi_of 0, summary (PersistedValue_from (nth 0 message created.2)))] queue2).

Lemma queue3_history : queue_history peer1 queue3.
Proof.
  apply (QueueSummaries _ None [(bi_of 0, summary (PersistedValue_from (nth 0 message created.2)))] queue2).
  - apply (QueuePush _ None (proof_of (bi_of 1)) queue1).
    + apply (QueuePush _ None (proof_of (bi_of 0)) queue0).
      * apply QueueNew.
      * vm_compute. discriminate.
      * unfold queue1. apply returns. vm_compute. reflexivity.
    + vm_compute. discriminate.
    + unfold queue2. apply returns. vm_compute. reflexivity.
  - unfold queue3. apply returns. vm_compute. reflexivity.
Qed.

Lemma queue_counters_exact_witness :
  pq_remaining_proofs queue3 = 2 ∧ counters_for (pq_batch_to_proof queue3) queue3 ∧
  Z.of_nat (num_proofs_with_batch_summary queue3 + num_proofs_without_batch_summary queue3) =
    pq_remaining_proofs queue3.
Proof.
  split; [vm_compute; reflexivity|].
  destruct (queue_counters_exact peer1 queue3 queue3_history) as (H1 & H2 & _). split; assumption.
Defined.

Definition queued_txns (o : option (option ProofOfStore)) : Z :=
  match o with Some (Some p) => txns_of p | _ => 0 end.

Lemma queue_calls_return_witness :
  ∃ self', mark_committed [bi_of 0] queue3 = Ok self' ∧
    pq_author_to_batches self' = pq_author_to_batches queue3.
Proof.
  destruct (queue_calls_return peer1 queue3 queue3_history) as [_ H].
  destruct (H [bi_of 0]) as (self' & Hm & Ha & _).
  - constructor; [|constructor]. intros p Hp.
    assert ((queued_txns (pq_batch_to_proof queue3 !! BatchKey_from_info (bi_of 0)) =?
      bi_num_txns (bi_of 0)) = true) as Htxns by (vm_compute; reflexivity).
    rewrite Hp in Htxns. by apply Z.eqb_eq in Htxns.
  - exists self'. split; assumption.
Defined.

Definition in_order_of_authors (n : nat) (iters : list (list (BatchSortKey * BatchInfo))) :
    list (list (BatchSortKey * BatchInfo)) := iters.
Definition limits0 : PullLimits :=
  {| pl_max_txns := 10; pl_max_txns_after_filtering := 10;
     pl_soft_max_txns_after_filtering := 10; pl_max_bytes := 100 |}.

Lemma queue3_fits : queue_fits queue3.
Proof.
  split; [|split; vm_compute; discriminate]. apply Forall_forall.
  apply (bool_decide_unpack _). vm_compute. exact I.
Qed.

Lemma pull_proofs_spec_witness :
  ∃ ret num_unique fully_utilized,
    pull_proofs in_order_of_authors {[bi_of 1]} limits0 true 0 queue3 =
      Ok (ret, num_unique, fully_utilized) ∧
    (∀ p, p ∈ ret → pullable queue3 {[bi_of 1]} p) ∧ NoDup (key_of <$> ret) ∧
    num_unique = unique_txns queue3 {[bi_of 1]} 0 ret.
Proof.
  destruct (pull_proofs_spec peer1 queue3 {[bi_of 1]} limits0 true 0 in_order_of_authors)
    as (ret & n & full & H1 & H2 & H3 & _ & _ & _ & H4 & _).
  - apply queue3_history.
  - apply queue3_fits.
  - vm_compute. intuition discriminate.
  - intros n iters. reflexivity.
  - exists ret, n, full. split; [|split; [|split]]; assumption.
Defined.

(** ** The manager *)

Definition manager0 : ProofManager := ProofManager_new peer1 100 1 true.
Definition no_pressure : BackPressure := {| bp_txn_count := false; bp_proof_count := false |}.
Definition proofs_received : ProofManagerCommand :=
  ReceiveProofs [(None, proof_of (bi_of 0)); (None, proof_of (bi_of 1))].
Definition batches_received : ProofManagerCommand :=
  ReceiveBatches None [(bi_of 2, summary (PersistedValue_from (nth 2 message created.2)))].
Definition step1 : ProofManager * BackPressure * option BackPressure :=
  unwrap (manager0, no_pressure, None) (command_step proofs_received manager0 no_pressure).
Definition step2 : ProofManager * BackPressure * option BackPressure :=
  unwrap step1 (command_step batches_received step1.1.1 step1.1.2).
Definition sent2 : list BackPressure := option_list step1.2 ++ option_list step2.2.

Lemma step_pair (r : ProofManager * BackPressure * option BackPressure) : r = (r.1.1, r.1.2, r.2).
Proof. by destruct r as [[]]. Qed.

Lemma manager2_history : manager_history peer1 100 1 true step2.1.1 step2.1.2 sent2.
Proof.
  apply (ManagerCommand peer1 100 1 true step1.1.1 step1.1.2 (option_list step1.2)
    batches_received step2.1.1 step2.1.2 step2.2).
  - apply (ManagerCommand peer1 100 1 true manager0 no_pressure [] proofs_received
      step1.1.1 step1.1.2 step1.2).
    + apply ManagerNew.
    + apply (bool_decide_unpack _). vm_compute. exact I.
    + rewrite <- step_pair. unfold step1. apply returns. vm_compute. reflexivity.
  - exact I.
  - rewrite <- step_pair. unfold step2. apply returns. vm_compute. reflexivity.
Qed.

Lemma back_pressure_current_witness :
  bp_proof_count (qs_back_pressure step2.1.1) = true ∧
  default no_pressure (last sent2) = qs_back_pressure step2.1.1.
Proof.
  split; [vm_compute; reflexivity|].
  apply (back_pressure_current peer1 100 1 true step2.1.1 step2.1.2 sent2).
  - discriminate.
  - discriminate.
  - apply manager2_history.
Defined.

(** A request for the next block, after one that has the first batch. *)
Definition block_before : Payload :=
  InQuorumStore {| pwd_proofs := [proof_of (bi_of 0)]; pwd_status := 1%positive |}.
Definition request : GetPayloadRequest :=
  {| req_limits := limits0; req_max_inline_txns := 4; req_max_inline_bytes := 40;
     req_return_non_full := true; req_filter := PayloadFilter_from [block_before];
     req_block_timestamp_secs := 0 |}.
Lemma store1_reads key : get_batch_from_local key store1 ≠ Panic.
Proof.
  unfold get_batch_from_local, get_batch_from_db. simpl.
  repeat case_match; discriminate.
Qed.

Lemma proposal_within_limits_witness :
  ∃ p, handle_proposal_request in_order_of_authors in_order_of_authors 2%positive store1 request
         step2.1.1 = Ok p ∧
    NoDup (batches_of p) ∧
    ∀ b, b ∈ batches_of p → b ∉ batches_of block_before.
Proof.
  destruct (proposal_within_limits peer1 100 1 true step2.1.1 step2.1.2 sent2 in_order_of_authors
    in_order_of_authors store1 2%positive request [block_before]) as (p & Hp & H).
  - discriminate.
  - discriminate.
  - apply manager2_history.
  - intros n iters. reflexivity.
  - intros n iters. reflexivity.
  - apply store1_reads.
  - split.
    + split; [|split; vm_compute; discriminate]. apply Forall_forall.
      apply (bool_decide_unpack _). vm_compute. exact I.
    + split; [|split; vm_compute; discriminate]. apply Forall_forall.
      apply (bool_decide_unpack _). vm_compute. exact I.
  - vm_compute. intuition discriminate.
  - reflexivity.
  - constructor; [reflexivity|constructor].
  - destruct H as (H1 & H2 & _). exists p. split; [exact Hp|]. split; [exact H1|].
    intros b Hb Hbefore. assert (b ∈ opt_inline_of block_before) as Hin.
    { apply (H2 b block_before Hb); [apply list_elem_of_here|exact Hbefore]. }
    apply elem_of_nil in Hin. destruct Hin.
Defined.

(** ** Panics *)

Lemma answers {S E A} (a : A) (r : S * result E A) : r.2 = Ok a → r = (r.1, Ok a).
Proof. destruct r. simpl. by intros ->. Qed.

Definition is_panic {E A} (r : result E A) : bool := if r is Panic then true else false.
Lemma panics {E A} (r : result E A) : is_panic r = true → r = Panic.
Proof. by destruct r. Qed.

(** Two batches of one author with the same transactions, and so the same
    digest, the second to expire later. *)
Definition early : Batch := Batch_new toy_hash toy_size (BatchId_new 5) [7; 9] 1 10 peer1 6.
Definition late : Batch := Batch_new toy_hash toy_size (BatchId_new 6) [7; 9] 1 20 peer1 6.
Definition inserted : BatchStore * result anyhow bool := insert_entry (PersistedValue_from early) store0.
Definition replaced : BatchStore * result anyhow bool :=
  insert_to_cache (PersistedValue_from late) inserted.1.
Definition expired : BatchStore := unwrap store0 (update_certified_timestamp 25 replaced.1).

(** An insertion is two steps, the entry of the cache and the expiration, and
    another thread can come in between.  Two verified batches with one digest:
    the entry of the first is made, the second one is inserted and replaces it,
    a certified time removes it as expired, and only then the expiration of the
    first is added - the next certified time panics, since the digest it finds
    expired is not in the cache. *)
Theorem late_expiration_panics :
  Batch_verify toy_hash toy_size early = Ok tt ∧ Batch_verify toy_hash toy_size late = Ok tt ∧
  insert_entry (PersistedValue_from early) store0 = (inserted.1, Ok true) ∧
  insert_to_cache (PersistedValue_from late) inserted.1 = (replaced.1, Ok true) ∧
  update_certified_timestamp 25 replaced.1 = Ok expired ∧
  update_certified_timestamp 26
    (add_expiration (bi_digest (batch_info early)) (bi_expiration (batch_info early)) expired) = Panic.
Proof.
  split; [vm_compute; reflexivity|]. split; [vm_compute; reflexivity|].
  split; [apply (answers true); vm_compute; reflexivity|].
  split; [apply (answers true); vm_compute; reflexivity|].
  split; [unfold expired; apply returns; vm_compute; reflexivity|].
  apply panics. vm_compute. reflexivity.
Qed.

(** Two batches of one author with the same id and different transactions. *)
Definition small : Batch := Batch_new toy_hash toy_size (BatchId_new 5) [7] 1 10 peer1 6.
Definition large : Batch := Batch_new toy_hash toy_size (BatchId_new 5) [7; 9] 1 10 peer1 6.
Definition small_queued : ProofQueue :=
  unwrap queue0 (push None (proof_of (batch_info small)) queue0).

(** The commit of a batch is counted with its own size, although the queue
    may hold another one under its key: an author that uses an id for two
    batches, both verified, of which the smaller one is queued and the larger
    one committed, makes the queue of the validators panic. *)
Theorem conflicting_commit_panics :
  Batch_verify toy_hash toy_size small = Ok tt ∧ Batch_verify toy_hash toy_size large = Ok tt ∧
  BatchKey_from_info (batch_info small) = BatchKey_from_info (batch_info large) ∧
  push None (proof_of (batch_info small)) queue0 = Ok small_queued ∧
  mark_committed [batch_info large] small_queued = Panic.
Proof.
  split; [vm_compute; reflexivity|]. split; [vm_compute; reflexivity|].
  split; [vm_compute; reflexivity|].
  split; [unfold small_queued; apply returns; vm_compute; reflexivity|].
  apply panics. vm_compute. reflexivity.
Qed.
