(* ===== verification/OrderingExamples.v ===== *)
(** Blocks of a concrete network put in the order they are executed in: the
    witnesses of the theorems on the deduper, the shufflers and the preparer. *)
From S2P Require Import Prelude Laptos Toy Payload Block BatchStore Scenario.
From S2P Require Import TxnOrder Deduper SenderAware SenderAwareSafety DelayedQueue DelayedQueueSafety UseCaseAwareSafety BlockPreparer.

(** Transactions of the senders 1 to 3; the authenticator is the transaction. *)
Definition toy_authenticator (t : SignedTransaction) : Z := t.
Definition toy_txns : list SignedTransaction := [100; 101; 200; 101; 102; 300].

Lemma toy_hashes_ok txns : hashes_ok toy_authenticator txns.
Proof. intros t u _ _ [= -> _]. done. Qed.

(** The second of two equal transactions is dropped. *)
Lemma dedup_keeps_first_witness :
  dedup toy_authenticator toy_txns = Ok [100; 101; 200; 102; 300].
Proof.
  destruct (dedup_keeps_first toy_authenticator toy_txns (toy_hashes_ok toy_txns)) as [Hd _].
  rewrite Hd. vm_compute. reflexivity.
Defined.

Definition toy_block_txns : list SignedTransaction := [100; 101; 102; 200; 201; 300].

(** A sender waits while others are there. *)
Example toy_shuffled : SenderAwareShuffler_shuffle 2 toy_block_txns = Ok [100; 200; 300; 101; 201; 102].
Proof. vm_compute. reflexivity. Qed.

Lemma sender_aware_shuffle_ok_witness :
  ∃ out, SenderAwareShuffler_shuffle 2 toy_block_txns = Ok out ∧ keeps_sender_order out toy_block_txns.
Proof.
  destruct (sender_aware_shuffle_ok 2 toy_block_txns) as (out & Hout & Hk & _);
    [unfold i64_MAX; lia|unfold i64_MAX; simpl; lia|].
  exists out. split; assumption.
Defined.

(** The use case of a transaction is its gas price. *)
Definition toy_use_case (t : SignedTransaction) : UseCaseKey :=
  if (t mod 10 =? 0) then Platform else ContractAddress (t mod 10).
Definition toy_spread : Config :=
  {| sender_spread_factor := 2; platform_use_case_spread_factor := 0;
     user_use_case_spread_factor := 1 |}.

Lemma toy_spread_fits n : 0 ≤ n ≤ 100 → config_fits n toy_spread.
Proof.
  intros Hn. split; [lia|]. intros f Hf. unfold toy_spread in Hf. simpl in Hf. unfold u64_MAX.
  repeat (apply elem_of_cons in Hf as [->|Hf]; [lia|]). by apply elem_of_nil in Hf.
Qed.

Example toy_spread_out :
  UseCaseAwareShuffler_shuffle SignedTransaction_sender toy_use_case toy_spread toy_block_txns =
  Ok [100; 200; 300; 101; 201; 102].
Proof. vm_compute. reflexivity. Qed.

Lemma use_case_aware_shuffle_ok_witness :
  ∃ out, UseCaseAwareShuffler_shuffle SignedTransaction_sender toy_use_case toy_spread toy_block_txns =
    Ok out ∧ keeps_sender_order out toy_block_txns.
Proof.
  destruct (use_case_aware_shuffle_ok SignedTransaction_sender toy_use_case (λ _, eq_refl) toy_spread
    toy_block_txns) as (out & Hout & Hk & _); [apply toy_spread_fits; simpl; lia|].
  exists out. split; assumption.
Defined.

(** A payload manager whose block has [toy_txns] and a limit, and a filter that
    denies sender 3. *)
Definition toy_get_transactions (block : Block) :
    SM unit ExecutorError (list SignedTransaction * option Z) := mret (toy_txns, Some 3).
Definition toy_filter : Filter :=
  {| filter_is_empty := false;
     filter_allows _ _ t := negb (bool_decide (SignedTransaction_sender t = 3)) |}.

Lemma prepared_block_ok_witness :
  ∃ shuffle, create_transaction_shuffler SignedTransaction_sender toy_use_case (UseCaseAware 2 0 1) =
      Ok shuffle ∧
    ∃ out, prepare_block toy_authenticator toy_get_transactions toy_filter TxnHashAndAuthenticatorV1
        shuffle b1 tt = (tt, Ok out) ∧ length out = 3%nat.
Proof.
  destruct (prepared_block_ok SignedTransaction_sender toy_use_case toy_authenticator (λ _, eq_refl)
    toy_get_transactions toy_filter TxnHashAndAuthenticatorV1 (UseCaseAware 2 0 1) 6 b1 tt tt (Ok (toy_txns, Some 3)) eq_refl)
    as (shuffle & Hs & out & Hout & _ & _ & _ & Hlen).
  - intros txns max [= <- <-]. split; [intros _; apply toy_hashes_ok|simpl; lia].
  - apply toy_spread_fits. lia.
  - exists shuffle. split; [assumption|]. exists out. split; [assumption|].
    rewrite Hlen. vm_compute. reflexivity.
Defined.
