(* ===== verification/ReaderExamples.v ===== *)
(** Reading batches of a concrete network: a batch fetched from a signer, a
    request that nobody answers, and a responder that forges the information of
    a batch. *)
From S2P Require Import Prelude Laptos Toy Payload Expirations BatchStore BatchStoreSafety ProofQueue.
From S2P Require Import Batches BatchMessages QuorumStoreDb BatchGenerator BatchReader BatchReaderSafety.
From S2P Require Import Scenario QuorumStoreExamples.

(** The networks are the validators' and another one. *)
#[local] Abbreviation validators := true.

Definition requester : BatchRequester :=
  {| br_my_network_id := validators; br_my_peer_id := 2; br_request_num_peers := 2;
     br_retry_limit := 2; br_validator_verifier := vset |}.
Definition genuine : Batch := Batch_new toy_hash toy_size (BatchId_new 5) [7; 9] 1 160 1 6.
Definition genuine_key : BatchKey := pv_key (PersistedValue_from genuine).

(** A first request, which one peer refuses and the other one answers. *)
Definition fetch_events : list RequesterEvent :=
  [Tick 1; Response (Err "timeout"%string); Response (Ok (BatchResponseMsg genuine))].
Definition fetched : BatchStore * result anyhow Answer :=
  get_batch toy_hash toy_size validators requester genuine_key 160 [1; 2; 3] (Ok []) 7
    fetch_events store0.

Lemma store0_reader : reader_history toy_hash toy_size validators store0.
Proof. apply ReaderNew. intros key v H. discriminate H. Qed.

Lemma batch_answers_authentic_witness :
  ∃ self' txns, fetched = (self', Ok (Sent (Ok txns))) ∧
    (∃ author, toy_hash author txns = bk_digest genuine_key) ∧
    ∀ key' v, get_batch_from_local key' self' = Ok v → holds_batch toy_hash key' v.
Proof.
  assert (fetched = (fetched.1, Ok (Sent (Ok (bpl_txns (batch_payload genuine)))))) as Hf.
  { assert (fetched.2 = Ok (Sent (Ok (bpl_txns (batch_payload genuine))))) as <-
      by (vm_compute; reflexivity).
    apply surjective_pairing. }
  exists fetched.1, (bpl_txns (batch_payload genuine)). split; [exact Hf|].
  destruct (batch_answers_authentic toy_hash toy_size validators requester genuine_key 160
    [1; 2; 3] (Ok []) 7 fetch_events store0 fetched.1
    (Ok (Sent (Ok (bpl_txns (batch_payload genuine)))))) as [Ha Hs].
  - apply store0_reader.
  - repeat constructor.
  - exact Hf.
  - split; [apply Ha; reflexivity|exact Hs].
Defined.

(** Both draws ask two of the three peers, and nobody has the batch. *)
Definition silent_events : list RequesterEvent :=
  [Tick 0; Response (Err "timeout"%string); Tick 0; Response (Ok OtherMsg);
   Response (Err "timeout"%string); Response (Err "timeout"%string)].

Definition used_up : BatchRequesterState :=
  {| brs_signers := [1; 3; 4]; brs_next_index := 1; brs_num_retries := 2; brs_retry_limit := 2 |}.

Lemma batch_request_ends_witness :
  request_batch toy_hash toy_size validators requester genuine_key 160 [1; 2; 3; 4] (Ok [])
    (silent_events ++ [Tick 0]) = Ok (Some (Served (Err CouldNotGetData) None)).
Proof.
  destruct (batch_request_ends toy_hash toy_size validators requester genuine_key 160 [1; 2; 3; 4]
    (Ok []) silent_events 2 2) as (_ & Hend & _).
  - discriminate.
  - reflexivity.
  - reflexivity.
  - lia.
  - discriminate.
  - discriminate.
  - repeat constructor; discriminate.
  - apply (Hend used_up 0).
    + vm_compute. reflexivity.
    + vm_compute. lia.
Defined.

(** ** Forged information *)

(** The genuine transactions, with another epoch and a late expiration. *)
Definition forged : Batch :=
  let info := batch_info genuine in
  {| batch_info :=
       {| bi_author := bi_author info; bi_batch_id := bi_batch_id info; bi_epoch := 9;
          bi_expiration := 1000000; bi_digest := bi_digest info; bi_num_txns := bi_num_txns info;
          bi_num_bytes := bi_num_bytes info; bi_gas_bucket_start := bi_gas_bucket_start info |};
     batch_payload := batch_payload genuine |}.

(** A store whose memory holds less than one batch. *)
Definition small_store : BatchStore := BatchStore_new 1 0 empty_db 4 100 5 (2, 2).

Lemma forged_batch_signed_unavailable_witness :
  ∃ self1 self2 si,
    store_fetched (batch_info forged) (bpl_txns (batch_payload forged)) small_store = (self1, Ok tt) ∧
    persist [PersistedValue_from genuine] self1 = (self2, Ok [si]) ∧
    sbi_info si = batch_info genuine ∧ bst_last_certified_time self2 < 160 ∧
    get_batch_from_local genuine_key self2 = Err CouldNotGetData.
Proof.
  apply (forged_batch_signed_unavailable toy_hash toy_size [] [] small_store forged
    (PersistedValue_from genuine)).
  - apply HistoryNew; vm_compute; intuition discriminate.
  - vm_compute. reflexivity.
  - vm_compute. discriminate.
  - vm_compute. discriminate.
  - split; [vm_compute; reflexivity|]. split; [vm_compute; discriminate|].
    exists [7; 9]. split; vm_compute; reflexivity.
  - vm_compute. reflexivity.
  - vm_compute. reflexivity.
  - vm_compute. split; [reflexivity|discriminate].
  - split; vm_compute; discriminate.
  - vm_compute. reflexivity.
  - reflexivity.
  - vm_compute. reflexivity.
Defined.
