(* ===== verification/ObserverExamples.v ===== *)
(** An observer of a concrete network: it subscribes to a peer, receives the
    payload of a block and the block, and hands it to execution.  The witnesses
    of the theorems on the observer are evaluated here. *)
From S2P Require Import Prelude Laptos Toy Payload Certificates Block Votes BlockBuffer Pipelined.
From S2P Require Import Expirations BatchStore Batches ObserverMessages ObserverPayloads ObserverStores.
From S2P Require Import ObserverStoresSafety Observer ObserverSafety.
From S2P Require Import Scenario QuorumStoreExamples BufferExamples TreeExamples.

(** ** The network *)

Definition toy_epoch_verify (es : EpochState) (proof : LedgerInfoWithSignatures) : result anyhow unit :=
  if EpochState_epoch es =? BlockInfo_epoch (proof_commit_info proof)
  then LedgerInfoWithSignatures_verify_signatures proof (EpochState_verifier es)
  else Err "LedgerInfo has unexpected epoch"%string.

Lemma toy_multi_no_panic (v : ValidatorVerifier) m s :
  ValidatorVerifier_verify_multi_signatures v m s ≠ Panic.
Proof. simpl. unfold check_agg, check_power. repeat case_match; discriminate. Qed.
Lemma toy_epoch_no_panic es li : toy_epoch_verify es li ≠ Panic.
Proof.
  unfold toy_epoch_verify. case_match; [|discriminate]. simpl. unfold check_agg, check_power.
  repeat case_match; discriminate.
Qed.

Definition three_signatures (message : list Z) : list (Z * list Z) := (λ a, (a, message)) <$> [1; 2; 3].
Definition signed_ledger_info (li : LedgerInfo) : LedgerInfoWithSignatures :=
  (li, three_signatures (signing_message li)).

(** A batch with its proof, and a block with the batch. *)
Definition observed_batch : Batch := Batch_new toy_hash toy_size (BatchId_new 5) [7; 9] 1 160 1 6.
Definition observed_proof : ProofOfStore :=
  let info := batch_info observed_batch in
  {| pos_info := info; pos_multi_signature := three_signatures (signing_message info) |}.
Definition observed_payload : Payload :=
  InQuorumStore {| pwd_proofs := [observed_proof]; pwd_status := 1%positive |}.
Definition observed_data : BlockData :=
  {| bd_epoch := 1; bd_round := 1; bd_timestamp_usecs := 100; bd_quorum_cert := cert 0 0;
     bd_block_type := Proposal observed_payload 1 [] |}.
Definition observed_block : PipelinedBlock :=
  PipelinedBlock_new_ordered
    {| block_id := hash observed_data; block_block_data := observed_data;
       block_signature := None; block_block_number := None |}.
Definition observed_info : BlockInfo := PipelinedBlock_block_info observed_block.
Definition observed_ordered : OrderedBlock :=
  {| ob_blocks := [observed_block];
     ob_ordered_proof := signed_ledger_info (LI observed_info []) |}.
Definition published : BlockPayload :=
  {| bpm_block := observed_info;
     bpm_transaction_payload := new_in_quorum_store [7; 9] [observed_proof] |}.
Definition observer_root : LedgerInfoWithSignatures := (LI (info_of 0) [], []).

(** Peers and latencies are numbers. *)
#[local] Abbreviation run := (observer_run toy_hash toy_epoch_verify (PeerNetworkId:=Z) Z.leb 10000 100 2
  epoch_1 true 5000 observer_root None).
Definition observer_events : list (ObserverEvent (PeerNetworkId:=Z) (Latency:=Z)) :=
  [ProgressCheck 0 (Some [(7, {| pm_distance := Some 1; pm_latency := None |})]) (λ _, Ok SubscribeAck);
   DirectSend 1 8 (OrderedBlockMsg observed_ordered);
   DirectSend 2 7 (BlockPayloadMsg published);
   DirectSend 3 7 (OrderedBlockMsg observed_ordered)].
Definition observer0 : ConsensusObserver (PeerNetworkId:=Z) :=
  ConsensusObserver_new 2 5000 None observer_root.
Definition observer1 : ConsensusObserver (PeerNetworkId:=Z) := unwrap observer0 (run observer_events).
Definition observer_subscription : ConsensusObserverSubscription Z :=
  {| cos_max_subscription_timeout_ms := 5000; cos_peer_network_id := 7;
     cos_last_message_receive_time := 3; cos_last_peer_optimality_check := 0;
     cos_highest_synced_version_and_time := (0, 0) |}.

Lemma observer1_runs : run observer_events = Ok observer1.
Proof. unfold observer1. apply returns. vm_compute. reflexivity. Qed.
(** The block it handed to execution. *)
Definition finalized_call (call : ExecutionCall) : option OrderedBlock :=
  match call with FinalizeOrder ob => Some ob | _ => None end.
Definition finalized1 : OrderedBlock := default observed_ordered (head (omap finalized_call (co_calls observer1))).
Definition finalized_block : PipelinedBlock := default observed_block (head (ob_blocks finalized1)).

Lemma head_elem_of {A} (d : A) (l : list A) : (length l =? 0)%nat = false → default d (head l) ∈ l.
Proof. destruct l; [done|]. intros _. apply list_elem_of_here. Qed.
Lemma observer1_finalized : FinalizeOrder finalized1 ∈ co_calls observer1.
Proof.
  assert (finalized1 ∈ omap finalized_call (co_calls observer1)) as Hin.
  { apply head_elem_of. vm_compute. reflexivity. }
  apply list_elem_of_omap in Hin as ([] & Hin & Heq); try discriminate Heq.
  injection Heq as ->. exact Hin.
Qed.
Lemma finalized_block_in : finalized_block ∈ ob_blocks finalized1.
Proof. apply head_elem_of. vm_compute. reflexivity. Qed.
Lemma observer1_subscribed : co_active_observer_subscription observer1 = Some observer_subscription.
Proof. vm_compute. reflexivity. Qed.
Lemma observer1_epoch : co_epoch_state observer1 = Some epoch_1.
Proof. vm_compute. reflexivity. Qed.

(** ** Witnesses *)

Lemma observer_finalizes_verified_witness :
  FinalizeOrder finalized1 ∈ co_calls observer1 ∧ blocks_chained (ob_blocks finalized1) ∧
  payload_of_block toy_hash (started (co_calls observer1)) (payload_received observer_events) finalized_block.
Proof.
  destruct (observer_finalizes_verified toy_hash toy_epoch_verify Z.leb 10000 100 2 ltac:(lia)
    toy_multi_no_panic toy_epoch_no_panic epoch_1 true 5000 observer_root None observer_events observer1)
    as [Hfin _].
  - apply observer1_runs.
  - destruct (Hfin finalized1 observer1_finalized) as (Hc & _ & _ & Hp).
    split; [apply observer1_finalized|]. split; [exact Hc|]. apply Hp, finalized_block_in.
Defined.

Lemma observer_bounded_witness :
  Z.of_nat (size (bps_block_payloads (co_block_payload_store observer1))) ≤ 2 ∧
  (∃ self', observer_step toy_hash toy_epoch_verify Z.leb 10000 100
     (DirectSend 4 7 (OrderedBlockMsg observed_ordered)) observer1 = Ok self').
Proof.
  destruct (observer_bounded toy_hash toy_epoch_verify Z.leb 10000 100 2 ltac:(lia)
    toy_multi_no_panic toy_epoch_no_panic epoch_1 true 5000 observer_root None observer_events observer1)
    as (Hp & _ & _ & Hstep).
  - apply observer1_runs.
  - split; [exact Hp|]. destruct (Hstep (DirectSend 4 7 (OrderedBlockMsg observed_ordered)))
      as [Hok|[_ (?&?&?&?&?&?&_)]]; [exact Hok|discriminate].
Defined.

Lemma observer_survives_witness : ∃ self, run observer_events = Ok self.
Proof.
  apply (observer_survives toy_hash toy_epoch_verify Z.leb 10000 100 2 ltac:(lia)
    toy_multi_no_panic toy_epoch_no_panic epoch_1 true 5000 observer_root None observer_events).
  repeat (split; [exact I|intros ? _]). exact I.
Defined.

Lemma payload_replaced_witness :
  ∃ self', observer_step toy_hash toy_epoch_verify Z.leb 10000 100
      (DirectSend 4 7 (BlockPayloadMsg (blank_payload observed_info))) observer1 = Ok self' ∧
    (get_transactions_for_observer (PeerNetworkId:=Z) (pb_block finalized_block)
       (bps_block_payloads (co_block_payload_store self')) None).2 = Ok ([], None).
Proof.
  apply (payload_replaced toy_hash toy_epoch_verify Z.leb 10000 100 2 ltac:(lia)
    toy_multi_no_panic toy_epoch_no_panic epoch_1 true 5000 observer_root None observer_events
    observer1 epoch_1 observer_subscription finalized1 finalized_block).
  - apply observer1_runs.
  - apply observer1_subscribed.
  - apply observer1_epoch.
  - apply observer1_finalized.
  - apply finalized_block_in.
  - vm_compute. reflexivity.
  - vm_compute. reflexivity.
  - vm_compute. reflexivity.
  - vm_compute. reflexivity.
Defined.

(** A decision of epoch 0 without signatures. *)
Definition old_decision : ObserverCommitDecision :=
  {| ocd_commit_proof := (LI (BI 0 50 [50] [7] 0 0 None) [], []) |}.

Lemma foreign_commit_unverified_witness :
  ocd_epoch old_decision < EpochState_epoch epoch_1 ∧
  ∃ self', observer_step toy_hash toy_epoch_verify Z.leb 10000 100
      (DirectSend 4 7 (CommitDecisionMsg old_decision)) observer1 = Ok self' ∧
    co_root self' = ocd_commit_proof old_decision.
Proof.
  split; [reflexivity|].
  destruct (foreign_commit_unverified toy_hash toy_epoch_verify Z.leb 10000 100
    observer1 epoch_1 observer_subscription
    old_decision (PipelinedBlock_block_info observed_block) 4) as (self' & Hs & Hr & _).
  - apply observer1_subscribed.
  - apply observer1_epoch.
  - discriminate.
  - vm_compute. reflexivity.
  - right. vm_compute. reflexivity.
  - vm_compute. discriminate.
  - exists self'. split; assumption.
Defined.

Definition stored1 : EpochRound * (OrderedBlock * option ObserverCommitDecision) :=
  default ((0, 0), (observed_ordered, None)) (head (get_all_ordered_blocks (co_ordered_block_store observer1))).
Lemma stored1_in : obs_ordered_blocks (co_ordered_block_store observer1) !! stored1.1 = Some stored1.2.
Proof.
  apply (elem_of_btree_list epoch_round_le). rewrite <- surjective_pairing.
  apply head_elem_of. vm_compute. reflexivity.
Qed.

Lemma stale_decision_panics_witness :
  ∃ self', observer_step toy_hash toy_epoch_verify Z.leb 10000 100
      (DirectSend 4 7 (CommitDecisionMsg old_decision)) observer1 = Ok self' ∧
    observer_step toy_hash toy_epoch_verify Z.leb 10000 100 (SyncNotification 9 0 50 None) self' = Panic.
Proof.
  destruct (stale_decision_panics toy_hash toy_epoch_verify Z.leb 10000 100 2 ltac:(lia)
    toy_multi_no_panic toy_epoch_no_panic epoch_1 true 5000 observer_root None observer_events
    observer1 epoch_1 observer_subscription old_decision observed_info stored1.1 stored1.2 4)
    as (self' & Hs & Hp).
  - apply observer1_runs.
  - apply observer1_subscribed.
  - apply observer1_epoch.
  - vm_compute. reflexivity.
  - apply stored1_in.
  - vm_compute. reflexivity.
  - reflexivity.
  - vm_compute. reflexivity.
  - vm_compute. reflexivity.
  - exists self'. split; [exact Hs|apply Hp].
Defined.

(** ** Payloads *)

Lemma toy_collision_free : collision_free toy_hash.
Proof. intros author txns txns' Heq. injection Heq as ->. reflexivity. Qed.
Lemma observed_batch_txns : batch_txns toy_hash (batch_info observed_batch) [7; 9].
Proof. split; reflexivity. Qed.

Lemma accepted_payload_exact_witness :
  txns_transactions (bpm_transaction_payload published) = [7; 9] ∧
  txns_limit (bpm_transaction_payload published) = None.
Proof.
  apply (accepted_payload_exact toy_hash observed_payload published [[7; 9]]).
  - apply toy_collision_free.
  - exact I.
  - vm_compute. reflexivity.
  - vm_compute. reflexivity.
  - apply Forall2_cons. split; [apply observed_batch_txns|apply Forall2_nil, I].
Defined.

(** A batch that the block does not have. *)
Definition extra_batch : Batch := Batch_new toy_hash toy_size (BatchId_new 6) [8] 1 160 4 6.

Lemma extra_transactions_accepted_witness :
  let p := add_batch (batch_info extra_batch) [8] published in
  verify_against_ordered_payload observed_payload (bpm_transaction_payload p) = Ok tt ∧
  verify_payload_digests toy_hash p = Ok tt ∧ verify_payload_signatures epoch_1 p = Ok tt ∧
  txns_transactions (bpm_transaction_payload p) =
  txns_transactions (bpm_transaction_payload published) ++ [8].
Proof.
  apply (extra_transactions_accepted toy_hash observed_payload published (batch_info extra_batch)
    [8] epoch_1).
  - left. eexists. reflexivity.
  - exact I.
  - vm_compute. reflexivity.
  - vm_compute. reflexivity.
  - vm_compute. reflexivity.
  - split; reflexivity.
Defined.

Definition opt_payload : Payload :=
  OptQuorumStore
    {| oqs_inline_batches := []; oqs_opt_batches := {| bp_batch_summary := []; bp_status := 2%positive |};
       oqs_proofs := {| bp_batch_summary := [observed_proof]; bp_status := 3%positive |};
       oqs_execution_limits := NoLimit |}.

Lemma opt_payload_rejected_witness :
  ∃ msg, verify_against_ordered_payload opt_payload (bpm_transaction_payload published) =
    Err (InvalidMessageError msg).
Proof.
  apply (opt_payload_rejected opt_payload (bpm_transaction_payload published)).
  left. eexists. reflexivity.
Defined.

(** A store with room for one payload. *)
Definition full_store : BlockPayloadStore :=
  insert_block_payload published false (BlockPayloadStore_new 1).

Lemma full_store_payloads :
  bps_block_payloads full_store = <[bpm_key published := AvailableAndUnverified published]> ∅.
Proof. reflexivity. Qed.

Lemma full_store_unverified_witness :
  ∃ rounds, bps_verify_payload_signatures epoch_1 full_store = Ok (full_store, rounds) ∧
    BlockInfo_round (bpm_block published) ∈ rounds.
Proof.
  destruct (full_store_unverified epoch_1 full_store) as (rounds & Hv & Hin).
  - vm_compute. discriminate.
  - intros key p. rewrite full_store_payloads.
    intros [[_ [= <-]]|[_ Hk]]%lookup_insert_Some _; [vm_compute; reflexivity|].
    rewrite lookup_empty in Hk. discriminate Hk.
  - exists rounds. split; [exact Hv|]. apply (Hin (1, 1)); [|reflexivity].
    rewrite full_store_payloads. apply lookup_insert_eq.
Defined.
